(* ===== verification/_CoqProject ===== *)
-Q . S2P
Prelude.v
Effects.v
Threads.v
ThreadsLogic.v
ThreadsProgress.v
ThreadsAtomic.v
CppString.v
SensorTypes.v
SensorHandle.v
HalProxyState.v
HalProxy.v
HalProxyFacts.v
Wakelock.v
WakelockFacts.v
EventQueue.v
EventQueueFacts.v
HalProxyInit.v
HalProxyInitFacts.v
HalProxyCallback.v
HalProxySystem.v
HalProxyThreads.v
HalProxyAlone.v
HalProxyProtocol.v
HalProxyProtocolFacts.v
HalProxyThreadsFacts.v
HalProxyWakelockSafe.v
HalProxyQueueSafe.v
HalProxyThreadsSafe.v
HalProxyThreadsSystem.v
HalProxyThreadsProgress.v
HalProxyRaces.v
HalProxyDynamic.v
PowerMode.v
Fingerprint.v
FingerprintFacts.v
FpThreads.v
UsbTypes.v
UsbPort.v
UsbPortFacts.v
UsbRole.v
UsbThread.v
UsbThreadFacts.v
UsbThreads.v
UsbThreadsFacts.v
UsbThreadsProgress.v
UsbRaces.v
UsbGadget.v
UsbGadgetFacts.v
UsbGadgetLinks.v
UsbGadgetSetup.v
UsbMonitor.v
UsbGadgetThreads.v
UsbGadgetThreadsFacts.v
UsbGadgetRequests.v
UsbGadgetSafe.v
UsbGadgetProgress.v
UsbGadgetRaces.v
LibInit.v
Services.v
