(* ===== verification/Prelude.v ===== *)
(** * Verification of the camellia device tree

    The repository is the Android device tree of a phone (Redmi Note 10 5G,
    "camellia").  Its own logic is C++: the hardware abstraction layers (HALs)
    that Android's framework calls, and libinit, which runs once at boot.  This
    development models that code as Rocq functions and proves what makes each
    part correct.

    ** The program's parts

    - Sensors HAL proxy ([src/sensors/]).  A multi-HAL: the framework sees one
      HAL, the proxy forwards to sub-HALs, each a dynamic library.  A 32-bit
      sensor handle carries the sub-HAL's index in its top byte.  Events come
      back through a callback object per sub-HAL, go to a message queue, or,
      when it is full, to a bounded queue that a thread empties.  Wake-up events
      are covered by a kernel wake lock with a reference count, a time-out and a
      thread of its own.
    - USB HAL ([src/usb/Usb.cpp]).  Reads the type-C class of sysfs, reports the
      ports, switches roles; a thread listens to uevents, and wakes a role
      switch that waits for the partner.
    - USB gadget HAL ([src/usb/UsbGadget.cpp]).  Links functions into configfs; a
      monitor thread pulls the gadget up when userspace has opened the
      endpoints, and tells the caller through a condition variable.
    - Fingerprint HAL ([src/fingerprint/]).  A service around one of two vendor
      libraries; translates its messages for the framework.
    - Power HAL mode ([src/power/]).  Double tap to wake, as an input event.
    - libinit ([src/libinit/]).  Sets the properties that identify the device,
      by a table of variants, and those that size the heap.
    - Service processes (the [main] functions).

    ** How the model reads

    [Effects] is the language of the model: a method is a [prog E S A], a tree
    that reads and writes the object's fields [S], calls the environment through
    [E], an inductive type of calls with typed answers, and ends with a value or
    in undefined behaviour ([UB]: a null or indeterminate pointer, an access out
    of bounds, [std::terminate], a failed assertion).  A tree has two meanings.

    [run] executes it alone.  The environment is the class [Handler]: any
    function of the call and a state of its own.  So a theorem about [wp] holds
    for every behaviour of the kernel, the vendor's libraries and the framework,
    and says that the run meets no undefined behaviour.  Each call is logged with
    its answer; "is told once", "is written before", "is closed" are facts about
    the log.  What another thread does meanwhile is then part of the answer of
    the call where it becomes visible (a wait, a join, an interrupted poll).

    [Threads] interleaves any number of trees over the same fields, at every
    access and every call; calls that are mutexes, condition variables, thread
    creation, signals and joins act on the pool of threads instead of asking the
    environment.  [ThreadsLogic] is a rely-guarantee logic for it, with a
    soundness theorem for every schedule, of threads that are created on the way
    too; [ThreadsProgress] shows freedom from deadlock for threads that take
    mutexes in order, also where one joins another while it holds some;
    [ThreadsAtomic] shows that critical sections are atomic: operations on what
    one mutex protects take effect one after the other, in an order that keeps
    each thread's own, and each thread tells the results of that order.

    Code that is not in the repository is a parameter: HIDL constants and types
    are classes ([SensorConsts], [UsbConsts], [GadgetConsts], and those of
    [Fingerprint]) with the documented values as instances; the property area
    is the class [SysProp] with laws and a finite-map implementation; the order
    in which a [std::map] is visited is the class [MapOrder].  Integers are [Z]
    with the conversions of this file written out where the code converts.

    ** Files

    - [Prelude] (this file): machine integers, bit fields, lists, map order.
    - [Effects]: the monad, the environment, weakest preconditions, loops.
    - [Threads], [ThreadsLogic], [ThreadsProgress], [ThreadsAtomic]: threads that
      share fields and mutexes; rely-guarantee reasoning; freedom from deadlock;
      critical sections.
    - [CppString]: string functions of the C and C++ libraries.
    - [SensorTypes], [SensorHandle]: data of the sensors HAL; the handle's byte.
    - [HalProxyState]: fields and calls of [HalProxy]; [HalProxy]: the framework
      side of HalProxy.cpp; [HalProxyFacts]: its theorems.
    - [Wakelock], [WakelockFacts]: the wake-lock functions of HalProxy.cpp.
    - [EventQueue], [EventQueueFacts]: posting, the pending queue, its thread.
    - [HalProxyInit], [HalProxyInitFacts]: constructors, configuration file,
      [initialize], [stopThreads], the debug dump.
    - [HalProxyCallback]: HalProxyCallback.cpp.
    - [HalProxySystem]: all of these at once: posting sub-HALs, the two threads
      and the holders of wake locks as steps on one state, a section at a time.
    - [HalProxyThreads]: the same functions with their mutexes and waits, as trees
      of [Threads]; [HalProxyAlone]: without other threads they are those above.
    - [HalProxyProtocol]: what each mutex protects, and the invariant;
      [HalProxyProtocolFacts]: it is one; [HalProxyThreadsFacts]: what a thread
      knows while it holds mutexes, and a rule for each kind of move;
      [HalProxyWakelockSafe], [HalProxyQueueSafe], [HalProxyThreadsSafe]: every
      function keeps to it; [HalProxyThreadsSystem]: what follows for all threads
      together; [HalProxyThreadsProgress]: no deadlock; [HalProxyRaces]: runs;
      [HalProxyDynamic]: the table of dynamic sensors among threads.
    - [PowerMode]: power-mode.cpp.
    - [Fingerprint], [FingerprintFacts]: BiometricsFingerprint.cpp and .h;
      [FpThreads]: the process, from its start, and the vendor library's messages
      as threads.
    - [UsbTypes], [UsbPort], [UsbPortFacts], [UsbRole], [UsbThread],
      [UsbThreadFacts]: Usb.cpp and Usb.h, in the order of that file.
    - [UsbThreads]: what the pthread calls of Usb.cpp mean, and the protocol of
      its three mutexes; [UsbThreadsFacts]: every method keeps to it;
      [UsbThreadsProgress]: no deadlock; [UsbRaces]: runs that go wrong.
    - [UsbGadget]: all of UsbGadget.cpp but the monitor; [UsbGadgetFacts]:
      tearing down and the frames; [UsbGadgetLinks]: the links;
      [UsbGadgetSetup]: its theorems; [UsbMonitor]: the monitor thread.
    - [UsbGadgetThreads]: what the thread library's calls in UsbGadget.cpp mean,
      and the protocol of its two mutexes and of the monitor's life;
      [UsbGadgetThreadsFacts]: what a thread knows while it holds the mutex of
      requests; [UsbGadgetRequests]: requests keep to the protocol;
      [UsbGadgetSafe]: the monitor does, and all threads together;
      [UsbGadgetProgress]: no deadlock; [UsbGadgetRaces]: runs.
    - [Services]: the [main] functions.
    - [LibInit]: libinit.

    Definitions have the names of the source; a part of a long function that is
    a definition of its own is named after what it does.

    ** What the theorems show

    - The sensors HAL is modelled at two grains.  In [Wakelock], [EventQueue] and
      [HalProxySystem] its threads are cut into sections, and each operation has
      its functional theorem: when the count and the kernel's wake lock change,
      which events are written, queued, dropped, and within which bounds.  Left
      alone, each thread finishes its work in a number of sections that is given.
    - In [HalProxyThreads] the threads are cut at every access.  In every
      interleaving of the two workers, any number of sub-HALs and callers, and
      the thread that ends the proxy, nothing is undefined; the kernel's wake
      lock is held exactly while the count is positive, whenever its mutex is
      free; the batches that were accepted reach the framework's queue whole and in
      order; no wake-up of a worker is lost while the proxy lives; nothing
      deadlocks.  Alone, the functions with locks do what those without do, so
      the theorems on sections speak of the same code.  Runs are exhibited of what
      the mutexes do not exclude: [stopThreads] wakes a worker that does not
      wait yet, [initialize] resets what a post uses, and the debug dump reads
      the front of a queue that has just become empty.
    - Routing of calls refines the specification "the sub-HAL of the top byte
      gets the call with the byte cleared"; the operation mode is changed for
      all sub-HALs or for none; the table of sensors is complete and well
      formed; dynamic sensors come and go without touching those of others.
      Among threads, reports of dynamic sensors are atomic: in every interleaving
      the table is what the reports make of it in one order, the framework is
      told what each did, and a sub-HAL finds its entries as it left them.
    - The USB HAL handles every kernel message within its buffer, reports every
      port once whatever the order of the directory, reports a role switch
      truthfully, and has one thread exactly while a callback is registered.
      Its threads, in every interleaving, write shared fields and nodes under
      their mutexes only, report role switches truthfully, meet no undefined
      behaviour and do not deadlock, as long as one client sets callbacks; with
      two clients a run is exhibited that leaves a callback without a worker.
    - The gadget HAL answers every request once and truthfully, links what was
      asked for, leaks no descriptor; the monitor refines a specification of
      when to pull up ([UsbMonitor.follows]).  Requests, queries and the monitors
      that requests create are safe in every interleaving: there is one monitor
      at a time, no thread object is assigned or joined wrongly, what the monitor
      reads without a mutex does not change under it, SUCCESS is reported only
      after a pull-up within the request, and nothing deadlocks; but a run is
      exhibited after which functions that were refused are called applied.
    - The fingerprint HAL and the power HAL check what they should before they
      act.  The fingerprint service, from the start of its process and with messages
      that arrive while the instance is still constructed, uses the framework's
      callback only under its mutex and once a device is open, and nothing
      deadlocks, in every interleaving.  libinit sets the identity of exactly the device it runs on.

    ** Bounds

    - [CppString.strtok_loop] has the length of the string as fuel, and any more
      gives the same tokens ([strtok_loop_fuel]).
    - [UsbThread.uevent_loop] has one more than the length of the message, which
      is enough: running out would be undefined, and [uevent_event_safe] shows
      that nothing is.
    - [UsbRole.wait_partner], [UsbThread.work_loop] and [UsbMonitor.monitor_loop]
      have no bound in the code; [None] says that the run is not over, and the
      theorems say what is known then.  A thread that ends does so in a number
      of steps that only the environment decides.  Among threads, [Ret None] is
      a thread that still runs and is not looked at any further: the theorems on
      deadlocks leave such configurations out, and those on safety hold for every
      fuel, so for one that a given run does not use up.
    - The sections of the sensors HAL's threads run for [n] turns; the theorems on
      progress give an [n] that is enough.
    - Cut at every access, the loops of [HalProxyThreads] ([wait_wakelock],
      [handleWakelocks_loop], [wait_pending], [handlePendingWrites_loop]) have fuel
      as those of the other threads do: [Ret None] is a thread that still runs.
      A wait may end without a wake-up, as the C++ standard allows.  The count
      of wake-up events is assumed to stay below 2^63 ([small]), where the
      code's [size_t] does not wrap.

    ** What is not modelled

    - Log messages, and the text of the debug dump beyond its structure.
    - Exhaustion of memory or threads (an exception ends the process).
    - Weak memory: threads interleave accesses one at a time.
    - What holds when the framework initializes the sensors HAL again while
      sub-HALs post: the theorems on its threads begin where [initializeCommon]
      ends ([hal_ready]) and leave out [initialize] and the debug dump, which
      read and write under no mutex; [HalProxyRaces] shows what they do instead.
      For the same reason the theorems on dynamic sensors among threads are about
      reports alone: [initialize] clears their table without its mutex.
    - [displayInotifyEvent] of UsbGadget.cpp, which only logs, and only in builds
      with [DEBUG].
    - The shim of libaudioclient, which forwards its arguments; overlays,
      configuration, init scripts, SELinux policy and the build, which are data
      for other programs. *)
From stdpp Require Export base list numbers gmap strings.
From stdpp Require Import options.

Open Scope Z_scope.

(** * Machine integers

    A [w]-bit integer is a [Z]; [wrapu] and [wraps] are the conversions to the
    unsigned and to the signed (two's complement) type of width [w]. *)
Definition wrapu (w v : Z) : Z := v mod 2 ^ w.
Definition wraps (w v : Z) : Z := (v + 2 ^ (w - 1)) mod 2 ^ w - 2 ^ (w - 1).

Abbreviation to_int32 := (wraps 32).
Abbreviation to_uint32 := (wrapu 32).
Abbreviation to_uint64 := (wrapu 64).
(** The devices are LP64, so [size_t] has 64 bits. *)
Abbreviation to_size := (wrapu 64).

Definition in_uint (w v : Z) : Prop := 0 ≤ v < 2 ^ w.
Definition in_sint (w v : Z) : Prop := - 2 ^ (w - 1) ≤ v < 2 ^ (w - 1).

Lemma wrapu_id w v : in_uint w v → wrapu w v = v.
Proof. intros H. by apply Z.mod_small. Qed.

Lemma wrapu_range w v : 0 ≤ w → in_uint w (wrapu w v).
Proof. intros Hw. apply Z.mod_pos_bound. by apply Z.pow_pos_nonneg. Qed.

Lemma pow2_half w : 0 < w → 2 ^ w = 2 * 2 ^ (w - 1).
Proof. intros Hw. rewrite <- Z.pow_succ_r by lia. f_equal. lia. Qed.

Lemma wraps_id w v : 0 < w → in_sint w v → wraps w v = v.
Proof.
  intros Hw [H1 H2]. unfold wraps. pose proof (pow2_half w Hw).
  rewrite Z.mod_small; lia.
Qed.

Lemma wraps_range w v : 0 < w → in_sint w (wraps w v).
Proof.
  intros Hw. unfold wraps, in_sint. pose proof (pow2_half w Hw).
  pose proof (Z.mod_pos_bound (v + 2 ^ (w - 1)) (2 ^ w)
    ltac:(apply Z.pow_pos_nonneg; lia)). lia.
Qed.

(** * Tactics *)

(** Linear arithmetic with [/] and [mod] by constants. *)
Ltac div_lia := Z.to_euclidean_division_equations; lia.

(** One goal per element of a closed list. *)
Ltac elem_of_cases H :=
  repeat (apply elem_of_cons in H as [->|H]); try by apply elem_of_nil in H.

(** * Bit fields *)

(** Below bit [n] and from bit [n] on: no carry, so [or] is addition. *)
Lemma land_low_high n x k : 0 ≤ n → 0 ≤ x < 2 ^ n → Z.land x (k * 2 ^ n) = 0.
Proof.
  intros Hn Hx. apply Z.bits_inj'. intros i Hi. rewrite Z.land_spec, Z.bits_0.
  destruct (decide (i < n)).
  - rewrite Z.mul_pow2_bits_low by lia. apply andb_false_r.
  - rewrite <- (Z.mod_small x (2 ^ n)) by lia.
    by rewrite Z.mod_pow2_bits_high by lia.
Qed.

Lemma lor_low_high n x k : 0 ≤ n → 0 ≤ x < 2 ^ n → Z.lor x (k * 2 ^ n) = x + k * 2 ^ n.
Proof.
  intros Hn Hx. pose proof (land_low_high n x k Hn Hx) as H.
  by rewrite (Z.add_nocarry_lxor _ _ H), (Z.lxor_lor _ _ H).
Qed.

Lemma shiftr_low_high n x k : 0 ≤ n → 0 ≤ x < 2 ^ n → Z.shiftr (x + k * 2 ^ n) n = k.
Proof.
  intros Hn Hx. rewrite Z.shiftr_div_pow2 by done.
  rewrite Z.div_add by (apply Z.pow_nonzero; lia). rewrite Z.div_small; lia.
Qed.

Lemma mod_low_high n x k : 0 ≤ x < 2 ^ n → (x + k * 2 ^ n) mod 2 ^ n = x.
Proof. intros Hx. rewrite Z_mod_plus_full. by apply Z.mod_small. Qed.

(** * Lists *)

(** Position in a loop over the enumerated elements of [l]. *)
Lemma prefix_imap_pair {A} pre i (x : A) l :
  pre ++ [(i, x)] `prefix_of` imap pair l → l !! i = Some x.
Proof.
  intros [rest Hrest]. assert ((i, x) ∈ imap pair l) as Hin.
  { rewrite Hrest, !elem_of_app, list_elem_of_singleton. auto. }
  by apply elem_of_lookup_imap_1 in Hin as (j & y & [= <- <-] & ?).
Qed.

(** Lengths and positions in [Z]. *)
Definition zlen {A} (l : list A) : Z := Z.of_nat (length l).
Definition ztake {A} (n : Z) (l : list A) : list A := take (Z.to_nat n) l.
Definition zdrop {A} (n : Z) (l : list A) : list A := drop (Z.to_nat n) l.

Lemma zlen_app {A} (l1 l2 : list A) : zlen (l1 ++ l2) = zlen l1 + zlen l2.
Proof. unfold zlen. rewrite length_app. lia. Qed.

Lemma zlen_zdrop {A} n (l : list A) : 0 ≤ n ≤ zlen l → zlen (zdrop n l) = zlen l - n.
Proof. unfold zlen, zdrop. intros Hn. rewrite length_drop. lia. Qed.

Lemma concat_sublist {A} (l1 l2 : list (list A)) : sublist l1 l2 → sublist (concat l1) (concat l2).
Proof.
  induction 1 as [|x l1 l2 _ IH|x l1 l2 _ IH]; simpl; [done|by apply sublist_app|].
  by apply sublist_inserts_l.
Qed.

Lemma zlen_ztake {A} n (l : list A) : 0 ≤ n ≤ zlen l → zlen (ztake n l) = n.
Proof. unfold zlen, ztake. intros Hn. rewrite length_take. lia. Qed.

Lemma zlen_nonempty {A} (l : list A) : 0 < zlen l → l ≠ [].
Proof. intros Hl ->. done. Qed.

Lemma zdrop_app {A} n (l1 l2 : list A) : 0 ≤ n ≤ zlen l1 → zdrop n (l1 ++ l2) = zdrop n l1 ++ l2.
Proof.
  unfold zlen, zdrop. intros Hn. rewrite drop_app.
  replace (Z.to_nat n - length l1)%nat with 0%nat by lia. done.
Qed.

Lemma ztake_zdrop {A} n (l : list A) : ztake n l ++ zdrop n l = l.
Proof. apply take_drop. Qed.

Lemma zlen_pos {A} (l : list A) : l ≠ [] → 0 < zlen l.
Proof. unfold zlen. destruct l; [done|]. simpl. lia. Qed.

Lemma zdrop_all {A} n (l : list A) : zlen l ≤ n → zdrop n l = [].
Proof. unfold zlen, zdrop. intros Hn. apply drop_ge. lia. Qed.

Lemma zlen_nonneg {A} (l : list A) : 0 ≤ zlen l.
Proof. unfold zlen. lia. Qed.

Lemma Some_bind {A B} (a : A) (f : A → option B) : Some a ≫= f = f a.
Proof. done. Qed.

(** * Iterating over an associative container

    The order in which a [for] loop visits a [std::map] (whose declaration is
    not in the repository) or a [std::unordered_map] (unspecified) is a
    parameter: some enumeration of the bindings. *)
Class MapOrder (K V : Type) `{Countable K} := {
  iterate : gmap K V → list (K * V);
  iterate_perm m : iterate m ≡ₚ map_to_list m;
}.

Definition map_to_list_order K V `{Countable K} : MapOrder K V :=
  {| iterate := map_to_list; iterate_perm m := Permutation_refl _ |}.
