(* ===== verification/Effects.v ===== *)
(** Effects: the language in which the stateful code is written.

    A method of an object with fields [S] is a [prog E S A]: a tree that reads
    and writes the fields, calls the environment (the operating system, a vendor
    library, a binder callback) through the calls of [E], and returns an [A] or
    runs into undefined behaviour.  A tree says nothing about who else runs:
    [run] executes it alone, against an environment that is a [Handler], any
    function from calls to answers with a state [W] of its own; [Threads]
    interleaves several.  Every call is logged with its answer, so a statement
    about what the code asks of its environment, in which order and how often,
    is a statement about the log. *)
From S2P Require Import Prelude.
From stdpp Require Import options.

Inductive prog (E : Type → Type) (S A : Type) : Type :=
| Ret (a : A)
| Call {X : Type} (c : E X) (k : X → prog E S A)
| Get (k : S → prog E S A)
| Modify (f : S → S) (p : prog E S A)
(* a null or indeterminate pointer, an access out of bounds, [std::terminate], a
   failed assertion *)
| UB.
Arguments Ret {E S A} a.
Arguments Call {E S A X} c k.
Arguments Get {E S A} k.
Arguments Modify {E S A} f p.
Arguments UB {E S A}.

#[export] Instance prog_ret {E S} : MRet (prog E S) := λ A, Ret.

#[export] Instance prog_bind {E S} : MBind (prog E S) :=
  λ A B k, fix bind p :=
    match p with
    | Ret a => k a
    | Call c k' => Call c (λ x, bind (k' x))
    | Get k' => Get (λ s, bind (k' s))
    | Modify f p => Modify f (bind p)
    | UB => UB
    end.

(** * Running alone *)

(** A C++ computation ends, or runs into undefined behaviour. *)
Inductive outcome (A : Type) : Type :=
| Done (a : A)
| Undef.
Arguments Done {A} a.
Arguments Undef {A}.

(** One call to the environment, with the answer it gave. *)
Record entry (E : Type → Type) := Entry {
  entry_ty : Type;
  entry_call : E entry_ty;
  entry_res : entry_ty;
}.
Arguments Entry {E entry_ty} _ _.
Arguments entry_ty {E} _.
Arguments entry_call {E} _.
Arguments entry_res {E} _.

(** The environment: an answer and a next state for every call. *)
Class Handler (E : Type → Type) (W : Type) :=
  handle : ∀ X, E X → W → X * W.
Arguments handle {E W _ X} _ _.

Record exec (E : Type → Type) (W S A : Type) := Exec {
  ex_out : outcome (A * S);
  ex_world : W;
  ex_log : list (entry E);
}.
Arguments Exec {E W S A} _ _ _.
Arguments ex_out {E W S A} _.
Arguments ex_world {E W S A} _.
Arguments ex_log {E W S A} _.

Fixpoint run {E W S A} {H : Handler E W} (p : prog E S A) (s : S) (w : W) : exec E W S A :=
  match p with
  | Ret a => Exec (Done (a, s)) w []
  | Call c k =>
      let '(x, w') := handle c w in
      match run (k x) s w' with
      | Exec o w'' l => Exec o w'' (Entry c x :: l)
      end
  | Get k => run (k s) s w
  | Modify f p => run p (f s) w
  | UB => Exec Undef w []
  end.

(** Sequencing is running one after the other. *)
Lemma run_bind {E W S A B} {H : Handler E W} (p : prog E S A) (k : A → prog E S B) s w :
  run (p ≫= k) s w =
    match run p s w with
    | Exec (Done (a, s')) w' l =>
        match run (k a) s' w' with
        | Exec o w'' l' => Exec o w'' (l ++ l')
        end
    | Exec Undef w' l => Exec Undef w' l
    end.
Proof.
  unfold mbind. revert s w.
  induction p as [a|X c k' IH|k' IH|f p IH|]; intros s w; cbn [run prog_bind].
  - by destruct (run (k a) s w).
  - destruct (handle c w) as [x w']. unfold prog_bind in IH. rewrite IH.
    destruct (run (k' x) s w') as [[[a s']|] w'' l]; [|done]. by destruct (run (k a) s' w'').
  - apply IH.
  - apply IH.
  - done.
Qed.

Section operations.
Context {E : Type → Type} {S : Type}.

Definition call {X} (c : E X) : prog E S X := Call c Ret.
Definition get : prog E S S := Get Ret.
Definition modify (f : S → S) : prog E S unit := Modify f (Ret ()).
Definition undef {A} : prog E S A := UB.

(** A loop over the elements of a container. *)
Fixpoint foreach {A} (f : A → prog E S unit) (l : list A) : prog E S unit :=
  match l with
  | [] => mret ()
  | x :: l => f x ;; foreach f l
  end.

(** A loop that [break]s or [return]s as soon as its body gives a value. *)
Fixpoint foreach_until {A R} (f : A → prog E S (option R)) (l : list A)
    : prog E S (option R) :=
  match l with
  | [] => mret None
  | x :: l =>
      r ← f x;
      match r with
      | Some v => mret (Some v)
      | None => foreach_until f l
      end
  end.

(** A thread, cut into sections: [n] of them, starting at [a]. *)
Fixpoint sections {A} (f : A → prog E S A) (n : nat) (a : A) : prog E S A :=
  match n with
  | O => mret a
  | Datatypes.S n => a ← f a; sections f n a
  end.
End operations.

Lemma run_get_bind {E W S A} {H : Handler E W} (k : S → prog E S A) s w :
  run (get ≫= k) s w = run (k s) s w.
Proof. done. Qed.

Lemma run_call_bind {E W S X A} {H : Handler E W} (c : E X) (k : X → prog E S A) s w :
  run (call c ≫= k) s w =
    let '(x, w') := handle c w in
    match run (k x) s w' with
    | Exec o w'' l => Exec o w'' (Entry c x :: l)
    end.
Proof. done. Qed.

(** A part that asks nothing leaves no trace. *)
Lemma run_bind_silent {E W S A B} {H : Handler E W} (p : prog E S A) (k : A → prog E S B)
    s w a s' w' :
  run p s w = Exec (Done (a, s')) w' [] → run (p ≫= k) s w = run (k a) s' w'.
Proof. rewrite run_bind. intros ->. by destruct (run (k a) s' w'). Qed.

(** * Reasoning: weakest preconditions

    [wp p s w Q]: run from fields [s] in environment state [w], [p] meets no
    undefined behaviour and ends with a value, fields, environment and log
    that satisfy [Q]. *)
Definition wp {E W S A} {H : Handler E W} (p : prog E S A) (s : S) (w : W)
    (Q : A → S → W → list (entry E) → Prop) : Prop :=
  match run p s w with
  | Exec (Done (a, s')) w' l => Q a s' w' l
  | Exec Undef _ _ => False
  end.

#[global] Arguments run : simpl never.
#[global] Arguments mbind {_ _ _ _} _ _ : simpl never.
#[global] Arguments wp : simpl never.
#[global] Arguments prog_bind : simpl never.

Section wp.
Context {E : Type → Type} {W S : Type} {H : Handler E W}.
Implicit Types (s : S) (w : W).

Lemma wp_ret {A} (a : A) s w Q : Q a s w [] → wp (E:=E) (mret a) s w Q.
Proof. done. Qed.

Lemma wp_bind {A B} (p : prog E S A) (k : A → prog E S B) s w Q :
  wp p s w (λ a s' w' l, wp (k a) s' w' (λ b s'' w'' l', Q b s'' w'' (l ++ l'))) →
  wp (p ≫= k) s w Q.
Proof.
  unfold wp. rewrite run_bind. destruct (run p s w) as [[[a s']|] w' l]; [|done].
  by destruct (run (k a) s' w') as [[[b s'']|] w'' l'].
Qed.

Lemma bind_undef {A B} (p : prog E S A) (k : A → prog E S B) s w a s' w' l :
  run p s w = Exec (Done (a, s')) w' l → ex_out (run (k a) s' w') = Undef →
  ex_out (run (p ≫= k) s w) = Undef.
Proof.
  rewrite run_bind. intros ->. by destruct (run (k a) s' w') as [[[]|] w'' l'].
Qed.

Lemma wp_bind_inv {A B} (p : prog E S A) (k : A → prog E S B) s w Q :
  wp (p ≫= k) s w Q →
  wp p s w (λ a s' w' l, wp (k a) s' w' (λ b s'' w'' l', Q b s'' w'' (l ++ l'))).
Proof.
  unfold wp. rewrite run_bind. destruct (run p s w) as [[[a s']|] w' l]; [|done].
  by destruct (run (k a) s' w') as [[[b s'']|] w'' l'].
Qed.

Lemma wp_call {X} (c : E X) s w Q :
  (∀ x w', handle c w = (x, w') → Q x s w' [Entry c x]) → wp (call c) s w Q.
Proof. unfold wp, call. change (run (Call c Ret) s w) with
  (let '(x, w') := handle c w in Exec (E:=E) (Done (x, s)) w' [Entry c x]). destruct (handle c w) as [x w1] eqn:Hh. eauto. Qed.

Lemma wp_get s w Q : Q s s w [] → wp (E:=E) get s w Q.
Proof. done. Qed.

Lemma wp_modify (f : S → S) s w Q : Q () (f s) w [] → wp (E:=E) (modify f) s w Q.
Proof. done. Qed.

Lemma wp_mono {A} (p : prog E S A) s w (Q Q' : A → S → W → list (entry E) → Prop) :
  wp p s w Q → (∀ a s' w' l, Q a s' w' l → Q' a s' w' l) → wp p s w Q'.
Proof. unfold wp. destruct (run p s w) as [[[]|]]; eauto. Qed.

Lemma wp_run {A} (p : prog E S A) s w a s' w' l Q :
  wp p s w Q → run p s w = Exec (Done (a, s')) w' l → Q a s' w' l.
Proof. unfold wp. by intros HQ Hp; rewrite Hp in HQ. Qed.

Lemma wp_and {A} (p : prog E S A) s w (Q Q' : A → S → W → list (entry E) → Prop) :
  wp p s w Q → wp p s w Q' → wp p s w (λ a s' w' l, Q a s' w' l ∧ Q' a s' w' l).
Proof. unfold wp. destruct (run p s w) as [[[]|]]; eauto. Qed.

(** A loop keeps an invariant of the elements done, the fields and the log. *)
Lemma wp_foreach {A} (I : list A → S → list (entry E) → Prop)
    (f : A → prog E S unit) (l : list A) s w :
  I [] s [] →
  (∀ pre x s w lg, pre ++ [x] `prefix_of` l → I pre s lg →
    wp (f x) s w (λ _ s' _ lg', I (pre ++ [x]) s' (lg ++ lg'))) →
  wp (foreach f l) s w (λ _ s' _ lg, I l s' lg).
Proof.
  intros H0 Hstep.
  enough (∀ rest pre s w lg, pre ++ rest = l → I pre s lg →
    wp (foreach f rest) s w (λ _ s' _ lg', I l s' (lg ++ lg'))) as Hgen
    by (by apply (Hgen l [] s w [])).
  clear s w H0. intros rest. induction rest as [|x rest IH]; intros pre s w lg Hl HI.
  - rewrite app_nil_r in Hl; subst. simpl. apply wp_ret. by rewrite app_nil_r.
  - simpl. apply wp_bind. eapply wp_mono.
    + apply Hstep; [|done]. exists rest. by rewrite <- app_assoc.
    + intros [] s' w' lg' HI'. eapply wp_mono.
      * apply (IH (pre ++ [x])); [by rewrite <- app_assoc|done].
      * intros ???? Hf. by rewrite app_assoc.
Qed.

Lemma wp_foreach_until {A R} (I : list A → S → list (entry E) → Prop)
    (D : R → S → list (entry E) → Prop)
    (f : A → prog E S (option R)) (l : list A) s w :
  I [] s [] →
  (∀ pre x s w lg, pre ++ [x] `prefix_of` l → I pre s lg →
    wp (f x) s w (λ r s' _ lg',
      match r with
      | Some v => D v s' (lg ++ lg')
      | None => I (pre ++ [x]) s' (lg ++ lg')
      end)) →
  wp (foreach_until f l) s w (λ r s' _ lg,
    match r with Some v => D v s' lg | None => I l s' lg end).
Proof.
  intros H0 Hstep.
  enough (∀ rest pre s w lg, pre ++ rest = l → I pre s lg →
    wp (foreach_until f rest) s w (λ r s' _ lg',
      match r with Some v => D v s' (lg ++ lg') | None => I l s' (lg ++ lg') end))
    as Hgen by (by apply (Hgen l [] s w [])).
  clear s w H0. intros rest. induction rest as [|x rest IH]; intros pre s w lg Hl HI.
  - rewrite app_nil_r in Hl; subst. simpl. apply wp_ret. by rewrite app_nil_r.
  - simpl. apply wp_bind. eapply wp_mono.
    + apply Hstep; [|done]. exists rest. by rewrite <- app_assoc.
    + intros [v|] s' w' lg' HI'.
      * apply wp_ret. by rewrite app_nil_r.
      * eapply wp_mono; [apply (IH (pre ++ [x])); [by rewrite <- app_assoc|done]|].
        intros [v|] ??? Hf; by rewrite app_assoc.
Qed.

Lemma wp_sections_app {A} (f : A → prog E S A) n m a s w Q :
  wp (sections f n a) s w (λ a' s' w' l,
    wp (sections f m a') s' w' (λ a'' s'' w'' l', Q a'' s'' w'' (l ++ l'))) →
  wp (sections f (n + m) a) s w Q.
Proof.
  revert a s w Q. induction n as [|n IH]; intros a s w Q HQ; [exact HQ|].
  cbn [sections Nat.add] in *. apply wp_bind_inv in HQ. apply wp_bind.
  eapply wp_mono; [exact HQ|]. intros a' s' w' l HQ'. apply IH.
  eapply wp_mono; [exact HQ'|]. intros a2 s2 w2 l2 HQ2. eapply wp_mono; [exact HQ2|].
  intros a3 s3 w3 l3. by rewrite app_assoc.
Qed.
End wp.

(** * Counting calls in a log *)
Section log.
Context {E : Type → Type}.

Fixpoint count_calls (f : ∀ X, E X → bool) (l : list (entry E)) : nat :=
  match l with
  | [] => 0
  | e :: l => (if f _ (entry_call e) then 1 else 0) + count_calls f l
  end%nat.

Lemma count_calls_app f l1 l2 :
  count_calls f (l1 ++ l2) = (count_calls f l1 + count_calls f l2)%nat.
Proof. induction l1 as [|e l1 IH]; simpl; [done|]. rewrite IH. lia. Qed.
End log.

(** Symbolic execution of a [wp] goal. *)
Ltac wp_step :=
  lazymatch goal with
  | |- wp (mret _) _ _ _ => apply wp_ret
  | |- wp (mbind _ _) _ _ _ => apply wp_bind
  | |- wp (call _) _ _ _ => apply wp_call; intros ?x ?w' ?Hw
  | |- wp get _ _ _ => apply wp_get
  | |- wp (modify _) _ _ _ => apply wp_modify
  | |- wp (if ?b then _ else _) _ _ _ => destruct b eqn:?
  | |- wp (match ?o with Some _ => _ | None => _ end) _ _ _ => destruct o eqn:?
  | |- wp (let '(_, _) := ?p in _) _ _ _ => destruct p eqn:?
  end; cbn beta iota.
Ltac wp_run := repeat wp_step.
