(* ===== verification/Threads.v ===== *)
(** Threads: programs of [Effects] over the same fields, interleaved.

    A program is cut at every access to the fields and at every call: between any
    two of them another thread may run.  Mutexes, condition variables, creation,
    signals and joins are calls of the environment whose meaning the component
    gives by an instance of [Sync]; all other calls are answered by the
    [Handler], as when a program runs alone.

    [step] is executable: thread [t] makes its next move, and [b] decides what
    the code leaves open (whether a wait timed out, whether a thread could be
    created, whether a signal found a call that it interrupts).  A wait may end at any time, as POSIX allows; a mutex can be taken
    only when it is free, and given back only by its owner.  [schedule] runs a
    list of moves. *)
From S2P Require Import Prelude Effects.
From stdpp Require Import options.
#[local] Set Default Proof Using "Type*".

(** What a call means for the threads. *)
Inductive sync (E : Type → Type) (M S A : Type) : Type → Type :=
| Acquire (m : M) : sync E M S A unit
| TryAcquire (m : M) : sync E M S A bool
| Release (m : M) : sync E M S A unit
(* gives the mutex back, waits, takes it again; the answer is made of "timed
   out" and the fields as they are then *)
| Wait (m : M) {X} (answer : bool → S → X) : sync E M S A X
(* the answer is made of the new thread, or is that for a failure, if the code
   has one *)
| Spawn {X} (body : prog E S A) (answer : Z → X) (failed : option X) : sync E M S A X
| Join (t : Z) {X} (answer : X) : sync E M S A X
(* [true]: there is such a thread *)
| Kill (t : Z) : sync E M S A bool
(* a call that a signal interrupts: the answer then; or, when the signal came
   before the call, what it adds to the answer of the environment *)
| Interruptible {X} (answer : X) (late : X → X) : sync E M S A X.
Arguments Acquire {E M S A} m.
Arguments TryAcquire {E M S A} m.
Arguments Release {E M S A} m.
Arguments Wait {E M S A} m {X} answer.
Arguments Spawn {E M S A X} body answer failed.
Arguments Join {E M S A} t {X} answer.
Arguments Kill {E M S A} t.
Arguments Interruptible {E M S A X} answer late.

Class Sync (E : Type → Type) (M S A : Type) :=
  sync_of : ∀ X, E X → option (sync E M S A X).
Arguments sync_of {E M S A _ X} _.

(** What the trace tells of a move: a call and its answer, the beginning of a
    wait, a change of the fields. *)
Inductive event (E : Type → Type) (S : Type) : Type :=
| Asked (e : entry E)
| Slept {X} (c : E X)
| Wrote (s s' : S).
Arguments Asked {E S} e.
Arguments Slept {E S X} c.
Arguments Wrote {E S} s s'.

(** What the threads share: the fields, the owner of each mutex, and the trace,
    each event with its thread. *)
Record shared (E : Type → Type) (M S : Type) := Shared {
  fields : S;
  held : M → option nat;
  trace : list (nat * event E S);
}.
Arguments Shared {E M S} _ _ _.
Arguments fields {E M S} _.
Arguments held {E M S} _.
Arguments trace {E M S} _.

(** A thread goes on with a program, or waits on a condition variable. *)
Inductive thread (E : Type → Type) (S A : Type) : Type :=
| Running (p : prog E S A)
| Asleep {X} (c : E X) (answer : bool → S → X) (k : X → prog E S A).
Arguments Running {E S A} p.
Arguments Asleep {E S A X} c answer k.

Record config (E : Type → Type) (M S W A : Type) := Config {
  pool : list (thread E S A);
  now : shared E M S;
  world : W;
  signals : list nat;
}.
Arguments Config {E M S W A} _ _ _ _.
Arguments pool {E M S W A} _.
Arguments now {E M S W A} _.
Arguments world {E M S W A} _.
Arguments signals {E M S W A} _.

Section semantics.
Context {E : Type → Type} {M S A : Type} `{EqDecision M} {Sy : Sync E M S A}.

Definition own (m : M) (o : option nat) (h : M → option nat) : M → option nat :=
  λ m', if decide (m' = m) then o else h m'.

Definition take_lock (t : nat) (m : M) (h : M → option nat) : option (M → option nat) :=
  if h m is None then Some (own m (Some t) h) else None.

Definition give_lock (t : nat) (m : M) (h : M → option nat) : option (M → option nat) :=
  if decide (h m = Some t) then Some (own m None h) else None.

(** The owners after an event of thread [t]; [None]: it cannot happen now. *)
Definition locks_after (t : nat) (e : event E S) (h : M → option nat) : option (M → option nat) :=
  match e with
  | Asked (Entry c x) =>
      match sync_of c with
      | Some op =>
          match op in sync _ _ _ _ X return X → option (M → option nat) with
          | Acquire m => λ _, take_lock t m h
          | TryAcquire m => λ got : bool,
              if got then take_lock t m h else if h m is None then None else Some h
          | Release m => λ _, give_lock t m h
          | Wait m _ => λ _, take_lock t m h
          | _ => λ _, Some h
          end x
      | None => Some h
      end
  | Slept c =>
      match sync_of c with
      | Some (Wait m _) => give_lock t m h
      | _ => None
      end
  | Wrote _ _ => Some h
  end.

Definition fields_after (e : event E S) (s : S) : S :=
  if e is Wrote _ s' then s' else s.

Definition emit (t : nat) (e : event E S) (σ : shared E M S) : option (shared E M S) :=
  h ← locks_after t e (held σ);
  Some (Shared (fields_after e (fields σ)) h (trace σ ++ [(t, e)])).

Context {W : Type} {H : Handler E W}.

#[local] Abbreviation config := (config E M S W A).

(** Thread [t] adds [e] to the trace and is [th] from then on. *)
Definition move (t : nat) (e : event E S) (th : thread E S A) (c : config) : option config :=
  σ ← emit t e (now c);
  Some (Config (<[t := th]> (pool c)) σ (world c) (signals c)).

Definition set_world (w : W) (c : config) : config := Config (pool c) (now c) w (signals c).
Definition set_signals (l : list nat) (c : config) : config := Config (pool c) (now c) (world c) l.
Definition add_thread (th : thread E S A) (c : config) : config :=
  Config (pool c ++ [th]) (now c) (world c) (signals c).

(** A call that the environment answers, but for [f]. *)
Definition ask {X} (t : nat) (e : E X) (f : X → X) (k : X → prog E S A) (c : config)
    : option config :=
  let '(x, w) := handle e (world c) in
  move t (Asked (Entry e (f x))) (Running (k (f x))) (set_world w c).

Definition ended (t : Z) (c : config) : bool :=
  if pool c !! Z.to_nat t is Some (Running (Ret _)) then bool_decide (0 <= t) else false.

Definition step (t : nat) (b : bool) (c : config) : option config :=
  match pool c !! t with
  | None | Some (Running (Ret _)) | Some (Running UB) => None
  | Some (Running (Get k)) =>
      Some (Config (<[t := Running (k (fields (now c)))]> (pool c)) (now c) (world c) (signals c))
  | Some (Running (Modify f p)) =>
      move t (Wrote (fields (now c)) (f (fields (now c)))) (Running p) c
  | Some (Running (Call e k)) =>
      match sync_of e with
      | None => ask t e id k c
      | Some op =>
          match op in sync _ _ _ _ X return E X → (X → prog E S A) → option config with
          | Acquire m => λ e k, move t (Asked (Entry e tt)) (Running (k tt)) c
          | TryAcquire m => λ e k,
              let got := if held (now c) m is None then true else false in
              move t (Asked (Entry e got)) (Running (k got)) c
          | Release m => λ e k, move t (Asked (Entry e tt)) (Running (k tt)) c
          | Wait m answer => λ e k, move t (Slept e) (Asleep e answer k) c
          | Spawn body answer failed => λ e k,
              match failed, b with
              | Some x, false => move t (Asked (Entry e x)) (Running (k x)) c
              | _, _ =>
                  let x := answer (Z.of_nat (length (pool c))) in
                  move t (Asked (Entry e x)) (Running (k x)) (add_thread (Running body) c)
              end
          | Join u x => λ e k,
              if ended u c then move t (Asked (Entry e x)) (Running (k x)) c else None
          | Kill u => λ e k,
              if bool_decide (0 <= u < Z.of_nat (length (pool c))) then
                move t (Asked (Entry e true)) (Running (k true))
                  (set_signals (Z.to_nat u :: signals c) c)
              else move t (Asked (Entry e false)) (Running (k false)) c
          | Interruptible answer late => λ e k,
              if bool_decide (t ∈ signals c) then
                let c := set_signals (filter (λ u, u ≠ t) (signals c)) c in
                if b then move t (Asked (Entry e answer)) (Running (k answer)) c
                else ask t e late k c
              else ask t e id k c
          end e k
      end
  | Some (Asleep e answer k) =>
      let x := answer b (fields (now c)) in move t (Asked (Entry e x)) (Running (k x)) c
  end.

(** A list of moves: which thread, and the choice it makes. *)
Fixpoint schedule (l : list (nat * bool)) (c : config) : option config :=
  match l with
  | [] => Some c
  | (t, b) :: l => c' ← step t b c; schedule l c'
  end.

Definition reaches (c c' : config) : Prop := ∃ l, schedule l c = Some c'.

(** Threads that begin now, over new fields; no mutex is held. *)
Definition start (ps : list (prog E S A)) (s : S) (w : W) : config :=
  Config (Running <$> ps) (Shared s (λ _, None) []) w [].
End semantics.

(** * Runs that are computed from their schedules *)

(** [n] moves of thread [t]. *)
Definition turns (t n : nat) : list (nat * bool) := replicate n (t, true).

Section finish.
Context {E : Type → Type} {M S A W : Type} `{EqDecision M} {Sy : Sync E M S A} {H : Handler E W}.
Implicit Type c : config E M S W A.

Definition finish (l : list (nat * bool)) c : config E M S W A := default c (schedule l c).

Lemma reaches_finish l c :
  (if schedule l c is Some _ then true else false) = true → reaches c (finish l c).
Proof using Type. intros Hs. exists l. unfold finish. by destruct (schedule l c). Qed.
End finish.

(** A thread that has run out of the model's fuel. *)
Definition out_of_fuel {E S B} (th : thread E S (option B)) : bool :=
  if th is Running (Ret None) then true else false.

(** Two places in a trace. *)
Lemma splits_at {A} i j (x y : A) tr :
  tr !! i = Some x → tr !! (S i + j)%nat = Some y →
  tr = take i tr ++ x :: take j (drop (S i) tr) ++ y :: drop (S (S i + j)) tr.
Proof.
  intros Hx Hy. rewrite <- (take_drop_middle tr i x Hx) at 1. f_equal. f_equal.
  rewrite <- (take_drop_middle (drop (S i) tr) j y) at 1 by by rewrite lookup_drop.
  by rewrite drop_drop, Nat.add_succ_r.
Qed.

(** * What an event changes *)
Section events.
Context {E : Type → Type} {M S A : Type} `{EqDecision M} {Sy : Sync E M S A}.
Implicit Types (σ : shared E M S) (t u : nat) (e : event E S).

Lemma emit_trace t e σ σ' : emit t e σ = Some σ' → trace σ' = trace σ ++ [(t, e)].
Proof using Type.
  unfold emit. destruct (locks_after t e (held σ)); [|done]. rewrite Some_bind. by intros [= <-].
Qed.

Lemma emit_fields t e σ σ' : emit t e σ = Some σ' → fields σ' = fields_after e (fields σ).
Proof using Type.
  unfold emit. destruct (locks_after t e (held σ)); [|done]. rewrite Some_bind. by intros [= <-].
Qed.

Lemma emit_held t e σ σ' : emit t e σ = Some σ' → locks_after t e (held σ) = Some (held σ').
Proof using Type.
  unfold emit. destruct (locks_after t e (held σ)); [|done]. rewrite Some_bind. by intros [= <-].
Qed.

Lemma take_lock_spec t m (h h' : M → option nat) :
  take_lock t m h = Some h' → h m = None ∧ h' = own m (Some t) h.
Proof using Type. unfold take_lock. destruct (h m) eqn:Hm; [done|]. by intros [= <-]. Qed.

Lemma give_lock_spec t m (h h' : M → option nat) :
  give_lock t m h = Some h' → h m = Some t ∧ h' = own m None h.
Proof using Type. unfold give_lock. case_decide; [|done]. by intros [= <-]. Qed.

(** Every event leaves the owners alone, or takes a free mutex for its thread,
    or gives back one of its thread's. *)
Lemma locks_after_cases t e (h h' : M → option nat) :
  locks_after t e h = Some h' →
  h' = h ∨ (∃ m, h m = None ∧ h' = own m (Some t) h) ∨ (∃ m, h m = Some t ∧ h' = own m None h).
Proof using Type.
  assert (∀ m, take_lock t m h = Some h' →
    h' = h ∨ (∃ m, h m = None ∧ h' = own m (Some t) h) ∨
    (∃ m, h m = Some t ∧ h' = own m None h)) as Htake.
  { intros m Hm%take_lock_spec. right; left. by exists m. }
  assert (∀ m, give_lock t m h = Some h' →
    h' = h ∨ (∃ m, h m = None ∧ h' = own m (Some t) h) ∨
    (∃ m, h m = Some t ∧ h' = own m None h)) as Hgive.
  { intros m Hm%give_lock_spec. right; right. by exists m. }
  assert (Some h = Some h' → h' = h ∨ (∃ m, h m = None ∧ h' = own m (Some t) h) ∨
    (∃ m, h m = Some t ∧ h' = own m None h)) as Hsame by (intros [= ->]; by left).
  destruct e as [[X c x]|X c|s s']; simpl.
  - destruct (sync_of c) as [op|]; [|done]. destruct op; try done; [apply Htake| |apply Hgive|apply Htake].
    destruct x; [apply Htake|]. by destruct (h m).
  - destruct (sync_of c) as [[]|]; try done. apply Hgive.
  - done.
Qed.

(** What the threads share after a history. *)
Fixpoint replay (tr : list (nat * event E S)) σ : option (shared E M S) :=
  match tr with
  | [] => Some σ
  | (t, e) :: tr => σ' ← emit t e σ; replay tr σ'
  end.

Lemma replay_trace tr σ σ' : replay tr σ = Some σ' → trace σ' = trace σ ++ tr.
Proof using Type.
  revert σ. induction tr as [|[t e] tr IH]; intros σ; cbn [replay].
  { intros [= <-]. by rewrite app_nil_r. }
  destruct (emit t e σ) as [σ1|] eqn:He; [|done]. rewrite Some_bind. intros ->%IH.
  by rewrite (emit_trace _ _ _ _ He), <- app_assoc.
Qed.

(** The mutexes of other threads stay theirs. *)
Lemma locks_after_other t u e (h h' : M → option nat) m :
  locks_after t e h = Some h' → u ≠ t → (h' m = Some u ↔ h m = Some u).
Proof using Type.
  intros He Hu. destruct (locks_after_cases t e h h' He) as [->|[(m' & Hm & ->)|(m' & Hm & ->)]];
    [done|unfold own..]; case_decide as Hd; try done; subst m'; rewrite Hm; split; congruence.
Qed.

Lemma own_take t m m' (h : M → option nat) :
  own m' (Some t) h m = Some t ↔ m = m' ∨ h m = Some t.
Proof using Type.
  unfold own. case_decide; split; [by left|done|by right|by intros [?|?]].
Qed.

Lemma own_give t m m' (h : M → option nat) :
  own m' None h m = Some t ↔ m ≠ m' ∧ h m = Some t.
Proof using Type.
  unfold own. case_decide; split; [done|by intros [? _]|by split|by intros [_ ?]].
Qed.

Lemma held_stable t u e σ σ' m :
  emit u e σ = Some σ' → u ≠ t → held σ m = Some t → held σ' m = Some t.
Proof using Type. intros He Hu. eapply locks_after_other; [by eapply emit_held|done]. Qed.
End events.

(** * The calls of one thread in a trace *)
Section calls.
Context {E : Type → Type} {S : Type}.
Implicit Types (t u : nat) (tr : list (nat * event E S)).

Definition calls t tr : list (entry E) :=
  omap (λ '(u, e), if decide (u = t) then match e with Asked c => Some c | _ => None end else None) tr.

Lemma calls_app t tr1 tr2 : calls t (tr1 ++ tr2) = calls t tr1 ++ calls t tr2.
Proof using Type. apply omap_app. Qed.

Lemma calls_other t u e tr : u ≠ t → calls t (tr ++ [(u, e)]) = calls t tr.
Proof using Type.
  intros Hu. rewrite calls_app. cbn [calls omap list_omap]. case_decide; [done|].
  apply app_nil_r.
Qed.

Lemma calls_own t (e : entry E) tr : calls t (tr ++ [(t, Asked e)]) = calls t tr ++ [e].
Proof using Type. rewrite calls_app. cbn [calls omap list_omap]. by case_decide. Qed.
End calls.
