(* ===== verification/ThreadsLogic.v ===== *)
(** A rely-guarantee logic for [Threads].

    A protocol ([allowed]) says which events a thread may add to the trace, and
    when.  [safe]: a program keeps to the protocol and meets no undefined
    behaviour, whatever the other threads do within it, as long as the answers
    of the environment are what is documented ([answered]).  A thread that acts
    has not been joined ([alive]).  Soundness ([pool_safe]): every interleaving
    of any number of safe threads keeps to the protocol, those that are created
    on the way included. *)
From S2P Require Import Prelude Effects Threads.
From stdpp Require Import options.
#[local] Set Default Proof Using "Type*".

Section logic.
Context {E : Type → Type} {M S A : Type} `{EqDecision M} {Sy : Sync E M S A}.
Implicit Types (σ : shared E M S) (t u : nat) (e : event E S).

(** The protocol, and an invariant that it maintains. *)
Variable allowed : shared E M S → nat → event E S → Prop.
Variable inv : shared E M S → Prop.
(** What is known of the environment's answers. *)
Variable answered : ∀ X, E X → X → Prop.
Hypothesis inv_step : ∀ σ σ' t e, inv σ → allowed σ t e → emit t e σ = Some σ' → inv σ'.

(** One event of another thread; what a thread must expect before each of its
    own. *)
Definition other t σ σ' : Prop :=
  inv σ ∧ ∃ u e, u ≠ t ∧ allowed σ u e ∧ emit u e σ = Some σ'.
Definition rely t : shared E M S → shared E M S → Prop := rtc (other t).

(** An event that shows that thread [t] has ended. *)
Definition joins e t : Prop :=
  match e with
  | Asked (Entry c _) =>
      match sync_of c with
      | Some op => match op with Join z _ => z = Z.of_nat t | _ => False end
      | None => False
      end
  | _ => False
  end.

(** Somebody has waited for the end of thread [t], successfully. *)
Definition joined t (tr : list (nat * event E S)) : Prop := ∃ u e, (u, e) ∈ tr ∧ joins e t.

Definition alive t σ : Prop := ¬ joined t (trace σ).

Definition does t e σ (K : shared E M S → Prop) : Prop :=
  ∀ σ', emit t e σ = Some σ' → allowed σ t e ∧ K σ'.

Definition wait_of {X} (c : E X) : option (bool → S → X) :=
  match sync_of c with
  | Some op =>
      match op in sync _ _ _ _ X return option (bool → S → X) with
      | Wait _ answer => Some answer
      | _ => None
      end
  | None => None
  end.

(** What a thread may expect of an answer. *)
Definition expected {X} (c : E X) : X → Prop :=
  match sync_of c with
  | Some op =>
      match op in sync _ _ _ _ X return X → Prop with
      | Join _ y => λ x, x = y
      | Spawn _ answer failed => λ x, (∃ u, x = answer (Z.of_nat u)) ∨ failed = Some x
      | _ => λ _, True
      end
  | None => answered X c
  end.

(** From [σ] on, thread [t] running [p] keeps to the protocol, meets no undefined
    behaviour, and ends with [Q]. *)
Fixpoint safe {B} t (p : prog E S B) (Q : B → shared E M S → Prop) σ : Prop :=
  ∀ σ', rely t σ σ' → inv σ' → alive t σ' →
    match p with
    | Ret a => Q a σ'
    | Call c k =>
        match wait_of c with
        | Some answer =>
            does t (Slept c) σ' (λ σ1, ∀ σ2, rely t σ1 σ2 → inv σ2 → alive t σ2 → ∀ b,
              does t (Asked (Entry c (answer b (fields σ2)))) σ2
                (safe t (k (answer b (fields σ2))) Q))
        | None => ∀ x, expected c x →
            does t (Asked (Entry c x)) σ' (safe t (k x) Q)
        end
    | Get k => safe t (k (fields σ')) Q σ'
    | Modify f p => does t (Wrote (fields σ') (f (fields σ'))) σ' (safe t p Q)
    | UB => False
    end.

Definition safe_thread t (th : thread E S A) (Q : A → shared E M S → Prop) σ : Prop :=
  match th with
  | Running p => safe t p Q σ
  | Asleep c answer k => wait_of c = Some answer ∧
      ∀ σ', rely t σ σ' → inv σ' → alive t σ' → ∀ b,
      does t (Asked (Entry c (answer b (fields σ')))) σ' (safe t (k (answer b (fields σ'))) Q)
  end.

Lemma safe_rely {B} t (p : prog E S B) Q σ σ' : rely t σ σ' → safe t p Q σ → safe t p Q σ'.
Proof using Type.
  intros Hr Hp. destruct p; intros σ2 Hr2 Hi2 Ha2; apply (Hp σ2); try done; by etransitivity.
Qed.

Lemma safe_thread_rely t th Q σ σ' : rely t σ σ' → safe_thread t th Q σ → safe_thread t th Q σ'.
Proof using Type.
  destruct th as [p|X c answer k]; simpl; [apply safe_rely|].
  intros Hr [Hw Hp]. split; [done|]. intros σ2 Hr2. apply Hp. by etransitivity.
Qed.

Lemma safe_intro {B} t (p : prog E S B) Q σ :
  (∀ σ', rely t σ σ' → inv σ' → alive t σ' → safe t p Q σ') → safe t p Q σ.
Proof using Type.
  intros Hp. destruct p; intros σ' Hr Hi Ha; exact (Hp σ' Hr Hi Ha σ' (rtc_refl _ _) Hi Ha).
Qed.

Lemma safe_call_inv {B X} t (c : E X) (k : X → prog E S B) Q σ :
  safe t (Call c k) Q σ → inv σ → alive t σ → wait_of c = None →
  ∀ x, expected c x → does t (Asked (Entry c x)) σ (safe t (k x) Q).
Proof using Type.
  intros Hs Hi Ha Hw. specialize (Hs σ (rtc_refl _ _) Hi Ha). simpl in Hs. by rewrite Hw in Hs.
Qed.

Lemma safe_call_wait t {X} (c : E X) (k : X → prog E S A) Q σ answer :
  safe t (Call c k) Q σ → inv σ → alive t σ → wait_of c = Some answer →
  does t (Slept c) σ (safe_thread t (Asleep c answer k) Q).
Proof using Type.
  intros Hs Hi Ha Hw. specialize (Hs σ (rtc_refl _ _) Hi Ha). simpl in Hs. rewrite Hw in Hs.
  intros σ' He. by destruct (Hs σ' He).
Qed.

Lemma other_rely t u σ σ' e :
  inv σ → u ≠ t → allowed σ u e → emit u e σ = Some σ' → rely t σ σ'.
Proof using Type. intros. apply rtc_once. split; [done|]. by exists u, e. Qed.

Lemma rely_trace t σ σ' : rely t σ σ' → ∃ ext, trace σ' = trace σ ++ ext.
Proof using Type.
  induction 1 as [σ|σ σ1 σ' (_ & u & e & _ & _ & He) _ [ext IH]]; [by exists []; rewrite app_nil_r|].
  exists ((u, e) :: ext). by rewrite IH, (emit_trace _ _ _ _ He), <- app_assoc.
Qed.

Lemma joined_app t tr1 tr2 : joined t (tr1 ++ tr2) ↔ joined t tr1 ∨ joined t tr2.
Proof using Type.
  unfold joined. setoid_rewrite elem_of_app. split.
  - intros (u & e & [Hin|Hin] & He); [left|right]; by exists u, e.
  - intros [(u & e & Hin & He)|(u & e & Hin & He)]; exists u, e; auto.
Qed.

Lemma alive_back t σ σ' ext : trace σ' = trace σ ++ ext → alive t σ' → alive t σ.
Proof using Type. unfold alive. intros ->. rewrite joined_app. tauto. Qed.

(** ** Rules *)

(** [P] survives what the other threads do. *)
Definition stable t (P : shared E M S → Prop) : Prop :=
  ∀ σ σ' u e, u ≠ t → inv σ → P σ → allowed σ u e → emit u e σ = Some σ' → P σ'.

Lemma stable_rely t P σ σ' : stable t P → P σ → rely t σ σ' → P σ'.
Proof using Type.
  intros Hst HP Hr. induction Hr as [|σ σ1 σ2 (Hi & u & e & Hu & Ha & He) _ IH]; [done|].
  apply IH. by eapply Hst.
Qed.

Lemma stable_and t (P P' : shared E M S → Prop) :
  stable t P → stable t P' → stable t (λ σ, P σ ∧ P' σ).
Proof using Type. intros H1 H2 σ σ' u e Hu Hi [HP HP'] Ha He. split; [by eapply H1|by eapply H2]. Qed.

Lemma stable_const t (P : Prop) : stable t (λ _, P).
Proof using Type. by intros ??. Qed.

(** A thread that goes on has not been joined. *)
Lemma safe_alive {B} t (p : prog E S B) Q σ : (alive t σ → safe t p Q σ) → safe t p Q σ.
Proof using Type.
  intros Hp. apply safe_intro. intros σ' Hr Hi Ha. eapply safe_rely; [exact Hr|]. apply Hp.
  destruct (rely_trace _ _ _ Hr) as [ext Hext]. by eapply alive_back.
Qed.

Lemma safe_ret {B} t (a : B) P Q σ :
  stable t P → P σ → (∀ σ', P σ' → inv σ' → Q a σ') → safe t (mret a) Q σ.
Proof using Type. intros Hst HP HQ σ' Hr Hi _. apply HQ; [|done]. by eapply stable_rely. Qed.

Lemma safe_bind {B C} t (p : prog E S B) (k : B → prog E S C) Q σ :
  safe t p (λ a, safe t (k a) Q) σ → safe t (p ≫= k) Q σ.
Proof using Type.
  unfold mbind. revert σ. induction p as [a|X c k' IH|k' IH|f p IH|]; intros σ Hp.
  - apply safe_intro. intros σ' Hr Hi Ha. by apply Hp.
  - intros σ' Hr Hi Hl. specialize (Hp σ' Hr Hi Hl). simpl in *.
    destruct (wait_of c) as [answer|].
    + intros σ1 H1. destruct (Hp σ1 H1) as [Ha Hk]. split; [done|].
      intros σ2 Hr2 Hi2 Hl2 b σ3 H3. destruct (Hk σ2 Hr2 Hi2 Hl2 b σ3 H3) as [Ha3 Hk3].
      split; [done|]. by apply IH.
    + intros x Hx σ1 H1. destruct (Hp x Hx σ1 H1) as [Ha Hk]. split; [done|]. by apply IH.
  - intros σ' Hr Hi Hl. apply IH. by apply Hp.
  - intros σ' Hr Hi Hl σ1 H1. destruct (Hp σ' Hr Hi Hl σ1 H1) as [Ha Hk]. split; [done|].
    by apply IH.
  - by intros σ' Hr Hi Hl; apply (Hp σ').
Qed.

Lemma safe_mono {B} t (p : prog E S B) (Q Q' : B → shared E M S → Prop) σ :
  safe t p Q σ → (∀ a σ', Q a σ' → Q' a σ') → safe t p Q' σ.
Proof using Type.
  intros Hp HQ. revert σ Hp.
  induction p as [a|X c k' IH|k' IH|f p IH|]; intros σ Hp σ' Hr Hi Hl;
    specialize (Hp σ' Hr Hi Hl); simpl in *.
  - by apply HQ.
  - destruct (wait_of c) as [answer|].
    + intros σ1 H1. destruct (Hp σ1 H1) as [Ha Hk]. split; [done|].
      intros σ2 Hr2 Hi2 Hl2 b σ3 H3. destruct (Hk σ2 Hr2 Hi2 Hl2 b σ3 H3).
      split; [done|]. by apply IH.
    + intros x Hx σ1 H1. destruct (Hp x Hx σ1 H1). split; [done|]. by apply IH.
  - by apply IH.
  - intros σ1 H1. destruct (Hp σ1 H1). split; [done|]. by apply IH.
  - done.
Qed.

(** A call without a wait: what holds before it, what it may do then, and what
    is to be shown after it. *)
Lemma safe_ask {B X} t (c : E X) (k : X → prog E S B) P Q σ :
  wait_of c = None → stable t P → P σ →
  (∀ σ' x σ'', P σ' → inv σ' → alive t σ' → expected c x → emit t (Asked (Entry c x)) σ' = Some σ'' →
    allowed σ' t (Asked (Entry c x)) ∧ (inv σ'' → safe t (k x) Q σ'')) →
  safe t (call c ≫= k) Q σ.
Proof.
  intros Hw Hst HP Hk σ' Hr Hi Hl. simpl. rewrite Hw. intros x Hx σ1 H1.
  destruct (Hk σ' x σ1) as [Ha Hs]; [by eapply stable_rely|done..|].
  split; [done|]. apply Hs. by eapply inv_step.
Qed.

Lemma safe_call {B X} t (c : E X) (k : X → prog E S B) P Q σ :
  wait_of c = None → stable t P → P σ →
  (∀ σ' x σ'', P σ' → inv σ' → emit t (Asked (Entry c x)) σ' = Some σ'' →
    allowed σ' t (Asked (Entry c x)) ∧ (inv σ'' → safe t (k x) Q σ'')) →
  safe t (call c ≫= k) Q σ.
Proof. intros Hw Hst HP Hk. eapply safe_ask; [done..|]. intros. by apply Hk. Qed.

(** A wait: what holds before it, while the thread sleeps, and after it. *)
Lemma safe_wait {B X} t (c : E X) (k : X → prog E S B) answer P P' Q σ :
  wait_of c = Some answer → stable t P → stable t P' → P σ →
  (∀ σ' σ'', P σ' → inv σ' → emit t (Slept c) σ' = Some σ'' →
    allowed σ' t (Slept c) ∧ P' σ'') →
  (∀ σ' b σ'', P' σ' → inv σ' → let x := answer b (fields σ') in
    emit t (Asked (Entry c x)) σ' = Some σ'' →
    allowed σ' t (Asked (Entry c x)) ∧ (inv σ'' → safe t (k x) Q σ'')) →
  safe t (call c ≫= k) Q σ.
Proof.
  intros Hw Hst Hst' HP Hsleep Hwake σ' Hr Hi _. simpl. rewrite Hw. intros σ1 H1.
  destruct (Hsleep σ' σ1) as [Ha HP1]; [by eapply stable_rely|done..|]. split; [done|].
  intros σ2 Hr2 Hi2 _ b σ3 H3.
  destruct (Hwake σ2 b σ3) as [Ha2 Hs]; [by eapply stable_rely|done..|]. split; [done|].
  apply Hs. by eapply inv_step.
Qed.

(** A call at the end of a program. *)
Lemma safe_call_last {X} t (c : E X) P (P' : X → shared E M S → Prop) σ :
  wait_of c = None → stable t P → P σ → (∀ x, stable t (P' x)) →
  (∀ σ' x σ'', P σ' → inv σ' → emit t (Asked (Entry c x)) σ' = Some σ'' →
    allowed σ' t (Asked (Entry c x)) ∧ P' x σ'') →
  safe t (call c) P' σ.
Proof using Type.
  intros Hw Hst HP Hst' Hk σ' Hr Hi _. simpl. rewrite Hw. intros x _ σ1 H1.
  destruct (Hk σ' x σ1) as [Ha HP1]; [by eapply stable_rely|done..|]. split; [done|].
  intros σ2 Hr2 _ _. by eapply stable_rely.
Qed.

Lemma safe_get {B} t (k : S → prog E S B) P Q σ :
  stable t P → P σ → (∀ σ', P σ' → inv σ' → safe t (k (fields σ')) Q σ') →
  safe t (get ≫= k) Q σ.
Proof using Type. intros Hst HP Hk σ' Hr Hi _. apply Hk; [|done]. by eapply stable_rely. Qed.

Lemma safe_write {B} t (f : S → S) (k : unit → prog E S B) P Q σ :
  stable t P → P σ →
  (∀ σ' σ'', P σ' → inv σ' → alive t σ' →
    emit t (Wrote (fields σ') (f (fields σ'))) σ' = Some σ'' →
    allowed σ' t (Wrote (fields σ') (f (fields σ'))) ∧ (inv σ'' → safe t (k ()) Q σ'')) →
  safe t (modify f ≫= k) Q σ.
Proof.
  intros Hst HP Hk σ' Hr Hi Hl σ1 H1.
  destruct (Hk σ' σ1) as [Ha Hs]; [by eapply stable_rely|done..|].
  split; [done|]. apply Hs. by eapply inv_step.
Qed.

Lemma safe_modify {B} t (f : S → S) (k : unit → prog E S B) P Q σ :
  stable t P → P σ →
  (∀ σ' σ'', P σ' → inv σ' → emit t (Wrote (fields σ') (f (fields σ'))) σ' = Some σ'' →
    allowed σ' t (Wrote (fields σ') (f (fields σ'))) ∧ (inv σ'' → safe t (k ()) Q σ'')) →
  safe t (modify f ≫= k) Q σ.
Proof. intros Hst HP Hk. eapply safe_write; [done..|]. intros. by apply Hk. Qed.

(** A loop keeps a stable invariant. *)
Lemma safe_foreach {B} t (f : B → prog E S unit) l P σ :
  stable t P → P σ → (∀ x σ', x ∈ l → P σ' → safe t (f x) (λ _, P) σ') →
  safe t (foreach f l) (λ _, P) σ.
Proof using Type.
  intros Hst. revert σ. induction l as [|x l IH]; intros σ HP Hf; cbn [foreach].
  { by apply (safe_ret t () P). }
  apply safe_bind. eapply safe_mono; [apply Hf; [left|done]|].
  intros [] σ' HP'. apply IH; [done|]. intros y σ2 Hy. apply Hf. by right.
Qed.

(** Calls that every thread may make at any time, and no look at the fields. *)
Definition harmless {X} (c : E X) : Prop :=
  sync_of c = None ∧ ∀ σ t x, allowed σ t (Asked (Entry c x)).

Fixpoint calm {B} (p : prog E S B) (Q : B → Prop) : Prop :=
  match p with
  | Ret a => Q a
  | Call c k => harmless c ∧ ∀ x, calm (k x) Q
  | Get _ | Modify _ _ | UB => False
  end.

Lemma calm_bind {B C} (p : prog E S B) (k : B → prog E S C) Q :
  calm p (λ a, calm (k a) Q) → calm (p ≫= k) Q.
Proof using Type.
  unfold mbind. induction p as [a|X c k' IH|k' IH|f p IH|]; simpl; intros Hp; try done.
  destruct Hp as [Hc Hk]. split; [done|]. intros x. by apply IH.
Qed.

Lemma calm_mono {B} (p : prog E S B) (Q Q' : B → Prop) :
  calm p Q → (∀ a, Q a → Q' a) → calm p Q'.
Proof using Type.
  intros Hp HQ. induction p as [a|X c k' IH|k' IH|f p IH|]; simpl in *; try done; [by apply HQ|].
  destruct Hp as [Hc Hk]. split; [done|]. intros x. by apply IH.
Qed.

Lemma calm_call {X} (c : E X) (Q : X → Prop) : harmless c → (∀ x, Q x) → calm (call c) Q.
Proof using Type. by split. Qed.

Lemma calm_foreach {B} (f : B → prog E S unit) l :
  (∀ x, calm (f x) (λ _, True)) → calm (foreach f l) (λ _, True).
Proof using Type.
  intros Hf. induction l as [|x l IH]; cbn [foreach]; [done|].
  apply calm_bind. eapply calm_mono; [apply Hf|]. intros [] _. exact IH.
Qed.

(** The thread's own harmless calls must not disturb [P] either. *)
Definition undisturbed (P : shared E M S → Prop) : Prop :=
  ∀ σ t X (c : E X) x, harmless c → P σ →
    P (Shared (fields σ) (held σ) (trace σ ++ [(t, Asked (Entry c x))])).

Lemma safe_calm {B} t (p : prog E S B) P Q σ :
  stable t P → undisturbed P → P σ → calm p Q → safe t p (λ a σ', Q a ∧ P σ') σ.
Proof using Type.
  intros Hst Hun HP Hp. revert σ HP. induction p as [a|X c k IH|k IH|f p IH|];
    intros σ HP; simpl in Hp; try done.
  - intros σ' Hr Hi _. split; [done|]. by eapply stable_rely.
  - destruct Hp as [Hc Hk]. intros σ' Hr Hi _. pose proof Hc as [Hs Ha]. simpl.
    unfold wait_of. rewrite Hs. intros x _ σ1 H1. split; [apply Ha|].
    assert (P σ') as HP' by by eapply stable_rely.
    unfold emit in H1. simpl in H1. rewrite Hs, Some_bind in H1. injection H1 as <-.
    apply IH; [done|]. by apply Hun.
Qed.

(** ** Soundness *)
Context {W : Type} {H : Handler E W}.
#[local] Abbreviation config := (config E M S W A).
#[local] Abbreviation QT := (λ _ _, True).

Hypothesis answered_handle : ∀ X (c : E X) w, sync_of c = None → answered X c (handle c w).1.
Hypothesis spawn_safe : ∀ X (c : E X) body answer failed,
  sync_of c = Some (Spawn body answer failed) →
  ∀ t u σ, inv σ → (u, Asked (Entry c (answer (Z.of_nat t)))) ∈ trace σ → safe t body QT σ.

(** A thread that has been joined has ended. *)
Record pool_ok (c : config) : Prop := {
  ok_inv : inv (now c);
  ok_safe : ∀ t th, pool c !! t = Some th → safe_thread t th QT (now c);
  ok_joined : ∀ t, joined t (trace (now c)) → ∃ a, pool c !! t = Some (Running (Ret a));
}.

Lemma ok_alive c t th :
  pool_ok c → pool c !! t = Some th → (∀ a, th ≠ Running (Ret a)) → alive t (now c).
Proof using Type. intros [_ _ Hj] Ht Hth Hjoined. destruct (Hj t Hjoined) as [a Ha]. by apply (Hth a); congruence. Qed.

(** The trace grows by an event of the protocol. *)
Definition legal σ σ' : Prop := inv σ ∧ ∃ t e, allowed σ t e ∧ emit t e σ = Some σ'.

Lemma joined_emit t u e σ σ' :
  emit t e σ = Some σ' → joined u (trace σ') → joined u (trace σ) ∨ joins e u.
Proof using Type.
  intros He. rewrite (emit_trace _ _ _ _ He), joined_app. intros [Hj|Hj]; [by left|right].
  destruct Hj as (v & e' & Hin%list_elem_of_singleton & Hs). by injection Hin as -> ->.
Qed.

(** Thread [t] of [c] does [e] and goes on as [th]; [extra] are threads that it
    creates. *)
Lemma move_ok t th0 e th extra c c0 c' :
  pool_ok c → pool c !! t = Some th0 → (∀ a, th0 ≠ Running (Ret a)) →
  now c0 = now c → pool c0 = pool c ++ extra →
  (∀ u, joins e u → ∃ a, pool c !! u = Some (Running (Ret a))) →
  (∀ σ', inv σ' → emit t e (now c) = Some σ' → ∀ i th', extra !! i = Some th' →
    safe_thread (length (pool c) + i) th' QT σ') →
  does t e (now c) (safe_thread t th QT) → move t e th c0 = Some c' →
  pool_ok c' ∧ legal (now c) (now c').
Proof.
  intros [Hi Hp Hj] Ht Hth Hnow Hpool Hjoins Hextra Hdo Hm. unfold move in Hm.
  rewrite Hnow in Hm. destruct (emit t e (now c)) as [σ|] eqn:He; [|done].
  rewrite Some_bind in Hm. injection Hm as <-. destruct (Hdo σ He) as [Ha Hs].
  pose proof (lookup_lt_Some _ _ _ Ht) as Hlt.
  split; [|split; [done|by exists t, e]]. split; simpl; rewrite ?Hpool.
  - by eapply inv_step.
  - intros u th' Hu. destruct (decide (u = t)) as [->|Hne].
    + apply list_lookup_insert_Some in Hu as [(_ & <- & _)|[? _]]; done.
    + rewrite list_lookup_insert_ne in Hu by done.
      apply lookup_app_Some in Hu as [Hu|[Hge Hu]].
      * eapply safe_thread_rely; [|by apply Hp]. by eapply other_rely.
      * replace u with (length (pool c) + (u - length (pool c)))%nat by lia.
        apply (Hextra σ); [by eapply inv_step|done..].
  - intros u Hu. apply (joined_emit _ _ _ _ _ He) in Hu.
    assert (∃ a, pool c !! u = Some (Running (Ret a))) as [a Hua]
      by (destruct Hu as [Hu|Hu]; [by apply Hj|by apply Hjoins]).
    assert (u ≠ t) as Hne by (intros ->; apply (Hth a); congruence).
    exists a. rewrite list_lookup_insert_ne by done. by apply lookup_app_l_Some.
Qed.

(** An event that concerns no other thread. *)
Lemma solo_ok t th0 e th c c' :
  pool_ok c → pool c !! t = Some th0 → (∀ a, th0 ≠ Running (Ret a)) → (∀ u, ¬ joins e u) →
  does t e (now c) (safe_thread t th QT) → move t e th c = Some c' →
  pool_ok c' ∧ (now c' = now c ∨ legal (now c) (now c')).
Proof.
  intros Hok Ht Hth Hj Hdo Hm.
  enough (pool_ok c' ∧ legal (now c) (now c')) as [??] by (split; [done|by right]).
  eapply (move_ok t th0 e th []); try done; [by rewrite app_nil_r|]. intros u Hu. by destruct (Hj u).
Qed.

Lemma wait_not_join {X} (e : E X) x answer u :
  wait_of e = Some answer → ¬ joins (Asked (Entry e x)) u.
Proof using Type.
  unfold wait_of. simpl. destruct (sync_of e) as [op|]; [|done]. clear. revert answer.
  destruct op; intros a Hw; try discriminate Hw; intros [].
Qed.

(** The thread makes the call [e] and is answered [x]. *)
Lemma answer_ok {X} t (e : E X) x k c c0 c' :
  wait_of e = None → pool_ok c → pool c !! t = Some (Running (Call e k)) →
  expected e x → now c0 = now c → pool c0 = pool c →
  (∀ u, joins (Asked (Entry e x)) u → ∃ a, pool c !! u = Some (Running (Ret a))) →
  move t (Asked (Entry e x)) (Running (k x)) c0 = Some c' → pool_ok c' ∧ legal (now c) (now c').
Proof.
  intros Hw Hok Ht Hx Hnow Hpool Hj Hm.
  eapply (move_ok t _ _ _ []); [done|done|done|done|by rewrite app_nil_r|done|done| |done].
  apply (safe_call_inv t e k QT (now c)); [exact (ok_safe c Hok t _ Ht)|apply Hok| |done..].
  by eapply ok_alive.
Qed.

Lemma ask_ok {X} t (e : E X) k c c0 c' :
  sync_of e = None → pool_ok c → pool c !! t = Some (Running (Call e k)) →
  now c0 = now c → pool c0 = pool c → ask t e id k c0 = Some c' →
  pool_ok c' ∧ legal (now c) (now c').
Proof.
  intros Hs Hok Ht Hnow Hpool. unfold ask. destruct (handle e (world c0)) as [x w] eqn:Hx.
  apply (answer_ok t e x k c (set_world w c0)); try done; unfold wait_of, expected; simpl;
    rewrite ?Hs; try done.
  pose proof (answered_handle X e (world c0) Hs) as Ha. by rewrite Hx in Ha.
Qed.

Lemma step_ok t b c c' :
  pool_ok c → step t b c = Some c' →
  pool_ok c' ∧ (now c' = now c ∨ legal (now c) (now c')).
Proof.
  intros Hok Hstep. pose proof Hok as [Hi Hp _]. unfold step in Hstep.
  destruct (pool c !! t) as [th|] eqn:Ht; [|done].
  assert ((∀ a, th ≠ Running (Ret a)) → alive t (now c)) as Halive by by apply ok_alive.
  destruct th as [[a|X e k|k|f p|]|X e answer k]; try done;
    specialize (Halive ltac:(done)); pose proof (Hp t _ Ht) as Hth.
  - assert (∀ x c0, (∀ u, joins (Asked (Entry e x)) u →
        ∃ a, pool c !! u = Some (Running (Ret a))) →
      expected e x → now c0 = now c → pool c0 = pool c → wait_of e = None → sync_of e ≠ None →
      move t (Asked (Entry e x)) (Running (k x)) c0 = Some c' →
      pool_ok c' ∧ (now c' = now c ∨ legal (now c) (now c'))) as Hanswer.
    { intros x c0 Hj Hx Hnow Hpool Hw Hs Hm.
      destruct (answer_ok t e x k c c0 c') as [??]; try done. split; [done|by right]. }
    pose proof (safe_call_wait t e k QT (now c)) as Hwait.
    unfold wait_of, expected in Hanswer. unfold wait_of in Hwait. simpl in Hanswer.
    destruct (sync_of e) as [op|] eqn:Hs.
    2: { destruct (ask_ok t e k c c c') as [??]; [done..|]. split; [done|by right]. }
    destruct op as [m|m|m|m X answer|X body answer failed|u X answer|u|X answer late].
    + by apply (Hanswer tt c).
    + by eapply (Hanswer _ c).
    + by apply (Hanswer tt c).
    + apply (solo_ok t _ (Slept e) (Asleep e answer k) c c' Hok Ht); [done| |by apply Hwait|done].
      by intros ? [].
    + assert (∀ x, move t (Asked (Entry e (answer x))) (Running (k (answer x)))
          (add_thread (Running body) c) = Some c' → x = Z.of_nat (length (pool c)) →
        pool_ok c' ∧ (now c' = now c ∨ legal (now c) (now c'))) as Hspawn.
      { intros x Hm ->.
        enough (pool_ok c' ∧ legal (now c) (now c')) as [??] by (split; [done|by right]).
        apply (move_ok t _ _ _ [Running body] _ _ _ Hok Ht) in Hm; try done.
        - intros u. simpl. by rewrite Hs.
        - intros σ' Hi' He i th' Hth'.
          apply list_lookup_singleton_Some in Hth' as [-> <-]. rewrite Nat.add_0_r. simpl.
          eapply spawn_safe; [exact Hs|done|]. rewrite (emit_trace _ _ _ _ He).
          apply elem_of_app. right. by apply list_elem_of_singleton.
        - apply (safe_call_inv t e k QT (now c) Hth Hi Halive);
            unfold wait_of, expected; rewrite Hs; [done|left; by eexists]. }
      destruct failed as [x|]; [|by eapply Hspawn]. destruct b; [by eapply Hspawn|].
      apply (Hanswer x c); try done. by right.
    + destruct (ended u c) eqn:Hend; [|done]. apply (Hanswer answer c); try done.
      intros v Hv. unfold ended in Hend.
      destruct (pool c !! Z.to_nat u) as [[[a|X' e' k'|k'|f' p'|]|]|] eqn:Hu; try done.
      simpl in Hv. subst u. rewrite Nat2Z.id in Hu. by exists a.
    + case_bool_decide; [by apply (Hanswer true (set_signals (Z.to_nat u :: signals c) c))|].
      by apply (Hanswer false c).
    + assert (∀ f c0, now c0 = now c → pool c0 = pool c → ask t e f k c0 = Some c' →
        pool_ok c' ∧ (now c' = now c ∨ legal (now c) (now c'))) as Hask.
      { intros f c0 Hnow Hpool. unfold ask. destruct (handle e (world c0)) as [x w].
        by apply (Hanswer (f x) (set_world w c0)). }
      case_bool_decide; [|by apply (Hask id c)].
      destruct b; [by apply (Hanswer answer (set_signals (filter (λ u, u ≠ t) (signals c)) c))|].
      by apply (Hask late (set_signals (filter (λ u, u ≠ t) (signals c)) c)).
  - injection Hstep as <-. split; [|by left]. split; simpl; [done|..].
    + intros u th' Hu. destruct (decide (u = t)) as [->|Hne].
      * apply list_lookup_insert_Some in Hu as [(_ & <- & _)|[? _]]; [|done].
        by apply (Hth (now c)).
      * rewrite list_lookup_insert_ne in Hu by done. by apply Hp.
    + intros u Hu. destruct (ok_joined c Hok u Hu) as [a Ha]. exists a.
      rewrite list_lookup_insert_ne; [done|]. intros ->. congruence.
  - apply (solo_ok t _ _ _ _ _ Hok Ht) in Hstep; [done|done|by intros ? []|].
    by apply (Hth (now c)).
  - apply (solo_ok t _ _ _ _ _ Hok Ht) in Hstep; [done|done| |by apply (proj2 Hth (now c))].
    intros u. by apply wait_not_join with answer, Hth.
Qed.

Lemma schedule_ok l c c' :
  pool_ok c → schedule l c = Some c' → pool_ok c' ∧ rtc legal (now c) (now c').
Proof.
  revert c. induction l as [|[t b] l IH]; intros c Hok Hrun; simpl in Hrun.
  { by injection Hrun as <-. }
  destruct (step t b c) as [c1|] eqn:Hstep; [|done]. rewrite Some_bind in Hrun.
  destruct (step_ok t b c c1 Hok Hstep) as [Hok1 Hl]. destruct (IH c1 Hok1 Hrun) as [Hok' Hr].
  split; [done|]. destruct Hl as [<-|Hl]; [done|]. by eapply rtc_l.
Qed.

Lemma legal_prefix σ σ' : rtc legal σ σ' → ∃ ext, trace σ' = trace σ ++ ext.
Proof using Type.
  induction 1 as [σ|σ σ1 σ' (_ & t & e & _ & He) _ [ext IH]]; [by exists []; rewrite app_nil_r|].
  exists ((t, e) :: ext). by rewrite IH, (emit_trace _ _ _ _ He), <- app_assoc.
Qed.

Lemma legal_trace σ σ' pre t e post :
  rtc legal σ σ' → trace σ' = trace σ ++ pre ++ (t, e) :: post →
  ∃ σ0, inv σ0 ∧ replay pre σ = Some σ0 ∧ allowed σ0 t e.
Proof using Type.
  intros Hr. revert pre post. induction Hr as [σ|σ σ1 σ' Hl Hr IH]; intros pre post Heq.
  { symmetry in Heq. rewrite <- (app_nil_r (trace σ)) in Heq at 2.
    apply app_inv_head in Heq. by destruct pre. }
  destruct Hl as (Hi & u & e' & Ha & He). pose proof (emit_trace _ _ _ _ He) as Ht.
  destruct pre as [|[u0 e0] pre].
  - exists σ. split_and!; [done..|]. destruct (legal_prefix _ _ Hr) as [ext Hext]. rewrite Heq, Ht, <- app_assoc in Hext.
    apply app_inv_head in Hext. by injection Hext as -> -> _.
  - destruct (legal_prefix _ _ Hr) as [ext Hext]. rewrite Heq, Ht, <- app_assoc in Hext.
    apply app_inv_head in Hext. injection Hext as -> -> Hext.
    destruct (IH pre post) as (σ0 & ? & Ht0 & ?).
    { by rewrite Heq, Ht, <- app_assoc. }
    exists σ0. split_and!; [done| |done]. cbn [replay]. by rewrite He, Some_bind.
Qed.

Lemma start_ok ps s w :
  inv (Shared s (λ _, None) []) →
  (∀ t p, ps !! t = Some p → safe t p QT (Shared s (λ _, None) [])) →
  pool_ok (start ps s w).
Proof using Type.
  intros Hi Hps. split; simpl; [done|..].
  - intros t th Ht. apply list_lookup_fmap_Some in Ht as (p & -> & Hp). by apply Hps.
  - intros t (u & e & Hin & _). by apply not_elem_of_nil in Hin.
Qed.

Lemma reaches_ok ps s w c :
  inv (Shared s (λ _, None) []) →
  (∀ t p, ps !! t = Some p → safe t p QT (Shared s (λ _, None) [])) →
  reaches (start ps s w) c → pool_ok c ∧ rtc legal (Shared s (λ _, None) []) (now c).
Proof.
  intros Hi Hps [l Hl]. exact (schedule_ok l _ c (start_ok ps s w Hi Hps) Hl).
Qed.

(** What is about to join may do so. *)
Lemma join_allowed {X} c t (e : E X) k z x :
  pool_ok c → pool c !! t = Some (Running (Call e k)) → sync_of e = Some (Join z x) →
  allowed (now c) t (Asked (Entry e x)).
Proof using Type.
  intros Hok Ht Hs. pose proof (ok_safe c Hok t _ Ht) as Hsafe. simpl in Hsafe.
  apply safe_call_inv with (x := x) in Hsafe; [|apply Hok|by eapply ok_alive| |].
  - destruct (Hsafe (Shared (fields (now c)) (held (now c)) (trace (now c) ++ [(t, Asked (Entry e x))])))
      as [Ha _]; [|exact Ha]. unfold emit. simpl. by rewrite Hs.
  - unfold wait_of. by rewrite Hs.
  - unfold expected. by rewrite Hs.
Qed.

(** Whatever the interleaving and the environment: the invariant holds, no
    thread meets undefined behaviour, and every event of the trace was allowed
    when it happened, in the state to which the events before it lead. *)
Lemma pool_safe ps s w c :
  inv (Shared s (λ _, None) []) →
  (∀ t p, ps !! t = Some p → safe t p QT (Shared s (λ _, None) [])) →
  reaches (start ps s w) c →
  inv (now c) ∧ (∀ t, pool c !! t ≠ Some (Running UB)) ∧
  ∀ pre t e post, trace (now c) = pre ++ (t, e) :: post →
    ∃ σ, inv σ ∧ replay pre (Shared s (λ _, None) []) = Some σ ∧ allowed σ t e.
Proof.
  intros Hi Hps Hreach. destruct (reaches_ok ps s w c Hi Hps Hreach) as [Hc Hr].
  split_and!; [apply Hc| |].
  - intros t Ht. pose proof (ok_safe c Hc t _ Ht) as Hs. simpl in Hs.
    apply (Hs _ (rtc_refl _ _)); [apply Hc|]. by eapply ok_alive.
  - intros pre t e post Heq. by apply (legal_trace _ _ pre t e post Hr).
Qed.
End logic.

(** Nothing is known of the answers. *)
Definition any_answer {E : Type → Type} : ∀ X, E X → X → Prop := λ _ _ _, True.
