(* ===== verification/ThreadsProgress.v ===== *)
(** Freedom from deadlock for [Threads].

    [ordered]: a program takes mutexes in increasing rank and gives all back.
    Ranks from [level] on are those of leaves, which are threads that others
    create: a leaf takes no mutex below [level] and joins nobody; any other thread
    joins while it holds only mutexes below [level].  Soundness
    ([pool_progress]): then no interleaving is stuck, but for threads that join
    one that has not ended; and these neither, if it is known that leaves are
    joined. *)
From S2P Require Import Prelude Effects Threads ThreadsLogic.
From stdpp Require Import options.
#[local] Set Default Proof Using "Type*".

Section progress.
Context {E : Type → Type} {M S A : Type} `{EqDecision M} {Sy : Sync E M S A}.
Implicit Types (σ : shared E M S) (t u : nat) (e : event E S) (L : list M).

(** The order in which mutexes are taken, and the results of a thread that has
    ended (and not just run out of fuel). *)
Variables (rank : M → nat) (level : nat) (final : A → Prop).

(** What is asked of a thread that makes a call while it holds [L], and what it
    holds then. *)
Definition in_order {X} (leaf : bool) (c : E X) L : Prop :=
  match sync_of c with
  | Some (Acquire m) =>
      (leaf = true → (level <= rank m)%nat) ∧ ∀ m', m' ∈ L → (rank m' < rank m)%nat
  | Some (TryAcquire m) => leaf = true → (level <= rank m)%nat
  | Some (Release m) => m ∈ L
  | Some (Wait m _) => m ∈ L ∧ ∀ m', m' ∈ L → m' ≠ m → (rank m' < rank m)%nat
  | Some (Join _ _) => leaf = false ∧ ∀ m, m ∈ L → (rank m < level)%nat
  | _ => True
  end.

Definition holding {X} (c : E X) (x : X) L : list M :=
  match sync_of c with
  | Some op =>
      match op in sync _ _ _ _ X return X → list M with
      | Acquire m => λ _, m :: L
      | TryAcquire m => λ got : bool, if got then m :: L else L
      | Release m => λ _, filter (λ m', m' ≠ m) L
      | _ => λ _, L
      end x
  | None => L
  end.

Fixpoint ordered_to {B} (leaf : bool) (p : prog E S B) L (Q : B → list M → Prop) : Prop :=
  match p with
  | Ret a => Q a L
  | Call c k => in_order leaf c L ∧ ∀ x, ordered_to leaf (k x) (holding c x L) Q
  | Get k => ∀ s, ordered_to leaf (k s) L Q
  | Modify _ p => ordered_to leaf p L Q
  | UB => True
  end.

(** Mutexes are taken in order and given back at the end. *)
Definition ordered leaf (p : prog E S A) L : Prop :=
  ordered_to leaf p L (λ a L', final a → L' = []).

Lemma ordered_bind {B C} leaf (p : prog E S B) (k : B → prog E S C) L Q :
  ordered_to leaf p L (λ a L', ordered_to leaf (k a) L' Q) → ordered_to leaf (p ≫= k) L Q.
Proof using Type.
  unfold mbind. revert L. induction p as [a|X c k' IH|k' IH|f p IH|]; simpl; intros L Hp; [done|..].
  - destruct Hp as [Hc Hk]. split; [done|]. intros x. by apply IH.
  - intros s. by apply IH.
  - by apply IH.
  - done.
Qed.

Lemma ordered_mono {B} leaf (p : prog E S B) L (Q Q' : B → list M → Prop) :
  ordered_to leaf p L Q → (∀ a L', Q a L' → Q' a L') → ordered_to leaf p L Q'.
Proof using Type.
  intros Hp HQ. revert L Hp.
  induction p as [a|X c k' IH|k' IH|f p IH|]; simpl; intros L Hp; [by apply HQ|..].
  - destruct Hp as [Hc Hk]. split; [done|]. intros x. by apply IH.
  - intros s. by apply IH.
  - by apply IH.
  - done.
Qed.

Lemma ordered_call {X} leaf (c : E X) L Q :
  in_order leaf c L → (∀ x, Q x (holding c x L)) → ordered_to leaf (call c) L Q.
Proof using Type. by split. Qed.

Lemma ordered_ret {B} leaf (a : B) L (Q : B → list M → Prop) : Q a L → ordered_to leaf (mret a) L Q.
Proof using Type. done. Qed.

Lemma ordered_modify leaf f L (Q : unit → list M → Prop) : Q () L → ordered_to leaf (modify f) L Q.
Proof using Type. done. Qed.

Lemma ordered_get leaf L (Q : S → list M → Prop) : (∀ s, Q s L) → ordered_to leaf get L Q.
Proof using Type. done. Qed.

Lemma ordered_foreach {B} leaf (f : B → prog E S unit) l L :
  (∀ x, ordered_to leaf (f x) L (λ _ L', L' = L)) → ordered_to leaf (foreach f l) L (λ _ L', L' = L).
Proof using Type.
  intros Hf. induction l as [|x l IH]; cbn [foreach]; [done|].
  apply ordered_bind. eapply ordered_mono; [apply Hf|]. by intros [] L' ->.
Qed.

(** A program whose calls are no business of the scheduler. *)
Lemma ordered_calm leaf allowed {B} (p : prog E S B) Q L :
  calm allowed p Q → ordered_to leaf p L (λ a L', Q a ∧ L' = L).
Proof using Type.
  induction p as [a|X c k IH|k IH|f p IH|]; simpl; try done.
  intros [[Hs _] Hk]. unfold in_order, holding. rewrite Hs. split; [done|].
  intros x. by apply IH.
Qed.

(** The mutexes of a thread, and what it goes on with. *)
Definition high leaf L : Prop := leaf = true → ∀ m, m ∈ L → (level <= rank m)%nat.

Definition thread_locks leaf t (th : thread E S A) σ : Prop :=
  match th with
  | Running p => ∃ L, (∀ m, m ∈ L ↔ held σ m = Some t) ∧ high leaf L ∧ ordered leaf p L
  | Asleep c answer k => ∃ m L, sync_of c = Some (Wait m answer) ∧ m ∈ L ∧
      (∀ m', m' ∈ L → m' ≠ m → (rank m' < rank m)%nat) ∧
      (∀ m', held σ m' = Some t ↔ m' ∈ L ∧ m' ≠ m) ∧ high leaf L ∧ ∀ x, ordered leaf (k x) L
  end.

Lemma holding_high {X} leaf (c : E X) x L :
  in_order leaf c L → high leaf L → high leaf (holding c x L).
Proof using Type.
  unfold in_order, holding, high. intros Hc HL Hl m.
  destruct (sync_of c) as [op|]; [|by apply HL].
  destruct op; try by apply HL.
  - intros [->|?]%elem_of_cons; [by apply Hc|by apply HL].
  - destruct x; [|by apply HL]. intros [->|?]%elem_of_cons; [by apply Hc|by apply HL].
  - intros [_ ?]%list_elem_of_filter. by apply HL.
Qed.

Lemma answer_locks {X} t (c : E X) x L σ σ' :
  emit t (Asked (Entry c x)) σ = Some σ' → wait_of (M:=M) (A:=A) c = None →
  (∀ m, m ∈ L ↔ held σ m = Some t) → ∀ m, m ∈ holding c x L ↔ held σ' m = Some t.
Proof using Type.
  intros He%emit_held Hw HL m. revert He Hw. unfold locks_after, wait_of, holding.
  destruct (sync_of c) as [op|]; [|by intros [= <-]].
  destruct op as [m'|m'|m'|m' X answer|X body answer failed|u X answer|u|X answer late];
    try (intros [= <-] _; apply HL); try done.
  - intros [_ ->]%take_lock_spec _. by rewrite elem_of_cons, HL, own_take.
  - destruct x; [|destruct (held σ m'); [|done]; intros [= <-] _; apply HL].
    intros [_ ->]%take_lock_spec _. by rewrite elem_of_cons, HL, own_take.
  - intros [_ ->]%give_lock_spec _. by rewrite list_elem_of_filter, HL, own_give.
Qed.

Context {W : Type} {H : Handler E W}.
#[local] Abbreviation config := (config E M S W A).

Hypothesis spawn_ordered : ∀ X (c : E X) body answer failed,
  sync_of c = Some (Spawn body answer failed) → ordered true body [].

(** The threads from [base] on are created by others: they are leaves. *)
Variable base : nat.
Definition is_leaf t : bool := bool_decide (base <= t)%nat.

Record locks_ok (c : config) : Prop := {
  lo_base : (base <= length (pool c))%nat;
  lo_held : ∀ m u, held (now c) m = Some u → (u < length (pool c))%nat;
  lo_threads : ∀ t th, pool c !! t = Some th → thread_locks (is_leaf t) t th (now c);
}.

Lemma thread_locks_other leaf t u e th σ σ' :
  emit t e σ = Some σ' → u ≠ t → thread_locks leaf u th σ → thread_locks leaf u th σ'.
Proof using Type.
  intros He%emit_held Hu. destruct th as [p|X c answer k]; simpl.
  - intros (L & HL & Hp). exists L. split; [|done]. intros m.
    by rewrite HL, (locks_after_other _ _ _ _ _ _ He).
  - intros (m & L & Hc & Hm & Hr & HL & Hh & Hk). exists m, L. split_and!; try done.
    intros m'. by rewrite (locks_after_other _ _ _ _ _ _ He).
Qed.

Lemma move_locks t e th (c c' : config) :
  (base <= length (pool c))%nat →
  (∀ m u, held (now c) m = Some u → (u < length (pool c))%nat) → (t < length (pool c))%nat →
  (∀ u th', u ≠ t → pool c !! u = Some th' → thread_locks (is_leaf u) u th' (now c)) →
  (∀ σ, emit t e (now c) = Some σ → thread_locks (is_leaf t) t th σ) →
  move t e th c = Some c' → locks_ok c'.
Proof using Type.
  intros Hbase Hlen Ht Hpool Hth Hm. unfold move in Hm.
  destruct (emit t e (now c)) as [σ|] eqn:He; [|done]. rewrite Some_bind in Hm.
  injection Hm as <-. split; simpl; rewrite ?length_insert; [done|..].
  - intros m u Hu. destruct (decide (u = t)) as [->|Hne]; [done|].
    apply (Hlen m). by apply (locks_after_other _ _ _ _ _ m (emit_held _ _ _ _ He)).
  - intros u th' Hu. destruct (decide (u = t)) as [->|Hne].
    + apply list_lookup_insert_Some in Hu as [(_ & <- & _)|[? _]]; [by apply Hth|done].
    + rewrite list_lookup_insert_ne in Hu by done. eapply thread_locks_other; [done..|].
      by apply Hpool.
Qed.

Lemma step_locks t b (c c' : config) : locks_ok c → step t b c = Some c' → locks_ok c'.
Proof.
  intros [Hbase Hlen Hp] Hstep. unfold step in Hstep.
  destruct (pool c !! t) as [[[a|X e k|k|f p|]|X e answer k]|] eqn:Ht; try done;
    pose proof (Hp t _ Ht) as Hth; pose proof (lookup_lt_Some _ _ _ Ht) as Hlt.
  - destruct Hth as (L & HL & Hhigh & Hc & Hk).
    assert (∀ x c0, now c0 = now c → (length (pool c) ≤ length (pool c0))%nat →
      (∀ u th, u ≠ t → pool c0 !! u = Some th → thread_locks (is_leaf u) u th (now c)) →
      wait_of (M:=M) (A:=A) e = None →
      move t (Asked (Entry e x)) (Running (k x)) c0 = Some c' → locks_ok c') as Hanswer.
    { intros x c0 Hnow Hl Ho Hw Hm.
      apply (move_locks t (Asked (Entry e x)) (Running (k x)) c0 c'); rewrite ?Hnow;
        [lia| |lia|done| |done].
      - intros m u Hu. specialize (Hlen m u Hu). lia.
      - intros σ He. exists (holding e x L).
        split_and!; [by eapply answer_locks|by apply holding_high|apply Hk]. }
    assert (∀ u th, u ≠ t → pool c !! u = Some th →
      thread_locks (is_leaf u) u th (now c)) as Hothers
      by (intros; by apply Hp).
    assert (∀ f c0, now c0 = now c → pool c0 = pool c → wait_of (M:=M) (A:=A) e = None →
      ask t e f k c0 = Some c' → locks_ok c') as Hask.
    { intros f c0 Hnow Hpool Hw. unfold ask. destruct (handle e (world c0)) as [x w].
      apply (Hanswer (f x) (set_world w c0)); simpl; rewrite ?Hpool; done. }
    unfold in_order, holding, wait_of in *. destruct (sync_of e) as [op|] eqn:Hs; [|by apply (Hask id c)].
    destruct op as [m|m|m|m X answer|X body answer failed|u X answer|u|X answer late].
    + by apply (Hanswer tt c).
    + by eapply (Hanswer _ c).
    + by apply (Hanswer tt c).
    + destruct Hc as [Hm Hr].
      apply (move_locks t (Slept e) (Asleep e answer k) c c'); [done..| |done].
      intros σ He%emit_held. simpl in He. rewrite Hs in He. apply give_lock_spec in He as [_ Hσ].
      exists m, L. split_and!; try done. intros m'. rewrite Hσ, own_give, HL. tauto.
    + assert (∀ x, move t (Asked (Entry e x)) (Running (k x)) (add_thread (Running body) c) =
        Some c' → locks_ok c') as Hspawn.
      { intros x. apply (Hanswer x (add_thread (Running body) c)); [done| | |done].
        - simpl. rewrite length_app. lia.
        - simpl. intros u th Hu [Hth|[Hge Hth]]%lookup_app_Some; [by apply Hp|].
          apply list_lookup_singleton_Some in Hth as [Hz <-].
          unfold is_leaf. rewrite bool_decide_true by lia. exists [].
          split_and!; [|by intros _ m ?%not_elem_of_nil|by eapply spawn_ordered].
          intros m. split; [by intros ?%not_elem_of_nil|]. intros Hh%Hlen. lia. }
      destruct failed as [x|]; [|by eapply Hspawn]. destruct b; [by eapply Hspawn|].
      by apply (Hanswer x c).
    + destruct (ended u c); [|done]. by apply (Hanswer answer c).
    + case_bool_decide; [by apply (Hanswer true (set_signals (Z.to_nat u :: signals c) c))|].
      by apply (Hanswer false c).
    + case_bool_decide; [|by apply (Hask id c)].
      destruct b; [by apply (Hanswer answer (set_signals (filter (λ u, u ≠ t) (signals c)) c))|].
      by apply (Hask late (set_signals (filter (λ u, u ≠ t) (signals c)) c)).
  - injection Hstep as <-. split; simpl; rewrite ?length_insert; [done|done|].
    intros u th Hu. destruct (decide (u = t)) as [->|Hne].
    + apply list_lookup_insert_Some in Hu as [(_ & <- & _)|[? _]]; [|done].
      destruct Hth as (L & HL & Hh & Hk). exists L. split_and!; [done|done|apply Hk].
    + rewrite list_lookup_insert_ne in Hu by done. by apply Hp.
  - eapply move_locks; [done|done|exact Hlt|intros; by apply Hp| |exact Hstep].
    intros σ He. destruct Hth as (L & HL & Hh & Hk). exists L. split_and!; [|done|done]. intros m.
    apply emit_held in He. injection He as <-. apply HL.
  - eapply move_locks; [done|done|exact Hlt|intros; by apply Hp| |exact Hstep].
    intros σ He%emit_held. destruct Hth as (m & L & Hs & Hm & Hr & HL & Hh & Hk).
    exists L. split_and!; [|done|apply Hk]. simpl in He. rewrite Hs in He. apply take_lock_spec in He as [_ ->].
    intros m'. rewrite own_take, HL. split; [|by intros [->|[? _]]]. intros Hm'.
    destruct (decide (m' = m)); auto.
Qed.

(** ** The threads that have been created *)

(** Threads that are created are from [base] on, and in the pool. *)
Definition created_in n e : Prop :=
  match e with
  | Asked (Entry c x) =>
      match sync_of c with
      | Some op =>
          match op in sync _ _ _ _ X return X → Prop with
          | Spawn _ answer None => λ x, ∃ u, x = answer (Z.of_nat u) ∧ (base <= u < n)%nat
          | _ => λ _, True
          end x
      | None => True
      end
  | _ => True
  end.

Definition created_ok (c : config) : Prop :=
  (base <= length (pool c))%nat ∧ ∀ t e, (t, e) ∈ trace (now c) → created_in (length (pool c)) e.

Lemma created_in_mono n n' e : (n <= n')%nat → created_in n e → created_in n' e.
Proof using Type.
  intros Hn. destruct e as [[X c x]|X c|s s']; [|done..]. simpl.
  destruct (sync_of c) as [op|]; [|done]. destruct op as [| | | |X b a []| | |]; try done.
  intros (u & -> & Hu). exists u. split; [done|]. lia.
Qed.

Lemma move_created t e th (c0 c c' : config) :
  created_ok c → now c0 = now c → (length (pool c) <= length (pool c0))%nat →
  created_in (length (pool c0)) e → move t e th c0 = Some c' → created_ok c'.
Proof using Type.
  intros [Hb Hall] Hnow Hl He Hm. unfold move in Hm. rewrite Hnow in Hm.
  destruct (emit t e (now c)) as [σ|] eqn:Hσ; [|done]. rewrite Some_bind in Hm. injection Hm as <-.
  split; simpl; rewrite length_insert; [lia|]. intros u e'. rewrite (emit_trace _ _ _ _ Hσ).
  intros [Hin|Hin%list_elem_of_singleton]%elem_of_app.
  - eapply created_in_mono; [exact Hl|]. by apply (Hall u).
  - by injection Hin as _ ->.
Qed.

Lemma step_created t b (c c' : config) :
  locks_ok c → created_ok c → step t b c = Some c' → created_ok c'.
Proof using Type.
  intros Hlocks Hok Hstep. unfold step in Hstep.
  destruct (pool c !! t) as [[[a|X e k|k|f p|]|X e answer k]|] eqn:Ht; try done.
  - assert (∀ x k c0, now c0 = now c → (length (pool c) <= length (pool c0))%nat →
      created_in (length (pool c0)) (Asked (Entry e x)) →
      move t (Asked (Entry e x)) (Running (k x)) c0 = Some c' → created_ok c') as Hmove
      by (intros x k' c0 ???; by eapply move_created).
    assert (∀ f c0, now c0 = now c → pool c0 = pool c → (∀ x, created_in (length (pool c)) (Asked (Entry e x))) →
      ask t e f k c0 = Some c' → created_ok c') as Hask.
    { intros f c0 Hnow Hpool Hc. unfold ask. destruct (handle e (world c0)) as [x w].
      intros Hm. by apply (Hmove _ _ _) in Hm; [|done|by simpl; rewrite Hpool|simpl; rewrite Hpool; apply Hc]. }
    simpl in Hmove, Hask. destruct (sync_of e) as [op|] eqn:Hs; [|by apply (Hask id c)].
    destruct op as [m|m|m|m X answer|X body answer failed|u X answer|u|X answer late].
    + by apply (Hmove tt k c).
    + by apply (Hmove _ k c) in Hstep.
    + by apply (Hmove tt k c).
    + by eapply (move_created t (Slept e)).
    + destruct failed as [x|]; [destruct b|].
      * eapply (Hmove _ k (add_thread (Running body) c)); [done| |done|exact Hstep].
        simpl. rewrite length_app. lia.
      * by apply (Hmove x k c).
      * eapply (Hmove _ k (add_thread (Running body) c)); [done| | |exact Hstep];
          simpl; rewrite length_app; [lia|]. eexists. split; [done|]. simpl.
        destruct Hok. lia.
    + destruct (ended u c); [|done]. by apply (Hmove answer k c).
    + case_bool_decide; [by apply (Hmove true k (set_signals (Z.to_nat u :: signals c) c))|].
      by apply (Hmove false k c).
    + case_bool_decide; [|by apply (Hask id c)].
      destruct b; [by apply (Hmove answer k (set_signals (filter (λ u, u ≠ t) (signals c)) c))|].
      by apply (Hask late (set_signals (filter (λ u, u ≠ t) (signals c)) c)).
  - injection Hstep as <-. destruct Hok as [Hb Hall]. split; simpl; by rewrite length_insert.
  - by eapply (move_created t (Wrote _ _)).
  - destruct (lo_threads c Hlocks t _ Ht) as (m & L & Hs & _).
    eapply (move_created t (Asked _)); [done|done|done| |exact Hstep]. simpl. by rewrite Hs.
Qed.

Lemma reaches_created (c c' : config) :
  locks_ok c → created_ok c → reaches c c' → locks_ok c' ∧ created_ok c'.
Proof.
  intros Hlocks Hok [l Hl]. revert c Hlocks Hok Hl.
  induction l as [|[t b] l IH]; intros c Hlocks Hok Hrun; simpl in Hrun.
  { by injection Hrun as <-. }
  destruct (step t b c) as [c1|] eqn:Hstep; [|done]. rewrite Some_bind in Hrun.
  apply (IH c1); [by eapply step_locks|by eapply step_created|done].
Qed.

Lemma start_locks ps s (w : W) :
  base = length ps → (∀ t p, ps !! t = Some p → ordered false p []) → locks_ok (start ps s w).
Proof using Type.
  intros Hbase Hps. split; simpl.
  - by rewrite length_fmap, Hbase.
  - done.
  - intros t th Ht. apply list_lookup_fmap_Some in Ht as (p & -> & Hp).
    unfold is_leaf. rewrite bool_decide_false by (apply lookup_lt_Some in Hp; lia).
    exists []. split_and!; [|done|by eapply Hps].
    intros m. split; [by intros ?%not_elem_of_nil|done].
Qed.

(** In every configuration that can be reached. *)
Lemma reaches_locks ps s (w : W) c :
  base = length ps → (∀ t p, ps !! t = Some p → ordered false p []) →
  reaches (start ps s w) c → locks_ok c ∧ created_ok c.
Proof.
  intros Hbase Hps. apply reaches_created; [by apply start_locks|].
  split; simpl; [by rewrite length_fmap, Hbase|]. by intros t e ?%not_elem_of_nil.
Qed.

Definition joining (th : thread E S A) (z : Z) : Prop :=
  ∃ X (c : E X) k x, th = Running (Call c k) ∧ sync_of c = Some (Join z x).

(** What a thread that cannot move waits for. *)
Definition waits_for (th : thread E S A) (m : M) : Prop :=
  (∃ (c : E unit) k, th = Running (Call c k) ∧ sync_of c = Some (Acquire m)) ∨
  (∃ X (c : E X) a k answer, th = Asleep c a k ∧ sync_of c = Some (Wait m answer)).

Lemma blocked_cases t (c : config) th :
  locks_ok c → pool c !! t = Some th → step t false c = None →
  (∃ a, th = Running (Ret a)) ∨ th = Running UB ∨
  (∃ z, joining th z ∧ ended z c = false) ∨
  (∃ m u, waits_for th m ∧ held (now c) m = Some u).
Proof using Type.
  intros [_ _ Hp] Ht Hstep. pose proof (Hp t th Ht) as Hth. unfold step in Hstep. rewrite Ht in Hstep.
  assert (∀ e th (c0 : config), now c0 = now c → move t e th c0 = None →
    locks_after t e (held (now c)) = None) as Hmove.
  { intros e th' c0 <-. unfold move, emit. by destruct (locks_after t e (held (now c0))). }
  destruct th as [[a|X e k|k|f p|]|X e answer k]; try done; [by left; exists a|..].
  - assert (∀ f c0, now c0 = now c → ask t e f k c0 = None →
      ∃ x, locks_after t (Asked (Entry e x)) (held (now c)) = None) as Hask.
    { intros f c0 Hnow. unfold ask. destruct (handle e (world c0)) as [x w].
      intros Hm%Hmove; [|done]. by exists (f x). }
    destruct Hth as (L & HL & _ & Hc & _). unfold in_order in Hc. simpl in Hask, Hmove.
    destruct (sync_of e) as [op|] eqn:Hs; [|by destruct (Hask id c eq_refl Hstep)].
    destruct op as [m|m|m|m X answer|X body answer failed|u X answer|u|X answer late].
    + apply Hmove in Hstep; [|done]. simpl in Hstep. rewrite Hs in Hstep. unfold take_lock in Hstep.
      destruct (held (now c) m) as [u|] eqn:Hu; [|done]. do 3 right. exists m, u.
      split; [|done]. left. by exists e, k.
    + apply Hmove in Hstep; [|done]. simpl in Hstep. rewrite Hs in Hstep. unfold take_lock in Hstep.
      by destruct (held (now c) m).
    + apply Hmove in Hstep; [|done]. simpl in Hstep. rewrite Hs in Hstep. unfold give_lock in Hstep.
      by rewrite decide_True in Hstep by by apply HL.
    + apply Hmove in Hstep; [|done]. simpl in Hstep. rewrite Hs in Hstep. unfold give_lock in Hstep.
      by rewrite decide_True in Hstep by (apply HL; by destruct Hc).
    + destruct failed; (apply Hmove in Hstep; [|done]); simpl in Hstep; by rewrite Hs in Hstep.
    + destruct (ended u c) eqn:He.
      * apply Hmove in Hstep; [|done]. simpl in Hstep. by rewrite Hs in Hstep.
      * right; right; left. exists u. split; [|done]. by exists X, e, k, answer.
    + case_bool_decide; (apply Hmove in Hstep; [|done]); simpl in Hstep; by rewrite Hs in Hstep.
    + case_bool_decide; [|by destruct (Hask id c eq_refl Hstep)].
      by eapply Hask in Hstep as [x ?].
  - by right; left.
  - destruct Hth as (m & L & Hs & _). apply Hmove in Hstep; [|done]. simpl in Hstep.
    rewrite Hs in Hstep. unfold take_lock in Hstep.
    destruct (held (now c) m) as [u|] eqn:Hu; [|done]. do 3 right. exists m, u. split; [|done].
    right. by eexists _, e, answer, k, _.
Qed.

(** The owner of a mutex has not ended; it joins only if the mutex is below
    [level]; and it waits for no mutex of lower or equal rank. *)
Lemma owner_busy (c : config) m u th :
  locks_ok c → held (now c) m = Some u → pool c !! u = Some th →
  (∀ a, th = Running (Ret a) → ¬ final a) ∧ (∀ z, joining th z → (rank m < level)%nat) ∧
  (∀ m', waits_for th m' → (rank m < rank m')%nat).
Proof using Type.
  intros [_ _ Hp] Hm Hu. specialize (Hp u th Hu). split_and!.
  - intros a -> Hf. destruct Hp as (L & HL & _ & HQ). simpl in HQ. specialize (HQ Hf). subst L.
    by apply HL, not_elem_of_nil in Hm.
  - intros z (X & e & k & x & -> & Hs). destruct Hp as (L & HL & _ & Hc & _). unfold in_order in Hc.
    rewrite Hs in Hc. by apply Hc, HL.
  - intros m' [(e & k & -> & Hs)|(X & e & a & k & answer & -> & Hs)].
    + destruct Hp as (L & HL & _ & Hc & _). unfold in_order in Hc. rewrite Hs in Hc. by apply Hc, HL.
    + destruct Hp as (m2 & L & Hs2 & _ & Hr & HL & _). rewrite Hs in Hs2. injection Hs2 as <- _.
      apply HL in Hm as [Hm Hne]. by apply Hr.
Qed.

(** A leaf joins nobody, and waits for no mutex below [level]. *)
Lemma leaf_busy (c : config) u th :
  locks_ok c → is_leaf u = true → pool c !! u = Some th →
  (∀ z, ¬ joining th z) ∧ (∀ m, waits_for th m → (level <= rank m)%nat).
Proof using Type.
  intros [_ _ Hp] Hl Hu. specialize (Hp u th Hu). split.
  - intros z (X & e & k & x & -> & Hs). destruct Hp as (L & _ & _ & Hc & _). unfold in_order in Hc.
    rewrite Hs, Hl in Hc. by destruct Hc.
  - intros m [(e & k & -> & Hs)|(X & e & a & k & answer & -> & Hs)].
    + destruct Hp as (L & _ & _ & Hc & _). unfold in_order in Hc. rewrite Hs in Hc. by apply Hc.
    + destruct Hp as (m2 & L & Hs2 & Hm & _ & _ & Hh & _). rewrite Hs in Hs2.
      injection Hs2 as <- _. by apply Hh.
Qed.

(** ** Nobody can move *)
Section stuck.
Variables (bound : nat) (c : config).
Hypothesis rank_bound : ∀ m, (rank m < bound)%nat.
Hypothesis ok : locks_ok c.
Hypothesis all_final : ∀ t a, pool c !! t = Some (Running (Ret a)) → final a.
Hypothesis no_ub : ∀ t, pool c !! t ≠ Some (Running UB).
Hypothesis blocked : ∀ t th, pool c !! t = Some th → step t false c = None.
(** Who holds a mutex below [level] joins a leaf. *)
Hypothesis joins_leaf : (0 < level)%nat → ∀ t th z, pool c !! t = Some th → joining th z →
  ∃ u, z = Z.of_nat u ∧ is_leaf u = true ∧ (u < length (pool c))%nat.

Definition free_from n : Prop := ∀ m u, (n <= rank m)%nat → held (now c) m ≠ Some u.

(** From the highest rank down: the owner would wait for a mutex that is free. *)
Lemma free_down k :
  (∀ m u th z, held (now c) m = Some u → pool c !! u = Some th → (k <= rank m)%nat →
    joining th z → ended z c = true) → free_from k.
Proof.
  intros Hjoin m u Hm Hu.
  assert (∀ n m u, (bound - rank m < n)%nat → (k <= rank m)%nat → held (now c) m = Some u → False)
    as Hfree; [|by eapply (Hfree (Datatypes.S (bound - rank m)) m u); [lia|..]].
  clear m u Hm Hu. intros n.
  induction n as [|n IH]; intros m u Hn Hk Hm; [lia|].
  destruct (lookup_lt_is_Some_2 (pool c) u) as [th Hth]; [by eapply lo_held|].
  destruct (owner_busy c m u th ok Hm Hth) as (Hret & _ & Hwait).
  destruct (blocked_cases u c th ok Hth (blocked u th Hth))
    as [[a ->]|[->|[(z & Hz & He)|(m' & u' & Hw & Hm')]]].
  - by apply (Hret a), (all_final u).
  - by apply (no_ub u).
  - by rewrite (Hjoin m u th z Hm Hth Hk Hz) in He.
  - specialize (Hwait m' Hw). pose proof (rank_bound m'). by apply (IH m' u'); [lia|lia|].
Qed.

Lemma free_high : free_from level.
Proof.
  apply free_down. intros m u th z Hm Hth Hk Hz.
  destruct (owner_busy c m u th ok Hm Hth) as (_ & Hjoin & _). specialize (Hjoin z Hz). lia.
Qed.

Lemma leaves_ended u : is_leaf u = true → (u < length (pool c))%nat → ended (Z.of_nat u) c = true.
Proof.
  intros Hl Hu. destruct (lookup_lt_is_Some_2 (pool c) u Hu) as [th Hth].
  destruct (leaf_busy c u th ok Hl Hth) as [Hjoin Hwait].
  destruct (blocked_cases u c th ok Hth (blocked u th Hth))
    as [[a ->]|[->|[(z & Hz & He)|(m & v & Hw & Hm)]]].
  - unfold ended. rewrite Nat2Z.id, Hth. apply bool_decide_eq_true. lia.
  - by destruct (no_ub u).
  - by destruct (Hjoin z).
  - by destruct (free_high m v (Hwait m Hw)).
Qed.

Lemma stuck_end t th :
  pool c !! t = Some th →
  (∃ a, th = Running (Ret a)) ∨ level = 0%nat ∧ ∃ z, joining th z ∧ ended z c = false.
Proof.
  intros Hth.
  assert ((0 < level)%nat → ∀ t th z, pool c !! t = Some th → joining th z → ended z c = true)
    as Hjoin.
  { intros Hl t' th' z Ht' Hz. destruct (joins_leaf Hl t' th' z Ht' Hz) as (u & -> & Hu & Hlt).
    by apply leaves_ended. }
  assert (free_from 0) as Hfree.
  { destruct (decide (level = 0%nat)) as [Hl|Hl]; [rewrite <- Hl; apply free_high|].
    apply free_down. intros m u th' z _ Hth' _. apply (Hjoin ltac:(lia) u th' z Hth'). }
  destruct (blocked_cases t c th ok Hth (blocked t th Hth))
    as [?|[->|[(z & Hz & He)|(m & u & _ & Hm)]]]; [by left|by destruct (no_ub t)| |].
  - right. destruct (decide (level = 0%nat)) as [Hl|Hl]; [split; [done|by exists z]|].
    by rewrite (Hjoin ltac:(lia) t th z Hth Hz) in He.
  - by destruct (Hfree m u (Nat.le_0_l _)).
Qed.
End stuck.

(** Whatever the interleaving so far: some thread can move, or every thread has
    ended, or, if [level] is 0, joins one that has not; unless a thread ran out of
    fuel. *)
Lemma pool_progress bound ps s w c :
  base = length ps → (∀ m, (rank m < bound)%nat) →
  (∀ t p, ps !! t = Some p → ordered false p []) →
  reaches (start ps s w) c →
  (∀ t a, pool c !! t = Some (Running (Ret a)) → final a) →
  (∀ t, pool c !! t ≠ Some (Running UB)) →
  ((0 < level)%nat → ∀ t th z, pool c !! t = Some th → joining th z →
    ∃ u, z = Z.of_nat u ∧ (length ps <= u < length (pool c))%nat) →
  (∃ t c', step t false c = Some c') ∨
  ∀ t th, pool c !! t = Some th →
    (∃ a, th = Running (Ret a)) ∨ level = 0%nat ∧ ∃ z, joining th z ∧ ended z c = false.
Proof.
  intros Hbase Hbound Hps Hreach Hfinal Hub Hjoin.
  destruct (reaches_locks ps s w c Hbase Hps Hreach) as [Hok _].
  destruct (decide (Exists (λ t, is_Some (step t false c)) (seq 0 (length (pool c))))) as [Hex|Hno].
  { left. apply Exists_exists in Hex as (t & _ & c' & Hc'). by exists t, c'. }
  right. rewrite <- Forall_Exists_neg, Forall_seq in Hno. intros t th.
  apply (stuck_end bound c); try done.
  - intros t' th' Ht. apply eq_None_not_Some, Hno. apply lookup_lt_Some in Ht. lia.
  - intros Hlevel t' th' z Ht Hz. destruct (Hjoin Hlevel t' th' z Ht Hz) as (u & -> & Hu).
    exists u. split_and!; [done| |lia]. apply bool_decide_eq_true. lia.
Qed.
End progress.

(** Runs a program up to a loop, a choice or a part with a lemma of its own. *)
Ltac ordered_step_with prove simplify_held :=
  lazymatch goal with
  | |- ordered_to _ _ _ (mbind _ _) _ _ => apply ordered_bind
  | |- ordered_to _ _ _ (call _) _ _ => apply ordered_call; [prove|intros ?; simplify_held]
  | |- ordered_to _ _ _ get _ _ => apply ordered_get; intros ?
  | |- ordered_to _ _ _ (modify _) _ _ => apply ordered_modify
  | |- ordered_to _ _ _ (mret _) _ _ => apply ordered_ret
  | |- ordered_to _ _ _ (if ?b then _ else _) _ _ => destruct b eqn:?
  | |- ordered_to _ _ _ (match ?x with _ => _ end) _ _ => destruct x eqn:?
  end; cbn beta iota.

(** A call that asks for no order, or for none but that of the mutexes held. *)
Ltac no_rank :=
  try first [done|intros _; apply Nat.le_0_l|split; [intros _; apply Nat.le_0_l|]; try done].
