(* ===== verification/ThreadsAtomic.v ===== *)
(** Critical sections of [Threads] are atomic.

    A part of the fields is changed under one mutex only.  [performs]: a program
    does a list of operations on that part, one in each critical section, and
    afterwards tells the results, in order.  Soundness ([reaches_linear]): in
    every interleaving the operations of all threads stand in one order, which
    keeps that of each thread; the part is what they make of its first value, one
    after the other; and each thread has told the results that they have in this
    order.  Undefined behaviour is no concern of this file. *)
From S2P Require Import Prelude Effects Threads.
From stdpp Require Import options.
#[local] Set Default Proof Using "Type*".

(** A thread is outside its critical section; or inside, with the value at its
    beginning, the value now, and the operation that it is doing. *)
Inductive section_of (P Op : Type) : Type :=
| Outside
| Inside (v0 v : P) (o : Op).
Arguments Outside {P Op}.
Arguments Inside {P Op} _ _ _.

(** What a call does to the section. *)
Inductive crossing := Enter | Leave | Cross_not | Forbidden.

Section atomic.
Context {E : Type → Type} {M S A : Type} `{EqDecision M} {Sy : Sync E M S A}.
Context {P R Op : Type}.
Implicit Types (σ : shared E M S) (t u : nat) (e : event E S).

(** The mutex, the part that it protects, the operations, and the calls that tell
    a result. *)
Variables (m : M) (part : S → P) (apply : Op → P → P * R) (tells : ∀ X, E X → option R).
#[local] Abbreviation section := (section_of P Op).
Implicit Types (md : section) (due : list R) (ops : list Op).

Definition crosses {X} (c : E X) : crossing :=
  match sync_of c with
  | Some (Acquire m') => if decide (m' = m) then Enter else Cross_not
  | Some (Release m') => if decide (m' = m) then Leave else Cross_not
  | Some (TryAcquire m') | Some (Wait m' _) => if decide (m' = m) then Forbidden else Cross_not
  | _ => Cross_not
  end.

(** The program does [ops], after it has told [due]. *)
Fixpoint performs {B} (p : prog E S B) md due ops (Q : B → section → list R → list Op → Prop)
    : Prop :=
  match p with
  | Ret a => Q a md due ops
  | UB => True
  | Get k => ∀ s, (if md is Inside _ v _ then part s = v else True) → performs (k s) md due ops Q
  | Modify f p =>
      match md with
      | Outside => (∀ s, part (f s) = part s) ∧ performs p md due ops Q
      | Inside v0 v o => ∃ v', (∀ s, part s = v → part (f s) = v') ∧
          performs p (Inside v0 v' o) due ops Q
      end
  | Call c k =>
      match crosses c with
      | Enter => md = Outside ∧ tells _ c = None ∧ ∃ o rest, ops = o :: rest ∧
          ∀ x v, performs (k x) (Inside v v o) due rest Q
      | Leave => tells _ c = None ∧ ∃ v0 v o, md = Inside v0 v o ∧ v = (apply o v0).1 ∧
          ∀ x, performs (k x) Outside (due ++ [(apply o v0).2]) ops Q
      | Cross_not =>
          match tells _ c with
          | Some r => ∃ due', due = r :: due' ∧ ∀ x, performs (k x) md due' ops Q
          | None => ∀ x, performs (k x) md due ops Q
          end
      | Forbidden => False
      end
  end.

Lemma performs_bind {B C} (p : prog E S B) (k : B → prog E S C) md due ops Q :
  performs p md due ops (λ a md due ops, performs (k a) md due ops Q) →
  performs (p ≫= k) md due ops Q.
Proof using Type.
  unfold mbind. revert md due ops.
  induction p as [a|X c k' IH|k' IH|f p IH|]; intros md due ops Hp; simpl in *; [done| | | |done].
  - destruct (crosses c); [| |destruct (tells X c)|done].
    + destruct Hp as (? & ? & o & rest & ? & Hk). split_and!; [done..|]. exists o, rest.
      split; [done|]. intros x v. by apply IH.
    + destruct Hp as (? & v0 & v & o & ? & ? & Hk). split; [done|]. exists v0, v, o.
      split_and!; [done..|]. intros x. by apply IH.
    + destruct Hp as (due' & ? & Hk). exists due'. split; [done|]. intros x. by apply IH.
    + intros x. by apply IH.
  - intros s Hs. by apply IH, Hp.
  - destruct md as [|v0 v o].
    + destruct Hp as [? Hp]. split; [done|]. by apply IH.
    + destruct Hp as (v' & ? & Hp). exists v'. split; [done|]. by apply IH.
Qed.

Lemma performs_mono {B} (p : prog E S B) md due ops (Q Q' : B → section → list R → list Op → Prop) :
  performs p md due ops Q → (∀ a md due ops, Q a md due ops → Q' a md due ops) →
  performs p md due ops Q'.
Proof using Type.
  intros Hp HQ. revert md due ops Hp.
  induction p as [a|X c k' IH|k' IH|f p IH|]; intros md due ops Hp; simpl in *; [by apply HQ| | | |done].
  - destruct (crosses c); [| |destruct (tells X c)|done].
    + destruct Hp as (? & ? & o & rest & ? & Hk). split_and!; [done..|]. exists o, rest.
      split; [done|]. intros x v. by apply IH.
    + destruct Hp as (? & v0 & v & o & ? & ? & Hk). split; [done|]. exists v0, v, o.
      split_and!; [done..|]. intros x. by apply IH.
    + destruct Hp as (due' & ? & Hk). exists due'. split; [done|]. intros x. by apply IH.
    + intros x. by apply IH.
  - intros s Hs. by apply IH, Hp.
  - destruct md as [|v0 v o].
    + destruct Hp as [? Hp]. split; [done|]. by apply IH.
    + destruct Hp as (v' & ? & Hp). exists v'. split; [done|]. by apply IH.
Qed.

Lemma performs_get {B} (k : S → prog E S B) md due ops Q :
  (∀ s, (if md is Inside _ v _ then part s = v else True) → performs (k s) md due ops Q) →
  performs (get ≫= k) md due ops Q.
Proof using Type. intros Hk. by apply performs_bind. Qed.

Lemma performs_enter {B X} (c : E X) (k : X → prog E S B) due o ops Q :
  crosses c = Enter → tells X c = None →
  (∀ x v, performs (k x) (Inside v v o) due ops Q) →
  performs (call c ≫= k) Outside due (o :: ops) Q.
Proof using Type.
  intros Hc Ht Hk. apply performs_bind. simpl. rewrite Hc. split_and!; [done..|]. by exists o, ops.
Qed.

Lemma performs_write {B} f (k : unit → prog E S B) v0 v v' o due ops Q :
  (∀ s, part s = v → part (f s) = v') → performs (k ()) (Inside v0 v' o) due ops Q →
  performs (modify f ≫= k) (Inside v0 v o) due ops Q.
Proof using Type. intros Hf Hk. apply performs_bind. by exists v'. Qed.

Lemma performs_leave {B X} (c : E X) (k : X → prog E S B) v0 v r o due ops Q :
  crosses c = Leave → tells X c = None → apply o v0 = (v, r) →
  (∀ x, performs (k x) Outside (due ++ [r]) ops Q) →
  performs (call c ≫= k) (Inside v0 v o) due ops Q.
Proof using Type.
  intros Hc Ht Ho Hk. apply performs_bind. simpl. rewrite Hc. split; [done|].
  exists v0, v, o. by rewrite Ho.
Qed.

Lemma performs_tell {X} (c : E X) r ops (Q : X → section → list R → list Op → Prop) :
  crosses c = Cross_not → tells X c = Some r → (∀ x, Q x Outside [] ops) →
  performs (call c) Outside [r] ops Q.
Proof using Type. intros Hc Ht HQ. simpl. rewrite Hc, Ht. by exists []. Qed.

(** A program that leaves the part alone, outside the critical section. *)
Definition aloof {B} (p : prog E S B) : Prop :=
  ∀ due ops, performs p Outside due ops (λ _ md' due' ops', md' = Outside ∧ due' = due ∧ ops' = ops).

(** A program that does [ops] and tells their results. *)
Definition does_all {B} (p : prog E S B) ops : Prop :=
  ∀ rest, performs p Outside [] (ops ++ rest) (λ _ md due ops', md = Outside ∧ due = [] ∧ ops' = rest).

Lemma aloof_bind {B C} (p : prog E S B) (k : B → prog E S C) :
  aloof p → (∀ a, aloof (k a)) → aloof (p ≫= k).
Proof using Type.
  intros Hp Hk due ops. apply performs_bind. eapply performs_mono; [apply Hp|].
  intros a md due' ops' (-> & -> & ->). apply Hk.
Qed.

Lemma aloof_ret {B} (a : B) : aloof (mret a).
Proof using Type. done. Qed.

Lemma aloof_undef {B} : aloof (undef : prog E S B).
Proof using Type. done. Qed.

Lemma aloof_get : aloof get.
Proof using Type. by intros due ops s _. Qed.

Lemma aloof_modify f : (∀ s, part (f s) = part s) → aloof (modify f).
Proof using Type. intros Hf due ops. by split. Qed.

Lemma aloof_call {X} (c : E X) : crosses c = Cross_not → tells X c = None → aloof (call c).
Proof using Type. intros Hc Ht due ops. simpl. by rewrite Hc, Ht. Qed.

Lemma aloof_foreach {B} (f : B → prog E S unit) l : (∀ x, aloof (f x)) → aloof (foreach f l).
Proof using Type.
  intros Hf. induction l as [|x l IH]; cbn [foreach]; [apply aloof_ret|].
  apply aloof_bind; [apply Hf|]. by intros [].
Qed.

Lemma does_all_aloof {B} (p : prog E S B) : aloof p → does_all p [].
Proof using Type.
  intros Hp rest. eapply performs_mono; [apply Hp|]. by intros a md due ops (-> & -> & ->).
Qed.

Lemma does_all_bind {B C} (p : prog E S B) (k : B → prog E S C) ops ops' :
  does_all p ops → (∀ a, does_all (k a) ops') → does_all (p ≫= k) (ops ++ ops').
Proof using Type.
  intros Hp Hk rest. apply performs_bind. rewrite <- app_assoc.
  eapply performs_mono; [apply Hp|]. intros a md due ops'' (-> & -> & ->). apply Hk.
Qed.

Lemma does_all_foreach {B} (f : B → prog E S unit) (g : B → list Op) l :
  (∀ x, does_all (f x) (g x)) → does_all (foreach f l) (l ≫= g).
Proof using Type.
  intros Hf. induction l as [|x l IH]; cbn [foreach]; [by apply does_all_aloof, aloof_ret|].
  apply does_all_bind; [apply Hf|]. by intros [].
Qed.

(** * Soundness *)

(** The operations in their order, each with its thread. *)
#[local] Abbreviation order := (list (nat * Op)).
Implicit Type lin : order.

Definition outcome (v : P) lin : P := foldl (λ v '(_, o), (apply o v).1) v lin.
Definition ops_of t lin : list Op := (filter (λ x, x.1 = t) lin).*2.
Fixpoint results t (v : P) lin : list R :=
  match lin with
  | [] => []
  | (u, o) :: lin =>
      (if decide (u = t) then [(apply o v).2] else []) ++ results t (apply o v).1 lin
  end.

(** What a thread has told. *)
Definition told t (tr : list (nat * event E S)) : list R :=
  omap (λ '(u, e), match e with
                   | Asked (Entry c _) => if decide (u = t) then tells _ c else None
                   | _ => None
                   end) tr.

Lemma outcome_snoc v lin t o : outcome v (lin ++ [(t, o)]) = (apply o (outcome v lin)).1.
Proof using Type. unfold outcome. by rewrite foldl_app. Qed.

Lemma ops_of_snoc u v t o lin :
  ops_of t (lin ++ [(u, o)]) = ops_of t lin ++ (if decide (u = t) then [o] else []) ∧
  results t v (lin ++ [(u, o)]) =
    results t v lin ++ (if decide (u = t) then [(apply o (outcome v lin)).2] else []).
Proof using Type.
  split.
  - unfold ops_of. rewrite filter_app, fmap_app, filter_cons. simpl. by case_decide.
  - revert v. induction lin as [|[w o'] lin IH]; intros v; simpl; [by rewrite app_nil_r|].
    by rewrite IH, app_assoc.
Qed.

Lemma told_snoc u t e tr :
  told t (tr ++ [(u, e)]) = told t tr ++
    match e with
    | Asked (Entry c _) => if decide (u = t) then option_list (tells _ c) else []
    | _ => []
    end.
Proof using Type.
  unfold told. rewrite omap_app. f_equal. destruct e as [[X c x]|X c|s s']; simpl; [|done..].
  case_decide; [by destruct (tells X c)|done].
Qed.

(** What the calls do to the mutex. *)
Lemma crosses_locks {X} t (c : E X) x σ σ' :
  emit t (Asked (Entry c x)) σ = Some σ' →
  match crosses c with
  | Enter => held σ m = None ∧ held σ' m = Some t
  | Leave => held σ m = Some t ∧ held σ' m = None
  | Cross_not => held σ' m = held σ m
  | Forbidden => True
  end.
Proof using Type.
  intros He%emit_held. unfold crosses. simpl in He.
  assert (∀ m' : M, m' ≠ m → ∀ o h, own m' o h m = h m) as Hown
    by (intros m' Hm o h; unfold own; by rewrite decide_False).
  destruct (sync_of c) as [op|]; [|by injection He as <-].
  destruct op as [m'|m'|m'|m' X answer|X body answer failed|u X answer|u|X answer late];
    try by injection He as <-.
  - apply take_lock_spec in He as [Hf ->]. case_decide as Hm; [subst m'|by apply Hown].
    split; [done|]. unfold own. by rewrite decide_True.
  - case_decide as Hm; [done|]. destruct x; [|destruct (held σ m'); [|done]; by injection He as <-].
    apply take_lock_spec in He as [Hf ->]. by apply Hown.
  - apply give_lock_spec in He as [Hf ->]. case_decide as Hm; [subst m'|by apply Hown].
    split; [done|]. unfold own. by rewrite decide_True.
  - case_decide as Hm; [done|]. apply take_lock_spec in He as [Hf ->]. by apply Hown.
Qed.

Lemma slept_locks {X} t (c : E X) σ σ' :
  emit t (Slept c) σ = Some σ' → crosses c = Cross_not → held σ' m = held σ m.
Proof using Type.
  intros He%emit_held. unfold crosses. simpl in He. destruct (sync_of c) as [op|]; [|done].
  destruct op as [m'|m'|m'|m' X answer| | | | ]; try done. case_decide as Hm; [done|]. intros _.
  apply give_lock_spec in He as [_ ->]. unfold own. by rewrite decide_False.
Qed.

(** The operations of each thread, and what it is to have reached its end. *)
Variables (all : nat → list Op) (final : A → Prop) (v0 : P).

Definition at_end (a : A) md due ops : Prop := final a → md = Outside ∧ due = [] ∧ ops = [].

Definition thread_performs (th : thread E S A) md due ops : Prop :=
  match th with
  | Running p => performs p md due ops at_end
  | Asleep c answer k => crosses c = Cross_not ∧ performs (Call c k) md due ops at_end
  end.

Definition now_doing md : list Op := if md is Inside _ _ o then [o] else [].

Definition placed t md lin σ : Prop :=
  match md with
  | Outside => held σ m ≠ Some t
  | Inside v v' _ => held σ m = Some t ∧ v = outcome v0 lin ∧ part (fields σ) = v'
  end.

Definition accounts t md due ops lin σ : Prop :=
  all t = ops_of t lin ++ now_doing md ++ ops ∧ results t v0 lin = told t (trace σ) ++ due ∧
  placed t md lin σ.

Definition thread_ok t th lin σ : Prop :=
  ∃ md due ops, thread_performs th md due ops ∧ accounts t md due ops lin σ.

(** What the operations of thread [t] are when it makes an event, and what the
    part is then. *)
Definition goes_on t lin lin' σ σ' : Prop :=
  (held σ' m = None → part (fields σ') = outcome v0 lin') ∧
  (lin' = lin ∧ (held σ m ≠ Some t → part (fields σ') = part (fields σ)) ∨
   held σ m = Some t ∧ ∃ o, lin' = lin ++ [(t, o)]).

(** The other threads. *)
Lemma accounts_other t u e md due ops lin lin' σ σ' :
  u ≠ t → accounts u md due ops lin σ → emit t e σ = Some σ' → goes_on t lin lin' σ σ' →
  accounts u md due ops lin' σ'.
Proof using Type.
  intros Hu (Hall & Hres & Hpl) He [_ Hgo].
  assert (told u (trace σ') = told u (trace σ)) as Ht.
  { rewrite (emit_trace _ _ _ _ He), told_snoc. destruct e as [[X c x]|X c|s s'];
      [rewrite decide_False by done|..]; by rewrite app_nil_r. }
  assert (∀ v, held σ' m = Some v ↔ v ≠ t ∧ held σ m = Some v ∨ v = t ∧ held σ' m = Some t) as Hh.
  { intros v. destruct (decide (v = t)) as [->|Hv]; [naive_solver|].
    rewrite (locks_after_other _ _ _ _ _ m (emit_held _ _ _ _ He) Hv). naive_solver. }
  unfold accounts. rewrite Ht. destruct Hgo as [[-> Hp]|[Hm [o ->]]].
  - split_and!; [done|done|]. destruct md as [|v v' o]; simpl in *.
    + rewrite Hh. naive_solver.
    + destruct Hpl as (Hm & -> & <-). split_and!; [rewrite Hh; naive_solver|done|].
      apply Hp. congruence.
  - destruct (ops_of_snoc t v0 u o lin) as [-> ->]. rewrite !decide_False, !app_nil_r by done.
    split_and!; [done|done|]. destruct md as [|v v' o']; simpl in *.
    + rewrite Hh. naive_solver.
    + destruct Hpl as (Hm' & _). congruence.
Qed.

(** The thread's own calls. *)
Lemma answer_accounts {X} t (c : E X) k x md due ops lin σ σ' :
  performs (Call c k) md due ops at_end → accounts t md due ops lin σ →
  (held σ m = None → part (fields σ) = outcome v0 lin) → emit t (Asked (Entry c x)) σ = Some σ' →
  ∃ lin', thread_ok t (Running (k x)) lin' σ' ∧ goes_on t lin lin' σ σ'.
Proof using Type.
  intros Hp (Hall & Hres & Hpl) Hfree He. pose proof (crosses_locks t c x σ σ' He) as Hc.
  pose proof (emit_fields _ _ _ _ He) as Hf. simpl in Hf.
  assert (told t (trace σ') = told t (trace σ) ++ option_list (tells X c)) as Ht.
  { by rewrite (emit_trace _ _ _ _ He), told_snoc, decide_True. }
  simpl in Hp. destruct (crosses c); [| | |done].
  - destruct Hp as (-> & Hn & o & rest & -> & Hk). destruct Hc as [Hm Hm'].
    exists lin. split; [|split; [congruence|by left; rewrite Hf]].
    exists (Inside (part (fields σ')) (part (fields σ')) o), due, rest. split; [apply Hk|].
    unfold accounts. rewrite Ht, Hn, app_nil_r. split_and!; [done..|]. simpl.
    rewrite Hf. auto.
  - destruct Hp as (Hn & v & v' & o & -> & -> & Hk). destruct Hc as [Hm Hm'].
    destruct Hpl as (_ & -> & Hv). exists (lin ++ [(t, o)]). split.
    + exists Outside, (due ++ [(apply o (outcome v0 lin)).2]), ops. split; [apply Hk|].
      unfold accounts. rewrite Ht, Hn, app_nil_r. destruct (ops_of_snoc t v0 t o lin) as [-> ->].
      rewrite !decide_True by done. split_and!; [by rewrite Hall, <- app_assoc|by rewrite Hres, app_assoc|].
      simpl. congruence.
    + split; [|right; split; [done|by exists o]]. intros _. by rewrite Hf, Hv, outcome_snoc.
  - assert (placed t md lin σ') as Hpl'.
    { destruct md; simpl in *; rewrite Hc; [done|]. by rewrite Hf. }
    exists lin. split; [|split; [by rewrite Hc, Hf|by left; rewrite Hf]].
    destruct (tells X c) as [r|] eqn:Htell.
    + destruct Hp as (due' & -> & Hk). exists md, due', ops. split; [apply Hk|].
      unfold accounts. rewrite Ht. split_and!; [done| |done]. by rewrite Hres, <- app_assoc.
    + exists md, due, ops. split; [apply Hp|]. unfold accounts. rewrite Ht, app_nil_r. done.
Qed.

(** A thread that is not there yet. *)
Definition absent t lin σ : Prop := all t = [] ∧ accounts t Outside [] [] lin σ.

Context {W : Type} {H : Handler E W}.
#[local] Abbreviation config := (config E M S W A).

Hypothesis spawn_aloof : ∀ X (c : E X) body answer failed,
  sync_of c = Some (Spawn body answer failed) → performs body Outside [] [] at_end.

Record linear lin (c : config) : Prop := {
  ln_threads : ∀ t th, pool c !! t = Some th → thread_ok t th lin (now c);
  ln_absent : ∀ t, (length (pool c) <= t)%nat → absent t lin (now c);
  ln_free : held (now c) m = None → part (fields (now c)) = outcome v0 lin;
}.

Lemma move_linear t th e lin lin' (c c0 c' : config) extra :
  linear lin c → (t < length (pool c))%nat → now c0 = now c → pool c0 = pool c ++ extra →
  Forall (λ th, thread_performs th Outside [] []) extra →
  (∀ σ, emit t e (now c) = Some σ → thread_ok t th lin' σ ∧ goes_on t lin lin' (now c) σ) →
  move t e th c0 = Some c' → linear lin' c'.
Proof using Type.
  intros [Hth Habs _] Hlt Hnow Hpool Hextra Hgo Hm. unfold move in Hm. rewrite Hnow in Hm.
  destruct (emit t e (now c)) as [σ|] eqn:He; [|done]. rewrite Some_bind in Hm.
  injection Hm as <-. destruct (Hgo σ eq_refl) as [Ht Hg].
  assert (∀ u md due ops, u ≠ t → accounts u md due ops lin (now c) → accounts u md due ops lin' σ)
    as Hother by (intros; by eapply accounts_other).
  split; simpl; [| |apply Hg].
  - intros u th' Hu. destruct (decide (u = t)) as [->|Hne].
    + apply list_lookup_insert_Some in Hu as [(_ & <- & _)|[? _]]; [done|done].
    + rewrite list_lookup_insert_ne, Hpool in Hu by done.
      apply lookup_app_Some in Hu as [Hu|[Hge Hu]].
      * destruct (Hth u th' Hu) as (md & due & ops & Hp & Ha). exists md, due, ops. auto.
      * exists Outside, [], []. split; [|by apply Hother, Habs].
        rewrite Forall_lookup in Hextra. by eapply Hextra.
  - intros u Hu. rewrite length_insert, Hpool, length_app in Hu.
    destruct (Habs u) as [? ?]; [lia|]. split; [done|]. apply Hother; [lia|done].
Qed.

Lemma answer_linear {X} t (e : E X) k x lin (c c0 c' : config) extra :
  linear lin c → pool c !! t = Some (Running (Call e k)) → now c0 = now c →
  pool c0 = pool c ++ extra → Forall (λ th, thread_performs th Outside [] []) extra →
  move t (Asked (Entry e x)) (Running (k x)) c0 = Some c' → ∃ lin', linear lin' c'.
Proof.
  intros Hl Ht Hnow Hpool Hextra Hm.
  destruct (ln_threads _ _ Hl t _ Ht) as (md & due & ops & Hp & Ha).
  destruct (emit t (Asked (Entry e x)) (now c)) as [σ|] eqn:He;
    [|by unfold move in Hm; rewrite Hnow, He in Hm].
  destruct (answer_accounts t e k x md due ops lin _ σ Hp Ha (ln_free _ _ Hl) He) as (lin' & Hok & Hgo).
  exists lin'. eapply move_linear; [done|by eapply lookup_lt_Some|done..| |exact Hm].
  intros σ'. rewrite He. by intros [= <-].
Qed.

Lemma ask_linear {X} t (e : E X) f k lin (c c0 c' : config) :
  linear lin c → pool c !! t = Some (Running (Call e k)) → now c0 = now c → pool c0 = pool c →
  ask t e f k c0 = Some c' → ∃ lin', linear lin' c'.
Proof.
  intros Hl Ht Hnow Hpool. unfold ask. destruct (handle e (world c0)) as [x w].
  apply (answer_linear t e k (f x) lin c (set_world w c0) c' []);
    [done|done|done|by simpl; rewrite app_nil_r|done].
Qed.

Lemma slept_linear {X} t (e : E X) answer k lin (c c' : config) :
  linear lin c → pool c !! t = Some (Running (Call e k)) →
  crosses e = Cross_not →
  move t (Slept e) (Asleep e answer k) c = Some c' → ∃ lin', linear lin' c'.
Proof.
  intros Hl Ht Hc Hm. exists lin.
  eapply (move_linear t _ _ lin lin c c c' []); [done|by eapply lookup_lt_Some|done| |done| |exact Hm];
    [by rewrite app_nil_r|].
  intros σ He. destruct (ln_threads _ _ Hl t _ Ht) as (md & due & ops & Hp & Hall & Hres & Hpl).
  pose proof (slept_locks _ _ _ _ He Hc) as Hh. pose proof (emit_fields _ _ _ _ He) as Hf.
  simpl in Hf. split; [|split; [rewrite Hh, Hf; apply Hl|by left; rewrite Hf]].
  exists md, due, ops. split; [by split|]. unfold accounts.
  rewrite (emit_trace _ _ _ _ He), told_snoc, app_nil_r. split_and!; [done..|].
  destruct md; simpl in *; by rewrite Hh, ?Hf.
Qed.

Lemma wrote_linear t f p lin (c c' : config) :
  linear lin c → pool c !! t = Some (Running (Modify f p)) →
  move t (Wrote (fields (now c)) (f (fields (now c)))) (Running p) c = Some c' →
  ∃ lin', linear lin' c'.
Proof.
  intros Hl Ht Hm. exists lin.
  eapply (move_linear t _ _ lin lin c c c' []); [done|by eapply lookup_lt_Some|done| |done| |exact Hm];
    [by rewrite app_nil_r|].
  intros σ He. destruct (ln_threads _ _ Hl t _ Ht) as (md & due & ops & Hp & Hall & Hres & Hpl).
  pose proof (emit_held _ _ _ _ He) as [= Hh]. pose proof (emit_fields _ _ _ _ He) as Hf. simpl in Hf.
  assert (∀ md', accounts t md' due ops lin σ ↔
    all t = ops_of t lin ++ now_doing md' ++ ops ∧ placed t md' lin σ) as Hacc.
  { intros md'. unfold accounts. rewrite (emit_trace _ _ _ _ He), told_snoc, app_nil_r. naive_solver. }
  destruct md as [|v v' o]; simpl in Hp.
  - destruct Hp as [Hsame Hp]. split; [|split; [rewrite <- Hh, Hf, Hsame; apply Hl|left]].
    + exists Outside, due, ops. split; [done|]. apply Hacc. split; [done|]. simpl. by rewrite <- Hh.
    + split; [done|]. by rewrite Hf, Hsame.
  - destruct Hp as (v2 & Hv2 & Hp). destruct Hpl as (Hm' & -> & Hv). split; [|split; [congruence|left]].
    + exists (Inside (outcome v0 lin) v2 o), due, ops. split; [done|]. apply Hacc. split; [done|].
      simpl. rewrite <- Hh, Hf. auto.
    + by split; [|].
Qed.

Lemma get_linear t k lin (c : config) :
  linear lin c → pool c !! t = Some (Running (Get k)) →
  linear lin (Config (<[t := Running (k (fields (now c)))]> (pool c)) (now c) (world c) (signals c)).
Proof.
  intros [Hth Habs Hfree] Ht. split; simpl; [| |done].
  - intros u th' Hu. destruct (decide (u = t)) as [->|Hne].
    + apply list_lookup_insert_Some in Hu as [(_ & <- & _)|[? _]]; [|done].
      destruct (Hth t _ Ht) as (md & due & ops & Hp & Ha). exists md, due, ops. split; [|done].
      apply Hp. destruct md; [done|]. by destruct Ha as (_ & _ & _ & _ & ?).
    + rewrite list_lookup_insert_ne in Hu by done. by apply Hth.
  - intros u Hu. rewrite length_insert in Hu. by apply Habs.
Qed.

Lemma step_linear t b lin (c c' : config) :
  linear lin c → step t b c = Some c' → ∃ lin', linear lin' c'.
Proof.
  intros Hl Hstep. unfold step in Hstep.
  destruct (pool c !! t) as [[[a|X e k|k|f p|]|X e answer k]|] eqn:Ht; try done.
  - assert (∀ x c0, now c0 = now c → pool c0 = pool c →
      move t (Asked (Entry e x)) (Running (k x)) c0 = Some c' → ∃ lin', linear lin' c') as Hanswer.
    { intros x c0 Hnow Hpool. apply (answer_linear t e k x lin c c0 c' []); [done..| |done].
      by rewrite app_nil_r. }
    assert (∀ f c0, now c0 = now c → pool c0 = pool c → ask t e f k c0 = Some c' →
      ∃ lin', linear lin' c') as Hask by (intros; by eapply ask_linear).
    destruct (sync_of e) as [op|] eqn:Hs; [|by apply (Hask id c)].
    destruct op as [m'|m'|m'|m' X answer|X body answer failed|u X answer|u|X answer late].
    + by apply (Hanswer tt c).
    + by eapply (Hanswer _ c).
    + by apply (Hanswer tt c).
    + eapply slept_linear; [exact Hl|exact Ht| |exact Hstep].
      destruct (ln_threads _ _ Hl t _ Ht) as (md & due & ops & Hp & _).
      simpl in Hp. unfold crosses in *. rewrite Hs in *. by case_decide.
    + assert (∀ x, move t (Asked (Entry e x)) (Running (k x)) (add_thread (Running body) c) =
        Some c' → ∃ lin', linear lin' c') as Hspawn.
      { intros x. eapply (answer_linear t e k x lin c _ c' [Running body]); [done..|].
        apply Forall_singleton. by eapply spawn_aloof. }
      destruct failed as [x|]; [|by eapply Hspawn]. destruct b; [by eapply Hspawn|].
      by apply (Hanswer x c).
    + destruct (ended u c); [|done]. by apply (Hanswer answer c).
    + case_bool_decide; [by apply (Hanswer true (set_signals (Z.to_nat u :: signals c) c))|].
      by apply (Hanswer false c).
    + case_bool_decide; [|by apply (Hask id c)].
      destruct b; [by apply (Hanswer answer (set_signals (filter (λ u, u ≠ t) (signals c)) c))|].
      by apply (Hask late (set_signals (filter (λ u, u ≠ t) (signals c)) c)).
  - injection Hstep as <-. exists lin. by apply get_linear.
  - by eapply wrote_linear.
  - destruct (ln_threads _ _ Hl t _ Ht) as (md & due & ops & [Hc Hp] & Ha).
    destruct (emit t (Asked (Entry e (answer b (fields (now c))))) (now c)) as [σ|] eqn:He;
      [|by unfold move in Hstep; rewrite He in Hstep].
    destruct (answer_accounts t e k _ md due ops lin _ σ Hp Ha (ln_free _ _ Hl) He)
      as (lin' & Hok & Hgo).
    exists lin'. eapply (move_linear t _ _ lin lin' c c c' []);
      [done|by eapply lookup_lt_Some|done|by rewrite app_nil_r|done| |exact Hstep].
    intros σ'. rewrite He. by intros [= <-].
Qed.

(** What is known of a configuration: the operations that have been done, in their
    order. *)
Definition linearized lin (c : config) : Prop :=
  (∀ t, ops_of t lin `prefix_of` all t ∧ told t (trace (now c)) `prefix_of` results t v0 lin) ∧
  (held (now c) m = None → part (fields (now c)) = outcome v0 lin) ∧
  (∀ t a, pool c !! t = Some (Running (Ret a)) → final a →
    ops_of t lin = all t ∧ told t (trace (now c)) = results t v0 lin).

Lemma linear_linearized lin c : linear lin c → linearized lin c.
Proof.
  intros [Hth Habs Hfree]. split_and!; [|done|].
  - intros t.
    assert (∃ md due ops, accounts t md due ops lin (now c)) as (md & due & ops & -> & -> & _).
    { destruct (pool c !! t) as [th|] eqn:Ht.
      - destruct (Hth t th Ht) as (md & due & ops & _ & ?). by exists md, due, ops.
      - apply lookup_ge_None in Ht. destruct (Habs t Ht) as [_ ?]. by exists Outside, [], []. }
    split; by apply prefix_app_r.
  - intros t a Ht Ha. destruct (Hth t _ Ht) as (md & due & ops & Hp & Hall & Hres & _).
    destruct (Hp Ha) as (-> & -> & ->). simpl in Hall. by rewrite !app_nil_r in *.
Qed.

(** Every interleaving has such an order. *)
Lemma reaches_linear ps s w c :
  part s = v0 → (∀ t p, ps !! t = Some p → performs p Outside [] (all t) at_end) →
  (∀ t, (length ps <= t)%nat → all t = []) → reaches (start ps s w) c → ∃ lin, linearized lin c.
Proof.
  intros Hs Hps Hall [l Hl].
  assert (linear [] (start (M:=M) ps s w)) as Hlin.
  { assert (∀ t, accounts t Outside [] (all t) [] (Shared s (λ _, None) [])) as Ha by done.
    split; simpl; [| |done].
    - intros t th Ht. apply list_lookup_fmap_Some in Ht as (p & -> & Hp).
      exists Outside, [], (all t). split; [by apply Hps|done].
    - intros t Ht. rewrite length_fmap in Ht. split; [by apply Hall|].
      specialize (Ha t). by rewrite (Hall t Ht) in Ha. }
  revert Hlin Hl. generalize (@nil (nat * Op)). generalize (start (M:=M) ps s w).
  induction l as [|[t b] l IH]; intros c1 lin Hlin Hrun; simpl in Hrun.
  { injection Hrun as <-. exists lin. by apply linear_linearized. }
  destruct (step t b c1) as [c2|] eqn:Hstep; [|done]. rewrite Some_bind in Hrun.
  destruct (step_linear t b lin c1 c2 Hlin Hstep) as [lin' Hlin']. by eapply IH.
Qed.
End atomic.
