(* ===== verification/CppString.v ===== *)
(** The string operations of the C++ and C libraries that the sources use:
    [std::string::find], [substr], [erase], [c_str], and C's [strtok] and
    [strchr]-truncation, with [size_t] positions and [npos]. *)
From Stdlib Require Export Ascii.
From S2P Require Import Prelude.
From stdpp Require Import options.

(** * Building blocks *)
Fixpoint str_take (n : nat) (s : string) : string :=
  match n, s with
  | S n, String c s => String c (str_take n s)
  | _, _ => ""
  end.
Fixpoint str_drop (n : nat) (s : string) : string :=
  match n, s with
  | S n, String _ s => str_drop n s
  | _, _ => s
  end.

Definition size (s : string) : Z := Z.of_nat (String.length s).

Fixpoint has_char (c : ascii) (s : string) : bool :=
  match s with
  | EmptyString => false
  | String c' s => bool_decide (c = c') || has_char c s
  end.

(** The characters before the first [c] (all of [s] without one). *)
Fixpoint until_char (c : ascii) (s : string) : string :=
  match s with
  | EmptyString => ""
  | String c' s => if bool_decide (c = c') then "" else String c' (until_char c s)
  end.

(** The characters after the first [c] ([""] without one). *)
Fixpoint after_char (c : ascii) (s : string) : string :=
  match s with
  | EmptyString => ""
  | String c' s => if bool_decide (c = c') then s else after_char c s
  end.

(** What a C function sees of a [std::string]: up to the first NUL. *)
Definition c_str (s : string) : string := until_char Ascii.zero s.

(** * [std::string] *)
Definition npos : Z := 2 ^ 64 - 1.

Fixpoint find_pos (d s : string) : option nat :=
  if String.prefix d s then Some 0%nat
  else match s with
       | EmptyString => None
       | String _ s => S <$> find_pos d s
       end.

Definition find (s d : string) : Z :=
  match find_pos d s with Some n => Z.of_nat n | None => npos end.

(** [s.substr(pos, count)]: throws [std::out_of_range] when [pos > s.size()]. *)
Definition substr (s : string) (pos count : Z) : option string :=
  if bool_decide (size s < pos) then None
  else Some (str_take (Z.to_nat (Z.min count (size s - pos)))
               (str_drop (Z.to_nat pos) s)).

(** [s.erase(pos, count)], with the same check. *)
Definition erase (s : string) (pos count : Z) : option string :=
  if bool_decide (size s < pos) then None
  else Some (str_take (Z.to_nat pos) s +:+
             str_drop (Z.to_nat (Z.min (pos + count) (size s))) s).

Definition starts_with (p s : string) : bool := String.prefix p s.
Definition ends_with (p s : string) : bool :=
  bool_decide (str_drop (String.length s - String.length p) s = p).

(** * [strtok] with a one-character delimiter set *)
Fixpoint skip_char (c : ascii) (s : string) : string :=
  match s with
  | String c' s' => if bool_decide (c = c') then skip_char c s' else s
  | EmptyString => ""
  end.

(** One call: the next token and what is left, or [NULL]. *)
Definition strtok (c : ascii) (s : string) : option (string * string) :=
  match skip_char c s with
  | EmptyString => None
  | s' => Some (until_char c s', after_char c s')
  end.

Fixpoint strtok_loop (fuel : nat) (c : ascii) (s : string) : list string :=
  match fuel with
  | O => []
  | S fuel =>
      match strtok c s with
      | None => []
      | Some (tok, rest) => tok :: strtok_loop fuel c rest
      end
  end.

(** All the tokens: a token takes at least one character, so the length is
    enough fuel ([strtok_loop_fuel]). *)
Definition strtok_all (c : ascii) (s : string) : list string :=
  strtok_loop (String.length s) c s.

(** * Facts *)
Create Rewrite HintDb strings.

Lemma app_string_nil_l (b : string) : "" +:+ b = b.
Proof. done. Qed.

Lemma app_string_cons c (a b : string) : String c a +:+ b = String c (a +:+ b).
Proof. done. Qed.

#[export] Hint Rewrite app_string_nil_l app_string_cons : strings.

Lemma app_string_assoc (a b c : string) : a +:+ (b +:+ c) = (a +:+ b) +:+ c.
Proof.
  induction a as [|x a IH]; autorewrite with strings; simpl; [done|]. by f_equal.
Qed.

Lemma app_string_nil_r (a : string) : a +:+ "" = a.
Proof.
  induction a as [|x a IH]; autorewrite with strings; simpl; [done|]. by f_equal.
Qed.

Lemma length_app_string (a b : string) :
  String.length (a +:+ b) = (String.length a + String.length b)%nat.
Proof.
  induction a as [|x a IH]; autorewrite with strings; simpl; [done|]. by f_equal.
Qed.

Lemma str_take_ge n s : (String.length s ≤ n)%nat → str_take n s = s.
Proof.
  revert n. induction s as [|c s IH]; intros [|n]; simpl; intros; try done; try lia.
  f_equal. apply IH. lia.
Qed.

Lemma str_take_app a b : str_take (String.length a) (a +:+ b) = a.
Proof.
  induction a as [|c a IH]; autorewrite with strings; simpl; [done|]. by f_equal.
Qed.

Lemma str_drop_app a b n : str_drop (String.length a + n) (a +:+ b) = str_drop n b.
Proof. induction a as [|c a IH]; autorewrite with strings; simpl; done. Qed.

Lemma str_drop_0 s : str_drop 0 s = s.
Proof. by destruct s. Qed.

Lemma str_drop_ge n s : (String.length s ≤ n)%nat → str_drop n s = "".
Proof.
  revert n. induction s as [|c s IH]; intros [|n]; simpl; intros; try done; try lia.
  apply IH. lia.
Qed.

Lemma has_char_app c a b : has_char c (a +:+ b) = has_char c a || has_char c b.
Proof.
  induction a as [|x a IH]; autorewrite with strings; simpl; [done|].
  by rewrite IH, orb_assoc.
Qed.

Lemma prefix_char c d s : String.prefix (String c "") (String d s) = bool_decide (c = d).
Proof.
  cbn. destruct (ascii_dec c d); destruct s; case_bool_decide; done.
Qed.

Lemma find_pos_None c s : has_char c s = false → find_pos (String c "") s = None.
Proof.
  induction s as [|d s IH]; [done|]. intros H. apply orb_false_iff in H as [H1 H2].
  change (find_pos (String c "") (String d s)) with
    (if String.prefix (String c "") (String d s) then Some 0%nat
     else S <$> find_pos (String c "") s).
  by rewrite prefix_char, H1, IH.
Qed.

Lemma find_pos_app c a b :
  has_char c a = false → find_pos (String c "") (a +:+ String c b) = Some (String.length a).
Proof.
  induction a as [|d a IH]; intros H.
  - change (find_pos (String c "") ("" +:+ String c b)) with
      (if String.prefix (String c "") (String c b) then Some 0%nat
       else S <$> find_pos (String c "") b).
    by rewrite prefix_char, bool_decide_true.
  - apply orb_false_iff in H as [H1 H2].
    change (find_pos (String c "") (String d a +:+ String c b)) with
      (if String.prefix (String c "") (String d (a +:+ String c b)) then Some 0%nat
       else S <$> find_pos (String c "") (a +:+ String c b)).
    by rewrite prefix_char, H1, (IH H2).
Qed.

Lemma until_char_no c s : has_char c s = false → until_char c s = s.
Proof.
  induction s as [|d s IH]; simpl; [done|]. intros [H1 H2]%orb_false_iff.
  rewrite H1. by rewrite IH.
Qed.

Lemma until_char_app c a b : has_char c a = false → until_char c (a +:+ String c b) = a.
Proof.
  induction a as [|d a IH]; autorewrite with strings; simpl.
  - by rewrite bool_decide_true.
  - intros [H1 H2]%orb_false_iff. rewrite H1. f_equal. by apply IH.
Qed.

Lemma until_char_has c s : has_char c (until_char c s) = false.
Proof.
  induction s as [|d s IH]; simpl; [done|]. case_bool_decide; simpl; [done|].
  rewrite bool_decide_false by done. done.
Qed.

Lemma length_until_char c s : (String.length (until_char c s) ≤ String.length s)%nat.
Proof. induction s as [|d s IH]; simpl; [done|]. case_bool_decide; simpl; lia. Qed.

Lemma length_after_char c s : (String.length (after_char c s) ≤ String.length s - 1)%nat.
Proof. induction s as [|d s IH]; simpl; [done|]. case_bool_decide; lia. Qed.

Lemma length_skip_char c s : (String.length (skip_char c s) ≤ String.length s)%nat.
Proof. induction s as [|d s IH]; simpl; [done|]. case_bool_decide; simpl; lia. Qed.

Lemma strtok_shrinks c s tok rest :
  strtok c s = Some (tok, rest) → (String.length rest < String.length s)%nat.
Proof.
  unfold strtok. pose proof (length_skip_char c s) as Hs.
  destruct (skip_char c s) as [|d s'] eqn:Hk; [done|]. intros [= <- <-].
  pose proof (length_after_char c (String d s')) as Ha.
  change (if bool_decide (c = d) then s' else after_char c s')
    with (after_char c (String d s')).
  cbn in Ha, Hs |- *. lia.
Qed.

Lemma strtok_loop_indep c n m s :
  (String.length s ≤ n)%nat → (String.length s ≤ m)%nat →
  strtok_loop n c s = strtok_loop m c s.
Proof.
  revert m s. induction n as [|n IH]; intros [|m] s Hn Hm; simpl.
  - done.
  - destruct s; [done|simpl in *; lia].
  - destruct s; [done|simpl in *; lia].
  - destruct (strtok c s) as [[tok rest]|] eqn:Ht; [|done].
    apply strtok_shrinks in Ht. f_equal. apply IH; lia.
Qed.

(** Any fuel of at least the length gives all the tokens. *)
Lemma strtok_loop_fuel c n s :
  (String.length s ≤ n)%nat → strtok_loop n c s = strtok_all c s.
Proof. intros H. by apply strtok_loop_indep. Qed.

Lemma strtok_all_unfold c s :
  strtok_all c s =
    match strtok c s with
    | None => []
    | Some (tok, rest) => tok :: strtok_all c rest
    end.
Proof.
  unfold strtok_all at 1. destruct s as [|d s]; [done|].
  change (strtok_loop (String.length (String d s)) c (String d s)) with
    (match strtok c (String d s) with
     | None => []
     | Some (tok, rest) => tok :: strtok_loop (String.length s) c rest
     end).
  destruct (strtok c (String d s)) as [[tok rest]|] eqn:Ht; [|done].
  apply strtok_shrinks in Ht. f_equal. apply strtok_loop_fuel. cbn in Ht. lia.
Qed.

(** * Sizes, and the two ends of a string *)
Lemma size_nonneg s : 0 ≤ size s.
Proof. unfold size. lia. Qed.

Lemma size_app a b : size (a +:+ b) = size a + size b.
Proof. unfold size. rewrite length_app_string. lia. Qed.

Lemma size_String c b : size (String c b) = 1 + size b.
Proof. unfold size. simpl. lia. Qed.

Lemma substr_0_app a b :
  substr (a +:+ b) 0 (size a) = Some a.
Proof.
  unfold substr. rewrite size_app. pose proof (size_nonneg a). pose proof (size_nonneg b).
  rewrite bool_decide_false by lia. rewrite Z.min_l by lia.
  change (Z.to_nat 0) with 0%nat. rewrite str_drop_0.
  unfold size. by rewrite Nat2Z.id, str_take_app.
Qed.

Lemma substr_0_all s n : size s ≤ n → substr s 0 n = Some s.
Proof.
  intros Hn. unfold substr. pose proof (size_nonneg s). rewrite bool_decide_false by lia.
  rewrite Z.min_r by lia. change (Z.to_nat 0) with 0%nat. rewrite str_drop_0.
  rewrite str_take_ge; [done|]. unfold size. lia.
Qed.

Lemma erase_0_app a c b :
  erase (a +:+ String c b) 0 (size a + 1) = Some b.
Proof.
  unfold erase. rewrite size_app, size_String.
  pose proof (size_nonneg a). pose proof (size_nonneg b).
  rewrite bool_decide_false by lia. rewrite Z.min_l by lia.
  replace (Z.to_nat (0 + (size a + 1))) with (String.length a + 1)%nat
    by (unfold size; lia).
  rewrite str_drop_app. done.
Qed.

Lemma erase_0_0 s : erase s 0 0 = Some s.
Proof.
  unfold erase. pose proof (size_nonneg s). rewrite bool_decide_false by lia.
  rewrite Z.min_l by lia. done.
Qed.

(** Linear arithmetic over the sizes of concatenations. *)
Ltac size_lia :=
  repeat (rewrite size_app in * || rewrite size_String in *);
  repeat match goal with
  | |- context [size ?x] =>
      lazymatch goal with
      | _ : 0 ≤ size x |- _ => fail
      | _ => pose proof (size_nonneg x)
      end
  | _ : context [size ?x] |- _ =>
      lazymatch goal with
      | _ : 0 ≤ size x |- _ => fail
      | _ => pose proof (size_nonneg x)
      end
  end; lia.
