(* ===== verification/SensorTypes.v ===== *)
(** The types and constants of the sensors HAL that come from outside the
    repository: the HIDL types of [android.hardware.sensors], and the constants
    of the multi-HAL's [HalProxy.h].

    Records keep the fields the code reads or writes, and enumerations the
    enumerators it names plus "any other value".  The constants are a class, a
    parameter of everything built on them; [aosp_sensors] has the documented
    values. *)
From Stdlib Require Import SpecFloat.
From S2P Require Import Prelude.
From stdpp Require Import options.

Inductive Result := OK | BAD_VALUE | INVALID_OPERATION | OtherResult (v : Z).
Inductive OperationMode := NORMAL | OtherMode (v : Z).
Inductive RateLevel := STOP | OtherRate (v : Z).

#[export] Instance Result_eq_dec : EqDecision Result.
Proof. solve_decision. Defined.
#[export] Instance OperationMode_eq_dec : EqDecision OperationMode.
Proof. solve_decision. Defined.
#[export] Instance RateLevel_eq_dec : EqDecision RateLevel.
Proof. solve_decision. Defined.

(** IEEE single precision; the code only builds and compares with [1]. *)
Abbreviation float := spec_float.
Definition float_1 : float := S754_finite false 8388608 (-23).

Record SensorInfo := MkSensorInfo {
  si_sensorHandle : Z;
  si_name : string;
  si_type : Z;
  si_typeAsString : string;
  si_maxRange : float;
  si_flags : Z;
}.

(** What [std::map::operator[]] inserts for a missing key. *)
Definition default_SensorInfo : SensorInfo :=
  MkSensorInfo 0 "" 0 "" (S754_zero false) 0.

(** [ev_scalar] is the view [u.scalar] of the payload, [ev_data] the rest. *)
Record Event := MkEvent {
  ev_sensorHandle : Z;
  ev_sensorType : Z;
  ev_scalar : float;
  ev_data : Z;
}.

Class SensorConsts := {
  WAKE_UP : Z;
  MASK_DIRECT_REPORT : Z;
  MASK_DIRECT_CHANNEL : Z;
  PICK_UP_GESTURE : Z;
  ADDITIONAL_INFO : Z;
  SENSOR_STRING_TYPE_PICK_UP_GESTURE : string;
  kSensorHandleSubHalIndexMask : Z;
  kMaxSizePendingWriteEventsQueue : Z;
  kWakelockTimeoutNs : Z;
  kPendingWriteTimeoutNs : Z;
  SUB_HAL_2_0_VERSION : Z;
  SUB_HAL_2_1_VERSION : Z;
}.

(** Documented facts: the index mask is the top byte of the handle, the wake-up
    flag is not a direct-channel flag, the pick-up sensor's standard name is not
    the vendor's, and bounds fit their types. *)
Class SensorLaws {sc : SensorConsts} : Prop := {
  mask_top_byte : kSensorHandleSubHalIndexMask = to_int32 (Z.shiftl 255 24);
  wake_up_not_direct : Z.land WAKE_UP (Z.lor MASK_DIRECT_REPORT MASK_DIRECT_CHANNEL) = 0;
  pick_up_name : SENSOR_STRING_TYPE_PICK_UP_GESTURE ≠ "xiaomi pick up sensor";
  max_pending_range : 0 ≤ kMaxSizePendingWriteEventsQueue < 2 ^ 63;
  wakelock_timeout_range : 0 ≤ kWakelockTimeoutNs < 2 ^ 63;
}.

Definition aosp_sensors : SensorConsts := {|
  WAKE_UP := 1;
  MASK_DIRECT_REPORT := 896;
  MASK_DIRECT_CHANNEL := 3072;
  PICK_UP_GESTURE := 25;
  ADDITIONAL_INFO := 33;
  SENSOR_STRING_TYPE_PICK_UP_GESTURE := "android.sensor.pick_up_gesture";
  kSensorHandleSubHalIndexMask := -16777216;
  kMaxSizePendingWriteEventsQueue := 100000;
  kWakelockTimeoutNs := 1000000000;
  kPendingWriteTimeoutNs := 5000000000;
  SUB_HAL_2_0_VERSION := 2 * 2 ^ 24;
  SUB_HAL_2_1_VERSION := 2 * 2 ^ 24 + 2 ^ 16;
|}.

Lemma aosp_sensors_laws : SensorLaws (sc := aosp_sensors).
Proof. by split; vm_compute. Qed.
