(* ===== verification/SensorHandle.v ===== *)
(** Sensor handles: the index of the sub-HAL in the top byte of the handle the
    framework sees ([src/sensors/HalProxy.cpp], and the copy of
    [setSubHalIndex] in [src/sensors/HalProxyCallback.cpp]). *)
From S2P Require Import Prelude SensorTypes.
From stdpp Require Import options.
#[local] Set Default Proof Using "Type*".

Definition kBitsAfterSubHalIndex : Z := 24.

Definition setSubHalIndex (sensorHandle subHalIndex : Z) : Z :=
  Z.lor sensorHandle (to_int32 (Z.shiftl (to_int32 subHalIndex) kBitsAfterSubHalIndex)).

(** The shift of the signed handle is arithmetic, and the cast to [size_t]
    extends the sign. *)
Definition extractSubHalIndex (sensorHandle : Z) : Z :=
  to_size (Z.shiftr sensorHandle kBitsAfterSubHalIndex).

Definition clearSubHalIndex {SC : SensorConsts} (sensorHandle : Z) : Z :=
  Z.land sensorHandle (Z.lnot kSensorHandleSubHalIndexMask).

Definition subHalIndexIsClear {SC : SensorConsts} (sensorHandle : Z) : bool :=
  bool_decide (Z.land sensorHandle kSensorHandleSubHalIndexMask = 0).

(** [int64_t] division truncates towards zero. *)
Definition msFromNs (nanos : Z) : Z := Z.quot nanos 1000000.

(** A handle a sub-HAL may use: its top byte is zero. *)
Definition is_subhal_handle (h : Z) : Prop := 0 ≤ h < 2 ^ 24.

(** The signed value of the byte [i]. *)
Definition byte_sint (i : Z) : Z := wraps 8 i.

Lemma shifted_index i :
  to_int32 (Z.shiftl (to_int32 i) kBitsAfterSubHalIndex) = byte_sint i * 2 ^ 24.
Proof.
  unfold kBitsAfterSubHalIndex, byte_sint, wraps.
  rewrite Z.shiftl_mul_pow2 by done.
  change (2 ^ (32 - 1)) with (2 ^ 7 * 2 ^ 24). change (2 ^ 32) with (2 ^ 8 * 2 ^ 24).
  change (2 ^ (8 - 1)) with (2 ^ 7).
  rewrite <- Z.mul_add_distr_r, Z.mul_mod_distr_r by done.
  rewrite <- Z.mul_sub_distr_r. f_equal.
  replace ((i + 2 ^ 7 * 2 ^ 24) mod (2 ^ 8 * 2 ^ 24) - 2 ^ 7 * 2 ^ 24 + 2 ^ 7) with
    (i + 2 ^ 7 + (- ((i + 2 ^ 7 * 2 ^ 24) / (2 ^ 8 * 2 ^ 24)) * 2 ^ 24) * 2 ^ 8)
    by (rewrite Z.mod_eq by done; lia).
  by rewrite Z_mod_plus_full.
Qed.

Lemma setSubHalIndex_sum h i :
  is_subhal_handle h → setSubHalIndex h i = h + byte_sint i * 2 ^ 24.
Proof. intros Hh. unfold setSubHalIndex. rewrite shifted_index. by apply lor_low_high. Qed.

Lemma byte_sint_range i : -128 ≤ byte_sint i < 128.
Proof. pose proof (wraps_range 8 i ltac:(done)) as H. exact H. Qed.

Lemma byte_sint_id i : 0 ≤ i < 128 → byte_sint i = i.
Proof. intros H. apply wraps_id; [done|]. split; simpl; lia. Qed.

Lemma setSubHalIndex_int32 h i : is_subhal_handle h → in_sint 32 (setSubHalIndex h i).
Proof.
  intros Hh. rewrite setSubHalIndex_sum by done. pose proof (byte_sint_range i).
  unfold is_subhal_handle, in_sint in *. lia.
Qed.

Lemma extract_set h i :
  is_subhal_handle h → extractSubHalIndex (setSubHalIndex h i) = to_size (byte_sint i).
Proof.
  intros Hh. unfold extractSubHalIndex. rewrite setSubHalIndex_sum by done.
  by rewrite shiftr_low_high.
Qed.

Lemma setSubHalIndex_inj h h' i i' :
  is_subhal_handle h → is_subhal_handle h' →
  setSubHalIndex h i = setSubHalIndex h' i' → h = h' ∧ byte_sint i = byte_sint i'.
Proof.
  intros Hh Hh'. rewrite !setSubHalIndex_sum by done.
  unfold is_subhal_handle in *. intros Heq. lia.
Qed.

Section laws.
Context {SC : SensorConsts} {SL : SensorLaws}.

Lemma lnot_mask : Z.lnot kSensorHandleSubHalIndexMask = Z.ones 24.
Proof. rewrite mask_top_byte. reflexivity. Qed.

Lemma clearSubHalIndex_mod h : clearSubHalIndex h = h mod 2 ^ 24.
Proof. unfold clearSubHalIndex. rewrite lnot_mask. by apply Z.land_ones. Qed.

Lemma clear_set h i : is_subhal_handle h → clearSubHalIndex (setSubHalIndex h i) = h.
Proof.
  intros Hh. rewrite clearSubHalIndex_mod, setSubHalIndex_sum by done.
  by apply mod_low_high.
Qed.

Lemma mask_multiple : kSensorHandleSubHalIndexMask = -1 * 2 ^ 24.
Proof. rewrite mask_top_byte. reflexivity. Qed.

Lemma subHalIndexIsClear_iff h :
  subHalIndexIsClear h = true ↔ is_subhal_handle h.
Proof.
  unfold subHalIndexIsClear. rewrite bool_decide_eq_true. split.
  - intros H. assert (h = Z.land h (Z.ones 24)) as Heq.
    { rewrite <- lnot_mask, <- Z.ldiff_land.
      pose proof (Z.lor_ldiff_and h kSensorHandleSubHalIndexMask) as Hl.
      rewrite H, Z.lor_0_r in Hl. by symmetry. }
    rewrite Z.land_ones in Heq by done. unfold is_subhal_handle. rewrite Heq.
    by apply Z.mod_pos_bound.
  - intros Hh. rewrite mask_multiple. by apply land_low_high.
Qed.
End laws.

(** C25: handles round trip: for a sub-HAL handle and a sub-HAL index below 128,
    the framework handle gives back the index and the handle, and two
    framework handles are equal only if both parts are.  An index from 128 to
    255 makes the handle negative, and what is extracted from it is larger
    than any vector, so such a sub-HAL can never be reached. *)
Theorem handle_roundtrip {SC : SensorConsts} {SL : SensorLaws} h i :
  is_subhal_handle h → 0 ≤ i < 256 →
  clearSubHalIndex (setSubHalIndex h i) = h ∧
  subHalIndexIsClear (setSubHalIndex h i) = bool_decide (i = 0) ∧
  extractSubHalIndex (setSubHalIndex h i) =
    (if bool_decide (i < 128) then i else 2 ^ 64 - 256 + i) ∧
  (∀ h' i', is_subhal_handle h' → 0 ≤ i' < 256 →
    setSubHalIndex h i = setSubHalIndex h' i' → h = h' ∧ i = i').
Proof.
  intros Hh Hi. split_and!.
  - by apply clear_set.
  - apply eq_bool_prop_intro. rewrite !Is_true_true, subHalIndexIsClear_iff,
      bool_decide_eq_true, setSubHalIndex_sum by done.
    unfold is_subhal_handle, byte_sint, wraps in *. simpl. div_lia.
  - rewrite extract_set by done. unfold byte_sint, wraps, wrapu. simpl (2 ^ _).
    case_bool_decide; div_lia.
  - intros h' i' Hh' Hi' Heq. apply setSubHalIndex_inj in Heq as [-> Heq]; [|done..].
    split; [done|]. unfold byte_sint, wraps in Heq. simpl in Heq. div_lia.
Qed.

Lemma handle_roundtrip_witness :
  clearSubHalIndex (SC:=aosp_sensors) (setSubHalIndex 77 3) = 77 ∧
  extractSubHalIndex (setSubHalIndex 77 3) = 3.
Proof.
  destruct (handle_roundtrip (SC:=aosp_sensors) (SL:=aosp_sensors_laws) 77 3) as (H1 & _ & H3 & _);
    [by vm_compute|by vm_compute|].
  split; [exact H1|exact H3].
Defined.
