(* ===== verification/HalProxyState.v ===== *)
(** The state of the sensors HAL proxy ([HalProxy], [src/sensors/]) and the
    calls it makes: to its sub-HALs, to the framework's callback, to the two
    message queues, to the kernel's wake lock and to the clock.

    [HalProxy.h] is not part of the repository; the fields are the members that
    [HalProxy.cpp] uses, grouped as the code groups them under its three
    mutexes.  A sub-HAL is a pointer, an element of any type [SubHal] with
    decidable equality. *)
From S2P Require Import Prelude Effects SensorTypes.
From stdpp Require Import options.

(** * Calls to the environment *)
Inductive halE (SubHal : Type) : Type → Type :=
(* ISubHalWrapperBase; the lists and tokens that come back through a HIDL
   callback are the answer *)
| Sub_getSensorsList (h : SubHal) : halE SubHal (option (list SensorInfo))
| Sub_setOperationMode (h : SubHal) (mode : OperationMode) : halE SubHal Result
| Sub_activate (h : SubHal) (sensorHandle : Z) (enabled : bool) : halE SubHal Result
| Sub_initialize (h : SubHal) (subHalIndex : Z) : halE SubHal Result
| Sub_batch (h : SubHal) (sensorHandle samplingPeriodNs maxReportLatencyNs : Z)
    : halE SubHal Result
| Sub_flush (h : SubHal) (sensorHandle : Z) : halE SubHal Result
| Sub_injectSensorData (h : SubHal) (event : Event) : halE SubHal Result
| Sub_registerDirectChannel (h : SubHal) (mem : Z) : halE SubHal (Result * Z)
| Sub_unregisterDirectChannel (h : SubHal) (channelHandle : Z) : halE SubHal Result
| Sub_configDirectReport (h : SubHal) (sensorHandle channelHandle : Z) (rate : RateLevel)
    : halE SubHal (Result * Z)
(* ISensorsCallback *)
| Cb_onDynamicSensorsConnected (cb : Z) (sensors : list SensorInfo) : halE SubHal unit
| Cb_onDynamicSensorsDisconnected (cb : Z) (handles : list Z) : halE SubHal unit
(* libpower and the clock *)
| AcquireWakeLock : halE SubHal unit
| ReleaseWakeLock : halE SubHal unit
| GetTimeNow : halE SubHal Z
(* mutexes and condition variables; a wait gives its mutex back and takes it
   again *)
| LockWakelock : halE SubHal unit
| UnlockWakelock : halE SubHal unit
| WaitWakelockCV : halE SubHal unit
| NotifyWakelockCV : halE SubHal unit
| LockEventQueueWrite : halE SubHal unit
| UnlockEventQueueWrite : halE SubHal unit
| WaitEventQueueWriteCV : halE SubHal unit
| NotifyEventQueueWriteCV : halE SubHal unit
| LockDynamicSensors : halE SubHal unit
| UnlockDynamicSensors : halE SubHal unit
(* the event queue [q] *)
| Eq_availableToWrite (q : Z) : halE SubHal Z
| Eq_availableToRead (q : Z) : halE SubHal Z
| Eq_getQuantumCount (q : Z) : halE SubHal Z
| Eq_read (q n : Z) : halE SubHal bool
| Eq_write (q : Z) (events : list Event) : halE SubHal bool
| Eq_writeBlocking (q : Z) (events : list Event) (timeOutNs : Z) (flag : option Z)
    : halE SubHal bool
(* the wake lock queue [q]: a successful blocking read gives the value read *)
| Wl_write (q v : Z) : halE SubHal bool
| Wl_readBlocking (q timeOutNs : Z) : halE SubHal (option Z)
(* event flags of the two queues *)
| Flag_create (q : Z) : halE SubHal (option Z)
| Flag_delete (f : Z) : halE SubHal unit
| Flag_wake (f : Z) : halE SubHal unit
(* threads *)
| StartPendingWritesThread : halE SubHal Z
| StartWakelockThread : halE SubHal Z
| JoinPendingWritesThread (t : Z) : halE SubHal unit
| JoinWakelockThread (t : Z) : halE SubHal unit
(* the configuration file and the dynamic linker; a sub-HAL library's factory
   answers a raw pointer and the version it writes *)
| ReadConfigFile (path : string) : halE SubHal (option string)
| Dlopen (path : string) : halE SubHal (option Z)
| Dlsym (library : Z) (symbol : string) : halE SubHal (option Z)
| CallFactory (factory : Z) : halE SubHal (Z * Z)
(* the debug dump *)
| DupFd (fd : Z) : halE SubHal Z
| WriteStringToFd (text : string) (fd : Z) : halE SubHal bool
| Sub_getName (h : SubHal) : halE SubHal string
| Sub_debug (h : SubHal) (fd : Z) : halE SubHal unit.

Arguments Sub_getSensorsList {SubHal}.
Arguments Sub_setOperationMode {SubHal}.
Arguments Sub_activate {SubHal}.
Arguments Sub_initialize {SubHal}.
Arguments Sub_batch {SubHal}.
Arguments Sub_flush {SubHal}.
Arguments Sub_injectSensorData {SubHal}.
Arguments Sub_registerDirectChannel {SubHal}.
Arguments Sub_unregisterDirectChannel {SubHal}.
Arguments Sub_configDirectReport {SubHal}.
Arguments Cb_onDynamicSensorsConnected {SubHal}.
Arguments Cb_onDynamicSensorsDisconnected {SubHal}.
Arguments AcquireWakeLock {SubHal}.
Arguments ReleaseWakeLock {SubHal}.
Arguments GetTimeNow {SubHal}.
Arguments LockWakelock {SubHal}.
Arguments UnlockWakelock {SubHal}.
Arguments WaitWakelockCV {SubHal}.
Arguments NotifyWakelockCV {SubHal}.
Arguments LockEventQueueWrite {SubHal}.
Arguments UnlockEventQueueWrite {SubHal}.
Arguments WaitEventQueueWriteCV {SubHal}.
Arguments NotifyEventQueueWriteCV {SubHal}.
Arguments LockDynamicSensors {SubHal}.
Arguments UnlockDynamicSensors {SubHal}.
Arguments Eq_availableToWrite {SubHal}.
Arguments Eq_availableToRead {SubHal}.
Arguments Eq_getQuantumCount {SubHal}.
Arguments Eq_read {SubHal}.
Arguments Eq_write {SubHal}.
Arguments Eq_writeBlocking {SubHal}.
Arguments Wl_write {SubHal}.
Arguments Wl_readBlocking {SubHal}.
Arguments Flag_create {SubHal}.
Arguments Flag_delete {SubHal}.
Arguments Flag_wake {SubHal}.
Arguments StartPendingWritesThread {SubHal}.
Arguments StartWakelockThread {SubHal}.
Arguments JoinPendingWritesThread {SubHal}.
Arguments JoinWakelockThread {SubHal}.
Arguments ReadConfigFile {SubHal}.
Arguments Dlopen {SubHal}.
Arguments Dlsym {SubHal}.
Arguments CallFactory {SubHal}.
Arguments DupFd {SubHal}.
Arguments WriteStringToFd {SubHal}.
Arguments Sub_getName {SubHal}.
Arguments Sub_debug {SubHal}.

(** * Fields *)

(** Guarded by [mEventQueueWriteMutex]. *)
Record Pending := MkPending {
  mPendingWriteEventsQueue : list (list Event * Z);
  mSizePendingWriteEventsQueue : Z;
  mMostEventsObservedPendingWriteEventsQueue : Z;
}.

Definition set_mPendingWriteEventsQueue (v : list (list Event * Z)) (s : Pending) : Pending :=
  MkPending v (mSizePendingWriteEventsQueue s) (mMostEventsObservedPendingWriteEventsQueue s).
Definition set_mSizePendingWriteEventsQueue (v : Z) (s : Pending) : Pending :=
  MkPending (mPendingWriteEventsQueue s) v (mMostEventsObservedPendingWriteEventsQueue s).
Definition set_mMostEventsObservedPendingWriteEventsQueue (v : Z) (s : Pending) : Pending :=
  MkPending (mPendingWriteEventsQueue s) (mSizePendingWriteEventsQueue s) v.

(** Guarded by [mWakelockMutex]. *)
Record Wakelock := MkWakelock {
  mWakelockRefCount : Z;
  mWakelockTimeoutStartTime : Z;
  mWakelockTimeoutResetTime : Z;
}.

Definition set_mWakelockRefCount (v : Z) (s : Wakelock) : Wakelock :=
  MkWakelock v (mWakelockTimeoutStartTime s) (mWakelockTimeoutResetTime s).
Definition set_mWakelockTimeoutStartTime (v : Z) (s : Wakelock) : Wakelock :=
  MkWakelock (mWakelockRefCount s) v (mWakelockTimeoutResetTime s).
Definition set_mWakelockTimeoutResetTime (v : Z) (s : Wakelock) : Wakelock :=
  MkWakelock (mWakelockRefCount s) (mWakelockTimeoutStartTime s) v.

(** Set by [initializeCommon]. *)
Record Queues := MkQueues {
  mEventQueue : option Z;
  mWakeLockQueue : option Z;
  mEventQueueFlag : option Z;
  mWakelockQueueFlag : option Z;
}.

Definition set_mEventQueue (v : option Z) (s : Queues) : Queues :=
  MkQueues v (mWakeLockQueue s) (mEventQueueFlag s) (mWakelockQueueFlag s).
Definition set_mWakeLockQueue (v : option Z) (s : Queues) : Queues :=
  MkQueues (mEventQueue s) v (mEventQueueFlag s) (mWakelockQueueFlag s).
Definition set_mEventQueueFlag (v : option Z) (s : Queues) : Queues :=
  MkQueues (mEventQueue s) (mWakeLockQueue s) v (mWakelockQueueFlag s).
Definition set_mWakelockQueueFlag (v : option Z) (s : Queues) : Queues :=
  MkQueues (mEventQueue s) (mWakeLockQueue s) (mEventQueueFlag s) v.

(** The proxy.  [mPendingWritesThread] and [mWakelockThread] name a thread while
    they are joinable. *)
Record HalProxy (SubHal : Type) := MkHalProxy {
  mSubHalList : list SubHal;
  mSensors : gmap Z SensorInfo;
  mDynamicSensors : gmap Z SensorInfo;
  mDynamicSensorsCallback : option Z;
  mDirectChannelSubHal : option SubHal;
  mCurrentOperationMode : OperationMode;
  queues : Queues;
  mThreadsRun : bool;
  mPendingWritesThread : option Z;
  mWakelockThread : option Z;
  pending : Pending;
  wakelock : Wakelock;
}.
Arguments MkHalProxy {SubHal}.
Arguments mSubHalList {SubHal} _.
Arguments mSensors {SubHal} _.
Arguments mDynamicSensors {SubHal} _.
Arguments mDynamicSensorsCallback {SubHal} _.
Arguments mDirectChannelSubHal {SubHal} _.
Arguments mCurrentOperationMode {SubHal} _.
Arguments queues {SubHal} _.
Arguments mThreadsRun {SubHal} _.
Arguments mPendingWritesThread {SubHal} _.
Arguments mWakelockThread {SubHal} _.
Arguments pending {SubHal} _.
Arguments wakelock {SubHal} _.

Definition set_mSubHalList {SubHal} (v : list SubHal) (s : HalProxy SubHal) : HalProxy SubHal :=
  MkHalProxy v (mSensors s) (mDynamicSensors s) (mDynamicSensorsCallback s)
    (mDirectChannelSubHal s) (mCurrentOperationMode s) (queues s) (mThreadsRun s)
    (mPendingWritesThread s) (mWakelockThread s) (pending s) (wakelock s).
Definition set_mSensors {SubHal} (v : gmap Z SensorInfo) (s : HalProxy SubHal) : HalProxy SubHal :=
  MkHalProxy (mSubHalList s) v (mDynamicSensors s) (mDynamicSensorsCallback s)
    (mDirectChannelSubHal s) (mCurrentOperationMode s) (queues s) (mThreadsRun s)
    (mPendingWritesThread s) (mWakelockThread s) (pending s) (wakelock s).
Definition set_mDynamicSensors {SubHal} (v : gmap Z SensorInfo) (s : HalProxy SubHal) : HalProxy SubHal :=
  MkHalProxy (mSubHalList s) (mSensors s) v (mDynamicSensorsCallback s) (mDirectChannelSubHal s)
    (mCurrentOperationMode s) (queues s) (mThreadsRun s) (mPendingWritesThread s)
    (mWakelockThread s) (pending s) (wakelock s).
Definition set_mDynamicSensorsCallback {SubHal} (v : option Z) (s : HalProxy SubHal) : HalProxy SubHal :=
  MkHalProxy (mSubHalList s) (mSensors s) (mDynamicSensors s) v (mDirectChannelSubHal s)
    (mCurrentOperationMode s) (queues s) (mThreadsRun s) (mPendingWritesThread s)
    (mWakelockThread s) (pending s) (wakelock s).
Definition set_mDirectChannelSubHal {SubHal} (v : option SubHal) (s : HalProxy SubHal) : HalProxy SubHal :=
  MkHalProxy (mSubHalList s) (mSensors s) (mDynamicSensors s) (mDynamicSensorsCallback s) v
    (mCurrentOperationMode s) (queues s) (mThreadsRun s) (mPendingWritesThread s)
    (mWakelockThread s) (pending s) (wakelock s).
Definition set_mCurrentOperationMode {SubHal} (v : OperationMode) (s : HalProxy SubHal) : HalProxy SubHal :=
  MkHalProxy (mSubHalList s) (mSensors s) (mDynamicSensors s) (mDynamicSensorsCallback s)
    (mDirectChannelSubHal s) v (queues s) (mThreadsRun s) (mPendingWritesThread s)
    (mWakelockThread s) (pending s) (wakelock s).
Definition set_queues {SubHal} (v : Queues) (s : HalProxy SubHal) : HalProxy SubHal :=
  MkHalProxy (mSubHalList s) (mSensors s) (mDynamicSensors s) (mDynamicSensorsCallback s)
    (mDirectChannelSubHal s) (mCurrentOperationMode s) v (mThreadsRun s) (mPendingWritesThread
    s) (mWakelockThread s) (pending s) (wakelock s).
Definition set_mThreadsRun {SubHal} (v : bool) (s : HalProxy SubHal) : HalProxy SubHal :=
  MkHalProxy (mSubHalList s) (mSensors s) (mDynamicSensors s) (mDynamicSensorsCallback s)
    (mDirectChannelSubHal s) (mCurrentOperationMode s) (queues s) v (mPendingWritesThread s)
    (mWakelockThread s) (pending s) (wakelock s).
Definition set_mPendingWritesThread {SubHal} (v : option Z) (s : HalProxy SubHal) : HalProxy SubHal :=
  MkHalProxy (mSubHalList s) (mSensors s) (mDynamicSensors s) (mDynamicSensorsCallback s)
    (mDirectChannelSubHal s) (mCurrentOperationMode s) (queues s) (mThreadsRun s) v
    (mWakelockThread s) (pending s) (wakelock s).
Definition set_mWakelockThread {SubHal} (v : option Z) (s : HalProxy SubHal) : HalProxy SubHal :=
  MkHalProxy (mSubHalList s) (mSensors s) (mDynamicSensors s) (mDynamicSensorsCallback s)
    (mDirectChannelSubHal s) (mCurrentOperationMode s) (queues s) (mThreadsRun s)
    (mPendingWritesThread s) v (pending s) (wakelock s).
Definition set_pending {SubHal} (v : Pending) (s : HalProxy SubHal) : HalProxy SubHal :=
  MkHalProxy (mSubHalList s) (mSensors s) (mDynamicSensors s) (mDynamicSensorsCallback s)
    (mDirectChannelSubHal s) (mCurrentOperationMode s) (queues s) (mThreadsRun s)
    (mPendingWritesThread s) (mWakelockThread s) v (wakelock s).
Definition set_wakelock {SubHal} (v : Wakelock) (s : HalProxy SubHal) : HalProxy SubHal :=
  MkHalProxy (mSubHalList s) (mSensors s) (mDynamicSensors s) (mDynamicSensorsCallback s)
    (mDirectChannelSubHal s) (mCurrentOperationMode s) (queues s) (mThreadsRun s)
    (mPendingWritesThread s) (mWakelockThread s) (pending s) v.

(** * A concrete environment

    For running the model on examples: sub-HALs are numbers, the environment's
    state is a clock, every call to the sub-HAL [h] answers [r h] and its
    sensors are [ls h]; writes and reads succeed, with room for [room] events. *)
Definition simple_env (r : nat → Result) (ls : nat → list SensorInfo) (room : Z)
    : Handler (halE nat) Z :=
  λ X c w,
    match c in halE _ X return X * Z with
    | Sub_getSensorsList h => (Some (ls h), w)
    | Sub_setOperationMode h _ => (r h, w)
    | Sub_activate h _ _ => (r h, w)
    | Sub_initialize h _ => (r h, w)
    | Sub_batch h _ _ _ => (r h, w)
    | Sub_flush h _ => (r h, w)
    | Sub_injectSensorData h _ => (r h, w)
    | Sub_registerDirectChannel h _ => ((r h, 1), w)
    | Sub_unregisterDirectChannel h _ => (r h, w)
    | Sub_configDirectReport h _ _ _ => ((r h, 1), w)
    | Cb_onDynamicSensorsConnected _ _ => (tt, w)
    | Cb_onDynamicSensorsDisconnected _ _ => (tt, w)
    | AcquireWakeLock => (tt, w)
    | ReleaseWakeLock => (tt, w)
    | GetTimeNow => (w, w + 1)
    | LockWakelock => (tt, w)
    | UnlockWakelock => (tt, w)
    | WaitWakelockCV => (tt, w)
    | NotifyWakelockCV => (tt, w)
    | LockEventQueueWrite => (tt, w)
    | UnlockEventQueueWrite => (tt, w)
    | WaitEventQueueWriteCV => (tt, w)
    | NotifyEventQueueWriteCV => (tt, w)
    | LockDynamicSensors => (tt, w)
    | UnlockDynamicSensors => (tt, w)
    | Eq_availableToWrite _ => (room, w)
    | Eq_availableToRead _ => (0, w)
    | Eq_getQuantumCount _ => (room, w)
    | Eq_read _ _ => (true, w)
    | Eq_write _ _ => (true, w)
    | Eq_writeBlocking _ _ _ _ => (true, w)
    | Wl_write _ _ => (true, w)
    | Wl_readBlocking _ _ => (None, w)
    | Flag_create _ => (Some 1, w)
    | Flag_delete _ => (tt, w)
    | Flag_wake _ => (tt, w)
    | StartPendingWritesThread => (1, w)
    | StartWakelockThread => (2, w)
    | JoinPendingWritesThread _ => (tt, w)
    | JoinWakelockThread _ => (tt, w)
    | ReadConfigFile _ => (Some "libone.so
libtwo.so
", w)
    | Dlopen path => (if String.prefix "/vendor" path then Some 5 else None, w)
    | Dlsym _ symbol => (if decide (symbol = "sensorsHalGetSubHal_2_1") then Some 9 else None, w)
    | CallFactory _ => ((0, 2 * 2 ^ 24 + 2 ^ 16), w)
    | DupFd _ => (12, w)
    | WriteStringToFd _ _ => (true, w)
    | Sub_getName _ => ("demo", w)
    | Sub_debug _ _ => (tt, w)
    end.

(** A proxy with [n] sub-HALs and nothing else. *)
Definition proxy_with (n : nat) : HalProxy nat :=
  MkHalProxy (seq 0 n) ∅ ∅ None None NORMAL (MkQueues None None None None) false None None
    (MkPending [] 0 0) (MkWakelock 0 0 0).
