(* ===== verification/HalProxy.v ===== *)
(** The sensors HAL proxy, framework side ([src/sensors/HalProxy.cpp]): the
    list of sensors, routing of calls to the sub-HAL a handle belongs to, the
    operation mode, direct channels, and dynamic sensors. *)
From S2P Require Import Prelude Effects SensorTypes SensorHandle HalProxyState.
From stdpp Require Import options.
#[local] Set Default Proof Using "Type*".

Section proxy.
Context {SubHal : Type} {SubHal_eq : EqDecision SubHal}.
Context {SC : SensorConsts} {MO : MapOrder Z SensorInfo}.

#[local] Abbreviation hal A := (prog (halE SubHal) (HalProxy SubHal) A).

(** * The list of sensors *)

(** [true] when the sensor is to be kept. *)
Definition patchXiaomiPickupSensor (sensor : SensorInfo) : bool * SensorInfo :=
  if bool_decide (si_typeAsString sensor ≠ "xiaomi pick up sensor") then (true, sensor)
  else if bool_decide (Z.land (si_flags sensor) WAKE_UP = 0) then (false, sensor)
  else (true, MkSensorInfo (si_sensorHandle sensor) (si_name sensor) PICK_UP_GESTURE
                SENSOR_STRING_TYPE_PICK_UP_GESTURE float_1 (si_flags sensor)).

Definition getSensorsList_2_1 : hal (list SensorInfo) :=
  s ← get;
  mret (iterate (mSensors s)).*2.

(** [convertToOldSensorInfo] belongs to the HIDL conversion library. *)
Definition getSensorsList {OldSensorInfo} (convertToOldSensorInfo : SensorInfo → OldSensorInfo)
    : hal (list OldSensorInfo) :=
  s ← get;
  mret (convertToOldSensorInfo <$> (iterate (mSensors s)).*2).

Definition direct_mask : Z := Z.lor MASK_DIRECT_REPORT MASK_DIRECT_CHANNEL.

Definition setDirectChannelFlags (sensorInfo : SensorInfo) (subHal : SubHal)
    : hal SensorInfo :=
  s ← get;
  let sensorSupportsDirectChannel :=
    bool_decide (Z.land (si_flags sensorInfo) direct_mask ≠ 0) in
  match mDirectChannelSubHal s with
  | None =>
      (if sensorSupportsDirectChannel
       then modify (set_mDirectChannelSubHal (Some subHal)) else mret ()) ;;
      mret sensorInfo
  | Some d =>
      if bool_decide (subHal ≠ d) then
        mret (MkSensorInfo (si_sensorHandle sensorInfo) (si_name sensorInfo)
          (si_type sensorInfo) (si_typeAsString sensorInfo) (si_maxRange sensorInfo)
          (Z.land (si_flags sensorInfo) (Z.lnot direct_mask)))
      else mret sensorInfo
  end.

Definition set_si_sensorHandle (h : Z) (si : SensorInfo) : SensorInfo :=
  MkSensorInfo h (si_name si) (si_type si) (si_typeAsString si) (si_maxRange si)
    (si_flags si).

(** The body of the loop over one sub-HAL's sensors. *)
Definition initializeSensor (subHalIndex : Z) (subHal : SubHal) (sensor : SensorInfo)
    : hal unit :=
  if negb (subHalIndexIsClear (si_sensorHandle sensor)) then mret ()
  else
    let sensor :=
      set_si_sensorHandle (setSubHalIndex (si_sensorHandle sensor) subHalIndex) sensor in
    sensor ← setDirectChannelFlags sensor subHal;
    let '(keep, sensor) := patchXiaomiPickupSensor sensor in
    if negb keep then mret ()
    else modify (λ s, set_mSensors (<[si_sensorHandle sensor := sensor]> (mSensors s)) s).

Definition initializeSensorList : hal unit :=
  s ← get;
  foreach (λ '(subHalIndex, subHal),
    list ← call (Sub_getSensorsList subHal);
    match list with
    | Some list => foreach (initializeSensor (Z.of_nat subHalIndex) subHal) list
    | None => mret ()
    end) (imap pair (mSubHalList s)).

Definition init : hal unit := initializeSensorList.

(** * Routing *)
Definition isSubHalIndexValid (sensorHandle : Z) (s : HalProxy SubHal) : bool :=
  bool_decide (extractSubHalIndex sensorHandle < Z.of_nat (length (mSubHalList s))).

(** Indexing the vector out of range is undefined behaviour. *)
Definition getSubHalForSensorHandle (sensorHandle : Z) : hal SubHal :=
  s ← get;
  match mSubHalList s !! Z.to_nat (extractSubHalIndex sensorHandle) with
  | Some subHal => mret subHal
  | None => undef
  end.

Definition activate (sensorHandle : Z) (enabled : bool) : hal Result :=
  s ← get;
  if negb (isSubHalIndexValid sensorHandle s) then mret BAD_VALUE
  else
    subHal ← getSubHalForSensorHandle sensorHandle;
    call (Sub_activate subHal (clearSubHalIndex sensorHandle) enabled).

Definition batch (sensorHandle samplingPeriodNs maxReportLatencyNs : Z) : hal Result :=
  s ← get;
  if negb (isSubHalIndexValid sensorHandle s) then mret BAD_VALUE
  else
    subHal ← getSubHalForSensorHandle sensorHandle;
    call (Sub_batch subHal (clearSubHalIndex sensorHandle) samplingPeriodNs
            maxReportLatencyNs).

Definition flush (sensorHandle : Z) : hal Result :=
  s ← get;
  if negb (isSubHalIndexValid sensorHandle s) then mret BAD_VALUE
  else
    subHal ← getSubHalForSensorHandle sensorHandle;
    call (Sub_flush subHal (clearSubHalIndex sensorHandle)).

Definition set_ev_sensorHandle (h : Z) (e : Event) : Event :=
  MkEvent h (ev_sensorType e) (ev_scalar e) (ev_data e).

(** [convertToNewEvent], [convertToOldEvent]: the HIDL conversion library. *)
Definition injectSensorData (convertToNewEvent : Event → Event) (event : Event)
    : hal Result :=
  s ← get;
  let result :=
    if bool_decide (mCurrentOperationMode s = NORMAL) &&
       bool_decide (ev_sensorType event ≠ ADDITIONAL_INFO)
    then BAD_VALUE else OK in
  if bool_decide (result = OK) then
    if negb (isSubHalIndexValid (ev_sensorHandle event) s) then mret BAD_VALUE
    else
      let subHalEvent :=
        set_ev_sensorHandle (clearSubHalIndex (ev_sensorHandle event)) event in
      subHal ← getSubHalForSensorHandle (ev_sensorHandle event);
      call (Sub_injectSensorData subHal (convertToNewEvent subHalEvent))
  else mret result.

Definition injectSensorData_2_1 (convertToOldEvent convertToNewEvent : Event → Event)
    (event : Event) : hal Result :=
  injectSensorData convertToNewEvent (convertToOldEvent event).

(** * Operation mode *)
Fixpoint setOperationMode_loop (mode : OperationMode) (l : list SubHal) (subHalIndex : nat)
    : hal (Result * nat) :=
  match l with
  | [] => mret (OK, subHalIndex)
  | subHal :: l =>
      result ← call (Sub_setOperationMode subHal mode);
      if bool_decide (result ≠ OK) then mret (result, subHalIndex)
      else setOperationMode_loop mode l (S subHalIndex)
  end.

Definition setOperationMode (mode : OperationMode) : hal Result :=
  s ← get;
  '(result, subHalIndex) ← setOperationMode_loop mode (mSubHalList s) 0;
  (if bool_decide (result ≠ OK) then
     foreach (λ subHal,
       s ← get;
       call (Sub_setOperationMode subHal (mCurrentOperationMode s)) ;; mret ())
       (take subHalIndex (mSubHalList s))
   else modify (set_mCurrentOperationMode mode)) ;;
  mret result.

(** * Direct channels *)
Definition registerDirectChannel (mem : Z) : hal (Result * Z) :=
  s ← get;
  match mDirectChannelSubHal s with
  | None => mret (INVALID_OPERATION, -1)
  | Some d => call (Sub_registerDirectChannel d mem)
  end.

Definition unregisterDirectChannel (channelHandle : Z) : hal Result :=
  s ← get;
  match mDirectChannelSubHal s with
  | None => mret INVALID_OPERATION
  | Some d => call (Sub_unregisterDirectChannel d channelHandle)
  end.

Definition configDirectReport (sensorHandle channelHandle : Z) (rate : RateLevel)
    : hal (Result * Z) :=
  s ← get;
  match mDirectChannelSubHal s with
  | None => mret (INVALID_OPERATION, -1)
  | Some d =>
      if bool_decide (sensorHandle = -1) && bool_decide (rate ≠ STOP)
      then mret (BAD_VALUE, -1)
      else
        let sensorHandle :=
          if bool_decide (sensorHandle ≠ -1) then clearSubHalIndex sensorHandle
          else sensorHandle in
        call (Sub_configDirectReport d sensorHandle channelHandle rate)
  end.

(** * Dynamic sensors *)
Definition connect_one (subHalIndex : Z) (acc : gmap Z SensorInfo * list SensorInfo)
    (sensor : SensorInfo) : gmap Z SensorInfo * list SensorInfo :=
  let '(dynamic, sensors) := acc in
  if negb (subHalIndexIsClear (si_sensorHandle sensor)) then (dynamic, sensors)
  else
    let sensor :=
      set_si_sensorHandle (setSubHalIndex (si_sensorHandle sensor) subHalIndex) sensor in
    (<[si_sensorHandle sensor := sensor]> dynamic, sensors ++ [sensor]).

(** The callback is dereferenced without a check. *)
Definition onDynamicSensorsConnected (dynamicSensorsAdded : list SensorInfo)
    (subHalIndex : Z) : hal unit :=
  call LockDynamicSensors ;;
  s ← get;
  let '(dynamic, sensors) :=
    foldl (connect_one subHalIndex) (mDynamicSensors s, []) dynamicSensorsAdded in
  modify (set_mDynamicSensors dynamic) ;;
  call UnlockDynamicSensors ;;
  s ← get;
  match mDynamicSensorsCallback s with
  | Some cb => call (Cb_onDynamicSensorsConnected cb sensors)
  | None => undef
  end.

Definition disconnect_one (subHalIndex : Z) (acc : gmap Z SensorInfo * list Z)
    (sensorHandle : Z) : gmap Z SensorInfo * list Z :=
  let '(dynamic, handles) := acc in
  if negb (subHalIndexIsClear sensorHandle) then (dynamic, handles)
  else
    let sensorHandle := setSubHalIndex sensorHandle subHalIndex in
    match dynamic !! sensorHandle with
    | Some _ => (delete sensorHandle dynamic, handles ++ [sensorHandle])
    | None => (dynamic, handles)
    end.

Definition onDynamicSensorsDisconnected (dynamicSensorHandlesRemoved : list Z)
    (subHalIndex : Z) : hal unit :=
  call LockDynamicSensors ;;
  s ← get;
  let '(dynamic, handles) :=
    foldl (disconnect_one subHalIndex) (mDynamicSensors s, []) dynamicSensorHandlesRemoved in
  modify (set_mDynamicSensors dynamic) ;;
  call UnlockDynamicSensors ;;
  s ← get;
  match mDynamicSensorsCallback s with
  | Some cb => call (Cb_onDynamicSensorsDisconnected cb handles)
  | None => undef
  end.

Definition disableAllSensors : hal unit :=
  s ← get;
  foreach (λ '(sensorHandle, _), activate sensorHandle false ;; mret ())
    (iterate (mSensors s)) ;;
  call LockDynamicSensors ;;
  s ← get;
  foreach (λ '(sensorHandle, _), activate sensorHandle false ;; mret ())
    (iterate (mDynamicSensors s)) ;;
  call UnlockDynamicSensors.
End proxy.
