(* ===== verification/HalProxyFacts.v ===== *)
(** What the framework side of the sensors HAL proxy guarantees: routing,
    operation mode, the list of sensors, and dynamic sensors. *)
From S2P Require Import Prelude Effects SensorTypes SensorHandle HalProxyState HalProxy.
From stdpp Require Import options.
#[local] Set Default Proof Using "Type*".

Section facts.
Context {SubHal : Type} {SubHal_eq : EqDecision SubHal}.
Context {W : Type} {H : Handler (halE SubHal) W}.
Context {SC : SensorConsts} {SL : SensorLaws} {MO : MapOrder Z SensorInfo}.
Implicit Types (s : HalProxy SubHal) (w : W).

(** * Routing *)

(** Abstract specification: the sub-HAL a framework handle names and the
    handle it is known by there. *)
Definition owner (s : HalProxy SubHal) (k : Z) : option (SubHal * Z) :=
  if bool_decide (0 ≤ k)
  then (λ sh, (sh, k mod 2 ^ 24)) <$> mSubHalList s !! Z.to_nat (k / 2 ^ 24)
  else None.

(** A vector has fewer than 2^63 elements. *)
Definition list_ok (s : HalProxy SubHal) : Prop :=
  Z.of_nat (length (mSubHalList s)) < 2 ^ 63.

Definition routed (s : HalProxy SubHal) (k : Z)
    (c : SubHal → Z → halE SubHal Result) : prog (halE SubHal) (HalProxy SubHal) Result :=
  match owner s k with
  | Some (sh, h) => call (c sh h)
  | None => mret BAD_VALUE
  end.

Lemma extract_nonneg k : in_sint 32 k → 0 ≤ k → extractSubHalIndex k = k / 2 ^ 24.
Proof.
  intros [_ Hk] H0. unfold extractSubHalIndex, kBitsAfterSubHalIndex.
  rewrite Z.shiftr_div_pow2 by done. apply wrapu_id. split; [by apply Z.div_pos|].
  apply Z.div_lt_upper_bound; [done|]. simpl in Hk. lia.
Qed.

Lemma extract_neg k : in_sint 32 k → k < 0 → 2 ^ 63 ≤ extractSubHalIndex k.
Proof.
  intros [Hk _] H0. unfold extractSubHalIndex, kBitsAfterSubHalIndex, wrapu.
  rewrite Z.shiftr_div_pow2 by done.
  assert (-128 ≤ k / 2 ^ 24 < 0).
  { split; [apply Z.div_le_lower_bound; simpl in *; lia|].
    apply Z.div_lt_upper_bound; lia. }
  rewrite <- (Z_mod_plus_full _ 1), Z.mod_small; lia.
Qed.

Lemma routing_cases k s w :
  in_sint 32 k → list_ok s →
  match owner s k with
  | Some (sh, h) =>
      isSubHalIndexValid k s = true ∧
      run (getSubHalForSensorHandle k) s w = Exec (Done (sh, s)) w [] ∧
      clearSubHalIndex k = h
  | None => isSubHalIndexValid k s = false
  end.
Proof.
  intros Hk Hl. unfold owner, isSubHalIndexValid, list_ok in *. case_bool_decide as H0.
  - rewrite extract_nonneg by done.
    assert (0 ≤ k / 2 ^ 24) by (by apply Z.div_pos).
    destruct (mSubHalList s !! Z.to_nat (k / 2 ^ 24)) as [sh|] eqn:Hsh; cbn [fmap option_fmap option_map].
    + pose proof (lookup_lt_Some _ _ _ Hsh). split_and!.
      * apply bool_decide_eq_true. lia.
      * unfold getSubHalForSensorHandle.
        by rewrite run_get_bind, extract_nonneg, Hsh by done.
      * apply clearSubHalIndex_mod.
    + apply lookup_ge_None in Hsh. apply bool_decide_eq_false. lia.
  - pose proof (extract_neg k Hk ltac:(lia)). apply bool_decide_eq_false. lia.
Qed.

(** C19: routing refines its specification: for every 32-bit handle, activate,
    batch and flush make one call to the sub-HAL in the handle's top byte, with
    the top byte cleared, and answer what it answers; a handle whose top byte
    names no sub-HAL (every negative one, too) is answered BAD_VALUE without
    any call. *)
Theorem routing_refines k s w enabled period latency :
  in_sint 32 k → list_ok s →
  run (activate k enabled) s w = run (routed s k (λ sh h, Sub_activate sh h enabled)) s w ∧
  run (batch k period latency) s w = run (routed s k (λ sh h, Sub_batch sh h period latency)) s w ∧
  run (flush k) s w = run (routed s k (λ sh h, Sub_flush sh h)) s w.
Proof.
  intros Hk Hl. pose proof (routing_cases k s w Hk Hl) as Hc.
  unfold activate, batch, flush, routed.
  rewrite !run_get_bind. destruct (owner s k) as [[sh h]|].
  - destruct Hc as (-> & Hg & ->). cbn [negb]. by rewrite !(run_bind_silent _ _ _ _ _ _ _ Hg).
  - by rewrite Hc.
Qed.

(** * Operation mode *)

(** The calls to [setOperationMode] in a log, with their answers. *)
Definition mode_calls (l : list (entry (halE SubHal))) : list (SubHal * OperationMode * Result) :=
  omap (λ e, match e with
             | Entry c r =>
                 match c in halE _ X return X → option (SubHal * OperationMode * Result) with
                 | Sub_setOperationMode h m => λ r, Some (h, m, r)
                 | _ => λ _, None
                 end r
             end) l.

Lemma mode_calls_app l1 l2 : mode_calls (l1 ++ l2) = mode_calls l1 ++ mode_calls l2.
Proof. apply omap_app. Qed.

(** The mode each sub-HAL is in, when it takes a mode exactly if it answers OK. *)
Definition modes_after (m : SubHal → OperationMode)
    (cs : list (SubHal * OperationMode * Result)) : SubHal → OperationMode :=
  foldl (λ m '(h, mode, r) h',
    if bool_decide (h' = h) && bool_decide (r = OK) then mode else m h') m cs.

Lemma setOperationMode_loop_spec mode l i s w :
  wp (setOperationMode_loop mode l i) s w (λ '(r, j) s' _ lg,
    s' = s ∧
    ((r = OK ∧ j = (i + length l)%nat ∧
      mode_calls lg = (λ h, (h, mode, OK)) <$> l) ∨
     (r ≠ OK ∧ ∃ pre h post, l = pre ++ h :: post ∧ j = (i + length pre)%nat ∧
      mode_calls lg = ((λ h, (h, mode, OK)) <$> pre) ++ [(h, mode, r)]))).
Proof.
  revert i s w. induction l as [|h l IH]; intros i s w; cbn [setOperationMode_loop].
  - apply wp_ret. split; [done|]. left. split_and!; [done|simpl; lia|done].
  - apply wp_bind, wp_call. intros r w' _. case_bool_decide as Hr.
    + apply wp_ret. split; [done|]. right. split; [done|].
      exists [], h, l. split_and!; [done|simpl; lia|done].
    + subst r. eapply wp_mono; [apply IH|].
      intros [r j] s' w'' lg [-> [(-> & -> & Hlg)|(Hr & pre & h' & post & -> & -> & Hlg)]].
      * split; [done|]. left. split_and!; [done|simpl; lia|]. simpl. by rewrite Hlg.
      * split; [done|]. right. split; [done|]. exists (h :: pre), h', post.
        split_and!; [done|simpl; lia|]. simpl. by rewrite Hlg.
Qed.

Lemma mode_rollback_spec l s w :
  wp (foreach (λ h, s ← get; call (Sub_setOperationMode h (mCurrentOperationMode s)) ;; mret ()) l)
    s w (λ _ s' _ lg, s' = s ∧ (mode_calls lg).*1 = (λ h, (h, mCurrentOperationMode s)) <$> l).
Proof.
  apply (wp_foreach (λ pre s' lg, s' = s ∧
    (mode_calls lg).*1 = (λ h, (h, mCurrentOperationMode s)) <$> pre)); [done|].
  intros pre h s' w' lg _ [-> Hlg]. wp_run. split; [done|].
  rewrite mode_calls_app, !fmap_app, Hlg. done.
Qed.

(** C20: setting the operation mode is all or nothing.  Either every sub-HAL is
    asked once, in order, all answer OK, and the proxy records the mode; or the
    first sub-HAL that refuses ends the round, its answer is returned, exactly
    the ones before it are asked to go back to the old mode, and the proxy
    keeps the old mode.  *)
Theorem setOperationMode_all_or_nothing mode s w :
  wp (setOperationMode mode) s w (λ r s' _ lg,
    (r = OK ∧ s' = set_mCurrentOperationMode mode s ∧
     mode_calls lg = (λ h, (h, mode, OK)) <$> mSubHalList s) ∨
    (r ≠ OK ∧ s' = s ∧ ∃ pre h post back,
      mSubHalList s = pre ++ h :: post ∧
      mode_calls lg = ((λ h, (h, mode, OK)) <$> pre) ++ (h, mode, r) :: back ∧
      back.*1 = (λ h, (h, mCurrentOperationMode s)) <$> pre)).
Proof.
  unfold setOperationMode. apply wp_bind, wp_get, wp_bind.
  eapply wp_mono; [apply setOperationMode_loop_spec|].
  intros [r j] s' w' lg [-> [(-> & -> & Hlg)|(Hr & pre & h & post & Hl & -> & Hlg)]];
    apply wp_bind.
  - rewrite bool_decide_false by naive_solver. wp_run. left.
    rewrite !app_nil_l, app_nil_r. done.
  - rewrite bool_decide_true by done. rewrite Hl at 1. simpl Nat.add. rewrite take_app_length.
    eapply wp_mono; [apply mode_rollback_spec|]. intros [] s'' w'' back [-> Hback].
    wp_run. right. split_and!; [done..|]. exists pre, h, post, (mode_calls back).
    rewrite app_nil_l, app_nil_r, mode_calls_app, Hlg, <- app_assoc. done.
Qed.

Lemma modes_after_app m c1 c2 : modes_after m (c1 ++ c2) = modes_after (modes_after m c1) c2.
Proof. apply foldl_app. Qed.

(** A round of accepted calls with one mode. *)
Lemma modes_after_round m mode l h :
  modes_after m ((λ h, (h, mode, OK)) <$> l) h = if bool_decide (h ∈ l) then mode else m h.
Proof.
  revert m. induction l as [|h0 l IH]; intros m; [done|].
  change (modes_after m ((λ h, (h, mode, OK)) <$> h0 :: l)) with
    (modes_after (λ h', if bool_decide (h' = h0) && bool_decide (OK = OK) then mode else m h')
       ((λ h, (h, mode, OK)) <$> l)).
  rewrite IH. cbn beta. rewrite (bool_decide_true (OK = OK)), andb_true_r by done.
  rewrite (bool_decide_ext (h ∈ h0 :: l) (h = h0 ∨ h ∈ l)) by apply elem_of_cons.
  repeat case_bool_decide; try done; tauto.
Qed.

Lemma all_OK_calls (back : list (SubHal * OperationMode * Result)) mode l :
  back.*1 = (λ h, (h, mode)) <$> l → filter (λ c, c.2 ≠ OK) back = [] →
  back = (λ h, (h, mode, OK)) <$> l.
Proof.
  revert l. induction back as [|[[h m] r] back IH]; intros [|h0 l]; simpl; try done.
  intros [= -> -> Hb]. rewrite filter_cons. destruct (decide _) as [|Hr]; [done|].
  simpl in Hr. assert (r = OK) as -> by (by destruct (decide (r = OK))).
  intros Hf. f_equal. by apply IH.
Qed.

(** The modes stay consistent.  If all sub-HALs are in the proxy's current
    mode, they are so again after setOperationMode, whatever the answers, as
    long as at most one call is refused (that is, the roll-back calls are
    accepted). *)
Theorem setOperationMode_consistent mode m s w :
  (∀ h, h ∈ mSubHalList s → m h = mCurrentOperationMode s) →
  wp (setOperationMode mode) s w (λ _ s' _ lg,
    (length (filter (λ c, c.2 ≠ OK) (mode_calls lg)) ≤ 1)%nat →
    ∀ h, h ∈ mSubHalList s → modes_after m (mode_calls lg) h = mCurrentOperationMode s').
Proof.
  intros Hm. eapply wp_mono; [apply setOperationMode_all_or_nothing|].
  intros r s' w' lg [(-> & -> & ->)|(Hr & -> & pre & h0 & post & back & Hl & -> & Hb)] Hone h Hh.
  - rewrite modes_after_round. by rewrite bool_decide_true.
  - rewrite filter_app, filter_cons_True, length_app in Hone by done. simpl in Hone.
    rewrite (all_OK_calls _ _ _ Hb) by (apply nil_length_inv; lia).
    rewrite modes_after_app.
    change ((h0, mode, r) :: ?x) with ([(h0, mode, r)] ++ x).
    rewrite modes_after_app, modes_after_round. case_bool_decide as Hp; [done|].
    simpl. rewrite (bool_decide_false (r = OK)) by done. rewrite andb_false_r.
    rewrite modes_after_round, bool_decide_false by done. by apply Hm.
Qed.

(** * The list of sensors *)

(** A well-formed entry of [mSensors]: the key is the sensor's own handle, it
    names a sub-HAL of the list, the vendor's pick-up sensor does not appear
    under its vendor name, and only the direct-channel sub-HAL's sensors have
    direct-channel flags. *)
Definition sensor_ok (s : HalProxy SubHal) (k : Z) (si : SensorInfo) : Prop :=
  si_sensorHandle si = k ∧
  si_typeAsString si ≠ "xiaomi pick up sensor" ∧
  ∃ i sh h, mSubHalList s !! i = Some sh ∧ is_subhal_handle h ∧
    k = setSubHalIndex h (Z.of_nat i) ∧
    (Z.land (si_flags si) direct_mask ≠ 0 → mDirectChannelSubHal s = Some sh).

Definition sensors_wf (s : HalProxy SubHal) : Prop := map_Forall (sensor_ok s) (mSensors s).

Lemma land_clear f m : Z.land (Z.land f (Z.lnot m)) m = 0.
Proof. by rewrite <- Z.land_assoc, (Z.land_comm (Z.lnot m)), Z.land_lnot_diag, Z.land_0_r. Qed.

(** What [setDirectChannelFlags] does to the state and to the sensor. *)
Lemma setDirectChannelFlags_spec si sh s w :
  sensors_wf s →
  wp (setDirectChannelFlags si sh) s w (λ si' s' _ lg,
    sensors_wf s' ∧ mSubHalList s' = mSubHalList s ∧ mSensors s' = mSensors s ∧ lg = [] ∧
    si_sensorHandle si' = si_sensorHandle si ∧
    si_typeAsString si' = si_typeAsString si ∧
    Z.land (si_flags si') WAKE_UP = Z.land (si_flags si) WAKE_UP ∧
    (Z.land (si_flags si') direct_mask ≠ 0 → mDirectChannelSubHal s' = Some sh)).
Proof.
  intros Hwf. unfold setDirectChannelFlags. apply wp_bind, wp_get.
  destruct (mDirectChannelSubHal s) as [d|] eqn:Hd.
  - case_bool_decide as Hne; wp_run; split_and!; try done; simpl.
    + rewrite <- Z.land_assoc. f_equal. rewrite Z.land_comm, <- Z.ldiff_land.
      pose proof (Z.lor_ldiff_and WAKE_UP direct_mask) as Hl.
      unfold direct_mask in *. by rewrite wake_up_not_direct, Z.lor_0_r in Hl.
    + by rewrite land_clear.
    + intros _. rewrite Hd. f_equal. by destruct (decide (sh = d)).
  - case_bool_decide as Hdir; wp_run; split_and!; try done.
    intros k si0 Hk. destruct (Hwf k si0 Hk) as (? & ? & i & sh0 & h & ? & ? & ? & Hflag).
    split_and!; [done..|]. exists i, sh0, h. split_and!; try done. simpl. intros Hf.
    specialize (Hflag Hf). congruence.
Qed.

(** The sensors that are kept, and the keys they add. *)
Definition kept (si : SensorInfo) : Prop :=
  is_subhal_handle (si_sensorHandle si) ∧
  (si_typeAsString si ≠ "xiaomi pick up sensor" ∨ Z.land (si_flags si) WAKE_UP ≠ 0).

Definition sensor_key (i : nat) (si : SensorInfo) : Z :=
  setSubHalIndex (si_sensorHandle si) (Z.of_nat i).

Lemma initializeSensor_keep i sh si si2 s w :
  sensors_wf s → mSubHalList s !! i = Some sh → kept si →
  si_sensorHandle si2 = sensor_key i si → si_typeAsString si2 ≠ "xiaomi pick up sensor" →
  (Z.land (si_flags si2) direct_mask ≠ 0 → mDirectChannelSubHal s = Some sh) →
  wp (E:=halE SubHal)
    (modify (λ s, set_mSensors (<[si_sensorHandle si2 := si2]> (mSensors s)) s)) s w
    (λ _ s' _ lg, sensors_wf s' ∧ mSubHalList s' = mSubHalList s ∧ lg = [] ∧
      ∀ k, is_Some (mSensors s' !! k) ↔
        is_Some (mSensors s !! k) ∨ (kept si ∧ k = sensor_key i si)).
Proof.
  intros Hwf Hi Hk Hh Hn Hf. wp_run. split_and!; [|done|done|].
  - unfold sensors_wf. simpl. apply map_Forall_insert_2; [|exact Hwf].
    split_and!; [done..|]. exists i, sh, (si_sensorHandle si).
    destruct Hk. by split_and!.
  - intros k. simpl. rewrite lookup_insert_is_Some, Hh.
    destruct (decide (sensor_key i si = k)) as [<-|Hne]; split; intros Hc.
    + by right.
    + by left.
    + left. by destruct Hc as [?|[_ ?]].
    + right. split; [done|]. by destruct Hc as [?|[_ ?]].
Qed.

Lemma initializeSensor_spec i sh si s w :
  sensors_wf s → mSubHalList s !! i = Some sh →
  wp (initializeSensor (Z.of_nat i) sh si) s w (λ _ s' _ lg,
    sensors_wf s' ∧ mSubHalList s' = mSubHalList s ∧ lg = [] ∧
    ∀ k, is_Some (mSensors s' !! k) ↔
      is_Some (mSensors s !! k) ∨ (kept si ∧ k = sensor_key i si)).
Proof.
  intros Hwf Hi. unfold initializeSensor.
  destruct (subHalIndexIsClear (si_sensorHandle si)) eqn:Hclear; simpl.
  2: { wp_run. split_and!; [done..|]. intros k. unfold kept.
       rewrite <- subHalIndexIsClear_iff, Hclear. split; [by left|].
       by intros [?|[[? _] _]]. }
  apply subHalIndexIsClear_iff in Hclear.
  apply wp_bind. eapply wp_mono; [by apply setDirectChannelFlags_spec|].
  intros si' s' w' lg (Hwf' & Hl & Hm & -> & Hhandle & Hname & Hwake & Hflag).
  simpl in Hhandle, Hname, Hwake. unfold patchXiaomiPickupSensor.
  assert (mSubHalList s' !! i = Some sh) as Hi' by (by rewrite Hl).
  rewrite <- Hl, <- Hm.
  case_bool_decide as Hp; cbn [negb];
    [|case_bool_decide as Hw; cbn [negb]].
  - apply (initializeSensor_keep i sh si); try done. split; [done|].
    left. by rewrite <- Hname.
  - wp_run. split_and!; [done..|]. intros k. split; [by left|].
    intros [?|[[_ [Hx|Hx]] _]]; [done| |]; exfalso.
    + rewrite <- Hname in Hx. done.
    + by rewrite <- Hwake in Hx.
  - apply (initializeSensor_keep i sh si); try done; [|apply pick_up_name].
    split; [done|]. right. by rewrite <- Hwake.
Qed.

(** The loop over the sensors of one sub-HAL. *)
Lemma initializeSensors_spec i sh list s w :
  sensors_wf s → mSubHalList s !! i = Some sh →
  wp (foreach (initializeSensor (Z.of_nat i) sh) list) s w (λ _ s' _ _,
    sensors_wf s' ∧ mSubHalList s' = mSubHalList s ∧
    ∀ k, is_Some (mSensors s' !! k) ↔
      is_Some (mSensors s !! k) ∨ ∃ si, si ∈ list ∧ kept si ∧ k = sensor_key i si).
Proof.
  intros Hwf Hi. apply (wp_foreach (λ done s' _, sensors_wf s' ∧
    mSubHalList s' = mSubHalList s ∧ ∀ k, is_Some (mSensors s' !! k) ↔
      is_Some (mSensors s !! k) ∨ ∃ si, si ∈ done ∧ kept si ∧ k = sensor_key i si)).
  - split_and!; [done..|]. intros k. split; [by left|].
    intros [?|(si & Hin & _)]; [done|]. by apply elem_of_nil in Hin.
  - intros pre si s1 w1 lg' _ (Hwf1 & Hl1 & Hk1). eapply wp_mono.
    + apply initializeSensor_spec; [done|]. by rewrite Hl1.
    + intros [] s2 w2 lg2 (? & Hl2 & _ & Hk2). split_and!; [done|congruence|].
      intros k. rewrite Hk2, Hk1. setoid_rewrite elem_of_app. split.
      * intros [[?|(si' & ? & ?)]|?]; [by left| |]; right; eexists; (split; [|done]);
          [by left|right; by apply list_elem_of_singleton].
      * intros [?|(si' & [?| ->%list_elem_of_singleton] & ?)]; eauto 6.
Qed.

(** C21: the list of sensors is well formed: every entry is stored under its
    own handle, which is a sub-HAL handle with that sub-HAL's index; no entry
    carries the vendor's pick-up name; and direct-channel flags appear on the
    sensors of one sub-HAL only, the one direct channels are opened on. *)
Theorem initializeSensorList_wf s w :
  sensors_wf s →
  wp initializeSensorList s w (λ _ s' _ _,
    sensors_wf s' ∧ mSubHalList s' = mSubHalList s).
Proof.
  intros Hwf. unfold initializeSensorList. apply wp_bind, wp_get.
  apply (wp_foreach (λ _ s' _, sensors_wf s' ∧ mSubHalList s' = mSubHalList s)); [done|].
  intros pre [i sh] s' w' lg Hpre%prefix_imap_pair [Hwf' Hl]. apply wp_bind, wp_call.
  intros [list|] w'' _; [|by wp_run]. eapply wp_mono.
  - apply initializeSensors_spec; [done|]. by rewrite Hl.
  - intros [] s2 w2 lg2 (? & ? & _). split; [done|congruence].
Qed.

(** C22: the list of sensors is complete: if each sub-HAL reports its list
    [ls sh], then exactly the sensors with a clear top byte are added, except
    the non-wake-up versions of the vendor's pick-up sensor. *)
Theorem initializeSensorList_complete (ls : SubHal → list SensorInfo) s w :
  (∀ sh w, (handle (Sub_getSensorsList sh) w).1 = Some (ls sh)) → sensors_wf s →
  wp initializeSensorList s w (λ _ s' _ _, ∀ k,
    is_Some (mSensors s' !! k) ↔ is_Some (mSensors s !! k) ∨
      ∃ i sh si, mSubHalList s !! i = Some sh ∧ si ∈ ls sh ∧ kept si ∧ k = sensor_key i si).
Proof.
  intros Hls Hwf. unfold initializeSensorList. apply wp_bind, wp_get.
  eapply wp_mono; [apply (wp_foreach (λ pre s' _, sensors_wf s' ∧
    mSubHalList s' = mSubHalList s ∧ ∀ k, is_Some (mSensors s' !! k) ↔
      is_Some (mSensors s !! k) ∨
      ∃ i sh si, (i, sh) ∈ pre ∧ si ∈ ls sh ∧ kept si ∧ k = sensor_key i si))|].
  - split_and!; [done..|]. intros k. split; [by left|].
    intros [?|(i & sh & si & Hin & _)]; [done|]. by apply elem_of_nil in Hin.
  - intros pre [i sh] s' w' lg Hpre%prefix_imap_pair (Hwf' & Hl & Hk). apply wp_bind, wp_call.
    intros x w'' Hx. pose proof (Hls sh w') as Hx'. rewrite Hx in Hx'. simpl in Hx'. subst x.
    eapply wp_mono; [apply initializeSensors_spec; [done|by rewrite Hl]|].
    intros [] s2 w2 lg2 (? & Hl2 & Hk2). split_and!; [done|congruence|].
    intros k. rewrite Hk2, Hk. setoid_rewrite elem_of_app. split.
    + intros [[?|(i' & sh' & si' & ? & ?)]|(si' & ? & ?)]; [by left| |]; right;
        [exists i', sh', si'; split; [by left|done]|].
      exists i, sh, si'. split; [right; by apply list_elem_of_singleton|done].
    + intros [?|(i' & sh' & si' & [?|[= -> ->]%list_elem_of_singleton] & ?)]; eauto 8.
  - intros [] s' w' lg (_ & _ & Hk) k. rewrite Hk. split; (intros [?|(i & sh & si & Hi & ?)];
      [by left|right; exists i, sh, si; split; [|done]]).
    + by apply elem_of_lookup_imap_1 in Hi as (j & y & [= <- <-] & ?).
    + apply elem_of_lookup_imap. eauto.
Qed.

(** * Dynamic sensors *)
Definition tag (i : Z) (si : SensorInfo) : SensorInfo :=
  set_si_sensorHandle (setSubHalIndex (si_sensorHandle si) i) si.

Definition with_handle (si : SensorInfo) : Z * SensorInfo := (si_sensorHandle si, si).

Lemma connect_fold i d acc added :
  Forall (λ si, is_subhal_handle (si_sensorHandle si)) added →
  foldl (connect_one i) (d, acc) added =
    (foldl (λ m kv, <[kv.1 := kv.2]> m) d (with_handle ∘ tag i <$> added),
     acc ++ (tag i <$> added)).
Proof.
  revert d acc. induction added as [|si added IH]; intros d acc Ha; simpl.
  - by rewrite app_nil_r.
  - apply Forall_cons in Ha as [Hsi Ha].
    rewrite (proj2 (subHalIndexIsClear_iff _) Hsi). cbn [negb].
    rewrite IH by done. by rewrite <- app_assoc.
Qed.

Definition keys (i : Z) (hs : list Z) : list Z := (λ h, setSubHalIndex h i) <$> hs.

Lemma lookup_fold_insert i added (d : gmap Z SensorInfo) k :
  k ∉ keys i (si_sensorHandle <$> added) →
  foldl (λ m kv, <[kv.1 := kv.2]> m) d (with_handle ∘ tag i <$> added) !! k = d !! k.
Proof.
  revert d. induction added as [|si added IH]; intros d Hk; [done|].
  apply not_elem_of_cons in Hk as [Hk1 Hk2]. simpl. rewrite IH by done.
  by rewrite lookup_insert_ne.
Qed.

Lemma lookup_fold_insert_in i added (d : gmap Z SensorInfo) k :
  k ∈ keys i (si_sensorHandle <$> added) ∨ is_Some (d !! k) →
  is_Some (foldl (λ m kv, <[kv.1 := kv.2]> m) d (with_handle ∘ tag i <$> added) !! k).
Proof.
  revert d. induction added as [|si added IH]; intros d Hk; simpl.
  - destruct Hk as [Hk|Hk]; [by apply elem_of_nil in Hk|done].
  - apply IH. destruct Hk as [[->|Hk]%elem_of_cons|Hk].
    + right. simpl. rewrite lookup_insert_eq. eauto.
    + by left.
    + right. apply lookup_insert_is_Some'. by right.
Qed.

Lemma lookup_fold_delete i hs (d : gmap Z SensorInfo) k :
  foldl (λ m h, delete (setSubHalIndex h i) m) d hs !! k =
    if decide (k ∈ keys i hs) then None else d !! k.
Proof.
  revert d. induction hs as [|h hs IH]; intros d; [done|]. simpl. rewrite IH.
  destruct (decide (k ∈ keys i hs)) as [Hin|Hout].
  - by rewrite decide_True by by apply list_elem_of_further.
  - rewrite lookup_delete. case_decide as Hk.
    + rewrite decide_True; [done|]. rewrite <- Hk. apply list_elem_of_here.
    + rewrite decide_False; [done|]. by intros [?|?]%elem_of_cons.
Qed.

Lemma disconnect_fold i d acc hs :
  Forall is_subhal_handle hs → NoDup hs →
  (∀ h, h ∈ hs → is_Some (d !! setSubHalIndex h i)) →
  foldl (disconnect_one i) (d, acc) hs =
    (foldl (λ m h, delete (setSubHalIndex h i) m) d hs, acc ++ keys i hs).
Proof.
  revert d acc. induction hs as [|h hs IH]; intros d acc Hv Hnd Hd; simpl.
  - by rewrite app_nil_r.
  - apply Forall_cons in Hv as [Hh Hv]. apply NoDup_cons in Hnd as [Hout Hnd].
    rewrite (proj2 (subHalIndexIsClear_iff _) Hh). cbn [negb].
    destruct (Hd h) as [x ->]; [by apply list_elem_of_here|].
    rewrite IH; [by rewrite <- app_assoc|done|done|].
    intros h' Hh'. rewrite lookup_delete_ne; [apply Hd; by apply list_elem_of_further|].
    intros Heq. apply setSubHalIndex_inj in Heq as [-> _]; [done|done|].
    rewrite Forall_forall in Hv. by apply Hv.
Qed.

(** C23: dynamic sensors round trip: connecting sensors the proxy does not know
    and disconnecting them again restores the table, and the framework hears
    of both with the same framework handles. *)
Theorem dynamic_sensors_roundtrip added i cb s w :
  mDynamicSensorsCallback s = Some cb →
  Forall is_subhal_handle (si_sensorHandle <$> added) →
  NoDup (si_sensorHandle <$> added) →
  Forall (λ k, mDynamicSensors s !! k = None) (keys i (si_sensorHandle <$> added)) →
  wp (onDynamicSensorsConnected added i ;;
      onDynamicSensorsDisconnected (si_sensorHandle <$> added) i) s w (λ _ s' _ lg,
    mDynamicSensors s' = mDynamicSensors s ∧
    lg = [Entry LockDynamicSensors tt; Entry UnlockDynamicSensors tt;
          Entry (Cb_onDynamicSensorsConnected cb (tag i <$> added)) tt;
          Entry LockDynamicSensors tt; Entry UnlockDynamicSensors tt;
          Entry (Cb_onDynamicSensorsDisconnected cb (keys i (si_sensorHandle <$> added))) tt]).
Proof.
  intros Hcb Hv Hnd Hnew. unfold onDynamicSensorsConnected, onDynamicSensorsDisconnected.
  pose proof Hv as Hv'. rewrite Forall_fmap in Hv'.
  apply wp_bind, wp_bind, wp_call. intros [] w1 _.
  apply wp_bind, wp_get. rewrite connect_fold by exact Hv'.
  apply wp_bind, wp_modify, wp_bind, wp_call. intros [] w2 _. apply wp_bind, wp_get.
  simpl mDynamicSensorsCallback. rewrite Hcb. apply wp_call. intros [] w3 _.
  apply wp_bind, wp_call. intros [] w4 _.
  apply wp_bind, wp_get. simpl mDynamicSensors. rewrite disconnect_fold; [|done|done|].
  - apply wp_bind, wp_modify, wp_bind, wp_call. intros [] w5 _. apply wp_bind, wp_get.
    simpl mDynamicSensorsCallback. rewrite Hcb.
    apply wp_call. intros [] w6 _. split; [|done]. simpl.
    apply map_eq. intros k. rewrite lookup_fold_delete. case_decide as Hk.
    + rewrite Forall_forall in Hnew. by rewrite Hnew.
    + by apply lookup_fold_insert.
  - intros h Hh. apply lookup_fold_insert_in. left.
    apply (list_elem_of_fmap_2 (λ h, setSubHalIndex h i)). done.
Qed.

(** A sub-HAL cannot disconnect another one's dynamic sensor: a call with
    index [i] leaves every entry whose top byte is not [i] alone. *)
Theorem dynamic_disconnect_isolated hs i s w cb h j :
  mDynamicSensorsCallback s = Some cb →
  is_subhal_handle h → byte_sint j ≠ byte_sint i →
  wp (onDynamicSensorsDisconnected hs i) s w (λ _ s' _ _,
    mDynamicSensors s' !! setSubHalIndex h j = mDynamicSensors s !! setSubHalIndex h j).
Proof.
  intros Hcb Hh Hij. unfold onDynamicSensorsDisconnected.
  apply wp_bind, wp_call. intros [] w1 _. apply wp_bind, wp_get.
  assert (∀ d acc, (foldl (disconnect_one i) (d, acc) hs).1 !! setSubHalIndex h j =
    d !! setSubHalIndex h j) as Hfold.
  { induction hs as [|h' hs IH]; intros d acc; [done|]. simpl.
    destruct (subHalIndexIsClear h') eqn:Hc; simpl; [|done].
    apply subHalIndexIsClear_iff in Hc. destruct (d !! setSubHalIndex h' i); [|done].
    rewrite IH, lookup_delete_ne; [done|].
    intros Heq. apply setSubHalIndex_inj in Heq as [_ Heq]; [|done..]. by apply Hij. }
  specialize (Hfold (mDynamicSensors s) []).
  destruct (foldl _ _ hs) as [d handles]. apply wp_bind, wp_modify, wp_bind, wp_call.
  intros [] w2 _. apply wp_bind, wp_get. simpl mDynamicSensorsCallback. rewrite Hcb.
  apply wp_call. by intros [] w' _.
Qed.

(** * Injection and direct reports *)

(** C24: in NORMAL mode nothing but additional info is injected: any other event
    is refused with BAD_VALUE and no sub-HAL hears of it; an accepted one
    reaches its owner with the top byte of the handle cleared. *)
Theorem injectSensorData_gate conv e s w :
  in_sint 32 (ev_sensorHandle e) → list_ok s →
  run (injectSensorData conv e) s w =
    run (if bool_decide (mCurrentOperationMode s = NORMAL ∧ ev_sensorType e ≠ ADDITIONAL_INFO)
     then mret BAD_VALUE
     else routed s (ev_sensorHandle e) (λ sh h,
       Sub_injectSensorData sh (conv (set_ev_sensorHandle h e)))) s w.
Proof.
  intros Hk Hl. pose proof (routing_cases (ev_sensorHandle e) s w Hk Hl) as Hc.
  unfold injectSensorData, routed. rewrite run_get_bind.
  rewrite <- bool_decide_and. destruct (bool_decide (_ ∧ _)); [done|].
  simpl (bool_decide (OK = OK)). cbn iota.
  destruct (owner s (ev_sensorHandle e)) as [[sh h]|].
  - destruct Hc as (-> & Hg & ->). cbn [negb]. by rewrite (run_bind_silent _ _ _ _ _ _ _ Hg).
  - by rewrite Hc.
Qed.

(** * Disabling all sensors *)

(** The [activate] call a handle is routed to. *)
Definition disable_call (s : HalProxy SubHal) (k : Z) : option (SubHal * Z * bool) :=
  (λ '(sh, h), (sh, h, false)) <$> owner s k.

Definition activate_calls (l : list (entry (halE SubHal))) : list (SubHal * Z * bool) :=
  omap (λ e, match entry_call e with
             | Sub_activate h k b => Some (h, k, b)
             | _ => None
             end) l.

Lemma activate_off_spec k s w :
  in_sint 32 k → list_ok s →
  wp (activate k false) s w (λ _ s' _ lg,
    s' = s ∧ activate_calls lg = option_list (disable_call s k) ∧
    length lg = length (activate_calls lg)).
Proof.
  intros Hk Hl. unfold wp at 1.
  destruct (routing_refines k s w false 0 0 Hk Hl) as [-> _].
  unfold disable_call, routed. destruct (owner s k) as [[sh h]|]; simpl; [|done].
  by apply wp_call.
Qed.

Lemma disable_loop_spec (l : list (Z * SensorInfo)) s w :
  Forall (in_sint 32) l.*1 → list_ok s →
  wp (foreach (λ '(k, _), activate k false ;; mret ()) l) s w (λ _ s' _ lg,
    s' = s ∧ activate_calls lg = omap (disable_call s) l.*1 ∧
    length lg = length (activate_calls lg)).
Proof.
  intros Hl Hs. apply (wp_foreach (λ pre s' lg, s' = s ∧
    activate_calls lg = omap (disable_call s) pre.*1 ∧
    length lg = length (activate_calls lg))); [done|].
  intros pre [k si] s' w' lg [rest Hrest] (-> & Hlg & Hlen). apply wp_bind.
  eapply wp_mono; [apply activate_off_spec; [|done]|].
  - rewrite Forall_forall in Hl. apply Hl. rewrite Hrest, !fmap_app, !elem_of_app.
    left. right. apply list_elem_of_here.
  - intros r s' w2 lg' (-> & Hlg' & Hlen'). apply wp_ret. rewrite app_nil_r.
    unfold activate_calls in *. rewrite omap_app, !length_app, fmap_app, omap_app, Hlg, Hlg'.
    rewrite Hlg in Hlen. rewrite Hlg' in Hlen'. simpl. split_and!; [done| |lia].
    by destruct (disable_call s k).
Qed.

(** Disabling all sensors makes one [activate(handle, false)] call for every
    static and every dynamic sensor the proxy knows whose handle names a
    sub-HAL, to that sub-HAL and under its own handle, and no other call but those
    of the mutex; the proxy's state is untouched. *)
Theorem disableAllSensors_complete s w :
  map_Forall (λ k _, in_sint 32 k) (mSensors s) →
  map_Forall (λ k _, in_sint 32 k) (mDynamicSensors s) → list_ok s →
  wp disableAllSensors s w (λ _ s' _ lg,
    s' = s ∧ length lg = (2 + length (activate_calls lg))%nat ∧
    activate_calls lg ≡ₚ omap (disable_call s)
      ((map_to_list (mSensors s)).*1 ++ (map_to_list (mDynamicSensors s)).*1)).
Proof.
  intros H1 H2 Hl.
  assert (∀ m : gmap Z SensorInfo, map_Forall (λ k _, in_sint 32 k) m →
    Forall (in_sint 32) (iterate m).*1) as Hit.
  { intros m Hm. apply Forall_fmap, Forall_forall. intros [k si] Hin.
    apply (Hm k si). rewrite iterate_perm in Hin. by apply elem_of_map_to_list. }
  unfold disableAllSensors. apply wp_bind, wp_get, wp_bind.
  eapply wp_mono; [apply disable_loop_spec; [by apply Hit|done]|].
  intros [] s' w' lg (-> & Hlg & Hlen). apply wp_bind, wp_call. intros [] w1 _.
  apply wp_bind, wp_get, wp_bind.
  eapply wp_mono; [apply disable_loop_spec; [by apply Hit|done]|].
  intros [] s' w'' lg' (-> & Hlg' & Hlen'). apply wp_call. intros [] w2 _. split; [done|].
  assert (activate_calls (lg ++ Entry LockDynamicSensors tt :: lg' ++
    [Entry UnlockDynamicSensors tt]) = activate_calls lg ++ activate_calls lg') as Hcalls.
  { unfold activate_calls. rewrite omap_app. simpl. by rewrite omap_app, app_nil_r. }
  cbn [app]. rewrite Hcalls, !length_app. simpl. rewrite length_app. simpl.
  split; [lia|]. rewrite Hlg, Hlg', <- omap_app. do 2 f_equiv; apply fmap_Permutation, iterate_perm.
Qed.
End facts.

(** * Witnesses: three sub-HALs, of which the third refuses every call *)
Definition demo_result (h : nat) : Result := if bool_decide (h = 2%nat) then BAD_VALUE else OK.

Definition demo_sensors (h : nat) : list SensorInfo :=
  match h with
  | 0%nat => [MkSensorInfo 1 "accel" 1 "android.sensor.accelerometer" float_1 2944;
              MkSensorInfo 2 "pick up" 33171036 "xiaomi pick up sensor" float_1 0]
  | 1%nat => [MkSensorInfo 1 "gyro" 4 "android.sensor.gyroscope" float_1 2944;
              MkSensorInfo 2 "pick up" 33171036 "xiaomi pick up sensor" float_1 1]
  | _ => [MkSensorInfo 16777217 "bad" 1 "bad" float_1 0]
  end.

#[local] Existing Instance aosp_sensors.
#[local] Existing Instance aosp_sensors_laws.
#[local] Instance demo_env : Handler (halE nat) Z := simple_env demo_result demo_sensors 10.
#[local] Instance demo_order : MapOrder Z SensorInfo := map_to_list_order Z SensorInfo.

Lemma routing_refines_witness :
  let s := proxy_with 3 in
  run (activate 33554439 true) s 0 = run (routed s 33554439 (λ sh h, Sub_activate sh h true)) s 0 ∧
  owner s 33554439 = Some (2%nat, 7).
Proof.
  split; [|by vm_compute].
  apply (routing_refines 33554439 (proxy_with 3) 0 true 0 0); [split; by vm_compute|by vm_compute].
Defined.

Lemma setOperationMode_consistent_witness :
  Forall (λ h, modes_after (λ _, NORMAL)
    (mode_calls (ex_log (run (setOperationMode (OtherMode 1)) (proxy_with 3) 0))) h = NORMAL)
    [0%nat; 1%nat; 2%nat].
Proof.
  apply Forall_forall.
  pose proof (setOperationMode_consistent (OtherMode 1) (λ _, NORMAL) (proxy_with 3) 0
    (λ h _, eq_refl)) as Hwp.
  unfold wp in Hwp. apply Hwp. vm_compute. lia.
Defined.

Lemma initializeSensorList_wf_witness :
  wp initializeSensorList (proxy_with 3) 0 (λ _ s' _ _,
    sensors_wf s' ∧ mSubHalList s' = [0%nat; 1%nat; 2%nat]).
Proof. apply initializeSensorList_wf, map_Forall_empty. Defined.

Lemma initializeSensorList_complete_witness :
  wp initializeSensorList (proxy_with 3) 0 (λ _ s' _ _, ∀ k,
    is_Some (mSensors s' !! k) ↔ is_Some (mSensors (proxy_with 3) !! k) ∨
      ∃ i sh si, mSubHalList (proxy_with 3) !! i = Some sh ∧ si ∈ demo_sensors sh ∧
        kept si ∧ k = sensor_key i si) ∧
  match ex_out (run initializeSensorList (proxy_with 3) 0) with
  | Done (_, s') => si_flags <$> (map_to_list (mSensors s')).*2
  | Undef => []
  end ≡ₚ [2944; 0; 1].
Proof.
  split; [|vm_compute; solve_Permutation].
  apply (initializeSensorList_complete demo_sensors); [done|apply map_Forall_empty].
Defined.

Definition dyn_proxy : HalProxy nat := set_mDynamicSensorsCallback (Some 7) (proxy_with 3).
Definition dyn_sensor (h : Z) : SensorInfo := MkSensorInfo h "dyn" 1 "dynamic" float_1 0.

Lemma dynamic_sensors_roundtrip_witness :
  wp (onDynamicSensorsConnected [dyn_sensor 5; dyn_sensor 6] 2 ;;
      onDynamicSensorsDisconnected [5; 6] 2) dyn_proxy 0 (λ _ s' _ lg,
    mDynamicSensors s' = ∅ ∧
    lg = [Entry LockDynamicSensors tt; Entry UnlockDynamicSensors tt;
          Entry (Cb_onDynamicSensorsConnected 7 [dyn_sensor 33554437; dyn_sensor 33554438]) tt;
          Entry LockDynamicSensors tt; Entry UnlockDynamicSensors tt;
          Entry (Cb_onDynamicSensorsDisconnected 7 [33554437; 33554438]) tt]).
Proof.
  apply (dynamic_sensors_roundtrip [dyn_sensor 5; dyn_sensor 6] 2 7 dyn_proxy 0); [done|..].
  - by repeat constructor.
  - by apply (bool_decide_unpack _); vm_compute.
  - by repeat constructor.
Defined.

Lemma dynamic_disconnect_isolated_witness :
  let s := set_mDynamicSensors {[ 33554437 := dyn_sensor 33554437 ]} dyn_proxy in
  wp (onDynamicSensorsDisconnected [5] 1) s 0 (λ _ s' _ _,
    mDynamicSensors s' !! setSubHalIndex 5 2 = mDynamicSensors s !! setSubHalIndex 5 2).
Proof. apply (dynamic_disconnect_isolated [5] 1 _ 0 7); [done|by vm_compute|by vm_compute]. Defined.

Lemma injectSensorData_gate_witness :
  let e := MkEvent 16777221 1 float_1 0 in
  run (injectSensorData id e) (proxy_with 3) 0 = Exec (Done (BAD_VALUE, proxy_with 3)) 0 [].
Proof.
  intros e. etransitivity; [apply injectSensorData_gate|]; [split; by vm_compute|by vm_compute|].
  by vm_compute.
Defined.

Lemma disableAllSensors_complete_witness :
  let s := set_mSensors {[ 16777217 := dyn_sensor 16777217 ]} dyn_proxy in
  wp disableAllSensors s 0 (λ _ s' _ lg,
    s' = s ∧ length lg = (2 + length (activate_calls lg))%nat ∧
    activate_calls lg ≡ₚ [(1%nat, 1, false)]).
Proof.
  intros s. eapply wp_mono; [apply (disableAllSensors_complete s 0)|].
  - apply map_Forall_singleton. by vm_compute.
  - apply map_Forall_empty.
  - by vm_compute.
  - intros [] s' w' lg (? & ? & Hp). split_and!; [done..|]. rewrite Hp. by vm_compute.
Defined.
