(* ===== verification/Wakelock.v ===== *)
(** The shared wake lock of the sensors HAL proxy ([src/sensors/HalProxy.cpp]):
    the reference count, its time-out, and the thread that releases the lock.

    The counters are read and written under [mWakelockMutex] (a recursive
    mutex), except for [mThreadsRun], an atomic flag that is read without it.
    Each function is given as the code writes it; the parts under the mutex
    have names of their own, and the thread is cut into sections between two
    points where another thread can act: every load of the flag and every
    release of the mutex. *)
From S2P Require Import Prelude Effects SensorTypes HalProxyState.
From stdpp Require Import options.
#[local] Set Default Proof Using "Type*".

(** Where the wake lock thread stands. *)
Inductive wl_pc :=
| WlTop                         (* the test of the [while] loop *)
| WlWait                        (* in [mWakelockCV.wait], or about to go on *)
| WlReset                       (* about to reset after a time-out *)
| WlRead (timeLeft : Z)         (* about to read, the mutex released *)
| WlRelock (res : option Z)     (* the read is over *)
| WlExit                        (* after the loop *)
| WlDone.

Section wakelock.
Context {SubHal : Type} {SC : SensorConsts}.

#[local] Abbreviation hal A := (prog (halE SubHal) (HalProxy SubHal) A).

Definition modify_wakelock (f : Wakelock → Wakelock) : hal unit :=
  modify (λ s, set_wakelock (f (wakelock s)) s).

(** * Reference count *)

(** Under the mutex.  The answer is the time the caller may keep. *)
Definition increment_locked (delta : Z) : hal Z :=
  s ← get;
  (if bool_decide (mWakelockRefCount (wakelock s) = 0) then
     call AcquireWakeLock ;; call NotifyWakelockCV
   else mret ()) ;;
  now ← call GetTimeNow;
  modify_wakelock (set_mWakelockTimeoutStartTime now) ;;
  modify_wakelock (λ w, set_mWakelockRefCount (to_size (mWakelockRefCount w + delta)) w) ;;
  mret now.

(** [None] is the answer [false]; [Some t] is [true] with [t] for
    [*timeoutStart]. *)
Definition incrementRefCountAndMaybeAcquireWakelock (delta : Z) : hal (option Z) :=
  s ← get;
  if negb (mThreadsRun s) then mret None
  else t ← increment_locked delta; mret (Some t).

(** Under the mutex.  A [timeoutStart] of -1 is the default argument. *)
Definition decrement_locked (delta timeoutStart : Z) : hal unit :=
  s ← get;
  let w := wakelock s in
  let timeoutStart :=
    if bool_decide (timeoutStart = -1) then mWakelockTimeoutResetTime w else timeoutStart in
  if bool_decide (mWakelockRefCount w = 0) ||
     bool_decide (timeoutStart < mWakelockTimeoutResetTime w) then mret ()
  else
    modify_wakelock (λ w, set_mWakelockRefCount
      (mWakelockRefCount w - Z.min (mWakelockRefCount w) delta) w) ;;
    s ← get;
    if bool_decide (mWakelockRefCount (wakelock s) = 0) then call ReleaseWakeLock
    else mret ().

Definition decrementRefCountAndMaybeReleaseWakelock (delta timeoutStart : Z) : hal unit :=
  s ← get;
  if negb (mThreadsRun s) then mret () else decrement_locked delta timeoutStart.

(** * Time-out *)

(** [None]: the lock timed out; [Some t]: [t] nanoseconds are left. *)
Definition sharedWakelockDidTimeout : hal (option Z) :=
  now ← call GetTimeNow;
  s ← get;
  let duration := now - mWakelockTimeoutStartTime (wakelock s) in
  mret (if bool_decide (kWakelockTimeoutNs < duration) then None
        else Some (kWakelockTimeoutNs - duration)).

Definition resetSharedWakelock : hal unit :=
  s ← get;
  decrementRefCountAndMaybeReleaseWakelock (mWakelockRefCount (wakelock s)) (-1) ;;
  now ← call GetTimeNow;
  modify_wakelock (set_mWakelockTimeoutResetTime now).

(** * The thread

    One section of [handleWakelocks].  In [WlWait] the thread goes on only when
    the predicate it waits for holds.  A missing queue is dereferenced. *)
Definition handleWakelocks (pc : wl_pc) : hal wl_pc :=
  s ← get;
  match pc with
  | WlTop => mret (if mThreadsRun s then WlWait else WlExit)
  | WlWait =>
      if negb (bool_decide (0 < mWakelockRefCount (wakelock s)) || negb (mThreadsRun s))
      then mret WlWait
      else if negb (mThreadsRun s) then mret WlTop
      else
        t ← sharedWakelockDidTimeout;
        mret (match t with None => WlReset | Some timeLeft => WlRead timeLeft end)
  | WlReset => resetSharedWakelock ;; mret WlTop
  | WlRead timeLeft =>
      match mWakeLockQueue (queues s) with
      | Some q => res ← call (Wl_readBlocking q timeLeft); mret (WlRelock res)
      | None => undef
      end
  | WlRelock res =>
      match res with
      | Some n => decrementRefCountAndMaybeReleaseWakelock (to_uint32 n) (-1)
      | None => mret ()
      end ;;
      mret WlTop
  | WlExit => resetSharedWakelock ;; mret WlDone
  | WlDone => mret WlDone
  end.

(** [n] sections of the thread, undisturbed. *)
Definition run_thread (n : nat) (pc : wl_pc) : hal wl_pc := sections handleWakelocks n pc.
End wakelock.

Definition startWakelockThread {SubHal} {SC : SensorConsts}
    : wl_pc → prog (halE SubHal) (HalProxy SubHal) wl_pc := handleWakelocks.
