(* ===== verification/WakelockFacts.v ===== *)
(** What the shared wake lock guarantees: the kernel's lock is held exactly
    while the reference count is positive, under every interleaving; stale
    releases are ignored; the thread ends every hold; and where the guarantees
    stop (threads not running, increments by zero). *)
From S2P Require Import Prelude Effects SensorTypes HalProxyState Wakelock.
From stdpp Require Import options.
#[local] Set Default Proof Using "Type*".

Section facts.
Context {SubHal : Type} {W : Type} {H : Handler (halE SubHal) W}.
Context {SC : SensorConsts} {SL : SensorLaws}.
Implicit Types (s : HalProxy SubHal) (w : W) (b : bool) (l : list (entry (halE SubHal))).

(** * Abstract specification: the kernel's wake lock

    A log acquires and releases the lock alternately; the answer is whether it
    is held after the log. *)
Definition wl_entry (b : bool) (e : entry (halE SubHal)) : option bool :=
  match entry_call e with
  | AcquireWakeLock => if b then None else Some true
  | ReleaseWakeLock => if b then Some false else None
  | _ => Some b
  end.

Fixpoint wl_trace (b : bool) (l : list (entry (halE SubHal))) : option bool :=
  match l with
  | [] => Some b
  | e :: l => wl_entry b e ≫= λ b, wl_trace b l
  end.

Lemma wl_trace_app b l1 l2 :
  wl_trace b (l1 ++ l2) = wl_trace b l1 ≫= λ b, wl_trace b l2.
Proof using Type.
  revert b. induction l1 as [|e l1 IH]; intros b; [done|]. cbn [wl_trace app].
  destruct (wl_entry b e) as [b0|]; [apply IH|done].
Qed.

Definition refcount s : Z := mWakelockRefCount (wakelock s).
Definition held s : bool := bool_decide (0 < refcount s).

(** The refinement relation kept by every operation. *)
Definition keeps s s' l : Prop :=
  wl_trace (held s) l = Some (held s') ∧ in_uint 64 (refcount s').

Lemma keeps_trans s1 s2 s3 l1 l2 :
  keeps s1 s2 l1 → keeps s2 s3 l2 → keeps s1 s3 (l1 ++ l2).
Proof. intros [H1 _] [H2 ?]. split; [|done]. by rewrite wl_trace_app, H1. Qed.

Lemma keeps_same s s' : wakelock s' = wakelock s → in_uint 64 (refcount s) → keeps s s' [].
Proof. intros Hs Hr. unfold keeps, held, refcount in *. by rewrite Hs. Qed.

Lemma increment_keeps delta s w :
  in_uint 64 (refcount s) → 0 < delta → refcount s + delta < 2 ^ 64 →
  wp (increment_locked delta) s w (λ _ s' _ l,
    keeps s s' l ∧ refcount s' = refcount s + delta).
Proof.
  intros Hr Hd Hov. unfold increment_locked, modify_wakelock.
  apply wp_bind, wp_get. case_bool_decide as H0; wp_run;
    unfold keeps, held, refcount in *;
    cbn [wakelock set_wakelock mWakelockRefCount set_mWakelockRefCount
         set_mWakelockTimeoutStartTime];
    rewrite wrapu_id by (unfold in_uint in *; lia);
    (split; [|done]); (split; [|unfold in_uint in *; lia]);
    rewrite (bool_decide_true (0 < _ + _)) by (unfold in_uint in *; lia).
  - by rewrite H0.
  - rewrite (bool_decide_true (0 < _)) by (unfold in_uint in *; lia). done.
Qed.

Lemma decrement_keeps delta t s w :
  in_uint 64 (refcount s) → 0 ≤ delta →
  wp (decrement_locked delta t) s w (λ _ s' _ l, keeps s s' l).
Proof.
  intros Hr Hd. unfold decrement_locked, modify_wakelock.
  apply wp_bind, wp_get.
  destruct (bool_decide _ || bool_decide (_ < _)) eqn:Hc.
  - apply wp_ret. by apply keeps_same.
  - apply orb_false_iff in Hc as [H0%bool_decide_eq_false _].
    wp_run; unfold keeps, held, refcount, in_uint in *; simpl in *.
    all: repeat case_bool_decide; simpl; try lia; (split; [done|lia]).
Qed.

Lemma decrement_flag_keeps delta t s w :
  in_uint 64 (refcount s) → 0 ≤ delta →
  wp (decrementRefCountAndMaybeReleaseWakelock delta t) s w (λ _ s' _ l, keeps s s' l).
Proof.
  intros Hr Hd. apply wp_bind, wp_get. destruct (mThreadsRun s); cbn [negb].
  - by apply decrement_keeps.
  - apply wp_ret. by apply keeps_same.
Qed.

Lemma reset_keeps s w :
  in_uint 64 (refcount s) →
  wp resetSharedWakelock s w (λ _ s' _ l, keeps s s' l).
Proof.
  intros Hr. apply wp_bind, wp_get, wp_bind. eapply wp_mono.
  - apply decrement_flag_keeps; [done|apply Hr].
  - intros [] s' w' l Hk. wp_run. cbn [app]. eapply keeps_trans; [exact Hk|].
    split; [done|]. apply Hk.
Qed.

Lemma thread_keeps pc s w :
  in_uint 64 (refcount s) →
  match pc with WlRead _ => mWakeLockQueue (queues s) ≠ None | _ => True end →
  wp (handleWakelocks pc) s w (λ _ s' _ l, keeps s s' l).
Proof.
  intros Hr Hq. apply wp_bind, wp_get. destruct pc as [| | |timeLeft|res| |].
  - wp_run. by apply keeps_same.
  - unfold sharedWakelockDidTimeout. wp_run; by apply keeps_same.
  - apply wp_bind. eapply wp_mono; [by apply reset_keeps|]. intros [] s' w' l Hk.
    apply wp_ret. by rewrite app_nil_r.
  - destruct (mWakeLockQueue (queues s)); [|done]. wp_run. by apply keeps_same.
  - apply wp_bind. destruct res as [n|].
    + eapply wp_mono; [apply decrement_flag_keeps; [done|apply wrapu_range; lia]|].
      intros [] s' w' l Hk. apply wp_ret. by rewrite app_nil_r.
    + apply wp_ret, wp_ret. by apply keeps_same.
  - apply wp_bind. eapply wp_mono; [by apply reset_keeps|]. intros [] s' w' l Hk.
    apply wp_ret. by rewrite app_nil_r.
  - apply wp_ret. by apply keeps_same.
Qed.

(** * All interleavings

    A run of the program, seen from the wake lock: sections under the mutex by
    any thread, sections of the wake lock thread, and anything else other
    threads do, which leaves the wake lock's fields alone.  More interleavings
    are admitted than the mutex allows, and [mThreadsRun] may change between any
    two steps, so what holds of all of these runs holds of the program's. *)
Record wl_sys := WlSys {
  wl_proxy : HalProxy SubHal;
  wl_world : W;
  wl_thread : wl_pc;
  wl_log : list (entry (halE SubHal));
}.

Inductive wl_step : wl_sys → wl_sys → Prop :=
| step_increment delta t s w pc l s' w' l' :
    0 < delta → refcount s + delta < 2 ^ 64 →
    run (increment_locked delta) s w = Exec (Done (t, s')) w' l' →
    wl_step (WlSys s w pc l) (WlSys s' w' pc (l ++ l'))
| step_decrement delta t s w pc l s' w' l' :
    0 ≤ delta →
    run (decrement_locked delta t) s w = Exec (Done ((), s')) w' l' →
    wl_step (WlSys s w pc l) (WlSys s' w' pc (l ++ l'))
| step_reset s w pc l s' w' l' :
    run resetSharedWakelock s w = Exec (Done ((), s')) w' l' →
    wl_step (WlSys s w pc l) (WlSys s' w' pc (l ++ l'))
| step_thread s w pc l pc' s' w' l' :
    run (handleWakelocks pc) s w = Exec (Done (pc', s')) w' l' →
    wl_step (WlSys s w pc l) (WlSys s' w' pc' (l ++ l'))
| step_other s w pc l s' w' :
    wakelock s' = wakelock s →
    wl_step (WlSys s w pc l) (WlSys s' w' pc l).

Lemma thread_run_keeps pc s w pc' s' w' l :
  in_uint 64 (refcount s) → run (handleWakelocks pc) s w = Exec (Done (pc', s')) w' l →
  keeps s s' l.
Proof.
  intros Hr Hrun. refine (wp_run _ _ _ _ _ _ _ _ (thread_keeps pc s w Hr _) Hrun).
  destruct pc; try done. intros Hq. unfold handleWakelocks in Hrun.
  by rewrite run_get_bind, Hq in Hrun.
Qed.

Lemma wl_step_keeps x y :
  wl_step x y → in_uint 64 (refcount (wl_proxy x)) →
  ∃ l', wl_log y = wl_log x ++ l' ∧ keeps (wl_proxy x) (wl_proxy y) l'.
Proof.
  destruct 1 as [delta t s w pc l s' w' l' Hd Hov Hrun|delta t s w pc l s' w' l' Hd Hrun|
    s w pc l s' w' l' Hrun|s w pc l pc' s' w' l' Hrun|s w pc l s' w' Heq]; simpl; intros Hr.
  - exists l'. split; [done|].
    by apply (wp_run _ _ _ _ _ _ _ _ (increment_keeps delta s w Hr Hd Hov) Hrun).
  - exists l'. split; [done|].
    by apply (wp_run _ _ _ _ _ _ _ _ (decrement_keeps delta t s w Hr Hd) Hrun).
  - exists l'. split; [done|]. by apply (wp_run _ _ _ _ _ _ _ _ (reset_keeps s w Hr) Hrun).
  - exists l'. split; [done|]. by eapply thread_run_keeps.
  - exists []. rewrite app_nil_r. split; [done|]. by apply keeps_same.
Qed.

(** The kernel's wake lock is held exactly while the reference count is
    positive, and it is never acquired when held nor released when free, in
    every run of the program: any interleaving of positive increments that do
    not overflow the counter, decrements of any size, resets, the wake lock
    thread's sections, and changes to the flag [mThreadsRun]. *)
Theorem wakelock_held_iff_counted x y :
  rtc wl_step x y → refcount (wl_proxy x) = 0 → wl_log x = [] →
  wl_trace false (wl_log y) = Some (bool_decide (0 < refcount (wl_proxy y))) ∧
  in_uint 64 (refcount (wl_proxy y)).
Proof.
  intros Hsteps H0 Hl.
  assert (keeps (wl_proxy x) (wl_proxy y) (wl_log y)) as [Hk ?].
  { apply (rtc_ind_r (R:=wl_step) (λ z, keeps (wl_proxy x) (wl_proxy z) (wl_log z)) x);
      [| |done].
    - rewrite Hl. apply keeps_same; [done|]. rewrite H0. done.
    - intros z z' _ Hz Hk. apply wl_step_keeps in Hz as (l' & -> & Hk'); [|apply Hk].
      by eapply keeps_trans. }
  split; [|done]. unfold held in Hk. by rewrite H0 in Hk.
Qed.

(** * Stale releases *)
Section clock.
(** The clock: [getTimeNow] reads it, and time never goes back. *)
Context (clock : W → Z).
Hypothesis now_reads : ∀ w x w', handle (E:=halE SubHal) GetTimeNow w = (x, w') →
  x = clock w ∧ clock w < clock w'.
Hypothesis clock_forward : ∀ X (c : halE SubHal X) w x w',
  handle c w = (x, w') → clock w ≤ clock w'.

(** The fields beside the count that an operation leaves alone. *)
Definition same_rest s s' : Prop :=
  mThreadsRun s' = mThreadsRun s ∧ queues s' = queues s.

Lemma increment_timed delta s w :
  wp (increment_locked delta) s w (λ t s' w' _,
    same_rest s s' ∧ clock w ≤ t < clock w' ∧
    mWakelockTimeoutResetTime (wakelock s') = mWakelockTimeoutResetTime (wakelock s)).
Proof.
  unfold increment_locked, modify_wakelock. wp_run.
  all: repeat match goal with
    | Hw : handle GetTimeNow _ = _ |- _ => apply now_reads in Hw as [-> ?]
    | Hw : handle _ _ = _ |- _ => apply clock_forward in Hw end.
  all: split_and!; done || lia.
Qed.

Lemma decrement_timed delta t s w :
  wp (decrement_locked delta t) s w (λ _ s' w' _,
    same_rest s s' ∧ clock w ≤ clock w' ∧
    mWakelockTimeoutStartTime (wakelock s') = mWakelockTimeoutStartTime (wakelock s) ∧
    (t = -1 → 0 ≤ delta → refcount s' = refcount s - Z.min (refcount s) delta)).
Proof.
  unfold decrement_locked, modify_wakelock, refcount. apply wp_bind, wp_get.
  destruct (bool_decide _ || bool_decide (_ < _)) eqn:Hc.
  - apply wp_ret. split_and!; try done. intros -> ?.
    rewrite (bool_decide_true (-1 = -1)) in Hc by done.
    apply orb_true_iff in Hc as [Hc%bool_decide_eq_true|Hc%bool_decide_eq_true]; lia.
  - wp_run; split_and!; try done. eapply clock_forward; eauto.
Qed.

Lemma reset_timed s w :
  mThreadsRun s = true → in_uint 64 (refcount s) →
  wp resetSharedWakelock s w (λ _ s' w' _,
    same_rest s s' ∧ refcount s' = 0 ∧
    clock w ≤ mWakelockTimeoutResetTime (wakelock s') < clock w').
Proof.
  intros Hrun [Hr _]. unfold resetSharedWakelock, decrementRefCountAndMaybeReleaseWakelock,
    modify_wakelock.
  apply wp_bind, wp_get, wp_bind, wp_bind, wp_get. rewrite Hrun. cbn [negb].
  eapply wp_mono; [apply decrement_timed|].
  intros [] s' w' l (Hrest & Hc & _ & Hcount). specialize (Hcount eq_refl Hr). fold (refcount s) in *.
  rewrite Z.min_id, Z.sub_diag in Hcount.
  wp_run. apply now_reads in Hw as [-> ?]. split_and!; [apply Hrest..|done|done|done].
Qed.

Lemma decrement_stale delta t s w :
  t ≠ -1 → t < mWakelockTimeoutResetTime (wakelock s) →
  run (decrementRefCountAndMaybeReleaseWakelock delta t) s w = Exec (Done ((), s)) w [].
Proof.
  intros Ht Hlt. unfold decrementRefCountAndMaybeReleaseWakelock, decrement_locked.
  rewrite run_get_bind. destruct (mThreadsRun s); [|done]. cbn [negb].
  rewrite run_get_bind, (bool_decide_false (t = -1)), (bool_decide_true (t < _)), orb_true_r by done. done.
Qed.

(** * The thread ends every hold *)

Definition start_time s : Z := mWakelockTimeoutStartTime (wakelock s).

(** A state in which the thread runs. *)
Definition running s : Prop :=
  mThreadsRun s = true ∧ is_Some (mWakeLockQueue (queues s)) ∧ in_uint 64 (refcount s).

(** One turn of the loop: three or four sections. *)
Lemma thread_turn s w :
  running s → 0 < refcount s →
  ∃ n, wp (run_thread n WlTop) s w (λ pc s' w' l,
    pc = WlTop ∧ keeps s s' l ∧ running s' ∧ clock w < clock w' ∧
    (refcount s' = 0 ∨ (start_time s' = start_time s ∧
      clock w - start_time s ≤ kWakelockTimeoutNs))).
Proof.
  intros Hs Hpos. destruct Hs as (Hrun & [q Hq] & Hr).
  destruct (decide (kWakelockTimeoutNs < clock w - start_time s)) as [Hout|Hin].
  - exists 3%nat. unfold run_thread; cbn [sections handleWakelocks]. apply wp_bind, wp_bind, wp_get.
    rewrite Hrun. apply wp_ret, wp_bind, wp_bind, wp_get.
    fold (refcount s). rewrite (bool_decide_true (0 < refcount s)) by done.
    rewrite Hrun. cbn [negb orb]. apply wp_bind, wp_bind, wp_call.
    intros now w1 [-> Hw1]%now_reads. apply wp_bind, wp_get, wp_ret.
    fold (start_time s). rewrite bool_decide_true by done. apply wp_ret.
    apply wp_bind, wp_bind, wp_get, wp_bind.
    eapply wp_mono; [apply wp_and; [by apply reset_keeps|by apply reset_timed]|].
    intros [] s2 w2 l2 (K & [Q1 Q2] & R & ?). apply wp_ret, wp_ret. cbn [app].
    rewrite !app_nil_r.
    split_and!; [done| |split_and!; [congruence|rewrite Q2; eauto|apply K]|lia|by left].
    split; [|apply K]. simpl. apply K.
  - exists 4%nat. unfold run_thread; cbn [sections handleWakelocks]. apply wp_bind, wp_bind, wp_get.
    rewrite Hrun. apply wp_ret, wp_bind, wp_bind, wp_get.
    fold (refcount s). rewrite (bool_decide_true (0 < refcount s)) by done.
    rewrite Hrun. cbn [negb orb]. apply wp_bind, wp_bind, wp_call.
    intros now w1 [-> Hw1]%now_reads. apply wp_bind, wp_get, wp_ret.
    fold (start_time s). rewrite bool_decide_false by done. apply wp_ret.
    apply wp_bind, wp_bind, wp_get. rewrite Hq. apply wp_bind, wp_call.
    intros res w2 Hw2%clock_forward. apply wp_ret.
    apply wp_bind, wp_bind, wp_get, wp_bind.
    assert (0 ≤ kWakelockTimeoutNs) by apply wakelock_timeout_range.
    destruct res as [n|].
    + pose proof (wrapu_range 32 n ltac:(done)) as Hn.
      apply wp_bind, wp_get. rewrite Hrun. cbn [negb].
      eapply wp_mono; [apply wp_and; [apply decrement_keeps; [done|apply Hn]|
        apply decrement_timed]|].
      intros [] s3 w3 l3 (K & [Q1 Q2] & ? & Hstart & _). apply wp_ret, wp_ret. cbn [app].
      rewrite !app_nil_r.
      split_and!; [done| |split_and!; [congruence|rewrite Q2; eauto|apply K]|lia|].
      * split; [|apply K]. simpl. apply K.
      * right. split; [done|lia].
    + apply wp_ret, wp_ret, wp_ret. cbn [app].
      split_and!; [done|by split|split_and!; eauto|lia|]. right. split; [done|lia].
Qed.

End clock.

(** * Where the guarantees stop *)

(** No call to acquire or release. *)
Definition untouched l : Prop := ∀ b, wl_trace b l = Some b.

Lemma untouched_app l1 l2 : untouched l1 → untouched l2 → untouched (l1 ++ l2).
Proof. intros H1 H2 b. rewrite wl_trace_app, H1. apply H2. Qed.

Definition stopped s : Prop := mThreadsRun s = false ∧ is_Some (mWakeLockQueue (queues s)).

Lemma reset_stopped s w :
  mThreadsRun s = false →
  wp resetSharedWakelock s w (λ _ s' _ l,
    mThreadsRun s' = false ∧ queues s' = queues s ∧ refcount s' = refcount s ∧ untouched l).
Proof.
  intros Hrun. unfold resetSharedWakelock, decrementRefCountAndMaybeReleaseWakelock.
  apply wp_bind, wp_get, wp_bind, wp_bind, wp_get. rewrite Hrun. apply wp_ret.
  unfold modify_wakelock. wp_run. by split_and!.
Qed.

(** How many sections a stopped thread still has. *)
Definition sections_left (pc : wl_pc) : nat :=
  match pc with
  | WlRead _ => 4 | WlRelock _ | WlWait | WlReset => 3 | WlTop => 2 | WlExit => 1 | WlDone => 0
  end.

Lemma section_stopped pc s w :
  stopped s →
  wp (handleWakelocks pc) s w (λ pc' s' _ l,
    stopped s' ∧ refcount s' = refcount s ∧ untouched l ∧
    sections_left pc' = pred (sections_left pc)).
Proof.
  intros [Hrun [q Hq]]. assert (stopped s) as Hs by (split; [done|by rewrite Hq]).
  assert (∀ pc' : wl_pc, wp (A:=wl_pc) (resetSharedWakelock ;; mret pc') s w (λ pc'' s' _ l,
    stopped s' ∧ refcount s' = refcount s ∧ untouched l ∧ pc'' = pc')) as Hreset.
  { intros pc'. apply wp_bind. eapply wp_mono; [by apply reset_stopped|].
    intros [] s' w' l (? & Hqs & ? & ?). apply wp_ret. rewrite app_nil_r.
    split_and!; [|done..]. split; [done|]. by rewrite Hqs, Hq. }
  apply wp_bind, wp_get. destruct pc as [| | |timeLeft|res| |].
  - rewrite Hrun. by apply wp_ret.
  - rewrite Hrun, orb_true_r. by apply wp_ret.
  - eapply wp_mono; [apply Hreset|]. by intros ???? (? & ? & ? & ->).
  - rewrite Hq. apply wp_bind, wp_call. intros res w' _. by apply wp_ret.
  - apply wp_bind. destruct res as [n|]; [|by apply wp_ret, wp_ret].
    apply wp_bind, wp_get. rewrite Hrun. by apply wp_ret, wp_ret.
  - eapply wp_mono; [apply Hreset|]. by intros ???? (? & ? & ? & ->).
  - by apply wp_ret.
Qed.

(** Once [mThreadsRun] is cleared, the wake lock thread ends within four
    sections, wherever it stands, and nothing it does, its final reset
    included, releases the lock or changes the count; a lock that is held when
    [stopThreads] clears the flag stays held. *)
Theorem stopped_thread_keeps_wakelock n pc s w :
  stopped s →
  wp (run_thread n pc) s w (λ pc' s' _ l,
    refcount s' = refcount s ∧ untouched l ∧ ((4 ≤ n)%nat → pc' = WlDone)).
Proof.
  intros Hs. enough (wp (run_thread n pc) s w (λ pc' s' _ l,
    refcount s' = refcount s ∧ untouched l ∧
    (sections_left pc' = sections_left pc - n)%nat)) as Hgen.
  { eapply wp_mono; [exact Hgen|]. intros pc' s' w' l (? & ? & Hleft). split_and!; [done..|].
    intros Hn. destruct pc, pc'; simpl in Hleft; lia || done. }
  revert pc s w Hs. induction n as [|n IH]; intros pc s w Hs; unfold run_thread; cbn [sections].
  { apply wp_ret. split_and!; [done..|lia]. }
  apply wp_bind. eapply wp_mono; [by apply section_stopped|].
  intros pc1 s1 w1 l1 (Hs1 & R1 & U1 & L1). eapply wp_mono; [by apply IH|].
  intros pc2 s2 w2 l2 (R2 & U2 & L2). split_and!; [congruence| |lia].
  by apply untouched_app.
Qed.

(** An increment by zero takes the lock without counting it: from a count of
    zero the lock is acquired, and no decrement, whatever its size and start
    time, releases it again. *)
Theorem zero_increment_leaks delta t s w :
  mThreadsRun s = true → refcount s = 0 →
  wp (incrementRefCountAndMaybeAcquireWakelock 0 ;;
      decrementRefCountAndMaybeReleaseWakelock delta t) s w
    (λ _ s' _ l, refcount s' = 0 ∧ wl_trace false l = Some true).
Proof.
  intros Hrun H0. unfold incrementRefCountAndMaybeAcquireWakelock, increment_locked,
    decrementRefCountAndMaybeReleaseWakelock, decrement_locked, modify_wakelock.
  unfold refcount in *. apply wp_bind, wp_bind, wp_get. rewrite Hrun. cbn [negb].
  apply wp_bind, wp_bind, wp_get. rewrite H0, (bool_decide_true (0 = 0)) by done.
  repeat wp_step; simpl in *; try congruence;
    rewrite H0 in *; change (to_size (0 + 0)) with 0 in *; done.
Qed.
End facts.

(** * Witnesses: a proxy whose threads run, in the concrete environment *)
#[local] Existing Instance aosp_sensors.
#[local] Existing Instance aosp_sensors_laws.
#[local] Instance demo_env : Handler (halE nat) Z := simple_env (λ _, OK) (λ _, []) 10.

Lemma demo_now w x w' :
  handle (E:=halE nat) GetTimeNow w = (x, w') → x = id w ∧ id w < id w'.
Proof. intros [= <- <-]. unfold id. lia. Qed.

Lemma demo_forward X (c : halE nat X) w x w' : handle c w = (x, w') → id w ≤ id w'.
Proof. destruct c; intros [= <- <-]; unfold id; lia. Qed.

Definition run_proxy (run : bool) (n : Z) : HalProxy nat :=
  MkHalProxy [] ∅ ∅ None None NORMAL (MkQueues (Some 1) (Some 2) (Some 3) (Some 4)) run (Some 1) (Some 2)
    (MkPending [] 0 0) (MkWakelock n 0 0).

Lemma wakelock_held_iff_counted_witness :
  ∃ y, rtc wl_step (WlSys (run_proxy true 0) 5 WlTop []) y ∧
    refcount (wl_proxy y) = 2 ∧ wl_trace false (wl_log y) = Some true.
Proof.
  eexists. assert (rtc wl_step (WlSys (run_proxy true 0) 5 WlTop [])
    (WlSys (set_wakelock (MkWakelock 2 5 0) (run_proxy true 0)) 6 WlTop
      [Entry AcquireWakeLock tt; Entry NotifyWakelockCV tt; Entry GetTimeNow 5])) as Hrun.
  { apply rtc_once. by apply (step_increment 2 5 (run_proxy true 0) 5 WlTop []). }
  split; [exact Hrun|]. split; [done|].
  by destruct (wakelock_held_iff_counted _ _ Hrun) as [-> _].
Defined.



Lemma stopped_thread_keeps_wakelock_witness :
  wp (run_thread 4 WlTop) (run_proxy false 3) 5 (λ pc' s' _ l,
    refcount s' = 3 ∧ untouched l ∧ ((4 ≤ 4)%nat → pc' = WlDone)).
Proof. apply stopped_thread_keeps_wakelock. split; [done|by eexists]. Defined.

Lemma zero_increment_leaks_witness :
  wp (incrementRefCountAndMaybeAcquireWakelock 0 ;;
      decrementRefCountAndMaybeReleaseWakelock 7 (-1)) (run_proxy true 0) 5
    (λ _ s' _ l, refcount s' = 0 ∧ wl_trace false l = Some true).
Proof. by apply zero_increment_leaks. Defined.
