(* ===== verification/EventQueue.v ===== *)
(** The event queue of the sensors HAL proxy ([src/sensors/HalProxy.cpp]):
    posting events to the framework's message queue, the bounded queue of
    batches that did not fit, and the thread that writes them later.

    [postEventsToMessageQueue] runs under [mEventQueueWriteMutex] from its
    second statement to its end.  The thread is cut into sections at every load
    of [mThreadsRun] and every time it takes or gives back the mutex.  A
    reference to the batch at the front of the queue stays valid while others
    push at the back, so the thread reads the batch from the state. *)
From S2P Require Import Prelude Effects SensorTypes HalProxyState Wakelock.
From stdpp Require Import options.
#[local] Set Default Proof Using "Type*".

(** Where the pending-writes thread stands.  The numbers are the locals of the
    loop's body. *)
Inductive pw_pc :=
| PwTop
| PwWait
| PwWrite (numWakeupEvents eventQueueSize numToWrite : Z)   (* the mutex released *)
| PwDrop (numWakeupEvents eventQueueSize numToWrite : Z)    (* the write failed *)
| PwFinish (eventQueueSize numToWrite : Z)                  (* to take the mutex *)
| PwDone.

Section queue.
Context {SubHal : Type} {SC : SensorConsts}.

#[local] Abbreviation hal A := (prog (halE SubHal) (HalProxy SubHal) A).

Definition modify_pending (f : Pending → Pending) : hal unit :=
  modify (λ s, set_pending (f (pending s)) s).

(** A null queue or flag is dereferenced. *)
Definition deref {A} (p : option A) : hal A :=
  match p with Some a => mret a | None => undef end.

(** * Posting *)

(** The write in the calling thread: how many events the message queue took. *)
Definition write_now (events : list Event) : hal Z :=
  s ← get;
  if bool_decide (mPendingWriteEventsQueue (pending s) = []) then
    q ← deref (mEventQueue (queues s));
    available ← call (Eq_availableToWrite q);
    let numToWrite := Z.min (zlen events) (to_size available) in
    if bool_decide (0 < numToWrite) then
      ok ← call (Eq_write q (ztake numToWrite events));
      if ok : bool then
        flag ← deref (mEventQueueFlag (queues s));
        call (Flag_wake flag) ;;
        mret numToWrite
      else mret 0
    else mret numToWrite
  else mret 0.

(** What is left goes to the pending queue, if it fits. *)
Definition push_pending (events : list Event) (numWakeupEvents numToWrite : Z) : hal unit :=
  s ← get;
  let numLeft := zlen events - numToWrite in
  if bool_decide (numToWrite < zlen events) &&
     bool_decide (to_size (mSizePendingWriteEventsQueue (pending s) + numLeft) ≤
                  kMaxSizePendingWriteEventsQueue) then
    let eventsLeft := zdrop numToWrite events in
    modify_pending (λ p, set_mPendingWriteEventsQueue
      (mPendingWriteEventsQueue p ++ [(eventsLeft, numWakeupEvents)]) p) ;;
    modify_pending (λ p, set_mSizePendingWriteEventsQueue
      (to_size (mSizePendingWriteEventsQueue p + numLeft)) p) ;;
    modify_pending (λ p, set_mMostEventsObservedPendingWriteEventsQueue
      (Z.max (mMostEventsObservedPendingWriteEventsQueue p)
         (mSizePendingWriteEventsQueue p)) p) ;;
    call NotifyEventQueueWriteCV
  else mret ().

Definition postEventsToMessageQueue (events : list Event) (numWakeupEvents : Z)
    (wakelock_isLocked : bool) : hal unit :=
  (if wakelock_isLocked
   then _ ← incrementRefCountAndMaybeAcquireWakelock numWakeupEvents; mret ()
   else mret ()) ;;
  numToWrite ← write_now events;
  push_pending events numWakeupEvents numToWrite.

(** * Counting wake-up events

    [mSensors[sensorHandle]] inserts a default entry for a handle it does not
    know; [events[i]] past the end is undefined. *)
Definition wakes_up (sensorHandle : Z) : hal bool :=
  s ← get;
  match mSensors s !! sensorHandle with
  | Some sensor => mret (negb (bool_decide (Z.land (si_flags sensor) WAKE_UP = 0)))
  | None =>
      modify (set_mSensors (<[sensorHandle := default_SensorInfo]> (mSensors s))) ;;
      mret (negb (bool_decide (Z.land (si_flags default_SensorInfo) WAKE_UP = 0)))
  end.

Fixpoint count_loop (events : list Event) (idx : list nat) (numWakeupEvents : Z) : hal Z :=
  match idx with
  | [] => mret numWakeupEvents
  | i :: idx =>
      e ← deref (events !! i);
      wake ← wakes_up (ev_sensorHandle e);
      count_loop events idx (if wake : bool then numWakeupEvents + 1 else numWakeupEvents)
  end.

Definition countNumWakeupEvents (events : list Event) (n : Z) : hal Z :=
  count_loop events (seq 0 (Z.to_nat n)) 0.

(** * The thread *)
Definition front : hal (list Event * Z) :=
  s ← get;
  deref (head (mPendingWriteEventsQueue (pending s))).

(** The front batch, changed in place. *)
Definition set_front (batch : list Event * Z) (l : list (list Event * Z)) :
    list (list Event * Z) := batch :: tail l.

Definition handlePendingWrites (pc : pw_pc) : hal pw_pc :=
  s ← get;
  match pc with
  | PwTop => mret (if mThreadsRun s then PwWait else PwDone)
  | PwWait =>
      if negb (negb (bool_decide (mPendingWriteEventsQueue (pending s) = [])) ||
               negb (mThreadsRun s)) then mret PwWait
      else if negb (mThreadsRun s) then mret PwTop
      else
        '(pendingWriteEvents, numWakeupEvents) ← front;
        q ← deref (mEventQueue (queues s));
        quantum ← call (Eq_getQuantumCount q);
        let eventQueueSize := to_size quantum in
        mret (PwWrite numWakeupEvents eventQueueSize
                (Z.min (zlen pendingWriteEvents) eventQueueSize))
  | PwWrite numWakeupEvents eventQueueSize numToWrite =>
      '(pendingWriteEvents, _) ← front;
      q ← deref (mEventQueue (queues s));
      ok ← call (Eq_writeBlocking q (ztake numToWrite pendingWriteEvents)
                   kPendingWriteTimeoutNs (mEventQueueFlag (queues s)));
      mret (if ok : bool then PwFinish eventQueueSize numToWrite
            else PwDrop numWakeupEvents eventQueueSize numToWrite)
  | PwDrop numWakeupEvents eventQueueSize numToWrite =>
      '(pendingWriteEvents, _) ← front;
      (if bool_decide (0 < numWakeupEvents) then
         if bool_decide (eventQueueSize < zlen pendingWriteEvents) then
           n ← countNumWakeupEvents pendingWriteEvents eventQueueSize;
           decrementRefCountAndMaybeReleaseWakelock n (-1)
         else decrementRefCountAndMaybeReleaseWakelock numWakeupEvents (-1)
       else mret ()) ;;
      mret (PwFinish eventQueueSize numToWrite)
  | PwFinish eventQueueSize numToWrite =>
      '(pendingWriteEvents, numWakeupEvents) ← front;
      modify_pending (λ p, set_mSizePendingWriteEventsQueue
        (to_size (mSizePendingWriteEventsQueue p - numToWrite)) p) ;;
      modify_pending (λ p, set_mPendingWriteEventsQueue
        (if bool_decide (eventQueueSize < zlen pendingWriteEvents)
         then set_front (zdrop eventQueueSize pendingWriteEvents, numWakeupEvents)
                (mPendingWriteEventsQueue p)
         else tail (mPendingWriteEventsQueue p)) p) ;;
      mret PwTop
  | PwDone => mret PwDone
  end.

(** [n] sections of the thread, undisturbed. *)
Definition run_writer (n : nat) (pc : pw_pc) : hal pw_pc := sections handlePendingWrites n pc.

Definition startPendingWritesThread : pw_pc → hal pw_pc := handlePendingWrites.
End queue.
