(* ===== verification/EventQueueFacts.v ===== *)
(** What the event queue guarantees: the pending queue is bounded and its
    counter exact, events reach the framework in order, once and unaltered,
    nothing is lost while there is room and writes succeed, and the thread
    drains the queue. *)
From S2P Require Import Prelude Effects SensorTypes HalProxyState Wakelock WakelockFacts EventQueue.
From stdpp Require Import options.
#[local] Set Default Proof Using "Type*".

Section facts.
Context {SubHal : Type} {W : Type} {H : Handler (halE SubHal) W}.
Context {SC : SensorConsts} {SL : SensorLaws}.
Implicit Types (s : HalProxy SubHal) (w : W) (l : list (entry (halE SubHal))).

(** * Abstract view *)

(** The events an answered call handed to the framework. *)
Definition delivered_by (e : entry (halE SubHal)) : list Event :=
  match e with
  | Entry c r =>
      match c in halE _ X return X → list Event with
      | Eq_write _ evs => λ ok : bool, if ok then evs else []
      | Eq_writeBlocking _ evs _ _ => λ ok : bool, if ok then evs else []
      | _ => λ _, []
      end r
  end.

Definition delivered (l : list (entry (halE SubHal))) : list Event := concat (delivered_by <$> l).

Definition write_failed (e : entry (halE SubHal)) : bool :=
  match e with
  | Entry c r =>
      match c in halE _ X return X → bool with
      | Eq_writeBlocking _ _ _ _ => negb
      | _ => λ _, false
      end r
  end.

Definition no_failed_write (l : list (entry (halE SubHal))) : Prop :=
  Forall (λ e, write_failed e = false) l.

Definition queued s : list Event := concat (mPendingWriteEventsQueue (pending s)).*1.
Definition queue_size s : Z := mSizePendingWriteEventsQueue (pending s).
Definition most_seen s : Z := mMostEventsObservedPendingWriteEventsQueue (pending s).

(** The events of the queue not yet offered to the framework. *)
Definition waiting (pc : pw_pc) s : list Event :=
  match pc with
  | PwDrop _ _ numToWrite | PwFinish _ numToWrite => zdrop numToWrite (queued s)
  | _ => queued s
  end.

(** * Invariant *)
Definition pc_ok (pc : pw_pc) s : Prop :=
  match pc with
  | PwWrite _ size n | PwDrop _ size n | PwFinish size n =>
      0 ≤ size ∧ ∃ batch rest, mPendingWriteEventsQueue (pending s) = batch :: rest ∧
        n = Z.min (zlen batch.1) size
  | _ => True
  end.

Record queue_ok (pc : pw_pc) (s : HalProxy SubHal) : Prop := {
  size_exact : queue_size s = zlen (queued s);
  size_bounded : queue_size s ≤ most_seen s ≤ kMaxSizePendingWriteEventsQueue;
  no_empty_batch : Forall (λ batch, batch.1 ≠ []) (mPendingWriteEventsQueue (pending s));
  thread_coherent : pc_ok pc s;
}.

(** What the pending queue is when its mutex is free. *)
Record tidy (p : Pending) : Prop := {
  tidy_size : mSizePendingWriteEventsQueue p = zlen (concat (mPendingWriteEventsQueue p).*1);
  tidy_bounds : mSizePendingWriteEventsQueue p ≤ mMostEventsObservedPendingWriteEventsQueue p
    ≤ kMaxSizePendingWriteEventsQueue;
  tidy_batches : Forall (λ b, b.1 ≠ []) (mPendingWriteEventsQueue p);
}.

(** The queue and its flag exist: [initializeCommon] has run. *)
Definition connected s : Prop :=
  is_Some (mEventQueue (queues s)) ∧ is_Some (mEventQueueFlag (queues s)).

Lemma delivered_app l1 l2 : delivered (l1 ++ l2) = delivered l1 ++ delivered l2.
Proof using Type. unfold delivered. by rewrite fmap_app, concat_app. Qed.

(** * Frames: what the wake lock's functions do not touch *)
Definition framed s s' l : Prop :=
  pending s' = pending s ∧ queues s' = queues s ∧ mThreadsRun s' = mThreadsRun s ∧
  delivered l = [] ∧ no_failed_write l.

Lemma increment_framed delta s w :
  wp (incrementRefCountAndMaybeAcquireWakelock delta) s w (λ _ s' _ l, framed s s' l).
Proof using Type.
  unfold incrementRefCountAndMaybeAcquireWakelock, increment_locked, modify_wakelock.
  wp_run; split_and!; try done; by repeat constructor.
Qed.

Lemma decrement_framed delta t s w :
  wp (decrementRefCountAndMaybeReleaseWakelock delta t) s w (λ _ s' _ l, framed s s' l).
Proof using Type.
  unfold decrementRefCountAndMaybeReleaseWakelock, decrement_locked, modify_wakelock.
  wp_run; split_and!; try done; by repeat constructor.
Qed.

Lemma count_loop_framed events idx n s w :
  Forall (λ i, (i < length events)%nat) idx →
  wp (count_loop events idx n) s w (λ _ s' _ l, framed s s' l).
Proof using Type.
  intros Hidx. revert n s w. induction Hidx as [|i idx Hi Hidx IH]; intros n s w; simpl.
  { apply wp_ret. by repeat constructor. }
  apply lookup_lt_is_Some in Hi as [e ->]. apply wp_bind, wp_ret, wp_bind.
  apply (wp_mono _ _ _ (λ _ s' _ l, framed s s' l)).
  { unfold wakes_up. wp_run; by repeat constructor. }
  intros wake s1 w1 l1 (P1 & Q1 & T1 & D1 & F1). eapply wp_mono; [apply IH|].
  intros n' s2 w2 l2 (P2 & Q2 & T2 & D2 & F2). cbn [app].
  split_and!; [congruence..| |].
  - by rewrite delivered_app, D1, D2.
  - by apply Forall_app.
Qed.

(** * Posting *)
Lemma write_now_spec events s w :
  connected s →
  wp (write_now events) s w (λ n s' _ l,
    s' = s ∧ 0 ≤ n ≤ zlen events ∧ delivered l = ztake n events ∧ no_failed_write l ∧
    (mPendingWriteEventsQueue (pending s) ≠ [] → n = 0)).
Proof using Type.
  intros [[q Hq] [f Hf]]. unfold write_now. apply wp_bind, wp_get.
  pose proof (zlen_nonneg events) as H0.
  case_bool_decide as Hempty; [|apply wp_ret; by repeat constructor].
  rewrite Hq. apply wp_bind, wp_ret, wp_bind, wp_call. intros available w1 _.
  pose proof (wrapu_range 64 available ltac:(done)) as [Ha _].
  case_bool_decide as Hpos.
  - apply wp_bind, wp_call. intros [] w2 _.
    + rewrite Hf. apply wp_bind, wp_ret, wp_bind, wp_call. intros [] w3 _. apply wp_ret.
      cbn. rewrite app_nil_r. split_and!; [done|lia|lia|done| |done].
      by repeat constructor.
    + apply wp_ret. cbn. split_and!; try done. by repeat constructor.
  - apply wp_ret. cbn. replace (Z.min _ _) with 0 by lia.
    split_and!; try done. by repeat constructor.
Qed.

(** A push adds what is left of the batch, or nothing. *)
Lemma push_pending_spec pc events numWakeupEvents n s w :
  queue_ok pc s → 0 ≤ n ≤ zlen events → zlen events < 2 ^ 63 →
  wp (push_pending events numWakeupEvents n) s w (λ _ s' _ l,
    queue_ok pc s' ∧ queues s' = queues s ∧ delivered l = [] ∧ no_failed_write l ∧
    ∃ rest, waiting pc s' = waiting pc s ++ rest ∧
      (rest = zdrop n events ∨
       rest = [] ∧ kMaxSizePendingWriteEventsQueue < queue_size s + zlen events)).
Proof.
  intros [Hsize Hbound Hne Hpc] Hn Hlen. unfold push_pending. apply wp_bind, wp_get.
  pose proof max_pending_range as Hmax. pose proof (zlen_nonneg (queued s)) as Hq0.
  fold (queue_size s).
  assert (to_size (queue_size s + (zlen events - n)) = queue_size s + (zlen events - n)) as Hadd.
  { apply wrapu_id. unfold in_uint. lia. }
  rewrite Hadd. case_bool_decide as Hleft; [case_bool_decide as Hfit|]; cbn [andb].
  - unfold modify_pending. wp_run.
    split_and!; [|done|done|by repeat constructor|].
    + assert (zdrop n events ≠ []) as Hdrop.
      { intros Hd. pose proof (zlen_zdrop n events Hn) as Hz. rewrite Hd in Hz.
        unfold zlen at 1 in Hz. simpl in Hz. lia. }
      split; unfold queue_size, queued, most_seen in *; simpl in *.
      * rewrite Hadd, fmap_app, concat_app, zlen_app, Hsize. simpl.
        rewrite app_nil_r, zlen_zdrop by done. done.
      * rewrite Hadd. lia.
      * apply Forall_app. split; [done|]. by repeat constructor.
      * destruct pc; try done; simpl in *; destruct Hpc as (? & batch & rest & -> & ->);
          (split; [done|]); by exists batch, (rest ++ [(zdrop n events, numWakeupEvents)]).
    + exists (zdrop n events). split; [|by left]. unfold waiting, queued in *. simpl in *.
      rewrite fmap_app, concat_app. simpl. rewrite app_nil_r.
      destruct pc; try done; simpl in *; destruct Hpc as (? & batch & rest & -> & ->);
        apply zdrop_app; simpl; rewrite zlen_app; pose proof (zlen_nonneg batch.1);
        match goal with |- context [zlen (concat ?x)] => pose proof (zlen_nonneg (concat x)) end;
        lia.
  - apply wp_ret. split_and!; [by split|done|done|by repeat constructor|].
    exists []. rewrite app_nil_r. split; [done|]. right. split; [done|lia].
  - apply wp_ret. split_and!; [by split|done|done|by repeat constructor|].
    exists []. rewrite app_nil_r. split; [done|]. left. rewrite zdrop_all; [done|lia].
Qed.

(** Posting a batch: the framework and the queue together get a prefix of it,
    all of it when it fits, behind what was there. *)
Lemma post_spec pc events numWakeupEvents locked s w :
  queue_ok pc s → connected s → zlen events < 2 ^ 63 →
  wp (postEventsToMessageQueue events numWakeupEvents locked) s w (λ _ s' _ l,
    queue_ok pc s' ∧ queues s' = queues s ∧ no_failed_write l ∧
    ∃ added, delivered l ++ waiting pc s' = waiting pc s ++ added ∧
      added `prefix_of` events ∧
      (queue_size s + zlen events ≤ kMaxSizePendingWriteEventsQueue → added = events)).
Proof.
  intros Hok Hconn Hlen. unfold postEventsToMessageQueue. apply wp_bind.
  apply (wp_mono _ _ _ (λ _ s' _ l, framed s s' l)).
  { destruct locked; [|apply wp_ret; by repeat constructor].
    apply wp_bind. eapply wp_mono; [apply increment_framed|]. intros r s1 w1 l1 Hf.
    apply wp_ret. by rewrite app_nil_r. }
  intros [] s1 w1 l1 (P1 & Q1 & T1 & D1 & F1).
  assert (queue_ok pc s1) as Hok1.
  { destruct Hok as [X1 X2 X3 X4]. unfold queue_size, queued, most_seen in *.
    split; unfold queue_size, queued, most_seen in *; rewrite ?P1; try done.
    destruct pc; try done; simpl in *; by rewrite P1. }
  assert (connected s1) as Hconn1 by (unfold connected in *; by rewrite Q1).
  assert (waiting pc s1 = waiting pc s) as Hw1 by (unfold waiting, queued; by rewrite P1).
  assert (queue_size s1 = queue_size s) as Hs1 by (unfold queue_size; by rewrite P1).
  apply wp_bind. eapply wp_mono; [by apply write_now_spec|].
  intros n s2 w2 l2 (-> & Hn & D2 & F2 & Hn0).
  eapply wp_mono; [by apply push_pending_spec|].
  intros [] s3 w3 l3 (Hok3 & Q3 & D3 & F3 & rest & Hrest & Hcase).
  rewrite !delivered_app, D1, D2, D3, app_nil_r. cbn [app]. rewrite Hrest, Hw1.
  split_and!; [done|congruence|by repeat apply Forall_app_2|].
  exists (ztake n events ++ rest).
  assert (ztake n events ++ waiting pc s = waiting pc s ++ ztake n events) as Hcomm.
  { destruct (decide (mPendingWriteEventsQueue (pending s1) = [])) as [He|He].
    - rewrite <- Hw1. unfold waiting, queued. rewrite He. simpl.
      destruct pc; simpl; rewrite ?app_nil_r; try done;
        unfold zdrop; rewrite drop_nil; by rewrite app_nil_r.
    - rewrite Hn0 by done. unfold ztake. simpl. by rewrite app_nil_r. }
  split_and!.
  - by rewrite !app_assoc, Hcomm.
  - destruct Hcase as [->|[-> _]]; [by rewrite ztake_zdrop|].
    rewrite app_nil_r. exists (zdrop n events). by rewrite ztake_zdrop.
  - intros Hfit. destruct Hcase as [->|[_ Hover]]; [by rewrite ztake_zdrop|lia].
Qed.

(** * The thread *)
Lemma wp_front batch rest s w Q :
  mPendingWriteEventsQueue (pending s) = batch :: rest → Q batch s w [] →
  wp front s w Q.
Proof using Type. intros Hp HQ. apply wp_bind, wp_get. by rewrite Hp. Qed.

Lemma queued_cons batch rest s :
  mPendingWriteEventsQueue (pending s) = batch :: rest →
  queued s = batch.1 ++ concat rest.*1.
Proof using Type. unfold queued. by intros ->. Qed.

Lemma queue_ok_frame pc pc' s s' :
  pending s' = pending s → pc_ok pc' s' → queue_ok pc s → queue_ok pc' s'.
Proof using Type.
  intros Hp Hpc [X1 X2 X3 _].
  split; unfold queue_size, queued, most_seen in *; by rewrite ?Hp.
Qed.

Lemma waiting_frame pc s s' : pending s' = pending s → waiting pc s' = waiting pc s.
Proof using Type. unfold waiting, queued. by intros ->. Qed.

(** What a section hands over is what it takes from the queue. *)
Definition consumes (pc : pw_pc) s (pc' : pw_pc) s' l : Prop :=
  sublist (delivered l ++ waiting pc' s') (waiting pc s) ∧
  (no_failed_write l → delivered l ++ waiting pc' s' = waiting pc s).

Lemma consumes_eq pc s pc' s' l :
  delivered l ++ waiting pc' s' = waiting pc s → consumes pc s pc' s' l.
Proof using Type. intros Heq. split; [by rewrite Heq|done]. Qed.

Lemma front_bounds {A} (batch : list A) (rest : list A) size n :
  0 ≤ size → n = Z.min (zlen batch) size → 0 ≤ n ≤ zlen batch ∧ n ≤ zlen (batch ++ rest).
Proof using Type.
  intros ? ->. rewrite zlen_app. pose proof (zlen_nonneg batch).
  pose proof (zlen_nonneg rest). lia.
Qed.

Lemma write_section nw size n s w :
  queue_ok (PwWrite nw size n) s → connected s →
  wp (handlePendingWrites (PwWrite nw size n)) s w (λ pc' s' _ l,
    queue_ok pc' s' ∧ queues s' = queues s ∧ consumes (PwWrite nw size n) s pc' s' l).
Proof using Type.
  intros Hok [[q Hq] _]. pose proof (thread_coherent _ _ Hok) as (Hsz & batch & rest & Hp & Hn).
  apply wp_bind, wp_get, wp_bind. eapply wp_front; [done|]. rewrite Hq.
  destruct batch as [events nw0]. apply wp_bind, wp_ret, wp_bind, wp_call. intros ok w1 _.
  apply wp_ret. simpl in Hn. pose proof (queued_cons _ _ _ Hp) as Hqd. simpl in Hqd.
  destruct (front_bounds events (concat rest.*1) size n Hsz Hn) as [Hb1 Hb2].
  destruct ok; (split_and!; [|done|]).
  - eapply queue_ok_frame; [done| |exact Hok]. split; [done|]. by exists (events, nw0), rest.
  - apply consumes_eq. cbn. rewrite app_nil_r, Hqd, zdrop_app by done.
    by rewrite app_assoc, ztake_zdrop.
  - eapply queue_ok_frame; [done| |exact Hok]. split; [done|]. by exists (events, nw0), rest.
  - split; [cbn; apply sublist_drop|]. intros Hf. cbn in Hf. by apply Forall_cons in Hf as [].
Qed.

Lemma drop_section nw size n s w :
  queue_ok (PwDrop nw size n) s →
  wp (handlePendingWrites (PwDrop nw size n)) s w (λ pc' s' _ l,
    pc' = PwFinish size n ∧ queue_ok pc' s' ∧ queues s' = queues s ∧
    mThreadsRun s' = mThreadsRun s ∧ queued s' = queued s ∧ consumes (PwDrop nw size n) s pc' s' l).
Proof using Type.
  intros Hok. pose proof (thread_coherent _ _ Hok) as (Hsz & batch & rest & Hp & Hn).
  apply wp_bind, wp_get, wp_bind. eapply wp_front; [done|].
  destruct batch as [events nw0]. apply wp_bind.
  apply (wp_mono _ _ _ (λ _ s' _ l, framed s s' l)).
  { case_bool_decide; [|apply wp_ret; by repeat constructor].
    case_bool_decide as Hlong; [|apply decrement_framed].
    apply wp_bind. eapply wp_mono.
    - unfold countNumWakeupEvents. apply count_loop_framed, Forall_seq. intros j Hj.
      unfold zlen in Hlong. lia.
    - intros k s1 w1 l1 (P1 & Q1 & T1 & D1 & F1). eapply wp_mono; [apply decrement_framed|].
      intros [] s2 w2 l2 (P2 & Q2 & T2 & D2 & F2). split_and!; [congruence..| |].
      + by rewrite delivered_app, D1, D2.
      + by apply Forall_app_2. }
  intros [] s1 w1 l1 (P1 & Q1 & T1 & D1 & F1). apply wp_ret. cbn [app]. rewrite app_nil_r.
  split_and!; [done| |done|done|by unfold queued; rewrite P1|].
  - eapply queue_ok_frame; [exact P1| |exact Hok]. split; [done|].
    exists (events, nw0), rest. by rewrite P1.
  - apply consumes_eq. rewrite D1. cbn [app]. by apply (waiting_frame (PwFinish size n)).
Qed.

Lemma finish_section size n s w :
  queue_ok (PwFinish size n) s →
  wp (handlePendingWrites (PwFinish size n)) s w (λ pc' s' _ l,
    pc' = PwTop ∧ queue_ok pc' s' ∧ queues s' = queues s ∧ mThreadsRun s' = mThreadsRun s ∧
    consumes (PwFinish size n) s pc' s' l ∧
    zlen (queued s') = zlen (queued s) - n).
Proof.
  intros Hok. pose proof (thread_coherent _ _ Hok) as (Hsz & [events nw] & rest & Hp & Hn).
  simpl in Hn. pose proof (queued_cons _ _ _ Hp) as Hqd. simpl in Hqd.
  destruct (front_bounds events (concat rest.*1) size n Hsz Hn) as [Hb1 Hb2].
  destruct Hok as [X1 X2 X3 _]. pose proof max_pending_range as Hmax.
  apply wp_bind, wp_get, wp_bind. eapply wp_front; [done|].
  unfold modify_pending. apply wp_bind, wp_modify, wp_bind, wp_modify, wp_ret.
  match goal with |- context [set_pending ?p (set_pending ?p0 s)] =>
    set (s' := set_pending p (set_pending p0 s)) end.
  assert (queued s' = zdrop n (queued s)) as Hqd'.
  { rewrite Hqd, zdrop_app by done. unfold queued. subst s'. simpl. rewrite Hp.
    case_bool_decide; simpl.
    - by rewrite (Z.min_r (zlen events)) in Hn by lia; subst.
    - rewrite zdrop_all by lia. done. }
  assert (queue_size s' = queue_size s - n) as Hsize'.
  { apply wrapu_id. fold (queue_size s). rewrite X1, Hqd. rewrite X1, Hqd in X2.
    unfold in_uint. lia. }
  assert (zlen (queued s') = zlen (queued s) - n) as Hlen'.
  { rewrite Hqd', zlen_zdrop; [done|]. rewrite Hqd. lia. }
  split_and!; try done; [|by apply consumes_eq].
  split; [by rewrite Hsize', Hlen', X1| |..].
  - rewrite Hsize'. change (most_seen s') with (most_seen s). lia.
  - subst s'. simpl. rewrite Hp in *. apply Forall_cons in X3 as [_ X3].
    case_bool_decide as Hlong; [|done]. constructor; [|done]. simpl. intros Hnil.
    pose proof (zlen_zdrop size events ltac:(lia)) as Hz. rewrite Hnil in Hz.
    unfold zlen at 1 in Hz. simpl in Hz. lia.
  - done.
Qed.

Lemma thread_spec pc s w :
  queue_ok pc s → connected s →
  wp (handlePendingWrites pc) s w (λ pc' s' _ l,
    queue_ok pc' s' ∧ queues s' = queues s ∧ consumes pc s pc' s' l).
Proof.
  intros Hok Hconn. destruct pc as [| |nw size n|nw size n|size n|].
  - apply wp_bind, wp_get, wp_ret. split_and!; [|done|apply consumes_eq; by destruct (mThreadsRun s)].
    eapply queue_ok_frame; [done| |exact Hok]. by destruct (mThreadsRun s).
  - apply wp_bind, wp_get.
    destruct (mPendingWriteEventsQueue (pending s)) as [|[events nw] rest] eqn:Hp;
      [rewrite (bool_decide_true ([] = [])) by done|rewrite (bool_decide_false (_ :: _ = [])) by done];
      cbn [negb orb].
    + destruct (mThreadsRun s); cbn [negb]; apply wp_ret;
        (split_and!; [|done|by apply consumes_eq]);
        by (eapply queue_ok_frame; [done| |exact Hok]).
    + destruct (mThreadsRun s); cbn [negb].
      * apply wp_bind. eapply wp_front; [done|]. destruct Hconn as [[q Hq] _]. rewrite Hq.
        apply wp_bind, wp_ret, wp_bind, wp_call. intros x w1 _. apply wp_ret.
        split_and!; [|done|by apply consumes_eq].
        eapply queue_ok_frame; [done| |exact Hok]. split; [apply wrapu_range; lia|].
        by exists (events, nw), rest.
      * apply wp_ret. split_and!; [|done|by apply consumes_eq].
        by (eapply queue_ok_frame; [done| |exact Hok]).
  - by apply write_section.
  - eapply wp_mono; [by apply drop_section|]. by intros ???? (? & ? & ? & ? & ? & ?).
  - eapply wp_mono; [by apply finish_section|]. by intros ???? (? & ? & ? & ? & ? & ?).
  - apply wp_bind, wp_get, wp_ret. split_and!; [done|done|by apply consumes_eq].
Qed.

(** * All interleavings

    A run, seen from the queue: any thread posts a batch (for which [allowed]
    holds), the pending-writes thread does a section, or anything else happens
    that leaves the pending queue and the message queues in place ([mThreadsRun],
    the sensors and the wake lock may change).  The ghost [q_posted] is all
    that was posted, in order. *)
Record q_sys := QSys {
  q_proxy : HalProxy SubHal;
  q_world : W;
  q_thread : pw_pc;
  q_log : list (entry (halE SubHal));
  q_posted : list Event;
}.

Inductive q_step (allowed : HalProxy SubHal → list Event → Prop) : q_sys → q_sys → Prop :=
| q_post events n locked s w pc l posted s' w' l' :
    zlen events < 2 ^ 63 → allowed s events →
    run (postEventsToMessageQueue events n locked) s w = Exec (Done ((), s')) w' l' →
    q_step allowed (QSys s w pc l posted) (QSys s' w' pc (l ++ l') (posted ++ events))
| q_section s w pc l posted pc' s' w' l' :
    run (handlePendingWrites pc) s w = Exec (Done (pc', s')) w' l' →
    q_step allowed (QSys s w pc l posted) (QSys s' w' pc' (l ++ l') posted)
| q_other s w pc l posted s' w' :
    pending s' = pending s → queues s' = queues s →
    q_step allowed (QSys s w pc l posted) (QSys s' w' pc l posted).

(** The pending queue is empty, the thread before its loop. *)
Definition q_start (x : q_sys) : Prop :=
  connected (q_proxy x) ∧ q_thread x = PwTop ∧ q_log x = [] ∧ q_posted x = [] ∧
  mPendingWriteEventsQueue (pending (q_proxy x)) = [] ∧ queue_size (q_proxy x) = 0 ∧
  0 ≤ most_seen (q_proxy x) ≤ kMaxSizePendingWriteEventsQueue.

Definition with_framework_or_waiting (x : q_sys) : list Event :=
  delivered (q_log x) ++ waiting (q_thread x) (q_proxy x).

Record q_inv (x : q_sys) : Prop := {
  inv_ok : queue_ok (q_thread x) (q_proxy x);
  inv_connected : connected (q_proxy x);
  inv_order : sublist (with_framework_or_waiting x) (q_posted x);
}.

Lemma q_start_inv x : q_start x → q_inv x ∧ with_framework_or_waiting x = q_posted x.
Proof using Type.
  destruct x as [s w pc l posted]. unfold q_start, with_framework_or_waiting. simpl.
  intros (Hc & -> & -> & -> & Hp & Hs & Hm).
  assert (queued s = []) as Hq by (unfold queued; by rewrite Hp).
  split; [|exact Hq]. split; [|done|].
  - split; simpl; [by rewrite Hs, Hq|by rewrite Hs|by rewrite Hp|done].
  - unfold with_framework_or_waiting. cbn. by rewrite Hq.
Qed.

Lemma q_step_inv allowed x y :
  q_step allowed x y → q_inv x →
  q_inv y ∧
  ((∀ s events, allowed s events →
      queue_size s + zlen events ≤ kMaxSizePendingWriteEventsQueue) →
   no_failed_write (q_log y) →
   with_framework_or_waiting x = q_posted x → with_framework_or_waiting y = q_posted y).
Proof.
  destruct 1 as [events n locked s w pc l posted s' w' l' Hlen Hal Hrun|
    s w pc l posted pc' s' w' l' Hrun|s w pc l posted s' w' Hp Hq];
    intros [Hok Hc Hord]; unfold with_framework_or_waiting in *; simpl in *.
  - pose proof (post_spec pc events n locked s w Hok Hc Hlen) as Hpost.
    unfold wp in Hpost. rewrite Hrun in Hpost.
    destruct Hpost as (Hok' & Hqs & Hf & added & Heq & Hpre & Hfull).
    rewrite delivered_app, <- app_assoc, Heq, app_assoc.
    assert (connected s') as Hc' by (unfold connected in *; by rewrite Hqs).
    split.
    + split; simpl; [done|done|]. unfold with_framework_or_waiting. simpl.
      rewrite delivered_app, <- app_assoc, Heq, app_assoc.
      apply sublist_app; [done|]. destruct Hpre as [k ->]. by apply sublist_inserts_r.
    + intros Hfits Hnf ->. f_equal. apply Hfull. by apply Hfits.
  - pose proof (thread_spec pc s w Hok Hc) as Hth. unfold wp in Hth. rewrite Hrun in Hth.
    destruct Hth as (Hok' & Hqs & Hsub & Heq).
    assert (connected s') as Hc' by (unfold connected in *; by rewrite Hqs).
    split.
    + split; simpl; [done|done|]. unfold with_framework_or_waiting. simpl.
      rewrite delivered_app, <- app_assoc. etransitivity; [|exact Hord].
      by apply sublist_app.
    + intros Hfits Hnf Hx. apply Forall_app in Hnf as [_ Hnf].
      by rewrite delivered_app, <- app_assoc, (Heq Hnf).
  - assert (connected s') as Hc' by (unfold connected in *; by rewrite Hq).
    pose proof (waiting_frame pc s s' Hp) as Hw. split.
    + split; simpl; [|done|unfold with_framework_or_waiting; simpl; by rewrite Hw].
      eapply queue_ok_frame; [done| |exact Hok]. pose proof (thread_coherent _ _ Hok) as Hpc.
      destruct pc; try done; simpl in *; by rewrite Hp.
    + by rewrite Hw.
Qed.

Lemma q_steps_inv allowed x y :
  rtc (q_step allowed) x y → q_inv x → q_inv y.
Proof. induction 1 as [|x z y Hstep _ IH]; [done|]. intros Hx. apply IH. by eapply q_step_inv. Qed.

(** The pending queue is bounded and its counter exact in every run: the
    counter is the number of queued events, at most the maximum, at most the
    maximum ever observed, and no batch is empty; and no post and no section
    of the thread meets undefined behaviour (no front of an empty queue, no
    index past the end of a batch). *)
Theorem pending_queue_bounded allowed x y :
  q_start x → rtc (q_step allowed) x y →
  queue_size (q_proxy y) = zlen (queued (q_proxy y)) ∧
  queue_size (q_proxy y) ≤ most_seen (q_proxy y) ≤ kMaxSizePendingWriteEventsQueue ∧
  Forall (λ batch, batch.1 ≠ []) (mPendingWriteEventsQueue (pending (q_proxy y))) ∧
  wp (handlePendingWrites (q_thread y)) (q_proxy y) (q_world y) (λ _ _ _ _, True) ∧
  ∀ events n locked, zlen events < 2 ^ 63 →
    wp (postEventsToMessageQueue events n locked) (q_proxy y) (q_world y) (λ _ _ _ _, True).
Proof.
  intros [Hx _]%q_start_inv Hsteps. apply q_steps_inv in Hsteps as [Hok Hc _]; [|done].
  pose proof Hok as [X1 X2 X3 _]. split; [done|]. split; [done|]. split; [done|]. split.
  - eapply wp_mono; [by apply thread_spec|done].
  - intros events n locked Hlen. eapply wp_mono; [by apply post_spec|done].
Qed.

(** In order, once, unaltered: in every run, what the framework was handed
    followed by what still waits is a subsequence of what was posted. *)
Theorem events_in_order allowed x y :
  q_start x → rtc (q_step allowed) x y →
  sublist (delivered (q_log y) ++ waiting (q_thread y) (q_proxy y)) (q_posted y).
Proof. intros [Hx _]%q_start_inv Hsteps. by apply q_steps_inv in Hsteps as [_ _ ?]. Qed.

(** Nothing is lost while there is room and writes succeed: in a run in
    which every posted batch fits under the maximum and no blocking write
    fails, what was handed over followed by what waits is all that was
    posted. *)
Theorem events_lossless x y :
  q_start x →
  rtc (q_step (λ s events, queue_size s + zlen events ≤ kMaxSizePendingWriteEventsQueue)) x y →
  no_failed_write (q_log y) →
  delivered (q_log y) ++ waiting (q_thread y) (q_proxy y) = q_posted y.
Proof.
  intros [Hx Heq]%q_start_inv Hsteps. revert Hx Heq.
  induction Hsteps as [x|x z y Hstep Hsteps IH]; [done|]. intros Hx Heq Hnf.
  pose proof (q_step_inv _ _ _ Hstep Hx) as [Hz Hkeep].
  apply IH; [done| |done]. apply Hkeep; [done| |done].
  clear -Hsteps Hnf. induction Hsteps as [|x z y Hstep _ IH]; [done|].
  specialize (IH Hnf). destruct Hstep; simpl in *; try done; by apply Forall_app in IH as [].
Qed.

Lemma push_overflow events n numToWrite s w :
  queue_ok PwTop s → zlen events < 2 ^ 63 → 0 ≤ numToWrite →
  kMaxSizePendingWriteEventsQueue < queue_size s + (zlen events - numToWrite) →
  run (push_pending events n numToWrite) s w = Exec (Done ((), s)) w [].
Proof.
  intros [X1 X2 _ _] Hlen Hn Hover. pose proof max_pending_range.
  pose proof (zlen_nonneg (queued s)). unfold push_pending. rewrite run_get_bind.
  fold (queue_size s). rewrite wrapu_id by (unfold in_uint; lia).
  by rewrite (bool_decide_false (queue_size s + _ ≤ _)), andb_false_r by lia.
Qed.

(** A batch that does not fit, behind a queue that is not empty, is dropped
    whole: nothing is written and nothing is queued.  Its wake-up events are
    counted all the same, and stay counted. *)
Theorem overflow_dropped events n s w :
  queue_ok PwTop s → mPendingWriteEventsQueue (pending s) ≠ [] → connected s →
  mThreadsRun s = true → zlen events < 2 ^ 63 →
  in_uint 64 (refcount s) → 0 < n → refcount s + n < 2 ^ 64 →
  kMaxSizePendingWriteEventsQueue < queue_size s + zlen events →
  wp (postEventsToMessageQueue events n true) s w (λ _ s' _ l,
    pending s' = pending s ∧ delivered l = [] ∧ refcount s' = refcount s + n).
Proof.
  intros Hok Hne Hc Hrun Hlen Hr Hpos Hov Hover. unfold postEventsToMessageQueue.
  apply wp_bind, wp_bind.
  eapply wp_mono; [apply wp_and; [apply increment_framed|]|].
  { unfold incrementRefCountAndMaybeAcquireWakelock. apply wp_bind, wp_get. rewrite Hrun.
    apply wp_bind. eapply wp_mono; [by apply (increment_keeps n)|].
    intros t s1 w1 l1 [_ R1]. apply wp_ret.
    exact (R1 : (λ _ s1 (_ : W) _, refcount s1 = refcount s + n) (Some t) s1 w1 ([] ++ l1 ++ [])). }
  intros r s1 w1 l1 [(P1 & Q1 & T1 & D1 & F1) R1]. apply wp_ret, wp_bind.
  eapply wp_mono; [apply write_now_spec; unfold connected in *; by rewrite Q1|].
  intros n2 s2 w2 l2 (-> & _ & D2 & _ & Hn0). rewrite P1 in Hn0. rewrite (Hn0 Hne) in *.
  unfold wp. rewrite push_overflow; [|by eapply queue_ok_frame|done|done|].
  - rewrite !delivered_app, D1, D2. done.
  - unfold queue_size. rewrite P1. fold (queue_size s). lia.
Qed.

(** * The thread drains the queue *)
Section drain.
(** The capacity of the message queue is positive. *)
Hypothesis capacity_positive : ∀ q w x w',
  handle (E:=halE SubHal) (Eq_getQuantumCount q) w = (x, w') → 0 < x < 2 ^ 64.

Lemma consumes_trans pc s pc1 s1 pc2 s2 l1 l2 :
  consumes pc s pc1 s1 l1 → consumes pc1 s1 pc2 s2 l2 → consumes pc s pc2 s2 (l1 ++ l2).
Proof using Type.
  intros [S1 E1] [S2 E2]. split; rewrite delivered_app, <- app_assoc.
  - etransitivity; [|exact S1]. by apply sublist_app.
  - intros [F1 F2]%Forall_app. by rewrite (E2 F2), (E1 F1).
Qed.

Definition ready s : Prop :=
  queue_ok PwTop s ∧ connected s ∧ mThreadsRun s = true.

(** After the write, two or one sections finish the turn. *)
Lemma finish_turn size n s w :
  queue_ok (PwFinish size n) s → connected s → mThreadsRun s = true → 0 < n →
  wp (sections handlePendingWrites 1 (PwFinish size n)) s w (λ pc s' _ l,
    pc = PwTop ∧ ready s' ∧ zlen (queued s') < zlen (queued s) ∧
    consumes (PwFinish size n) s PwTop s' l).
Proof.
  intros Hok Hc Hrun Hn. apply wp_bind. eapply wp_mono; [by apply finish_section|].
  intros pc s' w' l (-> & Hok' & Hqs & Hr' & Hcons & Hlen). apply wp_ret. rewrite app_nil_r.
  split_and!; [done| |lia|done].
  split_and!; [done|unfold connected in *; by rewrite Hqs|congruence].
Qed.

Lemma writer_turn s w :
  ready s → mPendingWriteEventsQueue (pending s) ≠ [] →
  ∃ n, wp (run_writer n PwTop) s w (λ pc s' _ l,
    pc = PwTop ∧ ready s' ∧ zlen (queued s') < zlen (queued s) ∧ consumes PwTop s PwTop s' l).
Proof.
  intros (Hok & Hc & Hrun) Hne.
  destruct (mPendingWriteEventsQueue (pending s)) as [|[events nw] rest] eqn:Hp; [done|].
  assert (0 < zlen events) as Hev.
  { apply zlen_pos. pose proof (no_empty_batch _ _ Hok) as Hb. rewrite Hp in Hb.
    by apply Forall_cons in Hb as [? _]. }
  pose proof Hc as [[q Hq] _]. unfold run_writer.
  destruct (handle (Eq_getQuantumCount q) w) as [x w1] eqn:Hx.
  pose proof (capacity_positive _ _ _ _ Hx) as Hcap.
  set (size := to_size x). assert (0 < size) as Hsize by (unfold size; rewrite wrapu_id; unfold in_uint; lia).
  set (n := Z.min (zlen events) size).
  assert (queue_ok (PwWrite nw size n) s) as Hok1.
  { eapply queue_ok_frame; [done| |exact Hok]. split; [lia|]. by exists (events, nw), rest. }
  assert (∀ m (Q : pw_pc → HalProxy SubHal → W → list (entry (halE SubHal)) → Prop),
    wp (sections handlePendingWrites m (PwWrite nw size n)) s w1 (λ pc s' w' l,
      Q pc s' w' (Entry (Eq_getQuantumCount q) x :: l)) →
    wp (sections handlePendingWrites (2 + m) PwTop) s w Q) as Htop.
  { intros m Q HQ. cbn [sections Nat.add]. apply wp_bind, wp_bind, wp_get. rewrite Hrun.
    apply wp_ret, wp_bind, wp_bind, wp_get. rewrite Hp, bool_decide_false by done.
    cbn [negb orb]. rewrite Hrun. cbn [negb]. apply wp_bind. eapply wp_front; [done|].
    rewrite Hq. apply wp_bind, wp_ret, wp_bind, wp_call. rewrite Hx. intros ?? [= <- <-].
    apply wp_ret. cbn [app]. exact HQ. }
  pose proof (write_section nw size n s w1 Hok1 Hc) as Hw. unfold wp in Hw.
  destruct (run (handlePendingWrites (PwWrite nw size n)) s w1) as [[[pc2 s2]|] w2 l2] eqn:Hwrun;
    [|done].
  destruct Hw as (Hok2 & Hqs2 & Hc2).
  assert (connected s2) as Hconn2 by (unfold connected in *; by rewrite Hqs2).
  assert (s2 = s ∧ (pc2 = PwDrop nw size n ∨ pc2 = PwFinish size n)) as [-> Hpc2].
  { apply (wp_run (handlePendingWrites (PwWrite nw size n)) s w1 _ _ _ _ (λ pc' s' _ _,
      s' = s ∧ (pc' = PwDrop nw size n ∨ pc' = PwFinish size n))) in Hwrun; [done|].
    apply wp_bind, wp_get, wp_bind. eapply wp_front; [done|]. rewrite Hq.
    apply wp_bind, wp_ret, wp_bind, wp_call. intros [] ? _; apply wp_ret; auto. }
  assert (0 < n) as Hn by lia.
  destruct Hpc2 as [-> | ->].
  - exists (2 + (1 + (1 + 1)))%nat. apply Htop. apply wp_sections_app.
    cbn [sections]. apply wp_bind. unfold wp at 1. rewrite Hwrun. apply wp_ret.
    apply wp_sections_app. cbn [sections]. apply wp_bind.
    eapply wp_mono; [by apply drop_section|].
    intros pc3 s3 w3 l3 (-> & Hok3 & Hqs3 & Hrun3 & Hqd3 & Hc3). apply wp_ret.
    eapply wp_mono; [apply finish_turn; [done|unfold connected in *; by rewrite Hqs3|congruence|done]|].
    intros pc4 s4 w4 l4 (-> & Hready & Hlt & Hc4). rewrite !app_nil_r.
    rewrite Hqd3 in Hlt.
    split_and!; [done|done|lia|].
    apply (consumes_trans PwTop s PwTop s PwTop s4 [_]); [by apply consumes_eq|].
    apply (consumes_trans _ _ _ _ _ _ _ _ Hc2). by apply (consumes_trans _ _ _ _ _ _ _ _ Hc3).
  - exists (2 + (1 + 1))%nat. apply Htop. apply wp_sections_app.
    cbn [sections]. apply wp_bind. unfold wp at 1. rewrite Hwrun. apply wp_ret.
    eapply wp_mono; [by apply finish_turn|].
    intros pc4 s4 w4 l4 (-> & Hready & Hlt & Hc4). rewrite !app_nil_r.
    split_and!; [done|done|lia|].
    apply (consumes_trans PwTop s PwTop s PwTop s4 [_]); [by apply consumes_eq|].
    by apply (consumes_trans _ _ _ _ _ _ _ _ Hc2).
Qed.
(** C11: the thread drains the queue: left alone while it runs, it empties the
    queue after finitely many sections, whether the writes succeed or time out;
    if they succeed, the framework gets exactly the queued events, in order. *)
Theorem writer_drains s w :
  ready s →
  ∃ n, wp (run_writer n PwTop) s w (λ pc s' _ l,
    pc = PwTop ∧ queued s' = [] ∧ queue_size s' = 0 ∧
    (no_failed_write l → delivered l = queued s)).
Proof.
  intros Hs. remember (length (queued s)) as k eqn:Hk. revert s w Hs Hk.
  induction k as [k IH] using lt_wf_ind. intros s w Hs Hk.
  destruct (decide (mPendingWriteEventsQueue (pending s) = [])) as [He|He].
  { exists 0%nat. apply wp_ret. destruct Hs as [Hok _].
    assert (queued s = []) as Hq by (unfold queued; by rewrite He).
    split_and!; [done|done|by rewrite (size_exact _ _ Hok), Hq|by rewrite Hq]. }
  destruct (writer_turn s w Hs He) as [n Hturn]. unfold run_writer in *.
  unfold wp in Hturn. destruct (run (sections handlePendingWrites n PwTop) s w)
    as [[[pc s1]|] w1 l1] eqn:Hrun; [|done].
  destruct Hturn as (-> & Hs1 & Hlt & _ & Heq).
  destruct (IH (length (queued s1)) ltac:(unfold zlen in Hlt; lia) s1 w1 Hs1 eq_refl) as [m Hm].
  exists (n + m)%nat. apply wp_sections_app. unfold wp at 1. rewrite Hrun.
  eapply wp_mono; [exact Hm|]. intros pc s2 w2 l2 (-> & Hq & Hz & Hd). split_and!; [done..|].
  intros [F1 F2]%Forall_app. specialize (Heq F1). simpl in Heq.
  by rewrite delivered_app, (Hd F2).
Qed.
End drain.
End facts.

(** * Witnesses: message queues with room for two events *)
#[local] Existing Instance aosp_sensors.
#[local] Existing Instance aosp_sensors_laws.
#[local] Instance demo_env : Handler (halE nat) Z := simple_env (λ _, OK) (λ _, []) 2.

Definition demo_proxy : HalProxy nat :=
  MkHalProxy [0%nat] ∅ ∅ None None NORMAL (MkQueues (Some 1) (Some 2) (Some 3) (Some 4)) true (Some 1)
    (Some 2) (MkPending [] 0 0) (MkWakelock 0 0 0).
Definition demo_event (i : Z) : Event := MkEvent i 1 float_1 i.
Definition demo_batch : list Event := demo_event <$> [1; 2; 3].
Definition demo_start : q_sys := QSys demo_proxy 0 PwTop [] [].
Definition demo_allowed (s : HalProxy nat) (events : list Event) : Prop :=
  queue_size s + zlen events ≤ kMaxSizePendingWriteEventsQueue.

(** The proxy after a batch of three is posted: two are written, one waits. *)
Definition demo_posted : HalProxy nat :=
  set_pending (MkPending [([demo_event 3], 2)] 1 1)
    (set_wakelock (MkWakelock 2 0 0) demo_proxy).

Definition demo_log : list (entry (halE nat)) :=
  ex_log (run (postEventsToMessageQueue demo_batch 2 true) demo_proxy 0).

Definition demo_after : q_sys := QSys demo_posted 1 PwTop demo_log demo_batch.

Lemma demo_run : rtc (q_step demo_allowed) demo_start demo_after.
Proof.
  apply rtc_once. apply (q_post demo_allowed demo_batch 2 true demo_proxy 0 PwTop [] []);
    by vm_compute.
Defined.

Lemma demo_start_ok : q_start demo_start.
Proof. repeat split; first [by eexists|by vm_compute]. Defined.

Lemma pending_queue_bounded_witness :
  queue_size demo_posted = zlen (queued demo_posted) ∧ queue_size demo_posted = 1.
Proof.
  destruct (pending_queue_bounded demo_allowed demo_start demo_after demo_start_ok demo_run)
    as (Hsize & _).
  split; [exact Hsize|done].
Defined.

Lemma events_in_order_witness :
  sublist (delivered demo_log ++ [demo_event 3]) demo_batch.
Proof.
  pose proof (events_in_order demo_allowed demo_start demo_after demo_start_ok demo_run) as Hsub.
  exact Hsub.
Defined.

Lemma events_lossless_witness :
  delivered demo_log ++ [demo_event 3] = demo_batch ∧ length (delivered demo_log) = 2%nat.
Proof.
  split; [|by vm_compute].
  pose proof (events_lossless demo_start demo_after demo_start_ok demo_run) as Hall.
  apply Hall. repeat constructor.
Defined.

Lemma writer_drains_witness :
  ∃ n, wp (run_writer n PwTop) demo_posted 1 (λ pc s' _ l,
    pc = PwTop ∧ queued s' = [] ∧ queue_size s' = 0 ∧
    (no_failed_write l → delivered l = [demo_event 3])).
Proof.
  apply (writer_drains (H:=demo_env)).
  - intros q w x w' [= <- <-]. lia.
  - split; [|split; [by split; eexists|done]].
    split; [done|split; by vm_compute|by repeat constructor|done].
Defined.

Definition tight_consts : SensorConsts := {|
  WAKE_UP := 1; MASK_DIRECT_REPORT := 896; MASK_DIRECT_CHANNEL := 3072; PICK_UP_GESTURE := 25;
  ADDITIONAL_INFO := 33; SENSOR_STRING_TYPE_PICK_UP_GESTURE := "android.sensor.pick_up_gesture";
  kSensorHandleSubHalIndexMask := -16777216;
  kMaxSizePendingWriteEventsQueue := 3;
  kWakelockTimeoutNs := 1000000000; kPendingWriteTimeoutNs := 5000000000;
  SUB_HAL_2_0_VERSION := 2 * 2 ^ 24; SUB_HAL_2_1_VERSION := 2 * 2 ^ 24 + 2 ^ 16;
|}.

Lemma tight_laws : SensorLaws (sc := tight_consts).
Proof. by split; vm_compute. Qed.

Lemma overflow_dropped_witness :
  wp (postEventsToMessageQueue (SC:=tight_consts) demo_batch 2 true) demo_posted 1 (λ _ s' _ l,
    pending s' = pending demo_posted ∧ delivered l = [] ∧ refcount s' = 4).
Proof.
  apply (overflow_dropped (SC:=tight_consts) (SL:=tight_laws) demo_batch 2 demo_posted 1);
    try by vm_compute.
  - split; [done|split; by vm_compute|by repeat constructor|done].
  - by split; eexists.
Defined.

(** * A batch that was written in part keeps its full count

    Two wake-up events are posted with room for one: the first is written, the
    second waits with a count of two.  When its blocking write fails, both are
    taken off the reference count and the wake lock is released, although the
    framework has not yet acknowledged the first. *)
#[local] Instance narrow_env : Handler (halE nat) Z :=
  λ X c w,
    match c in halE _ X return X * Z with
    | Eq_availableToWrite _ => (1, w)
    | Eq_writeBlocking _ _ _ _ => (false, w)
    | c => demo_env _ c w
    end.

Definition two_wakeups : list Event := demo_event <$> [1; 2].

Lemma partial_write_overcounts :
  wp (postEventsToMessageQueue two_wakeups 2 true ;;
      _ ← run_writer 5 PwTop; mret ()) demo_proxy 0
    (λ _ s' _ l, delivered l = [demo_event 1] ∧ mWakelockRefCount (wakelock s') = 0 ∧
      wl_trace false l = Some false).
Proof. vm_compute. done. Qed.
