(* ===== verification/HalProxyInit.v ===== *)
(** The life of the sensors HAL proxy ([src/sensors/HalProxy.cpp]): loading the
    sub-HALs, construction, [initialize], stopping the threads, the debug dump.

    These functions run on one thread of the framework; the two worker threads
    are started and joined by calls to the environment.  What they do meanwhile
    is interleaved in [HalProxyThreads]. *)
From Stdlib Require Import Ascii.
From stdpp Require Import pretty.
From S2P Require Import Prelude Effects SensorTypes SensorHandle HalProxyState HalProxy.
From S2P Require Import Wakelock EventQueue.
From stdpp Require Import options.
#[local] Set Default Proof Using "Type*".

(** [operator>>] of a stream into a string: the words between white space. *)
Definition is_space (c : Ascii.ascii) : bool :=
  bool_decide (c ∈ [" "; "009"; "010"; "011"; "012"; "013"])%char.

Fixpoint words_from (word : string) (text : string) : list string :=
  match text with
  | "" => if bool_decide (word = "") then [] else [word]
  | String c text =>
      if is_space c then
        (if bool_decide (word = "") then [] else [word]) ++ words_from "" text
      else words_from (word +:+ String c "") text
  end.

Definition words : string → list string := words_from "".

Section init.
Context {SubHal : Type} {SubHal_eq : EqDecision SubHal}.
Context {SC : SensorConsts} {MO : MapOrder Z SensorInfo}.
(** The wrappers of the HIDL library around a raw sub-HAL, a queue descriptor
    and a callback. *)
Context (SubHalWrapperV2_0 SubHalWrapperV2_1 : Z → SubHal).
Context (EventMessageQueueWrapperV1_0 EventMessageQueueWrapperV2_1
  WakeLockMessageQueueWrapperHidl : Z → Z).
Context (ISensorsCallbackWrapperV2_0 ISensorsCallbackWrapperV2_1 : Z → Z).

#[local] Abbreviation hal A := (prog (halE SubHal) (HalProxy SubHal) A).

(** * Loading the sub-HALs *)
Definition kSubHalShareObjectLocations : list string :=
  [""; "/vendor/lib64/hw/"; "/odm/lib64/hw/"].

Definition getHandleForSubHalSharedObject (filename : string) : hal (option Z) :=
  foreach_until (λ dir, call (Dlopen (dir +:+ filename))) kSubHalShareObjectLocations.

Definition push_subHal (subHal : SubHal) : hal unit :=
  modify (λ s, set_mSubHalList (mSubHalList s ++ [subHal]) s).

Definition load_subHal (subHalLibraryFile : string) : hal unit :=
  handle ← getHandleForSubHalSharedObject subHalLibraryFile;
  match handle with
  | None => mret ()
  | Some handle =>
      sensorsHalGetSubHalPtr ← call (Dlsym handle "sensorsHalGetSubHal");
      match sensorsHalGetSubHalPtr with
      | Some sensorsHalGetSubHal =>
          '(subHal, version) ← call (CallFactory sensorsHalGetSubHal);
          if bool_decide (version ≠ SUB_HAL_2_0_VERSION) then mret ()
          else push_subHal (SubHalWrapperV2_0 subHal)
      | None =>
          getSubHalV2_1Ptr ← call (Dlsym handle "sensorsHalGetSubHal_2_1");
          match getSubHalV2_1Ptr with
          | None => mret ()
          | Some sensorsHalGetSubHal_2_1 =>
              '(subHal, version) ← call (CallFactory sensorsHalGetSubHal_2_1);
              if bool_decide (version ≠ SUB_HAL_2_1_VERSION) then mret ()
              else push_subHal (SubHalWrapperV2_1 subHal)
          end
      end
  end.

Definition initializeSubHalListFromConfigFile (configFileName : string) : hal unit :=
  subHalConfigStream ← call (ReadConfigFile configFileName);
  match subHalConfigStream with
  | None => mret ()
  | Some text => foreach load_subHal (words text)
  end.

(** * Constructors and destructor *)
Definition HalProxy_default : hal unit :=
  initializeSubHalListFromConfigFile "/vendor/etc/sensors/hals.conf" ;;
  init.

Definition HalProxy_2_0 (subHalList : list Z) : hal unit :=
  foreach (λ subHal, push_subHal (SubHalWrapperV2_0 subHal)) subHalList ;;
  init.

Definition HalProxy_2_1 (subHalList subHalListV2_1 : list Z) : hal unit :=
  foreach (λ subHal, push_subHal (SubHalWrapperV2_0 subHal)) subHalList ;;
  foreach (λ subHal, push_subHal (SubHalWrapperV2_1 subHal)) subHalListV2_1 ;;
  init.

Definition stopThreads : hal unit :=
  modify (set_mThreadsRun false) ;;
  s ← get;
  match mEventQueueFlag (queues s), mEventQueue (queues s) with
  | Some flag, Some q =>
      numToRead ← call (Eq_availableToRead q);
      _ ← call (Eq_read q numToRead);
      call (Flag_wake flag)
  | _, _ => mret ()
  end ;;
  match mWakelockQueueFlag (queues s), mWakeLockQueue (queues s) with
  | Some flag, Some q =>
      _ ← call (Wl_write q 0);
      call (Flag_wake flag)
  | _, _ => mret ()
  end ;;
  call NotifyWakelockCV ;;
  call NotifyEventQueueWriteCV ;;
  match mPendingWritesThread s with
  | Some t => call (JoinPendingWritesThread t) ;; modify (set_mPendingWritesThread None)
  | None => mret ()
  end ;;
  match mWakelockThread s with
  | Some t => call (JoinWakelockThread t) ;; modify (set_mWakelockThread None)
  | None => mret ()
  end.

Definition HalProxy_destructor : hal unit := stopThreads.

(** * Initialization *)
Definition modify_queues (f : Queues → Queues) : hal unit :=
  modify (λ s, set_queues (f (queues s)) s).

(** The flags of the two queues; [true] when both were created.  A null queue
    is dereferenced; [deleteEventFlag] sets the pointer to null. *)
Definition renew_flags : hal bool :=
  s ← get;
  match mEventQueueFlag (queues s) with
  | Some f => call (Flag_delete f) ;; modify_queues (set_mEventQueueFlag None)
  | None => mret ()
  end ;;
  match mWakelockQueueFlag (queues s) with
  | Some f => call (Flag_delete f) ;; modify_queues (set_mWakelockQueueFlag None)
  | None => mret ()
  end ;;
  q ← deref (mEventQueue (queues s));
  f1 ← call (Flag_create q);
  modify_queues (set_mEventQueueFlag f1) ;;
  q ← deref (mWakeLockQueue (queues s));
  f2 ← call (Flag_create q);
  modify_queues (set_mWakelockQueueFlag f2) ;;
  mret (bool_decide (is_Some f1) && bool_decide (is_Some f2)).

(** The loop that initializes the sub-HALs. *)
Fixpoint initialize_subHals (l : list SubHal) (i : nat) (result : Result) : hal Result :=
  match l with
  | [] => mret result
  | subHal :: l =>
      currRes ← call (Sub_initialize subHal (Z.of_nat i));
      if bool_decide (currRes ≠ OK) then mret currRes
      else initialize_subHals l (S i) result
  end.

(** [reset] is the reset of the shared wake lock. *)
Definition initializeCommon_with (reset : hal unit)
    (eventQueue wakeLockQueue sensorsCallback : option Z) : hal Result :=
  stopThreads ;;
  reset ;;
  disableAllSensors ;;
  modify_pending (set_mPendingWriteEventsQueue []) ;;
  modify_pending (set_mSizePendingWriteEventsQueue 0) ;;
  modify (set_mDynamicSensors ∅) ;;
  modify (set_mDynamicSensorsCallback sensorsCallback) ;;
  modify_queues (set_mEventQueue eventQueue) ;;
  modify_queues (set_mWakeLockQueue wakeLockQueue) ;;
  flags ← renew_flags;
  s ← get;
  let result :=
    if negb flags ||
       bool_decide (mDynamicSensorsCallback s = None) ||
       bool_decide (mEventQueue (queues s) = None) ||
       bool_decide (mWakeLockQueue (queues s) = None) ||
       bool_decide (mEventQueueFlag (queues s) = None)
    then BAD_VALUE else OK in
  modify (set_mThreadsRun true) ;;
  t ← call StartPendingWritesThread;
  modify (set_mPendingWritesThread (Some t)) ;;
  t ← call StartWakelockThread;
  modify (set_mWakelockThread (Some t)) ;;
  result ← initialize_subHals (mSubHalList s) 0 result;
  modify (set_mCurrentOperationMode NORMAL) ;;
  mret result.

Definition initializeCommon : option Z → option Z → option Z → hal Result :=
  initializeCommon_with resetSharedWakelock.

Definition initialize_2_1 (eventQueueDescriptor wakeLockDescriptor sensorsCallback : Z)
    : hal Result :=
  initializeCommon (Some (EventMessageQueueWrapperV2_1 eventQueueDescriptor))
    (Some (WakeLockMessageQueueWrapperHidl wakeLockDescriptor))
    (Some (ISensorsCallbackWrapperV2_1 sensorsCallback)).

Definition initialize (eventQueueDescriptor wakeLockDescriptor sensorsCallback : Z)
    : hal Result :=
  initializeCommon (Some (EventMessageQueueWrapperV1_0 eventQueueDescriptor))
    (Some (WakeLockMessageQueueWrapperHidl wakeLockDescriptor))
    (Some (ISensorsCallbackWrapperV2_0 sensorsCallback)).

(** * Debug dump *)
Definition endl : string := String "010" "".
Definition line (parts : list string) : string := String.concat "" parts +:+ endl.
Definition show_nat (n : nat) : string := pretty (Z.of_nat n).

Definition debug_values (now : Z) (s : HalProxy SubHal) : string :=
  String.concat ""
    [line ["===HalProxy==="];
     line ["Internal values:"];
     line ["  Threads are running: "; if mThreadsRun s then "true" else "false"];
     line ["  Wakelock timeout start time: ";
           pretty (msFromNs (now - mWakelockTimeoutStartTime (wakelock s))); " ms ago"];
     line ["  Wakelock timeout reset time: ";
           pretty (msFromNs (now - mWakelockTimeoutResetTime (wakelock s))); " ms ago"];
     line ["  Wakelock ref count: "; pretty (mWakelockRefCount (wakelock s))];
     line ["  # of events on pending write writes queue: ";
           pretty (mSizePendingWriteEventsQueue (pending s))];
     line [" Most events seen on pending write events queue: ";
           pretty (mMostEventsObservedPendingWriteEventsQueue (pending s))]].

(** The queue is tested, and then its front is read, without its mutex. *)
Definition debug_front : hal string :=
  s ← get;
  if bool_decide (mPendingWriteEventsQueue (pending s) = []) then mret ""
  else
    '(events, _) ← front;
    mret (line ["  Size of events list on front of pending writes queue: ";
                show_nat (length events)]).

Definition debug_sensors (s : HalProxy SubHal) : string :=
  String.concat ""
    [line ["  # of non-dynamic sensors across all subhals: "; show_nat (size (mSensors s))];
     line ["  # of dynamic sensors across all subhals: "; show_nat (size (mDynamicSensors s))];
     line ["SubHals ("; show_nat (length (mSubHalList s)); "):"]].

(** [stream] is what has been put in the stream and not yet written. *)
Fixpoint debug_subHals (fd writeFd : Z) (l : list SubHal) (stream : string) : hal string :=
  match l with
  | [] => mret stream
  | subHal :: l =>
      name ← call (Sub_getName subHal);
      let stream := stream +:+ line ["  Name: "; name] +:+ line ["  Debug dump: "] in
      _ ← call (WriteStringToFd stream writeFd);
      call (Sub_debug subHal fd) ;;
      debug_subHals fd writeFd l endl
  end.

(** [fds] is the handle's list of descriptors, [None] for a null handle. *)
Definition debug (fds : option (list Z)) : hal unit :=
  match fds with
  | None | Some [] => mret ()
  | Some (fd :: _) =>
      writeFd ← call (DupFd fd);
      now ← call GetTimeNow;
      s ← get;
      frontLine ← debug_front;
      s' ← get;
      stream ← debug_subHals fd writeFd (mSubHalList s')
        (debug_values now s +:+ frontLine +:+ debug_sensors s');
      _ ← call (WriteStringToFd stream writeFd);
      mret ()
  end.
End init.
