(* ===== verification/HalProxyInitFacts.v ===== *)
(** What construction and initialization of the sensors HAL proxy guarantee:
    the sub-HALs of the configuration file are loaded in order, each library on
    its own merits; and [initialize], from any state, leaves a proxy whose
    queues, threads and tables are fresh. *)
From S2P Require Import Prelude Effects CppString SensorTypes SensorHandle HalProxyState HalProxy.
From S2P Require Import Wakelock WakelockFacts EventQueue EventQueueFacts HalProxyInit.
From stdpp Require Import options.
#[local] Set Default Proof Using "Type*".

(** * Words of a stream *)

(** A word: not empty, and no white space. *)
Fixpoint no_space (s : string) : bool :=
  match s with "" => true | String c s => negb (is_space c) && no_space s end.

Definition is_word (s : string) : Prop := s ≠ "" ∧ no_space s = true.

(** A file with one word per line. *)
Fixpoint lines (ws : list string) : string :=
  match ws with [] => "" | w :: ws => w +:+ String "010" (lines ws) end.

Lemma words_from_word w acc text :
  no_space w = true → words_from acc (w +:+ text) = words_from (acc +:+ w) text.
Proof.
  revert acc. induction w as [|c w IH]; intros acc Hw.
  - by rewrite app_string_nil_l, app_string_nil_r.
  - simpl in Hw. apply andb_true_iff in Hw as [Hc Hw].
    rewrite app_string_cons. cbn [words_from].
    destruct (is_space c); [done|]. rewrite IH by done. f_equal.
    by rewrite <- app_string_assoc, app_string_cons, app_string_nil_l.
Qed.

Lemma words_lines ws : Forall is_word ws → words (lines ws) = ws.
Proof.
  unfold words. induction 1 as [|w ws [Hne Hw] _ IH]; [done|]. simpl.
  rewrite words_from_word by done. rewrite app_string_nil_l. cbn [words_from].
  rewrite bool_decide_false by done. cbn [is_space]. simpl. by rewrite IH.
Qed.

Section load.
Context {SubHal : Type} {SubHal_eq : EqDecision SubHal}.
Context {W : Type} {H : Handler (halE SubHal) W}.
Context {SC : SensorConsts} {MO : MapOrder Z SensorInfo}.
Context (SubHalWrapperV2_0 SubHalWrapperV2_1 : Z → SubHal).
Implicit Types (s : HalProxy SubHal) (w : W).

(** * Abstract specification of the dynamic linker

    Which paths open, which symbols a library has, what a factory answers. *)
Context (opens : string → option Z) (symbol : Z → string → option Z) (factory : Z → Z * Z).
Hypothesis linker_opens : ∀ path w,
  (handle (E:=halE SubHal) (Dlopen path) w).1 = opens path.
Hypothesis linker_symbol : ∀ lib sym w,
  (handle (E:=halE SubHal) (Dlsym lib sym) w).1 = symbol lib sym.
Hypothesis linker_factory : ∀ f w,
  (handle (E:=halE SubHal) (CallFactory f) w).1 = factory f.

(** The first location that has the library. *)
Definition locate (file : string) : option Z :=
  head (omap (λ dir, opens (dir +:+ file)) kSubHalShareObjectLocations).

(** The sub-HAL a library gives: its 2.0 factory decides when it has one, its
    2.1 factory otherwise, and the version must match. *)
Definition loaded (file : string) : option SubHal :=
  lib ← locate file;
  match symbol lib "sensorsHalGetSubHal" with
  | Some f =>
      let '(raw, version) := factory f in
      if bool_decide (version = SUB_HAL_2_0_VERSION) then Some (SubHalWrapperV2_0 raw) else None
  | None =>
      f ← symbol lib "sensorsHalGetSubHal_2_1";
      let '(raw, version) := factory f in
      if bool_decide (version = SUB_HAL_2_1_VERSION) then Some (SubHalWrapperV2_1 raw) else None
  end.

Lemma wp_answers {X} (c : halE SubHal X) x s w Q :
  (handle c w).1 = x → (∀ w', Q x s w' [Entry c x]) → wp (call c) s w Q.
Proof.
  intros Hx HQ. apply wp_call. intros y w' Hy. rewrite Hy in Hx. simpl in Hx. by subst.
Qed.

Lemma locate_spec file s w :
  wp (getHandleForSubHalSharedObject file) s w (λ r s' _ _, s' = s ∧ r = locate file).
Proof.
  unfold getHandleForSubHalSharedObject, locate, kSubHalShareObjectLocations.
  cbn [foreach_until omap list_omap].
  do 3 (apply wp_bind; eapply wp_answers; [apply linker_opens|intros ?w; cbv beta];
        destruct (opens _); [by apply wp_ret|]).
  by apply wp_ret.
Qed.

Lemma load_subHal_spec file s w :
  wp (load_subHal SubHalWrapperV2_0 SubHalWrapperV2_1 file) s w (λ _ s' _ _,
    s' = set_mSubHalList (mSubHalList s ++ option_list (loaded file)) s).
Proof.
  assert (s = set_mSubHalList (mSubHalList s ++ []) s) as Hs.
  { rewrite app_nil_r. by destruct s. }
  unfold load_subHal, loaded, push_subHal. apply wp_bind.
  eapply wp_mono; [apply locate_spec|]. intros lib s' w1 l1 [-> ->].
  destruct (locate file) as [lib|]; [rewrite Some_bind|by apply wp_ret].
  apply wp_bind. eapply wp_answers; [apply linker_symbol|]. intros w2.
  destruct (symbol lib "sensorsHalGetSubHal") as [f|].
  - apply wp_bind. eapply wp_answers; [apply linker_factory|]. intros w3.
    destruct (factory f) as [raw version]. cbn beta iota.
    repeat case_bool_decide; try done; by wp_run.
  - apply wp_bind. eapply wp_answers; [apply linker_symbol|]. intros w3.
    destruct (symbol lib "sensorsHalGetSubHal_2_1") as [f|]; [rewrite Some_bind|by apply wp_ret].
    apply wp_bind. eapply wp_answers; [apply linker_factory|]. intros w4.
    destruct (factory f) as [raw version]. cbn beta iota.
    repeat case_bool_decide; try done; by wp_run.
Qed.

(** C18: loading the sub-HALs: from a configuration file with one library per
    line, the proxy gets exactly the sub-HALs of the libraries that can be
    located, have a factory and report its version, in the order of the file;
    a bad library changes nothing for the others. *)
Theorem config_file_loads files path s w :
  (∀ w, (handle (E:=halE SubHal) (ReadConfigFile path) w).1 = Some (lines files)) →
  Forall is_word files →
  wp (initializeSubHalListFromConfigFile SubHalWrapperV2_0 SubHalWrapperV2_1 path) s w
    (λ _ s' _ _, s' = set_mSubHalList (mSubHalList s ++ omap loaded files) s).
Proof.
  intros Hread Hfiles. unfold initializeSubHalListFromConfigFile. apply wp_bind.
  eapply wp_answers; [apply Hread|]. intros w1. cbn beta iota. rewrite words_lines by done.
  apply (wp_foreach (λ pre s' _,
    s' = set_mSubHalList (mSubHalList s ++ omap loaded pre) s)).
  - rewrite app_nil_r. by destruct s.
  - intros pre file s' w' l' _ ->. eapply wp_mono; [apply load_subHal_spec|].
    intros [] s2 w2 l2 ->. simpl. rewrite omap_app, app_assoc. simpl.
    by destruct (loaded file).
Qed.
End load.

(** * Initialization *)
Section init.
Context {SubHal : Type} {SubHal_eq : EqDecision SubHal}.
Context {W : Type} {H : Handler (halE SubHal) W}.
Context {SC : SensorConsts} {MO : MapOrder Z SensorInfo}.
Implicit Types (s : HalProxy SubHal) (w : W).

(** The calls to the sub-HALs' [initialize], with their answers. *)
Definition init_call (e : entry (halE SubHal)) : option (SubHal * Z * Result) :=
  match e with
  | Entry c r =>
      match c in halE _ X return X → option (SubHal * Z * Result) with
      | Sub_initialize h i => λ r, Some (h, i, r)
      | _ => λ _, None
      end r
  end.

Definition init_calls (l : list (entry (halE SubHal))) : list (SubHal * Z * Result) :=
  omap init_call l.

(** Calls that neither touch the wake lock nor initialize a sub-HAL. *)
Definition quiet (l : list (entry (halE SubHal))) : Prop := untouched l ∧ init_calls l = [].

Lemma quiet_app l1 l2 : quiet l1 → quiet l2 → quiet (l1 ++ l2).
Proof.
  intros [U1 I1] [U2 I2]. split; [by apply untouched_app|].
  unfold init_calls in *. by rewrite omap_app, I1, I2.
Qed.

Lemma stopThreads_spec s w :
  wp stopThreads s w (λ _ s' _ l, quiet l ∧
    s' = set_mWakelockThread None (set_mPendingWritesThread None (set_mThreadsRun false s))).
Proof.
  unfold stopThreads. apply wp_bind, wp_modify, wp_bind, wp_get, wp_bind.
  set (s0 := set_mThreadsRun false s). cbn [app].
  apply (wp_mono _ _ _ (λ _ s' _ l, quiet l ∧ s' = s0)).
  { destruct (mEventQueueFlag (queues s0)), (mEventQueue (queues s0)); by wp_run. }
  intros [] s1 w1 l1 [Q1 ->]. apply wp_bind.
  apply (wp_mono _ _ _ (λ _ s' _ l, quiet l ∧ s' = s0)).
  { destruct (mWakelockQueueFlag (queues s0)), (mWakeLockQueue (queues s0)); by wp_run. }
  intros [] s2 w2 l2 [Q2 ->]. apply wp_bind, wp_call. intros [] w3 _.
  apply wp_bind, wp_call. intros [] w4 _. apply wp_bind.
  apply (wp_mono _ _ _ (λ _ s' _ l, quiet l ∧ s' = set_mPendingWritesThread None s0)).
  { destruct s as [? ? ? ? ? ? ? ? t1 t2 ? ?]. cbn. destruct t1; by wp_run. }
  intros [] s5 w5 l5 [Q5 ->].
  apply (wp_mono _ _ _ (λ _ s' _ l, quiet l ∧
    s' = set_mWakelockThread None (set_mPendingWritesThread None s0))).
  { destruct s as [? ? ? ? ? ? ? ? t1 t2 ? ?]. cbn. destruct t2; by wp_run. }
  intros [] s6 w6 l6 [Q6 ->]. split; [|done].
  repeat apply quiet_app; done.
Qed.

Lemma reset_quiet s w :
  mThreadsRun s = false →
  wp resetSharedWakelock s w (λ _ s' _ l, quiet l ∧
    ∃ now, s' = set_wakelock (set_mWakelockTimeoutResetTime now (wakelock s)) s).
Proof.
  intros Hrun. unfold resetSharedWakelock, decrementRefCountAndMaybeReleaseWakelock,
    modify_wakelock.
  apply wp_bind, wp_get, wp_bind, wp_bind, wp_get. rewrite Hrun. apply wp_ret.
  wp_run. split; [done|]. by eexists.
Qed.

Lemma activate_quiet k b s w :
  wp (activate k b) s w (λ _ s' _ l, quiet l ∧ s' = s).
Proof.
  unfold activate. apply wp_bind, wp_get.
  destruct (isSubHalIndexValid k s) eqn:Hv; cbn [negb]; [|by apply wp_ret].
  apply bool_decide_eq_true in Hv. pose proof (wrapu_range 64 (Z.shiftr k 24) ltac:(done)) as [Hk _].
  unfold getSubHalForSensorHandle. apply wp_bind, wp_bind, wp_get.
  destruct (lookup_lt_is_Some_2 (mSubHalList s) (Z.to_nat (extractSubHalIndex k))) as [h ->].
  { unfold extractSubHalIndex, kBitsAfterSubHalIndex in *. lia. }
  apply wp_ret, wp_call. intros r w' _. done.
Qed.

Lemma disable_quiet s w : wp disableAllSensors s w (λ _ s' _ l, quiet l ∧ s' = s).
Proof.
  assert (∀ (l : list (Z * SensorInfo)) w, wp (foreach (λ '(k, _), activate k false ;; mret ()) l) s w
    (λ _ s' _ lg, quiet lg ∧ s' = s)) as Hloop.
  { intros l w0. apply (wp_foreach (λ _ s' lg, quiet lg ∧ s' = s)); [done|].
    intros pre [k si] s1 w1 lg _ [Hq ->]. apply wp_bind.
    eapply wp_mono; [apply activate_quiet|]. intros r s2 w2 lg2 [Hq2 ->]. apply wp_ret.
    rewrite app_nil_r. split; [by apply quiet_app|done]. }
  unfold disableAllSensors. apply wp_bind, wp_get, wp_bind.
  eapply wp_mono; [apply Hloop|]. intros [] s1 w1 l1 [Q1 ->]. apply wp_bind, wp_call.
  intros [] w2 _. apply wp_bind, wp_get, wp_bind.
  eapply wp_mono; [apply Hloop|]. intros [] s2 w3 l2 [Q2 ->]. apply wp_call. intros [] w4 _.
  split; [|done]. by repeat apply quiet_app.
Qed.

(** The flags after [renew_flags]. *)
Lemma renew_flags_spec q wq s w :
  mEventQueue (queues s) = Some q → mWakeLockQueue (queues s) = Some wq →
  wp renew_flags s w (λ ok s' _ l, quiet l ∧
    ∃ f1 f2, s' = set_queues (MkQueues (Some q) (Some wq) f1 f2) s ∧
      ok = bool_decide (is_Some f1) && bool_decide (is_Some f2)).
Proof.
  destruct s as [? ? ? ? ? ? [q0 wq0 f1 f2] ? ? ? ? ?]. simpl. intros -> ->.
  unfold renew_flags, modify_queues. destruct f1, f2;
    repeat first [progress cbn [queues mEventQueue mWakeLockQueue mEventQueueFlag
      mWakelockQueueFlag deref] | wp_step];
    (split; [done|]); by eexists _, _.
Qed.

(** The initialization of the sub-HALs stops at the first that fails. *)
Lemma initialize_subHals_spec l i r0 s w :
  wp (initialize_subHals l i r0) s w (λ r s' _ lg, s' = s ∧ untouched lg ∧
    (init_calls lg).*1 `prefix_of` imap (λ j h, (h, Z.of_nat (i + j))) l ∧
    (init_calls lg = imap (λ j h, (h, Z.of_nat (i + j), OK)) l ∧ r = r0 ∨
     r ≠ OK ∧ init_calls lg ≠ imap (λ j h, (h, Z.of_nat (i + j), OK)) l)).
Proof.
  revert i s w. induction l as [|h l IH]; intros i s w; cbn [initialize_subHals].
  - apply wp_ret. split_and!; [done|done|done|by left].
  - apply wp_bind, wp_call. intros r w1 _. rewrite !imap_cons, !Nat.add_0_r.
    case_bool_decide as Hr.
    + apply wp_ret. split_and!; [done|done|by apply prefix_cons, prefix_nil|].
      right. split; [done|]. cbn. congruence.
    + eapply wp_mono; [apply (IH (S i))|].
      intros r' s' w' lg (-> & Hu & Hp & Hcase). cbn [app].
      change (imap ((λ j h, (h, Z.of_nat (i + j))) ∘ S) l) with
        (imap (λ j h, (h, Z.of_nat (i + S j))) l).
      change (imap ((λ j h, (h, Z.of_nat (i + j), OK)) ∘ S) l) with
        (imap (λ j h, (h, Z.of_nat (i + S j), OK)) l).
      rewrite (imap_ext (λ j h, (h, Z.of_nat (i + S j))) (λ j h, (h, Z.of_nat (S i + j))) l)
        by (intros; f_equal; lia).
      rewrite (imap_ext (λ j h, (h, Z.of_nat (i + S j), OK))
        (λ j h, (h, Z.of_nat (S i + j), OK)) l)
        by (intros j h' _; replace (i + S j)%nat with (S i + j)%nat by lia; done).
      change (init_calls (Entry (Sub_initialize h (Z.of_nat i)) r :: lg)) with
        ((h, Z.of_nat i, r) :: init_calls lg).
      split_and!; [done|by intros b; apply Hu|by apply prefix_cons|].
      rewrite Hr. destruct Hcase as [[-> ->]|[? Hne]]; [by left|]. right. split; [done|].
      congruence.
Qed.

Definition all_initialized (l : list SubHal) : list (SubHal * Z * Result) :=
  imap (λ i h, (h, Z.of_nat i, OK)) l.

(** What [initialize] establishes. *)
Record fresh (q wq : Z) (cb : option Z) (s s' : HalProxy SubHal) : Prop := {
  fresh_pending : mPendingWriteEventsQueue (pending s') = [] ∧ queue_size s' = 0;
  fresh_most : most_seen s' = most_seen s;
  fresh_dynamic : mDynamicSensors s' = ∅ ∧ mDynamicSensorsCallback s' = cb;
  fresh_queues : mEventQueue (queues s') = Some q ∧ mWakeLockQueue (queues s') = Some wq;
  fresh_threads : mThreadsRun s' = true ∧ is_Some (mPendingWritesThread s') ∧
    is_Some (mWakelockThread s');
  fresh_mode : mCurrentOperationMode s' = NORMAL;
  fresh_sensors : mSensors s' = mSensors s ∧ mSubHalList s' = mSubHalList s ∧
    mDirectChannelSubHal s' = mDirectChannelSubHal s;
}.

Lemma result_OK_iff (cb f1 f2 : option Z) (q wq : Z) r (done_all : Prop) :
  (done_all ∧ r = (if negb (bool_decide (is_Some f1) && bool_decide (is_Some f2)) ||
     bool_decide (cb = None) || bool_decide (Some q = None) || bool_decide (Some wq = None) ||
     bool_decide (f1 = None) then BAD_VALUE else OK) ∨ r ≠ OK ∧ ¬ done_all) →
  (r = OK ↔ is_Some cb ∧ is_Some f1 ∧ is_Some f2 ∧ done_all).
Proof.
  rewrite (bool_decide_false (Some q = None)), (bool_decide_false (Some wq = None)) by done.
  unfold is_Some. destruct f1, f2, cb; simpl; naive_solver.
Qed.

(** The proxy when its threads run ([HalProxyThreads]). *)
Record hal_ready s (writer waker : nat) : Prop := {
  ready_events : is_Some (mEventQueue (queues s));
  ready_flag : is_Some (mEventQueueFlag (queues s));
  ready_wakelocks : is_Some (mWakeLockQueue (queues s));
  ready_callback : is_Some (mDynamicSensorsCallback s);
  ready_writer : ∀ z, mPendingWritesThread s = Some z → z = Z.of_nat writer;
  ready_waker : ∀ z, mWakelockThread s = Some z → z = Z.of_nat waker;
  ready_count : 0 ≤ refcount s < 2 ^ 63;
  ready_queue : tidy (pending s);
}.

(** C17: initialization: from any state, [initialize] leaves a proxy with an empty
    pending queue, no dynamic sensors, the given queues and callback, running
    threads and the NORMAL mode; it initializes the sub-HALs in order with
    their indices up to the first failure; and it answers OK exactly when the
    callback is there, both event flags were created and every sub-HAL
    answered OK.  The state is then one from which the guarantees
    of the threads hold ([HalProxyThreadsSystem]).  A wake lock that was held before stays held and
    counted: it is neither released nor acquired. *)
Theorem initializeCommon_fresh q wq cb s w :
  wp (initializeCommon (Some q) (Some wq) cb) s w (λ r s' w' l,
    fresh q wq cb s s' ∧
    (init_calls l).*1 `prefix_of` imap (λ i h, (h, Z.of_nat i)) (mSubHalList s) ∧
    (r = OK ↔ is_Some cb ∧ is_Some (mEventQueueFlag (queues s')) ∧
      is_Some (mWakelockQueueFlag (queues s')) ∧
      init_calls l = all_initialized (mSubHalList s)) ∧
    (r = OK → 0 ≤ most_seen s ≤ kMaxSizePendingWriteEventsQueue → 0 ≤ refcount s < 2 ^ 63 →
      ∀ writer waker, mPendingWritesThread s' = Some (Z.of_nat writer) →
        mWakelockThread s' = Some (Z.of_nat waker) → hal_ready s' writer waker) ∧
    refcount s' = refcount s ∧ untouched l).
Proof.
  unfold initializeCommon, initializeCommon_with. apply wp_bind. eapply wp_mono; [apply stopThreads_spec|].
  intros [] s1 w1 l1 [Q1 E1]. apply wp_bind.
  eapply wp_mono; [apply reset_quiet; by rewrite E1|]. intros [] s2 w2 l2 [Q2 [now E2]].
  apply wp_bind. eapply wp_mono; [apply disable_quiet|]. intros [] s3 w3 l3 [Q3 E3].
  unfold modify_pending, modify_queues. do 6 apply wp_bind, wp_modify. apply wp_bind.
  eapply wp_mono; [by apply (renew_flags_spec q wq)|].
  intros flags s4 w4 l4 (Q4 & f1 & f2 & E4 & Hflags). apply wp_bind, wp_get.
  subst s4 s3 s2 s1. cbn [mDynamicSensorsCallback queues set_queues set_mDynamicSensorsCallback
    mEventQueue mWakeLockQueue mEventQueueFlag set_mEventQueue set_mWakeLockQueue].
  apply wp_bind, wp_modify, wp_bind, wp_call. intros t5 w5 _.
  apply wp_bind, wp_modify, wp_bind, wp_call. intros t6 w6 _. apply wp_bind, wp_modify, wp_bind.
  eapply wp_mono; [apply (initialize_subHals_spec _ 0)|].
  intros r s7 w7 l7 (E7 & U7 & P7 & Hr). apply wp_bind, wp_modify, wp_ret.
  cbn [app]. rewrite !app_nil_r.
  match goal with |- context [l1 ++ ?x] =>
    replace (l1 ++ x) with ((l1 ++ l2 ++ l3 ++ l4 ++ [Entry StartPendingWritesThread t5;
      Entry StartWakelockThread t6]) ++ l7) by (by rewrite <- !app_assoc) end.
  match goal with |- context [?x ++ l7] => assert (quiet x) as [UL IL]
    by (repeat apply quiet_app; done); generalize dependent x; intros L UL IL end.
  assert (init_calls (L ++ l7) = init_calls l7) as Hinit.
  { unfold init_calls in *. by rewrite omap_app, IL. }
  rewrite Hinit, E7.
  assert (r = OK ↔ is_Some cb ∧ is_Some f1 ∧ is_Some f2 ∧
    init_calls l7 = all_initialized (mSubHalList s)) as Hiff.
  { rewrite Hflags in Hr. by apply (result_OK_iff _ _ _ q wq). }
  split; [by split|]. split; [exact P7|]. split; [exact Hiff|].
  split; [|split; [done|by apply untouched_app]].
  intros Hok Hmost Hcount writer waker [= ->] [= ->]. apply Hiff in Hok as (Hcb & Hf & _).
  split; simpl; try by eexists. all: try done. all: by intros z [= <-].
Qed.
End init.

(** * Witness: two libraries in the vendor directory, with 2.1 factories *)
#[local] Existing Instance aosp_sensors.
#[local] Instance demo_env : Handler (halE nat) Z := simple_env (λ _, OK) (λ _, []) 2.

Definition demo_opens (path : string) : option Z :=
  if String.prefix "/vendor" path then Some 5 else None.
Definition demo_symbol (lib : Z) (symbol : string) : option Z :=
  if decide (symbol = "sensorsHalGetSubHal_2_1") then Some 9 else None.
Definition demo_factory (f : Z) : Z * Z := (0, 2 * 2 ^ 24 + 2 ^ 16).

Lemma config_file_loads_witness :
  wp (initializeSubHalListFromConfigFile (λ _, 20%nat) (λ _, 21%nat) "hals.conf") (proxy_with 0) 0
    (λ _ s' _ _, s' = set_mSubHalList [21%nat; 21%nat] (proxy_with 0)).
Proof.
  eapply wp_mono.
  - apply (config_file_loads (H:=demo_env) (λ _, 20%nat) (λ _, 21%nat) demo_opens demo_symbol
      demo_factory) with (files := ["libone.so"; "libtwo.so"]); try done.
    repeat constructor; discriminate.
  - intros [] s' w' l ->. by vm_compute.
Defined.
