(* ===== verification/HalProxyCallback.v ===== *)
(** The callback object each sub-HAL of the sensors HAL gets
    ([src/sensors/HalProxyCallback.cpp]): tagging events with the sub-HAL's
    index, filtering the pick-up gesture, counting wake-up events. *)
From Stdlib Require Import SpecFloat.
From S2P Require Import Prelude Effects SensorTypes SensorHandle HalProxyState HalProxy EventQueue.
From stdpp Require Import options.
#[local] Set Default Proof Using "Type*".

(** Comparison with the float 1; a NaN is different from it. *)
Definition is_one (x : float) : bool := SFeqb x float_1.

Section callback.
Context {SubHal : Type} {W : Type} {H : Handler (halE SubHal) W} {SC : SensorConsts}.
(** [mCallback->getSensorInfo]: the proxy's, declared in a header that is not in
    the repository. *)
Context (getSensorInfo : Z → SensorInfo).
(** Whether [ALOG_ASSERT] is compiled in. *)
Context (asserts : bool).

#[local] Abbreviation hal A := (prog (halE SubHal) (HalProxy SubHal) A).

(** The body of the loop: the events so far and their wake-up events. *)
Definition process_event (mSubHalIndex : Z) (acc : list Event * Z) (event : Event)
    : list Event * Z :=
  let '(eventsOut, numWakeupEvents) := acc in
  let event := set_ev_sensorHandle (setSubHalIndex (ev_sensorHandle event) mSubHalIndex) event in
  let sensor := getSensorInfo (ev_sensorHandle event) in
  if bool_decide (si_type sensor = PICK_UP_GESTURE) && negb (is_one (ev_scalar event))
  then (eventsOut, numWakeupEvents)
  else
    (eventsOut ++ [event],
     if bool_decide (Z.land (si_flags sensor) WAKE_UP ≠ 0) then numWakeupEvents + 1
     else numWakeupEvents).

Definition processEvents (mSubHalIndex : Z) (events : list Event) : list Event * Z :=
  foldl (process_event mSubHalIndex) ([], 0) events.

(** [ALOG_ASSERT]: the process is aborted, which ends the model's run too. *)
Definition alog_assert (condition : bool) : hal unit :=
  if asserts && negb condition then undef else mret ().

(** [post] is the proxy's [postEventsToMessageQueue]. *)
Definition postEvents_with (post : list Event → Z → bool → hal unit)
    (mSubHalIndex : Z) (events : list Event) (wakelock_isLocked : bool) : hal unit :=
  s ← get;
  if bool_decide (events = []) || negb (mThreadsRun s) then mret ()
  else
    let '(processedEvents, numWakeupEvents) := processEvents mSubHalIndex events in
    (if bool_decide (0 < numWakeupEvents) then alog_assert wakelock_isLocked
     else alog_assert (negb wakelock_isLocked)) ;;
    post processedEvents numWakeupEvents wakelock_isLocked.

Definition postEvents : Z → list Event → bool → hal unit :=
  postEvents_with postEventsToMessageQueue.

(** [ScopedWakelock] belongs to the multi-HAL's library. *)
Definition createScopedWakelock {ScopedWakelock} (mk : bool → hal ScopedWakelock) (lock : bool)
    : hal ScopedWakelock := mk lock.

(** * Reference definition *)

(** What a sub-HAL's event becomes: tagged, or dropped when it is a pick-up
    gesture with a value other than 1. *)
Definition tag_event (i : Z) (event : Event) : Event :=
  set_ev_sensorHandle (setSubHalIndex (ev_sensorHandle event) i) event.

Definition passes (event : Event) : Prop :=
  si_type (getSensorInfo (ev_sensorHandle event)) ≠ PICK_UP_GESTURE ∨
  is_one (ev_scalar event) = true.

Definition wakes (event : Event) : Prop :=
  Z.land (si_flags (getSensorInfo (ev_sensorHandle event))) WAKE_UP ≠ 0.

(** The loop, from any batch [out] of events it has let through. *)
Lemma process_event_foldl i events out :
  foldl (process_event i) (out, zlen (filter wakes out)) events =
    (out ++ filter passes (tag_event i <$> events),
     zlen (filter wakes (out ++ filter passes (tag_event i <$> events)))).
Proof.
  revert out. induction events as [|e events IH]; intros out; cbn [foldl fmap list_fmap].
  { by rewrite filter_nil, app_nil_r. }
  unfold process_event at 2. fold (tag_event i e). rewrite filter_cons.
  set (e' := tag_event i e). destruct (decide (passes e')) as [Hp|Hp].
  - replace (bool_decide _ && _) with false.
    + match goal with |- foldl _ (_, ?n) _ = _ =>
        replace n with (zlen (filter wakes (out ++ [e']))) end.
      { by rewrite IH, <- app_assoc. }
      rewrite filter_app, zlen_app, filter_cons, filter_nil.
      destruct (decide (wakes e')) as [Hw|Hw];
        [rewrite bool_decide_true by exact Hw|rewrite bool_decide_false by exact Hw];
        unfold zlen; simpl; lia.
    + symmetry. apply andb_false_iff. unfold passes in Hp. destruct Hp as [Hp|Hp].
      * left. by apply bool_decide_eq_false.
      * right. by rewrite Hp.
  - replace (bool_decide _ && _) with true; [by rewrite IH|].
    symmetry. apply andb_true_iff. unfold passes in Hp. split.
    + case_bool_decide as Ht; [done|]. destruct Hp. by left.
    + destruct (is_one _); [|done]. destruct Hp. by right.
Qed.

(** C9: processing a batch is tagging, filtering and counting: the output is the
    batch with every handle tagged, less the pick-up gestures whose value is
    not 1, in order, and the count is the number of wake-up events in the
    output. *)
Theorem processEvents_reference i events :
  processEvents i events =
    (filter passes (tag_event i <$> events),
     zlen (filter wakes (filter passes (tag_event i <$> events)))).
Proof. apply (process_event_foldl i events []). Qed.

(** A wake-up pick-up sensor must hold the wake lock when it posts; when its only
    event is filtered, the assertion that no lock is held fails. *)
Lemma filtered_pickup_aborts i e s w :
  mThreadsRun s = true → asserts = true → ¬ passes (tag_event i e) →
  ex_out (run (postEvents i [e] true) s w) = Undef.
Proof.
  intros Hrun Ha Hp. unfold postEvents, postEvents_with. rewrite run_get_bind.
  rewrite bool_decide_false, Hrun by done. cbn [negb orb].
  rewrite (process_event_foldl i [e] [] : processEvents i [e] = _).
  simpl. rewrite filter_cons_False by done.
  unfold alog_assert. by rewrite Ha.
Qed.
End callback.
