(* ===== verification/HalProxySystem.v ===== *)
(** The sensors HAL proxy as a system: sub-HALs posting through their callbacks
    ([src/sensors/HalProxyCallback.cpp]), the pending-writes thread, the wake
    lock thread and the holders of scoped wake locks
    ([src/sensors/HalProxy.cpp]), all on one state, in any interleaving.

    Two mutexes are in play.  [mEventQueueWriteMutex] is held by a post from its
    increment of the reference count to its end, and by the pending-writes
    thread outside its blocking write; [hp_poster] is the post that holds it.
    [mWakelockMutex] is held within one step.  A step here is a section of the
    code; [HalProxyThreads] cuts the same functions at every access. *)
From S2P Require Import Prelude Effects SensorTypes SensorHandle HalProxyState Wakelock WakelockFacts EventQueue EventQueueFacts HalProxyCallback.
From stdpp Require Import options.
#[local] Set Default Proof Using "Type*".

Section system.
Context {SubHal : Type} {W : Type} {H : Handler (halE SubHal) W}.
Context {SC : SensorConsts} {SL : SensorLaws}.
Context (getSensorInfo : Z → SensorInfo) (asserts : bool).
Implicit Types (s : HalProxy SubHal) (w : W) (l : list (entry (halE SubHal))).

#[local] Abbreviation hal A := (prog (halE SubHal) (HalProxy SubHal) A).

(** * Posting, cut where the wake lock's mutex is given back *)

(** A batch a sub-HAL posts: its index, its events, and whether the scoped wake
    lock it passes is locked. *)
Definition batch : Type := Z * list Event * bool.

(** The assertion, and the reference count. *)
Definition post_count (p : batch) : hal unit :=
  let '(i, events, locked) := p in
  let numWakeupEvents := (processEvents getSensorInfo i events).2 in
  (if bool_decide (0 < numWakeupEvents) then alog_assert asserts locked
   else alog_assert asserts (negb locked)) ;;
  if locked
  then _ ← incrementRefCountAndMaybeAcquireWakelock numWakeupEvents; mret ()
  else mret ().

(** The message queue and the pending queue. *)
Definition post_enqueue (p : batch) : hal unit :=
  let '(i, events, _) := p in
  let '(processedEvents, numWakeupEvents) := processEvents getSensorInfo i events in
  numToWrite ← write_now processedEvents;
  push_pending processedEvents numWakeupEvents numToWrite.

(** The two parts, one after the other, are the callback's [postEvents]. *)
Lemma postEvents_cut i events locked s w :
  events ≠ [] → mThreadsRun s = true →
  run (postEvents getSensorInfo asserts i events locked) s w =
    run (post_count (i, events, locked) ;; post_enqueue (i, events, locked)) s w.
Proof using Type.
  intros Hne Hrun. unfold postEvents, postEvents_with, post_count, post_enqueue, postEventsToMessageQueue.
  rewrite run_get_bind, bool_decide_false, Hrun by done. cbn [negb orb].
  destruct (processEvents getSensorInfo i events) as [out n]. cbn [snd].
  rewrite !run_bind.
  destruct (run (if bool_decide (0 < n) then _ else _) s w) as [[[[] s1]|] w1 l1]; [|done].
  rewrite run_bind.
  destruct (run (if locked then _ else _) s1 w1) as [[[[] s2]|] w2 l2]; [|done].
  destruct (run (numToWrite ← write_now out; _) s2 w2) as [o w3 l3]. by rewrite app_assoc.
Qed.

(** * What each part leaves of the wake lock *)
Lemma keeps_untouched s s' l :
  wakelock s' = wakelock s → untouched l → in_uint 64 (refcount s) → keeps s s' l.
Proof using Type.
  intros Hs Hl Hr. unfold keeps, held, refcount in *. rewrite Hs. split; [apply Hl|done].
Qed.

Lemma write_now_untouched events s w :
  connected s → wp (write_now events) s w (λ _ s' _ l, s' = s ∧ untouched l).
Proof using Type.
  intros [[q Hq] [f Hf]]. unfold write_now. apply wp_bind, wp_get. rewrite Hq, Hf.
  case_bool_decide; [|by apply wp_ret].
  apply wp_bind, wp_ret, wp_bind, wp_call. intros available w1 _.
  case_bool_decide; [|by apply wp_ret].
  apply wp_bind, wp_call. intros [] w2 _; [|by apply wp_ret].
  apply wp_bind, wp_ret, wp_bind, wp_call. intros [] w3 _. by apply wp_ret.
Qed.

Lemma push_pending_untouched events n k s w :
  wp (push_pending events n k) s w (λ _ s' _ l, wakelock s' = wakelock s ∧ untouched l).
Proof using Type. unfold push_pending, modify_pending. wp_run; by split. Qed.

Lemma count_loop_untouched events idx n s w :
  Forall (λ i, (i < length events)%nat) idx →
  wp (count_loop events idx n) s w (λ m s' _ l,
    wakelock s' = wakelock s ∧ untouched l ∧ n ≤ m).
Proof using Type.
  intros Hidx. revert n s w. induction Hidx as [|i idx Hi Hidx IH]; intros n s w; simpl.
  { by apply wp_ret. }
  apply lookup_lt_is_Some in Hi as [e ->]. apply wp_bind, wp_ret, wp_bind.
  apply (wp_mono _ _ _ (λ _ s' _ l, wakelock s' = wakelock s ∧ untouched l)).
  { unfold wakes_up. wp_run; by split. }
  intros wake s1 w1 l1 [K1 U1]. eapply wp_mono; [apply IH|].
  intros m s2 w2 l2 (K2 & U2 & Hm). cbn [app]. split_and!; [congruence| |].
  - by apply untouched_app.
  - destruct wake; lia.
Qed.

(** The pending-writes thread takes failed writes off the count, and touches
    the wake lock nowhere else. *)
Lemma writer_keeps pc s w :
  in_uint 64 (refcount s) → queue_ok pc s → connected s →
  wp (handlePendingWrites pc) s w (λ _ s' _ l, keeps s s' l).
Proof using Type.
  intros Hr Hok [[q Hq] _]. pose proof (thread_coherent _ _ Hok) as Hpc.
  apply wp_bind, wp_get. destruct pc as [| |nw size n|nw size n|size n|].
  - apply wp_ret. by apply keeps_same.
  - destruct (mPendingWriteEventsQueue (pending s)) as [|[events nw] rest] eqn:Hp;
      [rewrite (bool_decide_true ([] = [])) by done|rewrite (bool_decide_false (_ :: _ = [])) by done];
      destruct (mThreadsRun s); cbn [negb orb]; try by apply wp_ret, keeps_same.
    apply wp_bind. eapply wp_front; [done|]. rewrite Hq.
    apply wp_bind, wp_ret, wp_bind, wp_call. intros x w1 _. apply wp_ret.
    by apply keeps_untouched.
  - destruct Hpc as (Hsz & [events nw0] & rest & Hp & Hn). apply wp_bind.
    eapply wp_front; [done|]. rewrite Hq. apply wp_bind, wp_ret, wp_bind, wp_call.
    intros ok w1 _. apply wp_ret. by apply keeps_untouched.
  - destruct Hpc as (Hsz & [events nw0] & rest & Hp & Hn). apply wp_bind.
    eapply wp_front; [done|]. apply wp_bind.
    apply (wp_mono _ _ _ (λ _ s' _ l, keeps s s' l)).
    + case_bool_decide as Hpos; [|by apply wp_ret, keeps_same].
      case_bool_decide as Hlong; [|by apply decrement_flag_keeps; [done|lia]].
      apply wp_bind. eapply wp_mono.
      * unfold countNumWakeupEvents. apply count_loop_untouched, Forall_seq. intros j Hj.
        unfold zlen in Hlong. lia.
      * intros m s1 w1 l1 (K1 & U1 & Hm).
        assert (keeps s s1 l1) as Hk by by apply keeps_untouched.
        eapply wp_mono; [apply decrement_flag_keeps; [apply Hk|done]|].
        intros [] s2 w2 l2 Hk2. by eapply keeps_trans.
    + intros [] s1 w1 l1 Hk. apply wp_ret. by rewrite app_nil_r.
  - destruct Hpc as (Hsz & [events nw0] & rest & Hp & Hn). apply wp_bind.
    eapply wp_front; [done|]. unfold modify_pending. wp_run. by apply keeps_same.
  - apply wp_ret. by apply keeps_same.
Qed.

Lemma hold_keeps delta s w :
  in_uint 64 (refcount s) → 0 < delta → refcount s + delta < 2 ^ 64 →
  wp (incrementRefCountAndMaybeAcquireWakelock delta) s w (λ _ s' _ l, keeps s s' l).
Proof using Type.
  intros Hr Hd Hov. apply wp_bind, wp_get. destruct (mThreadsRun s); cbn [negb].
  - apply wp_bind. eapply wp_mono; [by apply increment_keeps|]. intros t s1 w1 l1 [Hk _].
    apply wp_ret. by rewrite app_nil_r.
  - by apply wp_ret, keeps_same.
Qed.

(** The wake lock thread leaves the queues alone. *)
Lemma framed_mono s1 s2 s3 l1 l2 :
  framed s1 s2 l1 → framed s2 s3 l2 → framed s1 s3 (l1 ++ l2).
Proof using Type.
  intros (P1 & Q1 & T1 & D1 & F1) (P2 & Q2 & T2 & D2 & F2).
  split_and!; [congruence..| |by apply Forall_app_2]. by rewrite delivered_app, D1, D2.
Qed.

Lemma framed_same s s' l :
  pending s' = pending s → queues s' = queues s → mThreadsRun s' = mThreadsRun s →
  delivered l = [] → no_failed_write l → framed s s' l.
Proof using Type. by repeat split. Qed.

Lemma reset_framed s w : wp resetSharedWakelock s w (λ _ s' _ l, framed s s' l).
Proof using Type.
  apply wp_bind, wp_get, wp_bind. eapply wp_mono; [apply decrement_framed|].
  intros [] s1 w1 l1 Hf. unfold modify_wakelock. wp_run. cbn [app].
  eapply framed_mono; [exact Hf|]. apply framed_same; try done. by repeat constructor.
Qed.

Lemma waker_framed pc s w :
  match pc with WlRead _ => mWakeLockQueue (queues s) ≠ None | _ => True end →
  wp (handleWakelocks pc) s w (λ _ s' _ l, framed s s' l).
Proof using Type.
  intros Hq. assert (framed s s []) as Hs by (apply framed_same; by try constructor).
  apply wp_bind, wp_get. destruct pc as [| | |timeLeft|res| |]; try by apply wp_ret.
  - unfold sharedWakelockDidTimeout.
    wp_run; apply framed_same; try done; by repeat constructor.
  - apply wp_bind. eapply wp_mono; [apply reset_framed|]. intros [] s1 w1 l1 Hf.
    apply wp_ret. by rewrite app_nil_r.
  - destruct (mWakeLockQueue (queues s)); [|done].
    wp_run. apply framed_same; try done; by repeat constructor.
  - apply wp_bind. apply (wp_mono _ _ _ (λ _ s' _ l, framed s s' l)).
    + destruct res; [apply decrement_framed|by apply wp_ret].
    + intros [] s1 w1 l1 Hf. apply wp_ret. by rewrite app_nil_r.
  - apply wp_bind. eapply wp_mono; [apply reset_framed|]. intros [] s1 w1 l1 Hf.
    apply wp_ret. by rewrite app_nil_r.
Qed.

(** * The system *)
Record hp_sys := HpSys {
  hp_proxy : HalProxy SubHal;
  hp_world : W;
  hp_waker : wl_pc;
  hp_writer : pw_pc;
  hp_poster : option batch;    (* has counted, has not enqueued *)
  hp_log : list (entry (halE SubHal));
  hp_posted : list batch;      (* ghost: enqueued, in order *)
}.

(** The batch as the framework is to see it. *)
Definition owed (p : batch) : list Event :=
  filter (passes getSensorInfo) (tag_event p.1.1 <$> p.1.2).

(** What [ISubHal] asks of a sub-HAL, as far as the count needs it: a locked
    wake lock comes with a wake-up event. *)
Definition rightly_locked (p : batch) : Prop :=
  p.2 = true → filter (wakes getSensorInfo) (owed p) ≠ [].

(** Sections of the pending-writes thread without [mEventQueueWriteMutex]. *)
Definition unlocked (pc : pw_pc) : bool :=
  match pc with PwWrite _ _ _ | PwDrop _ _ _ | PwDone => true | _ => false end.

Inductive hp_step (allowed : HalProxy SubHal → batch → Prop) : hp_sys → hp_sys → Prop :=
| hp_count p s w a b l ps s' w' l' :
    p.1.2 ≠ [] → zlen p.1.2 < 2 ^ 63 → refcount s + zlen p.1.2 < 2 ^ 64 →
    asserts = true ∨ rightly_locked p →
    run (post_count p) s w = Exec (Done ((), s')) w' l' →
    hp_step allowed (HpSys s w a b None l ps) (HpSys s' w' a b (Some p) (l ++ l') ps)
| hp_enqueue p s w a b l ps s' w' l' :
    allowed s p →
    run (post_enqueue p) s w = Exec (Done ((), s')) w' l' →
    hp_step allowed (HpSys s w a b (Some p) l ps)
      (HpSys s' w' a b None (l ++ l') (ps ++ [p]))
| hp_write b s w a b' op l ps s' w' l' :
    op = None ∨ unlocked b = true →
    run (handlePendingWrites b) s w = Exec (Done (b', s')) w' l' →
    hp_step allowed (HpSys s w a b op l ps) (HpSys s' w' a b' op (l ++ l') ps)
| hp_wake a s w a' b op l ps s' w' l' :
    run (handleWakelocks a) s w = Exec (Done (a', s')) w' l' →
    hp_step allowed (HpSys s w a b op l ps) (HpSys s' w' a' b op (l ++ l') ps)
| hp_hold delta t s w a b op l ps s' w' l' :
    0 < delta → refcount s + delta < 2 ^ 64 →
    run (incrementRefCountAndMaybeAcquireWakelock delta) s w = Exec (Done (t, s')) w' l' →
    hp_step allowed (HpSys s w a b op l ps) (HpSys s' w' a b op (l ++ l') ps)
| hp_unhold delta t s w a b op l ps s' w' l' :
    0 ≤ delta →
    run (decrementRefCountAndMaybeReleaseWakelock delta t) s w = Exec (Done ((), s')) w' l' →
    hp_step allowed (HpSys s w a b op l ps) (HpSys s' w' a b op (l ++ l') ps)
| hp_other s w a b op l ps s' w' :
    wakelock s' = wakelock s → pending s' = pending s → queues s' = queues s →
    hp_step allowed (HpSys s w a b op l ps) (HpSys s' w' a b op l ps).

(** * What a step does *)
Lemma zlen_filter {A} (P : A → Prop) `{∀ x, Decision (P x)} (l : list A) :
  zlen (filter P l) ≤ zlen l.
Proof using Type. unfold zlen. pose proof (length_filter P l). lia. Qed.

Lemma zlen_owed p : zlen (owed p) ≤ zlen p.1.2.
Proof using Type.
  etransitivity; [apply zlen_filter|]. unfold zlen. by rewrite length_fmap.
Qed.

Lemma alog_assert_done condition s w a s' w' l :
  run (alog_assert (SubHal:=SubHal) asserts condition) s w = Exec (Done (a, s')) w' l →
  (asserts = true → condition = true) ∧ s' = s ∧ w' = w ∧ l = [].
Proof using Type.
  unfold alog_assert. destruct asserts, condition; cbn; intros [= <- <- <- <-]; by split_and!.
Qed.

Lemma count_done p s w a s' w' l :
  zlen p.1.2 < 2 ^ 63 → refcount s + zlen p.1.2 < 2 ^ 64 →
  asserts = true ∨ rightly_locked p → in_uint 64 (refcount s) →
  run (post_count p) s w = Exec (Done (a, s')) w' l → keeps s s' l ∧ framed s s' l.
Proof using Type.
  destruct p as [[i events] locked]. cbn [fst snd]. intros Hlen Hov Hright Hr Hrun.
  unfold post_count in Hrun.
  rewrite (process_event_foldl getSensorInfo i events [] : processEvents _ i events = _) in Hrun.
  cbn [app snd] in Hrun. change (filter (passes getSensorInfo) (tag_event i <$> events))
    with (owed (i, events, locked)) in Hrun.
  set (wakeups := filter (wakes getSensorInfo) (owed (i, events, locked))) in *.
  assert (zlen wakeups ≤ zlen events) as Hle.
  { etransitivity; [apply zlen_filter|apply (zlen_owed (i, events, locked))]. }
  pose proof (zlen_nonneg wakeups).
  rewrite run_bind in Hrun.
  destruct (run (if bool_decide _ then _ else _) s w) as [[[[] s1]|] w1 l1] eqn:Ha; [|done].
  assert (s1 = s ∧ w1 = w ∧ l1 = [] ∧ (locked = true → 0 < zlen wakeups)) as (-> & -> & -> & Hpos).
  { case_bool_decide; apply alog_assert_done in Ha as (Hc & -> & -> & ->); split_and!; try done.
    intros ->. destruct Hright as [Has|Hright]; [by specialize (Hc Has)|].
    by apply zlen_pos, Hright. }
  destruct locked; [|by injection Hrun as <- <- <- <-; split;
    [apply keeps_same|apply framed_same; try done; constructor]].
  specialize (Hpos eq_refl).
  assert (wp (_ ← incrementRefCountAndMaybeAcquireWakelock (zlen wakeups); mret ()) s w
    (λ _ s' _ l, keeps s s' l ∧ framed s s' l)) as Hwp.
  { apply wp_bind. eapply wp_mono; [apply wp_and; [|apply increment_framed]|].
    - apply (hold_keeps (zlen wakeups)); [done|done|lia].
    - intros r s2 w2 l2 Hk. apply wp_ret. by rewrite app_nil_r. }
  unfold wp in Hwp.
  destruct (run (_ ← incrementRefCountAndMaybeAcquireWakelock _; mret ()) s w) as [[[[] s2]|] w2 l2];
    [|done].
  cbn [app] in Hrun. by injection Hrun as <- <- <- <-.
Qed.

Lemma enqueue_untouched p s w :
  connected s → wp (post_enqueue p) s w (λ _ s' _ l, wakelock s' = wakelock s ∧ untouched l).
Proof using Type.
  intros Hc. destruct p as [[i events] locked]. unfold post_enqueue.
  destruct (processEvents getSensorInfo i events) as [out n]. apply wp_bind.
  eapply wp_mono; [by apply write_now_untouched|]. intros k s1 w1 l1 [-> U1].
  eapply wp_mono; [apply push_pending_untouched|]. intros [] s2 w2 l2 [K2 U2].
  split; [done|by apply untouched_app].
Qed.

Lemma enqueue_spec pc p s w :
  queue_ok pc s → connected s → zlen p.1.2 < 2 ^ 63 →
  wp (post_enqueue p) s w (λ _ s' _ l,
    queue_ok pc s' ∧ queues s' = queues s ∧ no_failed_write l ∧
    ∃ added, delivered l ++ waiting pc s' = waiting pc s ++ added ∧
      added `prefix_of` owed p ∧
      (queue_size s + zlen (owed p) ≤ kMaxSizePendingWriteEventsQueue → added = owed p)).
Proof.
  intros Hok Hc Hlen. pose proof (zlen_owed p) as Hle.
  destruct p as [[i events] locked]. unfold post_enqueue.
  rewrite (process_event_foldl getSensorInfo i events [] : processEvents _ i events = _).
  apply (post_spec pc (owed (i, events, locked)) _ false s w Hok Hc). cbn [fst snd] in *. lia.
Qed.

(** * The invariant *)
Definition with_framework (x : hp_sys) : list Event :=
  delivered (hp_log x) ++ waiting (hp_writer x) (hp_proxy x).

Definition all_owed (x : hp_sys) : list Event := concat (owed <$> hp_posted x).

Record hp_inv (x : hp_sys) : Prop := {
  hp_lock : wl_trace false (hp_log x) = Some (held (hp_proxy x));
  hp_count_range : in_uint 64 (refcount (hp_proxy x));
  hp_queue : queue_ok (hp_writer x) (hp_proxy x);
  hp_connected : connected (hp_proxy x) ∧ is_Some (mWakeLockQueue (queues (hp_proxy x)));
  hp_order : sublist (with_framework x) (all_owed x);
  hp_poster_size : ∀ p, hp_poster x = Some p → zlen p.1.2 < 2 ^ 63;
}.

(** Every kind of step, seen as a change of the proxy with a log of its own;
    [roomy]: the posted batches fit. *)
Record effect (roomy : Prop) (x y : hp_sys) (l : list (entry (halE SubHal))) : Prop := {
  ef_log : hp_log y = hp_log x ++ l;
  ef_keeps : keeps (hp_proxy x) (hp_proxy y) l;
  ef_queue : queue_ok (hp_writer y) (hp_proxy y);
  ef_queues : queues (hp_proxy y) = queues (hp_proxy x);
  ef_poster : ∀ p, hp_poster y = Some p → zlen p.1.2 < 2 ^ 63;
  ef_order : ∃ added, all_owed y = all_owed x ++ added ∧
    sublist (delivered l ++ waiting (hp_writer y) (hp_proxy y))
      (waiting (hp_writer x) (hp_proxy x) ++ added) ∧
    (roomy → no_failed_write l →
      delivered l ++ waiting (hp_writer y) (hp_proxy y) =
      waiting (hp_writer x) (hp_proxy x) ++ added);
}.

Lemma effect_inv roomy x y l : effect roomy x y l → hp_inv x → hp_inv y.
Proof.
  intros [El [Ek Er] Eq Eqs Ep (added & Ea & Es & _)] [Il Ir Iq [Ic Iw] Io Ip]. split; try done.
  - by rewrite El, wl_trace_app, Il.
  - unfold connected in *. by rewrite Eqs.
  - unfold with_framework in *. rewrite El, delivered_app, Ea, <- app_assoc.
    etransitivity; [by apply sublist_app|]. rewrite app_assoc. by apply sublist_app.
Qed.

(** A step that leaves the queues alone. *)
Lemma framed_effect roomy s w a b op l ps s' w' a' op' l' :
  keeps s s' l' → framed s s' l' → queue_ok b s →
  (∀ p, op' = Some p → zlen p.1.2 < 2 ^ 63) →
  effect roomy (HpSys s w a b op l ps) (HpSys s' w' a' b op' (l ++ l') ps) l'.
Proof.
  intros Hk (Hp & Hq & _ & Hd & _) Hok Hop. split; try done; cbn.
  - eapply queue_ok_frame; [done| |done]. pose proof (thread_coherent _ _ Hok) as Hpc.
    destruct b; try done; simpl in *; by rewrite Hp.
  - exists []. by rewrite !app_nil_r, Hd, (waiting_frame _ _ _ Hp).
Qed.

Definition roomy (allowed : HalProxy SubHal → batch → Prop) : Prop :=
  ∀ s p, allowed s p → queue_size s + zlen (owed p) ≤ kMaxSizePendingWriteEventsQueue.

Lemma step_effect allowed x y :
  hp_step allowed x y → hp_inv x → ∃ l, effect (roomy allowed) x y l.
Proof.
  destruct 1 as [p s w a b l ps s' w' l' Hne Hlen Hov Hright Hrun|
    p s w a b l ps s' w' l' Hal Hrun|b s w a b' op l ps s' w' l' Hmu Hrun|
    a s w a' b op l ps s' w' l' Hrun|delta t s w a b op l ps s' w' l' Hd Hov Hrun|
    delta t s w a b op l ps s' w' l' Hd Hrun|s w a b op l ps s' w' Hk Hp Hq];
    intros [Il Ir Iq [Ic Iw] Io Ip]; cbn [hp_proxy hp_world hp_waker hp_writer hp_poster
      hp_log hp_posted] in *.
  - exists l'. apply count_done in Hrun as [Hk Hf]; [|done..].
    apply framed_effect; [done..|]. by intros ? [= <-].
  - exists l'. specialize (Ip p eq_refl).
    pose proof (wp_run _ _ _ _ _ _ _ _ (enqueue_untouched p s w Ic) Hrun) as [Hk Hu].
    pose proof (wp_run _ _ _ _ _ _ _ _ (enqueue_spec b p s w Iq Ic Ip) Hrun)
      as (Hok & Hqs & _ & added & Heq & Hpre & Hfull).
    split; try done; cbn.
    + by apply keeps_untouched.
    + exists (owed p). unfold all_owed. cbn. rewrite fmap_app, concat_app. cbn.
      rewrite app_nil_r, Heq. split_and!; [done| |].
      * destruct Hpre as [k ->]. by apply sublist_app, sublist_inserts_r.
      * intros Hroomy _. f_equal. by apply Hfull, Hroomy.
  - exists l'.
    pose proof (wp_run _ _ _ _ _ _ _ _ (writer_keeps b s w Ir Iq Ic) Hrun) as Hk.
    pose proof (wp_run _ _ _ _ _ _ _ _ (thread_spec b s w Iq Ic) Hrun) as (Hok & Hqs & Hsub & Hfull).
    split; try done. exists []. rewrite !app_nil_r. by split_and!; [..|intros _].
  - exists l'. pose proof (thread_run_keeps _ _ _ _ _ _ _ Ir Hrun) as Hk.
    apply framed_effect; try done.
    refine (wp_run _ _ _ _ _ _ _ _ (waker_framed a s w _) Hrun).
    destruct a; try done. intros Hnone. rewrite Hnone in Iw. by destruct Iw.
  - exists l'. apply framed_effect; try done.
    + by apply (wp_run _ _ _ _ _ _ _ _ (hold_keeps delta s w Ir Hd Hov) Hrun).
    + by apply (wp_run _ _ _ _ _ _ _ _ (increment_framed delta s w) Hrun).
  - exists l'. apply framed_effect; try done.
    + by apply (wp_run _ _ _ _ _ _ _ _ (decrement_flag_keeps delta t s w Ir Hd) Hrun).
    + by apply (wp_run _ _ _ _ _ _ _ _ (decrement_framed delta t s w) Hrun).
  - exists []. split; try done; cbn.
    + by rewrite app_nil_r.
    + by apply keeps_same.
    + eapply queue_ok_frame; [done| |done]. pose proof (thread_coherent _ _ Iq) as Hpc.
      destruct b; try done; simpl in *; by rewrite Hp.
    + exists []. by rewrite !app_nil_r, (waiting_frame _ _ _ Hp).
Qed.

(** The proxy as [initializeCommon] leaves it: its threads about to start, no
    wake lock held, nothing queued. *)
Definition hp_start (x : hp_sys) : Prop :=
  connected (hp_proxy x) ∧ is_Some (mWakeLockQueue (queues (hp_proxy x))) ∧
  hp_writer x = PwTop ∧ hp_poster x = None ∧ hp_log x = [] ∧ hp_posted x = [] ∧
  refcount (hp_proxy x) = 0 ∧ mPendingWriteEventsQueue (pending (hp_proxy x)) = [] ∧
  queue_size (hp_proxy x) = 0 ∧
  0 ≤ most_seen (hp_proxy x) ≤ kMaxSizePendingWriteEventsQueue.

Lemma hp_start_inv x : hp_start x → hp_inv x ∧ with_framework x = all_owed x.
Proof using Type.
  destruct x as [s w a b op l ps]. unfold hp_start, with_framework, all_owed. cbn.
  intros (Hc & Hw & -> & -> & -> & -> & Hr & Hp & Hs & Hm).
  assert (queued s = []) as Hq by (unfold queued; by rewrite Hp).
  split; [|exact Hq]. split; cbn; try done.
  - unfold held. by rewrite Hr.
  - by rewrite Hr.
  - split; simpl; [by rewrite Hs, Hq|by rewrite Hs|by rewrite Hp|done].
  - unfold with_framework. cbn. by rewrite Hq.
Qed.

Lemma hp_steps_inv allowed x y : rtc (hp_step allowed) x y → hp_inv x → hp_inv y.
Proof.
  induction 1 as [|x z y Hstep _ IH]; [done|]. intros Hx.
  destruct (step_effect _ _ _ Hstep Hx) as [l Hl]. by eapply IH, effect_inv.
Qed.

(** * What holds of every run *)

(** The sensors HAL proxy is safe in every interleaving of sub-HALs that
    post, the pending-writes thread, the wake lock thread, holders of scoped
    wake locks and the rest of the proxy: the kernel's wake lock is held exactly
    while the reference count is positive and never acquired when held or
    released when free; the pending queue's counter is exact and bounded; and
    no thread's next section meets undefined behaviour. *)
Theorem sensor_system_safe allowed x y :
  hp_start x → rtc (hp_step allowed) x y →
  wl_trace false (hp_log y) = Some (bool_decide (0 < refcount (hp_proxy y))) ∧
  queue_size (hp_proxy y) = zlen (queued (hp_proxy y)) ∧
  queue_size (hp_proxy y) ≤ most_seen (hp_proxy y) ≤ kMaxSizePendingWriteEventsQueue ∧
  wp (handlePendingWrites (hp_writer y)) (hp_proxy y) (hp_world y) (λ _ _ _ _, True) ∧
  wp (handleWakelocks (hp_waker y)) (hp_proxy y) (hp_world y) (λ _ _ _ _, True) ∧
  ∀ p, hp_poster y = Some p →
    wp (post_enqueue p) (hp_proxy y) (hp_world y) (λ _ _ _ _, True).
Proof.
  intros [Hx _]%hp_start_inv Hsteps.
  apply hp_steps_inv in Hsteps as [Il Ir Iq [Ic Iw] _ Ip]; [|done].
  split_and!; [done|apply Iq|apply Iq|apply Iq| | |].
  - eapply wp_mono; [by apply thread_spec|done].
  - eapply wp_mono; [apply waker_framed|done]. destruct (hp_waker y); try done.
    intros Hnone. rewrite Hnone in Iw. by destruct Iw.
  - intros p Hp. eapply wp_mono; [apply (enqueue_spec (hp_writer y)); eauto|done].
Qed.

(** Sensor events from sub-HAL to framework: in every interleaving, what the
    framework was handed, followed by what still waits, is a subsequence of
    what the sub-HALs posted, in the order in which their posts took the
    queue's mutex, every event tagged with its sub-HAL's index and pick-up
    gestures with a value other than 1 left out. *)
Theorem sensor_events_end_to_end allowed x y :
  hp_start x → rtc (hp_step allowed) x y →
  sublist (delivered (hp_log y) ++ waiting (hp_writer y) (hp_proxy y))
    (concat ((λ p : batch, filter (passes getSensorInfo) (tag_event p.1.1 <$> p.1.2)) <$> hp_posted y)).
Proof. intros [Hx _]%hp_start_inv Hsteps. by apply hp_steps_inv in Hsteps as [_ _ _ _ ? _]. Qed.

(** And nothing is lost on the way while every posted batch fits under the
    maximum and no blocking write fails: then the framework was handed, or
    waits for, exactly what the sub-HALs posted, tagged and filtered. *)
Theorem sensor_events_all_arrive allowed x y :
  (∀ s p, allowed s p → queue_size s + zlen (owed p) ≤ kMaxSizePendingWriteEventsQueue) →
  hp_start x → rtc (hp_step allowed) x y → no_failed_write (hp_log y) →
  delivered (hp_log y) ++ waiting (hp_writer y) (hp_proxy y) =
    concat (owed <$> hp_posted y).
Proof.
  intros Hroomy [Hx Heq]%hp_start_inv Hsteps. revert Hx Heq.
  induction Hsteps as [x|x z y Hstep Hsteps IH]; [done|]. intros Hx Heq Hnf.
  destruct (step_effect _ _ _ Hstep Hx) as [l He]. apply IH; [by eapply effect_inv| |done].
  assert (no_failed_write (hp_log z)) as Hnz.
  { clear -Hsteps Hnf. induction Hsteps as [|x z y Hstep _ IH]; [done|].
    specialize (IH Hnf). destruct Hstep; simpl in *; try done; by apply Forall_app in IH as []. }
  destruct He as [El _ _ _ _ (added & Ea & _ & Ef)]. rewrite El in Hnz.
  apply Forall_app in Hnz as [_ Hnl].
  unfold with_framework in *. rewrite El, delivered_app, Ea, <- app_assoc, (Ef Hroomy Hnl).
  by rewrite app_assoc, Heq.
Qed.

(** Calls that write to the event message queue. *)
Definition writes_events (X : Type) (c : halE SubHal X) : bool :=
  match c with Eq_write _ _ | Eq_writeBlocking _ _ _ _ => true | _ => false end.

(** One writer at a time: while the pending-writes thread is between
    choosing a batch and removing it, its blocking write outside the mutex
    included, no post writes to the event message queue (which allows one
    writer only). *)
Theorem single_queue_writer allowed x y p :
  hp_start x → rtc (hp_step allowed) x y →
  match hp_writer y with
  | PwWrite _ _ _ | PwDrop _ _ _ | PwFinish _ _ =>
      wp (post_enqueue p) (hp_proxy y) (hp_world y) (λ _ _ _ l,
        count_calls writes_events l = 0%nat)
  | _ => True
  end.
Proof.
  intros [Hx _]%hp_start_inv Hsteps. apply hp_steps_inv in Hsteps as [_ _ Iq _ _ _]; [|done].
  pose proof (thread_coherent _ _ Iq) as Hpc.
  enough (mPendingWriteEventsQueue (pending (hp_proxy y)) ≠ [] →
    wp (post_enqueue p) (hp_proxy y) (hp_world y) (λ _ _ _ l,
      count_calls writes_events l = 0%nat)) as Hgen.
  { destruct (hp_writer y); try done; apply Hgen;
      destruct Hpc as (_ & batch & rest & -> & _); done. }
  intros Hp. destruct p as [[i events] locked]. unfold post_enqueue.
  destruct (processEvents getSensorInfo i events) as [out k]. unfold write_now, push_pending.
  apply wp_bind, wp_bind, wp_get. rewrite bool_decide_false by done.
  apply wp_ret, wp_bind, wp_get. unfold modify_pending. wp_run; done.
Qed.

(** The machine integers of the event path stay exact in every interleaving:
    the reference count, the queue's size and its high-water mark are values of
    [size_t] reached without wrapping, and the locals the pending-writes thread
    carries over its unlocked section are coherent with the queue it comes back
    to, so that neither its erase nor its subtraction goes below zero. *)
Theorem sensor_counters_typed allowed x y :
  hp_start x → rtc (hp_step allowed) x y →
  in_uint 64 (refcount (hp_proxy y)) ∧
  in_uint 64 (queue_size (hp_proxy y)) ∧
  in_uint 64 (most_seen (hp_proxy y)) ∧
  match hp_writer y with
  | PwWrite _ size n | PwDrop _ size n | PwFinish size n =>
      0 ≤ n ≤ size ∧ n ≤ queue_size (hp_proxy y)
  | _ => True
  end.
Proof.
  intros [Hx _]%hp_start_inv Hsteps. apply hp_steps_inv in Hsteps as [_ Ir Iq _ _ _]; [|done].
  pose proof Iq as [Hs Hb _ Hpc]. pose proof max_pending_range.
  pose proof (zlen_nonneg (queued (hp_proxy y))).
  split_and!; [done|unfold in_uint; lia|unfold in_uint; lia|].
  assert (∀ size n, (0 ≤ size ∧ ∃ batch rest,
    mPendingWriteEventsQueue (pending (hp_proxy y)) = batch :: rest ∧
    n = Z.min (zlen batch.1) size) → 0 ≤ n ≤ size ∧ n ≤ queue_size (hp_proxy y)) as Hgen.
  { intros size n (Hsz & batch & rest & Hp & Hn). rewrite Hs, (queued_cons _ _ _ Hp).
    destruct (front_bounds batch.1 (concat rest.*1) size n Hsz Hn). lia. }
  destruct (hp_writer y); try done; by apply Hgen.
Qed.
End system.

(** * Witnesses: one sub-HAL's wake-up sensors, a message queue with room for two *)
#[local] Existing Instance aosp_sensors.
#[local] Existing Instance aosp_sensors_laws.
#[local] Existing Instance EventQueueFacts.demo_env.

Definition wakeup_info (_ : Z) : SensorInfo := MkSensorInfo 0 "" 1 "" float_1 WAKE_UP.
Definition demo_post : batch := (1, demo_batch, true).
Definition demo_init : hp_sys := HpSys demo_proxy 0 WlTop PwTop None [] [].

Definition fits (s : HalProxy nat) (p : batch) : Prop :=
  queue_size s + zlen (owed wakeup_info p) ≤ kMaxSizePendingWriteEventsQueue.

(** The post has counted its three wake-up events. *)
Definition demo_counted : hp_sys :=
  HpSys (set_wakelock (MkWakelock 3 0 0) demo_proxy) 1 WlTop PwTop (Some demo_post)
    [Entry AcquireWakeLock tt; Entry NotifyWakelockCV tt; Entry GetTimeNow 0] [].

(** It is done: two events are with the framework, one waits. *)
Definition demo_done : hp_sys :=
  HpSys (set_pending (MkPending [([tag_event 1 (demo_event 3)], 3)] 1 1)
      (set_wakelock (MkWakelock 3 0 0) demo_proxy)) 1 WlTop PwTop None
    (hp_log demo_counted ++
     [Entry (Eq_availableToWrite 1) 2; Entry (Eq_write 1 (tag_event 1 ∘ demo_event <$> [1; 2])) true;
      Entry (Flag_wake 3) tt; Entry NotifyEventQueueWriteCV tt])
    [demo_post].

Lemma demo_steps : rtc (hp_step wakeup_info true fits) demo_init demo_done.
Proof.
  apply rtc_l with demo_counted; [|apply rtc_once].
  - apply (hp_count _ _ _ demo_post demo_proxy 0 WlTop PwTop [] []); try by vm_compute.
    by left.
  - apply (hp_enqueue _ _ _ demo_post); by vm_compute.
Defined.

Lemma demo_init_ok : hp_start demo_init.
Proof. repeat split; first [by eexists|by vm_compute]. Defined.

Lemma sensor_system_safe_witness :
  wl_trace false (hp_log demo_done) = Some true ∧ queue_size (hp_proxy demo_done) = 1.
Proof.
  destruct (sensor_system_safe wakeup_info true fits demo_init demo_done demo_init_ok demo_steps)
    as (Hlock & Hsize & _).
  split; [exact Hlock|exact Hsize].
Defined.

Lemma sensor_events_end_to_end_witness :
  sublist (delivered (hp_log demo_done) ++ [tag_event 1 (demo_event 3)])
    (tag_event 1 <$> demo_batch).
Proof.
  exact (sensor_events_end_to_end wakeup_info true fits demo_init demo_done demo_init_ok demo_steps).
Defined.

Lemma sensor_events_all_arrive_witness :
  delivered (hp_log demo_done) ++ [tag_event 1 (demo_event 3)] = tag_event 1 <$> demo_batch.
Proof.
  assert (no_failed_write (hp_log demo_done)) as Hnf by repeat constructor.
  pose proof (sensor_events_all_arrive wakeup_info true fits demo_init demo_done
    (λ _ _ Hfits, Hfits) demo_init_ok demo_steps Hnf) as Hall.
  exact Hall.
Defined.

Lemma sensor_counters_typed_witness :
  in_uint 64 (refcount (hp_proxy demo_done)) ∧ refcount (hp_proxy demo_done) = 3.
Proof.
  destruct (sensor_counters_typed wakeup_info true fits demo_init demo_done demo_init_ok demo_steps)
    as [Hr _].
  split; [exact Hr|done].
Defined.

(** The thread has picked the waiting batch when a second sub-HAL posts. *)
Definition demo_writing : hp_sys :=
  HpSys (hp_proxy demo_done) 1 WlTop (PwWrite 3 2 1) None
    (hp_log demo_done ++ [Entry (Eq_getQuantumCount 1) 2]) [demo_post].

Lemma demo_writing_steps : rtc (hp_step wakeup_info true fits) demo_init demo_writing.
Proof.
  etransitivity; [exact demo_steps|]. apply rtc_l with
    (HpSys (hp_proxy demo_done) 1 WlTop PwWait None (hp_log demo_done ++ []) [demo_post]).
  - apply (hp_write _ _ _ PwTop (hp_proxy demo_done) 1); by first [left|vm_compute].
  - apply rtc_once. rewrite app_nil_r.
    apply (hp_write _ _ _ PwWait (hp_proxy demo_done) 1); by first [left|vm_compute].
Defined.

Lemma single_queue_writer_witness :
  wp (post_enqueue wakeup_info (2, two_wakeups, true)) (hp_proxy demo_writing) 1
    (λ _ _ _ l, count_calls writes_events l = 0%nat).
Proof.
  exact (single_queue_writer wakeup_info true fits demo_init demo_writing (2, two_wakeups, true)
    demo_init_ok demo_writing_steps).
Defined.
