(* ===== verification/HalProxyThreads.v ===== *)
(** The threads of the sensors HAL proxy ([src/sensors/HalProxy.cpp]), cut at
    every access: the two worker threads, sub-HALs that post events and hold
    wake locks, the framework's calls, and the end of the proxy.

    The functions that take [mWakelockMutex] or [mEventQueueWriteMutex] are given
    here with their locks and waits; what they do under the mutexes is that of
    [Wakelock] and [EventQueue].  [mWakelockMutex] is recursive: [nested] says that
    the caller holds it already, so that taking it again changes nothing that
    others can see. *)
From S2P Require Import Prelude Effects Threads SensorTypes SensorHandle HalProxyState HalProxy Wakelock EventQueue HalProxyInit HalProxyCallback.
From stdpp Require Import options.
#[local] Set Default Proof Using "Type*".

Inductive hal_mutex := mEventQueueWriteMutex | mWakelockMutex | mDynamicSensorsMutex.
#[export] Instance hal_mutex_eq_dec : EqDecision hal_mutex.
Proof. solve_decision. Defined.

Section threads.
Context {SubHal : Type} {SubHal_eq : EqDecision SubHal}.
Context {SC : SensorConsts} {MO : MapOrder Z SensorInfo}.

#[local] Abbreviation hal A := (prog (halE SubHal) (HalProxy SubHal) A).

(** * The wake lock *)
Definition under_wakelock_mutex {A} (nested : bool) (p : hal A) : hal A :=
  if nested then p
  else call LockWakelock ;; a ← p; call UnlockWakelock ;; mret a.

Definition incrementRefCount_thread (delta : Z) : hal (option Z) :=
  s ← get;
  if negb (mThreadsRun s) then mret None
  else t ← under_wakelock_mutex false (increment_locked delta); mret (Some t).

Definition decrementRefCount_thread (nested : bool) (delta timeoutStart : Z) : hal unit :=
  s ← get;
  if negb (mThreadsRun s) then mret ()
  else under_wakelock_mutex nested (decrement_locked delta timeoutStart).

Definition resetSharedWakelock_thread (nested : bool) : hal unit :=
  under_wakelock_mutex nested (
    s ← get;
    decrementRefCount_thread true (mWakelockRefCount (wakelock s)) (-1) ;;
    now ← call GetTimeNow;
    modify_wakelock (set_mWakelockTimeoutResetTime now)).

(** [mWakelockCV.wait(lock, predicate)]; [None]: out of fuel. *)
Fixpoint wait_wakelock (fuel : nat) : hal (option unit) :=
  match fuel with
  | O => mret None
  | S fuel =>
      s ← get;
      if bool_decide (0 < mWakelockRefCount (wakelock s)) || negb (mThreadsRun s)
      then mret (Some ())
      else call WaitWakelockCV ;; wait_wakelock fuel
  end.

(** One turn of the loop, after the wait. *)
Definition handleWakelock : hal unit :=
  t ← sharedWakelockDidTimeout;
  match t with
  | None => resetSharedWakelock_thread true
  | Some timeLeft =>
      call UnlockWakelock ;;
      s ← get;
      q ← deref (mWakeLockQueue (queues s));
      success ← call (Wl_readBlocking q timeLeft);
      call LockWakelock ;;
      match success with
      | Some numWakeLocksProcessed =>
          decrementRefCount_thread true (to_uint32 numWakeLocksProcessed) (-1)
      | None => mret ()
      end
  end.

Fixpoint handleWakelocks_loop (fuel : nat) : hal (option unit) :=
  match fuel with
  | O => mret None
  | S fuel =>
      s ← get;
      if mThreadsRun s then
        r ← wait_wakelock fuel;
        match r with
        | None => mret None
        | Some _ =>
            s ← get;
            (if mThreadsRun s then handleWakelock else mret ()) ;;
            handleWakelocks_loop fuel
        end
      else mret (Some ())
  end.

Definition handleWakelocks_thread (fuel : nat) : hal (option unit) :=
  call LockWakelock ;;
  r ← handleWakelocks_loop fuel;
  match r with
  | None => mret None
  | Some _ =>
      resetSharedWakelock_thread true ;;
      call UnlockWakelock ;;
      mret (Some ())
  end.

(** * The event queue *)
Definition postEventsToMessageQueue_thread (events : list Event) (numWakeupEvents : Z)
    (wakelock_isLocked : bool) : hal unit :=
  call LockEventQueueWrite ;;
  (if wakelock_isLocked
   then _ ← incrementRefCount_thread numWakeupEvents; mret ()
   else mret ()) ;;
  numToWrite ← write_now events;
  push_pending events numWakeupEvents numToWrite ;;
  call UnlockEventQueueWrite.

(** [mEventQueueWriteCV.wait(lock, predicate)]. *)
Fixpoint wait_pending (fuel : nat) : hal (option unit) :=
  match fuel with
  | O => mret None
  | S fuel =>
      s ← get;
      if negb (bool_decide (mPendingWriteEventsQueue (pending s) = [])) || negb (mThreadsRun s)
      then mret (Some ())
      else call WaitEventQueueWriteCV ;; wait_pending fuel
  end.

(** The events of a failed write are taken off the count.  [pendingWriteEvents]
    refers to the front of the queue. *)
Definition drop_wakeups (numWakeupEvents eventQueueSize : Z) : hal unit :=
  if bool_decide (0 < numWakeupEvents) then
    '(pendingWriteEvents, _) ← front;
    if bool_decide (eventQueueSize < zlen pendingWriteEvents) then
      n ← countNumWakeupEvents pendingWriteEvents eventQueueSize;
      decrementRefCount_thread false n (-1)
    else decrementRefCount_thread false numWakeupEvents (-1)
  else mret ().

(** What was written leaves the queue. *)
Definition pop_written (eventQueueSize numToWrite : Z) : hal unit :=
  modify_pending (λ p, set_mSizePendingWriteEventsQueue
    (to_size (mSizePendingWriteEventsQueue p - numToWrite)) p) ;;
  '(pendingWriteEvents, numWakeupEvents) ← front;
  modify_pending (λ p, set_mPendingWriteEventsQueue
    (if bool_decide (eventQueueSize < zlen pendingWriteEvents)
     then set_front (zdrop eventQueueSize pendingWriteEvents, numWakeupEvents)
            (mPendingWriteEventsQueue p)
     else tail (mPendingWriteEventsQueue p)) p).

(** One turn of the loop, after the wait. *)
Definition handlePendingWrite : hal unit :=
  '(pendingWriteEvents, numWakeupEvents) ← front;
  s ← get;
  q ← deref (mEventQueue (queues s));
  quantum ← call (Eq_getQuantumCount q);
  let eventQueueSize := to_size quantum in
  let numToWrite := Z.min (zlen pendingWriteEvents) eventQueueSize in
  call UnlockEventQueueWrite ;;
  '(pendingWriteEvents, _) ← front;
  s ← get;
  q ← deref (mEventQueue (queues s));
  ok ← call (Eq_writeBlocking q (ztake numToWrite pendingWriteEvents) kPendingWriteTimeoutNs
               (mEventQueueFlag (queues s)));
  (if ok : bool then mret () else drop_wakeups numWakeupEvents eventQueueSize) ;;
  call LockEventQueueWrite ;;
  pop_written eventQueueSize numToWrite.

Fixpoint handlePendingWrites_loop (fuel : nat) : hal (option unit) :=
  match fuel with
  | O => mret None
  | S fuel =>
      s ← get;
      if mThreadsRun s then
        r ← wait_pending fuel;
        match r with
        | None => mret None
        | Some _ =>
            s ← get;
            (if mThreadsRun s then handlePendingWrite else mret ()) ;;
            handlePendingWrites_loop fuel
        end
      else mret (Some ())
  end.

Definition handlePendingWrites_thread (fuel : nat) : hal (option unit) :=
  call LockEventQueueWrite ;;
  r ← handlePendingWrites_loop fuel;
  match r with
  | None => mret None
  | Some _ => call UnlockEventQueueWrite ;; mret (Some ())
  end.

(** * Everybody else *)
Context (getSensorInfo : Z → SensorInfo) (asserts : bool).
Context (convertToNewEvent convertToOldEvent : Event → Event).

Definition postEvents_thread : Z → list Event → bool → hal unit :=
  postEvents_with getSensorInfo asserts postEventsToMessageQueue_thread.

Definition initializeCommon_thread : option Z → option Z → option Z → hal Result :=
  initializeCommon_with (resetSharedWakelock_thread false).

(** What a client asks of the proxy: the sub-HALs' callback and wake locks
    (a [ScopedWakelock] counts when it is made and when it goes), their dynamic
    sensors, and the framework's calls. *)
Inductive request :=
| PostEvents (subHalIndex : Z) (events : list Event) (wakelock_isLocked : bool)
| IncrementRefCount (delta : Z)
| DecrementRefCount (delta timeoutStart : Z)
| DynamicSensorsConnected (sensors : list SensorInfo) (subHalIndex : Z)
| DynamicSensorsDisconnected (handles : list Z) (subHalIndex : Z)
| GetSensorsList
| SetOperationMode (mode : OperationMode)
| Activate (sensorHandle : Z) (enabled : bool)
| Batch (sensorHandle samplingPeriodNs maxReportLatencyNs : Z)
| Flush (sensorHandle : Z)
| InjectSensorData (event : Event)
| RegisterDirectChannel (mem : Z)
| UnregisterDirectChannel (channelHandle : Z)
| ConfigDirectReport (sensorHandle channelHandle : Z) (rate : RateLevel)
| Debug (fds : option (list Z)).

Definition ignore {A} (p : hal A) : hal unit := _ ← p; mret ().

Definition serve (r : request) : hal unit :=
  match r with
  | PostEvents i events locked => postEvents_thread i events locked
  | IncrementRefCount delta => ignore (incrementRefCount_thread delta)
  | DecrementRefCount delta timeoutStart => decrementRefCount_thread false delta timeoutStart
  | DynamicSensorsConnected sensors i => onDynamicSensorsConnected sensors i
  | DynamicSensorsDisconnected handles i => onDynamicSensorsDisconnected handles i
  | GetSensorsList => ignore getSensorsList_2_1
  | SetOperationMode mode => ignore (setOperationMode mode)
  | Activate h enabled => ignore (activate h enabled)
  | Batch h period latency => ignore (batch h period latency)
  | Flush h => ignore (flush h)
  | InjectSensorData event =>
      ignore (injectSensorData_2_1 convertToOldEvent convertToNewEvent event)
  | RegisterDirectChannel mem => ignore (registerDirectChannel mem)
  | UnregisterDirectChannel channel => ignore (unregisterDirectChannel channel)
  | ConfigDirectReport h channel rate => ignore (configDirectReport h channel rate)
  | Debug fds => debug fds
  end.

(** A client's thread, and the thread that ends the proxy. *)
Definition client_thread (rs : list request) : hal (option unit) :=
  foreach serve rs ;; mret (Some ()).

Definition stopper_thread (rs : list request) : hal (option unit) :=
  foreach serve rs ;; HalProxy_destructor ;; mret (Some ()).
End threads.

(** The mutexes, the condition variables and the threads of HalProxy.cpp. *)
Definition hal_sync {SubHal} {SC : SensorConsts} (fuel : nat)
    : Sync (halE SubHal) hal_mutex (HalProxy SubHal) (option unit) := λ X c,
  match c in halE _ X return option (sync (halE SubHal) hal_mutex (HalProxy SubHal) (option unit) X) with
  | LockWakelock => Some (Acquire mWakelockMutex)
  | UnlockWakelock => Some (Release mWakelockMutex)
  | WaitWakelockCV => Some (Wait mWakelockMutex (λ _ _, tt))
  | LockEventQueueWrite => Some (Acquire mEventQueueWriteMutex)
  | UnlockEventQueueWrite => Some (Release mEventQueueWriteMutex)
  | WaitEventQueueWriteCV => Some (Wait mEventQueueWriteMutex (λ _ _, tt))
  | LockDynamicSensors => Some (Acquire mDynamicSensorsMutex)
  | UnlockDynamicSensors => Some (Release mDynamicSensorsMutex)
  | StartPendingWritesThread => Some (Spawn (handlePendingWrites_thread fuel) id None)
  | StartWakelockThread => Some (Spawn (handleWakelocks_thread fuel) id None)
  | JoinPendingWritesThread t | JoinWakelockThread t => Some (Join t tt)
  | _ => None
  end.
