(* ===== verification/HalProxyAlone.v ===== *)
(** The sensors HAL's functions with their locks ([HalProxyThreads]) are those
    without ([Wakelock], [EventQueue], [HalProxyCallback], [HalProxyInit]) when
    their thread runs alone: the calls of the mutexes are all that is added. *)
From S2P Require Import Prelude Effects SensorTypes HalProxyState HalProxy HalProxyFacts Wakelock EventQueue EventQueueFacts HalProxyInit HalProxyCallback HalProxyThreads.
From stdpp Require Import options.
#[local] Set Default Proof Using "Type*".

Section alone.
Context {SubHal : Type} {SubHal_eq : EqDecision SubHal}.
Context {SC : SensorConsts} {MO : MapOrder Z SensorInfo}.
#[local] Abbreviation hal A := (prog (halE SubHal) (HalProxy SubHal) A).

(** What a call of a mutex answers. *)
Definition lock_answer {X} (c : halE SubHal X) : option X :=
  match c in halE _ X return option X with
  | LockWakelock | UnlockWakelock | LockEventQueueWrite | UnlockEventQueueWrite
  | LockDynamicSensors | UnlockDynamicSensors => Some tt
  | _ => None
  end.

(** [q] is [p] without some of its calls of mutexes. *)
Inductive sans_locks {A} : hal A → hal A → Prop :=
| un_lock {X} (c : halE SubHal X) x k q :
    lock_answer c = Some x → sans_locks (k x) q → sans_locks (Call c k) q
| un_ret a : sans_locks (Ret a) (Ret a)
| un_call {X} (c : halE SubHal X) k k' :
    (∀ x, sans_locks (k x) (k' x)) → sans_locks (Call c k) (Call c k')
| un_get k k' : (∀ s, sans_locks (k s) (k' s)) → sans_locks (Get k) (Get k')
| un_modify f p p' : sans_locks p p' → sans_locks (Modify f p) (Modify f p')
| un_ub : sans_locks UB UB.

Lemma unlocked_refl {A} (p : hal A) : sans_locks p p.
Proof using Type. induction p; by constructor. Qed.

Lemma unlocked_bind {A B} (p p' : hal A) (k k' : A → hal B) :
  sans_locks p p' → (∀ a, sans_locks (k a) (k' a)) → sans_locks (p ≫= k) (p' ≫= k').
Proof using Type.
  intros Hp Hk. unfold mbind. induction Hp; simpl; [by eapply un_lock|apply Hk|by constructor..].
Qed.

Lemma unlocked_locked {A} (c : halE SubHal unit) (k : unit → hal A) q :
  lock_answer c = Some tt → sans_locks (k tt) q → sans_locks (call c ≫= k) q.
Proof using Type. intros Hc Hk. by apply (un_lock c tt k). Qed.

(** What follows is only an unlock. *)
Lemma unlocked_tail {A} (p q : hal A) (k : A → hal A) :
  sans_locks p q → (∀ a, sans_locks (k a) (mret a)) → sans_locks (p ≫= k) q.
Proof using Type.
  intros Hp Hk. unfold mbind. induction Hp; simpl; [by eapply un_lock|apply Hk|by constructor..].
Qed.

Lemma under_wakelock_unlocked {A} nested (p q : hal A) :
  sans_locks p q → sans_locks (under_wakelock_mutex nested p) q.
Proof using Type.
  intros Hp. destruct nested; [done|]. apply unlocked_locked; [done|].
  apply unlocked_tail; [done|]. intros a. by apply unlocked_locked, unlocked_refl.
Qed.

Lemma increment_unlocked delta :
  sans_locks (incrementRefCount_thread delta) (incrementRefCountAndMaybeAcquireWakelock delta).
Proof using Type.
  apply un_get. intros s. change (sans_locks (if negb (mThreadsRun s) then mret None
    else t ← under_wakelock_mutex false (increment_locked delta); mret (Some t))
    (if negb (mThreadsRun s) then mret None else t ← increment_locked delta; mret (Some t))).
  destruct (negb _); [apply unlocked_refl|].
  apply unlocked_bind; [|intros t; apply unlocked_refl].
  by apply under_wakelock_unlocked, unlocked_refl.
Qed.

Lemma decrement_unlocked nested delta start :
  sans_locks (decrementRefCount_thread nested delta start)
    (decrementRefCountAndMaybeReleaseWakelock delta start).
Proof using Type.
  unfold decrementRefCount_thread, decrementRefCountAndMaybeReleaseWakelock.
  apply unlocked_bind; [apply unlocked_refl|]. intros s. destruct (negb _); [apply unlocked_refl|].
  by apply under_wakelock_unlocked, unlocked_refl.
Qed.

Lemma reset_unlocked nested : sans_locks (resetSharedWakelock_thread nested) resetSharedWakelock.
Proof using Type.
  apply under_wakelock_unlocked. unfold resetSharedWakelock.
  apply unlocked_bind; [apply unlocked_refl|]. intros s.
  apply unlocked_bind; [apply decrement_unlocked|]. intros []. apply unlocked_refl.
Qed.

Lemma postEventsToMessageQueue_unlocked events n locked :
  sans_locks (postEventsToMessageQueue_thread events n locked) (postEventsToMessageQueue events n locked).
Proof using Type.
  apply unlocked_locked; [done|]. unfold postEventsToMessageQueue. apply unlocked_bind.
  { destruct locked; [|apply unlocked_refl].
    apply unlocked_bind; [apply increment_unlocked|]. intros t. apply unlocked_refl. }
  intros []. apply unlocked_bind; [apply unlocked_refl|]. intros numToWrite.
  apply unlocked_tail; [apply unlocked_refl|]. intros [].
  by apply (un_lock UnlockEventQueueWrite tt), un_ret.
Qed.

Context (getSensorInfo : Z → SensorInfo) (asserts : bool).

Lemma postEvents_unlocked i events locked :
  sans_locks (postEvents_thread getSensorInfo asserts i events locked)
    (postEvents getSensorInfo asserts i events locked).
Proof using Type.
  unfold postEvents_thread, postEvents, postEvents_with.
  apply unlocked_bind; [apply unlocked_refl|]. intros s. destruct (_ || _); [apply unlocked_refl|].
  destruct (processEvents _ _ _) as [es n]. apply unlocked_bind; [apply unlocked_refl|].
  intros []. apply postEventsToMessageQueue_unlocked.
Qed.

Lemma initializeCommon_unlocked q wq cb :
  sans_locks (initializeCommon_thread q wq cb) (initializeCommon q wq cb).
Proof using Type.
  unfold initializeCommon_thread, initializeCommon, initializeCommon_with.
  apply unlocked_bind; [apply unlocked_refl|]. intros [].
  apply unlocked_bind; [apply reset_unlocked|]. intros []. apply unlocked_refl.
Qed.

(** ** What runs alone *)
Context {W : Type} {H : Handler (halE SubHal) W}.

Definition is_lock (e : entry (halE SubHal)) : bool :=
  match e with Entry c _ => if lock_answer c is Some _ then true else false end.

(** The same outcome, world and calls, but for those of mutexes. *)
Definition same_but_locks {A} (x y : exec (halE SubHal) W (HalProxy SubHal) A) : Prop :=
  ex_out x = ex_out y ∧ ex_world x = ex_world y ∧
  filter (λ e, is_lock e = false) (ex_log x) = filter (λ e, is_lock e = false) (ex_log y).

(** Nobody else uses the mutexes: they are there at once. *)
Definition locks_free : Prop :=
  ∀ X (c : halE SubHal X) x w, lock_answer c = Some x → handle c w = (x, w).

Lemma run_Call {A X} (c : halE SubHal X) (k : X → hal A) s w :
  run (Call c k) s w = let '(x, w') := handle c w in
    match run (k x) s w' with Exec o w'' l => Exec o w'' (Entry c x :: l) end.
Proof using Type. done. Qed.

Lemma unlocked_run {A} (p q : hal A) s w :
  locks_free → sans_locks p q → same_but_locks (run p s w) (run q s w).
Proof using Type.
  intros Hfree Hpq. revert s w.
  induction Hpq as [X c x k q Hc Hk IH|a|X c k k' Hk IH|k k' Hk IH|f p p' Hp IH|];
    intros s w; [rewrite run_Call|done|rewrite !run_Call|by apply IH|by apply IH|done].
  - rewrite (Hfree X c x w Hc). specialize (IH s w). destruct (run (k x) s w) as [o w' l].
    destruct IH as (Ho & Hw & Hl). simpl in *. split_and!; [done|done|]. simpl.
    rewrite filter_cons_False; [done|]. simpl. by rewrite Hc.
  - destruct (handle c w) as [x w1]. specialize (IH x s w1).
    destruct (run (k x) s w1) as [o w' l], (run (k' x) s w1) as [o' w'' l'].
    destruct IH as (Ho & Hw & Hl). simpl in *. split_and!; [done|done|]. simpl.
    rewrite !filter_cons. by rewrite Hl.
Qed.

End alone.

(** * A post of three events, two of which fit *)
#[local] Existing Instance aosp_sensors.
#[local] Instance alone_order : MapOrder Z SensorInfo := map_to_list_order Z SensorInfo.
#[local] Instance alone_env : Handler (halE nat) Z := simple_env (λ _, OK) (λ _, []) 2.

