(* ===== verification/HalProxyProtocol.v ===== *)
(** The protocol of the sensors HAL proxy's threads ([HalProxyThreads]): what
    each of the three mutexes protects, what is known of the trace, and the
    invariant. *)
From S2P Require Import Prelude Effects SensorTypes HalProxyState Wakelock WakelockFacts EventQueue EventQueueFacts HalProxyCallback HalProxySystem HalProxyThreads Threads ThreadsLogic.
From stdpp Require Import options.
#[local] Set Default Proof Using "Type*".

(** * What a trace tells *)
Record ghost := Ghost {
  g_kernel : bool;                         (* the kernel's wake lock is held *)
  g_wl_asleep : bool;                      (* the wake lock thread sleeps, not notified since *)
  g_eq_asleep : bool;                      (* so does the pending-writes thread *)
  g_accepted : list Event;                 (* what posts have handed on or queued, in order *)
  g_written : list (list Event * bool);    (* what was handed on, and what the writes answered *)
  g_inflight : list Event;                 (* written, and not yet off the queue *)
  g_pieces : list (list Event);            (* what was accepted, cut at every end of a use of
                                              [mEventQueueWriteMutex] *)
}.

Definition set_g_kernel (b : bool) (g : ghost) : ghost :=
  Ghost b (g_wl_asleep g) (g_eq_asleep g) (g_accepted g) (g_written g) (g_inflight g) (g_pieces g).
Definition set_g_wl_asleep (b : bool) (g : ghost) : ghost :=
  Ghost (g_kernel g) b (g_eq_asleep g) (g_accepted g) (g_written g) (g_inflight g) (g_pieces g).
Definition set_g_eq_asleep (b : bool) (g : ghost) : ghost :=
  Ghost (g_kernel g) (g_wl_asleep g) b (g_accepted g) (g_written g) (g_inflight g) (g_pieces g).
Definition set_g_accepted (l : list Event) (g : ghost) : ghost :=
  Ghost (g_kernel g) (g_wl_asleep g) (g_eq_asleep g) l (g_written g) (g_inflight g) (g_pieces g).
Definition set_g_written (l : list (list Event * bool)) (g : ghost) : ghost :=
  Ghost (g_kernel g) (g_wl_asleep g) (g_eq_asleep g) (g_accepted g) l (g_inflight g) (g_pieces g).
Definition set_g_inflight (l : list Event) (g : ghost) : ghost :=
  Ghost (g_kernel g) (g_wl_asleep g) (g_eq_asleep g) (g_accepted g) (g_written g) l (g_pieces g).
Definition set_g_pieces (l : list (list Event)) (g : ghost) : ghost :=
  Ghost (g_kernel g) (g_wl_asleep g) (g_eq_asleep g) (g_accepted g) (g_written g) (g_inflight g) l.

(** What has been accepted since the last end of a use of the mutex. *)
Definition open_piece (g : ghost) : list Event :=
  drop (length (concat (g_pieces g))) (g_accepted g).
Definition close_piece (g : ghost) : ghost := set_g_pieces (g_pieces g ++ [open_piece g]) g.

Section protocol.
Context {SubHal : Type} {SC : SensorConsts}.
#[local] Abbreviation hal_event := (event (halE SubHal) (HalProxy SubHal)).
#[local] Abbreviation state := (shared (halE SubHal) hal_mutex (HalProxy SubHal)).
Implicit Types (t u : nat) (σ : state) (s : HalProxy SubHal).

Definition queue_of s : list (list Event * Z) := mPendingWriteEventsQueue (pending s).

(** A longer queue: a post has put a batch at its end.  Fewer events: the thread
    has taken what it wrote off the front. *)
Definition queue_step s s' (g : ghost) : ghost :=
  if bool_decide (length (queue_of s) < length (queue_of s'))%nat then
    set_g_accepted (g_accepted g ++ concat (drop (length (queue_of s)) (queue_of s')).*1) g
  else if bool_decide (length (queued s') < length (queued s))%nat then set_g_inflight [] g
  else g.

Definition ghost_step (g : ghost) (e : hal_event) : ghost :=
  match e with
  | Asked (Entry c x) =>
      match c in halE _ X return X → ghost with
      | AcquireWakeLock => λ _, set_g_kernel true g
      | ReleaseWakeLock => λ _, set_g_kernel false g
      | NotifyWakelockCV | WaitWakelockCV => λ _, set_g_wl_asleep false g
      | NotifyEventQueueWriteCV | WaitEventQueueWriteCV => λ _, set_g_eq_asleep false g
      | UnlockEventQueueWrite => λ _, close_piece g
      | Eq_write _ events => λ ok : bool,
          if ok then set_g_accepted (g_accepted g ++ events)
                       (set_g_written (g_written g ++ [(events, true)]) g)
          else g
      | Eq_writeBlocking _ events _ _ => λ ok : bool,
          set_g_inflight events (set_g_written (g_written g ++ [(events, ok)]) g)
      | _ => λ _, g
      end x
  | Slept WaitWakelockCV => set_g_wl_asleep true g
  | Slept WaitEventQueueWriteCV => set_g_eq_asleep true (close_piece g)
  | Slept _ => g
  | Wrote s s' => queue_step s s' g
  end.

(** At the beginning: the lock is held if it is counted. *)
Variable s0 : HalProxy SubHal.

Definition ghost0 : ghost :=
  Ghost (bool_decide (0 < refcount s0)) false false (queued s0) [] [] [queued s0].

Definition ghost_of (tr : list (nat * hal_event)) : ghost := foldl ghost_step ghost0 tr.*2.

Lemma ghost_snoc tr t e : ghost_of (tr ++ [(t, e)]) = ghost_step (ghost_of tr) e.
Proof using Type. unfold ghost_of. by rewrite fmap_app, foldl_app. Qed.

(** The reference count has always been small. *)
Definition small (tr : list (nat * hal_event)) : Prop :=
  ∀ t s s', (t, Wrote s s') ∈ tr → refcount s' < 2 ^ 63.

Lemma small_app tr tr' : small (tr ++ tr') → small tr.
Proof using Type. intros Hs t s s' Hin. apply (Hs t s). apply elem_of_app. by left. Qed.

(** * The protocol *)
Variables (writer waker stopper : nat).
Variable getSensorInfo : Z → SensorInfo.
(** The batches that a thread posts. *)
Variable posts : nat → list HalProxySystem.batch.

#[local] Abbreviation owed := (owed getSensorInfo).

(** A post adds the end of a batch of its thread; the pending-writes thread takes
    off what it has written. *)
Definition queue_change σ t (old new : list (list Event * Z)) : Prop :=
  new = old ∨
  (∃ events n p, new = old ++ [(events, n)] ∧ events ≠ [] ∧
    p ∈ posts t ∧ events `suffix_of` owed p) ∨
  (t = writer ∧ ∃ b n rest, old = (b, n) :: rest ∧ b ≠ [] ∧
    (new = rest ∧ b = g_inflight (ghost_of (trace σ)) ∨
     ∃ b', new = (b', n) :: rest ∧ b' ≠ [] ∧ b = g_inflight (ghost_of (trace σ)) ++ b')).

(** What a thread may have accepted while it held the mutex: the thread of pending
    writes nothing; a post its whole batch, or the part of it that was written
    when the rest does not fit in the pending queue. *)
Definition whole_piece t (p : Pending) (o : list Event) : Prop :=
  t = writer ∧ o = [] ∨
  ∃ b, b ∈ posts t ∧ o `prefix_of` owed b ∧
    (o = owed b ∨ kMaxSizePendingWriteEventsQueue <
      mSizePendingWriteEventsQueue p + zlen (drop (length o) (owed b))).

Record may_write σ t s s' : Prop := {
  mw_now : s = fields σ;
  mw_setup : mSubHalList s' = mSubHalList s ∧ mDirectChannelSubHal s' = mDirectChannelSubHal s ∧
    mDynamicSensorsCallback s' = mDynamicSensorsCallback s ∧ queues s' = queues s;
  mw_wakelock : wakelock s' = wakelock s ∨
    held σ mWakelockMutex = Some t ∧ in_uint 64 (refcount s') ∧
    (g_wl_asleep (ghost_of (trace σ)) = true → refcount s' = 0);
  mw_pending : pending s' = pending s ∨
    held σ mEventQueueWriteMutex = Some t ∧ queue_change σ t (queue_of s) (queue_of s');
  mw_running : mThreadsRun s' = mThreadsRun s ∨ t = stopper ∧ mThreadsRun s' = false;
  mw_writer : mPendingWritesThread s' = mPendingWritesThread s ∨
    t = stopper ∧ mPendingWritesThread s' = None;
  mw_waker : mWakelockThread s' = mWakelockThread s ∨ t = stopper ∧ mWakelockThread s' = None;
  mw_dynamic : mDynamicSensors s' = mDynamicSensors s ∨ held σ mDynamicSensorsMutex = Some t;
  mw_sensors : mSensors s' = mSensors s ∨
    t = writer ∧ ∃ h, mSensors s !! h = None ∧ mSensors s' = <[h := default_SensorInfo]> (mSensors s);
}.

Definition free_handed σ t : Prop := ∀ m, held σ m ≠ Some t.

(** Between uses of [mWakelockMutex], the kernel's lock is held exactly while it
    is counted. *)
Definition agrees σ : Prop :=
  small (trace σ) → g_kernel (ghost_of (trace σ)) = bool_decide (0 < refcount (fields σ)).

Definition hal_allowed σ t (e : hal_event) : Prop :=
  let s := fields σ in
  let g := ghost_of (trace σ) in
  match e with
  | Wrote s s' => may_write σ t s s'
  | Slept WaitWakelockCV => t = waker ∧ agrees σ ∧ refcount s = 0
  | Slept WaitEventQueueWriteCV => t = writer ∧ tidy (pending s) ∧ queue_of s = [] ∧
      open_piece g = []
  | Slept _ => False
  | Asked (Entry c x) =>
      match c with
      | AcquireWakeLock => held σ mWakelockMutex = Some t ∧ refcount s = 0 ∧
          (small (trace σ) → g_kernel g = false)
      | ReleaseWakeLock => held σ mWakelockMutex = Some t ∧ refcount s = 0 ∧
          (small (trace σ) → g_kernel g = true)
      | UnlockWakelock => agrees σ
      | NotifyWakelockCV => held σ mWakelockMutex = Some t ∨ t = stopper
      | WaitWakelockCV => t = waker
      | Wl_readBlocking q _ => t = waker ∧ free_handed σ t ∧ mWakeLockQueue (queues s) = Some q
      | UnlockEventQueueWrite => tidy (pending s) ∧ (g_eq_asleep g = true → queue_of s = []) ∧
          whole_piece t (pending s) (open_piece g)
      | NotifyEventQueueWriteCV => held σ mEventQueueWriteMutex = Some t ∨ t = stopper
      | WaitEventQueueWriteCV => t = writer
      | Eq_availableToWrite q => held σ mEventQueueWriteMutex = Some t ∧ mEventQueue (queues s) = Some q
      | Eq_write q events => held σ mEventQueueWriteMutex = Some t ∧
          mEventQueue (queues s) = Some q ∧ queue_of s = [] ∧ events ≠ [] ∧
          ∃ p, p ∈ posts t ∧ events `prefix_of` owed p
      | Eq_getQuantumCount q => t = writer ∧ mEventQueue (queues s) = Some q
      | Eq_writeBlocking q events timeOutNs flag => t = writer ∧ free_handed σ t ∧
          mEventQueue (queues s) = Some q ∧ timeOutNs = kPendingWriteTimeoutNs ∧
          flag = mEventQueueFlag (queues s) ∧ g_inflight g = [] ∧
          ∃ b n rest, queue_of s = (b, n) :: rest ∧ events `prefix_of` b
      | Flag_wake f => mEventQueueFlag (queues s) = Some f ∧ held σ mEventQueueWriteMutex = Some t ∨
          t = stopper ∧ (mEventQueueFlag (queues s) = Some f ∨ mWakelockQueueFlag (queues s) = Some f)
      | Eq_availableToRead q | Eq_read q _ => t = stopper ∧ mEventQueue (queues s) = Some q
      | Wl_write q _ => t = stopper ∧ mWakeLockQueue (queues s) = Some q
      | JoinPendingWritesThread z => t = stopper ∧ free_handed σ t ∧ z = Z.of_nat writer
      | JoinWakelockThread z => t = stopper ∧ free_handed σ t ∧ z = Z.of_nat waker
      | Cb_onDynamicSensorsConnected cb _ | Cb_onDynamicSensorsDisconnected cb _ =>
          free_handed σ t ∧ mDynamicSensorsCallback s = Some cb
      | Sub_setOperationMode _ _ | Sub_activate _ _ _ | Sub_batch _ _ _ _ | Sub_flush _ _
      | Sub_injectSensorData _ _ | Sub_registerDirectChannel _ _ | Sub_unregisterDirectChannel _ _
      | Sub_configDirectReport _ _ _ _ | Sub_getName _ | Sub_debug _ _ => free_handed σ t
      | LockWakelock | LockEventQueueWrite | LockDynamicSensors | UnlockDynamicSensors
      | GetTimeNow | DupFd _ | WriteStringToFd _ _ => True
      | Sub_getSensorsList _ | Sub_initialize _ _ | Flag_create _ | Flag_delete _
      | StartPendingWritesThread | StartWakelockThread | ReadConfigFile _ | Dlopen _
      | Dlsym _ _ | CallFactory _ => False
      end
  end.

(** * The invariant *)
Definition waiting_now σ : list Event :=
  drop (length (g_inflight (ghost_of (trace σ)))) (queued (fields σ)).

Record hal_inv σ : Prop := {
  inv_setup : mSubHalList (fields σ) = mSubHalList s0 ∧
    mDynamicSensorsCallback (fields σ) = mDynamicSensorsCallback s0 ∧
    queues (fields σ) = queues s0;
  inv_writer : ∀ z, mPendingWritesThread (fields σ) = Some z → z = Z.of_nat writer;
  inv_waker : ∀ z, mWakelockThread (fields σ) = Some z → z = Z.of_nat waker;
  inv_count : in_uint 64 (refcount (fields σ));
  inv_small : small (trace σ) → refcount (fields σ) < 2 ^ 63;
  inv_wl_asleep : g_wl_asleep (ghost_of (trace σ)) = true → refcount (fields σ) = 0;
  inv_agrees : held σ mWakelockMutex = None → agrees σ;
  inv_tidy : held σ mEventQueueWriteMutex = None →
    tidy (pending (fields σ)) ∧
    (g_eq_asleep (ghost_of (trace σ)) = true → queue_of (fields σ) = []);
  inv_inflight : g_inflight (ghost_of (trace σ)) `prefix_of` queued (fields σ);
  inv_stream : g_accepted (ghost_of (trace σ)) =
    concat (g_written (ghost_of (trace σ))).*1 ++ waiting_now σ;
  inv_pieces : concat (g_pieces (ghost_of (trace σ))) `prefix_of` g_accepted (ghost_of (trace σ));
  inv_closed : held σ mEventQueueWriteMutex = None → open_piece (ghost_of (trace σ)) = [];
  inv_no_spawn : ∀ u x, (u, Asked (Entry StartPendingWritesThread x)) ∉ trace σ ∧
    (u, Asked (Entry StartWakelockThread x)) ∉ trace σ;
}.
End protocol.
