(* ===== verification/HalProxyProtocolFacts.v ===== *)
(** The invariant of [HalProxyProtocol] is one: the events that the protocol
    allows preserve it. *)
From S2P Require Import Prelude Effects SensorTypes HalProxyState Wakelock WakelockFacts EventQueue EventQueueFacts HalProxyCallback HalProxySystem HalProxyThreads HalProxyProtocol Threads ThreadsLogic.
From stdpp Require Import options.
#[local] Set Default Proof Using "Type*".

Section facts.
Context {SubHal : Type} {SubHal_eq : EqDecision SubHal} {SC : SensorConsts} {SL : SensorLaws} (fuel : nat).
Let sy : Sync (halE SubHal) hal_mutex (HalProxy SubHal) (option unit) := hal_sync fuel.
#[local] Existing Instance sy.
Variables (s0 : HalProxy SubHal) (writer waker stopper : nat).
Variable getSensorInfo : Z → SensorInfo.
Variable posts : nat → list HalProxySystem.batch.

#[local] Abbreviation hal_event := (event (halE SubHal) (HalProxy SubHal)).
#[local] Abbreviation state := (shared (halE SubHal) hal_mutex (HalProxy SubHal)).
#[local] Abbreviation allowed := (hal_allowed s0 writer waker stopper getSensorInfo posts).
#[local] Abbreviation inv := (hal_inv s0 writer waker).
#[local] Abbreviation ghost σ := (ghost_of s0 (trace σ)).
Implicit Types (t u : nat) (σ : state) (s : HalProxy SubHal) (e : hal_event).

Lemma emit_ghost t e σ σ' : emit t e σ = Some σ' → ghost σ' = ghost_step (ghost σ) e.
Proof using Type. intros He. by rewrite (emit_trace _ _ _ _ He), ghost_snoc. Qed.

Lemma emit_small t e σ σ' : emit t e σ = Some σ' → small (trace σ') → small (trace σ).
Proof using Type. intros He. rewrite (emit_trace _ _ _ _ He). apply small_app. Qed.

Lemma emit_small_now t s s' σ σ' :
  emit t (Wrote s s') σ = Some σ' → small (trace σ') → refcount s' < 2 ^ 63.
Proof using Type.
  intros He Hs. apply (Hs t s). rewrite (emit_trace _ _ _ _ He). apply elem_of_app. right.
  apply list_elem_of_here.
Qed.

(** ** Calls and waits *)
Definition is_write e : bool := if e is Wrote _ _ then true else false.

Lemma fields_kept t e σ σ' : is_write e = false → emit t e σ = Some σ' → fields σ' = fields σ.
Proof using Type. intros Hw He. rewrite (emit_fields _ _ _ _ He). by destruct e. Qed.

(** Who holds a mutex, after an event that is not about it. *)
Lemma held_kept t e σ σ' m :
  emit t e σ = Some σ' → held σ m ≠ Some t → held σ' m = None → held σ m = None.
Proof using Type.
  intros He%emit_held Hm. destruct (locks_after_cases _ _ _ _ He) as [->|[(m' & Hm' & ->)|(m' & Hm' & ->)]];
    [done|unfold own..]; case_decide; subst; congruence.
Qed.

Lemma asleep_wl_kept g e : g_wl_asleep (ghost_step g e) = true →
  g_wl_asleep g = true ∨ e = Slept (E:=halE SubHal) WaitWakelockCV.
Proof using Type.
  destruct e as [[X c x]|X c|s s']; simpl.
  - destruct c; simpl; auto; try done. destruct x; simpl; auto.
  - destruct c; simpl; auto.
  - unfold queue_step. repeat case_bool_decide; simpl; auto.
Qed.

Lemma asleep_eq_kept g e : g_eq_asleep (ghost_step g e) = true →
  g_eq_asleep g = true ∨ e = Slept (E:=halE SubHal) WaitEventQueueWriteCV.
Proof using Type.
  destruct e as [[X c x]|X c|s s']; simpl.
  - destruct c; simpl; auto; try done. destruct x; simpl; auto.
  - destruct c; simpl; auto.
  - unfold queue_step. repeat case_bool_decide; simpl; auto.
Qed.

(** The kernel's lock changes hands under the mutex only. *)
Lemma kernel_kept t e σ : allowed σ t e → held σ mWakelockMutex ≠ Some t →
  g_kernel (ghost_step (ghost σ) e) = g_kernel (ghost σ).
Proof using Type.
  destruct e as [[X c x]|X c|s s']; simpl.
  - destruct c; try done; simpl; try (intros [? _]; done). by destruct x.
  - by destruct c.
  - intros _ _. unfold queue_step. by repeat case_bool_decide.
Qed.

(** A mutex that is free now was free, or has been given back: by an unlock or at
    the beginning of a wait. *)
Lemma freed_cases t e σ σ' m :
  emit t e σ = Some σ' → held σ' m = None →
  held σ m = None ∨ held σ m = Some t ∧
    match m with
    | mWakelockMutex => e = Asked (Entry UnlockWakelock tt) ∨ e = Slept WaitWakelockCV
    | mEventQueueWriteMutex =>
        e = Asked (Entry UnlockEventQueueWrite tt) ∨ e = Slept WaitEventQueueWriteCV
    | mDynamicSensorsMutex => e = Asked (Entry UnlockDynamicSensors tt)
    end.
Proof using Type.
  intros He Hm. apply emit_held in He. destruct e as [[X c x]|X c|s s']; simpl in He;
    [destruct c; simpl in He|destruct c; simpl in He|];
    try (injection He as Hh; left; by rewrite Hh);
    try (apply take_lock_spec in He as [Hn Hh]; left; rewrite Hh in Hm; unfold own in Hm;
         case_decide; [done|exact Hm]);
    try done;
    apply give_lock_spec in He as [Hn Hh]; rewrite Hh in Hm; unfold own in Hm;
    (case_decide; [subst m; right; split; [done|]; destruct x || idtac; auto|by left]).
Qed.

Lemma agrees_kept t e σ σ' :
  is_write e = false → emit t e σ = Some σ' →
  g_kernel (ghost_step (ghost σ) e) = g_kernel (ghost σ) → agrees s0 σ → agrees s0 σ'.
Proof using Type.
  unfold agrees. intros Hw He Hk Ha Hs.
  rewrite (emit_ghost _ _ _ _ He), Hk, (fields_kept _ _ _ _ Hw He). apply Ha.
  by eapply emit_small.
Qed.

Lemma agrees_step t e σ σ' :
  inv σ → allowed σ t e → is_write e = false → emit t e σ = Some σ' →
  held σ' mWakelockMutex = None → agrees s0 σ'.
Proof using Type.
  intros Hi Ha Hw He Hf.
  destruct (freed_cases _ _ _ _ _ He Hf) as [Hm|[Hm [->| ->]]].
  - eapply agrees_kept; [done..| |by apply (inv_agrees s0 writer waker)].
    apply (kernel_kept t); [done|congruence].
  - by eapply agrees_kept.
  - destruct Ha as (_ & Ha & _). by eapply agrees_kept.
Qed.

Lemma tidy_step t e σ σ' :
  inv σ → allowed σ t e → is_write e = false → emit t e σ = Some σ' →
  held σ' mEventQueueWriteMutex = None →
  tidy (pending (fields σ')) ∧ (g_eq_asleep (ghost σ') = true → queue_of (fields σ') = []).
Proof using Type.
  intros Hi Ha Hw He Hf. rewrite (emit_ghost _ _ _ _ He), (fields_kept _ _ _ _ Hw He).
  destruct (freed_cases _ _ _ _ _ He Hf) as [Hm|[Hm [->| ->]]]; [|by destruct Ha as (? & ? & _)|].
  - destruct (inv_tidy _ _ _ _ Hi Hm) as [Ht Hq]. split; [done|].
    intros [?| ->]%asleep_eq_kept; [auto|]. apply emit_held in He.
    apply give_lock_spec in He as [? _]. congruence.
  - destruct Ha as (_ & Ht & Hq & _). by split.
Qed.

(** The pieces. *)
Lemma pieces_kept g e :
  concat (g_pieces g) `prefix_of` g_accepted g →
  concat (g_pieces (ghost_step g e)) `prefix_of` g_accepted (ghost_step g e).
Proof using Type.
  assert (∀ l, concat (g_pieces g) `prefix_of` g_accepted g →
    concat (g_pieces g) `prefix_of` g_accepted g ++ l) as Hgrow
    by (intros l Hp; etransitivity; [exact Hp|by exists l]).
  assert (concat (g_pieces g) `prefix_of` g_accepted g →
    concat (g_pieces (close_piece g)) `prefix_of` g_accepted (close_piece g)) as Hclose.
  { intros [l Hl]. unfold close_piece, open_piece. cbn [set_g_pieces g_pieces g_accepted].
    rewrite concat_app, Hl, drop_app_length. simpl. by rewrite app_nil_r. }
  intros Hp. destruct e as [[X c x]|X c|s s']; simpl.
  - destruct c; try exact Hp; try (by apply Hclose). destruct x; [by apply Hgrow|exact Hp].
  - destruct c; try exact Hp. by apply Hclose.
  - unfold queue_step. repeat case_bool_decide; try exact Hp. by apply Hgrow.
Qed.

Lemma open_closed g : concat (g_pieces g) `prefix_of` g_accepted g → open_piece (close_piece g) = [].
Proof using Type.
  intros [l Hl]. unfold close_piece, open_piece. cbn [set_g_pieces g_pieces g_accepted].
  rewrite concat_app, Hl, drop_app_length. simpl. rewrite app_nil_r. apply drop_ge. lia.
Qed.

(** Only who holds the mutex adds to the open piece or closes it. *)
Lemma open_kept t e σ σ' :
  allowed σ t e → emit t e σ = Some σ' → held σ mEventQueueWriteMutex ≠ Some t →
  open_piece (ghost_step (ghost σ) e) = open_piece (ghost σ).
Proof using Type.
  intros Ha He Hh. apply emit_held in He.
  destruct e as [[X c x]|X c|s s']; simpl in *.
  - destruct c; try done; simpl in *; try (by apply give_lock_spec in He as [? _]).
    destruct x; [by destruct Ha|done].
  - destruct c; try done. by apply give_lock_spec in He as [? _].
  - destruct Ha as [-> _ _ [Hp|[? _]] _ _ _ _ _]; [|done]. unfold queue_step, queue_of.
    rewrite Hp, bool_decide_false by lia. by case_bool_decide.
Qed.

Lemma closed_step t e σ σ' :
  inv σ → allowed σ t e → emit t e σ = Some σ' →
  held σ' mEventQueueWriteMutex = None → open_piece (ghost_step (ghost σ) e) = [].
Proof using Type.
  intros Hi Ha He Hf.
  destruct (freed_cases _ _ _ _ _ He Hf) as [Hm|[Hm [->| ->]]].
  - rewrite (open_kept t e σ σ' Ha He) by congruence. by apply (inv_closed _ _ _ _ Hi).
  - apply open_closed, (inv_pieces _ _ _ _ Hi).
  - apply (open_closed (ghost σ)), (inv_pieces _ _ _ _ Hi).
Qed.

(** What has been accepted has been written or waits. *)
Definition stream_ok (g : HalProxyProtocol.ghost) s : Prop :=
  g_inflight g `prefix_of` queued s ∧
  g_accepted g = concat (g_written g).*1 ++ drop (length (g_inflight g)) (queued s).

Lemma queued_nil s : queue_of s = [] → queued s = [].
Proof using Type. unfold queued. fold (queue_of s). by intros ->. Qed.

Lemma g_written_snoc (l : list (list Event * bool)) x : concat (l ++ [x]).*1 = concat l.*1 ++ x.1.
Proof using Type. rewrite fmap_app, concat_app. simpl. by rewrite app_nil_r. Qed.

Lemma stream_call t X (c : halE SubHal X) x σ :
  allowed σ t (Asked (Entry c x)) → stream_ok (ghost σ) (fields σ) →
  stream_ok (ghost_step (ghost σ) (Asked (Entry c x))) (fields σ).
Proof using Type.
  intros Ha [Hp Hs]. destruct c; try done; simpl in *.
  - destruct x; [|done]. destruct Ha as (_ & _ & Hq & _).
    apply queued_nil in Hq. rewrite Hq in *. apply prefix_nil_inv in Hp.
    split; cbn [set_g_accepted set_g_written g_inflight g_accepted g_written]; [rewrite Hp; apply prefix_nil|].
    rewrite Hs, g_written_snoc, drop_nil, Hq, drop_nil, !app_nil_r. done.
  - destruct Ha as (_ & _ & _ & _ & _ & Hin & b & n & rest & Hq & Hb).
    rewrite Hin, drop_0 in Hs.
    assert (events `prefix_of` queued (fields σ)) as [l Hl].
    { unfold queued. fold (queue_of (fields σ)). rewrite Hq. destruct Hb as [b' ->]. simpl.
      exists (b' ++ concat rest.*1). by rewrite app_assoc. }
    split; cbn [set_g_inflight set_g_written g_inflight g_accepted g_written]; [by exists l|].
    by rewrite Hs, Hl, g_written_snoc, drop_app_length, <- app_assoc.
Qed.

Lemma stream_wait t X (c : halE SubHal X) σ :
  stream_ok (ghost σ) (fields σ) → stream_ok (ghost_step (ghost σ) (Slept c)) (fields σ).
Proof using Type. by destruct c. Qed.

Lemma queued_push s s' events n :
  queue_of s' = queue_of s ++ [(events, n)] → queued s' = queued s ++ events.
Proof using Type.
  unfold queued, queue_of. intros ->. rewrite fmap_app, concat_app. simpl. by rewrite app_nil_r.
Qed.

Lemma stream_write t s s' σ :
  s = fields σ → pending s' = pending s ∨ queue_change s0 writer getSensorInfo posts σ t (queue_of s) (queue_of s') →
  stream_ok (ghost σ) s → stream_ok (queue_step s s' (ghost σ)) s'.
Proof using Type.
  intros -> Hc [Hp Hs].
  assert (queue_of s' = queue_of (fields σ) → stream_ok (queue_step (fields σ) s' (ghost σ)) s') as Hsame.
  { intros Hq. unfold queue_step. rewrite Hq, bool_decide_false by lia.
    assert (queued s' = queued (fields σ)) as Hq' by (unfold queued; fold (queue_of s'); by rewrite Hq).
    rewrite Hq', bool_decide_false by lia. unfold stream_ok. by rewrite Hq'. }
  destruct Hc as [Hc|[Hc|[(es & n & p & Hq & _)|(_ & b & n & rest & Hq & Hb & Hc)]]].
  - apply Hsame. unfold queue_of. by rewrite Hc.
  - by apply Hsame.
  - assert (length (queue_of (fields σ)) < length (queue_of s'))%nat as Hlt
      by (rewrite Hq, length_app; simpl; lia).
    unfold queue_step. rewrite bool_decide_true by done. rewrite Hq, drop_app_length. pose proof (queued_push _ _ _ _ Hq) as Hq'.
    destruct Hp as [l Hl].
    split; cbn [set_g_accepted g_inflight g_accepted g_written]; rewrite Hq'.
    + exists (l ++ es). by rewrite Hl, app_assoc.
    + rewrite Hs, Hl, <- app_assoc, drop_app_length. simpl.
      by rewrite app_nil_r, <- app_assoc, drop_app_length.
  - assert (queued (fields σ) = g_inflight (ghost σ) ++ queued s' ∧
      (length (queue_of s') ≤ length (queue_of (fields σ)))%nat) as [Hq' Hl].
    { unfold queued. fold (queue_of (fields σ)). fold (queue_of s'). rewrite Hq.
      destruct Hc as [[-> ->]|(b' & -> & _ & ->)]; simpl; [split; [done|lia]|].
      by rewrite app_assoc. }
    rewrite Hq', drop_app_length in Hs.
    unfold queue_step. rewrite bool_decide_false by lia. rewrite Hq', length_app.
    destruct (g_inflight (ghost σ)) as [|x l] eqn:Hin.
    + rewrite bool_decide_false by (simpl; lia). split; rewrite Hin; [apply prefix_nil|done].
    + rewrite bool_decide_true by (simpl; lia). split; [apply prefix_nil|done].
Qed.

Lemma hal_inv_step σ σ' t e : inv σ → allowed σ t e → emit t e σ = Some σ' → inv σ'.
Proof using Type.
  intros Hi Ha He. pose proof Hi as [(I1 & I2 & I3) Iw Ik Ic Is Iwl _ _ Ip Ist Ipc _ In].
  pose proof (emit_ghost _ _ _ _ He) as Hg. pose proof (emit_small _ _ _ _ He) as Hsm.
  pose proof (pieces_kept _ e Ipc) as Hpc. rewrite <- Hg in Hpc.
  pose proof (closed_step _ _ _ _ Hi Ha He) as Hcl. rewrite <- Hg in Hcl.
  assert (stream_ok (ghost σ') (fields σ')) as [Hp' Hs'].
  { rewrite Hg, (emit_fields _ _ _ _ He). destruct e as [[X c x]|X c|s s']; simpl.
    - by apply (stream_call t).
    - by apply (stream_wait t).
    - destruct Ha as [-> _ _ Hq _ _ _ _ _]. apply (stream_write t); [done| |done].
      destruct Hq as [?|[_ ?]]; auto. }
  assert (∀ u x, (u, Asked (Entry StartPendingWritesThread x)) ∉ trace σ' ∧
    (u, Asked (Entry StartWakelockThread x)) ∉ trace σ') as Hn.
  { intros u x. destruct (In u x) as [N1 N2]. rewrite (emit_trace _ _ _ _ He).
    split; intros [?|Hin%list_elem_of_singleton]%elem_of_app; try done;
      injection Hin as <- <-; exact Ha. }
  destruct (is_write e) eqn:Hw.
  - destruct e as [| |s s']; try done. destruct Ha as [-> (W1 & _ & W2 & W3) Hwl Hpe Hrun Hwr Hwk _ _].
    pose proof (emit_held _ _ _ _ He) as Hh. injection Hh as Hh.
    pose proof (emit_fields _ _ _ _ He) as Hf. simpl in Hf, Hg.
    assert (∀ b, g_wl_asleep (queue_step (fields σ) s' (ghost σ)) = b → g_wl_asleep (ghost σ) = b) as Q1
      by (intros b <-; unfold queue_step; by repeat case_bool_decide).
    assert (∀ b, g_eq_asleep (queue_step (fields σ) s' (ghost σ)) = b → g_eq_asleep (ghost σ) = b) as Q2
      by (intros b <-; unfold queue_step; by repeat case_bool_decide).
    assert (g_kernel (queue_step (fields σ) s' (ghost σ)) = g_kernel (ghost σ)) as Q3
      by (unfold queue_step; by repeat case_bool_decide).
    split; try done; rewrite ?Hf; try done.
    + split_and!; congruence.
    + intros z. destruct Hwr as [->|[_ ->]]; [apply Iw|done].
    + intros z. destruct Hwk as [->|[_ ->]]; [apply Ik|done].
    + unfold refcount. destruct Hwl as [->|(_ & ? & _)]; done.
    + intros Hs. by eapply emit_small_now.
    + rewrite Hg. intros Has%Q1. destruct Hwl as [Hwl|(_ & _ & Hz)]; [|by apply Hz].
      unfold refcount. rewrite Hwl. by apply Iwl.
    + rewrite <- Hh. intros Hfree. destruct Hwl as [Hwl|(Hheld & _)]; [|congruence].
      intros Hs. rewrite Hg, Q3, Hf. unfold refcount. rewrite Hwl.
      by apply (inv_agrees s0 writer waker); [| |apply Hsm].
    + rewrite <- Hh. intros Hfree. destruct Hpe as [Hpe|(Hheld & _)]; [|congruence].
      destruct (inv_tidy _ _ _ _ Hi Hfree) as [Ht Hq]. unfold queue_of in *. rewrite Hpe, Hg.
      split; [done|]. intros Has%Q2. by apply Hq.
  - pose proof (fields_kept _ _ _ _ Hw He) as Hf. split; try done; rewrite ?Hf; try done.
    + intros Hs. by apply Is, Hsm.
    + rewrite Hg. intros [?| ->]%asleep_wl_kept; [by apply Iwl|]. by destruct Ha as (_ & _ & ?).
    + by apply (agrees_step t e σ).
    + rewrite <- Hf. by apply (tidy_step t e σ).
Qed.
End facts.
