(* ===== verification/HalProxyThreadsFacts.v ===== *)
(** The functions of the sensors HAL proxy keep to the protocol of its threads
    ([HalProxyProtocol]), in every interleaving.

    [knows]: what a thread knows while it holds some of the mutexes; it stays true
    whatever the other threads do.  There is one rule for each kind of move. *)
From S2P Require Import Prelude Effects SensorTypes SensorHandle HalProxyState HalProxy Wakelock WakelockFacts EventQueue EventQueueFacts HalProxyInit HalProxyCallback HalProxySystem HalProxyThreads HalProxyProtocol HalProxyProtocolFacts Threads ThreadsLogic.
From stdpp Require Import options.
#[local] Set Default Proof Using "Type*".

(** What a thread knows: of the wake lock, while it holds its mutex (the counters,
    whether the thread that waits has been notified, and of the kernel's lock); of
    the pending queue, while it holds its mutex, and of what has been accepted
    meanwhile; whether it holds the mutex of the
    dynamic sensors; and for the pending-writes thread, the front of the queue and
    what has been written and not yet taken off. *)
Record know := Know {
  k_wl : option (Wakelock * bool * (bool → Prop));
  k_eq : option (Pending * bool * list Event);
  k_ds : bool;
  k_front : option (list Event * Z);
  k_in : option (list Event);
}.

Definition set_k_wl x k := Know x (k_eq k) (k_ds k) (k_front k) (k_in k).
Definition set_k_eq x k := Know (k_wl k) x (k_ds k) (k_front k) (k_in k).
Definition set_k_ds x k := Know (k_wl k) (k_eq k) x (k_front k) (k_in k).
Definition set_k_front x k := Know (k_wl k) (k_eq k) (k_ds k) x (k_in k).
Definition set_k_in x k := Know (k_wl k) (k_eq k) (k_ds k) (k_front k) x.

Definition know_nothing : know := Know None None false None None.

Section facts.
Context {SubHal : Type} {SubHal_eq : EqDecision SubHal} {SC : SensorConsts} {SL : SensorLaws} (fuel : nat).
Let sy : Sync (halE SubHal) hal_mutex (HalProxy SubHal) (option unit) := hal_sync fuel.
#[local] Existing Instance sy.
Variables (s0 : HalProxy SubHal) (writer waker stopper : nat).
Variable getSensorInfo : Z → SensorInfo.
Variable posts : nat → list HalProxySystem.batch.

#[local] Abbreviation hal A := (prog (halE SubHal) (HalProxy SubHal) A).
#[local] Abbreviation hal_event := (event (halE SubHal) (HalProxy SubHal)).
#[local] Abbreviation state := (shared (halE SubHal) hal_mutex (HalProxy SubHal)).
#[local] Abbreviation allowed := (hal_allowed s0 writer waker stopper getSensorInfo posts).
#[local] Abbreviation inv := (hal_inv s0 writer waker).
#[local] Abbreviation ghost σ := (ghost_of s0 (trace σ)).
#[local] Abbreviation safe := (safe allowed inv any_answer).
#[local] Abbreviation stable := (stable allowed inv).
Implicit Types (t u : nat) (σ : state) (s : HalProxy SubHal) (e : hal_event) (L : know).

#[local] Abbreviation step_inv := (hal_inv_step fuel s0 writer waker stopper getSensorInfo posts).

Definition kn_wl t (o : option (Wakelock * bool * (bool → Prop))) σ : Prop :=
  match o with
  | Some (w, notified, C) => held σ mWakelockMutex = Some t ∧ wakelock (fields σ) = w ∧
      (notified = true → g_wl_asleep (ghost σ) = false) ∧
      (small (trace σ) → C (g_kernel (ghost σ)))
  | None => held σ mWakelockMutex ≠ Some t
  end.

Definition kn_eq t (o : option (Pending * bool * list Event)) σ : Prop :=
  match o with
  | Some (p, notified, l) => held σ mEventQueueWriteMutex = Some t ∧ pending (fields σ) = p ∧
      (notified = true → g_eq_asleep (ghost σ) = false) ∧ open_piece (ghost σ) = l
  | None => held σ mEventQueueWriteMutex ≠ Some t
  end.

Definition kn_ds t (b : bool) σ : Prop :=
  if b then held σ mDynamicSensorsMutex = Some t else held σ mDynamicSensorsMutex ≠ Some t.

Definition kn_front t (o : option (list Event * Z)) σ : Prop :=
  if o is Some x then t = writer ∧ ∃ rest, queue_of (fields σ) = x :: rest else True.

Definition kn_in t (o : option (list Event)) σ : Prop :=
  if o is Some l then t = writer ∧ g_inflight (ghost σ) = l else True.

Definition knows t L σ : Prop :=
  kn_wl t (k_wl L) σ ∧ kn_eq t (k_eq L) σ ∧ kn_ds t (k_ds L) σ ∧ kn_front t (k_front L) σ ∧
  kn_in t (k_in L) σ.

(** ** What does not change *)
Lemma kn_wl_same t o σ σ' :
  kn_wl t o σ → held σ' mWakelockMutex = held σ mWakelockMutex →
  wakelock (fields σ') = wakelock (fields σ) →
  g_wl_asleep (ghost σ') = g_wl_asleep (ghost σ) → g_kernel (ghost σ') = g_kernel (ghost σ) →
  (small (trace σ') → small (trace σ)) → kn_wl t o σ'.
Proof using Type.
  unfold kn_wl. intros Hk -> -> -> -> Hs. destruct o as [[[w n] C]|]; [|done].
  destruct Hk as (? & ? & ? & Hc). split_and!; try done. intros Hsm. by apply Hc, Hs.
Qed.

Lemma kn_eq_same t o σ σ' :
  kn_eq t o σ → held σ' mEventQueueWriteMutex = held σ mEventQueueWriteMutex →
  pending (fields σ') = pending (fields σ) →
  g_eq_asleep (ghost σ') = g_eq_asleep (ghost σ) →
  open_piece (ghost σ') = open_piece (ghost σ) → kn_eq t o σ'.
Proof using Type. unfold kn_eq. by intros Hk -> -> -> ->. Qed.

Lemma kn_ds_same t b σ σ' :
  kn_ds t b σ → held σ' mDynamicSensorsMutex = held σ mDynamicSensorsMutex → kn_ds t b σ'.
Proof using Type. unfold kn_ds. by intros Hk ->. Qed.

Lemma kn_front_same t o σ σ' :
  kn_front t o σ → queue_of (fields σ') = queue_of (fields σ) → kn_front t o σ'.
Proof using Type. unfold kn_front. by intros Hk ->. Qed.

Lemma kn_in_same t o σ σ' :
  kn_in t o σ → g_inflight (ghost σ') = g_inflight (ghost σ) → kn_in t o σ'.
Proof using Type. unfold kn_in. by intros Hk ->. Qed.

(** ** What the others do *)
Lemma held_other t u e σ σ' m :
  emit u e σ = Some σ' → u ≠ t → (held σ' m = Some t ↔ held σ m = Some t).
Proof using Type. intros He%emit_held Hu. by apply (locks_after_other u t e). Qed.

(** An event that leaves alone what a mutex protects that another thread holds. *)
Lemma wakelock_other u e σ σ' :
  allowed σ u e → emit u e σ = Some σ' → held σ mWakelockMutex ≠ Some u →
  wakelock (fields σ') = wakelock (fields σ).
Proof using Type.
  intros Ha He Hu. rewrite (emit_fields _ _ _ _ He). destruct e as [| |s s']; simpl; [done..|].
  destruct Ha as [-> _ [->|[? _]] _ _ _ _ _ _]; [done|congruence].
Qed.

Lemma pending_other u e σ σ' :
  allowed σ u e → emit u e σ = Some σ' → held σ mEventQueueWriteMutex ≠ Some u →
  pending (fields σ') = pending (fields σ).
Proof using Type.
  intros Ha He Hu. rewrite (emit_fields _ _ _ _ He). destruct e as [| |s s']; simpl; [done..|].
  destruct Ha as [-> _ _ [->|[? _]] _ _ _ _ _]; [done|congruence].
Qed.

Lemma kn_wl_stable t o : stable t (kn_wl t o).
Proof.
  intros σ σ' u e Hu Hi Hk Ha He. destruct o as [[[w n] C]|]; simpl in *.
  - destruct Hk as (Hh & Hw & Hn & Hc). pose proof (emit_ghost fuel s0 _ _ _ _ He) as Hg.
    assert (held σ mWakelockMutex ≠ Some u) as Hnu by congruence.
    split_and!; [by eapply held_stable|by rewrite (wakelock_other _ _ _ _ Ha He)| |].
    + intros Hnt. rewrite Hg. destruct (g_wl_asleep (ghost_step _ _)) eqn:Has; [|done].
      apply asleep_wl_kept in Has as [Has| ->]; [by rewrite (Hn Hnt) in Has|].
      apply emit_held, give_lock_spec in He as [? _]. congruence.
    + intros Hs%(emit_small fuel _ _ _ _ He). rewrite Hg, (kernel_kept _ _ _ _ _ _ _ _ _ Ha); auto.
  - by rewrite (held_other _ _ _ _ _ _ He).
Qed.

Lemma kn_eq_stable t o : stable t (kn_eq t o).
Proof.
  intros σ σ' u e Hu Hi Hk Ha He. destruct o as [[[p n] l]|]; simpl in *.
  - destruct Hk as (Hh & Hp & Hn & Ho). pose proof (emit_ghost fuel s0 _ _ _ _ He) as Hg.
    split_and!; [by eapply held_stable|by rewrite (pending_other _ _ _ _ Ha He) by congruence| |].
    + intros Hnt. rewrite Hg. destruct (g_eq_asleep (ghost_step _ _)) eqn:Has; [|done].
      apply asleep_eq_kept in Has as [Has| ->]; [by rewrite (Hn Hnt) in Has|].
      apply emit_held, give_lock_spec in He as [? _]. congruence.
    + rewrite Hg, (open_kept fuel s0 writer waker stopper getSensorInfo posts u e σ σ' Ha He);
        [done|congruence].
  - by rewrite (held_other _ _ _ _ _ _ He).
Qed.

Lemma kn_ds_stable t b : stable t (kn_ds t b).
Proof using Type.
  intros σ σ' u e Hu _ Hk _ He. destruct b; simpl in *; by rewrite (held_other _ _ _ _ _ _ He).
Qed.

(** Only the pending-writes thread takes off the front. *)
Lemma queue_other u e σ σ' :
  allowed σ u e → emit u e σ = Some σ' → u ≠ writer →
  ∃ added, queue_of (fields σ') = queue_of (fields σ) ++ added.
Proof using Type.
  intros Ha He Hu. rewrite (emit_fields _ _ _ _ He).
  destruct e as [| |s s']; simpl; [exists []; by rewrite app_nil_r..|].
  destruct Ha as [-> _ _ [Hp|[_ [Hp|[(es & n & p & Hp & _)|[? _]]]]] _ _ _ _ _]; [..|done].
  - exists []. unfold queue_of. by rewrite Hp, app_nil_r.
  - exists []. by rewrite Hp, app_nil_r.
  - by exists [(es, n)].
Qed.

Lemma kn_front_stable t o : stable t (kn_front t o).
Proof using Type.
  intros σ σ' u e Hu Hi Hk Ha He. destruct o as [x|]; [|done]. destruct Hk as [-> [rest Hr]].
  split; [done|]. destruct (queue_other _ _ _ _ Ha He Hu) as [added ->].
  exists (rest ++ added). by rewrite Hr.
Qed.

Lemma inflight_other u e σ σ' :
  allowed σ u e → emit u e σ = Some σ' → u ≠ writer →
  g_inflight (ghost σ') = g_inflight (ghost σ).
Proof.
  intros Ha He Hu. rewrite (emit_ghost fuel s0 _ _ _ _ He).
  destruct e as [[X c x]|X c|s s']; simpl.
  - destruct c; try done; simpl; [by destruct x|by destruct Ha].
  - by destruct c.
  - destruct (queue_other _ _ _ _ Ha He Hu) as [added Hq]. rewrite (emit_fields _ _ _ _ He) in Hq.
    simpl in Hq. destruct Ha as [-> _ _ _ _ _ _ _ _]. unfold queue_step. case_bool_decide; [done|].
    rewrite bool_decide_false; [done|]. unfold queued. fold (queue_of s'). fold (queue_of (fields σ)).
    rewrite Hq, fmap_app, concat_app, length_app. lia.
Qed.

Lemma kn_in_stable t o : stable t (kn_in t o).
Proof.
  intros σ σ' u e Hu Hi Hk Ha He. destruct o as [x|]; [|done]. destruct Hk as [-> Hr].
  split; [done|]. by rewrite (inflight_other _ _ _ _ Ha He).
Qed.

Lemma knows_stable t L : stable t (knows t L).
Proof.
  unfold knows. repeat apply stable_and;
    [apply kn_wl_stable|apply kn_eq_stable|apply kn_ds_stable|apply kn_front_stable|
     apply kn_in_stable].
Qed.

(** * Rules *)

(** Nothing is held. *)
Definition empty_handed L : Prop := k_wl L = None ∧ k_eq L = None ∧ k_ds L = false.

Lemma knows_free t L σ : empty_handed L → knows t L σ → free_handed σ t.
Proof using Type.
  intros (Hw & He & Hd) (Kw & Ke & Kd & _). rewrite Hw in Kw. rewrite He in Ke. rewrite Hd in Kd.
  by intros [].
Qed.

Lemma knows_get {B} t L (k : HalProxy SubHal → hal B) Q σ :
  knows t L σ → (∀ σ', knows t L σ' → inv σ' → safe t (k (fields σ')) Q σ') →
  safe t (get ≫= k) Q σ.
Proof. intros HL Hk. eapply safe_get; [apply knows_stable|exact HL|]. intros. by apply Hk. Qed.

Lemma knows_ret {B} t L (b : B) (Q : B → state → Prop) σ :
  knows t L σ → (∀ σ', knows t L σ' → Q b σ') → safe t (mret b) Q σ.
Proof.
  intros HL HQ. eapply safe_ret; [apply knows_stable|exact HL|]. intros. by apply HQ.
Qed.

Lemma knows_call {B X} t L (c : halE SubHal X) (k : X → hal B) (R : X → state → Prop) Q σ :
  wait_of c = None → knows t L σ →
  (∀ σ' x σ'', knows t L σ' → inv σ' → emit t (Asked (Entry c x)) σ' = Some σ'' →
    allowed σ' t (Asked (Entry c x)) ∧ R x σ'') →
  (∀ x σ', R x σ' → safe t (k x) Q σ') → safe t (call c ≫= k) Q σ.
Proof.
  intros Hw HL Hc Hk. eapply (safe_call _ _ _ step_inv); [done|apply knows_stable|exact HL|].
  intros σ' x σ'' HL' Hi He. destruct (Hc σ' x σ'' HL' Hi He) as [Ha HR].
  split; [done|]. intros _. by apply Hk.
Qed.

Lemma knows_modify {B} t L (f : HalProxy SubHal → HalProxy SubHal) (k : unit → hal B)
    (R : state → Prop) Q σ :
  knows t L σ →
  (∀ σ' σ'', knows t L σ' → inv σ' → emit t (Wrote (fields σ') (f (fields σ'))) σ' = Some σ'' →
    may_write s0 writer stopper getSensorInfo posts σ' t (fields σ') (f (fields σ')) ∧ R σ'') →
  (∀ σ', R σ' → safe t (k ()) Q σ') → safe t (modify f ≫= k) Q σ.
Proof.
  intros HL Hc Hk. eapply (safe_modify _ _ _ step_inv); [apply knows_stable|exact HL|].
  intros σ' σ'' HL' Hi He. destruct (Hc σ' σ'' HL' Hi He) as [Ha HR].
  split; [exact Ha|]. intros _. by apply Hk.
Qed.

(** ** Calls that change nothing *)
Definition neutral {X} (c : halE SubHal X) : Prop :=
  sync_of c = None ∧ ∀ g x, ghost_step g (Asked (S:=HalProxy SubHal) (Entry c x)) = g.

Lemma knows_same t L σ σ' :
  knows t L σ → held σ' = held σ → fields σ' = fields σ → ghost σ' = ghost σ →
  (small (trace σ') → small (trace σ)) → knows t L σ'.
Proof using Type.
  intros (Kw & Ke & Kd & Kf & Ki) Hh Hf Hg Hs. split_and!.
  - by apply (kn_wl_same t _ σ); rewrite ?Hh, ?Hf, ?Hg.
  - by apply (kn_eq_same t _ σ); rewrite ?Hh, ?Hf, ?Hg.
  - by apply (kn_ds_same t _ σ); rewrite ?Hh.
  - by apply (kn_front_same t _ σ); rewrite ?Hf.
  - by apply (kn_in_same t _ σ); rewrite ?Hg.
Qed.

Lemma neutral_kept {X} t (c : halE SubHal X) x L σ σ' :
  neutral c → emit t (Asked (Entry c x)) σ = Some σ' → knows t L σ → knows t L σ'.
Proof using Type.
  intros [Hs Hn] He HL. eapply knows_same; [exact HL|..].
  - apply emit_held in He. simpl in He. rewrite Hs in He. by injection He as <-.
  - by rewrite (emit_fields _ _ _ _ He).
  - by rewrite (emit_ghost fuel s0 _ _ _ _ He), Hn.
  - by eapply emit_small.
Qed.

Lemma neutral_safe {B X} t L (c : halE SubHal X) (k : X → hal B) Q σ :
  knows t L σ → neutral c →
  (∀ σ' x, knows t L σ' → inv σ' → allowed σ' t (Asked (Entry c x))) →
  (∀ x σ', knows t L σ' → safe t (k x) Q σ') → safe t (call c ≫= k) Q σ.
Proof.
  intros HL Hn Ha Hk. apply (knows_call t L c k (λ _, knows t L)); [|exact HL| |exact Hk].
  - destruct Hn as [Hs _]. unfold wait_of. by rewrite Hs.
  - intros σ' x σ'' HL' Hi He. split; [by apply Ha|]. by eapply neutral_kept.
Qed.

(** ** [mWakelockMutex] *)
Lemma knows_wl t L o σ σ' :
  knows t L σ → kn_wl t o σ' →
  held σ' mEventQueueWriteMutex = held σ mEventQueueWriteMutex →
  held σ' mDynamicSensorsMutex = held σ mDynamicSensorsMutex →
  pending (fields σ') = pending (fields σ) →
  g_eq_asleep (ghost σ') = g_eq_asleep (ghost σ) → g_inflight (ghost σ') = g_inflight (ghost σ) →
  open_piece (ghost σ') = open_piece (ghost σ) → knows t (set_k_wl o L) σ'.
Proof using Type.
  intros (_ & Ke & Kd & Kf & Ki) Kw He Hd Hp Hs Hi Ho. split_and!; [done|..].
  - by eapply kn_eq_same.
  - by eapply kn_ds_same.
  - eapply kn_front_same; [done|]. unfold queue_of. by rewrite Hp.
  - by eapply kn_in_same.
Qed.

(** What a thread knows when it has just taken the mutex. *)
Definition wl_fresh (w : Wakelock) : option (Wakelock * bool * (bool → Prop)) :=
  Some (w, bool_decide (mWakelockRefCount w ≠ 0),
    λ b, b = bool_decide (0 < mWakelockRefCount w) ∧ mWakelockRefCount w < 2 ^ 63).

(** The kernel's lock is held exactly while it is counted. *)
Definition wl_agrees (w : Wakelock) (C : bool → Prop) : Prop :=
  ∀ b, C b → b = bool_decide (0 < mWakelockRefCount w).

Lemma fresh_taken t e σ σ' :
  inv σ → held σ mWakelockMutex = None → emit t e σ = Some σ' →
  fields σ' = fields σ → held σ' mWakelockMutex = Some t →
  (g_wl_asleep (ghost σ') = true → g_wl_asleep (ghost σ) = true) →
  g_kernel (ghost σ') = g_kernel (ghost σ) →
  in_uint 64 (mWakelockRefCount (wakelock (fields σ))) ∧
  kn_wl t (wl_fresh (wakelock (fields σ))) σ'.
Proof.
  intros Hi Hfree He Hf Hh Has Hk. split; [apply (inv_count _ _ _ _ Hi)|].
  split_and!; [done|by rewrite Hf| |].
  - intros Hr%bool_decide_eq_true. destruct (g_wl_asleep (ghost σ')) eqn:Hb; [|done].
    destruct Hr. by apply (inv_wl_asleep _ _ _ _ Hi), Has.
  - intros Hs%(emit_small fuel _ _ _ _ He). rewrite Hk. split.
    + by apply (inv_agrees _ _ _ _ Hi).
    + by apply (inv_small _ _ _ _ Hi).
Qed.

Lemma lock_wl {B} t L (k : unit → hal B) Q σ :
  knows t L σ →
  (∀ w σ', in_uint 64 (mWakelockRefCount w) → knows t (set_k_wl (wl_fresh w) L) σ' →
    safe t (k tt) Q σ') →
  safe t (call LockWakelock ≫= k) Q σ.
Proof.
  intros HL Hk. apply (knows_call t L _ _ (λ _ σ', ∃ w, in_uint 64 (mWakelockRefCount w) ∧
    knows t (set_k_wl (wl_fresh w) L) σ')); [done|exact HL| |].
  2: { intros [] σ' (w & Hw & HL'). by eapply Hk. }
  intros σ' [] σ'' HL' Hi He. split; [done|]. exists (wakelock (fields σ')).
  pose proof (emit_ghost fuel s0 _ _ _ _ He) as Hg. pose proof (emit_fields _ _ _ _ He) as Hf.
  pose proof (emit_held _ _ _ _ He) as [Hfree Hh]%take_lock_spec.
  destruct (fresh_taken _ _ _ _ Hi Hfree He) as [Hr Hw]; try done; try by rewrite Hg.
  { by rewrite Hh. }
  split; [done|]. by apply (knows_wl t L _ σ'); rewrite ?Hh, ?Hf, ?Hg.
Qed.

Lemma unlock_wl {B} t L w n C (k : unit → hal B) Q σ :
  knows t L σ → k_wl L = Some (w, n, C) → wl_agrees w C →
  (∀ σ', knows t (set_k_wl None L) σ' → safe t (k tt) Q σ') →
  safe t (call UnlockWakelock ≫= k) Q σ.
Proof.
  intros HL HkL Hag Hk. apply (knows_call t L _ _ (λ _, knows t (set_k_wl None L)));
    [done|exact HL| |by intros []].
  intros σ' [] σ'' HL' Hi He. pose proof HL' as (Kw & _). rewrite HkL in Kw.
  destruct Kw as (Hh0 & Hw & _ & Hc).
  pose proof (emit_ghost fuel s0 _ _ _ _ He) as Hg. pose proof (emit_fields _ _ _ _ He) as Hf.
  pose proof (emit_held _ _ _ _ He) as [_ Hh]%give_lock_spec. split.
  - intros Hs. unfold refcount. rewrite Hw. by apply Hag, Hc.
  - apply (knows_wl t L _ σ'); rewrite ?Hh, ?Hf, ?Hg; try done. simpl. by rewrite Hh.
Qed.

Lemma wait_wl {B} t L w n C (k : unit → hal B) Q σ :
  knows t L σ → t = waker → k_wl L = Some (w, n, C) → wl_agrees w C → mWakelockRefCount w = 0 →
  (∀ w σ', in_uint 64 (mWakelockRefCount w) → knows t (set_k_wl (wl_fresh w) L) σ' →
    safe t (k tt) Q σ') →
  safe t (call WaitWakelockCV ≫= k) Q σ.
Proof.
  intros HL Ht HkL Hag H0 Hk.
  eapply (safe_wait _ _ _ step_inv t _ _ _ (knows t L) (knows t (set_k_wl None L)));
    [done|apply knows_stable|apply knows_stable|exact HL|..].
  - intros σ' σ'' HL' Hi He. pose proof HL' as (Kw & _). rewrite HkL in Kw.
    destruct Kw as (Hh0 & Hw & _ & Hc).
    pose proof (emit_ghost fuel s0 _ _ _ _ He) as Hg. pose proof (emit_fields _ _ _ _ He) as Hf.
    pose proof (emit_held _ _ _ _ He) as [_ Hh]%give_lock_spec. split.
    + split_and!; [done| |unfold refcount; by rewrite Hw].
      intros Hs. unfold refcount. rewrite Hw. by apply Hag, Hc.
    + apply (knows_wl t L _ σ'); rewrite ?Hh, ?Hf, ?Hg; try done. simpl. by rewrite Hh.
  - intros σ' b σ'' HL' Hi x He. split; [done|]. intros _.
    pose proof (emit_ghost fuel s0 _ _ _ _ He) as Hg. pose proof (emit_fields _ _ _ _ He) as Hf.
    pose proof (emit_held _ _ _ _ He) as [Hfree Hh]%take_lock_spec.
    destruct (fresh_taken _ _ _ _ Hi Hfree He) as [Hr Hw]; try done; try by rewrite Hg.
    { by rewrite Hh. }
    eapply Hk; [exact Hr|]. destruct L.
    by apply (knows_wl t (set_k_wl None _) _ σ'); rewrite ?Hh, ?Hf, ?Hg.
Qed.
(** A write that leaves the pending queue as it is. *)
Lemma queue_step_same s s' g : queue_of s' = queue_of s → queue_step s s' g = g.
Proof using Type.
  intros Hq. unfold queue_step. rewrite Hq, bool_decide_false by lia.
  rewrite bool_decide_false; [done|]. unfold queued. fold (queue_of s) (queue_of s'). rewrite Hq. lia.
Qed.

Lemma modify_wl {B} t L w n C f (k : unit → hal B) Q σ :
  knows t L σ → k_wl L = Some (w, n, C) → in_uint 64 (mWakelockRefCount (f w)) →
  mWakelockRefCount (f w) = 0 ∨ n = true →
  (∀ σ', knows t (set_k_wl (Some (f w, n, λ b, C b ∧ mWakelockRefCount (f w) < 2 ^ 63)) L) σ' →
    safe t (k ()) Q σ') →
  safe t (modify_wakelock f ≫= k) Q σ.
Proof.
  intros HL HkL Hr Hz Hk. eapply knows_modify; [exact HL| |exact Hk].
  intros σ' σ'' HL' Hi He. pose proof HL' as (Kw & _). rewrite HkL in Kw.
  destruct Kw as (Hh0 & Hw & Hn & Hc).
  pose proof (emit_ghost fuel s0 _ _ _ _ He) as Hg. pose proof (emit_fields _ _ _ _ He) as Hf.
  pose proof (emit_held _ _ _ _ He) as Hh. injection Hh as Hh. simpl in Hg, Hf.
  rewrite queue_step_same in Hg by done. split.
  - split; try done; try by left.
    right. split_and!; [done|by unfold refcount; simpl; rewrite Hw|].
    intros Has. unfold refcount. simpl. rewrite Hw. destruct Hz as [?| ->]; [done|].
    by rewrite Hn in Has.
  - apply (knows_wl t L _ σ'); rewrite <- ?Hh, ?Hf, ?Hg; try done.
    simpl. rewrite <- Hh, Hf, Hg. split_and!; [done|by simpl; rewrite Hw|done|].
    intros Hs. split; [by apply Hc; eapply emit_small|].
    pose proof (emit_small_now fuel _ _ _ _ _ He Hs) as Hlt. unfold refcount in Hlt. simpl in Hlt.
    by rewrite Hw in Hlt.
Qed.

Lemma notify_wl {B} t L w n C (k : unit → hal B) Q σ :
  knows t L σ → k_wl L = Some (w, n, C) →
  (∀ σ', knows t (set_k_wl (Some (w, true, C)) L) σ' → safe t (k tt) Q σ') →
  safe t (call NotifyWakelockCV ≫= k) Q σ.
Proof.
  intros HL HkL Hk. apply (knows_call t L _ _ (λ _, knows t (set_k_wl (Some (w, true, C)) L)));
    [done|exact HL| |by intros []].
  intros σ' [] σ'' HL' Hi He. pose proof HL' as (Kw & _). rewrite HkL in Kw.
  destruct Kw as (Hh0 & Hw & _ & Hc).
  pose proof (emit_ghost fuel s0 _ _ _ _ He) as Hg. pose proof (emit_fields _ _ _ _ He) as Hf.
  pose proof (emit_held _ _ _ _ He) as Hh. injection Hh as Hh. split; [by left|].
  apply (knows_wl t L _ σ'); rewrite <- ?Hh, ?Hf, ?Hg; try done.
  simpl. rewrite <- Hh, Hf, Hg. split_and!; [done..|]. intros Hs.
  apply Hc. by eapply emit_small.
Qed.

(** The kernel's lock is taken and given back. *)
Lemma kernel_call {B} t L w n C (c : halE SubHal unit) (b : bool) (k : unit → hal B) Q σ :
  c = (if b then AcquireWakeLock else ReleaseWakeLock) → knows t L σ →
  k_wl L = Some (w, n, C) → mWakelockRefCount w = 0 → (∀ b', C b' → b' = negb b) →
  (∀ σ', knows t (set_k_wl (Some (w, n, λ b', b' = b ∧ ∃ b0, C b0)) L) σ' → safe t (k tt) Q σ') →
  safe t (call c ≫= k) Q σ.
Proof.
  intros Hcb HL HkL H0 HC Hk. apply (knows_call t L _ _ (λ _, knows t (set_k_wl
    (Some (w, n, λ b', b' = b ∧ ∃ b0, C b0)) L))); [by rewrite Hcb; destruct b|exact HL| |by intros []].
  intros σ' [] σ'' HL' Hi He. pose proof HL' as (Kw & _). rewrite HkL in Kw.
  destruct Kw as (Hh0 & Hw & Hn & Hc).
  pose proof (emit_ghost fuel s0 _ _ _ _ He) as Hg. pose proof (emit_fields _ _ _ _ He) as Hf.
  pose proof (emit_small fuel _ _ _ _ He) as Hs.
  pose proof (emit_held _ _ _ _ He) as Hh. rewrite Hcb in Hg, Hh |- *.
  assert (held σ'' = held σ') as Hh' by (destruct b; by injection Hh as <-). clear Hh.
  split.
  - destruct b; (split_and!; [done|by unfold refcount; rewrite Hw|]); intros Hsm;
      by apply HC, Hc.
  - apply (knows_wl t L _ σ'); rewrite ?Hh', ?Hf, ?Hg; try done; try by destruct b.
    simpl. rewrite Hh', Hf, Hg. split_and!; [done|done|by destruct b|].
    intros Hsm%Hs. split; [by destruct b|]. eexists. by apply Hc.
Qed.

Lemma time_safe {B} t L (k : Z → hal B) Q σ :
  knows t L σ → (∀ x σ', knows t L σ' → safe t (k x) Q σ') → safe t (call GetTimeNow ≫= k) Q σ.
Proof. intros HL Hk. by eapply neutral_safe. Qed.

(** ** [mEventQueueWriteMutex] *)
Lemma knows_eq t L o σ σ' :
  knows t L σ → kn_eq t o σ' →
  held σ' mWakelockMutex = held σ mWakelockMutex →
  held σ' mDynamicSensorsMutex = held σ mDynamicSensorsMutex →
  wakelock (fields σ') = wakelock (fields σ) →
  g_wl_asleep (ghost σ') = g_wl_asleep (ghost σ) → g_kernel (ghost σ') = g_kernel (ghost σ) →
  (small (trace σ') → small (trace σ)) →
  kn_front t (k_front L) σ' → kn_in t (k_in L) σ' → knows t (set_k_eq o L) σ'.
Proof using Type.
  intros (Kw & _ & Kd & _ & _) Ke Hw Hd Hs Has Hk Hsm Hf Hi. split_and!; [|done| |done|done].
  - by apply (kn_wl_same t _ σ).
  - by apply (kn_ds_same t _ σ).
Qed.

(** What a thread knows when it has just taken the mutex. *)
Definition eq_fresh (p : Pending) : option (Pending * bool * list Event) :=
  Some (p, bool_decide (mPendingWriteEventsQueue p ≠ []), []).

Lemma eq_taken t L e σ σ' :
  knows t L σ → inv σ → held σ mEventQueueWriteMutex = None → emit t e σ = Some σ' →
  fields σ' = fields σ → held σ' = own mEventQueueWriteMutex (Some t) (held σ) →
  (g_eq_asleep (ghost σ') = true → g_eq_asleep (ghost σ) = true) →
  g_wl_asleep (ghost σ') = g_wl_asleep (ghost σ) → g_kernel (ghost σ') = g_kernel (ghost σ) →
  g_inflight (ghost σ') = g_inflight (ghost σ) → open_piece (ghost σ') = open_piece (ghost σ) →
  ∃ p, tidy p ∧ (∀ x, k_front L = Some x → ∃ rest, mPendingWriteEventsQueue p = x :: rest) ∧
    (∀ l, k_in L = Some l → l `prefix_of` concat (mPendingWriteEventsQueue p).*1) ∧
    knows t (set_k_eq (eq_fresh p) L) σ'.
Proof.
  intros HL Hi Hfree He Hf Hh Has Hwl Hk Hin Ho. exists (pending (fields σ)).
  destruct (inv_tidy _ _ _ _ Hi Hfree) as [Ht Hq]. pose proof HL as (_ & _ & _ & Kf & Ki).
  split_and!; [done| | |].
  - intros x Hx. rewrite Hx in Kf. by destruct Kf as [_ ?].
  - intros l Hl. rewrite Hl in Ki. destruct Ki as [_ <-]. apply (inv_inflight _ _ _ _ Hi).
  - apply (knows_eq t L _ σ); rewrite ?Hh; try done; try by rewrite Hf.
    + split_and!; [by rewrite Hh|by rewrite Hf| |].
      * intros Hne%bool_decide_eq_true.
        destruct (g_eq_asleep (ghost σ')) eqn:Hb; [|done]. destruct Hne. by apply Hq, Has.
      * rewrite Ho. by apply (inv_closed _ _ _ _ Hi).
    + by eapply emit_small.
    + eapply kn_front_same; [done|by rewrite Hf].
    + by eapply kn_in_same.
Qed.

Lemma lock_eq {B} t L (k : unit → hal B) Q σ :
  knows t L σ →
  (∀ p σ', tidy p → (∀ x, k_front L = Some x → ∃ rest, mPendingWriteEventsQueue p = x :: rest) →
    (∀ l, k_in L = Some l → l `prefix_of` concat (mPendingWriteEventsQueue p).*1) →
    knows t (set_k_eq (eq_fresh p) L) σ' → safe t (k tt) Q σ') →
  safe t (call LockEventQueueWrite ≫= k) Q σ.
Proof.
  intros HL Hk. eapply (knows_call t L _ _ (λ _ σ', ∃ p, tidy p ∧
    (∀ x, k_front L = Some x → ∃ rest, mPendingWriteEventsQueue p = x :: rest) ∧
    (∀ l, k_in L = Some l → l `prefix_of` concat (mPendingWriteEventsQueue p).*1) ∧
    knows t (set_k_eq (eq_fresh p) L) σ')); [done|exact HL| |].
  2: { intros [] σ' (p & ? & ? & ? & ?). by eapply Hk. }
  intros σ' [] σ'' HL' Hi He. split; [done|].
  pose proof (emit_held _ _ _ _ He) as [Hfree Hh]%take_lock_spec.
  pose proof (emit_ghost fuel s0 _ _ _ _ He) as Hg.
  apply (eq_taken t L _ σ' σ'' HL' Hi Hfree He); [|done|..]; rewrite ?Hg; try done.
  by rewrite (emit_fields _ _ _ _ He).
Qed.

(** The thread that takes batches off may remember the one at the front. *)
Definition remembers t L (p : Pending) (o : option (list Event * Z)) : Prop :=
  o = k_front L ∨ ∃ x rest, o = Some x ∧ t = writer ∧ mPendingWriteEventsQueue p = x :: rest.

Lemma given_eq t L p n l o σ σ' :
  k_eq L = Some (p, n, l) → knows t L σ → remembers t L p o →
  fields σ' = fields σ → held σ' = own mEventQueueWriteMutex None (held σ) →
  g_wl_asleep (ghost σ') = g_wl_asleep (ghost σ) → g_kernel (ghost σ') = g_kernel (ghost σ) →
  g_inflight (ghost σ') = g_inflight (ghost σ) → (small (trace σ') → small (trace σ)) →
  knows t (set_k_front o (set_k_eq None L)) σ'.
Proof.
  intros HkL HL Ho Hf Hh Hwl Hk Hin Hsm. pose proof HL as (_ & Ke & _ & Kf & Ki).
  rewrite HkL in Ke. destruct Ke as (_ & Hp & _).
  apply (knows_eq t (set_k_front o L) None σ); rewrite ?Hh; try done; try by rewrite Hf.
  - destruct HL as (? & ? & ? & _ & ?). split_and!; [done..| |done]. simpl.
    destruct Ho as [->|(x & rest & -> & -> & Hq)]; [done|]. split; [done|]. exists rest.
    unfold queue_of. by rewrite Hp.
  - simpl. by rewrite Hh.
  - simpl. destruct Ho as [->|(x & rest & -> & -> & Hq)].
    + eapply kn_front_same; [done|by rewrite Hf].
    + split; [done|]. exists rest. unfold queue_of. by rewrite Hf, Hp.
  - by eapply kn_in_same.
Qed.

Lemma unlock_eq {B} t L p n l o (k : unit → hal B) Q σ :
  knows t L σ → k_eq L = Some (p, n, l) → tidy p → mPendingWriteEventsQueue p = [] ∨ n = true →
  whole_piece writer getSensorInfo posts t p l → remembers t L p o →
  (∀ σ', knows t (set_k_front o (set_k_eq None L)) σ' → safe t (k tt) Q σ') →
  safe t (call UnlockEventQueueWrite ≫= k) Q σ.
Proof.
  intros HL HkL Htidy Hn Hl Ho Hk.
  apply (knows_call t L _ _ (λ _, knows t (set_k_front o (set_k_eq None L))));
    [done|exact HL| |by intros []].
  intros σ' [] σ'' HL' Hi He. pose proof HL' as (_ & Ke & _). rewrite HkL in Ke.
  destruct Ke as (Hh0 & Hp & Hnn & Hop).
  pose proof (emit_ghost fuel s0 _ _ _ _ He) as Hg.
  pose proof (emit_held _ _ _ _ He) as [_ Hh]%give_lock_spec. split.
  - split_and!; [by rewrite Hp| |by rewrite Hop, Hp]. intros Has. unfold queue_of. rewrite Hp.
    destruct Hn as [?| ->]; [done|]. by rewrite Hnn in Has.
  - eapply given_eq; [done..| |done| | | |]; rewrite ?Hg; try done.
    + by rewrite (emit_fields _ _ _ _ He).
    + by eapply emit_small.
Qed.

Lemma wait_eq {B} t L p n (k : unit → hal B) Q σ :
  knows t L σ → t = writer → k_eq L = Some (p, n, []) → tidy p → mPendingWriteEventsQueue p = [] →
  (∀ p σ', tidy p → (∀ x, k_front L = Some x → ∃ rest, mPendingWriteEventsQueue p = x :: rest) →
    knows t (set_k_eq (eq_fresh p) L) σ' → safe t (k tt) Q σ') →
  safe t (call WaitEventQueueWriteCV ≫= k) Q σ.
Proof.
  intros HL Ht HkL Htidy Hq Hk.
  eapply (safe_wait _ _ _ step_inv t _ _ _ (knows t L) (knows t (set_k_eq None L)));
    [done|apply knows_stable|apply knows_stable|exact HL|..].
  - intros σ' σ'' HL' Hi He. pose proof HL' as (_ & Ke & _). rewrite HkL in Ke.
    destruct Ke as (Hh0 & Hp & Hnn & Hop).
    pose proof (emit_ghost fuel s0 _ _ _ _ He) as Hg.
    pose proof (emit_held _ _ _ _ He) as [_ Hh]%give_lock_spec. split.
    + split_and!; [done|by rewrite Hp|unfold queue_of; by rewrite Hp|done].
    + pose proof (given_eq t L p n [] (k_front L) σ' σ'' HkL HL') as Hgiven. destruct L.
      apply Hgiven; rewrite ?Hg; try done; [by left|by rewrite (emit_fields _ _ _ _ He)|].
      by eapply emit_small.
  - intros σ' b σ'' HL' Hi x He. split; [done|]. intros _.
    pose proof (emit_held _ _ _ _ He) as [Hfree Hh]%take_lock_spec.
    pose proof (emit_ghost fuel s0 _ _ _ _ He) as Hg.
    destruct (eq_taken t (set_k_eq None L) _ σ' σ'' HL' Hi Hfree He) as (p' & Ht' & Hfr & _ & HL'');
      [|done|..]; rewrite ?Hg; try done.
    { by rewrite (emit_fields _ _ _ _ He). }
    by eapply Hk.
Qed.
Lemma notify_eq {B} t L p n l (k : unit → hal B) Q σ :
  knows t L σ → k_eq L = Some (p, n, l) →
  (∀ σ', knows t (set_k_eq (Some (p, true, l)) L) σ' → safe t (k tt) Q σ') →
  safe t (call NotifyEventQueueWriteCV ≫= k) Q σ.
Proof.
  intros HL HkL Hk. apply (knows_call t L _ _ (λ _, knows t (set_k_eq (Some (p, true, l)) L)));
    [done|exact HL| |by intros []].
  intros σ' [] σ'' HL' Hi He. pose proof HL' as (_ & Ke & _ & Kf & Ki). rewrite HkL in Ke.
  destruct Ke as (Hh0 & Hp & _ & Hop).
  pose proof (emit_ghost fuel s0 _ _ _ _ He) as Hg. pose proof (emit_fields _ _ _ _ He) as Hf.
  pose proof (emit_held _ _ _ _ He) as Hh. injection Hh as Hh. split; [by left|].
  apply (knows_eq t L _ σ'); rewrite <- ?Hh, ?Hf, ?Hg; try done.
  - simpl. by rewrite <- Hh, Hf, Hg.
  - by eapply emit_small.
  - eapply kn_front_same; [done|by rewrite Hf].
  - eapply kn_in_same; [done|by rewrite Hg].
Qed.

(** How a thread changes the pending queue, and what it knows then. *)
Inductive changes t L (p p' : Pending) (l : list Event) : list Event → know → Prop :=
| changes_nothing :
    mPendingWriteEventsQueue p' = mPendingWriteEventsQueue p → changes t L p p' l l L
| changes_push events n b :
    mPendingWriteEventsQueue p' = mPendingWriteEventsQueue p ++ [(events, n)] → events ≠ [] →
    b ∈ posts t → events `suffix_of` owed getSensorInfo b →
    changes t L p p' l (l ++ events) L
| changes_pop written b n rest :
    t = writer → k_in L = Some written → mPendingWriteEventsQueue p = (b, n) :: rest → b ≠ [] →
    (mPendingWriteEventsQueue p' = rest ∧ b = written ∨
     ∃ b', mPendingWriteEventsQueue p' = (b', n) :: rest ∧ b' ≠ [] ∧ b = written ++ b') →
    changes t L p p' l l (set_k_front None (set_k_in (Some []) L)).

Lemma changes_change t L p p' l l' L' σ s s' :
  changes t L p p' l l' L' → knows t L σ → pending s = p → pending s' = p' →
  queue_change s0 writer getSensorInfo posts σ t (queue_of s) (queue_of s').
Proof using Type.
  intros Hc (_ & _ & _ & _ & Ki) <- <-.
  destruct Hc as [Hq|es n b Hq Hne Hin Hsuf|written b n rest Ht Hl Hq Hb Hq'].
  - by left.
  - right; left. by exists es, n, b.
  - right; right. split; [done|]. rewrite Hl in Ki. destruct Ki as [_ ->]. by exists b, n, rest.
Qed.

Lemma queue_step_wl s s' g : g_kernel (queue_step s s' g) = g_kernel g ∧
  g_wl_asleep (queue_step s s' g) = g_wl_asleep g ∧ g_eq_asleep (queue_step s s' g) = g_eq_asleep g.
Proof using Type. unfold queue_step. by repeat case_bool_decide. Qed.

(** What has been written is off the queue. *)
Lemma popped s s' g b n rest :
  queue_of s = (b, n) :: rest →
  (queue_of s' = rest ∧ b = g_inflight g ∨
   ∃ b', queue_of s' = (b', n) :: rest ∧ b' ≠ [] ∧ b = g_inflight g ++ b') →
  g_inflight (queue_step s s' g) = [].
Proof using Type.
  intros Hq Hc.
  assert (queued s = g_inflight g ++ queued s' ∧ (length (queue_of s') ≤ length (queue_of s))%nat)
    as [Hq' Hl].
  { unfold queued. fold (queue_of s). fold (queue_of s'). rewrite Hq.
    destruct Hc as [[-> ->]|(b' & -> & _ & ->)]; simpl; [split; [done|lia]|]. by rewrite app_assoc. }
  unfold queue_step. rewrite bool_decide_false by lia. rewrite Hq', length_app.
  case_bool_decide; [done|]. destruct (g_inflight g); [done|]. simpl in *. lia.
Qed.

(** What has been pushed is in the open piece. *)
Lemma pushed s s' g es n :
  concat (g_pieces g) `prefix_of` g_accepted g → queue_of s' = queue_of s ++ [(es, n)] →
  open_piece (queue_step s s' g) = open_piece g ++ es.
Proof using Type.
  intros [l Hl] Hq. unfold queue_step. rewrite Hq, length_app, bool_decide_true by (simpl; lia).
  rewrite drop_app_length. unfold open_piece. cbn [set_g_accepted g_accepted g_pieces].
  simpl. by rewrite app_nil_r, Hl, <- app_assoc, !drop_app_length.
Qed.

Lemma popped_open s s' g :
  (length (queue_of s') ≤ length (queue_of s))%nat → open_piece (queue_step s s' g) = open_piece g.
Proof using Type.
  intros Hl. unfold queue_step. rewrite bool_decide_false by lia. by case_bool_decide.
Qed.

Lemma modify_eq {B} t L p n l f l' L' (k : unit → hal B) Q σ :
  knows t L σ → k_eq L = Some (p, n, l) → changes t L p (f p) l l' L' →
  (∀ σ', knows t (set_k_eq (Some (f p, n, l')) L') σ' → safe t (k ()) Q σ') →
  safe t (modify_pending f ≫= k) Q σ.
Proof.
  intros HL HkL Hc Hk. eapply knows_modify; [exact HL| |exact Hk].
  intros σ' σ'' HL' Hi He. pose proof HL' as (Kw & Ke & Kd & Kf & Ki). rewrite HkL in Ke.
  destruct Ke as (Hh0 & Hp & Hn & Hop).
  pose proof (emit_ghost fuel s0 _ _ _ _ He) as Hg. pose proof (emit_fields _ _ _ _ He) as Hf.
  pose proof (emit_held _ _ _ _ He) as Hh. injection Hh as Hh. simpl in Hg, Hf.
  destruct (queue_step_wl (fields σ') (set_pending (f (pending (fields σ'))) (fields σ')) (ghost σ'))
    as (G1 & G2 & G3). rewrite <- Hg in G1, G2, G3. split.
  { split; try done; try by left. right. split; [done|].
    eapply changes_change; [done..|]. simpl. by rewrite Hp. }
  assert (k_wl L' = k_wl L ∧ k_ds L' = k_ds L) as [Hkw Hkd] by by destruct Hc.
  split_and!; simpl.
  - rewrite Hkw. apply (kn_wl_same t _ σ'); rewrite <- ?Hh, ?Hf; try done. by eapply emit_small.
  - rewrite <- Hh, Hf, G3, Hg. simpl. split_and!; [done|by rewrite Hp|done|].
    destruct Hc as [Hq|es m b Hq _ _ _|written b m rest _ _ Hq _ Hq'].
    + rewrite queue_step_same; [done|]. unfold queue_of. simpl. by rewrite Hp, Hq.
    + rewrite <- Hop. apply (pushed _ _ _ es m); [apply (inv_pieces _ _ _ _ Hi)|]. unfold queue_of. simpl.
      by rewrite Hp, Hq.
    + rewrite <- Hop. apply popped_open. unfold queue_of. simpl. rewrite Hp, Hq.
      destruct Hq' as [[-> _]|(b' & -> & _)]; simpl; lia.
  - rewrite Hkd. apply (kn_ds_same t _ σ'); by rewrite <- ?Hh.
  - destruct Hc as [Hq|es m b Hq Hne Hin Hsuf|written b m rest Ht Hl Hq Hb Hq']; [..|done].
    + apply (kn_front_same t _ σ'); [done|]. rewrite Hf. unfold queue_of. simpl. by rewrite Hp, Hq.
    + destruct (k_front L); [|done]. destruct Kf as [Ht [rest Hr]]. split; [done|].
      exists (rest ++ [(es, m)]). rewrite Hf. unfold queue_of in *. simpl. rewrite Hp in *.
      by rewrite Hq, Hr.
  - destruct Hc as [Hq|es m b Hq Hne Hin Hsuf|written b m rest Ht Hl Hq Hb Hq'].
    + apply (kn_in_same t _ σ'); [done|]. rewrite Hg, queue_step_same; [done|].
      unfold queue_of. simpl. by rewrite Hp, Hq.
    + apply (kn_in_same t _ σ'); [done|]. rewrite Hg. unfold queue_step.
      rewrite bool_decide_true; [done|]. unfold queue_of. simpl. rewrite Hp, Hq, length_app. simpl. lia.
    + split; [done|]. rewrite Hg. rewrite Hl in Ki. destruct Ki as [_ <-].
      apply (popped _ _ _ b m rest); unfold queue_of; simpl; by rewrite Hp.
Qed.

(** ** Writes to the message queue *)
Lemma eq_write {B} t L p n l q events (k : bool → hal B) Q σ :
  knows t L σ → k_eq L = Some (p, n, l) → mPendingWriteEventsQueue p = [] →
  mEventQueue (queues s0) = Some q → events ≠ [] →
  (∃ b, b ∈ posts t ∧ events `prefix_of` owed getSensorInfo b) →
  (∀ (ok : bool) σ', knows t (set_k_eq (Some (p, n, if ok then l ++ events else l)) L) σ' →
    safe t (k ok) Q σ') →
  safe t (call (Eq_write q events) ≫= k) Q σ.
Proof.
  intros HL HkL Hq0 Hq Hne Hb Hk. apply (knows_call t L _ _ (λ ok : bool, knows t
    (set_k_eq (Some (p, n, if ok then l ++ events else l)) L))); [done|exact HL| |done].
  intros σ' ok σ'' HL' Hi He. pose proof HL' as (Kw & Ke & Kd & Kf & Ki). split.
  - rewrite HkL in Ke. destruct Ke as (Hh0 & Hp & _). destruct (inv_setup _ _ _ _ Hi) as (_ & _ & Hqs).
    split_and!; [done|by rewrite Hqs| |done|done]. unfold queue_of. by rewrite Hp.
  - pose proof (emit_ghost fuel s0 _ _ _ _ He) as Hg. pose proof (emit_fields _ _ _ _ He) as Hf.
    pose proof (emit_held _ _ _ _ He) as Hh. injection Hh as Hh.
    pose proof (emit_small fuel _ _ _ _ He) as Hs. split_and!.
    + apply (kn_wl_same t _ σ'); rewrite <- ?Hh, ?Hf, ?Hg; try done; by destruct ok.
    + rewrite HkL in Ke. destruct Ke as (Hh0 & Hp & Hn & Hop). simpl. rewrite <- Hh, Hf, Hg, <- Hop.
      split_and!; [done|done|by destruct ok|]. destruct ok; [|done].
      destruct (inv_pieces _ _ _ _ Hi) as [l' Hl']. unfold open_piece. simpl.
      by rewrite Hl', <- app_assoc, !drop_app_length.
    + apply (kn_ds_same t _ σ'); by rewrite <- ?Hh.
    + apply (kn_front_same t _ σ'); by rewrite ?Hf.
    + apply (kn_in_same t _ σ'); rewrite ?Hg; [done|by destruct ok].
Qed.

Lemma eq_write_blocking {B} t L b m q events (k : bool → hal B) Q σ :
  knows t L σ → t = writer → empty_handed L → k_front L = Some (b, m) → k_in L = Some [] →
  mEventQueue (queues s0) = Some q → events `prefix_of` b →
  (∀ ok σ', knows t (set_k_in (Some events) L) σ' → safe t (k ok) Q σ') →
  safe t (call (Eq_writeBlocking q events kPendingWriteTimeoutNs (mEventQueueFlag (queues s0))) ≫= k)
    Q σ.
Proof.
  intros HL Ht Hempty Hfr Hin Hq Hpre Hk.
  apply (knows_call t L _ _ (λ _, knows t (set_k_in (Some events) L))); [done|exact HL| |done].
  intros σ' ok σ'' HL' Hi He. pose proof HL' as (Kw & Ke & Kd & Kf & Ki). split.
  - rewrite Hfr in Kf. destruct Kf as [_ [rest Hr]]. rewrite Hin in Ki. destruct Ki as [_ Ki].
    destruct (inv_setup _ _ _ _ Hi) as (_ & _ & Hqs).
    split_and!; [done|by eapply knows_free|by rewrite Hqs|done|by rewrite Hqs|done|].
    by exists b, m, rest.
  - pose proof (emit_ghost fuel s0 _ _ _ _ He) as Hg. pose proof (emit_fields _ _ _ _ He) as Hf.
    pose proof (emit_held _ _ _ _ He) as Hh. injection Hh as Hh.
    pose proof (emit_small fuel _ _ _ _ He) as Hs. split_and!.
    + apply (kn_wl_same t _ σ'); by rewrite <- ?Hh, ?Hf, ?Hg.
    + apply (kn_eq_same t _ σ'); by rewrite <- ?Hh, ?Hf, ?Hg.
    + apply (kn_ds_same t _ σ'); by rewrite <- ?Hh.
    + apply (kn_front_same t _ σ'); by rewrite ?Hf.
    + split; [done|]. by rewrite Hg.
Qed.
(** ** Writes to other fields *)
Lemma other_kept t L f σ' σ'' :
  (∀ s, pending (f s) = pending s ∧ wakelock (f s) = wakelock s) → knows t L σ' →
  emit t (Wrote (fields σ') (f (fields σ'))) σ' = Some σ'' → knows t L σ''.
Proof using Type.
  intros Hf HL' He. destruct (Hf (fields σ')) as [Hp Hw].
  pose proof (emit_ghost fuel s0 _ _ _ _ He) as Hg. pose proof (emit_fields _ _ _ _ He) as Hfs.
  pose proof (emit_held _ _ _ _ He) as Hh. injection Hh as Hh. simpl in Hg, Hfs.
  rewrite queue_step_same in Hg by (unfold queue_of; by rewrite Hp).
  destruct HL' as (Kw & Ke & Kd & Kf & Ki). split_and!.
  - apply (kn_wl_same t _ σ'); rewrite <- ?Hh, ?Hfs, ?Hg; try done. by eapply emit_small.
  - by apply (kn_eq_same t _ σ'); rewrite <- ?Hh, ?Hfs, ?Hg.
  - by apply (kn_ds_same t _ σ'); rewrite <- ?Hh.
  - apply (kn_front_same t _ σ'); [done|]. rewrite Hfs. unfold queue_of. by rewrite Hp.
  - by apply (kn_in_same t _ σ'); rewrite ?Hg.
Qed.
Lemma modify_other {B} t L f (k : unit → hal B) Q σ :
  knows t L σ → (∀ s, pending (f s) = pending s ∧ wakelock (f s) = wakelock s) →
  (∀ σ', knows t L σ' → inv σ' →
    may_write s0 writer stopper getSensorInfo posts σ' t (fields σ') (f (fields σ'))) →
  (∀ σ', knows t L σ' → safe t (k ()) Q σ') → safe t (modify f ≫= k) Q σ.
Proof.
  intros HL Hf Ha Hk. eapply knows_modify; [exact HL| |exact Hk].
  intros σ' σ'' HL' Hi He. split; [by apply Ha|by eapply other_kept].
Qed.

(** Once stopped, the threads stay stopped. *)
Definition stopped σ : Prop := mThreadsRun (fields σ) = false.

Lemma stopped_stable t : stable t stopped.
Proof using Type.
  unfold stopped. intros σ σ' u e Hu _ Hs Ha He. rewrite (emit_fields _ _ _ _ He).
  destruct e as [| |s s']; simpl; [done..|].
  destruct Ha as [-> _ _ _ [->|[_ ?]] _ _ _ _]; done.
Qed.

Lemma stable_or t (P P' : state → Prop) : stable t P → stable t P' → stable t (λ σ, P σ ∨ P' σ).
Proof using Type.
  intros H1 H2 σ σ' u e Hu Hi [HP|HP'] Ha He; [left; by eapply H1|right; by eapply H2].
Qed.

(** The table of sensors is the pending-writes thread's. *)
Lemma sensors_stable m : stable writer (λ σ, mSensors (fields σ) = m).
Proof using Type.
  intros σ σ' u e Hu _ Hm Ha He. rewrite (emit_fields _ _ _ _ He).
  destruct e as [| |s s']; simpl; [done..|].
  destruct Ha as [-> _ _ _ _ _ _ _ [->|[? _]]]; done.
Qed.

Lemma insert_sensor {B} L m h (k : unit → hal B) Q σ :
  knows writer L σ → mSensors (fields σ) = m → m !! h = None →
  (∀ σ', knows writer L σ' → safe writer (k ()) Q σ') →
  safe writer (modify (set_mSensors (<[h := default_SensorInfo]> m)) ≫= k) Q σ.
Proof.
  intros HL Hm Hh Hk. eapply (safe_modify _ _ _ step_inv writer _ _
    (λ σ, knows writer L σ ∧ mSensors (fields σ) = m));
    [apply stable_and; [apply knows_stable|apply sensors_stable]|done|].
  intros σ' σ'' [HL' Hm'] Hi He. split.
  - split; try done; try by left. right. split; [done|]. exists h. by rewrite Hm'.
  - intros _. apply Hk. by apply (other_kept writer L (set_mSensors (<[h := default_SensorInfo]> m)) σ').
Qed.
End facts.
