(* ===== verification/HalProxyWakelockSafe.v ===== *)
(** The wake lock of the sensors HAL proxy keeps to the protocol of the threads
    ([HalProxyProtocol]): the reference count, its time-out, and the thread. *)
From S2P Require Import Prelude Effects SensorTypes SensorHandle HalProxyState HalProxy HalProxyFacts Wakelock WakelockFacts EventQueue EventQueueFacts HalProxyInit HalProxyCallback HalProxySystem HalProxyThreads HalProxyProtocol HalProxyProtocolFacts HalProxyThreadsFacts Threads ThreadsLogic.
From stdpp Require Import options.
#[local] Set Default Proof Using "Type*".

Section safe.
Context {SubHal : Type} {SubHal_eq : EqDecision SubHal} {SC : SensorConsts} {SL : SensorLaws} (fuel : nat).
Context {MO : MapOrder Z SensorInfo}.
Let sy : Sync (halE SubHal) hal_mutex (HalProxy SubHal) (option unit) := hal_sync fuel.
#[local] Existing Instance sy.
Variables (s0 : HalProxy SubHal) (writer waker stopper : nat).
Variable getSensorInfo : Z → SensorInfo.
Variable posts : nat → list HalProxySystem.batch.

#[local] Abbreviation hal A := (prog (halE SubHal) (HalProxy SubHal) A).
#[local] Abbreviation hal_event := (event (halE SubHal) (HalProxy SubHal)).
#[local] Abbreviation state := (shared (halE SubHal) hal_mutex (HalProxy SubHal)).
#[local] Abbreviation allowed := (hal_allowed s0 writer waker stopper getSensorInfo posts).
#[local] Abbreviation inv := (hal_inv s0 writer waker).
#[local] Abbreviation ghost σ := (ghost_of s0 (trace σ)).
#[local] Abbreviation safe := (safe allowed inv any_answer).
#[local] Abbreviation knows := (knows s0 writer).
Implicit Types (t u : nat) (σ : state) (s : HalProxy SubHal) (e : hal_event) (L : know).

Lemma knows_bind {A B} t (p : hal A) (k : A → hal B) (R : A → state → Prop) Q σ :
  safe t p R σ → (∀ a σ', R a σ' → safe t (k a) Q σ') → safe t (p ≫= k) Q σ.
Proof using Type. intros Hp Hk. apply safe_bind. by eapply safe_mono. Qed.

Lemma ret_bind {A B} (a : A) (k : A → hal B) : mret a ≫= k = k a.
Proof using Type. done. Qed.

(** * The wake lock *)

(** The thread holds [mWakelockMutex], and could give it back. *)
Definition wl_ok t L σ : Prop := ∃ w n C,
  in_uint 64 (mWakelockRefCount w) ∧ (mWakelockRefCount w ≠ 0 → n = true) ∧ wl_agrees w C ∧
  (∀ b, C b → mWakelockRefCount w < 2 ^ 63) ∧ knows t (set_k_wl (Some (w, n, C)) L) σ.

Lemma fresh_ok t L w σ :
  in_uint 64 (mWakelockRefCount w) → knows t (set_k_wl (wl_fresh w) L) σ → wl_ok t L σ.
Proof using Type.
  intros Hr HL. eexists w, _, _. split_and!; [done| | | |exact HL].
  - intros Hne. by apply bool_decide_eq_true.
  - by intros b [-> _].
  - by intros b [_ ?].
Qed.

Lemma lock_wl_ok {B} t L (k : unit → hal B) Q σ :
  knows t L σ → (∀ σ', wl_ok t L σ' → safe t (k tt) Q σ') → safe t (call LockWakelock ≫= k) Q σ.
Proof.
  intros HL Hk. eapply lock_wl; [exact HL|]. intros w σ' Hr HL'. apply Hk. by eapply fresh_ok.
Qed.

Lemma unlock_wl_ok {B} t L (k : unit → hal B) Q σ :
  wl_ok t L σ → (∀ σ', knows t (set_k_wl None L) σ' → safe t (k tt) Q σ') →
  safe t (call UnlockWakelock ≫= k) Q σ.
Proof.
  intros (w & n & C & _ & _ & Hag & _ & HL) Hk. eapply unlock_wl; [exact HL|done|exact Hag|exact Hk].
Qed.

(** Looking at the fields. *)
Lemma wl_get {B} t L (k : HalProxy SubHal → hal B) Q σ :
  wl_ok t L σ →
  (∀ s σ', in_uint 64 (refcount s) → wl_ok t L σ' → safe t (k s) Q σ') →
  safe t (get ≫= k) Q σ.
Proof.
  intros (w & n & C & Hr & Hn & Hag & Hlt & HL) Hk. eapply knows_get; [exact HL|].
  intros σ' HL' Hi. apply Hk; [apply (inv_count _ _ _ _ Hi)|]. by exists w, n, C.
Qed.

Lemma wl_time {B} t L (k : Z → hal B) Q σ :
  wl_ok t L σ → (∀ x σ', wl_ok t L σ' → safe t (k x) Q σ') → safe t (call GetTimeNow ≫= k) Q σ.
Proof.
  intros (w & n & C & Hr & Hn & Hag & Hlt & HL) Hk. eapply time_safe; [exact HL|].
  intros x σ' HL'. apply Hk. by exists w, n, C.
Qed.

Lemma wl_ret {B} t L (b : B) σ : wl_ok t L σ → safe t (mret b) (λ _, wl_ok t L) σ.
Proof.
  intros (w & n & C & Hr & Hn & Hag & Hlt & HL). eapply knows_ret; [exact HL|].
  intros σ' HL'. by exists w, n, C.
Qed.

(** A time is stored. *)
Lemma wl_store {B} t L f (k : unit → hal B) Q σ :
  wl_ok t L σ → (∀ w, mWakelockRefCount (f w) = mWakelockRefCount w) →
  (∀ σ', wl_ok t L σ' → safe t (k ()) Q σ') → safe t (modify_wakelock f ≫= k) Q σ.
Proof.
  intros (w & n & C & Hr & Hn & Hag & Hlt & HL) Hf Hk.
  eapply modify_wl; [exact HL|done|by rewrite Hf|..].
  - rewrite Hf. destruct (decide (mWakelockRefCount w = 0)); auto.
  - intros σ' HL'. apply Hk. eexists (f w), n, _. rewrite Hf. split_and!; [done|done| | |exact HL'].
    + intros b [Hb _]. unfold wl_agrees in Hag. rewrite Hf. by apply Hag.
    + intros b [Hb _]. by apply (Hlt b).
Qed.

Lemma increment_locked_safe t L delta σ :
  0 < delta < 2 ^ 63 → wl_ok t L σ → safe t (increment_locked delta) (λ _, wl_ok t L) σ.
Proof.
  intros Hd (w & n & C & Hr & Hn & Hag & Hlt & HL). unfold increment_locked.
  eapply knows_get; [exact HL|]. clear σ HL. intros σ HL Hi.
  assert (wakelock (fields σ) = w) as Hw by (by destruct HL as ((_ & ? & _) & _)). rewrite Hw.
  eapply (knows_bind t _ _ (λ _ σ', ∃ C', (∀ b, C' b → b = true ∧ mWakelockRefCount w < 2 ^ 63) ∧
    knows t (set_k_wl (Some (w, true, C')) L) σ')).
  - case_bool_decide as H0.
    + eapply (kernel_call _ _ _ _ _ _ _ _ _ _ _ _ _ true); [done|exact HL|done|done|..].
      { intros b Hb. rewrite (Hag b Hb). apply bool_decide_eq_false. lia. }
      clear σ HL Hi Hw. intros σ HL.
      change (call NotifyWakelockCV) with (call NotifyWakelockCV ≫= (mret : unit → hal unit)).
      eapply notify_wl; [exact HL|done|]. clear σ HL. intros σ HL.
      eapply knows_ret; [exact HL|]. intros σ' HL'. eexists. split; [|exact HL'].
      intros b (-> & b0 & Hb). split; [done|]. by apply (Hlt b0).
    + eapply knows_ret; [exact HL|]. intros σ' HL'. exists C. rewrite (Hn H0) in HL'.
      split; [|done]. intros b Hb. split; [|by apply (Hlt b)]. rewrite (Hag b Hb).
      apply bool_decide_eq_true. unfold in_uint in Hr. lia.
  - clear dependent σ. intros [] σ (C' & HC & HL). eapply time_safe; [exact HL|]. clear σ HL.
    intros now σ HL. eapply modify_wl; [exact HL|done|done|by right|]. clear σ HL.
    intros σ HL. eapply modify_wl; [exact HL|done| |by right|]; simpl.
    { by apply wrapu_range. }
    clear σ HL. intros σ HL. eapply knows_ret; [exact HL|]. intros σ' HL'.
    eexists _, true, _. split_and!; [|done| | |exact HL'].
    + by apply wrapu_range.
    + intros b ((Hb & _) & _). simpl. destruct (HC b Hb) as [-> Hsm]. symmetry.
      apply bool_decide_eq_true. unfold in_uint in Hr. rewrite wrapu_id; unfold in_uint; lia.
    + by intros b (_ & ?).
Qed.
Lemma decrement_locked_safe t L delta timeoutStart σ :
  0 ≤ delta → wl_ok t L σ → safe t (decrement_locked delta timeoutStart) (λ _, wl_ok t L) σ.
Proof.
  intros Hd (w & n & C & Hr & Hn & Hag & Hlt & HL). unfold decrement_locked.
  eapply knows_get; [exact HL|]. clear σ HL. intros σ HL Hi.
  assert (wakelock (fields σ) = w) as Hw by (by destruct HL as ((_ & ? & _) & _)). rewrite Hw.
  assert (wl_ok t L σ) as Hok by (by exists w, n, C).
  destruct (decide (mWakelockRefCount w = 0)) as [H0|H0].
  { rewrite (bool_decide_true _ H0). by apply wl_ret. }
  rewrite (bool_decide_false _ H0), orb_false_l.
  match goal with |- context [if ?b then mret () else _] => destruct b end; [by apply wl_ret|].
  specialize (Hn H0). subst n. unfold in_uint in Hr.
  eapply modify_wl; [exact HL|done|unfold in_uint; simpl; lia|by right|].
  set (w' := set_mWakelockRefCount _ w). clear dependent σ. intros σ HL.
  eapply knows_get; [exact HL|]. clear σ HL. intros σ HL Hi.
  assert (wakelock (fields σ) = w') as -> by (by destruct HL as ((_ & ? & _) & _)).
  case_bool_decide as Hz.
  - change (call ReleaseWakeLock) with (call ReleaseWakeLock ≫= (mret : unit → hal unit)).
    eapply (kernel_call _ _ _ _ _ _ _ _ _ _ _ _ _ false); [done|exact HL|done|done|..].
    { intros b [Hb _]. rewrite (Hag b Hb). apply bool_decide_eq_true. lia. }
    clear σ HL Hi. intros σ HL. eapply knows_ret; [exact HL|]. intros σ' HL'.
    eexists w', true, _. split_and!; [|done| | |exact HL'].
    + unfold in_uint. lia.
    + intros b [-> _]. symmetry. apply bool_decide_eq_false. lia.
    + intros b (_ & b0 & _ & ?). done.
  - eapply knows_ret; [exact HL|]. intros σ' HL'.
    eexists w', true, _. split_and!; [|done| | |exact HL'].
    + unfold w', in_uint. simpl. lia.
    + intros b [Hb _]. rewrite (Hag b Hb).
      rewrite !bool_decide_true; [done| |lia]. unfold w' in *. simpl in *. lia.
    + by intros b [_ ?].
Qed.

Lemma set_k_wl_id L : k_wl L = None → set_k_wl None L = L.
Proof using Type. destruct L. simpl. by intros ->. Qed.

(** The mutex is taken and given back. *)
Lemma under_mutex_safe {B} t L (p : hal B) σ :
  k_wl L = None → knows t L σ → (∀ σ', wl_ok t L σ' → safe t p (λ _, wl_ok t L) σ') →
  safe t (under_wakelock_mutex false p) (λ _, knows t L) σ.
Proof.
  intros HL0 HL Hp. unfold under_wakelock_mutex. eapply lock_wl_ok; [exact HL|].
  clear σ HL. intros σ HL. eapply knows_bind; [by apply Hp|]. clear dependent σ. intros b σ HL.
  eapply unlock_wl_ok; [exact HL|]. rewrite (set_k_wl_id L HL0). clear dependent σ.
  intros σ HL. by eapply knows_ret.
Qed.

Lemma increment_safe t L delta σ :
  0 < delta < 2 ^ 63 → k_wl L = None → knows t L σ →
  safe t (incrementRefCount_thread delta) (λ _, knows t L) σ.
Proof.
  intros Hd HL0 HL. unfold incrementRefCount_thread. eapply knows_get; [exact HL|].
  clear σ HL. intros σ HL Hi. destruct (mThreadsRun (fields σ)); cbn [negb]; [|by eapply knows_ret].
  apply (knows_bind t _ _ (λ _, knows t L)); [apply (under_mutex_safe t L); [done|exact HL|]|].
  - intros σ' Hok. by apply increment_locked_safe.
  - clear dependent σ. intros x σ HL. by eapply knows_ret.
Qed.

Lemma decrement_safe t L delta timeoutStart σ :
  0 ≤ delta → k_wl L = None → knows t L σ →
  safe t (decrementRefCount_thread false delta timeoutStart) (λ _, knows t L) σ.
Proof.
  intros Hd HL0 HL. unfold decrementRefCount_thread. eapply knows_get; [exact HL|].
  clear σ HL. intros σ HL Hi. destruct (mThreadsRun (fields σ)); cbn [negb]; [|by eapply knows_ret].
  apply (under_mutex_safe t L); [done|exact HL|]. intros σ' Hok. by apply decrement_locked_safe.
Qed.

(** The same, by a thread that holds the mutex already. *)
Lemma decrement_nested_safe t L delta timeoutStart σ :
  0 ≤ delta → wl_ok t L σ →
  safe t (decrementRefCount_thread true delta timeoutStart) (λ _, wl_ok t L) σ.
Proof.
  intros Hd HL. unfold decrementRefCount_thread. eapply wl_get; [exact HL|].
  clear σ HL. intros s σ _ HL. destruct (mThreadsRun s); cbn [negb]; [|by apply wl_ret].
  by apply decrement_locked_safe.
Qed.

Lemma reset_nested_safe t L σ :
  wl_ok t L σ → safe t (resetSharedWakelock_thread true) (λ _, wl_ok t L) σ.
Proof.
  intros HL. unfold resetSharedWakelock_thread, under_wakelock_mutex. eapply wl_get; [exact HL|].
  clear σ HL. intros s σ Hr HL. eapply knows_bind; [apply decrement_nested_safe; [|exact HL]|].
  { unfold in_uint, refcount in Hr. lia. }
  clear dependent σ. intros [] σ HL. eapply wl_time; [exact HL|]. clear dependent σ.
  intros now σ HL. change (modify_wakelock ?f) with (modify_wakelock f ≫= (mret : unit → hal unit)).
  eapply wl_store; [exact HL|done|]. clear dependent σ. intros σ HL. by apply wl_ret.
Qed.

(** ** The thread *)
Lemma wait_wakelock_safe t L n σ :
  t = waker → wl_ok t L σ → safe t (wait_wakelock n) (λ _, wl_ok t L) σ.
Proof.
  intros Ht. revert σ. induction n as [|n IH]; intros σ HL; cbn [wait_wakelock]; [by apply wl_ret|].
  destruct HL as (w & b & C & Hr & Hn & Hag & Hlt & HL).
  eapply knows_get; [exact HL|]. clear σ HL. intros σ HL Hi.
  assert (wakelock (fields σ) = w) as -> by (by destruct HL as ((_ & ? & _) & _)).
  destruct (_ || _) eqn:Hpred; [by apply wl_ret; exists w, b, C|].
  apply orb_false_iff in Hpred as [H0%bool_decide_eq_false _].
  eapply wait_wl; [exact HL|done|done|done|unfold in_uint in Hr; lia|].
  intros w' σ' Hr' HL'. apply IH. by eapply fresh_ok.
Qed.

Hypothesis connected_wl : is_Some (mWakeLockQueue (queues s0)).

Lemma handleWakelock_safe t L σ :
  t = waker → empty_handed L → wl_ok t L σ → safe t handleWakelock (λ _, wl_ok t L) σ.
Proof.
  intros Ht Hempty HL. unfold handleWakelock, sharedWakelockDidTimeout.
  eapply knows_bind; [eapply wl_time; [exact HL|]; clear dependent σ; intros now σ HL;
    eapply wl_get; [exact HL|]; clear dependent σ; intros s σ _ HL; by apply wl_ret|].
  clear dependent σ. intros timeLeft σ HL. destruct timeLeft as [timeLeft|]; [|by apply reset_nested_safe].
  eapply unlock_wl_ok; [exact HL|]. destruct Hempty as (Hw & He & Hd).
  rewrite (set_k_wl_id L Hw). clear dependent σ. intros σ HL. eapply knows_get; [exact HL|].
  clear dependent σ. intros σ HL Hi. destruct (inv_setup _ _ _ _ Hi) as (_ & _ & ->).
  destruct connected_wl as [q Hq]. rewrite Hq. cbn [deref].
  rewrite ret_bind.
  eapply neutral_safe; [exact HL|by split|..].
  { intros σ' x HL' Hi'. destruct (inv_setup _ _ _ _ Hi') as (_ & _ & Hqs).
    split_and!; [done|by eapply knows_free|by rewrite Hqs]. }
  clear dependent σ. intros success σ HL. eapply lock_wl_ok; [exact HL|].
  clear dependent σ. intros σ HL. destruct success as [m|]; [|by apply wl_ret].
  apply decrement_nested_safe; [|done]. by apply wrapu_range.
Qed.

Lemma handleWakelocks_loop_safe t L n σ :
  t = waker → empty_handed L → wl_ok t L σ → safe t (handleWakelocks_loop n) (λ _, wl_ok t L) σ.
Proof.
  intros Ht Hempty. revert σ. induction n as [|n IH]; intros σ HL; cbn [handleWakelocks_loop];
    [by apply wl_ret|].
  eapply wl_get; [exact HL|]. clear σ HL. intros s σ _ HL.
  destruct (mThreadsRun s); [|by apply wl_ret].
  eapply knows_bind; [by apply wait_wakelock_safe|]. clear dependent σ. intros [[]|] σ HL; [|by apply wl_ret].
  eapply wl_get; [exact HL|]. clear dependent s σ. intros s σ _ HL.
  apply (knows_bind t _ _ (λ _, wl_ok t L)); [|intros [] σ' HL'; by apply IH].
  destruct (mThreadsRun s); [by apply handleWakelock_safe|by apply wl_ret].
Qed.

Lemma handleWakelocks_safe n σ :
  knows waker know_nothing σ → safe waker (handleWakelocks_thread n) (λ _ _, True) σ.
Proof.
  intros HL. unfold handleWakelocks_thread. eapply lock_wl_ok; [exact HL|]. clear dependent σ.
  intros σ HL. eapply knows_bind; [by apply (handleWakelocks_loop_safe waker know_nothing)|]. clear dependent σ.
  intros [[]|] σ HL; [|by eapply safe_mono; [by apply wl_ret|]].
  eapply knows_bind; [by apply reset_nested_safe|]. clear dependent σ. intros [] σ HL.
  eapply unlock_wl_ok; [exact HL|]. intros σ' HL'. by eapply knows_ret.
Qed.
End safe.
