(* ===== verification/HalProxyQueueSafe.v ===== *)
(** The event queue of the sensors HAL proxy keeps to the protocol of the threads
    ([HalProxyProtocol]): posts, and the pending-writes thread. *)
From S2P Require Import Prelude Effects SensorTypes SensorHandle HalProxyState HalProxy HalProxyFacts Wakelock WakelockFacts EventQueue EventQueueFacts HalProxyInit HalProxyCallback HalProxySystem HalProxyThreads HalProxyProtocol HalProxyProtocolFacts HalProxyThreadsFacts HalProxyWakelockSafe Threads ThreadsLogic.
From stdpp Require Import options.
#[local] Set Default Proof Using "Type*".

Section safe.
Context {SubHal : Type} {SubHal_eq : EqDecision SubHal} {SC : SensorConsts} {SL : SensorLaws} (fuel : nat).
Let sy : Sync (halE SubHal) hal_mutex (HalProxy SubHal) (option unit) := hal_sync fuel.
#[local] Existing Instance sy.
Variables (s0 : HalProxy SubHal) (writer waker stopper : nat).
Variable getSensorInfo : Z → SensorInfo.
Variable posts : nat → list HalProxySystem.batch.

#[local] Abbreviation hal A := (prog (halE SubHal) (HalProxy SubHal) A).
#[local] Abbreviation state := (shared (halE SubHal) hal_mutex (HalProxy SubHal)).
#[local] Abbreviation allowed := (hal_allowed s0 writer waker stopper getSensorInfo posts).
#[local] Abbreviation inv := (hal_inv s0 writer waker).
#[local] Abbreviation ghost σ := (ghost_of s0 (trace σ)).
#[local] Abbreviation safe := (safe allowed inv any_answer).
#[local] Abbreviation knows := (knows s0 writer).
#[local] Abbreviation owed := (owed getSensorInfo).
Implicit Types (t u : nat) (σ : state) (s : HalProxy SubHal) (L : know).

(** The thread holds [mEventQueueWriteMutex], and could give it back, having
    accepted a whole piece. *)
Definition piece_ok t L (whole : Pending → list Event → Prop) σ : Prop := ∃ p n l,
  tidy p ∧ (mPendingWriteEventsQueue p ≠ [] → n = true) ∧ whole p l ∧
  knows t (set_k_eq (Some (p, n, l)) L) σ.
#[local] Abbreviation posted_ok t L := (piece_ok t L (whole_piece writer getSensorInfo posts t)).
(** The same, having accepted nothing. *)
#[local] Abbreviation eq_ok t L := (piece_ok t L (λ _ l, l = [])).

Lemma eq_ok_intro t L p n σ :
  tidy p → (mPendingWriteEventsQueue p ≠ [] → n = true) →
  knows t (set_k_eq (Some (p, n, [])) L) σ → eq_ok t L σ.
Proof using Type. intros. by exists p, n, []. Qed.

Lemma eq_fresh_ok t L p σ : tidy p → knows t (set_k_eq (eq_fresh p) L) σ → eq_ok t L σ.
Proof using Type.
  intros Hp HL. eapply eq_ok_intro; [exact Hp| |exact HL]. intros Hne. by apply bool_decide_eq_true.
Qed.

Lemma set_k_eq_id L : k_eq L = None → set_k_front (k_front L) (set_k_eq None L) = L.
Proof using Type. destruct L. simpl. by intros ->. Qed.

Lemma unlock_eq_ok {B} t L (k : unit → hal B) Q σ :
  k_eq L = None → posted_ok t L σ → (∀ σ', knows t L σ' → safe t (k tt) Q σ') →
  safe t (call UnlockEventQueueWrite ≫= k) Q σ.
Proof.
  intros HL0 (p & n & l & Hp & Hn & Hl & HL) Hk.
  eapply unlock_eq; [exact HL|done|done| |exact Hl|by left|].
  - destruct (decide (mPendingWriteEventsQueue p = [])); auto.
  - intros σ' HL'. apply Hk. rewrite <- (set_k_eq_id L HL0). by destruct L.
Qed.

(** * Posting *)
Hypothesis connected_eq : is_Some (mEventQueue (queues s0)).
Hypothesis connected_flag : is_Some (mEventQueueFlag (queues s0)).

Lemma holds_eq t L p n l σ : k_eq L = Some (p, n, l) → knows t L σ →
  held σ mEventQueueWriteMutex = Some t ∧ pending (fields σ) = p.
Proof using Type. intros HkL (_ & Ke & _). rewrite HkL in Ke. by destruct Ke as (? & ? & _). Qed.

Lemma write_now_safe t L p n b σ :
  b ∈ posts t → knows t (set_k_eq (Some (p, n, [])) L) σ →
  safe t (write_now (owed b)) (λ k σ', 0 ≤ k ≤ zlen (owed b) ∧
    knows t (set_k_eq (Some (p, n, ztake k (owed b))) L) σ') σ.
Proof.
  intros Hb HL. unfold write_now. pose proof (zlen_nonneg (owed b)) as Hlen.
  assert (∀ l σ, knows t (set_k_eq (Some (p, n, l)) L) σ →
    held σ mEventQueueWriteMutex = Some t ∧ pending (fields σ) = p) as Hhold
    by (intros l σ' HL'; by eapply (holds_eq t (set_k_eq (Some (p, n, l)) L))).
  eapply knows_get; [exact HL|]. clear σ HL. intros σ HL Hi.
  destruct (Hhold _ _ HL) as [_ ->].
  case_bool_decide as Hempty; [|by eapply knows_ret].
  destruct (inv_setup _ _ _ _ Hi) as (_ & _ & ->). clear Hi.
  destruct connected_eq as [q Hq], connected_flag as [f Hf]. rewrite Hq, Hf. cbn [deref].
  rewrite ret_bind. eapply neutral_safe; [exact HL|by split|..].
  { intros σ' x HL' Hi'. destruct (inv_setup _ _ _ _ Hi') as (_ & _ & Hqs).
    destruct (Hhold _ _ HL') as [Hh _]. split; [done|by rewrite Hqs]. }
  clear dependent σ. intros available σ HL.
  pose proof (wrapu_range 64 available ltac:(done)) as [Ha _].
  case_bool_decide as Hpos.
  2: { eapply knows_ret; [exact HL|]. intros. split; [lia|].
       by replace (ztake _ (owed b)) with ([] : list Event) by (unfold ztake; rewrite Z2Nat.nonpos by lia; done). }
  eapply eq_write; [exact HL|done|done|done| | |].
  - apply zlen_nonempty. rewrite zlen_ztake; lia.
  - exists b. split; [done|]. exists (zdrop (Z.min (zlen (owed b)) (to_size available)) (owed b)).
    symmetry. apply ztake_zdrop.
  - clear dependent σ. intros [] σ HL; cbn [app] in HL;
      [|eapply knows_ret; [exact HL|]; intros; split; [lia|done]].
    rewrite ret_bind. eapply neutral_safe; [exact HL|by split|..].
    { intros σ' x HL' Hi'. destruct (inv_setup _ _ _ _ Hi') as (_ & _ & Hqs).
      destruct (Hhold _ _ HL') as [Hh _]. left. by rewrite Hqs. }
    clear dependent σ. intros x σ HL. eapply knows_ret; [exact HL|]. intros; split; [lia|done].
Qed.

(** What the queue is after a push. *)
Lemma tidy_push p es n :
  tidy p → es ≠ [] → mSizePendingWriteEventsQueue p + zlen es ≤ kMaxSizePendingWriteEventsQueue →
  tidy (MkPending (mPendingWriteEventsQueue p ++ [(es, n)]) (mSizePendingWriteEventsQueue p + zlen es)
    (Z.max (mMostEventsObservedPendingWriteEventsQueue p) (mSizePendingWriteEventsQueue p + zlen es))).
Proof using Type.
  intros [Hs Hb Hf] Hne Hle. split; simpl.
  - rewrite Hs, fmap_app, concat_app, zlen_app. simpl. by rewrite app_nil_r.
  - lia.
  - apply Forall_app. split; [done|]. by repeat constructor.
Qed.

(** What does not fit: nothing is left, or there is no room for it. *)
Lemma taken_whole p b k :
  0 ≤ k ≤ zlen (owed b) →
  bool_decide (k < zlen (owed b)) && bool_decide (mSizePendingWriteEventsQueue p +
    (zlen (owed b) - k) ≤ kMaxSizePendingWriteEventsQueue) = false →
  ztake k (owed b) `prefix_of` owed b ∧ (ztake k (owed b) = owed b ∨
    kMaxSizePendingWriteEventsQueue < mSizePendingWriteEventsQueue p +
      zlen (drop (length (ztake k (owed b))) (owed b))).
Proof using Type.
  intros Hk Hfit. split; [exists (zdrop k (owed b)); symmetry; apply ztake_zdrop|].
  apply andb_false_iff in Hfit as [Hf%bool_decide_eq_false|Hf%bool_decide_eq_false].
  - left. unfold ztake, zlen in *. apply take_ge. lia.
  - right. replace (zlen (drop _ _)) with (zlen (owed b) - k); [lia|].
    unfold ztake, zlen in *. rewrite length_drop, length_take. lia.
Qed.

Lemma push_pending_safe t L b m k σ :
  b ∈ posts t → zlen (owed b) < 2 ^ 63 → 0 ≤ k ≤ zlen (owed b) →
  piece_ok t L (λ _ l, l = ztake k (owed b)) σ →
  safe t (push_pending (owed b) m k) (λ _, posted_ok t L) σ.
Proof.
  intros Hb Hlen Hk (p & n & ? & Hp & Hn & -> & HL). unfold push_pending.
  eapply knows_get; [exact HL|]. clear σ HL. intros σ HL Hi.
  destruct (holds_eq t (set_k_eq (Some (p, n, ztake k (owed b))) L) p n _ _ eq_refl HL) as [_ ->]. clear Hi.
  pose proof max_pending_range as Hmax. pose proof Hp as [Hs Hbounds _].
  pose proof (zlen_nonneg (concat (mPendingWriteEventsQueue p).*1)) as Hq0.
  assert (to_size (mSizePendingWriteEventsQueue p + (zlen (owed b) - k)) =
    mSizePendingWriteEventsQueue p + (zlen (owed b) - k)) as Hadd.
  { apply wrapu_id. unfold in_uint. lia. }
  rewrite Hadd. destruct (_ && _) eqn:Hfits.
  2: { eapply knows_ret; [exact HL|]. intros. exists p, n, (ztake k (owed b)).
       split_and!; [done|done| |done]. right. exists b. split; [done|]. by apply taken_whole. }
  apply andb_true_iff in Hfits as [Hlt%bool_decide_eq_true Hfit%bool_decide_eq_true].
  pose proof (zlen_zdrop k (owed b) Hk) as Hdrop.
  set (es := zdrop k (owed b)) in *.
  assert (es ≠ []) as Hne by (apply zlen_nonempty; lia).
  eapply modify_eq; [exact HL|done| |].
  { eapply changes_push; [done|done|exact Hb|]. exists (ztake k (owed b)). symmetry. apply ztake_zdrop. }
  clear dependent σ. intros σ HL.
  eapply modify_eq; [exact HL|done|by apply changes_nothing|]. clear σ HL. intros σ HL.
  eapply modify_eq; [exact HL|done|by apply changes_nothing|]. clear σ HL. intros σ HL.
  change (call NotifyEventQueueWriteCV) with
    (call NotifyEventQueueWriteCV ≫= (mret : unit → hal unit)).
  eapply notify_eq; [exact HL|done|]. clear σ HL. intros σ HL. eapply knows_ret; [exact HL|].
  intros σ' HL'. unfold es in HL'. rewrite ztake_zdrop in HL'.
  eexists _, true, (owed b). split_and!; [|done|right; exists b; by split_and!; [| |left]|exact HL'].
  rewrite <- Hdrop in Hadd, Hfit.
  pose proof (tidy_push p es m Hp Hne Hfit) as Ht. destruct p as [q sz most]. simpl in *.
  rewrite <- Hdrop, Hadd. exact Ht.
Qed.

Lemma postEventsToMessageQueue_safe t L b m locked σ :
  k_wl L = None → k_eq L = None → b ∈ posts t → zlen (owed b) < 2 ^ 63 →
  (locked = true → 0 < m < 2 ^ 63) → knows t L σ →
  safe t (postEventsToMessageQueue_thread (owed b) m locked) (λ _, knows t L) σ.
Proof.
  intros Hw0 He0 Hb Hlen Hm HL. unfold postEventsToMessageQueue_thread.
  eapply lock_eq; [exact HL|]. clear σ HL. intros p σ Hp _ _ HL.
  apply (knows_bind fuel s0 writer waker stopper getSensorInfo posts t _ _
    (λ _, knows t (set_k_eq (eq_fresh p) L))).
  { destruct locked; [|by eapply knows_ret].
    apply (knows_bind fuel s0 writer waker stopper getSensorInfo posts t _ _
      (λ _, knows t (set_k_eq (eq_fresh p) L))); [by apply increment_safe; [apply Hm| |]|].
    intros x σ' HL'. by eapply knows_ret. }
  clear σ HL. intros [] σ HL.
  eapply knows_bind; [eapply (write_now_safe t L p); [exact Hb|exact HL]|].
  clear σ HL. intros k σ [Hk HL].
  eapply knows_bind; [apply (push_pending_safe t L); [exact Hb|done|done|]|].
  { eexists p, _, _. split_and!; [done| |done|exact HL]. intros Hne. by apply bool_decide_eq_true. }
  clear σ HL. intros [] σ HL.
  change (call UnlockEventQueueWrite) with (call UnlockEventQueueWrite ≫= (mret : unit → hal unit)).
  eapply unlock_eq_ok; [done|exact HL|]. intros σ' HL'. by eapply knows_ret.
Qed.
(** * The thread *)
#[local] Abbreviation bind := (knows_bind fuel s0 writer waker stopper getSensorInfo posts).

(** The front of the queue, seen by who holds the mutex or has remembered it. *)
Definition front_is L (x : list Event * Z) : Prop :=
  k_front L = Some x ∨
  ∃ p n l rest, k_eq L = Some (p, n, l) ∧ mPendingWriteEventsQueue p = x :: rest.

Lemma front_safe {B} t L x (k : list Event * Z → hal B) Q σ :
  knows t L σ → front_is L x → (∀ σ', knows t L σ' → safe t (k x) Q σ') →
  safe t (front ≫= k) Q σ.
Proof.
  intros HL Hx Hk. unfold front.
  apply (bind t _ _ (λ y σ', y = x ∧ knows t L σ')); [|intros ? σ' [-> HL']; by apply Hk].
  eapply knows_get; [exact HL|]. clear σ HL. intros σ HL Hi.
  assert (∃ rest, queue_of (fields σ) = x :: rest) as [rest Hq].
  { destruct Hx as [Hx|(p & n & l & rest & He & Hr)].
    - destruct HL as (_ & _ & _ & Kf & _). rewrite Hx in Kf. by destruct Kf.
    - destruct (holds_eq _ _ _ _ _ _ He HL) as [_ <-]. by exists rest. }
  unfold queue_of in Hq. rewrite Hq. by eapply knows_ret.
Qed.

(** Counting may add a default entry for a handle that is not known. *)
Lemma wakes_up_safe L h σ :
  knows writer L σ → safe writer (wakes_up h) (λ _, knows writer L) σ.
Proof.
  intros HL. unfold wakes_up. eapply knows_get; [exact HL|]. clear σ HL. intros σ HL Hi.
  destruct (mSensors (fields σ) !! h) as [sensor|] eqn:Hh; [by eapply knows_ret|].
  eapply insert_sensor; [exact HL|done|done|]. intros σ' HL'. by eapply knows_ret.
Qed.

Lemma count_loop_safe L events idx n σ :
  Forall (λ i, (i < length events)%nat) idx → knows writer L σ →
  safe writer (count_loop events idx n) (λ m σ', n ≤ m ∧ knows writer L σ') σ.
Proof.
  intros Hidx. revert n σ. induction Hidx as [|i idx Hi Hidx IH]; intros n σ HL; cbn [count_loop].
  { eapply knows_ret; [exact HL|]. by intros σ' HL'. }
  apply lookup_lt_is_Some in Hi as [e ->]. cbn [deref]. rewrite ret_bind.
  apply (bind writer _ _ (λ _, knows writer L)); [by apply wakes_up_safe|].
  clear σ HL. intros wake σ HL. eapply safe_mono; [by apply IH|].
  intros m σ' [Hm HL']. split; [|done]. destruct wake; lia.
Qed.

Lemma drop_wakeups_safe L b m size σ :
  k_wl L = None → k_front L = Some (b, m) → 0 ≤ size → knows writer L σ →
  safe writer (drop_wakeups m size) (λ _, knows writer L) σ.
Proof.
  intros Hw Hf Hsize HL. unfold drop_wakeups. case_bool_decide as Hm; [|by eapply knows_ret].
  eapply front_safe; [exact HL|by left|]. clear σ HL. intros σ HL. cbn beta iota.
  case_bool_decide as Hlong; [|by apply decrement_safe; [lia| |]].
  apply (bind writer _ _ (λ n σ', 0 ≤ n ∧ knows writer L σ')).
  - apply count_loop_safe; [|done]. apply Forall_seq. unfold zlen in Hlong. lia.
  - clear σ HL. intros n σ [Hn HL]. by apply decrement_safe.
Qed.

(** What the queue is after the front has been written. *)
Lemma tidy_pop b m rest sz most size n :
  tidy (MkPending ((b, m) :: rest) sz most) → 0 ≤ size → n = Z.min (zlen b) size →
  tidy (MkPending (if bool_decide (size < zlen b) then (zdrop size b, m) :: rest else rest)
    (sz - n) most).
Proof using Type.
  intros [Hs Hb Hf] Hsize ->. apply Forall_cons in Hf as [Hne Hf].
  assert (sz = zlen b + zlen (concat rest.*1)) as Hsum by (rewrite <- zlen_app; exact Hs).
  simpl in Hb. pose proof (zlen_nonneg (concat rest.*1)) as H0. pose proof (zlen_nonneg b) as H1.
  case_bool_decide as Hlong; (split; simpl; [|lia|]); try done.
  - change (sz - Z.min (zlen b) size = zlen (zdrop size b ++ concat rest.*1)).
    rewrite zlen_app, zlen_zdrop; lia.
  - constructor; [|done]. simpl. apply zlen_nonempty. rewrite zlen_zdrop; lia.
  - lia.
Qed.

#[local] Abbreviation writing o := (Know None None false o (Some [])).

Lemma pop_written_safe b m size n o σ :
  0 ≤ size → n = Z.min (zlen b) size →
  (∃ p, tidy p ∧ (∃ rest, mPendingWriteEventsQueue p = (b, m) :: rest) ∧
    knows writer (Know None (eq_fresh p) false o (Some (ztake n b))) σ) →
  safe writer (pop_written size n) (λ _, eq_ok writer (writing None)) σ.
Proof.
  intros Hsize Hn (p & Hp & (rest & Hq) & HL). unfold pop_written.
  pose proof max_pending_range as Hmax. pose proof Hp as [Hs Hb Hf].
  destruct p as [q sz most]. simpl in Hq. subst q.
  assert (sz = zlen b + zlen (concat rest.*1)) as Hsum by (rewrite <- zlen_app; exact Hs).
  apply Forall_cons in Hf as [Hne _]. simpl in Hne, Hb. pose proof (zlen_pos _ Hne) as Hpos.
  pose proof (zlen_nonneg (concat rest.*1)) as H0.
  assert (to_size (sz - n) = sz - n) as Hsub by (apply wrapu_id; unfold in_uint; lia).
  eapply modify_eq; [exact HL|done|by apply changes_nothing|]. clear σ HL. intros σ HL.
  eapply front_safe; [exact HL|right; by eexists _, _, _, _|]. clear σ HL. intros σ HL. cbn beta iota.
  change (modify_pending ?f) with (modify_pending f ≫= (mret : unit → hal unit)).
  eapply modify_eq; [exact HL|done| |].
  { clear HL. eapply (changes_pop _ _ _ _ _ _ _ _ (ztake n b) b m rest); [done|done|done|done|]. simpl.
    case_bool_decide as Hlong; [right|left].
    - exists (zdrop size b). rewrite Hn, Z.min_r by lia. split_and!; [done| |by rewrite ztake_zdrop].
      apply zlen_nonempty. rewrite zlen_zdrop; lia.
    - rewrite Hn, Z.min_l by lia. split; [done|]. unfold ztake, zlen. rewrite take_ge; [done|lia]. }
  clear σ HL. intros σ HL. eapply knows_ret; [exact HL|]. intros σ' HL'.
  eapply eq_ok_intro; [| |exact HL']; simpl; [|done].
  rewrite Hsub. pose proof (tidy_pop b m rest sz most size n Hp Hsize Hn) as Ht.
  by case_bool_decide.
Qed.

Lemma handlePendingWrite_safe p n x rest σ :
  tidy p → n = true → mPendingWriteEventsQueue p = x :: rest →
  knows writer (Know None (Some (p, n, [])) false None (Some [])) σ →
  safe writer handlePendingWrite (λ _, eq_ok writer (writing None)) σ.
Proof.
  intros Hp Hn Hq HL. destruct x as [b m]. unfold handlePendingWrite.
  eapply front_safe; [exact HL|right; by eexists _, _, _, _|]. clear σ HL. intros σ HL. cbn beta iota.
  eapply knows_get; [exact HL|]. clear σ HL. intros σ HL Hi.
  destruct (inv_setup _ _ _ _ Hi) as (_ & _ & ->). clear Hi.
  destruct connected_eq as [q Heq]. rewrite Heq. cbn [deref]. rewrite ret_bind.
  eapply neutral_safe; [exact HL|by split|..].
  { intros σ' x HL' Hi'. destruct (inv_setup _ _ _ _ Hi') as (_ & _ & Hqs).
    split; [done|by rewrite Hqs]. }
  clear σ HL. intros quantum σ HL. cbv zeta.
  pose proof (wrapu_range 64 quantum ltac:(done)) as [Hsize _]. fold (to_size quantum) in Hsize.
  set (size := to_size quantum) in *. set (k := Z.min (zlen b) size). clearbody size.
  eapply unlock_eq; [exact HL|done|done|by right|by left|right; by exists (b, m), rest|].
  clear σ HL. intros σ HL. eapply front_safe; [exact HL|by left|]. clear σ HL. intros σ HL.
  cbn beta iota. eapply knows_get; [exact HL|]. clear σ HL. intros σ HL Hi.
  destruct (inv_setup _ _ _ _ Hi) as (_ & _ & ->). clear Hi. rewrite Heq. cbn [deref].
  rewrite ret_bind.
  eapply eq_write_blocking; [exact HL|done|done|done|done|done| |].
  { exists (zdrop k b). symmetry. apply ztake_zdrop. }
  clear σ HL. intros ok σ HL.
  apply (bind writer _ _ (λ _, knows writer (Know None None false (Some (b, m)) (Some (ztake k b))))).
  { destruct ok; [by eapply knows_ret|]. by apply (drop_wakeups_safe _ b). }
  clear σ HL. intros [] σ HL. eapply lock_eq; [exact HL|]. clear p Hp n Hn Hq σ HL rest.
  intros p σ Hp Hfr _ HL. eapply pop_written_safe; [done|done|].
  exists p. split_and!; [done|by apply Hfr|exact HL].
Qed.

(** After the wait: there is a batch, or the threads have been stopped. *)
Definition waited p (b : bool) σ : Prop :=
  knows writer (set_k_eq (Some (p, b, [])) (writing None)) σ ∧
  (mPendingWriteEventsQueue p ≠ [] ∨ stopped σ).

Lemma waited_stable p b : stable allowed inv writer (waited p b).
Proof.
  apply stable_and; [apply (knows_stable fuel)|]. apply stable_or; [apply stable_const|].
  apply stopped_stable.
Qed.

Lemma eq_ok_ret {B} (b : B) σ :
  eq_ok writer (writing None) σ → safe writer (mret b) (λ _, eq_ok writer (writing None)) σ.
Proof.
  intros (p & n & ? & Hp & Hn & -> & HL). eapply knows_ret; [exact HL|]. intros σ' HL'.
  by eapply eq_ok_intro.
Qed.

Lemma wait_pending_safe n σ :
  eq_ok writer (writing None) σ →
  safe writer (wait_pending n) (λ r σ', eq_ok writer (writing None) σ' ∧
    (r = Some () → ∃ p b, tidy p ∧ (mPendingWriteEventsQueue p ≠ [] → b = true) ∧ waited p b σ')) σ.
Proof.
  revert σ. induction n as [|n IH]; intros σ (p & b & ? & Hp & Hb & -> & HL); cbn [wait_pending].
  { eapply knows_ret; [exact HL|]. intros σ' HL'. split; [by eapply eq_ok_intro|done]. }
  eapply knows_get; [exact HL|]. clear σ HL. intros σ HL Hi.
  destruct (holds_eq writer (set_k_eq (Some (p, b, [])) (writing None)) p b _ _ eq_refl HL) as [_ ->].
  clear Hi. destruct (_ || _) eqn:Hpred.
  - assert (waited p b σ) as Hwaited.
    { split; [done|]. apply orb_true_iff in Hpred as [Hne|Hs]; [left|right].
      - by apply negb_true_iff, bool_decide_eq_false in Hne.
      - by apply negb_true_iff in Hs. }
    eapply safe_ret; [apply waited_stable|exact Hwaited|]. intros σ' Hw _.
    split; [|intros _; by exists p, b]. destruct Hw as [HL' _]. by eapply eq_ok_intro.
  - apply orb_false_iff in Hpred as [H0%negb_false_iff%bool_decide_eq_true _].
    eapply wait_eq; [exact HL|done|done|done|done|].
    intros p' σ' Hp' _ HL'. apply IH. by eapply eq_fresh_ok.
Qed.

(** One turn: the flag is looked at, and a batch is written. *)
Lemma turn_safe p b σ :
  tidy p → (mPendingWriteEventsQueue p ≠ [] → b = true) → waited p b σ →
  safe writer (s ← get; if mThreadsRun s then handlePendingWrite else mret ())
    (λ _, eq_ok writer (writing None)) σ.
Proof.
  intros Hp Hb Hw. eapply safe_get; [apply waited_stable|exact Hw|]. clear σ Hw.
  intros σ [HL Hw] _. destruct (mThreadsRun (fields σ)) eqn:Hrun.
  - destruct Hw as [Hne|Hs]; [|by unfold stopped in Hs; congruence].
    destruct (mPendingWriteEventsQueue p) as [|x rest] eqn:Hq; [done|].
    apply (handlePendingWrite_safe p b x rest); [done|by apply Hb|done|exact HL].
  - eapply knows_ret; [exact HL|]. intros σ' HL'. by eapply eq_ok_intro.
Qed.

Lemma handlePendingWrites_loop_safe n σ :
  eq_ok writer (writing None) σ →
  safe writer (handlePendingWrites_loop n) (λ _, eq_ok writer (writing None)) σ.
Proof.
  revert σ. induction n as [|n IH]; intros σ HL; cbn [handlePendingWrites_loop];
    [by apply eq_ok_ret|].
  destruct HL as (p & b & ? & Hp & Hb & -> & HL). eapply knows_get; [exact HL|]. clear σ HL.
  intros σ HL Hi. assert (eq_ok writer (writing None) σ) as Hok by by eapply eq_ok_intro.
  clear Hi. destruct (mThreadsRun (fields σ)); [|by apply eq_ok_ret]. clear p b Hp Hb HL.
  eapply bind; [by apply wait_pending_safe|]. clear σ Hok. intros [[]|] σ [Hok Hw]; [|by apply eq_ok_ret].
  destruct (Hw eq_refl) as (p & b & Hp & Hb & Hwaited).
  change (safe writer ((s ← get; if mThreadsRun s then handlePendingWrite else mret ()) ≫=
    λ _, handlePendingWrites_loop n) (λ _, eq_ok writer (writing None)) σ).
  eapply bind; [by eapply turn_safe|]. intros [] σ' HL'. by apply IH.
Qed.

Lemma handlePendingWrites_safe n σ :
  knows writer (writing None) σ → safe writer (handlePendingWrites_thread n) (λ _ _, True) σ.
Proof.
  intros HL. unfold handlePendingWrites_thread. eapply lock_eq; [exact HL|]. clear σ HL.
  intros p σ Hp _ _ HL.
  eapply bind; [apply handlePendingWrites_loop_safe; by eapply eq_fresh_ok|].
  clear p Hp σ HL. intros [[]|] σ HL; [|by eapply safe_mono; [by apply eq_ok_ret|]].
  eapply (unlock_eq_ok writer (writing None)); [done| |].
  { destruct HL as (p & b & l & Hp & Hb & -> & HL). exists p, b, []. split_and!; [done|done|by left|done]. }
  intros σ' HL'. by eapply knows_ret.
Qed.
End safe.
