(* ===== verification/HalProxyThreadsSafe.v ===== *)
(** The threads of the sensors HAL proxy keep to their protocol, so that every
    interleaving of them does: no wake-up is lost by the threads while they run,
    the kernel's wake lock is held exactly while it is counted, and the events
    reach the framework's queue in the order in which they were accepted. *)
From S2P Require Import Prelude Effects SensorTypes SensorHandle HalProxyState HalProxy HalProxyFacts Wakelock WakelockFacts EventQueue EventQueueFacts HalProxyInit HalProxyCallback HalProxySystem HalProxyThreads HalProxyProtocol HalProxyProtocolFacts HalProxyThreadsFacts HalProxyWakelockSafe HalProxyQueueSafe Threads ThreadsLogic.
From stdpp Require Import options.
#[local] Set Default Proof Using "Type*".

Section safe.
Context {SubHal : Type} {SubHal_eq : EqDecision SubHal} {SC : SensorConsts} {SL : SensorLaws} (fuel : nat).
Context {MO : MapOrder Z SensorInfo}.
Let sy : Sync (halE SubHal) hal_mutex (HalProxy SubHal) (option unit) := hal_sync fuel.
#[local] Existing Instance sy.
Variables (s0 : HalProxy SubHal) (writer waker stopper : nat).
Variable getSensorInfo : Z → SensorInfo.
Variable asserts : bool.
Variables convertToNewEvent convertToOldEvent : Event → Event.
Variable posts : nat → list HalProxySystem.batch.

#[local] Abbreviation hal A := (prog (halE SubHal) (HalProxy SubHal) A).
#[local] Abbreviation state := (shared (halE SubHal) hal_mutex (HalProxy SubHal)).
#[local] Abbreviation allowed := (hal_allowed s0 writer waker stopper getSensorInfo posts).
#[local] Abbreviation inv := (hal_inv s0 writer waker).
#[local] Abbreviation ghost σ := (ghost_of s0 (trace σ)).
#[local] Abbreviation safe := (safe allowed inv any_answer).
#[local] Abbreviation knows := (knows s0 writer).
#[local] Abbreviation owed := (owed getSensorInfo).
#[local] Abbreviation wakeups b := (filter (wakes getSensorInfo) (owed b)).
Implicit Types (t u : nat) (σ : state) (s : HalProxy SubHal) (L : know).

(** * Programs that leave a thread's knowledge as it is *)
Definition keeps_to t L {B} (p : hal B) : Prop :=
  ∀ σ, knows t L σ → safe t p (λ _, knows t L) σ.

(** What [initializeCommon] has set. *)
Definition set_up s : Prop :=
  mSubHalList s = mSubHalList s0 ∧ mDynamicSensorsCallback s = mDynamicSensorsCallback s0 ∧
  queues s = queues s0.

Lemma keeps_ret t L {B} (b : B) : keeps_to t L (mret b : hal B).
Proof. intros σ HL. by eapply knows_ret. Qed.

Lemma keeps_bind t L {A B} (p : hal A) (k : A → hal B) :
  keeps_to t L p → (∀ a, keeps_to t L (k a)) → keeps_to t L (p ≫= k).
Proof using Type.
  intros Hp Hk σ HL. apply safe_bind. eapply safe_mono; [by apply Hp|]. intros a σ' HL'. by apply Hk.
Qed.

Lemma keeps_get t L {B} (k : HalProxy SubHal → hal B) :
  (∀ s, set_up s → keeps_to t L (k s)) → keeps_to t L (get ≫= k).
Proof.
  intros Hk σ HL. eapply knows_get; [exact HL|]. clear σ HL. intros σ HL Hi.
  apply Hk; [apply (inv_setup _ _ _ _ Hi)|done].
Qed.

Lemma keeps_call t L {X} (c : halE SubHal X) :
  neutral fuel c → (∀ σ x, knows t L σ → inv σ → allowed σ t (Asked (Entry c x))) →
  keeps_to t L (call c).
Proof.
  intros Hn Ha σ HL. change (call c) with (call c ≫= (mret : X → hal X)).
  eapply neutral_safe; [exact HL|done|by intros; apply Ha|].
  intros x σ' HL'. by eapply knows_ret.
Qed.

Lemma keeps_foreach t L {B} (f : B → hal unit) l :
  (∀ x, keeps_to t L (f x)) → keeps_to t L (foreach f l).
Proof.
  intros Hf. induction l as [|x l IH]; cbn [foreach]; [apply keeps_ret|].
  apply keeps_bind; [apply Hf|]. by intros [].
Qed.

Lemma keeps_ignore t L {B} (p : hal B) : keeps_to t L p → keeps_to t L (ignore p).
Proof. intros Hp. apply keeps_bind; [done|]. intros x. apply keeps_ret. Qed.

Lemma keeps_write t L f :
  (∀ s, pending (f s) = pending s ∧ wakelock (f s) = wakelock s) →
  (∀ σ, knows t L σ → inv σ →
    may_write s0 writer stopper getSensorInfo posts σ t (fields σ) (f (fields σ))) →
  keeps_to t L (modify f).
Proof.
  intros Hf Ha σ HL. change (modify f) with (modify f ≫= (mret : unit → hal unit)).
  eapply modify_other; [exact HL|done|done|]. intros σ' HL'. by eapply knows_ret.
Qed.

#[local] Abbreviation idle t := (keeps_to t know_nothing).

(** A call that is made with empty hands. *)
Lemma idle_call t {X} (c : halE SubHal X) :
  neutral fuel c → (∀ σ x, free_handed σ t → inv σ → allowed σ t (Asked (Entry c x))) →
  idle t (call c).
Proof.
  intros Hn Ha. apply keeps_call; [done|]. intros σ x HL. apply Ha.
  by apply (knows_free s0 writer t know_nothing).
Qed.

#[local] Ltac idle_step :=
  lazymatch goal with
  | |- keeps_to _ _ (mbind _ get) => apply keeps_get; intros ? ?
  | |- keeps_to _ _ (mbind _ _) => apply keeps_bind; [|intros ?]
  | |- keeps_to _ _ (call _) => apply idle_call; [done|by intros ??]
  | |- keeps_to _ _ (mret _) => apply keeps_ret
  | |- keeps_to _ _ (foreach _ _) => apply keeps_foreach; intros ?
  | |- keeps_to _ _ (ignore _) => apply keeps_ignore
  | |- keeps_to _ _ (if ?b then _ else _) => destruct b eqn:?
  | |- keeps_to _ _ (match ?x with _ => _ end) => destruct x eqn:?
  end; cbn beta iota.
#[local] Ltac idle_run := repeat idle_step.

(** * The framework's calls *)
Lemma subHal_valid h s : isSubHalIndexValid h s = true →
  is_Some (mSubHalList s !! Z.to_nat (extractSubHalIndex h)).
Proof using Type.
  intros Hv%bool_decide_eq_true. apply lookup_lt_is_Some_2.
  pose proof (wrapu_range 64 (Z.shiftr h 24) ltac:(done)) as [Hk _].
  unfold extractSubHalIndex, kBitsAfterSubHalIndex in *. lia.
Qed.

Lemma getSubHal_idle t h s :
  set_up s → isSubHalIndexValid h s = true → idle t (getSubHalForSensorHandle h).
Proof.
  intros [Hl _] Hv. unfold getSubHalForSensorHandle. apply keeps_get. intros s' [Hl' _].
  destruct (subHal_valid h s Hv) as [sh Hsh]. rewrite Hl', <- Hl, Hsh. apply keeps_ret.
Qed.

(** A call that is routed to a sub-HAL. *)
Lemma routed_idle t h {X} (c : SubHal → halE SubHal X) (b : X) :
  (∀ sh, neutral fuel (c sh)) →
  (∀ sh σ x, free_handed σ t → allowed σ t (Asked (Entry (c sh) x))) →
  idle t (s ← get;
    if negb (isSubHalIndexValid h s) then mret b
    else sh ← getSubHalForSensorHandle h; call (c sh)).
Proof.
  intros Hn Ha. apply keeps_get. intros s Hs.
  destruct (isSubHalIndexValid h s) eqn:Hv; cbn [negb]; [|apply keeps_ret].
  apply keeps_bind; [by eapply getSubHal_idle|]. intros sh.
  apply idle_call; [done|by intros; apply Ha].
Qed.

Lemma activate_idle t h enabled : idle t (activate h enabled).
Proof.
  by apply (routed_idle t h (λ sh, Sub_activate sh (clearSubHalIndex h) enabled)).
Qed.

Lemma injectSensorData_idle t event :
  idle t (injectSensorData_2_1 convertToOldEvent convertToNewEvent event).
Proof.
  unfold injectSensorData_2_1, injectSensorData. apply keeps_get. intros s Hs.
  case_bool_decide; [|apply keeps_ret].
  destruct (isSubHalIndexValid _ s) eqn:Hv; cbn [negb]; [|apply keeps_ret].
  apply keeps_bind; [by eapply getSubHal_idle|]. intros sh. by apply idle_call.
Qed.

Lemma setOperationMode_idle t mode : idle t (setOperationMode mode).
Proof.
  assert (∀ l i, idle t (setOperationMode_loop mode l i)) as Hloop.
  { intros l. induction l as [|sh l IH]; intros i; cbn [setOperationMode_loop]; idle_run; apply IH. }
  unfold setOperationMode. apply keeps_get. intros s Hs. apply keeps_bind; [apply Hloop|].
  intros [result i]. idle_run. apply keeps_write; [done|]. intros σ HL Hi.
  split; try done; by left.
Qed.

(** A dump with nowhere to go. *)
Definition no_dump (fds : option (list Z)) : Prop := fds = None ∨ fds = Some [].

Lemma debug_idle t fds : no_dump fds → idle t (debug fds).
Proof. intros [->| ->]; apply keeps_ret. Qed.

(** * Dynamic sensors *)
Hypothesis connected_cb : is_Some (mDynamicSensorsCallback s0).

(** What is done under [mDynamicSensorsMutex]. *)
#[local] Abbreviation dynamic_locked := (Know None None true None None).

Lemma lock_ds_safe {B} t (k : unit → hal B) Q σ :
  knows t know_nothing σ → (∀ σ', knows t dynamic_locked σ' → safe t (k tt) Q σ') →
  safe t (call LockDynamicSensors ≫= k) Q σ.
Proof.
  intros HL Hk. apply (knows_call fuel s0 writer waker stopper getSensorInfo posts t know_nothing
    _ _ (λ _, knows t dynamic_locked)); [done|exact HL| |by intros []].
  intros σ' [] σ'' (Kw & Ke & Kd & Kf & Ki) Hi He. split; [done|].
  pose proof (emit_held _ _ _ _ He) as [Hfree Hh]%take_lock_spec.
  pose proof (emit_ghost fuel s0 _ _ _ _ He) as Hg. pose proof (emit_fields _ _ _ _ He) as Hf.
  split_and!; try done; simpl in *; by rewrite Hh.
Qed.

Lemma unlock_ds_safe {B} t (k : unit → hal B) Q σ :
  knows t dynamic_locked σ → (∀ σ', knows t know_nothing σ' → safe t (k tt) Q σ') →
  safe t (call UnlockDynamicSensors ≫= k) Q σ.
Proof.
  intros HL Hk. apply (knows_call fuel s0 writer waker stopper getSensorInfo posts t dynamic_locked
    _ _ (λ _, knows t know_nothing)); [done|exact HL| |by intros []].
  intros σ' [] σ'' (Kw & Ke & Kd & Kf & Ki) Hi He. split; [done|].
  pose proof (emit_held _ _ _ _ He) as [_ Hh]%give_lock_spec.
  split_and!; try done; simpl in *; by rewrite Hh.
Qed.

(** The table is changed under the mutex, and the framework is told afterwards. *)
Lemma dynamic_idle t {B} (f : gmap Z SensorInfo → gmap Z SensorInfo * B)
    (c : Z → B → halE SubHal unit) :
  (∀ cb x, neutral fuel (c cb x)) →
  (∀ cb x σ y, free_handed σ t → mDynamicSensorsCallback (fields σ) = Some cb →
    allowed σ t (Asked (Entry (c cb x) y))) →
  idle t (
    call LockDynamicSensors ;;
    s ← get;
    let '(dynamic, x) := f (mDynamicSensors s) in
    modify (set_mDynamicSensors dynamic) ;;
    call UnlockDynamicSensors ;;
    s ← get;
    match mDynamicSensorsCallback s with
    | Some cb => call (c cb x)
    | None => undef
    end).
Proof.
  intros Hn Ha σ HL. apply lock_ds_safe; [done|]. clear σ HL. intros σ HL.
  eapply knows_get; [exact HL|]. clear σ HL. intros σ HL Hi.
  destruct (f (mDynamicSensors (fields σ))) as [d x]. clear Hi.
  eapply modify_other; [exact HL|done|..].
  { intros σ' HL' Hi'. split; try done; try by left. right. by destruct HL' as (_ & _ & ? & _). }
  clear σ HL. intros σ HL. apply unlock_ds_safe; [done|]. clear σ HL. intros σ HL.
  eapply knows_get; [exact HL|]. clear σ HL. intros σ HL Hi.
  destruct (inv_setup _ _ _ _ Hi) as (_ & -> & _). destruct connected_cb as [cb Hcb].
  rewrite Hcb. clear Hi. revert σ HL. apply idle_call; [done|]. intros σ y Hfree Hi.
  destruct (inv_setup _ _ _ _ Hi) as (_ & Hcb' & _). apply Ha; [done|congruence].
Qed.

(** * Posting *)
Hypothesis connected_eq : is_Some (mEventQueue (queues s0)).
Hypothesis connected_flag : is_Some (mEventQueueFlag (queues s0)).

(** A posted batch: a locked wake lock comes with a wake-up event, and if
    [ALOG_ASSERT] is compiled in, a wake-up event comes with a locked wake lock. *)
Definition post_ok t (b : HalProxySystem.batch) : Prop :=
  b ∈ posts t ∧ zlen b.1.2 < 2 ^ 63 ∧ (b.2 = true → wakeups b ≠ []) ∧
  (asserts = true → b.2 = false → wakeups b = []).

Lemma alog_assert_idle t condition :
  (asserts = true → condition = true) → idle t (alog_assert (SubHal:=SubHal) asserts condition).
Proof.
  intros Hc. unfold alog_assert. destruct asserts; [|apply keeps_ret].
  rewrite Hc by done. apply keeps_ret.
Qed.

Lemma postEvents_idle t i events locked :
  post_ok t (i, events, locked) →
  idle t (postEvents_thread getSensorInfo asserts i events locked).
Proof.
  intros (Hin & Hlen & Hlock & Hassert). simpl in Hlen, Hlock, Hassert.
  pose proof (zlen_owed getSensorInfo (i, events, locked)) as Hle. simpl in Hle.
  pose proof (zlen_filter (wakes getSensorInfo) (owed (i, events, locked))) as Hle'.
  unfold postEvents_thread, postEvents_with. apply keeps_get. intros s Hs.
  destruct (_ || _); [apply keeps_ret|].
  rewrite (process_event_foldl getSensorInfo i events [] : processEvents _ i events = _).
  change ([] ++ filter (passes getSensorInfo) (tag_event i <$> events)) with (owed (i, events, locked)).
  apply keeps_bind.
  - case_bool_decide as Hpos; apply alog_assert_idle; intros Ha; destruct locked; try done.
    + rewrite Hassert in Hpos; done.
    + destruct Hpos. by apply zlen_pos, Hlock.
  - intros []. intros σ HL.
    apply (postEventsToMessageQueue_safe fuel s0 _ _ _ _ posts connected_eq connected_flag); try done; [lia|].
    intros Hl. split; [by apply zlen_pos, Hlock|lia].
Qed.

(** * Clients

    A dump is left out: it reads the front of the pending queue without its mutex
    ([HalProxyRaces.debug_races_with_writer]). *)
Definition request_ok t (r : request) : Prop :=
  match r with
  | PostEvents i events locked => post_ok t (i, events, locked)
  | IncrementRefCount delta => 0 < delta < 2 ^ 63
  | DecrementRefCount delta _ => 0 ≤ delta
  | Debug fds => no_dump fds
  | _ => True
  end.

#[local] Abbreviation serve := (serve getSensorInfo asserts convertToNewEvent convertToOldEvent).

Lemma serve_idle t r : request_ok t r → idle t (serve r).
Proof.
  intros Hr. destruct r; cbn [HalProxyThreads.serve].
  - by apply postEvents_idle.
  - apply keeps_ignore. intros σ HL. by apply increment_safe.
  - intros σ HL. by apply decrement_safe.
  - by apply (dynamic_idle t (λ d, foldl (connect_one subHalIndex) (d, []) sensors)
      Cb_onDynamicSensorsConnected).
  - by apply (dynamic_idle t (λ d, foldl (disconnect_one subHalIndex) (d, []) handles)
      Cb_onDynamicSensorsDisconnected).
  - unfold getSensorsList_2_1. idle_run.
  - apply keeps_ignore, setOperationMode_idle.
  - apply keeps_ignore, activate_idle.
  - apply keeps_ignore. by apply (routed_idle t sensorHandle
      (λ sh, Sub_batch sh (clearSubHalIndex sensorHandle) samplingPeriodNs maxReportLatencyNs)).
  - apply keeps_ignore.
    by apply (routed_idle t sensorHandle (λ sh, Sub_flush sh (clearSubHalIndex sensorHandle))).
  - apply keeps_ignore, injectSensorData_idle.
  - unfold registerDirectChannel. idle_run.
  - unfold unregisterDirectChannel. idle_run.
  - unfold configDirectReport. idle_run.
  - by apply debug_idle.
Qed.

Lemma serve_all_idle t rs : Forall (request_ok t) rs → idle t (foreach serve rs).
Proof.
  induction 1 as [|r rs Hr Hrs IH]; cbn [foreach]; [apply keeps_ret|].
  apply keeps_bind; [by apply serve_idle|]. by intros [].
Qed.

(** * The end *)
Hypothesis connected_wl : is_Some (mWakeLockQueue (queues s0)).

Lemma notify_idle (c : halE SubHal unit) :
  c = NotifyWakelockCV ∨ c = NotifyEventQueueWriteCV → idle stopper (call c).
Proof.
  intros Hc σ HL. change (call c) with (call c ≫= (mret : unit → hal unit)).
  apply (knows_call fuel s0 writer waker stopper getSensorInfo posts stopper know_nothing
    _ _ (λ _, knows stopper know_nothing)); [by destruct Hc as [->| ->]|exact HL| |].
  - intros σ' [] σ'' (Kw & Ke & Kd & Kf & Ki) Hi He. split; [destruct Hc as [->| ->]; by right|].
    pose proof (emit_held _ _ _ _ He) as Hh.
    assert (held σ'' = held σ') as Hh' by (destruct Hc as [->| ->]; by injection Hh as <-).
    split_and!; try done; simpl in *; by rewrite Hh'.
  - intros [] σ' HL'. by eapply knows_ret.
Qed.

Lemma join_idle (c : halE SubHal unit) :
  c = JoinPendingWritesThread (Z.of_nat writer) ∨ c = JoinWakelockThread (Z.of_nat waker) →
  idle stopper (call c).
Proof.
  intros Hc σ HL. change (call c) with (call c ≫= (mret : unit → hal unit)).
  apply (knows_call fuel s0 writer waker stopper getSensorInfo posts stopper know_nothing
    _ _ (λ _, knows stopper know_nothing)); [by destruct Hc as [->| ->]|exact HL| |].
  - intros σ' [] σ'' HL' Hi He. pose proof (knows_free s0 writer stopper know_nothing σ' ltac:(done) HL') as Hfree.
    destruct HL' as (Kw & Ke & Kd & Kf & Ki). split; [by destruct Hc as [->| ->]|].
    pose proof (emit_held _ _ _ _ He) as Hh.
    assert (held σ'' = held σ') as Hh' by (destruct Hc as [->| ->]; by injection Hh as <-).
    split_and!; try done; simpl in *; by rewrite Hh'.
  - intros [] σ' HL'. by eapply knows_ret.
Qed.

Lemma stopThreads_idle : idle stopper stopThreads.
Proof.
  unfold stopThreads. apply keeps_bind.
  { apply keeps_write; [done|]. intros σ HL Hi. split; try done; try by left. by right. }
  intros [] σ HL. eapply knows_get; [exact HL|]. clear σ HL. intros σ HL Hi.
  pose proof (inv_writer _ _ _ _ Hi) as Hw. pose proof (inv_waker _ _ _ _ Hi) as Hk.
  destruct (inv_setup _ _ _ _ Hi) as (_ & _ & Hq). revert HL. clear Hi.
  generalize dependent (fields σ). intros s Hw Hk Hq. rewrite Hq. revert σ.
  apply keeps_bind; [|intros []].
  { idle_run; (apply idle_call; [done|]); intros σ x Hfree Hi;
      destruct (inv_setup _ _ _ _ Hi) as (_ & _ & Hqs); simpl; rewrite Hqs; auto. }
  apply keeps_bind; [|intros []].
  { idle_run; (apply idle_call; [done|]); intros σ x Hfree Hi;
      destruct (inv_setup _ _ _ _ Hi) as (_ & _ & Hqs); simpl; rewrite Hqs; auto. }
  apply keeps_bind; [apply notify_idle; by left|intros []].
  apply keeps_bind; [apply notify_idle; by right|intros []].
  apply keeps_bind; [|intros []].
  - destruct (mPendingWritesThread s) as [z|]; [|apply keeps_ret]. rewrite (Hw z) by done.
    apply keeps_bind; [apply join_idle; by left|intros []].
    apply keeps_write; [done|]. intros σ HL Hi. split; try done; try by left. by right.
  - destruct (mWakelockThread s) as [z|]; [|apply keeps_ret]. rewrite (Hk z) by done.
    apply keeps_bind; [apply join_idle; by right|intros []].
    apply keeps_write; [done|]. intros σ HL Hi. split; try done; try by left. by right.
Qed.
End safe.
