(* ===== verification/HalProxyThreadsSystem.v ===== *)
(** The sensors HAL proxy as a system of threads ([HalProxyThreads]): what holds in
    every interleaving, cut at every access, of the two worker threads, any number
    of clients (sub-HALs that post events, hold wake locks and report dynamic
    sensors, and the framework) and the thread that ends the proxy, from the state
    that [initializeCommon] leaves. *)
From S2P Require Import Prelude Effects SensorTypes SensorHandle HalProxyState HalProxy HalProxyFacts Wakelock WakelockFacts EventQueue EventQueueFacts HalProxyInit HalProxyInitFacts HalProxyCallback HalProxySystem HalProxyThreads HalProxyProtocol HalProxyProtocolFacts HalProxyThreadsFacts HalProxyWakelockSafe HalProxyQueueSafe HalProxyThreadsSafe Threads ThreadsLogic.
From stdpp Require Import options.
#[local] Set Default Proof Using "Type*".

Section system.
Context {SubHal : Type} {SubHal_eq : EqDecision SubHal} {SC : SensorConsts} {SL : SensorLaws} (fuel : nat).
Context {MO : MapOrder Z SensorInfo}.
Let sy : Sync (halE SubHal) hal_mutex (HalProxy SubHal) (option unit) := hal_sync fuel.
#[local] Existing Instance sy.
Variables (s0 : HalProxy SubHal) (writer waker stopper : nat).
Variable getSensorInfo : Z → SensorInfo.
Variable asserts : bool.
Variables convertToNewEvent convertToOldEvent : Event → Event.
Variable posts : nat → list HalProxySystem.batch.
Context {W : Type} {H : Handler (halE SubHal) W}.

#[local] Abbreviation hal A := (prog (halE SubHal) (HalProxy SubHal) A).
#[local] Abbreviation allowed := (hal_allowed s0 writer waker stopper getSensorInfo posts).
#[local] Abbreviation inv := (hal_inv s0 writer waker).
#[local] Abbreviation ghost c := (ghost_of s0 (trace (now c))).
#[local] Abbreviation request_ok := (request_ok getSensorInfo asserts posts).

(** What runs in a thread. *)
Inductive hal_thread : nat → hal (option unit) → Prop :=
| ht_writer n : hal_thread writer (handlePendingWrites_thread n)
| ht_waker n : hal_thread waker (handleWakelocks_thread n)
| ht_client t rs : Forall (request_ok t) rs →
    hal_thread t (client_thread getSensorInfo asserts convertToNewEvent convertToOldEvent rs)
| ht_stopper rs : Forall (request_ok stopper) rs →
    hal_thread stopper (stopper_thread getSensorInfo asserts convertToNewEvent convertToOldEvent rs).

#[local] Abbreviation hal_ready := (hal_ready s0 writer waker).

#[local] Abbreviation begin := (Shared s0 (λ _ : hal_mutex, None) [] : shared (halE SubHal) hal_mutex (HalProxy SubHal)).

Lemma ready_inv : hal_ready → inv begin.
Proof using Type.
  intros [Re Rf Rw Rc Rp Rk Rn Rq]. split; simpl; try done.
  - unfold in_uint. lia.
  - intros _. apply Rn.
  - apply prefix_nil.
  - by rewrite app_nil_r.
  - intros _. unfold open_piece. simpl. rewrite app_nil_r. apply drop_ge. lia.
  - by intros u x; split; apply not_elem_of_nil.
Qed.

Lemma begin_knows t : knows s0 writer t know_nothing begin.
Proof using Type. by split_and!. Qed.

Lemma hal_thread_safe t p :
  hal_ready → hal_thread t p → ThreadsLogic.safe (Sy:=sy) allowed inv any_answer t p (λ _ _, True) begin.
Proof.
  intros [Re Rf Rw Rc _ _ _ _] Hp.
  assert (∀ t {B} (q : hal B) (r : hal (option unit)),
    keeps_to fuel s0 writer waker stopper getSensorInfo posts t know_nothing q →
    keeps_to fuel s0 writer waker stopper getSensorInfo posts t know_nothing r →
    ThreadsLogic.safe (Sy:=sy) allowed inv any_answer t (q ;; r) (λ _ _, True) begin) as Hthen.
  { intros t' B q r Hq Hr. eapply safe_mono; [|done].
    apply (keeps_bind fuel s0 writer waker stopper getSensorInfo posts t' know_nothing q (λ _, r) Hq (λ _, Hr)).
    apply begin_knows. }
  destruct Hp as [n|n|t rs Hrs|rs Hrs].
  - apply (handlePendingWrites_safe fuel s0 writer waker stopper getSensorInfo posts); [done..|].
    by split_and!.
  - apply (handleWakelocks_safe fuel s0 writer waker stopper getSensorInfo posts); [done|].
    apply begin_knows.
  - apply Hthen; [by apply serve_all_idle|apply keeps_ret].
  - apply Hthen; [by apply serve_all_idle|]. apply keeps_bind; [by apply stopThreads_idle|].
    intros []. apply keeps_ret.
Qed.

Lemma spawned_safe X (c : halE SubHal X) body answer failed :
  sync_of (Sync:=sy) c = Some (Spawn body answer failed) →
  ∀ t u (σ : shared (halE SubHal) hal_mutex (HalProxy SubHal)), inv σ →
  (u, Asked (Entry c (answer (Z.of_nat t)))) ∈ trace σ →
  ThreadsLogic.safe (Sy:=sy) allowed inv any_answer t body (λ _ _, True) σ.
Proof using Type.
  intros Hs t u σ Hi Hin. exfalso.
  assert ((∃ x, (u, Asked (Entry StartPendingWritesThread x)) ∈ trace σ) ∨
    (∃ x, (u, Asked (Entry StartWakelockThread x)) ∈ trace σ)) as Hst.
  { destruct c; try discriminate Hs; [left|right]; by eexists. }
  destruct Hst as [[x Hx]|[x Hx]]; destruct (inv_no_spawn _ _ _ _ Hi u x) as [N1 N2];
    [by apply N1|by apply N2].
Qed.

#[local] Abbreviation system ps w := (start ps s0 w).

Lemma system_safe ps (w : W) c :
  hal_ready → (∀ t p, ps !! t = Some p → hal_thread t p) → reaches (system ps w) c →
  inv (now c) ∧ (∀ t, pool c !! t ≠ Some (Running UB)) ∧
  ∀ pre t e post, trace (now c) = pre ++ (t, e) :: post →
    ∃ σ, inv σ ∧ replay pre begin = Some σ ∧ allowed σ t e.
Proof.
  intros Hready Hps Hc.
  apply (pool_safe allowed inv any_answer (hal_inv_step fuel s0 writer waker stopper getSensorInfo posts))
    with (ps := ps) (s := s0) (w := w); [done|apply spawned_safe|by apply ready_inv| |done].
  intros t p Hp. by apply hal_thread_safe, Hps.
Qed.
(** * What has been accepted and delivered *)
#[local] Abbreviation hal_event := (event (halE SubHal) (HalProxy SubHal)).

(** The calls of all threads, in order. *)
Definition asked (tr : list (nat * hal_event)) : list (entry (halE SubHal)) :=
  omap (λ e, if e is Asked c then Some c else None) tr.*2.

Lemma asked_snoc tr t (e : hal_event) :
  asked (tr ++ [(t, e)]) = asked tr ++ (if e is Asked c then [c] else []).
Proof using Type. unfold asked. rewrite fmap_app, omap_app. by destruct e. Qed.

(** What one event adds to what was written. *)
Definition writes (e : hal_event) : list (list Event * bool) :=
  match e with
  | Asked (Entry c x) =>
      match c in halE _ X return X → list (list Event * bool) with
      | Eq_write _ events => λ ok : bool, if ok then [(events, true)] else []
      | Eq_writeBlocking _ events _ _ => λ ok : bool, [(events, ok)]
      | _ => λ _, []
      end x
  | _ => []
  end.

Lemma step_written g e : g_written (ghost_step g e) = g_written g ++ writes e.
Proof using Type.
  destruct e as [[X c x]|X c|s s']; cbn [ghost_step writes].
  - destruct c; try (symmetry; apply app_nil_r); [|done]. destruct x; [done|symmetry; apply app_nil_r].
  - destruct c; symmetry; apply app_nil_r.
  - unfold queue_step. repeat case_bool_decide; symmetry; apply app_nil_r.
Qed.

#[local] Abbreviation fine := (filter (λ x : list Event * bool, x.2 = true)).

Lemma writes_delivered X (c : halE SubHal X) x :
  delivered [Entry c x] = concat (fine (writes (Asked (Entry c x)))).*1 ∧
  (write_failed (Entry c x) = false →
    fine (writes (Asked (Entry c x))) = writes (Asked (Entry c x))).
Proof using Type. destruct c; try done; destruct x; by repeat split; try discriminate. Qed.

Lemma delivered_written tr :
  delivered (asked tr) = concat (fine (g_written (ghost_of s0 tr))).*1 ∧
  (no_failed_write (asked tr) → fine (g_written (ghost_of s0 tr)) = g_written (ghost_of s0 tr)).
Proof using Type.
  induction tr as [|[t e] tr [IHd IHf]] using rev_ind; [done|].
  rewrite asked_snoc, ghost_snoc, delivered_app, step_written, filter_app, fmap_app, concat_app, IHd.
  destruct e as [[X c x]|X c|s s']; [|by rewrite !app_nil_r..].
  destruct (writes_delivered X c x) as [Hd Hf]. split; [by rewrite Hd|].
  intros [Hn Hc]%Forall_app. rewrite (IHf Hn), Hf; [done|]. exact (Forall_inv Hc).
Qed.

(** * What every history of the system satisfies *)
Definition legal (tr : list (nat * hal_event)) : Prop :=
  ∀ pre t e post, tr = pre ++ (t, e) :: post →
    ∃ σ, inv σ ∧ replay pre begin = Some σ ∧ allowed σ t e.

Lemma legal_snoc tr t e : legal (tr ++ [(t, e)]) → legal tr ∧ ∃ σ, trace σ = tr ∧ allowed σ t e.
Proof using Type.
  intros Hl. split.
  - intros pre u e' post ->. apply (Hl pre u e' (post ++ [(t, e)])). by rewrite <- app_assoc.
  - destruct (Hl tr t e [] eq_refl) as (σ & _ & Hr & Ha). exists σ. split; [|done].
    by rewrite (replay_trace _ _ _ Hr).
Qed.

(** The kernel's lock is taken and given back in turn, and the ghost follows it. *)
Lemma kernel_trace tr : legal tr → small tr →
  wl_trace (bool_decide (0 < refcount s0)) (asked tr) = Some (g_kernel (ghost_of s0 tr)).
Proof using Type.
  induction tr as [|[t e] tr IH] using rev_ind; [done|].
  intros [Hl (σ & Hσ & Ha)]%legal_snoc Hs. pose proof (small_app _ _ Hs) as Hs'.
  rewrite asked_snoc, ghost_snoc, wl_trace_app, IH, Some_bind by done.
  destruct e as [[X c x]|X c|s s'].
  - destruct c; try done; try (by destruct x);
      destruct Ha as (_ & _ & Hk); rewrite Hσ in Hk; specialize (Hk Hs');
      simpl; by rewrite Hk.
  - by destruct c.
  - simpl. unfold queue_step. by repeat case_bool_decide.
Qed.

(** What a thread accepted in one use of the mutex: a batch that it posts, tagged
    and filtered, whole; or the part of it that was written, when the pending
    queue had no room for the rest. *)
Definition posted_piece (tr : list (nat * hal_event)) (o : list Event) : Prop :=
  ∃ pre t post σ b, tr = pre ++ (t, Asked (Entry UnlockEventQueueWrite tt)) :: post ∧
    replay pre begin = Some σ ∧ b ∈ posts t ∧ o `prefix_of` owed getSensorInfo b ∧
    (o = owed getSensorInfo b ∨ kMaxSizePendingWriteEventsQueue <
      mSizePendingWriteEventsQueue (pending (fields σ)) +
        zlen (drop (length o) (owed getSensorInfo b))).

Lemma posted_piece_snoc tr x o : posted_piece tr o → posted_piece (tr ++ [x]) o.
Proof using Type.
  intros (pre & t & post & σ & b & -> & H1). exists pre, t, (post ++ [x]), σ, b.
  by rewrite <- app_assoc.
Qed.

(** The pieces are the batches, in the order of the uses of the mutex. *)
Lemma pieces_posted tr : legal tr →
  ∃ ps, g_pieces (ghost_of s0 tr) = queued s0 :: ps ∧ Forall (λ o, o = [] ∨ posted_piece tr o) ps.
Proof using Type.
  induction tr as [|[t e] tr IH] using rev_ind; [by exists []|].
  intros Hl. destruct (legal_snoc _ _ _ Hl) as [Hl' _].
  destruct (IH Hl') as (ps & Hps & Hall). rewrite ghost_snoc.
  assert (Forall (λ o, o = [] ∨ posted_piece (tr ++ [(t, e)]) o) ps) as Hall'.
  { eapply Forall_impl; [exact Hall|]. intros o [?|?]; [by left|right]. by apply posted_piece_snoc. }
  assert (∀ o, (o = [] ∨ posted_piece (tr ++ [(t, e)]) o) →
    ∃ ps', g_pieces (ghost_of s0 tr) ++ [o] = queued s0 :: ps' ∧
      Forall (λ o, o = [] ∨ posted_piece (tr ++ [(t, e)]) o) ps') as Hnew.
  { intros o Ho. exists (ps ++ [o]). rewrite Hps. split; [done|]. apply Forall_app. split; [done|]. by constructor. }
  destruct (Hl tr t e [] eq_refl) as (σ & _ & Hσ & Ha).
  pose proof (replay_trace _ _ _ Hσ) as Ht. simpl in Ht.
  destruct e as [[X c x]|X c|s s']; cbn [ghost_step].
  - destruct c; try (by exists ps); [|by destruct x; exists ps].
    apply Hnew. destruct Ha as (_ & _ & Hw). rewrite Ht in Hw.
    destruct Hw as [[_ Ho]|(b & Hb & Hp & Hr)]; [by left|right].
    destruct x. by exists tr, t, [], σ, b.
  - destruct c; try (by exists ps). apply Hnew. left. rewrite <- Ht. apply Ha.
  - unfold queue_step. repeat case_bool_decide; by exists ps.
Qed.

Lemma concat_filter_nonempty (ps : list (list Event)) : concat (filter (λ o, o ≠ []) ps) = concat ps.
Proof using Type.
  induction ps as [|o ps IH]; [done|]. rewrite filter_cons. case_decide as Ho; simpl; [by rewrite IH|].
  by rewrite IH, Ho.
Qed.

(** A thread that has slept since nobody notified it. *)
Definition undisturbed_since {X} (c notify : halE SubHal X) (post : list (nat * hal_event)) : Prop :=
  ∀ u e, (u, e) ∈ post → (∀ x, e ≠ Asked (Entry c x)) ∧ (∀ x, e ≠ Asked (Entry notify x)).

Lemma still_asleep pre t post :
  (undisturbed_since WaitWakelockCV NotifyWakelockCV post →
   g_wl_asleep (ghost_of s0 (pre ++ (t, Slept WaitWakelockCV) :: post)) = true) ∧
  (undisturbed_since WaitEventQueueWriteCV NotifyEventQueueWriteCV post →
   g_eq_asleep (ghost_of s0 (pre ++ (t, Slept WaitEventQueueWriteCV) :: post)) = true).
Proof using Type.
  induction post as [|[u e] post [IHw IHe]] using rev_ind.
  { by rewrite !ghost_snoc. }
  change (pre ++ ?x :: post ++ ?l) with (pre ++ (x :: post) ++ l).
  rewrite !app_assoc, !ghost_snoc. split; intros Hun.
  - assert (g_wl_asleep (ghost_of s0 (pre ++ (t, Slept WaitWakelockCV) :: post)) = true) as Hg
      by (apply IHw; intros v e' Hin; apply (Hun v); apply elem_of_app; by left).
    destruct (Hun u e) as [N1 N2]; [apply elem_of_app; right; left|].
    destruct e as [[X c x]|X c|s s']; simpl.
    + destruct c; simpl; try done; try (by destruct x); [by destruct (N1 x)|by destruct (N2 x)].
    + by destruct c.
    + unfold queue_step. by repeat case_bool_decide.
  - assert (g_eq_asleep (ghost_of s0 (pre ++ (t, Slept WaitEventQueueWriteCV) :: post)) = true) as Hg
      by (apply IHe; intros v e' Hin; apply (Hun v); apply elem_of_app; by left).
    destruct (Hun u e) as [N1 N2]; [apply elem_of_app; right; left|].
    destruct e as [[X c x]|X c|s s']; simpl.
    + destruct c; simpl; try done; try (by destruct x); [by destruct (N1 x)|by destruct (N2 x)].
    + by destruct c.
    + unfold queue_step. by repeat case_bool_decide.
Qed.

(** * Properties *)



(** C3: events reach the framework as they were posted, whatever the interleaving of
    the posts with the thread of pending writes: what was delivered, followed by
    what waits, is what was accepted, in order, but for the batches whose blocking
    write failed; if none failed, nothing is lost or duplicated.  And what was
    accepted is one whole batch after the other, in the order in which the posts
    took [mEventQueueWriteMutex], each tagged and filtered, after what waited at
    the beginning; only a batch whose rest found no room in the pending queue is
    cut, after the part that was written.  Whenever the mutex is free no batch is
    unfinished, the recorded size is that of the queue, within its bounds, and no
    batch in the queue is empty. *)
Theorem hal_threads_stream ps (w : W) c :
  hal_ready → (∀ t p, ps !! t = Some p → hal_thread t p) → reaches (system ps w) c →
  let tr := trace (now c) in
  let accepted := g_accepted (ghost_of s0 tr) in
  delivered (asked tr) ++ waiting_now s0 (now c) `sublist_of` accepted ∧
  (no_failed_write (asked tr) → delivered (asked tr) ++ waiting_now s0 (now c) = accepted) ∧
  (∃ batches unfinished, accepted = queued s0 ++ concat batches ++ unfinished ∧
    Forall (posted_piece tr) batches ∧
    (held (now c) mEventQueueWriteMutex = None → unfinished = [] ∧ tidy (pending (fields (now c))))).
Proof.
  intros Hr Hps Hc tr accepted. destruct (system_safe ps w c Hr Hps Hc) as (Hi & _ & Ht).
  destruct (delivered_written tr) as [Hd Hf].
  assert (accepted = concat (g_written (ghost_of s0 tr)).*1 ++ waiting_now s0 (now c)) as Hacc
    by apply (inv_stream _ _ _ _ Hi).
  split_and!.
  - rewrite Hacc, Hd. apply sublist_app; [|done]. by apply concat_sublist, fmap_sublist, sublist_filter.
  - intros Hn. by rewrite Hacc, Hd, (Hf Hn).
  - destruct (pieces_posted tr Ht) as (pieces & Hp & Hall).
    exists (filter (λ o, o ≠ []) pieces), (open_piece (ghost_of s0 tr)). split_and!.
    + rewrite concat_filter_nonempty. destruct (inv_pieces _ _ _ _ Hi) as [l Hl]. fold tr in Hl.
      unfold accepted, open_piece. by rewrite Hl, drop_app_length, Hp, app_assoc.
    + apply Forall_forall. intros o [Ho Hin]%list_elem_of_filter. rewrite Forall_forall in Hall.
      by destruct (Hall o Hin).
    + intros Hfree. split; [by apply (inv_closed _ _ _ _ Hi)|by apply (inv_tidy _ _ _ _ Hi)].
Qed.

(** C4: the workers lose no wake-up of a post or of a count: while the wake lock
    thread sleeps and nobody has notified it since, nothing is counted; while
    the thread of pending writes sleeps and nobody has notified it since, and
    [mEventQueueWriteMutex] is free, no event waits. *)
Theorem hal_threads_no_lost_wakeup ps (w : W) c :
  hal_ready → (∀ t p, ps !! t = Some p → hal_thread t p) → reaches (system ps w) c →
  (∀ pre t post, trace (now c) = pre ++ (t, Slept WaitWakelockCV) :: post →
    undisturbed_since WaitWakelockCV NotifyWakelockCV post → refcount (fields (now c)) = 0) ∧
  (∀ pre t post, trace (now c) = pre ++ (t, Slept WaitEventQueueWriteCV) :: post →
    undisturbed_since WaitEventQueueWriteCV NotifyEventQueueWriteCV post →
    held (now c) mEventQueueWriteMutex = None → queued (fields (now c)) = []).
Proof.
  intros Hr Hps Hc. destruct (system_safe ps w c Hr Hps Hc) as (Hi & _ & _).
  split; intros pre t post Heq Hun; destruct (still_asleep pre t post) as [Hw He].
  - apply (inv_wl_asleep _ _ _ _ Hi). rewrite Heq. by apply Hw.
  - intros Hfree. destruct (inv_tidy _ _ _ _ Hi Hfree) as [_ Hq].
    apply queued_nil, Hq. rewrite Heq. by apply He.
Qed.
End system.

(** * A system: the two workers, a sub-HAL that posts three wake-up events, and the
    end; the framework's queue has room for two. *)
#[local] Existing Instances aosp_sensors aosp_sensors_laws.
#[local] Instance hal_demo_order : MapOrder Z SensorInfo := map_to_list_order Z SensorInfo.
#[local] Instance hal_demo_env : Handler (halE nat) Z := simple_env (λ _, OK) (λ _, []) 2.
#[local] Instance hal_demo_sync : Sync (halE nat) hal_mutex (HalProxy nat) (option unit) := hal_sync 9.

Definition hal0 : HalProxy nat :=
  set_mDynamicSensorsCallback (Some 5)
    (set_mPendingWritesThread (Some 0) (set_mWakelockThread (Some 1) demo_proxy)).
Definition hal_posts (t : nat) : list HalProxySystem.batch :=
  if decide (t = 2%nat) then [demo_post] else [].
Definition hal_pool : list (prog (halE nat) (HalProxy nat) (option unit)) :=
  [handlePendingWrites_thread 9; handleWakelocks_thread 9;
   client_thread wakeup_info true id id [PostEvents 1 demo_batch true];
   stopper_thread wakeup_info true id id []].
Definition hal_system : config (halE nat) hal_mutex (HalProxy nat) Z (option unit) :=
  start hal_pool hal0 0.

Lemma hal0_ready : hal_ready hal0 0 1.
Proof. split; try by eexists. all: by intros ? [= <-]. Qed.

Lemma hal_pool_threads t p : hal_pool !! t = Some p →
  hal_thread 0 1 3 wakeup_info true id id hal_posts t p.
Proof.
  destruct t as [|[|[|[|t]]]]; intros [= <-]; constructor; repeat constructor; try done.
  all: by vm_compute.
Qed.

(** The workers sleep. *)
Definition asleep_moves : list (nat * bool) := turns 0 4 ++ turns 1 4.
(** The batch is posted; the thread of pending writes has taken up the event for
    which there was no room, and writes it. *)
Definition posted_moves : list (nat * bool) := asleep_moves ++ turns 2 21 ++ turns 0 10.


Lemma posted_small : small (trace (now (finish posted_moves hal_system))).
Proof.
  assert (forallb (λ x : nat * event (halE nat) (HalProxy nat),
    if x.2 is Wrote _ s' then refcount s' <? 2 ^ 63 else true)
    (trace (now (finish posted_moves hal_system))) = true) as Hs by by vm_compute.
  intros t s s' Hin. rewrite forallb_forall in Hs. apply list_elem_of_In, Hs in Hin.
  by apply Z.ltb_lt.
Qed.


Lemma hal_threads_stream_witness :
  let c := finish posted_moves hal_system in
  delivered (asked (trace (now c))) ++ waiting_now hal0 (now c) = tag_event 1 <$> demo_batch ∧
  tidy (pending (fields (now c))).
Proof.
  intros c. assert (reaches hal_system c) as Hc by (apply reaches_finish; by vm_compute).
  assert (held (now c) mEventQueueWriteMutex = None) as Hfree by by vm_compute.
  assert (forallb (λ e, negb (write_failed e)) (asked (trace (now c))) = true) as Hn by by vm_compute.
  assert (g_accepted (ghost_of hal0 (trace (now c))) = tag_event 1 <$> demo_batch) as Ha
    by by vm_compute.
  clearbody c.
  destruct (hal_threads_stream 9 hal0 0 1 3 wakeup_info true id id hal_posts hal_pool 0 c
    hal0_ready hal_pool_threads Hc) as (_ & Hall & batches & unfinished & _ & _ & Ht).
  destruct (Ht Hfree) as [_ Htidy]. rewrite Hall; [split; [exact Ha|exact Htidy]|].
  apply Forall_forall. intros e He. rewrite forallb_forall in Hn.
  by apply negb_true_iff, Hn, list_elem_of_In.
Defined.

Lemma hal_threads_no_lost_wakeup_witness :
  let c := finish asleep_moves hal_system in
  refcount (fields (now c)) = 0 ∧ queued (fields (now c)) = [].
Proof.
  intros c. assert (reaches hal_system c) as Hc by (apply reaches_finish; by vm_compute).
  assert (trace (now c) !! 1%nat = Some (0%nat, Slept WaitEventQueueWriteCV)) as He by by vm_compute.
  assert (trace (now c) !! 3%nat = Some (1%nat, Slept WaitWakelockCV)) as Hw by by vm_compute.
  assert (drop 2 (trace (now c)) =
    [(1%nat, Asked (Entry LockWakelock tt)); (1%nat, Slept WaitWakelockCV)]) as Hd by by vm_compute.
  assert (drop 4 (trace (now c)) = []) as Hd' by by vm_compute.
  assert (held (now c) mEventQueueWriteMutex = None) as Hfree by by vm_compute.
  clearbody c.
  destruct (hal_threads_no_lost_wakeup 9 hal0 0 1 3 wakeup_info true id id hal_posts hal_pool 0 c
    hal0_ready hal_pool_threads Hc) as [Hcount Hqueue].
  split.
  - apply (Hcount _ _ _ (eq_sym (take_drop_middle _ _ _ Hw))). rewrite Hd'.
    by intros u e ?%not_elem_of_nil.
  - apply (Hqueue _ _ _ (eq_sym (take_drop_middle _ _ _ He))); [|exact Hfree]. rewrite Hd.
    intros u e [Hin|[Hin|Hin%not_elem_of_nil]%elem_of_cons]%elem_of_cons; [..|done];
      injection Hin as -> ->; split; intros x Hx; discriminate Hx.
Defined.
