(* ===== verification/HalProxyThreadsProgress.v ===== *)
(** No interleaving of the sensors HAL's threads is stuck: [mEventQueueWriteMutex]
    is taken before [mWakelockMutex], [mDynamicSensorsMutex] with no other held,
    and the workers are joined with no mutex held. *)
From S2P Require Import Prelude Effects SensorTypes SensorHandle HalProxyState HalProxy HalProxyFacts Wakelock WakelockFacts EventQueue EventQueueFacts HalProxyInit HalProxyInitFacts HalProxyCallback HalProxySystem HalProxyThreads HalProxyProtocol HalProxyProtocolFacts HalProxyThreadsSafe HalProxyThreadsSystem Threads ThreadsLogic ThreadsProgress.
From stdpp Require Import options.
#[local] Set Default Proof Using "Type*".

Definition hal_rank (m : hal_mutex) : nat :=
  match m with mEventQueueWriteMutex => 0 | mWakelockMutex => 1 | mDynamicSensorsMutex => 2 end.

Section progress.
Context {SubHal : Type} {SubHal_eq : EqDecision SubHal} {SC : SensorConsts} {SL : SensorLaws} (fuel : nat).
Context {MO : MapOrder Z SensorInfo}.
Let sy : Sync (halE SubHal) hal_mutex (HalProxy SubHal) (option unit) := hal_sync fuel.
#[local] Existing Instance sy.
Variable getSensorInfo : Z → SensorInfo.
Variable asserts : bool.
Variables convertToNewEvent convertToOldEvent : Event → Event.

#[local] Abbreviation hal A := (prog (halE SubHal) (HalProxy SubHal) A).
#[local] Abbreviation ordered_to := (ordered_to (A:=option unit) hal_rank 0).
#[local] Abbreviation ordered := (ordered (A:=option unit) hal_rank 0 (.= Some ())).
Implicit Types (leaf : bool) (L : list hal_mutex).

(** A program that takes what it gives back. *)
#[local] Abbreviation free leaf p L := (ordered_to leaf p L (λ _ L', L' = L)).

#[local] Ltac hal_rank_ok :=
  first
    [ done
    | split; [intros _; apply Nat.le_0_l|];
      intros m Hm; repeat (apply elem_of_cons in Hm as [->|Hm]; [simpl; lia|]); by apply not_elem_of_nil in Hm
    | left
    | split; [left|]; intros m Hm Hne;
      repeat (apply elem_of_cons in Hm as [->|Hm]; [done|]); by apply not_elem_of_nil in Hm ].
#[local] Ltac hal_holding :=
  cbn [holding sync_of sy hal_sync];
  repeat match goal with
    | |- context [filter ?f ?l] =>
        let v := eval vm_compute in (filter f l) in change (filter f l) with v
    end.
#[local] Ltac hal_run := repeat ordered_step_with ltac:(hal_rank_ok) ltac:(hal_holding).

Lemma hal_free_then leaf {A B} (p : hal A) (k : A → hal B) L Q :
  free leaf p L → (∀ a, ordered_to leaf (k a) L Q) → ordered_to leaf (p ≫= k) L Q.
Proof using Type.
  intros Hp Hk. apply ordered_bind. eapply ordered_mono; [exact Hp|]. intros a L' ->. apply Hk.
Qed.

(** ** The wake lock *)
Lemma increment_locked_free leaf delta L : free leaf (increment_locked delta) L.
Proof using Type. unfold increment_locked, modify_wakelock. by hal_run. Qed.

Lemma decrement_locked_free leaf delta start L : free leaf (decrement_locked delta start) L.
Proof using Type. unfold decrement_locked, modify_wakelock. by hal_run. Qed.

(** Where [mWakelockMutex] is taken. *)
Definition low L : Prop := L = [] ∨ L = [mEventQueueWriteMutex].

Lemma under_wakelock_free leaf {A} (p : hal A) L :
  low L → free leaf p (mWakelockMutex :: L) → free leaf (under_wakelock_mutex false p) L.
Proof using Type.
  intros [->| ->] Hp; unfold under_wakelock_mutex; (apply ordered_bind, ordered_call; [hal_rank_ok|]);
    intros []; hal_holding; (apply hal_free_then; [exact Hp|]); intros a; by hal_run.
Qed.

Lemma incrementRefCount_free leaf delta L : low L → free leaf (incrementRefCount_thread delta) L.
Proof using Type.
  intros HL. unfold incrementRefCount_thread. hal_run; [done|].
  eapply ordered_mono; [apply under_wakelock_free; [done|apply increment_locked_free]|].
  intros a L' ->. by hal_run.
Qed.

Lemma decrementRefCount_free leaf delta start L :
  low L → free leaf (decrementRefCount_thread false delta start) L.
Proof using Type.
  intros HL. unfold decrementRefCount_thread. hal_run; [done|].
  by apply under_wakelock_free, decrement_locked_free.
Qed.

(** The mutex is held already. *)
Lemma decrementRefCount_nested_free leaf delta start L :
  free leaf (decrementRefCount_thread true delta start) L.
Proof using Type.
  unfold decrementRefCount_thread. hal_run; [done|]. apply decrement_locked_free.
Qed.

Lemma reset_nested_free leaf L : free leaf (resetSharedWakelock_thread true) L.
Proof using Type.
  unfold resetSharedWakelock_thread, under_wakelock_mutex, modify_wakelock.
  apply hal_free_then; [done|]. intros s. apply hal_free_then; [apply decrementRefCount_nested_free|].
  intros []. by hal_run.
Qed.

Lemma handleWakelocks_ordered leaf n : ordered leaf (handleWakelocks_thread n) [].
Proof using Type.
  assert (∀ n, free leaf (wait_wakelock n) [mWakelockMutex]) as Hwait.
  { intros k. induction k as [|k IH]; [done|]. cbn [wait_wakelock]. hal_run; [done|]. exact IH. }
  assert (free leaf handleWakelock [mWakelockMutex]) as Hturn.
  { unfold handleWakelock, sharedWakelockDidTimeout, deref. apply hal_free_then; [by hal_run|].
    intros [left|]; [|apply reset_nested_free]. hal_run; try done.
    apply decrementRefCount_nested_free. }
  assert (∀ n, free leaf (handleWakelocks_loop n) [mWakelockMutex]) as Hloop.
  { intros k. induction k as [|k IH]; [done|]. cbn [handleWakelocks_loop].
    apply hal_free_then; [done|]. intros s. destruct (mThreadsRun s); [|done].
    apply hal_free_then; [apply Hwait|]. intros [u|]; [|done]. apply hal_free_then; [done|]. intros s'.
    apply hal_free_then; [destruct (mThreadsRun s'); [apply Hturn|done]|]. intros []. exact IH. }
  unfold handleWakelocks_thread. apply ordered_bind, ordered_call; [hal_rank_ok|]. intros [].
  hal_holding. apply hal_free_then; [apply Hloop|]. intros [u|]; [|done].
  apply hal_free_then; [apply reset_nested_free|]. intros []. by hal_run.
Qed.

(** ** The event queue *)
Lemma post_free leaf events n locked : free leaf (postEventsToMessageQueue_thread events n locked) [].
Proof using Type.
  unfold postEventsToMessageQueue_thread. apply ordered_bind, ordered_call; [hal_rank_ok|].
  intros []. hal_holding. apply hal_free_then.
  { destruct locked; [|done]. apply hal_free_then; [apply incrementRefCount_free; by right|done]. }
  intros []. apply hal_free_then; [unfold write_now, deref; by hal_run|]. intros numToWrite.
  apply hal_free_then; [unfold push_pending, modify_pending; by hal_run|]. intros []. by hal_run.
Qed.

Lemma count_free leaf events n L : free leaf (countNumWakeupEvents events n) L.
Proof using Type.
  unfold countNumWakeupEvents. generalize 0%Z at 1. generalize (seq 0 (Z.to_nat n)). intros idx.
  induction idx as [|i idx IH]; intros k; cbn [count_loop]; [done|].
  unfold deref, wakes_up. hal_run; try done; apply IH.
Qed.

Lemma handlePendingWrites_ordered leaf n : ordered leaf (handlePendingWrites_thread n) [].
Proof using Type.
  assert (∀ n, free leaf (wait_pending n) [mEventQueueWriteMutex]) as Hwait.
  { intros k. induction k as [|k IH]; [done|]. cbn [wait_pending]. hal_run; [done|]. exact IH. }
  assert (∀ n size, free leaf (drop_wakeups n size) []) as Hdrop.
  { intros k size. unfold drop_wakeups. case_bool_decide; [|done].
    apply hal_free_then; [unfold front, deref; by hal_run|]. intros [b k'].
    case_bool_decide; [apply hal_free_then; [apply count_free|intros ?]|];
      apply decrementRefCount_free; by left. }
  assert (free leaf handlePendingWrite [mEventQueueWriteMutex]) as Hturn.
  { assert (∀ size n L, free leaf (pop_written size n) L) as Hpop
      by (intros size k L; unfold pop_written, front, deref, modify_pending; by hal_run).
    unfold handlePendingWrite, front, deref. hal_run; try done.
    eapply ordered_mono; [apply Hdrop|]. intros [] L ->. hal_run. apply Hpop. }
  assert (∀ n, free leaf (handlePendingWrites_loop n) [mEventQueueWriteMutex]) as Hloop.
  { intros k. induction k as [|k IH]; [done|]. cbn [handlePendingWrites_loop].
    apply hal_free_then; [done|]. intros s. destruct (mThreadsRun s); [|done].
    apply hal_free_then; [apply Hwait|]. intros [u|]; [|done]. apply hal_free_then; [done|]. intros s'.
    apply hal_free_then; [destruct (mThreadsRun s'); [apply Hturn|done]|]. intros []. exact IH. }
  unfold handlePendingWrites_thread. apply ordered_bind, ordered_call; [hal_rank_ok|]. intros [].
  hal_holding. apply hal_free_then; [apply Hloop|]. intros [u|]; [|done]. by hal_run.
Qed.

(** ** Clients *)
Lemma activate_free leaf h enabled L : free leaf (activate h enabled) L.
Proof using Type. unfold activate, getSubHalForSensorHandle. by hal_run. Qed.

Lemma setOperationMode_free leaf mode L : free leaf (setOperationMode mode) L.
Proof using Type.
  assert (∀ l i, free leaf (setOperationMode_loop mode l i) L) as Hloop.
  { intros l. induction l as [|h l IH]; intros i; cbn [setOperationMode_loop]; [done|].
    hal_run; [done|apply IH]. }
  unfold setOperationMode. apply hal_free_then; [done|]. intros s. apply hal_free_then; [apply Hloop|].
  intros [r i]. apply hal_free_then; [|done].
  case_bool_decide; [|done]. apply ordered_foreach. intros h. by hal_run.
Qed.

Lemma debug_free leaf (fds : option (list Z)) L : free leaf (debug fds) L.
Proof using Type.
  assert (∀ fd writeFd l stream, free leaf (debug_subHals fd writeFd l stream) L) as Hloop.
  { intros fd writeFd l. induction l as [|h l IH]; intros stream; cbn [debug_subHals]; [done|].
    hal_run. apply IH. }
  unfold debug. destruct fds as [[|fd fds]|]; [done| |done]. do 3 (apply hal_free_then; [done|intros ?]).
  apply hal_free_then; [unfold debug_front, front, deref; by hal_run|]. intros frontLine.
  apply hal_free_then; [done|]. intros s. apply hal_free_then; [apply Hloop|]. intros stream. by hal_run.
Qed.

#[local] Abbreviation serve := (serve getSensorInfo asserts convertToNewEvent convertToOldEvent).

Lemma serve_free leaf r : free leaf (serve r) [].
Proof using Type.
  assert (∀ B (p : hal B), free leaf p [] → free leaf (ignore p) []) as Hignore
    by (intros B p Hp; by apply hal_free_then).
  destruct r; cbn [HalProxyThreads.serve]; try apply Hignore.
  - unfold postEvents_thread, postEvents_with, alog_assert. apply hal_free_then; [done|]. intros s.
    destruct (_ || _); [done|]. destruct (processEvents _ _ _) as [es n].
    apply hal_free_then; [by hal_run|]. intros []. apply post_free.
  - apply incrementRefCount_free. by left.
  - apply decrementRefCount_free. by left.
  - unfold onDynamicSensorsConnected. by hal_run.
  - unfold onDynamicSensorsDisconnected. by hal_run.
  - unfold getSensorsList_2_1. by hal_run.
  - apply setOperationMode_free.
  - apply activate_free.
  - unfold HalProxy.batch, getSubHalForSensorHandle. by hal_run.
  - unfold flush, getSubHalForSensorHandle. by hal_run.
  - unfold injectSensorData_2_1, injectSensorData, getSubHalForSensorHandle. by hal_run.
  - unfold registerDirectChannel. by hal_run.
  - unfold unregisterDirectChannel. by hal_run.
  - unfold configDirectReport. by hal_run.
  - apply debug_free.
Qed.

Lemma stopThreads_free : free false stopThreads [].
Proof using Type.
  assert (∀ m : hal_mutex, m ∈ [] → (hal_rank m < 0)%nat) as Hnone by by intros m ?%not_elem_of_nil.
  unfold stopThreads. by hal_run.
Qed.

Lemma hal_thread_ordered writer waker stopper posts t p :
  hal_thread writer waker stopper getSensorInfo asserts convertToNewEvent convertToOldEvent posts t p →
  ordered false p [].
Proof using Type.
  assert (∀ rs, free false (foreach serve rs) []) as Hall
    by (intros rs; apply ordered_foreach; intros r; apply serve_free).
  destruct 1 as [n|n|t rs _|rs _].
  - apply handlePendingWrites_ordered.
  - apply handleWakelocks_ordered.
  - by apply hal_free_then; [apply Hall|].
  - apply hal_free_then; [apply Hall|]. intros []. by apply hal_free_then; [apply stopThreads_free|].
Qed.

Lemma hal_spawn_ordered X (c : halE SubHal X) body answer failed :
  sync_of c = Some (Spawn body answer failed) → ordered true body [].
Proof using Type.
  intros Hs. destruct c; try discriminate Hs; injection Hs as <-.
  - apply handlePendingWrites_ordered.
  - apply handleWakelocks_ordered.
Qed.

Variables (s0 : HalProxy SubHal) (writer waker stopper : nat) (posts : nat → list HalProxySystem.batch).
Context {W : Type} {H : Handler (halE SubHal) W}.

End progress.
