(* ===== verification/HalProxyRaces.v ===== *)
(** Interleavings of the sensors HAL's threads ([src/sensors/HalProxy.cpp]): one in
    which all goes well, and those that the mutexes do not exclude: the end of
    the proxy that no worker notices, and an [initialize] during a post.  Each is
    a run of the functions themselves, found by its schedule. *)
From S2P Require Import Prelude Effects SensorTypes SensorHandle HalProxyState HalProxy HalProxyFacts Wakelock WakelockFacts EventQueue EventQueueFacts HalProxyInit HalProxyCallback HalProxySystem HalProxyThreads HalProxyProtocol HalProxyThreadsSafe HalProxyThreadsSystem HalProxyThreadsProgress Threads ThreadsLogic ThreadsProgress.
From stdpp Require Import options.

#[local] Existing Instances aosp_sensors aosp_sensors_laws.
#[local] Existing Instances hal_demo_order hal_demo_env hal_demo_sync.

#[local] Abbreviation hal_config := (config (halE nat) hal_mutex (HalProxy nat) Z (option unit)).


(** Neither notifies the thread of pending writes nor is it waking up. *)
Definition lets_writer_sleep (x : nat * event (halE nat) (HalProxy nat)) : bool :=
  match x.2 with
  | Asked (Entry c _) =>
      match c with NotifyEventQueueWriteCV | WaitEventQueueWriteCV => false | _ => true end
  | _ => true
  end.

Lemma lets_sleep post : forallb lets_writer_sleep post = true →
  undisturbed_since WaitEventQueueWriteCV NotifyEventQueueWriteCV post.
Proof.
  rewrite forallb_forall. intros Hall u e Hin%list_elem_of_In%Hall.
  by split; intros x ->.
Qed.

(** The thread of pending writes has found nothing to write and no reason to end;
    before it sleeps, the proxy ends: the flag is cleared and the notification
    given without the mutex, while nobody sleeps yet. *)
Definition stopped_too_early : hal_config :=
  finish (turns 0 3 ++ turns 3 9 ++ turns 0 1 ++ turns 1 7 ++ turns 2 1) hal_system.

(** C26: the end of the proxy can go unnoticed: [stopThreads] clears [mThreadsRun]
    and notifies without [mEventQueueWriteMutex], so there is an interleaving
    after which the thread of pending writes sleeps, nobody has notified it since
    it went to sleep, the thread that ends the proxy waits for its end, and no
    other thread can move: only a wake-up for no reason would end the wait. *)
Theorem stopThreads_loses_wakeup :
  reaches hal_system stopped_too_early ∧
  (∃ pre post, trace (now stopped_too_early) = pre ++ (0%nat, Slept WaitEventQueueWriteCV) :: post ∧
    undisturbed_since WaitEventQueueWriteCV NotifyEventQueueWriteCV post) ∧
  mThreadsRun (fields (now stopped_too_early)) = false ∧
  (∃ k, pool stopped_too_early !! 3%nat = Some (Running (Call (JoinPendingWritesThread 0) k))) ∧
  ∀ t b, t ≠ 0%nat → step t b stopped_too_early = None.
Proof.
  split; [apply reaches_finish; by vm_compute|].
  split; [|split; [by vm_compute|split; [by eexists; vm_compute|]]].
  - assert (trace (now stopped_too_early) !! 9%nat = Some (0%nat, Slept WaitEventQueueWriteCV)) as Hs
      by by vm_compute.
    assert (forallb lets_writer_sleep (drop 10 (trace (now stopped_too_early))) = true) as Hl
      by by vm_compute.
    eexists _, _. split; [exact (eq_sym (take_drop_middle _ _ _ Hs))|]. by apply lets_sleep.
  - intros t b Ht. destruct t as [|t]; [done|]. clear Ht.
    do 3 (destruct t as [|t]; [vm_compute; reflexivity|]).
    unfold step. by rewrite (lookup_ge_None_2 (pool stopped_too_early)) by (vm_compute; lia).
Qed.

(** ** A second [initialize] during a post *)

(** The framework initializes the proxy again while a sub-HAL posts. *)
Definition race_system : hal_config :=
  start [handlePendingWrites_thread 9; handleWakelocks_thread 9;
         client_thread wakeup_info true id id [PostEvents 1 demo_batch true];
         ignore (initializeCommon_thread (Some 11) (Some 12) (Some 5)) ;; mret (Some ())] hal0 0.

(** The post has seen that the threads run; the old workers end and are joined, and
    the sensors are disabled. *)
Definition workers_joined : list (nat * bool) :=
  turns 2 1 ++ turns 3 9 ++ turns 0 3 ++ turns 1 7 ++ turns 3 14.

(** [initialize] clears the queue and its size between the push of a post and its
    count; both go on to their ends. *)
Definition cleared_meanwhile : hal_config :=
  finish (workers_joined ++ turns 2 8 ++ turns 3 2 ++ turns 2 4 ++ turns 3 21) race_system.

(** [initialize] replaces the queue after a post has asked it for its room. *)
Definition replaced_meanwhile : hal_config :=
  finish (workers_joined ++ turns 2 4 ++ turns 3 6 ++ turns 2 1) race_system.

(** A second [initialize] races with a post: it clears the pending queue and
    replaces the message queues without [mEventQueueWriteMutex], so there are
    interleavings after which (1) all is done, the mutex is free, the queue is
    empty, and yet its recorded size is 1, while the event is neither written nor
    waiting; and (2) the post writes to the old message queue, which
    [initialize] has just destroyed. *)
Theorem initialize_races_with_post :
  (reaches race_system cleared_meanwhile ∧
   pool cleared_meanwhile !! 2%nat = Some (Running (Ret (Some ()))) ∧
   pool cleared_meanwhile !! 3%nat = Some (Running (Ret (Some ()))) ∧
   held (now cleared_meanwhile) mEventQueueWriteMutex = None ∧
   queue_of (fields (now cleared_meanwhile)) = [] ∧
   mSizePendingWriteEventsQueue (pending (fields (now cleared_meanwhile))) = 1 ∧
   delivered (asked (trace (now cleared_meanwhile))) = tag_event 1 ∘ demo_event <$> [1; 2]) ∧
  (reaches race_system replaced_meanwhile ∧
   last (trace (now replaced_meanwhile)) =
     Some (2%nat, Asked (Entry (Eq_write 1 (tag_event 1 ∘ demo_event <$> [1; 2])) true)) ∧
   mEventQueue (queues (fields (now replaced_meanwhile))) = Some 11).
Proof.
  split; split_and!; try (apply reaches_finish; by vm_compute); by vm_compute.
Qed.

(** ** A dump while the queue is emptied *)

(** The framework asks for a dump while the thread of pending writes is at work. *)
Definition dump_system : hal_config :=
  start [handlePendingWrites_thread 9; handleWakelocks_thread 9;
         client_thread wakeup_info true id id [PostEvents 1 demo_batch true];
         client_thread wakeup_info true id id [Debug (Some [7])]] hal0 0.

(** The dump has seen that the queue is not empty; then its only batch is written
    and popped. *)
Definition popped_meanwhile : hal_config :=
  finish (turns 2 21 ++ turns 3 4 ++ turns 0 15 ++ turns 3 1) dump_system.

(** A dump races with the thread of pending writes: [debug] tests the pending
    queue and reads its front without [mEventQueueWriteMutex], so there is an
    interleaving in which the queue becomes empty in between, and the dump reads
    the front of an empty queue, which is undefined behaviour. *)
Theorem debug_races_with_writer :
  reaches dump_system popped_meanwhile ∧
  queue_of (fields (now popped_meanwhile)) = [] ∧
  pool popped_meanwhile !! 3%nat = Some (Running UB).
Proof. split_and!; [apply reaches_finish|..]; by vm_compute. Qed.
