(* ===== verification/HalProxyDynamic.v ===== *)
(** The table of dynamic sensors among the threads of the sensors HAL proxy
    ([HalProxyThreads]): reports of sub-HALs ([onDynamicSensorsConnected],
    [onDynamicSensorsDisconnected] of [src/sensors/HalProxy.cpp]) are atomic, and
    sub-HALs do not touch each other's entries, in every interleaving. *)
From S2P Require Import Prelude Effects SensorTypes SensorHandle HalProxyState HalProxy HalProxyFacts Wakelock EventQueue HalProxyInit HalProxyCallback HalProxySystem HalProxyThreads HalProxyThreadsSystem Threads ThreadsAtomic.
From stdpp Require Import options.
#[local] Set Default Proof Using "Type*".

(** * Reports, as operations on the table *)
Inductive report :=
| Connected (sensors : list SensorInfo) (subHalIndex : Z)
| Disconnected (handles : list Z) (subHalIndex : Z).

Definition reporter (o : report) : Z :=
  match o with Connected _ i | Disconnected _ i => i end.

Abbreviation table := (gmap Z SensorInfo).
(** What the framework is told: sensors that have come, or handles that have gone. *)
Abbreviation news := (list SensorInfo + list Z)%type.

Section dynamic.
Context {SubHal : Type} {SubHal_eq : EqDecision SubHal} {SC : SensorConsts} (fuel : nat).
Context {MO : MapOrder Z SensorInfo}.
Let sy : Sync (halE SubHal) hal_mutex (HalProxy SubHal) (option unit) := hal_sync fuel.
#[local] Existing Instance sy.
Variable getSensorInfo : Z → SensorInfo.
Variable asserts : bool.
Variables convertToNewEvent convertToOldEvent : Event → Event.

#[local] Abbreviation hal A := (prog (halE SubHal) (HalProxy SubHal) A).

(** A report as the code does it when it is alone. *)
Definition apply_report (o : report) (d : table) : table * news :=
  match o with
  | Connected sensors i =>
      let '(d', l) := foldl (connect_one i) (d, []) sensors in (d', inl l)
  | Disconnected handles i =>
      let '(d', l) := foldl (disconnect_one i) (d, []) handles in (d', inr l)
  end.

Definition tells_news X (c : halE SubHal X) : option news :=
  match c with
  | Cb_onDynamicSensorsConnected _ sensors => Some (inl sensors)
  | Cb_onDynamicSensorsDisconnected _ handles => Some (inr handles)
  | _ => None
  end.

Definition reports_of (r : request) : list report :=
  match r with
  | DynamicSensorsConnected sensors i => [Connected sensors i]
  | DynamicSensorsDisconnected handles i => [Disconnected handles i]
  | _ => []
  end.

(** What runs in a thread, and the requests that it serves. *)
#[local] Abbreviation serve := (serve getSensorInfo asserts convertToNewEvent convertToOldEvent).

Inductive hal_program : list request → hal (option unit) → Prop :=
| hp_writer n : hal_program [] (handlePendingWrites_thread n)
| hp_waker n : hal_program [] (handleWakelocks_thread n)
| hp_client rs : hal_program rs
    (client_thread getSensorInfo asserts convertToNewEvent convertToOldEvent rs)
| hp_stopper rs : hal_program rs
    (stopper_thread getSensorInfo asserts convertToNewEvent convertToOldEvent rs).

(** ** The programs *)
#[local] Abbreviation aloof := (aloof mDynamicSensorsMutex mDynamicSensors apply_report tells_news).
#[local] Abbreviation does_all := (does_all mDynamicSensorsMutex mDynamicSensors apply_report tells_news).

#[local] Ltac aloof_step :=
  lazymatch goal with
  | |- aloof (mbind _ _) => apply aloof_bind; [|intros ?]
  | |- aloof (call _) => by apply aloof_call
  | |- aloof get => apply aloof_get
  | |- aloof (modify _) => by apply aloof_modify
  | |- aloof (modify_wakelock _) => by apply aloof_modify
  | |- aloof (modify_pending _) => by apply aloof_modify
  | |- aloof (mret _) => apply aloof_ret
  | |- aloof (deref ?p) => destruct p; [apply aloof_ret|apply aloof_undef]
  | |- aloof undef => apply aloof_undef
  | |- aloof (foreach _ _) => apply aloof_foreach; intros ?
  | |- aloof (ignore _) => unfold ignore
  | |- aloof (if ?b then _ else _) => destruct b eqn:?
  | |- aloof (match ?x with _ => _ end) => destruct x eqn:?
  end; cbn beta iota zeta.
#[local] Ltac aloof_run := repeat aloof_step.

(** The reference count. *)
Lemma decrement_aloof nested delta timeoutStart : aloof (decrementRefCount_thread nested delta timeoutStart).
Proof using Type.
  unfold decrementRefCount_thread, under_wakelock_mutex, decrement_locked. aloof_run.
Qed.

Lemma increment_aloof delta : aloof (incrementRefCount_thread delta).
Proof using Type.
  unfold incrementRefCount_thread, under_wakelock_mutex, increment_locked. aloof_run.
Qed.

Lemma reset_aloof : aloof (resetSharedWakelock_thread true).
Proof using Type.
  unfold resetSharedWakelock_thread, under_wakelock_mutex.
  aloof_run; apply decrement_aloof.
Qed.

Lemma handleWakelocks_aloof n : aloof (handleWakelocks_thread n).
Proof using Type.
  assert (∀ n, aloof (wait_wakelock n)) as Hwait.
  { intros k. induction k as [|k IH]; cbn [wait_wakelock]; aloof_run; apply IH. }
  assert (∀ n, aloof (handleWakelocks_loop n)) as Hloop.
  { intros k. induction k as [|k IH]; cbn [handleWakelocks_loop]; [aloof_run|].
    unfold handleWakelock, sharedWakelockDidTimeout.
    aloof_run; try apply Hwait; try apply IH; try apply reset_aloof; apply decrement_aloof. }
  unfold handleWakelocks_thread. aloof_run; [apply Hloop|apply reset_aloof].
Qed.

(** The event queue. *)
Lemma post_aloof events n locked : aloof (postEventsToMessageQueue_thread events n locked).
Proof using Type.
  unfold postEventsToMessageQueue_thread, write_now, push_pending. aloof_run; apply increment_aloof.
Qed.

Lemma drop_wakeups_aloof n size : aloof (drop_wakeups n size).
Proof using Type.
  assert (∀ events idx n, aloof (count_loop events idx n)) as Hcount.
  { intros events idx. induction idx as [|i idx IH]; intros k; cbn [count_loop]; [aloof_run|].
    unfold wakes_up. aloof_run; apply IH. }
  unfold drop_wakeups, front, countNumWakeupEvents.
  aloof_run; first [apply Hcount|apply decrement_aloof].
Qed.

Lemma handlePendingWrites_aloof n : aloof (handlePendingWrites_thread n).
Proof using Type.
  assert (∀ n, aloof (wait_pending n)) as Hwait.
  { intros k. induction k as [|k IH]; cbn [wait_pending]; aloof_run; apply IH. }
  assert (∀ n, aloof (handlePendingWrites_loop n)) as Hloop.
  { intros k. induction k as [|k IH]; cbn [handlePendingWrites_loop]; [aloof_run|].
    unfold handlePendingWrite, pop_written, front.
    aloof_run; first [apply Hwait|apply IH|apply drop_wakeups_aloof]. }
  unfold handlePendingWrites_thread. aloof_run. apply Hloop.
Qed.

(** The framework's calls. *)
Lemma activate_aloof h enabled : aloof (activate h enabled).
Proof using Type. unfold activate, getSubHalForSensorHandle. aloof_run. Qed.

Lemma setOperationMode_aloof mode : aloof (setOperationMode mode).
Proof using Type.
  assert (∀ l i, aloof (setOperationMode_loop mode l i)) as Hloop.
  { intros l. induction l as [|h l IH]; intros i; cbn [setOperationMode_loop]; aloof_run; apply IH. }
  unfold setOperationMode. aloof_run. apply Hloop.
Qed.

Lemma debug_aloof (fds : option (list Z)) : aloof (debug fds).
Proof using Type.
  assert (∀ fd writeFd l stream, aloof (debug_subHals fd writeFd l stream)) as Hloop.
  { intros fd writeFd l. induction l as [|h l IH]; intros stream; cbn [debug_subHals]; aloof_run.
    apply IH. }
  unfold debug, debug_front, front. aloof_run; apply Hloop.
Qed.

Lemma stopThreads_aloof : aloof stopThreads.
Proof using Type. unfold stopThreads. aloof_run. Qed.

(** A report: the table is changed in one critical section, and the framework is
    told of it afterwards. *)
Lemma report_does {B} (o : report) (f : table → table * B) (inj : B → news) (c : Z → B → halE SubHal unit) :
  (∀ d, apply_report o d = let '(d', x) := f d in (d', inj x)) →
  (∀ cb x, crosses mDynamicSensorsMutex (c cb x) = Cross_not ∧ tells_news _ (c cb x) = Some (inj x)) →
  does_all (
    call LockDynamicSensors ;;
    s ← get;
    let '(dynamic, x) := f (mDynamicSensors s) in
    modify (set_mDynamicSensors dynamic) ;;
    call UnlockDynamicSensors ;;
    s ← get;
    match mDynamicSensorsCallback s with
    | Some cb => call (c cb x)
    | None => undef
    end) [o].
Proof using Type.
  intros Hf Hc rest. apply performs_enter; [done|done|]. intros _ v. apply performs_get.
  intros s <-. specialize (Hf (mDynamicSensors s)). destruct (f (mDynamicSensors s)) as [d x].
  apply (performs_write _ _ _ _ _ _ _ _ d); [done|].
  eapply performs_leave; [done|done|exact Hf|]. intros _. apply performs_get. intros s' _.
  destruct (mDynamicSensorsCallback s') as [cb|]; [|done].
  destruct (Hc cb x) as [Hcross Htell]. by eapply performs_tell.
Qed.

Lemma serve_does r : does_all (serve r) (reports_of r).
Proof using Type.
  destruct r; cbn [HalProxyThreads.serve reports_of];
    try (apply does_all_aloof; unfold ignore; aloof_run).
  - unfold postEvents_thread, postEvents_with, alog_assert. aloof_run; apply post_aloof.
  - apply increment_aloof.
  - apply decrement_aloof.
  - apply (report_does (Connected sensors subHalIndex)
      (λ d, foldl (connect_one subHalIndex) (d, []) sensors) inl Cb_onDynamicSensorsConnected); done.
  - apply (report_does (Disconnected handles subHalIndex)
      (λ d, foldl (disconnect_one subHalIndex) (d, []) handles) inr Cb_onDynamicSensorsDisconnected); done.
  - unfold getSensorsList_2_1. aloof_run.
  - apply setOperationMode_aloof.
  - apply activate_aloof.
  - unfold HalProxy.batch, getSubHalForSensorHandle. aloof_run.
  - unfold flush, getSubHalForSensorHandle. aloof_run.
  - unfold injectSensorData_2_1, injectSensorData, getSubHalForSensorHandle. aloof_run.
  - unfold registerDirectChannel. aloof_run.
  - unfold unregisterDirectChannel. aloof_run.
  - unfold configDirectReport. aloof_run.
  - apply debug_aloof.
Qed.

#[local] Abbreviation performs p ops :=
  (performs mDynamicSensorsMutex mDynamicSensors apply_report tells_news p Outside [] ops
    (at_end (.= Some ()))).

Lemma aloof_performs (p : hal (option unit)) : aloof p → performs p [].
Proof using Type. intros Hp. eapply performs_mono; [apply Hp|]. by intros a md due ops Hend _. Qed.

(** A thread does the reports of its requests, in their order. *)
Lemma program_performs rs p :
  hal_program rs p → performs p (rs ≫= reports_of).
Proof using Type.
  assert (∀ rs' (q : hal (option unit)), aloof q →
    performs (foreach serve rs' ;; q) (rs' ≫= reports_of)) as Hserve.
  { intros rs' q Hq. apply performs_bind. rewrite <- (app_nil_r (rs' ≫= _)).
    eapply performs_mono; [apply (does_all_foreach _ _ _ _ _ reports_of), serve_does|].
    intros [] md due ops (-> & -> & ->). by apply aloof_performs. }
  destruct 1.
  - apply aloof_performs, handlePendingWrites_aloof.
  - apply aloof_performs, handleWakelocks_aloof.
  - apply Hserve, aloof_ret.
  - apply Hserve. apply aloof_bind; [apply stopThreads_aloof|]. intros []. apply aloof_ret.
Qed.

Lemma spawn_performs X (c : halE SubHal X) body answer failed :
  sync_of c = Some (Spawn body answer failed) → performs body [].
Proof using Type.
  intros Hs. destruct c; try discriminate Hs; injection Hs as <-.
  - apply aloof_performs, handlePendingWrites_aloof.
  - apply aloof_performs, handleWakelocks_aloof.
Qed.

(** * All threads together *)
Context {W : Type} {H : Handler (halE SubHal) W}.

#[local] Abbreviation after d order := (outcome apply_report d order).

(** The reports so far, in their order. *)
Lemma reports_linear asks ps s0 (w : W) c :
  (∀ t p, ps !! t = Some p → hal_program (asks t) p) → (∀ t, (length ps ≤ t)%nat → asks t = []) →
  reaches (start ps s0 w) c →
  ∃ order, linearized mDynamicSensorsMutex mDynamicSensors apply_report tells_news
    (λ t, asks t ≫= reports_of) (.= Some ()) (mDynamicSensors s0) order c.
Proof.
  intros Hps Hnone Hc.
  eapply (reaches_linear mDynamicSensorsMutex mDynamicSensors apply_report tells_news);
    [apply spawn_performs|done| | |exact Hc].
  - intros t p Hp. by apply program_performs, Hps.
  - intros t Ht. by rewrite Hnone.
Qed.

(** ** The entries of one sub-HAL *)
Context {SL : SensorLaws}.

(** What a report makes of an entry depends on that entry only. *)
Lemma report_local o (d d' : table) k :
  d !! k = d' !! k → (apply_report o d).1 !! k = (apply_report o d').1 !! k.
Proof using Type.
  assert (∀ sensors i acc acc' (d d' : table), d !! k = d' !! k →
    (foldl (connect_one i) (d, acc) sensors).1 !! k = (foldl (connect_one i) (d', acc') sensors).1 !! k)
    as Hc.
  { intros sensors i. induction sensors as [|si l IH]; intros acc acc' e e' He; [done|]. simpl.
    destruct (negb _); apply IH; [done|]. by rewrite !lookup_insert, He. }
  assert (∀ handles i acc acc' (d d' : table), d !! k = d' !! k →
    (foldl (disconnect_one i) (d, acc) handles).1 !! k =
    (foldl (disconnect_one i) (d', acc') handles).1 !! k) as Hd.
  { intros handles i. induction handles as [|h l IH]; intros acc acc' e e' He; [done|]. simpl.
    destruct (negb _); [by apply IH|]. destruct (decide (setSubHalIndex h i = k)) as [Hk|Hk].
    - rewrite Hk, He. destruct (e' !! k) eqn:He'; apply IH; [by rewrite !lookup_delete_eq|congruence].
    - destruct (e !! setSubHalIndex h i), (e' !! setSubHalIndex h i); apply IH;
        by rewrite ?lookup_delete_ne. }
  intros He. destruct o as [sensors i|handles i]; simpl.
  - specialize (Hc sensors i [] [] d d' He). by destruct (foldl _ _ _), (foldl _ _ _).
  - specialize (Hd handles i [] [] d d' He). by destruct (foldl _ _ _), (foldl _ _ _).
Qed.

(** A report of another sub-HAL makes nothing of it. *)
Lemma report_other o (d : table) h i :
  is_subhal_handle h → byte_sint (reporter o) ≠ byte_sint i →
  (apply_report o d).1 !! setSubHalIndex h i = d !! setSubHalIndex h i.
Proof.
  intros Hh Hi.
  assert (∀ h', subHalIndexIsClear h' = true → setSubHalIndex h' (reporter o) ≠ setSubHalIndex h i)
    as Hne.
  { intros h' Hh'%subHalIndexIsClear_iff Heq. by apply setSubHalIndex_inj in Heq as [_ ?]. }
  destruct o as [sensors j|handles j]; simpl in *.
  - assert (∀ acc d, (foldl (connect_one j) (d, acc) sensors).1 !! setSubHalIndex h i =
      d !! setSubHalIndex h i) as Hfold.
    { induction sensors as [|si l IH]; intros acc e; [done|]. simpl.
      destruct (subHalIndexIsClear _) eqn:Hc; simpl; [|apply IH].
      rewrite IH. apply lookup_insert_ne. by apply Hne. }
    specialize (Hfold [] d). by destruct (foldl _ _ _).
  - assert (∀ acc d, (foldl (disconnect_one j) (d, acc) handles).1 !! setSubHalIndex h i =
      d !! setSubHalIndex h i) as Hfold.
    { induction handles as [|h' l IH]; intros acc e; [done|]. simpl.
      destruct (subHalIndexIsClear h') eqn:Hc; simpl; [|apply IH].
      destruct (e !! setSubHalIndex h' j); [|apply IH]. rewrite IH. apply lookup_delete_ne. by apply Hne. }
    specialize (Hfold [] d). by destruct (foldl _ _ _).
Qed.

(** The reports of one thread, alone. *)
Definition alone (t : nat) (l : list report) : list (nat * report) := pair t <$> l.

Lemma outcome_own order (d d' : table) t h i :
  is_subhal_handle h → d !! setSubHalIndex h i = d' !! setSubHalIndex h i →
  (∀ u o, (u, o) ∈ order → u ≠ t → byte_sint (reporter o) ≠ byte_sint i) →
  after d order !! setSubHalIndex h i = after d' (alone t (ops_of t order)) !! setSubHalIndex h i.
Proof.
  intros Hh. revert d d'. induction order as [|[u o] order IH]; intros d d' Hd Ho; [done|].
  assert (∀ u o, (u, o) ∈ order → u ≠ t → byte_sint (reporter o) ≠ byte_sint i) as Ho'
    by (intros u' o' Hin; apply (Ho u'); by right).
  unfold ops_of. rewrite filter_cons. simpl. destruct (decide (u = t)) as [->|Hu].
  - apply IH; [by apply report_local|done].
  - apply IH; [|done]. rewrite report_other; [done|done|]. apply (Ho u); [left|done].
Qed.

(** * What holds of all threads *)
(** C7: reports of dynamic sensors are atomic: however the threads are interleaved,
    whatever each of them is asked for, and whatever else they do, there is one
    order of the reports made so far, which keeps the order of each thread, such
    that: whenever the mutex of the table is free, the table is what the reports
    make of the first table, one after the other, each as if it were alone; each
    thread has told the framework of the results that its reports have in this
    order, one by one; and of all of them, when it has ended. *)
Theorem dynamic_reports_atomic asks ps s0 (w : W) c :
  (∀ t p, ps !! t = Some p → hal_program (asks t) p) → (∀ t, (length ps ≤ t)%nat → asks t = []) →
  reaches (start ps s0 w) c →
  ∃ order,
    (∀ t, ops_of t order `prefix_of` (asks t ≫= reports_of) ∧
      told tells_news t (trace (now c)) `prefix_of` results apply_report t (mDynamicSensors s0) order) ∧
    (held (now c) mDynamicSensorsMutex = None →
      mDynamicSensors (fields (now c)) = after (mDynamicSensors s0) order) ∧
    (∀ t, pool c !! t = Some (Running (Ret (Some ()))) →
      ops_of t order = (asks t ≫= reports_of) ∧
      told tells_news t (trace (now c)) = results apply_report t (mDynamicSensors s0) order).
Proof.
  intros Hps Hnone Hc. destruct (reports_linear asks ps s0 w c Hps Hnone Hc) as (order & Hall & Hfree & Hend).
  exists order. split_and!; [done|done|]. intros t Ht. by apply (Hend t (Some ())).
Qed.

(** C8: sub-HALs cannot disturb each other's dynamic sensors: if one thread makes all
    reports with the index [i], then in every interleaving, whenever the mutex is
    free, every entry whose handle has that index is what a first part of that
    thread's own reports makes of the first table, without any other thread; and
    what all of them make of it, when the thread has ended. *)
Theorem dynamic_sensors_isolated asks ps s0 (w : W) c t i :
  (∀ t p, ps !! t = Some p → hal_program (asks t) p) → (∀ t, (length ps ≤ t)%nat → asks t = []) →
  (∀ u o, u ≠ t → o ∈ asks u ≫= reports_of → byte_sint (reporter o) ≠ byte_sint i) →
  reaches (start ps s0 w) c → held (now c) mDynamicSensorsMutex = None →
  ∃ done_so_far, done_so_far `prefix_of` (asks t ≫= reports_of) ∧
    (pool c !! t = Some (Running (Ret (Some ()))) → done_so_far = (asks t ≫= reports_of)) ∧
    ∀ h, is_subhal_handle h →
      mDynamicSensors (fields (now c)) !! setSubHalIndex h i =
      after (mDynamicSensors s0) (alone t done_so_far) !! setSubHalIndex h i.
Proof.
  intros Hps Hnone Hown Hc Hm. destruct (reports_linear asks ps s0 w c Hps Hnone Hc) as (order & Hall & Hfree & Hend).
  exists (ops_of t order). split_and!; [apply Hall|by intros Ht; apply (Hend t (Some ()))|].
  intros h Hh. rewrite (Hfree Hm). apply outcome_own; [done|done|].
  intros u o Hin Hu. apply (Hown u o Hu). destruct (Hall u) as [[rest ->] _].
  apply elem_of_app. left. apply list_elem_of_fmap. exists (u, o). split; [done|].
  by apply list_elem_of_filter.
Qed.
End dynamic.

(** * Two sub-HALs: the first connects two sensors, the second one with the same
    handle, and tries to disconnect both of the first *)
#[local] Existing Instances aosp_sensors aosp_sensors_laws hal_demo_order hal_demo_env hal_demo_sync.

Definition dynamic_asks (t : nat) : list request :=
  match t with
  | 0%nat => [DynamicSensorsConnected [dyn_sensor 5; dyn_sensor 6] 1]
  | 1%nat => [DynamicSensorsConnected [dyn_sensor 5] 2; DynamicSensorsDisconnected [5; 6] 2]
  | _ => []
  end.
Definition dynamic_pool : list (prog (halE nat) (HalProxy nat) (option unit)) :=
  client_thread wakeup_info true id id <$> [dynamic_asks 0; dynamic_asks 1].
Definition dynamic_run : config (halE nat) hal_mutex (HalProxy nat) Z (option unit) :=
  finish (turns 0 4 ++ turns 1 12 ++ turns 0 2) (start dynamic_pool hal0 0).

Lemma dynamic_programs t p :
  dynamic_pool !! t = Some p → hal_program wakeup_info true id id (dynamic_asks t) p.
Proof. destruct t as [|[|t]]; intros [= <-]; constructor. Qed.

Lemma dynamic_reaches : reaches (start dynamic_pool hal0 0) dynamic_run.
Proof. apply reaches_finish; by vm_compute. Qed.

Lemma dynamic_reports_atomic_witness :
  ∃ order, ops_of 1 order = [Connected [dyn_sensor 5] 2; Disconnected [5; 6] 2] ∧
    results apply_report 1 ∅ order =
      [inl [tag 2 (dyn_sensor 5)]; inr [setSubHalIndex 5 2]].
Proof.
  destruct (dynamic_reports_atomic 9 wakeup_info true id id dynamic_asks dynamic_pool hal0 0
    dynamic_run dynamic_programs) as (order & _ & _ & Hend).
  - by intros [|[|t]] Ht; [simpl in Ht; lia..|].
  - apply dynamic_reaches.
  - exists order. destruct (Hend 1%nat) as [Hops Hnews]; [by vm_compute|]. split; [exact Hops|].
    etransitivity; [symmetry; exact Hnews|]. by vm_compute.
Defined.

Lemma dynamic_sensors_isolated_witness :
  mDynamicSensors (fields (now dynamic_run)) !! setSubHalIndex 5 1 = Some (tag 1 (dyn_sensor 5)).
Proof.
  destruct (dynamic_sensors_isolated 9 wakeup_info true id id dynamic_asks dynamic_pool hal0 0
    dynamic_run 0%nat 1 dynamic_programs) as (reports & _ & Hall & Hentry).
  - by intros [|[|t]] Ht; [simpl in Ht; lia..|].
  - intros [|[|u]] o Hu Ho; [done| |by apply not_elem_of_nil in Ho].
    apply elem_of_cons in Ho as [->|[->|Ho%not_elem_of_nil]%elem_of_cons]; done.
  - apply dynamic_reaches.
  - by vm_compute.
  - rewrite (Hentry 5); [|by vm_compute]. rewrite Hall; by vm_compute.
Defined.
