(* ===== verification/PowerMode.v ===== *)
(** The power HAL's device-specific mode ([src/power/power-mode.cpp]):
    double-tap-to-wake, set by an input event written to the touchscreen.

    The file system is the environment.  A directory stream is the finite list
    of its entries, each with its name and whether it is a character device. *)
From S2P Require Import Prelude Effects.
From stdpp Require Import options.
#[local] Set Default Proof Using "Type*".

Inductive Mode := DOUBLE_TAP_TO_WAKE | OtherPowerMode (v : Z).

(** The fields of [struct input_event] that are written. *)
Record input_event := InputEvent { ev_type : Z; ev_code : Z; ev_value : Z }.

(** [linux/input.h]. *)
Definition EV_SYN : Z := 0.
Definition SYN_CONFIG : Z := 1.

Inductive inputE : Type → Type :=
| Opendir (path : string) : inputE (option (list (bool * string)))
| Closedir : inputE unit
| Open (path : string) : inputE Z
(* the result of EVIOCGNAME and the C string in the buffer *)
| Ioctl_name (fd : Z) : inputE (Z * string)
| Write_event (fd : Z) (ev : input_event) : inputE Z
| Close (fd : Z) : inputE unit.

Definition kInputEventWakeupModeOff : Z := 4.
Definition kInputEventWakeupModeOn : Z := 5.

Definition is_touchscreen (name : string) : bool :=
  bool_decide (name = "fts_ts") || bool_decide (name = "NVTCapacitiveTouchScreen").

Section power.
Context {W : Type} {H : Handler inputE W}.

#[local] Abbreviation io A := (prog inputE unit A).

(** One entry of the directory: the file descriptor, when it is a touchscreen. *)
Definition try_entry (ent : bool * string) : io (option Z) :=
  let '(is_chr, d_name) := ent in
  if is_chr : bool then
    fd ← call (Open ("/dev/input/" +:+ d_name));
    '(n, name) ← call (Ioctl_name fd);
    if bool_decide (0 < n) && is_touchscreen name then mret (Some fd)
    else call (Close fd) ;; mret None
  else mret None.

Definition open_ts_input : io Z :=
  dir ← call (Opendir "/dev/input");
  match dir with
  | None => mret (-1)
  | Some entries =>
      fd ← foreach_until try_entry entries;
      call Closedir ;;
      mret (default (-1) fd)
  end.

(** [Some b]: [*_aidl_return] is set to [b] and the answer is [true]. *)
Definition isDeviceSpecificModeSupported (type : Mode) : option bool :=
  match type with DOUBLE_TAP_TO_WAKE => Some true | OtherPowerMode _ => None end.

Definition setDeviceSpecificMode (type : Mode) (enabled : bool) : io bool :=
  match type with
  | DOUBLE_TAP_TO_WAKE =>
      fd ← open_ts_input;
      if bool_decide (fd = -1) then mret false
      else
        let ev := InputEvent EV_SYN SYN_CONFIG
          (if enabled then kInputEventWakeupModeOn else kInputEventWakeupModeOff) in
        _ ← call (Write_event fd ev);
        call (Close fd) ;;
        mret true
  | OtherPowerMode _ => mret false
  end.

(** * What the log says *)

(** Opens less closes of a descriptor. *)
Definition balance1 (fd : Z) (e : entry inputE) : Z :=
  match e with
  | Entry c r =>
      match c in inputE X return X → Z with
      | Open _ => λ fd', if bool_decide (fd' = fd) then 1 else 0
      | Close fd' => λ _, if bool_decide (fd' = fd) then -1 else 0
      | _ => λ _, 0
      end r
  end.

Fixpoint balance (fd : Z) (l : list (entry inputE)) : Z :=
  match l with [] => 0 | e :: l => balance1 fd e + balance fd l end.

Lemma balance_app fd l1 l2 : balance fd (l1 ++ l2) = balance fd l1 + balance fd l2.
Proof. induction l1 as [|e l1 IH]; cbn [app balance]; [done|]. rewrite IH. lia. Qed.

Definition event_writes (l : list (entry inputE)) : list (Z * input_event) :=
  omap (λ e, match entry_call e with Write_event fd ev => Some (fd, ev) | _ => None end) l.

(** The descriptors that answered the name of a supported touchscreen. *)
Definition touchscreens (l : list (entry inputE)) : list Z :=
  omap (λ e, match e with
             | Entry c r =>
                 match c in inputE X return X → option Z with
                 | Ioctl_name fd => λ '(n, name),
                     if bool_decide (0 < n) && is_touchscreen name then Some fd else None
                 | _ => λ _, None
                 end r
             end) l.

(** The log of a part of the search that leaves the descriptors [fds] open. *)
Definition searched (fds : list Z) (l : list (entry inputE)) : Prop :=
  event_writes l = [] ∧ touchscreens l = fds ∧
  ∀ fd, balance fd l = zlen (filter (λ fd', fd' = fd) fds).

Lemma searched_app fds1 fds2 l1 l2 :
  searched fds1 l1 → searched fds2 l2 → searched (fds1 ++ fds2) (l1 ++ l2).
Proof.
  intros (W1 & T1 & B1) (W2 & T2 & B2). unfold searched, event_writes, touchscreens in *.
  rewrite !omap_app, W1, W2, T1, T2. split_and!; [done..|]. intros fd.
  by rewrite balance_app, B1, B2, filter_app, zlen_app.
Qed.

Lemma try_entry_spec ent s w :
  wp (try_entry ent) s w (λ r _ _ l, searched (option_list r) l).
Proof.
  destruct ent as [[] name]; [|by apply wp_ret].
  apply wp_bind, wp_call. intros fd w1 _. apply wp_bind, wp_call. intros [n nm] w2 _.
  destruct (bool_decide (0 < n) && is_touchscreen nm) eqn:Hts; wp_run.
  - split_and!; [done|cbn; by rewrite Hts|]. intros fd'. cbn [balance balance1 app option_list].
    clear Hts. change (option_list (Some fd)) with [fd]. rewrite filter_cons, filter_nil. case_bool_decide; case_decide; cbv beta in *; unfold zlen; simpl; done || lia.
  - split_and!; [done|cbn; by rewrite Hts|]. intros fd'. cbn [balance balance1 app option_list].
    clear Hts. case_bool_decide; unfold zlen; simpl; lia.
Qed.

Lemma open_ts_input_spec s w :
  wp open_ts_input s w (λ fd _ _ l, ∃ r : option Z, fd = default (-1) r ∧ searched (option_list r) l).
Proof.
  apply wp_bind, wp_call. intros [entries|] w1 _; [|apply wp_ret; by exists None].
  apply wp_bind. eapply wp_mono.
  - apply (wp_foreach_until (λ _ _ l, searched [] l) (λ fd _ l, searched [fd] l)); [done|].
    intros pre ent s' w' l _ Hl. eapply wp_mono; [apply try_entry_spec|].
    intros [fd|] s2 w2 l2 Hl2; by apply (searched_app [] _ l l2).
  - intros fd s2 w2 l2 Hl2. wp_run. exists fd.
    split; [done|]. cbn [app]. rewrite ?app_nil_r.
    assert (searched (option_list fd) l2) as Hs by (by destruct fd).
    pose proof (searched_app [] (option_list fd) [Entry (Opendir "/dev/input") (Some entries)] l2)
      as Hopen.
    pose proof (searched_app (option_list fd) [] _ [Entry Closedir tt] (Hopen ltac:(done) Hs)) as Hall.
    rewrite app_nil_r in Hall. destruct x. by apply Hall.
Qed.

End power.
