(* ===== verification/Fingerprint.v ===== *)
(** The fingerprint HAL ([src/fingerprint/BiometricsFingerprint.cpp, .h]): a HIDL
    service around the legacy vendor library, of which there are two (FPC and
    Goodix).

    The vendor library is the environment.  Devices, modules and callbacks are
    pointers, numbers here; a null pointer is [None].  Numbers of the vendor
    interface ([hardware/fingerprint.h]) are parameters. *)
From S2P Require Import Prelude Effects CppString.
From stdpp Require Import options.
#[local] Set Default Proof Using "Type*".

Inductive FpHal := UNKNOWN | FPC | GOODIX.

Inductive RequestStatus :=
| SYS_OK | SYS_ENOENT | SYS_EINTR | SYS_EIO | SYS_EAGAIN | SYS_ENOMEM | SYS_EACCES
| SYS_EFAULT | SYS_EBUSY | SYS_EINVAL | SYS_ENOSPC | SYS_ETIMEDOUT | SYS_UNKNOWN.

Inductive FingerprintError :=
| ERROR_HW_UNAVAILABLE | ERROR_UNABLE_TO_PROCESS | ERROR_TIMEOUT | ERROR_NO_SPACE
| ERROR_CANCELED | ERROR_UNABLE_TO_REMOVE | ERROR_LOCKOUT | ERROR_VENDOR.

Inductive FingerprintAcquiredInfo :=
| ACQUIRED_GOOD | ACQUIRED_PARTIAL | ACQUIRED_INSUFFICIENT | ACQUIRED_IMAGER_DIRTY
| ACQUIRED_TOO_SLOW | ACQUIRED_TOO_FAST | ACQUIRED_VENDOR.

#[export] Instance RequestStatus_eq_dec : EqDecision RequestStatus.
Proof. solve_decision. Defined.

(** [fingerprint_msg_t]: the union by its tag; a tag the code does not name is
    [OtherMsg]. *)
Inductive fingerprint_msg :=
| FINGERPRINT_ERROR (error : Z)
| FINGERPRINT_ACQUIRED (acquired_info : Z)
| FINGERPRINT_TEMPLATE_ENROLLING (fid gid samples_remaining : Z)
| FINGERPRINT_TEMPLATE_REMOVED (fid gid remaining_templates : Z)
| FINGERPRINT_AUTHENTICATED (fid gid : Z) (hat : list Z)
| FINGERPRINT_TEMPLATE_ENUMERATING (fid gid remaining_templates : Z)
| OtherMsg.

(** Constants of [hardware/fingerprint.h], [hardware/hardware.h] and [limits.h]. *)
Class FpConsts := {
  FINGERPRINT_HARDWARE_MODULE_ID : string;
  kVersion : Z;
  PATH_MAX : Z;
  FINGERPRINT_ERROR_HW_UNAVAILABLE : Z;
  FINGERPRINT_ERROR_UNABLE_TO_PROCESS : Z;
  FINGERPRINT_ERROR_TIMEOUT : Z;
  FINGERPRINT_ERROR_NO_SPACE : Z;
  FINGERPRINT_ERROR_CANCELED : Z;
  FINGERPRINT_ERROR_UNABLE_TO_REMOVE : Z;
  FINGERPRINT_ERROR_LOCKOUT : Z;
  FINGERPRINT_ERROR_VENDOR_BASE : Z;
  FINGERPRINT_ACQUIRED_GOOD : Z;
  FINGERPRINT_ACQUIRED_PARTIAL : Z;
  FINGERPRINT_ACQUIRED_INSUFFICIENT : Z;
  FINGERPRINT_ACQUIRED_IMAGER_DIRTY : Z;
  FINGERPRINT_ACQUIRED_TOO_SLOW : Z;
  FINGERPRINT_ACQUIRED_TOO_FAST : Z;
  FINGERPRINT_ACQUIRED_VENDOR_BASE : Z;
}.

(** Calls to the vendor library, the file system, the property service, the
    framework's callback [cb], and the mutex. *)
Inductive fpE : Type → Type :=
| Hw_get_module (id : string) : fpE (Z * option Z)
| Has_open (module : Z) : fpE bool
| Module_open (module : Z) : fpE (Z * option Z)
| Device_version (device : Z) : fpE Z
| Device_set_notify (device : Z) : fpE Z
| Device_close (device : Z) : fpE Z
| Device_pre_enroll (device : Z) : fpE Z
| Device_enroll (device : Z) (hat : list Z) (gid timeoutSec : Z) : fpE Z
| Device_post_enroll (device : Z) : fpE Z
| Device_get_authenticator_id (device : Z) : fpE Z
| Device_cancel (device : Z) : fpE Z
| Device_enumerate (device : Z) : fpE Z
| Device_remove (device gid fid : Z) : fpE Z
| Device_set_active_group (device gid : Z) (path : string) : fpE Z
| Device_authenticate (device operationId gid : Z) : fpE Z
| Access_writable (path : string) : fpE Z
| SetProperty (key value : string) : fpE bool
(* [mClientCallbackMutex] *)
| LockClientCallback : fpE unit
| UnlockClientCallback : fpE unit
| Cb_onError (cb devId : Z) (error : FingerprintError) (vendorCode : Z) : fpE bool
| Cb_onAcquired (cb devId : Z) (info : FingerprintAcquiredInfo) (vendorCode : Z) : fpE bool
| Cb_onEnrollResult (cb devId fid gid remaining : Z) : fpE bool
| Cb_onRemoved (cb devId fid gid remaining : Z) : fpE bool
| Cb_onAuthenticated (cb devId fid gid : Z) (token : list Z) : fpE bool
| Cb_onEnumerate (cb devId fid gid remaining : Z) : fpE bool.

(** The fields; [currentHal] has no initializer, [None] is an indeterminate
    value. *)
Record BiometricsFingerprint := MkFingerprint {
  mClientCallback : option Z;
  mDevice : option Z;
  currentHal : option FpHal;
}.

(** The program's state is the static [sInstance]. *)
Abbreviation fp_state := (option BiometricsFingerprint).

Definition set_mDevice (d : option Z) (x : BiometricsFingerprint) : BiometricsFingerprint :=
  MkFingerprint (mClientCallback x) d (currentHal x).
Definition set_currentHal (h : FpHal) (x : BiometricsFingerprint) : BiometricsFingerprint :=
  MkFingerprint (mClientCallback x) (mDevice x) (Some h).
Definition set_mClientCallback (cb : option Z) (x : BiometricsFingerprint)
    : BiometricsFingerprint := MkFingerprint cb (mDevice x) (currentHal x).

Definition FpHalToString (hal : FpHal) : string :=
  match hal with FPC => "fpc" | GOODIX => "goodix" | UNKNOWN => "none" end.

Section fingerprint.
Context {FC : FpConsts}.

#[local] Abbreviation fp A := (prog fpE fp_state A).

(** In the order of the map's keys. *)
Definition fpHals : list (FpHal * string) :=
  [(FPC, FINGERPRINT_HARDWARE_MODULE_ID); (GOODIX, "gf_fingerprint")].

(** * Filters *)
Definition ErrorFilter (error : Z) : RequestStatus :=
  if bool_decide (error = 0) then SYS_OK
  else if bool_decide (error = -2) then SYS_ENOENT
  else if bool_decide (error = -4) then SYS_EINTR
  else if bool_decide (error = -5) then SYS_EIO
  else if bool_decide (error = -11) then SYS_EAGAIN
  else if bool_decide (error = -12) then SYS_ENOMEM
  else if bool_decide (error = -13) then SYS_EACCES
  else if bool_decide (error = -14) then SYS_EFAULT
  else if bool_decide (error = -16) then SYS_EBUSY
  else if bool_decide (error = -22) then SYS_EINVAL
  else if bool_decide (error = -28) then SYS_ENOSPC
  else if bool_decide (error = -110) then SYS_ETIMEDOUT
  else SYS_UNKNOWN.

(** The result and [*vendorCode]. *)
Definition VendorErrorFilter (error : Z) : FingerprintError * Z :=
  if bool_decide (error = FINGERPRINT_ERROR_HW_UNAVAILABLE) then (ERROR_HW_UNAVAILABLE, 0)
  else if bool_decide (error = FINGERPRINT_ERROR_UNABLE_TO_PROCESS)
  then (ERROR_UNABLE_TO_PROCESS, 0)
  else if bool_decide (error = FINGERPRINT_ERROR_TIMEOUT) then (ERROR_TIMEOUT, 0)
  else if bool_decide (error = FINGERPRINT_ERROR_NO_SPACE) then (ERROR_NO_SPACE, 0)
  else if bool_decide (error = FINGERPRINT_ERROR_CANCELED) then (ERROR_CANCELED, 0)
  else if bool_decide (error = FINGERPRINT_ERROR_UNABLE_TO_REMOVE)
  then (ERROR_UNABLE_TO_REMOVE, 0)
  else if bool_decide (error = FINGERPRINT_ERROR_LOCKOUT) then (ERROR_LOCKOUT, 0)
  else if bool_decide (FINGERPRINT_ERROR_VENDOR_BASE ≤ error)
  then (ERROR_VENDOR, to_int32 (error - FINGERPRINT_ERROR_VENDOR_BASE))
  else (ERROR_UNABLE_TO_PROCESS, 0).

Definition VendorAcquiredFilter (info : Z) : FingerprintAcquiredInfo * Z :=
  if bool_decide (info = FINGERPRINT_ACQUIRED_GOOD) then (ACQUIRED_GOOD, 0)
  else if bool_decide (info = FINGERPRINT_ACQUIRED_PARTIAL) then (ACQUIRED_PARTIAL, 0)
  else if bool_decide (info = FINGERPRINT_ACQUIRED_INSUFFICIENT) then (ACQUIRED_INSUFFICIENT, 0)
  else if bool_decide (info = FINGERPRINT_ACQUIRED_IMAGER_DIRTY) then (ACQUIRED_IMAGER_DIRTY, 0)
  else if bool_decide (info = FINGERPRINT_ACQUIRED_TOO_SLOW) then (ACQUIRED_TOO_SLOW, 0)
  else if bool_decide (info = FINGERPRINT_ACQUIRED_TOO_FAST) then (ACQUIRED_TOO_FAST, 0)
  else if bool_decide (FINGERPRINT_ACQUIRED_VENDOR_BASE ≤ info)
  then (ACQUIRED_VENDOR, to_int32 (info - FINGERPRINT_ACQUIRED_VENDOR_BASE))
  else (ACQUIRED_INSUFFICIENT, 0).

(** * Opening the vendor library *)
Definition openHal (hal : string) : fp (option Z) :=
  '(err, hw_mdl) ← call (Hw_get_module hal);
  if bool_decide (err ≠ 0) then mret None
  else
    match hw_mdl with
    | None => mret None
    | Some module =>
        has_open ← call (Has_open module);
        if negb has_open then mret None
        else
          '(err, device) ← call (Module_open module);
          if bool_decide (err ≠ 0) then mret None
          else
            match device with
            | None => undef          (* [device->version] of a null pointer *)
            | Some device =>
                version ← call (Device_version device);
                if bool_decide (kVersion ≠ version) then mret None
                else
                  err ← call (Device_set_notify device);
                  if bool_decide (err ≠ 0) then mret None else mret (Some device)
            end
    end.

(** A field of the instance under construction. *)
Definition set_this (f : BiometricsFingerprint → BiometricsFingerprint) : fp unit :=
  modify (fmap f).

Definition try_hal (pair : FpHal * string) : fp (option unit) :=
  device ← openHal pair.2;
  set_this (set_mDevice device) ;;
  match device with
  | Some _ => set_this (set_currentHal pair.1) ;; mret (Some ())
  | None => mret None
  end.

(** [currentHal] is read at the end, whether or not it was written. *)
Definition BiometricsFingerprint_new : fp unit :=
  modify (λ _, Some (MkFingerprint None None None)) ;;
  _ ← foreach_until try_hal fpHals;
  this ← get;
  match this ≫= currentHal with
  | Some hal =>
      _ ← call (SetProperty "persist.vendor.sys.fp.vendor" (FpHalToString hal)); mret ()
  | None => undef
  end.

Definition getInstance : fp BiometricsFingerprint :=
  this ← get;
  match this with
  | Some this => mret this
  | None =>
      BiometricsFingerprint_new ;;
      this ← get;
      match this with Some this => mret this | None => undef end
  end.

(** The static pointer is left as it is. *)
Definition BiometricsFingerprint_delete : fp unit :=
  this ← get;
  match this ≫= mDevice with
  | None => mret ()
  | Some device =>
      err ← call (Device_close device);
      if bool_decide (err ≠ 0) then mret () else set_this (set_mDevice None)
  end.

(** * The HIDL methods *)

(** A method of the device, which is dereferenced without a check. *)
Definition with_device {A} (f : Z → fp A) : fp A :=
  this ← get;
  match this ≫= mDevice with Some device => f device | None => undef end.

(** The pointer as a number; a null pointer is 0. *)
Definition devId (this : BiometricsFingerprint) : Z := default 0 (mDevice this).

Definition setNotify (clientCallback : option Z) : fp Z :=
  call LockClientCallback ;;
  set_this (set_mClientCallback clientCallback) ;;
  this ← get;
  call UnlockClientCallback ;;
  mret (from_option devId 0 this).

Definition preEnroll : fp Z := with_device (λ d, call (Device_pre_enroll d)).
Definition enroll (hat : list Z) (gid timeoutSec : Z) : fp RequestStatus :=
  with_device (λ d, err ← call (Device_enroll d hat gid timeoutSec); mret (ErrorFilter err)).
Definition postEnroll : fp RequestStatus :=
  with_device (λ d, err ← call (Device_post_enroll d); mret (ErrorFilter err)).
Definition getAuthenticatorId : fp Z := with_device (λ d, call (Device_get_authenticator_id d)).
Definition cancel : fp RequestStatus :=
  with_device (λ d, err ← call (Device_cancel d); mret (ErrorFilter err)).
Definition enumerate : fp RequestStatus :=
  with_device (λ d, err ← call (Device_enumerate d); mret (ErrorFilter err)).
Definition remove (gid fid : Z) : fp RequestStatus :=
  with_device (λ d, err ← call (Device_remove d gid fid); mret (ErrorFilter err)).

Definition setActiveGroup (gid : Z) (storePath : string) : fp RequestStatus :=
  if bool_decide (PATH_MAX ≤ size storePath) || bool_decide (size storePath ≤ 0) then mret SYS_EINVAL
  else
    denied ← call (Access_writable (c_str storePath));
    if bool_decide (denied ≠ 0) then mret SYS_EINVAL
    else with_device (λ d,
      err ← call (Device_set_active_group d gid (c_str storePath)); mret (ErrorFilter err)).

Definition authenticate (operationId gid : Z) : fp RequestStatus :=
  with_device (λ d, err ← call (Device_authenticate d operationId gid); mret (ErrorFilter err)).

(** * Messages of the vendor library *)

(** The [switch] of [notify]: the call for a message. *)
Definition notify_client (cb devId : Z) (msg : fingerprint_msg) : fp unit :=
  match msg with
  | FINGERPRINT_ERROR error =>
      let '(result, vendorCode) := VendorErrorFilter error in
      _ ← call (Cb_onError cb devId result vendorCode); mret ()
  | FINGERPRINT_ACQUIRED info =>
      let '(result, vendorCode) := VendorAcquiredFilter info in
      _ ← call (Cb_onAcquired cb devId result vendorCode); mret ()
  | FINGERPRINT_TEMPLATE_ENROLLING fid gid remaining =>
      _ ← call (Cb_onEnrollResult cb devId fid gid remaining); mret ()
  | FINGERPRINT_TEMPLATE_REMOVED fid gid remaining =>
      _ ← call (Cb_onRemoved cb devId fid gid remaining); mret ()
  | FINGERPRINT_AUTHENTICATED fid gid hat =>
      if bool_decide (fid ≠ 0)
      then _ ← call (Cb_onAuthenticated cb devId fid gid hat); mret ()
      else _ ← call (Cb_onAuthenticated cb devId fid gid []); mret ()
  | FINGERPRINT_TEMPLATE_ENUMERATING fid gid remaining =>
      _ ← call (Cb_onEnumerate cb devId fid gid remaining); mret ()
  | OtherMsg => mret ()
  end.

Definition notify (msg : fingerprint_msg) : fp unit :=
  _ ← getInstance;
  call LockClientCallback ;;
  thisPtr ← get;
  match thisPtr with
  | None => undef
  | Some this =>
      match mClientCallback this with
      | None => mret ()
      | Some cb => notify_client cb (devId this) msg
      end
  end ;;
  call UnlockClientCallback.
End fingerprint.
