(* ===== verification/FingerprintFacts.v ===== *)
(** What the fingerprint HAL guarantees: which vendor library it uses and after
    which checks, the translation of errors, and what reaches the framework. *)
From S2P Require Import Prelude Effects CppString Fingerprint.
From stdpp Require Import options.
#[local] Set Default Proof Using "Type*".

(** The error numbers of [errno.h] the framework's statuses stand for. *)
Definition errno (status : RequestStatus) : Z :=
  match status with
  | SYS_OK => 0 | SYS_ENOENT => -2 | SYS_EINTR => -4 | SYS_EIO => -5 | SYS_EAGAIN => -11
  | SYS_ENOMEM => -12 | SYS_EACCES => -13 | SYS_EFAULT => -14 | SYS_EBUSY => -16
  | SYS_EINVAL => -22 | SYS_ENOSPC => -28 | SYS_ETIMEDOUT => -110 | SYS_UNKNOWN => 1
  end.

(** Documented facts: the vendor ranges start above every code with a name. *)
Class FpLaws {FC : FpConsts} : Prop := {
  error_base : 0 ≤ FINGERPRINT_ERROR_VENDOR_BASE < 2 ^ 31;
  error_codes : Forall (λ c, c < FINGERPRINT_ERROR_VENDOR_BASE)
    [FINGERPRINT_ERROR_HW_UNAVAILABLE; FINGERPRINT_ERROR_UNABLE_TO_PROCESS;
     FINGERPRINT_ERROR_TIMEOUT; FINGERPRINT_ERROR_NO_SPACE; FINGERPRINT_ERROR_CANCELED;
     FINGERPRINT_ERROR_UNABLE_TO_REMOVE; FINGERPRINT_ERROR_LOCKOUT];
  acquired_base : 0 ≤ FINGERPRINT_ACQUIRED_VENDOR_BASE < 2 ^ 31;
  acquired_codes : Forall (λ c, c < FINGERPRINT_ACQUIRED_VENDOR_BASE)
    [FINGERPRINT_ACQUIRED_GOOD; FINGERPRINT_ACQUIRED_PARTIAL; FINGERPRINT_ACQUIRED_INSUFFICIENT;
     FINGERPRINT_ACQUIRED_IMAGER_DIRTY; FINGERPRINT_ACQUIRED_TOO_SLOW;
     FINGERPRINT_ACQUIRED_TOO_FAST];
}.

Section filters.
Context {FC : FpConsts} {FL : FpLaws}.

(** A filter of vendor codes: codes from [base] on come through less the base,
    all others without a vendor code. *)
Definition passes_vendor_codes {E} (filter : Z → E * Z) (vendor : E) (base : Z) : Prop :=
  (∀ c, 0 ≤ c < 2 ^ 31 - base → filter (base + c) = (vendor, c)) ∧
  (∀ e, e < base → (filter e).1 ≠ vendor ∧ (filter e).2 = 0).

Lemma ErrorFilter_errno e : ErrorFilter e ≠ SYS_UNKNOWN → errno (ErrorFilter e) = e.
Proof using Type.
  unfold ErrorFilter. repeat (case_bool_decide; [by subst|]). done.
Qed.

Lemma vendor_code base c : 0 ≤ base → 0 ≤ c < 2 ^ 31 - base → to_int32 (base + c - base) = c.
Proof using Type.
  intros ??. replace (base + c - base) with c by lia. apply wraps_id; [done|].
  split; simpl in *; lia.
Qed.

(** Errors are translated faithfully: every status but the unknown one comes
    back from the one error number it stands for, and from no other; a vendor
    error or acquisition code, for the whole range of a 32-bit integer above
    the base, comes through unchanged as the vendor code; and no code below
    the base is reported as the vendor's or with a vendor code. *)
Theorem fingerprint_filters :
  (∀ e status, status ≠ SYS_UNKNOWN → (ErrorFilter e = status ↔ e = errno status)) ∧
  passes_vendor_codes VendorErrorFilter ERROR_VENDOR FINGERPRINT_ERROR_VENDOR_BASE ∧
  passes_vendor_codes VendorAcquiredFilter ACQUIRED_VENDOR FINGERPRINT_ACQUIRED_VENDOR_BASE.
Proof.
  pose proof error_base. pose proof acquired_base.
  pose proof error_codes as He. pose proof acquired_codes as Ha.
  repeat (apply Forall_cons in He as [? He]). repeat (apply Forall_cons in Ha as [? Ha]).
  split_and!.
  - intros e status Hs. split.
    + intros <-. symmetry. by apply ErrorFilter_errno.
    + intros ->. by destruct status.
  - split; intros e Hrange; unfold VendorErrorFilter; repeat (case_bool_decide; [try lia; done|]).
    + case_bool_decide; [|lia]. f_equal. apply vendor_code; lia.
    + done.
  - split; intros e Hrange; unfold VendorAcquiredFilter; repeat (case_bool_decide; [try lia; done|]).
    + case_bool_decide; [|lia]. f_equal. apply vendor_code; lia.
    + done.
Qed.
End filters.

Section hal.
Context {FC : FpConsts} {W : Type} {H : Handler fpE W}.
Implicit Types (s : option BiometricsFingerprint) (w : W).

(** A vendor device is used only after every check: when [openHal] answers a
    device, the module was found and has an open method, opening it succeeded,
    its version is the supported one, and the notification callback was
    registered, in this order; and the fields are not touched. *)
Theorem openHal_checked hal s w d s' w' l :
  run (openHal hal) s w = Exec (Done (Some d, s')) w' l →
  s' = s ∧ ∃ m, l =
    [Entry (Hw_get_module hal) (0, Some m); Entry (Has_open m) true;
     Entry (Module_open m) (0, Some d); Entry (Device_version d) kVersion;
     Entry (Device_set_notify d) 0].
Proof.
  unfold openHal. rewrite run_call_bind.
  destruct (handle (Hw_get_module hal) w) as [[err m] w1]. cbn beta iota.
  case_bool_decide as He; [done|]. destruct m as [m|]; [|done]. rewrite run_call_bind.
  destruct (handle (Has_open m) w1) as [[] w2]; [|done]. cbn beta iota delta [negb]. rewrite run_call_bind.
  destruct (handle (Module_open m) w2) as [[err2 dev] w3]. cbn beta iota.
  case_bool_decide as He2; [done|]. destruct dev as [dev|]; [|done]. rewrite run_call_bind.
  destruct (handle (Device_version dev) w3) as [v w4]. cbn beta iota.
  case_bool_decide as Hv; [done|]. rewrite run_call_bind.
  destruct (handle (Device_set_notify dev) w4) as [err3 w5]. cbn beta iota.
  case_bool_decide as He3; [done|]. intros [= <- <- <- <-]. split; [done|]. exists m.
  cbn. by subst.
Qed.

(** The log entry of the property write. *)
Definition vendor_property (l : list (entry fpE)) : list (string * string) :=
  omap (λ e, match entry_call e with SetProperty k v => Some (k, v) | _ => None end) l.

(** C34: construction takes the first vendor library that opens, FPC before
    Goodix, and publishes its name; the second is not tried when the first
    opens.  When neither opens, the constructor reads the field [currentHal],
    which nothing has written: undefined behaviour. *)
Theorem constructor_picks_hal s w r1 w1 l1 r2 w2 l2 :
  let s0 := Some (MkFingerprint None None None) in
  run (openHal FINGERPRINT_HARDWARE_MODULE_ID) s0 w = Exec (Done (r1, s0)) w1 l1 →
  run (openHal "gf_fingerprint") s0 w1 = Exec (Done (r2, s0)) w2 l2 →
  let property name := Entry (SetProperty "persist.vendor.sys.fp.vendor" name) in
  match r1, r2 with
  | Some d, _ =>
      wp BiometricsFingerprint_new s w (λ _ s' _ l,
        s' = Some (MkFingerprint None (Some d) (Some FPC)) ∧
        ∃ ok, l = l1 ++ [property "fpc" ok])
  | None, Some d =>
      wp BiometricsFingerprint_new s w (λ _ s' _ l,
        s' = Some (MkFingerprint None (Some d) (Some GOODIX)) ∧
        ∃ ok, l = l1 ++ l2 ++ [property "goodix" ok])
  | None, None => ex_out (run BiometricsFingerprint_new s w) = Undef
  end.
Proof.
  intros s0 H1 H2 property. destruct r1 as [d1|]; [|destruct r2 as [d2|]].
  - unfold BiometricsFingerprint_new, fpHals. apply wp_bind, wp_modify, wp_bind.
    cbn [foreach_until]. unfold try_hal, set_this. cbn [fst snd].
    apply wp_bind, wp_bind. unfold wp at 1. fold s0. rewrite H1.
    apply wp_bind, wp_modify, wp_bind, wp_modify, wp_ret, wp_ret, wp_bind, wp_get.
    cbn [s0 fmap option_fmap option_map set_mDevice set_currentHal mbind option_bind currentHal].
    apply wp_bind, wp_call. intros ok w3 _. apply wp_ret. split; [done|].
    exists ok. cbn [app]. rewrite ?app_nil_r, <- ?app_assoc. done.
  - unfold BiometricsFingerprint_new, fpHals. apply wp_bind, wp_modify, wp_bind.
    cbn [foreach_until]. unfold try_hal, set_this. cbn [fst snd].
    apply wp_bind, wp_bind. unfold wp at 1. fold s0. rewrite H1.
    apply wp_bind, wp_modify, wp_ret. cbn beta iota.
    apply wp_bind, wp_bind. unfold wp at 1. change (set_mDevice None <$> s0) with s0. rewrite H2.
    apply wp_bind, wp_modify, wp_bind, wp_modify, wp_ret, wp_ret, wp_bind, wp_get.
    cbn [s0 fmap option_fmap option_map set_mDevice set_currentHal mbind option_bind currentHal].
    apply wp_bind, wp_call. intros ok w3 _. apply wp_ret. split; [done|].
    exists ok. cbn [app]. rewrite ?app_nil_r, <- ?app_assoc. done.
  - assert (∀ hal name w l w', run (openHal name) s0 w = Exec (Done (None, s0)) w' l →
      ∃ l', run (try_hal (hal, name)) s0 w = Exec (Done (None, s0)) w' l') as Htry.
    { intros hal name w0 l w' Hopen. unfold try_hal, set_this. rewrite run_bind.
      cbn [snd]. rewrite Hopen. by eexists. }
    apply (Htry FPC) in H1 as [l1' H1]. apply (Htry GOODIX) in H2 as [l2' H2].
    unfold BiometricsFingerprint_new, fpHals. eapply bind_undef; [reflexivity|].
    fold s0. eapply bind_undef.
    + cbn [foreach_until]. rewrite run_bind, H1, run_bind, H2.
      reflexivity.
    + reflexivity.
Qed.

(** The [onAuthenticated] calls of a log. *)
Definition authentications (l : list (entry fpE)) : list (Z * Z * Z * Z * list Z) :=
  omap (λ e, match entry_call e with
             | Cb_onAuthenticated cb devId fid gid token => Some (cb, devId, fid, gid, token)
             | _ => None
             end) l.

(** What the framework is told of a message. *)
Definition tells this msg (told : list (entry fpE)) : Prop :=
  (length told ≤ 1)%nat ∧ (mClientCallback this = None → told = []) ∧
  ∀ cb dev fid gid token, (cb, dev, fid, gid, token) ∈ authentications told →
    mClientCallback this = Some cb ∧ dev = devId this ∧
    ∃ hat, msg = FINGERPRINT_AUTHENTICATED fid gid hat ∧
      token = (if bool_decide (fid = 0) then [] else hat).

Lemma tells_other this msg told :
  (length told ≤ 1)%nat → (mClientCallback this = None → told = []) → authentications told = [] →
  tells this msg told.
Proof using Type.
  intros Hl Hn Ha. split_and!; [done..|]. rewrite Ha. by intros cb dev fid gid token ?%elem_of_nil.
Qed.

Lemma notify_client_tells cb msg this w :
  mClientCallback this = Some cb →
  wp (notify_client cb (devId this) msg) (Some this) w (λ _ s' _ l, s' = Some this ∧ tells this msg l).
Proof.
  intros Hcb.
  assert (∀ (c : fpE bool), authentications [Entry c true] = [] → authentications [Entry c false] = [] →
    wp (_ ← call c; mret ()) (Some this) w (λ _ s' _ l, s' = Some this ∧ tells this msg l)) as Hother.
  { intros c Ht Hf. wp_run. split; [done|]. apply tells_other; [simpl; lia|by rewrite Hcb|by destruct x]. }
  destruct msg as [error|info|fid gid rem|fid gid rem|fid gid hat|fid gid rem|]; cbn [notify_client].
  - destruct (VendorErrorFilter error). by apply Hother.
  - destruct (VendorAcquiredFilter info). by apply Hother.
  - by apply Hother.
  - by apply Hother.
  - clear Hother. case_bool_decide as Hf; wp_run; (split; [done|]);
      (split_and!; [simpl; lia|by rewrite Hcb|]);
      intros cb' dev fid' gid' token [= -> -> -> -> ->]%list_elem_of_singleton;
      (split; [done|split; [done|]]); exists hat; (split; [done|]).
    + by rewrite bool_decide_false.
    + by rewrite bool_decide_true.
  - by apply Hother.
  - apply wp_ret. split; [done|]. apply tells_other; [simpl; lia|by rewrite Hcb|done].
Qed.

(** C36: a message of the vendor library makes at most one call to the framework,
    under the mutex of the callback, none without a registered callback, and never
    changes the fields; and the framework is told of an authentication only for an
    authentication message, by the registered callback, with the message's finger
    and group, and with the token exactly when the finger was recognized: an
    unrecognized finger never carries a token. *)
Theorem notify_authentic msg this w :
  wp (notify msg) (Some this) w (λ _ s' _ l,
    s' = Some this ∧ ∃ told, tells this msg told ∧
      l = Entry LockClientCallback tt :: told ++ [Entry UnlockClientCallback tt]).
Proof.
  unfold notify, getInstance. apply wp_bind, wp_bind, wp_get, wp_ret, wp_bind, wp_call.
  intros [] w1 _. apply wp_bind, wp_get, wp_bind.
  apply (wp_mono _ _ _ (λ _ s' _ l, s' = Some this ∧ tells this msg l)).
  - destruct (mClientCallback this) as [cb|] eqn:Hcb; [by apply notify_client_tells|].
    apply wp_ret. split; [done|]. by apply tells_other; [simpl; lia| |].
  - intros [] s' w2 told [-> Htold]. apply wp_call. intros [] w3 _. split; [done|].
    by exists told.
Qed.
End hal.

(** * Witnesses: a device on which only the Goodix library opens *)
Definition legacy_fingerprint : FpConsts := {|
  FINGERPRINT_HARDWARE_MODULE_ID := "fingerprint"; kVersion := 513; PATH_MAX := 4096;
  FINGERPRINT_ERROR_HW_UNAVAILABLE := 1; FINGERPRINT_ERROR_UNABLE_TO_PROCESS := 2;
  FINGERPRINT_ERROR_TIMEOUT := 3; FINGERPRINT_ERROR_NO_SPACE := 4;
  FINGERPRINT_ERROR_CANCELED := 5; FINGERPRINT_ERROR_UNABLE_TO_REMOVE := 6;
  FINGERPRINT_ERROR_LOCKOUT := 7; FINGERPRINT_ERROR_VENDOR_BASE := 1000;
  FINGERPRINT_ACQUIRED_GOOD := 0; FINGERPRINT_ACQUIRED_PARTIAL := 1;
  FINGERPRINT_ACQUIRED_INSUFFICIENT := 2; FINGERPRINT_ACQUIRED_IMAGER_DIRTY := 3;
  FINGERPRINT_ACQUIRED_TOO_SLOW := 4; FINGERPRINT_ACQUIRED_TOO_FAST := 5;
  FINGERPRINT_ACQUIRED_VENDOR_BASE := 1000;
|}.

Lemma legacy_fingerprint_laws : FpLaws (FC := legacy_fingerprint).
Proof. split; simpl; try lia; repeat constructor. Qed.

(** The Goodix module opens as the device 77; every device call answers 0. *)
Definition goodix_env : Handler fpE unit :=
  λ X c w,
    match c in fpE X return X * unit with
    | Hw_get_module id => (if decide (id = "gf_fingerprint") then (0, Some 5) else (-2, None), w)
    | Has_open _ => (true, w)
    | Module_open _ => ((0, Some 77), w)
    | Device_version _ => (513, w)
    | Device_set_notify _ | Device_close _ | Device_pre_enroll _ | Device_enroll _ _ _ _
    | Device_post_enroll _ | Device_get_authenticator_id _ | Device_cancel _
    | Device_enumerate _ | Device_remove _ _ _ | Device_set_active_group _ _ _
    | Device_authenticate _ _ _ | Access_writable _ => (0, w)
    | SetProperty _ _ | Cb_onError _ _ _ _ | Cb_onAcquired _ _ _ _
    | Cb_onEnrollResult _ _ _ _ _ | Cb_onRemoved _ _ _ _ _ | Cb_onAuthenticated _ _ _ _ _
    | Cb_onEnumerate _ _ _ _ _ => (true, w)
    | LockClientCallback | UnlockClientCallback => (tt, w)
    end.

#[local] Existing Instance legacy_fingerprint.
#[local] Existing Instance legacy_fingerprint_laws.
#[local] Existing Instance goodix_env.

Lemma openHal_checked_witness :
  ∃ l, run (openHal "gf_fingerprint") None tt = Exec (Done (Some 77, None)) tt l ∧ length l = 5%nat.
Proof.
  exists (ex_log (run (openHal "gf_fingerprint") None tt)). split; [by vm_compute|].
  destruct (openHal_checked "gf_fingerprint" None tt 77 None tt
    (ex_log (run (openHal "gf_fingerprint") None tt))) as [_ [m ->]]; by vm_compute.
Defined.

Lemma constructor_picks_hal_witness :
  wp BiometricsFingerprint_new None tt (λ _ s' _ l,
    s' = Some (MkFingerprint None (Some 77) (Some GOODIX)) ∧
    vendor_property l = [("persist.vendor.sys.fp.vendor", "goodix")]).
Proof.
  eapply wp_mono.
  { eapply (constructor_picks_hal None tt None tt _ (Some 77) tt _); by vm_compute. }
  intros [] s' w' l [-> [ok ->]]. done.
Defined.

Lemma fingerprint_filters_witness :
  FpLaws ∧
  (∀ e status, status ≠ SYS_UNKNOWN → (ErrorFilter e = status ↔ e = errno status)) ∧
  passes_vendor_codes VendorErrorFilter ERROR_VENDOR FINGERPRINT_ERROR_VENDOR_BASE ∧
  passes_vendor_codes VendorAcquiredFilter ACQUIRED_VENDOR FINGERPRINT_ACQUIRED_VENDOR_BASE.
Proof. exact (conj legacy_fingerprint_laws fingerprint_filters). Defined.
