(* ===== verification/FpThreads.v ===== *)
(** The threads of the fingerprint HAL ([src/fingerprint/BiometricsFingerprint.cpp],
    [service.cpp]), interleaved: threads of the thread pool that run the HIDL
    methods, the thread that constructs the instance, and the thread of the vendor
    library that delivers its messages, from the time [set_notify] is called. *)
From S2P Require Import Prelude Effects CppString Fingerprint FingerprintFacts Threads ThreadsLogic ThreadsProgress.
From stdpp Require Import options.
#[local] Set Default Proof Using "Type*".

Inductive fp_mutex := mClientCallbackMutex.
#[export] Instance fp_mutex_eq_dec : EqDecision fp_mutex.
Proof. solve_decision. Defined.

(** What a vendor library does with the function that [set_notify] gives it: a
    thread calls it with one message after the other; or the library refuses the
    function, with an error. *)
Class Vendor := {
  messages : list fingerprint_msg;
  refuses : Z → option Z;
}.

#[export] Instance fp_sync {FC : FpConsts} {V : Vendor} : Sync fpE fp_mutex fp_state unit :=
  λ X c,
  match c in fpE X return option (sync fpE fp_mutex fp_state unit X) with
  | LockClientCallback => Some (Acquire mClientCallbackMutex)
  | UnlockClientCallback => Some (Release mClientCallbackMutex)
  | Device_set_notify d => Some (Spawn (foreach notify messages) (λ _, 0) (refuses d))
  | _ => None
  end.

(** The requests of a client, one for each HIDL method. *)
Inductive request :=
| SetNotify (cb : option Z)
| PreEnroll
| Enroll (hat : list Z) (gid timeoutSec : Z)
| PostEnroll
| GetAuthenticatorId
| Cancel
| Enumerate
| Remove (gid fid : Z)
| SetActiveGroup (gid : Z) (storePath : string)
| Authenticate (operationId gid : Z).

Section programs.
Context {FC : FpConsts}.

Definition serve (r : request) : prog fpE fp_state unit :=
  match r with
  | SetNotify cb => _ ← setNotify cb; mret ()
  | PreEnroll => _ ← preEnroll; mret ()
  | Enroll hat gid timeoutSec => _ ← enroll hat gid timeoutSec; mret ()
  | PostEnroll => _ ← postEnroll; mret ()
  | GetAuthenticatorId => _ ← getAuthenticatorId; mret ()
  | Cancel => _ ← cancel; mret ()
  | Enumerate => _ ← enumerate; mret ()
  | Remove gid fid => _ ← remove gid fid; mret ()
  | SetActiveGroup gid storePath => _ ← setActiveGroup gid storePath; mret ()
  | Authenticate operationId gid => _ ← authenticate operationId gid; mret ()
  end.

(** The process: it makes the instance, registers it, and its main thread is
    the only one of the thread pool; [rs] are the requests that clients make, none
    if the service could not be registered. *)
Definition fp_process (rs : list request) : prog fpE fp_state unit :=
  _ ← getInstance; foreach serve rs.
End programs.

Section threads.
Context {FC : FpConsts} {V : Vendor}.
#[local] Abbreviation state := (shared fpE fp_mutex fp_state).
Implicit Types (t u : nat) (σ : state).

(** The instance as the constructor's initializers leave it. *)
Definition blank : BiometricsFingerprint := MkFingerprint None None None.

(** The thread that constructs the instance, if the instance is not there yet. *)
Variable maker : option nat.

(** The call is made to the registered callback, under its mutex, for the device
    that is open. *)
Definition to_client σ t cb dev : Prop :=
  held σ mClientCallbackMutex = Some t ∧
  ∃ this, fields σ = Some this ∧ mClientCallback this = Some cb ∧ mDevice this = Some dev.

(** The protocol: the callback is written under the mutex, once a device is open;
    the constructor writes the rest, the device before it says which library it
    is; the framework is called under the mutex, too; libraries are opened by the
    constructor only, while there is no device; every other request to a device is
    to the one that is open, which nobody closes. *)
Definition fp_allowed σ t (e : event fpE fp_state) : Prop :=
  match e with
  | Wrote s s' =>
      s = fields σ ∧
      ((held σ mClientCallbackMutex = Some t ∧ is_Some (s ≫= mDevice) ∧
          ∃ cb, s' = set_mClientCallback cb <$> s) ∨
       maker = Some t ∧
         (s = None ∧ s' = Some blank ∨
          s = Some blank ∧ (∃ d, s' = Some (set_mDevice d blank)) ∨
          is_Some (s ≫= mDevice) ∧ ∃ hal, s' = set_currentHal hal <$> s))
  | Asked (Entry c _) =>
      match c with
      | Cb_onError cb dev _ _ | Cb_onAcquired cb dev _ _ | Cb_onEnrollResult cb dev _ _ _
      | Cb_onRemoved cb dev _ _ _ | Cb_onAuthenticated cb dev _ _ _
      | Cb_onEnumerate cb dev _ _ _ => to_client σ t cb dev
      | Device_pre_enroll d | Device_enroll d _ _ _ | Device_post_enroll d
      | Device_get_authenticator_id d | Device_cancel d | Device_enumerate d
      | Device_remove d _ _ | Device_set_active_group d _ _ | Device_authenticate d _ _ =>
          fields σ ≫= mDevice = Some d
      | Hw_get_module _ | Has_open _ | Module_open _ | Device_version _ | Device_set_notify _ =>
          maker = Some t ∧ fields σ = Some blank
      | SetProperty _ _ => maker = Some t ∧ is_Some (fields σ ≫= mDevice)
      | Device_close _ => False
      | _ => True
      end
  | Slept _ => True
  end.

(** A library has been given the function for its messages. *)
Definition notifying σ : Prop :=
  ∃ u d x, (u, Asked (Entry (Device_set_notify d) x)) ∈ trace σ.

(** How often an instance has been constructed. *)
Definition constructions (tr : list (nat * event fpE fp_state)) : nat :=
  length (filter (λ '(_, e), match e with Wrote None _ => true | _ => false end = true) tr).

(** Before a device is open no callback is registered; messages find an instance;
    and there is never a second one. *)
Record fp_inv σ : Prop := {
  inv_unregistered this :
    fields σ = Some this → mDevice this = None → mClientCallback this = None;
  inv_notifying : notifying σ → is_Some (fields σ);
  inv_once : (constructions (trace σ) ≤ if fields σ is None then 0 else 1)%nat;
}.

(** What is known of the vendor's answers. *)
Variable answered : ∀ X, fpE X → X → Prop.

#[local] Abbreviation safe := (safe fp_allowed fp_inv answered).
#[local] Abbreviation stable := (stable fp_allowed fp_inv).

Lemma device_open (s : fp_state) :
  is_Some (s ≫= mDevice) → ∃ this d, s = Some this ∧ mDevice this = Some d.
Proof using Type. destruct s as [this|]; [|by intros [? ?]]. intros [d Hd]. by exists this, d. Qed.

(** A write keeps an instance that is there, and its device. *)
Lemma wrote_keeps σ t s s' this d :
  fp_allowed σ t (Wrote s s') → fields σ = Some this →
  ∃ this', s' = Some this' ∧ (mDevice this = Some d → mDevice this' = Some d).
Proof using Type.
  intros (-> & [(_ & _ & cb & ->)|(_ & [[Hn _]|[(Hb & d' & ->)|(_ & hal & ->)]])]) Hf; rewrite Hf in *;
    try done; [by eexists|injection Hb as ->; by eexists|by eexists].
Qed.

Lemma constructed_once σ σ' t e :
  (constructions (trace σ) ≤ if fields σ is None then 0 else 1)%nat →
  fp_allowed σ t e → emit t e σ = Some σ' →
  (constructions (trace σ') ≤ if fields σ' is None then 0 else 1)%nat.
Proof using Type.
  intros H1 Ha He. rewrite (emit_trace _ _ _ _ He), (emit_fields _ _ _ _ He).
  unfold constructions in *. rewrite filter_app, length_app.
  destruct e as [e|X c|s s']; [simpl; lia..|]. simpl. pose proof Ha as [Hs _].
  destruct s as [this|].
  - destruct (wrote_keeps _ _ _ _ _ 0 Ha (eq_sym Hs)) as (this' & -> & _).
    rewrite <- Hs in H1. simpl. lia.
  - destruct Ha as (_ & [(_ & Ho & _)|(_ & [[_ ->]|[[? _]|[Ho _]]])]); [by destruct Ho|..|done|by destruct Ho].
    rewrite <- Hs in H1. simpl. lia.
Qed.

Lemma fp_inv_step σ σ' t e : fp_inv σ → fp_allowed σ t e → emit t e σ = Some σ' → fp_inv σ'.
Proof using Type.
  intros [Hu Hn H1] Ha He. pose proof (emit_fields _ _ _ _ He) as Hf. pose proof (emit_trace _ _ _ _ He) as Ht.
  split.
  - intros this. rewrite Hf. destruct e as [e|X c|s s']; [apply Hu..|]. simpl. intros -> Hd.
    destruct Ha as (-> & [(_ & Ho & cb & Hs)|(_ & [[_ Hs]|[(Hb & d & Hs)|(Ho & hal & Hs)]])]).
    + apply device_open in Ho as (b & d & Hb & Ho). rewrite Hb in Hs. injection Hs as ->.
      simpl in Hd. congruence.
    + by injection Hs as ->.
    + by injection Hs as ->.
    + apply device_open in Ho as (b & d & Hb & Ho). rewrite Hb in Hs. injection Hs as ->.
      simpl in Hd. congruence.
  - rewrite Hf. intros (u & d & x & Hin). rewrite Ht in Hin. apply elem_of_app in Hin as [Hin|Hin].
    + assert (is_Some (fields σ)) as [this Hthis] by (apply Hn; by exists u, d, x).
      destruct e as [e|X c|s s']; [by rewrite Hthis..|].
      by destruct (wrote_keeps _ _ _ _ _ 0 Ha Hthis) as (this' & -> & _).
    + apply list_elem_of_singleton in Hin as [= <- <-]. destruct Ha as [_ Hb]. by rewrite Hb.
  - by apply (constructed_once σ σ' t e).
Qed.

(** ** What a thread knows *)
Definition made : fp_state → Prop := is_Some.
Definition opened d (s : fp_state) : Prop := s ≫= mDevice = Some d.
Definition chosen d hal (s : fp_state) : Prop := opened d s ∧ s ≫= currentHal = Some hal.

(** What is known of the fields is still true after the writes of others. *)
Definition lasting t (K : fp_state → Prop) : Prop :=
  ∀ σ u s s', u ≠ t → fp_allowed σ u (Wrote s s') → K s → K s'.

Lemma fp_lasting_stable t K : lasting t K → stable t (λ σ, K (fields σ)).
Proof using Type.
  intros HK σ σ' u e Hu _ Hσ Ha He. rewrite (emit_fields _ _ _ _ He).
  destruct e as [e|X c|s s']; [done..|]. eapply (HK σ u s s' Hu Ha). by destruct Ha as [-> _].
Qed.

Lemma made_lasting t : lasting t made.
Proof using Type.
  intros σ u s s' _ Ha [this ->]. pose proof Ha as [Hf _].
  destruct (wrote_keeps _ _ _ _ _ 0 Ha (eq_sym Hf)) as (this' & -> & _). by eexists.
Qed.

Lemma opened_lasting t d : lasting t (opened d).
Proof using Type.
  intros σ u s s' _ Ha Ho. pose proof Ha as [Hf _]. destruct s as [this|]; [|done].
  destruct (wrote_keeps _ _ _ _ _ d Ha (eq_sym Hf)) as (this' & -> & Hd). by apply Hd.
Qed.

(** The maker is the only one to write before a device is open, and to choose. *)
Lemma mine_lasting t s : maker = Some t → s ≫= mDevice = None → lasting t (eq s).
Proof using Type.
  intros Hm Hd σ u s1 s' Hu (_ & [(_ & Ho & _)|[Hm' _]]) <-; [|congruence].
  by rewrite Hd in Ho; destruct Ho.
Qed.

Lemma chosen_lasting t d hal : maker = Some t → lasting t (chosen d hal).
Proof using Type.
  intros Hm σ u s s' Hu Ha [Ho Hc]. split; [by eapply (opened_lasting t)|].
  destruct Ha as (_ & [(_ & _ & cb & ->)|[Hm' _]]); [by destruct s|congruence].
Qed.

Lemma to_client_stable t cb dev : stable t (λ σ, to_client σ t cb dev).
Proof using Type.
  intros σ σ' u e Hu _ (Hl & this & Hf & Hcb & Hd) Ha He. split; [by eapply held_stable|].
  rewrite (emit_fields _ _ _ _ He). destruct e as [e|X c|s s']; [by exists this..|]. simpl.
  destruct Ha as (-> & [(Hh & _)|(_ & [[Hn _]|[(Hb & _)|(_ & hal & ->)]])]).
  - congruence.
  - congruence.
  - rewrite Hf in Hb. by injection Hb as ->.
  - rewrite Hf. by eexists.
Qed.

(** ** Rules for the moves of a thread *)
Lemma known_safe {B X} t (c : fpE X) (k : X → prog fpE fp_state B) P Q σ :
  sync_of c = None → stable t P → P σ →
  (∀ σ tr, P σ → P (Shared (fields σ) (held σ) tr)) →
  (∀ σ x, P σ → fp_allowed σ t (Asked (Entry c x))) →
  (∀ x σ', answered X c x → P σ' → safe t (k x) Q σ') → safe t (call c ≫= k) Q σ.
Proof.
  intros Hs Hst HP Hq Ha Hk.
  eapply (safe_ask fp_allowed fp_inv answered fp_inv_step);
    [by unfold wait_of; rewrite Hs|exact Hst|done|].
  intros σ1 x σ2 H1 _ _ Hx He. split; [by apply Ha|]. intros _.
  unfold expected in Hx. rewrite Hs in Hx. apply Hk; [done|].
  unfold emit in He. simpl in He. rewrite Hs, Some_bind in He. injection He as <-. by apply Hq.
Qed.

Lemma call_safe {B X} t (c : fpE X) (k : X → prog fpE fp_state B) K Q σ :
  sync_of c = None → lasting t K → K (fields σ) →
  (∀ σ x, K (fields σ) → fp_allowed σ t (Asked (Entry c x))) →
  (∀ x σ', answered X c x → K (fields σ') → safe t (k x) Q σ') → safe t (call c ≫= k) Q σ.
Proof.
  intros Hs HK Hσ Ha Hk.
  by apply (known_safe t c k (λ σ, K (fields σ))); [|apply fp_lasting_stable|..].
Qed.

Lemma get_safe {B} t (k : fp_state → prog fpE fp_state B) K Q σ :
  lasting t K → K (fields σ) →
  (∀ σ', K (fields σ') → safe t (k (fields σ')) Q σ') → safe t (get ≫= k) Q σ.
Proof.
  intros HK Hσ Hk.
  eapply (safe_get fp_allowed fp_inv answered _ _ (λ σ, K (fields σ)));
    [by apply fp_lasting_stable|done|]. intros σ' ? _. by apply Hk.
Qed.

Lemma ret_safe {B} t (b : B) K σ : lasting t K → K (fields σ) → safe t (mret b) (λ _ σ, K (fields σ)) σ.
Proof.
  intros HK Hσ. eapply (safe_ret fp_allowed fp_inv answered _ _ (λ σ, K (fields σ)));
    [by apply fp_lasting_stable|done|done].
Qed.

Lemma end_safe {B} t (b : B) K (Q : B → state → Prop) σ :
  lasting t K → K (fields σ) → (∀ σ', K (fields σ') → Q b σ') → safe t (mret b) Q σ.
Proof.
  intros HK Hσ HQ. eapply (safe_ret fp_allowed fp_inv answered _ _ (λ σ, K (fields σ)));
    [by apply fp_lasting_stable|done|by auto].
Qed.

Lemma write_safe {B} t f (k : unit → prog fpE fp_state B) P Q σ :
  stable t P → P σ → (∀ σ, P σ → fp_allowed σ t (Wrote (fields σ) (f (fields σ)))) →
  (∀ σ tr, P σ → safe t (k ()) Q (Shared (f (fields σ)) (held σ) tr)) →
  safe t (modify f ≫= k) Q σ.
Proof.
  intros Hst HP Ha Hk. eapply (safe_modify fp_allowed fp_inv answered fp_inv_step); [exact Hst|done|].
  intros σ1 σ2 H1 _ He. split; [by apply Ha|]. intros _.
  unfold emit in He. simpl in He. injection He as <-. by apply Hk.
Qed.

Definition locked t σ : Prop := held σ mClientCallbackMutex = Some t.

Lemma locked_stable t : stable t (locked t).
Proof using Type. intros σ σ' u e Hu _ Hl _ He. by eapply held_stable. Qed.

Lemma lock_client_safe {B} t (k : unit → prog fpE fp_state B) K Q σ :
  lasting t K → K (fields σ) →
  (∀ σ', locked t σ' → K (fields σ') → safe t (k tt) Q σ') →
  safe t (call LockClientCallback ≫= k) Q σ.
Proof.
  intros HK Hσ Hk.
  eapply (safe_call fp_allowed fp_inv answered fp_inv_step);
    [done|by apply fp_lasting_stable|exact Hσ|].
  intros σ1 [] σ2 H1 _ He. split; [done|]. intros _. apply Hk.
  - apply emit_held in He. apply take_lock_spec in He as [_ He]. unfold locked. rewrite He.
    apply own_take. by left.
  - by rewrite (emit_fields _ _ _ _ He).
Qed.

Lemma unlock_client_safe {B} t (k : unit → prog fpE fp_state B) K Q σ :
  lasting t K → K (fields σ) → (∀ σ', K (fields σ') → safe t (k tt) Q σ') →
  safe t (call UnlockClientCallback ≫= k) Q σ.
Proof.
  intros HK Hσ Hk.
  eapply (safe_call fp_allowed fp_inv answered fp_inv_step);
    [done|by apply fp_lasting_stable|exact Hσ|].
  intros σ1 [] σ2 H1 _ He. split; [done|]. intros _. apply Hk. by rewrite (emit_fields _ _ _ _ He).
Qed.

(** ** The HIDL methods, once a device is open *)
Lemma with_device_safe {B C} t d (f : Z → fpE B) (g : B → C) σ :
  sync_of (f d) = None →
  (∀ σ x, opened d (fields σ) → fp_allowed σ t (Asked (Entry (f d) x))) →
  opened d (fields σ) →
  safe t (with_device (λ d, x ← call (f d); mret (g x))) (λ _ σ, opened d (fields σ)) σ.
Proof.
  intros Hs Ha Hσ. pose proof (opened_lasting t d) as Hd. unfold with_device.
  apply (get_safe t _ (opened d)); [done..|]. clear σ Hσ. intros σ Hσ. pose proof Hσ as Hσ'.
  unfold opened in Hσ'. rewrite Hσ'.
  apply (call_safe t _ _ (opened d)); [done..|]. intros x σ1 _ H1. by apply ret_safe.
Qed.

Lemma setNotify_safe t d cb σ :
  opened d (fields σ) → safe t (setNotify cb) (λ _ σ, opened d (fields σ)) σ.
Proof.
  intros Hσ. pose proof (opened_lasting t d) as Hd. unfold setNotify, set_this.
  apply (lock_client_safe t _ (opened d)); [done..|]. clear σ Hσ. intros σ Hl Hσ.
  apply (write_safe t _ _ (λ σ, locked t σ ∧ opened d (fields σ))).
  - apply stable_and; [apply locked_stable|by apply fp_lasting_stable].
  - done.
  - intros σ1 [H1 H1']. split; [done|]. left. split_and!; [done|by rewrite H1'|by exists cb].
  - intros σ1 tr [_ H1]. apply (get_safe t _ (opened d)); [done|simpl|].
    + unfold opened in *. by destruct (fields σ1).
    + intros σ2 H2. apply (unlock_client_safe t _ (opened d)); [done..|]. intros σ3 H3. by apply ret_safe.
Qed.

Lemma setActiveGroup_safe t d gid storePath σ :
  opened d (fields σ) → safe t (setActiveGroup gid storePath) (λ _ σ, opened d (fields σ)) σ.
Proof.
  intros Hσ. pose proof (opened_lasting t d) as Hd. unfold setActiveGroup.
  destruct (_ || _); [by apply ret_safe|].
  apply (call_safe t _ _ (opened d)); [done..|]. intros denied σ1 _ H1.
  case_bool_decide; [by apply ret_safe|].
  by apply (with_device_safe t d (λ d, Device_set_active_group d gid (c_str storePath)) ErrorFilter).
Qed.

Lemma serve_safe t d r σ : opened d (fields σ) → safe t (serve r) (λ _ σ, opened d (fields σ)) σ.
Proof.
  intros Hσ.
  assert (∀ B (q : prog fpE fp_state B), safe t q (λ _ σ, opened d (fields σ)) σ →
    safe t (_ ← q; mret ()) (λ _ σ, opened d (fields σ)) σ) as Hthen.
  { intros B q Hq. apply safe_bind. eapply safe_mono; [exact Hq|]. intros b σ' Hd.
    apply ret_safe; [apply opened_lasting|done]. }
  destruct r; cbn [serve]; apply Hthen.
  - by apply setNotify_safe.
  - by apply (with_device_safe t d Device_pre_enroll id).
  - by apply (with_device_safe t d (λ d, Device_enroll d hat gid timeoutSec) ErrorFilter).
  - by apply (with_device_safe t d Device_post_enroll ErrorFilter).
  - by apply (with_device_safe t d Device_get_authenticator_id id).
  - by apply (with_device_safe t d Device_cancel ErrorFilter).
  - by apply (with_device_safe t d Device_enumerate ErrorFilter).
  - by apply (with_device_safe t d (λ d, Device_remove d gid fid) ErrorFilter).
  - by apply setActiveGroup_safe.
  - by apply (with_device_safe t d (λ d, Device_authenticate d operationId gid) ErrorFilter).
Qed.

(** ** Messages, once there is an instance *)

(** A call to the client, by the holder of the mutex. *)
Lemma client_call_safe t (c : fpE bool) cb dev σ :
  sync_of c = None → (∀ σ x, to_client σ t cb dev → fp_allowed σ t (Asked (Entry c x))) →
  to_client σ t cb dev → safe t (_ ← call c; mret ()) (λ _ σ, made (fields σ)) σ.
Proof.
  intros Hs Ha Hσ.
  eapply (known_safe t _ _ (λ σ, to_client σ t cb dev)); [done|apply to_client_stable|done..|].
  intros x σ1 _ (_ & this & Hf & _). apply ret_safe; [apply made_lasting|by exists this].
Qed.

Lemma notify_client_safe t cb dev msg σ :
  to_client σ t cb dev → safe t (notify_client cb dev msg) (λ _ σ, made (fields σ)) σ.
Proof.
  intros Hσ. destruct msg as [error|info|fid gid rem|fid gid rem|fid gid hat|fid gid rem|];
    cbn [notify_client]; [destruct (VendorErrorFilter error)|destruct (VendorAcquiredFilter info)
      | | |case_bool_decide| |]; try by apply (client_call_safe t _ cb dev).
  apply ret_safe; [apply made_lasting|]. destruct Hσ as (_ & this & Hf & _). by exists this.
Qed.

Lemma notify_safe_fp t msg σ : made (fields σ) → safe t (notify msg) (λ _ σ, made (fields σ)) σ.
Proof.
  intros Hσ. pose proof (made_lasting t) as Hm. unfold notify, getInstance. apply safe_bind.
  apply (get_safe t _ made); [done..|]. clear σ Hσ. intros σ [this Hσ]. rewrite Hσ.
  eapply safe_mono; [by apply (ret_safe t _ made); [|by exists this]|].
  clear Hσ this σ. intros inst σ Hσ. apply (lock_client_safe t _ made); [done..|]. clear σ Hσ. intros σ Hl Hσ.
  assert (stable t (λ σ, locked t σ ∧ made (fields σ))) as Hst.
  { apply stable_and; [apply locked_stable|by apply fp_lasting_stable]. }
  eapply (safe_get fp_allowed fp_inv answered); [exact Hst|done|].
  clear σ Hl Hσ. intros σ [Hl Hσ] Hi. apply safe_bind.
  eapply (safe_mono _ _ _ _ _ (λ _ σ, made (fields σ))).
  - destruct Hσ as [this Hf]. rewrite Hf.
    destruct (mClientCallback this) as [cb|] eqn:Hcb; [|by apply ret_safe; [|by exists this]].
    destruct (mDevice this) as [dev|] eqn:Hd.
    + apply notify_client_safe. split; [done|]. exists this. unfold devId. by rewrite Hd.
    + by rewrite (inv_unregistered σ Hi this Hf Hd) in Hcb.
  - intros _ σ' Hσ'. change (call UnlockClientCallback) with
      (call UnlockClientCallback ≫= (mret : unit → prog fpE fp_state unit)).
    apply (unlock_client_safe t _ made); [done..|]. intros σ2 H2. by apply ret_safe.
Qed.

Lemma messages_safe t σ : made (fields σ) → safe t (foreach notify messages) (λ _ σ, made (fields σ)) σ.
Proof.
  intros Hσ. apply (safe_foreach fp_allowed fp_inv answered _ _ _ (λ σ, made (fields σ)));
    [apply fp_lasting_stable, made_lasting|done|]. intros msg σ' _. apply notify_safe_fp.
Qed.

(** ** Construction *)

(** The documented answers of a vendor library that works: the module [lib] is
    found and opens as [device], in the version that the HAL wants; and a module
    that opens without an error gives a device. *)
Definition vendor_answers (lib : string) (module device : Z) X (c : fpE X) : X → Prop :=
  match c in fpE X return X → Prop with
  | Hw_get_module id => λ x, id = lib → x = (0, Some module)
  | Has_open m => λ x, m = module → x = true
  | Module_open m => λ x, (x.1 = 0 → is_Some x.2) ∧ (m = module → x = (0, Some device))
  | Device_version d => λ x, d = device → x = kVersion
  | _ => λ _, True
  end.

Section construction.
Variables (lib : string) (module device : Z).
Hypothesis lib_works : ∀ X c x, answered X c x → vendor_answers lib module device X c x.
Hypothesis lib_tells : refuses device = None.
Variable t : nat.
Hypothesis t_makes : maker = Some t.

#[local] Abbreviation fresh := (eq (Some blank)).

Lemma fresh_lasting : lasting t fresh.
Proof. by apply mine_lasting. Qed.

(** [openHal] fails on other libraries only, and changes nothing. *)
Definition tried hal (r : option Z) σ : Prop := fresh (fields σ) ∧ (hal = lib → is_Some r).

Lemma tried_ret hal r σ :
  fresh (fields σ) → (hal = lib → is_Some r) → safe t (mret r) (tried hal) σ.
Proof.
  intros Hσ Hr. apply (end_safe t r fresh); [apply fresh_lasting|done|]. by split.
Qed.

Lemma opening_safe {B X} (c : fpE X) (k : X → prog fpE fp_state B) Q σ :
  sync_of c = None → fresh (fields σ) →
  (∀ σ x, fresh (fields σ) → fp_allowed σ t (Asked (Entry c x))) →
  (∀ x σ', vendor_answers lib module device X c x → fresh (fields σ') → safe t (k x) Q σ') →
  safe t (call c ≫= k) Q σ.
Proof.
  intros Hs Hσ Ha Hk. apply (call_safe t c k fresh); [done|apply fresh_lasting|done..|].
  intros x σ' Hx. by apply Hk, lib_works.
Qed.

Lemma set_notify_safe hal d σ :
  fresh (fields σ) → (hal = lib → d = device) →
  safe t (err ← call (Device_set_notify d);
    if bool_decide (err ≠ 0) then mret None else mret (Some d)) (tried hal) σ.
Proof.
  intros Hσ Hd.
  eapply (safe_ask fp_allowed fp_inv answered fp_inv_step _ _ _ (λ σ, fresh (fields σ)));
    [done|apply fp_lasting_stable, fresh_lasting|exact Hσ|].
  intros σ1 x σ2 H1 _ _ Hx He. split; [by split|]. intros _.
  assert (fresh (fields σ2)) as H2 by by rewrite (emit_fields _ _ _ _ He).
  case_bool_decide as Hne; apply tried_ret; try done.
  intros ->%Hd. destruct Hx as [[u ->]|Hx]; [done|]. by rewrite lib_tells in Hx.
Qed.

Lemma openHal_safe hal σ : fresh (fields σ) → safe t (openHal hal) (tried hal) σ.
Proof.
  intros Hσ. unfold openHal. apply opening_safe; [done..|]. clear σ Hσ.
  intros [err mdl] σ Hget Hσ. simpl in Hget. case_bool_decide.
  { apply tried_ret; [done|]. intros Hlib. by injection (Hget Hlib) as -> _. }
  destruct mdl as [m|]; [|apply tried_ret; [done|]; intros Hlib; by specialize (Hget Hlib)].
  assert (hal = lib → m = module) as Hm by (intros Hlib; by injection (Hget Hlib)).
  apply opening_safe; [done..|]. clear σ Hσ. intros has σ Hhas Hσ. simpl in Hhas.
  destruct has; cbn beta iota delta [negb].
  2:{ apply tried_ret; [done|]. intros Hlib. by specialize (Hhas (Hm Hlib)). }
  apply opening_safe; [done..|]. clear σ Hσ. intros [err2 dev] σ [Hsome Hopen] Hσ.
  simpl in Hsome, Hopen. case_bool_decide.
  { apply tried_ret; [done|]. intros Hlib. by injection (Hopen (Hm Hlib)) as -> _. }
  destruct dev as [d|]; [|by destruct Hsome; [lia|]].
  assert (hal = lib → d = device) as Hd by (intros Hlib; by injection (Hopen (Hm Hlib))).
  apply opening_safe; [done..|]. clear σ Hσ. intros v σ Hv Hσ. simpl in Hv. case_bool_decide.
  { apply tried_ret; [done|]. intros Hlib. by specialize (Hv (Hd Hlib)). }
  by apply set_notify_safe.
Qed.

(** A device is open, and its library is named. *)
Definition complete (s : fp_state) : Prop := ∃ d hal, chosen d hal s.

Lemma complete_lasting : lasting t complete.
Proof.
  intros σ u s s' Hu Ha (d & hal & Hc). exists d, hal.
  by eapply (chosen_lasting t d hal t_makes σ u s s').
Qed.

Lemma try_hal_safe pair σ :
  fresh (fields σ) →
  safe t (try_hal pair) (λ r σ, match r with
    | Some _ => complete (fields σ)
    | None => fresh (fields σ) ∧ pair.2 ≠ lib
    end) σ.
Proof.
  intros Hσ. unfold try_hal, set_this. apply safe_bind.
  eapply safe_mono; [by apply openHal_safe|]. clear σ Hσ. intros r σ [Hσ Hr].
  apply (write_safe t _ _ (λ σ, fresh (fields σ)));
    [apply fp_lasting_stable, fresh_lasting|done|..].
  { intros σ1 H1. split; [done|]. right. split; [done|]. right; left. split; [done|].
    exists r. by rewrite <- H1. }
  intros σ1 tr H1. rewrite <- H1. destruct r as [d|].
  - apply (write_safe t _ _ (λ σ, opened d (fields σ)));
      [apply fp_lasting_stable, opened_lasting|done|..].
    { intros σ2 H2. split; [done|]. right. split; [done|]. right; right.
      split; [by rewrite H2|by exists pair.1]. }
    intros σ2 tr2 H2. apply (end_safe t _ (chosen d pair.1)); [by apply chosen_lasting| |].
    + unfold chosen, opened in *. simpl. by destruct (fields σ2).
    + intros σ3 H3. by exists d, pair.1.
  - apply (end_safe t _ fresh); [apply fresh_lasting|done|]. intros σ2 H2. split; [done|].
    intros Hlib. by destruct (Hr Hlib).
Qed.

Lemma try_all_safe pairs σ :
  lib ∈ pairs.*2 → fresh (fields σ) →
  safe t (foreach_until try_hal pairs) (λ _ σ, complete (fields σ)) σ.
Proof.
  revert σ. induction pairs as [|pair pairs IH]; intros σ Hlib Hσ; [by apply not_elem_of_nil in Hlib|].
  cbn [foreach_until]. apply safe_bind. eapply safe_mono; [by apply try_hal_safe|].
  intros [u|] σ1; [intros H1|intros [H1 Hne]].
  - by apply ret_safe; [apply complete_lasting|].
  - apply IH; [|done]. by apply elem_of_cons in Hlib as [->|].
Qed.

Lemma new_safe σ :
  lib ∈ fpHals.*2 → fields σ = None →
  safe t BiometricsFingerprint_new (λ _ σ, complete (fields σ)) σ.
Proof.
  intros Hlib Hσ. unfold BiometricsFingerprint_new.
  apply (write_safe t _ _ (λ σ, None = fields σ));
    [apply fp_lasting_stable; by apply mine_lasting|done|..].
  { intros σ1 H1. split; [done|]. right. split; [done|]. left. by rewrite <- H1. }
  intros σ1 tr _. apply safe_bind. eapply safe_mono; [by apply try_all_safe|].
  clear σ Hσ σ1. intros r σ Hσ. apply (get_safe t _ complete); [apply complete_lasting|done|].
  clear σ Hσ. intros σ Hσ. pose proof Hσ as (d & hal & Ho & Hc). rewrite Hc.
  apply (call_safe t _ _ complete); [done|apply complete_lasting|done|..].
  - intros σ1 x (d1 & hal1 & H1 & _). split; [done|]. by rewrite H1.
  - intros x σ1 _ H1. by apply ret_safe; [apply complete_lasting|].
Qed.

Lemma process_safe rs σ :
  lib ∈ fpHals.*2 → fields σ = None → safe t (fp_process rs) (λ _ _, True) σ.
Proof.
  intros Hlib Hσ. unfold fp_process, getInstance. apply safe_bind.
  apply (get_safe t _ (eq None)); [by apply mine_lasting|done|]. clear σ Hσ. intros σ Hσ.
  rewrite <- Hσ. apply safe_bind. eapply safe_mono; [by apply new_safe|].
  clear σ Hσ. intros [] σ Hσ. apply (get_safe t _ complete); [apply complete_lasting|done|].
  clear σ Hσ. intros σ (d & hal & Ho & _). destruct (fields σ) as [this|] eqn:Hf; [|done].
  apply (end_safe t _ (opened d)); [apply opened_lasting|by rewrite Hf|].
  clear σ this Hf Ho. intros σ Ho. eapply safe_mono.
  - apply (safe_foreach fp_allowed fp_inv answered _ _ _ (λ σ, opened d (fields σ)));
      [apply fp_lasting_stable, opened_lasting|exact Ho|]. intros r σ' _. apply serve_safe.
  - done.
Qed.
End construction.

(** What runs in a thread of the thread pool, or of the vendor library. *)
Inductive fp_thread : prog fpE fp_state unit → Prop :=
| ft_serve r : fp_thread (serve r)
| ft_notify msg : fp_thread (notify msg).

Lemma fp_thread_safe t d p σ : opened d (fields σ) → fp_thread p → safe t p (λ _ _, True) σ.
Proof.
  intros Hσ [r|msg].
  - eapply safe_mono; [by apply (serve_safe t d)|done].
  - eapply safe_mono; [apply notify_safe_fp|done]. unfold opened in Hσ.
    destruct (fields σ); [by eexists|done].
Qed.

(** ** No deadlock *)
Section order.
Variable leaf : bool.
#[local] Abbreviation ordered_to := (ordered_to (λ _ : fp_mutex, 0%nat) 0 leaf).
#[local] Abbreviation free p L := (ordered_to p L (λ _ L', L' = L)).

#[local] Ltac fp_holding :=
  cbn [holding sync_of fp_sync];
  repeat match goal with
    | |- context [filter ?f ?l] =>
        let v := eval vm_compute in (filter f l) in change (filter f l) with v
    end.
#[local] Ltac fp_run := repeat ordered_step_with ltac:(no_rank) ltac:(fp_holding).

Lemma notify_client_ordered cb dev msg L : free (notify_client cb dev msg) L.
Proof using Type. destruct msg; cbn [notify_client]; by fp_run. Qed.

(** The library is opened without the mutex. *)
Lemma getInstance_ordered L : free getInstance L.
Proof using Type.
  unfold getInstance, BiometricsFingerprint_new, set_this. fp_run; try done.
  - assert (∀ pair, free (try_hal pair) L) as Htry
      by (intros pair; unfold try_hal, openHal, set_this; by fp_run).
    generalize fpHals. intros pairs. induction pairs as [|pair pairs IH]; cbn [foreach_until].
    + by fp_run.
    + apply ordered_bind. eapply ordered_mono; [apply Htry|]. intros r L' ->.
      destruct r; [by fp_run|exact IH].
Qed.

Lemma serve_ordered r : free (serve r) [].
Proof using Type.
  assert (∀ B (q : prog fpE fp_state B), free q [] → free (_ ← q; mret ()) []) as Hthen.
  { intros B q Hq. apply ordered_bind. eapply ordered_mono; [exact Hq|]. by intros b L ->. }
  destruct r; cbn [serve]; try (apply Hthen;
    unfold preEnroll, enroll, postEnroll, getAuthenticatorId, cancel, enumerate, remove,
      setActiveGroup, authenticate, with_device; by fp_run).
  apply Hthen. unfold setNotify, set_this. fp_run; try done; [|left].
  by intros m ?%not_elem_of_nil.
Qed.

Lemma notify_ordered msg : free (notify msg) [].
Proof using Type.
  unfold notify. apply ordered_bind. eapply ordered_mono; [apply getInstance_ordered|].
  intros this L ->. fp_run; [by intros m ?%not_elem_of_nil|..]; try done; try left.
  eapply ordered_mono; [apply notify_client_ordered|]. intros [] L ->. fp_run; [left|done].
Qed.

Lemma process_ordered rs : free (fp_process rs) [].
Proof using Type.
  unfold fp_process. apply ordered_bind. eapply ordered_mono; [apply getInstance_ordered|].
  intros this L ->. apply ordered_foreach, serve_ordered.
Qed.

Lemma messages_ordered : free (foreach notify messages) [].
Proof using Type. apply ordered_foreach, notify_ordered. Qed.

Lemma free_ordered (p : prog fpE fp_state unit) :
  free p [] → ordered (λ _ : fp_mutex, 0%nat) 0 (λ _, True) leaf p [].
Proof using Type. intros Hp. eapply ordered_mono; [exact Hp|]. by intros u L ->. Qed.
End order.

End threads.

(** * All threads together *)
Section system.
Context {FC : FpConsts} {V : Vendor} {W : Type} {H : Handler fpE W}.
#[local] Abbreviation config := (config fpE fp_mutex fp_state W unit).
Implicit Type c : config.

(** No thread meets undefined behaviour; every event, in the state to which the
    events before it lead, keeps to the protocol; there is one instance. *)
Definition all_safe maker s c : Prop :=
  (∀ t, pool c !! t ≠ Some (Running UB)) ∧
  (∀ pre t e post, trace (now c) = pre ++ (t, e) :: post →
    ∃ σ, replay pre (Shared s (λ _, None) []) = Some σ ∧ fp_allowed maker σ t e) ∧
  (constructions (trace (now c)) ≤ 1)%nat.

(** Some thread can make its next move, or all have ended. *)
Definition not_stuck c : Prop :=
  (∃ t c', step t false c = Some c') ∨
  ∀ t th, pool c !! t = Some th → ∃ a, th = Running (Ret a).

Lemma start_inv s :
  (∀ this, s = Some this → mDevice this = None → mClientCallback this = None) →
  fp_inv (Shared s (λ _, None) []).
Proof using Type.
  intros Hs. split; [done| |apply Nat.le_0_l]. by intros (u & d & x & Hin%not_elem_of_nil).
Qed.

Lemma pool_all_safe maker answered ps s w c :
  (∀ X (e : fpE X) w, sync_of e = None → answered X e (handle e w).1) →
  (∀ this, s = Some this → mDevice this = None → mClientCallback this = None) →
  (∀ t p, ps !! t = Some p → safe (fp_allowed maker) fp_inv answered t p (λ _ _, True)
    (Shared s (λ _, None) [])) →
  reaches (start ps s w) c → all_safe maker s c.
Proof.
  intros Hans Hs Hps Hc.
  destruct (pool_safe (fp_allowed maker) fp_inv answered (fp_inv_step maker)) with
    (ps := ps) (s := s) (w := w) (c := c) as (Hi & Hub & Ht); [done| |by apply start_inv|done..|].
  - intros X e body answer failed Hsync t u σ Hi Hin. destruct e; try discriminate Hsync.
    injection Hsync as <- _ _. eapply safe_mono; [apply messages_safe|done].
    apply (inv_notifying σ Hi). by eexists _, _, _.
  - split; [done|]. split.
    + intros pre t e post Heq. destruct (Ht pre t e post Heq) as (σ & _ & ? & ?). by exists σ.
    + pose proof (inv_once _ Hi) as H1. destruct (fields (now c)); lia.
Qed.

Lemma pool_not_stuck ps s w c :
  (∀ t p, ps !! t = Some p → ordered (λ _ : fp_mutex, 0%nat) 0 (λ _, True) false p []) →
  reaches (start ps s w) c → (∀ t, pool c !! t ≠ Some (Running UB)) → not_stuck c.
Proof.
  intros Hps Hc Hub.
  destruct (pool_progress (λ _ : fp_mutex, 0%nat) 0 (λ _ : unit, True)) with
    (base := length ps) (bound := 1%nat) (ps := ps) (s := s) (w := w) (c := c)
    as [?|Hend]; [|done|lia|exact Hps|done|done|done|lia|by left|].
  - intros X e body answer failed Hsync. destruct e; try discriminate Hsync.
    injection Hsync as <- _ _. apply free_ordered, messages_ordered.
  - right. intros t th Hth. destruct (Hend t th Hth) as [?|(_ & z & (X & e & k & x & _ & Hs) & _)];
      [done|by destruct e].
Qed.

(** The fingerprint HAL is thread-safe once a device is open, for any number of
    threads in the thread pool: however the HIDL methods and the messages of the
    vendor library are interleaved, no thread meets undefined behaviour; only the
    callback is written, under its mutex; the framework is called under the mutex,
    and always by the callback that is registered then; every request goes to the
    open device; and no interleaving is stuck. *)
Theorem fp_threads_safe ps this (w : W) c :
  (∀ t p, ps !! t = Some p → fp_thread p) → is_Some (mDevice this) →
  reaches (start ps (Some this) w) c → all_safe None (Some this) c ∧ not_stuck c.
Proof.
  intros Hps [d Hd] Hc.
  assert (all_safe None (Some this) c) as Hs.
  { eapply (pool_all_safe None any_answer); [done| | |exact Hc].
    - intros x [= <-]. congruence.
    - intros t p Hp. apply (fp_thread_safe _ _ t d); [done|by apply (Hps t)]. }
  split; [done|]. eapply pool_not_stuck; [|exact Hc|by destruct Hs].
  intros t p Hp. apply free_ordered. destruct (Hps t p Hp); [apply serve_ordered|apply notify_ordered].
Qed.

End system.

(** * A service on which the Goodix library works, and sends two messages: one while
    the constructor runs, one when a client has registered *)
#[local] Existing Instance legacy_fingerprint.
#[local] Existing Instance goodix_env.
#[local] Instance goodix_vendor : Vendor :=
  {| messages := [FINGERPRINT_ACQUIRED 0; FINGERPRINT_AUTHENTICATED 4 2 [1; 2]]; refuses _ := None |}.

Definition fp_start : config fpE fp_mutex fp_state unit unit :=
  start [fp_process [SetNotify (Some 9); Cancel]] None ().

(** The constructor has given the library the function; the first message is
    delivered, and dropped; the constructor ends, and the client registers; the
    second message is delivered; and the client cancels. *)
Definition fp_schedule : list (nat * bool) :=
  turns 0 9 ++ turns 1 4 ++ turns 0 9 ++ turns 1 5 ++ turns 0 2.

Lemma goodix_answers X (e : fpE X) w : vendor_answers "gf_fingerprint" 5 77 X e (handle e w).1.
Proof. destruct e; simpl; try done. case_decide; naive_solver. Qed.

