(* ===== verification/UsbTypes.v ===== *)
(** The USB HAL's data ([src/usb/Usb.h], [src/usb/Usb.cpp]) and its calls to the
    environment: sysfs files, properties, the framework's callback, the
    thread library and the uevent socket.

    Numbers of the HIDL enumerations are parameters ([UsbConsts]); [usb_1_3] has
    the documented ones. *)
From S2P Require Import Prelude Effects CppString.
From stdpp Require Import options.

Inductive PortRoleType := DATA_ROLE | POWER_ROLE | MODE | OtherRoleType (v : Z).
#[export] Instance PortRoleType_eq_dec : EqDecision PortRoleType.
Proof. solve_decision. Defined.

Record PortRole := MkPortRole { pr_type : PortRoleType; pr_role : Z }.

Inductive Status := SUCCESS | ERROR | UNRECOGNIZED_ROLE.
#[export] Instance Status_eq_dec : EqDecision Status.
Proof. solve_decision. Defined.

Inductive HALVersion := V1_0 | V1_1 | V1_2 | V1_3.
#[export] Instance HALVersion_eq_dec : EqDecision HALVersion.
Proof. solve_decision. Defined.

(** V1_0::PortPowerRole, V1_0::PortDataRole, V1_1::PortMode_1_1, and the
    contaminant enumerations of V1_2. *)
Class UsbConsts := {
  Power_NONE : Z; Power_SOURCE : Z; Power_SINK : Z;
  Data_NONE : Z; Data_HOST : Z; Data_DEVICE : Z;
  Mode_NONE : Z; Mode_UFP : Z; Mode_DFP : Z; Mode_DRP : Z;
  Mode_AUDIO_ACCESSORY : Z; Mode_DEBUG_ACCESSORY : Z;
  Protection_FORCE_SINK : Z; ProtectionStatus_NONE : Z; Detection_NOT_DETECTED : Z;
}.

(** Documented facts: enumerators of one enumeration differ. *)
Class UsbLaws {UC : UsbConsts} : Prop := {
  power_roles : NoDup [Power_NONE; Power_SOURCE; Power_SINK];
  data_roles : NoDup [Data_NONE; Data_HOST; Data_DEVICE];
  modes : NoDup [Mode_NONE; Mode_UFP; Mode_DFP; Mode_DRP; Mode_AUDIO_ACCESSORY;
    Mode_DEBUG_ACCESSORY];
}.

Definition usb_1_3 : UsbConsts := {|
  Power_NONE := 0; Power_SOURCE := 1; Power_SINK := 2;
  Data_NONE := 0; Data_HOST := 1; Data_DEVICE := 2;
  Mode_NONE := 0; Mode_UFP := 1; Mode_DFP := 2; Mode_DRP := 3;
  Mode_AUDIO_ACCESSORY := 4; Mode_DEBUG_ACCESSORY := 8;
  Protection_FORCE_SINK := 1; ProtectionStatus_NONE := 0; Detection_NOT_DETECTED := 2;
|}.

Lemma usb_1_3_laws : UsbLaws (UC := usb_1_3).
Proof. split; simpl; repeat (apply NoDup_cons; split; [set_solver|]); by auto using NoDup_nil_2. Qed.

(** V1_2::PortStatus, with the V1_1 and V1_0 parts it contains. *)
Record PortStatus := MkPortStatus {
  portName : string;
  currentPowerRole : Z;
  currentDataRole : Z;
  currentMode : Z;                 (* V1_0 *)
  currentMode_1_1 : Z;
  canChangeMode : bool;
  canChangeDataRole : bool;
  canChangePowerRole : bool;
  supportedModes : Z;              (* V1_0 *)
  supportedModes_1_1 : Z;
  supportedContaminantProtectionModes : Z;
  contaminantProtectionStatus : Z;
  contaminantDetectionStatus : Z;
  supportsEnableContaminantPresenceDetection : bool;
  supportsEnableContaminantPresenceProtection : bool;
}.

(** What [resize] creates. *)
Definition default_PortStatus : PortStatus :=
  MkPortStatus "" 0 0 0 0 false false false 0 0 0 0 0 false false.

Inductive usbE : Type → Type :=
| GetProperty (key default : string) : usbE string
| WriteStringToFile (content path : string) : usbE bool
(* fopen for reading and getline: [None] when it cannot be opened, [Some None]
   at the end of the file *)
| ReadLine (path : string) : usbE (option (option string))
(* fopen for writing: whether it is open *)
| OpenNode (path : string) : usbE bool
(* fputs to the open file and fclose: [false] on EOF *)
| WriteNode (path text : string) : usbE bool
(* the entries of a directory, each with "is a symbolic link" *)
| ReadDir (path : string) : usbE (option (list (bool * string)))
(* opendir and closedir *)
| ProbeDir (path : string) : usbE bool
(* pthread_cond_timedwait on [mPartnerCV]: timed out, and [mPartnerUp] when the
   lock is back *)
| TimedWait (seconds : Z) : usbE (bool * bool)
| SignalPartner : usbE unit
| LockRoleSwitch : usbE unit
| TryLockRoleSwitch : usbE bool
| UnlockRoleSwitch : usbE unit
| LockCallback : usbE unit
| UnlockCallback : usbE unit
| LockPartner : usbE unit
| UnlockPartner : usbE unit
| CastFrom_1_1 (cb : option Z) : usbE (option Z)
| CastFrom_1_2 (cb : option Z) : usbE (option Z)
| Cb_notifyRoleSwitchStatus (cb : Z) (portName : string) (role : PortRole) (status : Status)
    : usbE bool
| Cb_notifyPortStatusChange_1_2 (cb : Z) (ports : list PortStatus) (status : Status) : usbE bool
| Cb_notifyPortStatusChange_1_1 (cb : Z) (ports : list PortStatus) (status : Status) : usbE bool
| Cb_notifyPortStatusChange (cb : Z) (ports : list PortStatus) (status : Status) : usbE bool
(* uevent_kernel_multicast_recv into a buffer of [len] bytes: the bytes, or an
   error *)
| UeventRecv (fd len : Z) : usbE (option string)
| UeventOpenSocket : usbE Z
| SetNonblock (fd : Z) : usbE unit
| EpollCreate : usbE Z
| EpollAdd (epfd fd : Z) : usbE Z
(* the number of events or -1; whether [errno] is EINTR; whether SIGUSR1 has been
   delivered to the thread since its last look at [destroyThread] *)
| EpollWait (epfd : Z) : usbE (Z * bool * bool)
| CloseFd (fd : Z) : usbE unit
(* the thread, which runs [work] *)
| Pthread_create : usbE (option Z)
(* [true]: the signal was sent *)
| Pthread_kill_USR1 (thread : Z) : usbE bool
| Pthread_join (thread : Z) : usbE unit
| Signal_USR1 : usbE unit.

(** The fields of [Usb] and the global [destroyThread].  [mPoll] is
    indeterminate until a thread has been created. *)
Record Usb := MkUsb {
  mCallback_1_0 : option Z;
  mPartnerUp : bool;
  mPoll : option Z;
  destroyThread : bool;
}.
Definition set_mCallback_1_0 (v : option Z) (s : Usb) : Usb :=
  MkUsb v (mPartnerUp s) (mPoll s) (destroyThread s).
Definition set_mPartnerUp (v : bool) (s : Usb) : Usb :=
  MkUsb (mCallback_1_0 s) v (mPoll s) (destroyThread s).
Definition set_mPoll (v : option Z) (s : Usb) : Usb :=
  MkUsb (mCallback_1_0 s) (mPartnerUp s) v (destroyThread s).
Definition set_destroyThread (v : bool) (s : Usb) : Usb :=
  MkUsb (mCallback_1_0 s) (mPartnerUp s) (mPoll s) v.

(** * A device: one port with a partner, which has just been added *)
Definition one_port : Handler usbE unit := λ X c w,
  (match c in usbE X return X with
   | GetProperty _ default => default
   | WriteStringToFile _ _ => true
   | ReadLine _ => Some (Some "[host] device")
   | OpenNode _ => true
   | WriteNode _ _ => true
   | ReadDir _ => Some [(false, "."); (true, "port0"); (true, "port0-partner")]
   | ProbeDir _ => true
   | TimedWait _ => (false, true)
   | TryLockRoleSwitch => true
   | CastFrom_1_1 cb | CastFrom_1_2 cb => cb
   | Cb_notifyRoleSwitchStatus _ _ _ _ => true
   | Cb_notifyPortStatusChange_1_2 _ _ _ => true
   | Cb_notifyPortStatusChange_1_1 _ _ _ => true
   | Cb_notifyPortStatusChange _ _ _ => true
   | UeventRecv _ _ => Some (String.append "add@/typec/port0-partner"
       (String Ascii.zero "DEVTYPE=typec_partner"))
   | UeventOpenSocket => 3
   | EpollCreate => 4
   | EpollAdd _ _ => 0
   | EpollWait _ => (1, false, true)
   | Pthread_create => Some 1
   | Pthread_kill_USR1 _ => true
   | SignalPartner | LockRoleSwitch | UnlockRoleSwitch | LockCallback | UnlockCallback
   | LockPartner | UnlockPartner | SetNonblock _ | CloseFd _ | Pthread_join _ | Signal_USR1 => tt
   end, w).
