(* ===== verification/UsbPort.v ===== *)
(** USB-C ports as the USB HAL sees them ([src/usb/Usb.cpp]): sysfs files, role
    names, the ports and partners of [/sys/class/typec], and their status. *)
From S2P Require Import Prelude Effects CppString UsbTypes.
From stdpp Require Import options.
#[local] Set Default Proof Using "Type*".

Section port.
Context {UC : UsbConsts} {W : Type} {H : Handler usbE W}.

#[local] Abbreviation io A := (prog usbE Usb A).

(** [enableUsbDataSignal]: both writes are made, whatever the first answers. *)
Definition enableUsbDataSignal (enable : bool) : io bool :=
  kGadgetName ← call (GetProperty "sys.usb.controller" "");
  let USB_DATA_PATH := "/sys/class/udc/" +:+ kGadgetName +:+ "/device/" +:+ "cmode" in
  if enable then
    ok1 ← call (WriteStringToFile "1" USB_DATA_PATH);
    ok2 ← call (WriteStringToFile kGadgetName "/config/usb_gadget/g1/UDC");
    mret (ok1 && ok2)
  else
    ok1 ← call (WriteStringToFile "0" USB_DATA_PATH);
    ok2 ← call (WriteStringToFile "none" "/config/usb_gadget/g1/UDC");
    mret (ok1 && ok2).

(** The first line, up to a newline or a NUL.  The answer is 0 or -1, with the
    new value of [*contents], which stays as it was at the end of a file. *)
Definition readFile (filename contents : string) : io (Z * string) :=
  r ← call (ReadLine (c_str filename));
  match r with
  | None => mret (-1, contents)
  | Some None => mret (0, contents)
  | Some (Some line) => mret (0, c_str (until_char "010" line))
  end.

(** Only the first port of the list. *)
Definition queryMoistureDetectionStatus (ports : list PortStatus) : Status * list PortStatus :=
  match ports with
  | [] => (ERROR, [])
  | p :: rest =>
      (SUCCESS,
       MkPortStatus (portName p) (currentPowerRole p) (currentDataRole p) (currentMode p)
         (currentMode_1_1 p) (canChangeMode p) (canChangeDataRole p) (canChangePowerRole p)
         (supportedModes p) (supportedModes_1_1 p)
         (Z.lor 0 Protection_FORCE_SINK) ProtectionStatus_NONE Detection_NOT_DETECTED
         false false :: rest)
  end.

(** * Roles *)
Definition appendRoleNodeHelper (portName : string) (type : PortRoleType) : string :=
  let node := "/sys/class/typec/" +:+ portName in
  match type with
  | DATA_ROLE => node +:+ "/data_role"
  | POWER_ROLE => node +:+ "/power_role"
  | MODE => node +:+ "/port_type"
  | OtherRoleType _ => ""
  end.

Definition convertRoletoString (role : PortRole) : string :=
  match pr_type role with
  | POWER_ROLE =>
      if bool_decide (pr_role role = Power_SOURCE) then "source"
      else if bool_decide (pr_role role = Power_SINK) then "sink" else "none"
  | DATA_ROLE =>
      if bool_decide (pr_role role = Data_HOST) then "host"
      else if bool_decide (pr_role role = Data_DEVICE) then "device" else "none"
  | MODE =>
      if bool_decide (pr_role role = Mode_UFP) then "sink"
      else if bool_decide (pr_role role = Mode_DFP) then "source" else "none"
  | OtherRoleType _ => "none"
  end.

(** [substr] throws when its position is past the end, which it never is here. *)
Definition extractRole (roleName : string) : string :=
  let first := find roleName "[" in
  let last := find roleName "]" in
  if bool_decide (first ≠ npos) && bool_decide (last ≠ npos)
  then default roleName (substr roleName (to_size (first + 1)) (to_size (last - first - 1)))
  else roleName.

Definition getAccessoryConnected (portName accessory : string) : io (Status * string) :=
  '(r, accessory) ←
    readFile ("/sys/class/typec/" +:+ portName +:+ "-partner/accessory_mode") accessory;
  if bool_decide (r ≠ 0) then mret (ERROR, accessory) else mret (SUCCESS, accessory).

(** The file with the role, and the role of a port without a partner. *)
Definition role_file (portName : string) (type : PortRoleType) : option (string * Z) :=
  match type with
  | POWER_ROLE => Some ("/sys/class/typec/" +:+ portName +:+ "/power_role", Power_NONE)
  | DATA_ROLE => Some ("/sys/class/typec/" +:+ portName +:+ "/data_role", Data_NONE)
  | MODE => Some ("/sys/class/typec/" +:+ portName +:+ "/data_role", Mode_NONE)
  | OtherRoleType _ => None
  end.

(** The role a name stands for; [None] for a name that is not recognized. *)
Definition role_of_name (type : PortRoleType) (none : Z) (roleName : string) : option Z :=
  if bool_decide (roleName = "source") then Some Power_SOURCE
  else if bool_decide (roleName = "sink") then Some Power_SINK
  else if bool_decide (roleName = "host") then
    Some (if bool_decide (type = DATA_ROLE) then Data_HOST else Mode_DFP)
  else if bool_decide (roleName = "device") then
    Some (if bool_decide (type = DATA_ROLE) then Data_DEVICE else Mode_UFP)
  else if bool_decide (roleName ≠ "none") then None
  else Some none.

(** The status and [*currentRole], which is 0 here when it is not written. *)
Definition getCurrentRoleHelper (portName : string) (connected : bool) (type : PortRoleType)
    : io (Status * Z) :=
  match role_file portName type with
  | None => mret (ERROR, 0)
  | Some (filename, none) =>
      if negb connected then mret (SUCCESS, none)
      else
        let by_name :=
          '(r, roleName) ← readFile filename "";
          if bool_decide (r ≠ 0) then mret (ERROR, none)
          else
            match role_of_name type none (extractRole roleName) with
            | Some role => mret (SUCCESS, role)
            | None => mret (UNRECOGNIZED_ROLE, none)
            end in
        if bool_decide (type = MODE) then
          '(status, accessory) ← getAccessoryConnected portName "";
          if bool_decide (status ≠ SUCCESS) then mret (ERROR, none)
          else if bool_decide (accessory = "analog_audio") then
            mret (SUCCESS, Mode_AUDIO_ACCESSORY)
          else if bool_decide (accessory = "debug") then mret (SUCCESS, Mode_DEBUG_ACCESSORY)
          else by_name
        else by_name
  end.

(** * Ports and partners *)

(** One entry of [/sys/class/typec].  [strtok] of a name without a token is a
    null pointer, from which a string cannot be built. *)
Definition add_name (names : gmap string bool) (ep : bool * string) : option (gmap string bool) :=
  let '(is_link, d_name) := ep in
  if is_link : bool then
    if bool_decide (find d_name "-partner" = npos) then
      Some (match names !! d_name with
            | None => <[d_name := false]> names
            | Some _ => names
            end)
    else
      match strtok "-" d_name with
      | Some (token, _) => Some (<[token := true]> names)
      | None => None
      end
  else Some names.

Fixpoint add_names (names : gmap string bool) (eps : list (bool * string))
    : option (gmap string bool) :=
  match eps with
  | [] => Some names
  | ep :: eps => names ← add_name names ep; add_names names eps
  end.

Definition getTypeCPortNamesHelper : io (Status * gmap string bool) :=
  dp ← call (ReadDir "/sys/class/typec");
  match dp with
  | Some eps =>
      match add_names ∅ eps with
      | Some names => mret (SUCCESS, names)
      | None => undef
      end
  | None => mret (ERROR, ∅)
  end.

Definition canSwitchRoleHelper (portName : string) (type : PortRoleType) : io bool :=
  '(r, supportsPD) ←
    readFile ("/sys/class/typec/" +:+ portName +:+ "-partner/supports_usb_power_delivery") "";
  mret (bool_decide (r = 0) && bool_decide (supportsPD = "yes")).

(** * Status of the ports *)
Context {MO : MapOrder string bool}.

Definition set_portName (v : string) (p : PortStatus) : PortStatus :=
  MkPortStatus v (currentPowerRole p) (currentDataRole p) (currentMode p) (currentMode_1_1 p)
    (canChangeMode p) (canChangeDataRole p) (canChangePowerRole p) (supportedModes p)
    (supportedModes_1_1 p) (supportedContaminantProtectionModes p)
    (contaminantProtectionStatus p) (contaminantDetectionStatus p)
    (supportsEnableContaminantPresenceDetection p) (supportsEnableContaminantPresenceProtection p).
Definition set_roles (power data mode mode_1_1 : Z) (p : PortStatus) : PortStatus :=
  MkPortStatus (portName p) power data mode mode_1_1
    (canChangeMode p) (canChangeDataRole p) (canChangePowerRole p) (supportedModes p)
    (supportedModes_1_1 p) (supportedContaminantProtectionModes p)
    (contaminantProtectionStatus p) (contaminantDetectionStatus p)
    (supportsEnableContaminantPresenceDetection p) (supportsEnableContaminantPresenceProtection p).
Definition set_changes (mode data power : bool) (p : PortStatus) : PortStatus :=
  MkPortStatus (portName p) (currentPowerRole p) (currentDataRole p) (currentMode p)
    (currentMode_1_1 p) mode data power (supportedModes p)
    (supportedModes_1_1 p) (supportedContaminantProtectionModes p)
    (contaminantProtectionStatus p) (contaminantDetectionStatus p)
    (supportsEnableContaminantPresenceDetection p) (supportsEnableContaminantPresenceProtection p).
Definition set_modes (supported_1_0 supported_1_1 mode : Z) (p : PortStatus) : PortStatus :=
  MkPortStatus (portName p) (currentPowerRole p) (currentDataRole p) mode (currentMode_1_1 p)
    (canChangeMode p) (canChangeDataRole p) (canChangePowerRole p) supported_1_0
    supported_1_1 (supportedContaminantProtectionModes p)
    (contaminantProtectionStatus p) (contaminantDetectionStatus p)
    (supportsEnableContaminantPresenceDetection p) (supportsEnableContaminantPresenceProtection p).

(** A connected port that reads as NONE is reported as a sink device. *)
Definition spoof_role (connected : bool) (none spoofed role : Z) : Z :=
  if connected && bool_decide (role = none) then spoofed else role.

(** The body of the loop for one port, on its element of the vector; [false]
    when a role cannot be read, with the element as it is then. *)
Definition port_status (version : HALVersion) (name : string) (connected : bool)
    (p : PortStatus) : io (bool * PortStatus) :=
  let p := set_portName name p in
  '(status, power) ← getCurrentRoleHelper name connected POWER_ROLE;
  if bool_decide (status ≠ SUCCESS) then mret (false, p)
  else
    let p := set_roles power (currentDataRole p) (currentMode p) (currentMode_1_1 p) p in
    '(status, data) ← getCurrentRoleHelper name connected DATA_ROLE;
    if bool_decide (status ≠ SUCCESS) then mret (false, p)
    else
      let data := spoof_role connected Data_NONE Data_DEVICE data in
      let p := set_roles power data (currentMode p) (currentMode_1_1 p) p in
      '(status, mode) ← getCurrentRoleHelper name connected MODE;
      if bool_decide (status ≠ SUCCESS) then mret (false, p)
      else
        let mode := spoof_role connected Mode_NONE Mode_UFP mode in
        let p := set_roles power data mode mode p in
        change_data ← (if connected then canSwitchRoleHelper name DATA_ROLE else mret false);
        change_power ← (if connected then canSwitchRoleHelper name POWER_ROLE else mret false);
        let p := set_changes true change_data change_power p in
        mret (true,
          if bool_decide (version = V1_0) then set_modes Mode_DRP (supportedModes_1_1 p) mode p
          else set_modes Mode_NONE (Z.lor 0 Mode_DRP) Mode_NONE p).

(** The loop over the ports; [i] is the index of the next element. *)
Fixpoint port_statuses (version : HALVersion) (i : nat) (ports : list (string * bool))
    (v : list PortStatus) : io (Status * list PortStatus) :=
  match ports with
  | [] => mret (SUCCESS, v)
  | (name, connected) :: ports =>
      match v !! i with
      | None => undef
      | Some p =>
          '(ok, p) ← port_status version name connected p;
          let v := <[i := p]> v in
          if ok : bool then port_statuses version (S i) ports v else mret (ERROR, v)
      end
  end.

(** [resize] keeps what was there. *)
Definition resize (n : nat) (v : list PortStatus) : list PortStatus :=
  take n v ++ replicate (n - length v) default_PortStatus.

Definition getPortStatusHelper (version : HALVersion) (v : list PortStatus)
    : io (Status * list PortStatus) :=
  '(result, names) ← getTypeCPortNamesHelper;
  if bool_decide (result = SUCCESS)
  then port_statuses version 0 (iterate names) (resize (length (iterate names)) v)
  else mret (ERROR, v).

(** The callback is the newest version it can be cast to; the older callbacks
    get the parts they know.  The answer is the vector, which the caller owns. *)
Definition queryVersionHelper (v : list PortStatus) : io (list PortStatus) :=
  s ← get;
  callback_V1_1 ← call (CastFrom_1_1 (mCallback_1_0 s));
  s ← get;
  callback_V1_2 ← call (CastFrom_1_2 (mCallback_1_0 s));
  call LockCallback ;;
  s ← get;
  v ← match mCallback_1_0 s with
      | None => mret v
      | Some callback =>
          match callback_V1_2, callback_V1_1 with
          | Some cb, _ =>
              '(status, v) ← getPortStatusHelper V1_2 v;
              let v := if bool_decide (status = SUCCESS)
                       then (queryMoistureDetectionStatus v).2 else v in
              _ ← call (Cb_notifyPortStatusChange_1_2 cb v status);
              mret v
          | None, Some cb =>
              '(status, v) ← getPortStatusHelper V1_1 v;
              _ ← call (Cb_notifyPortStatusChange_1_1 cb v status);
              mret v
          | None, None =>
              '(status, v) ← getPortStatusHelper V1_0 v;
              _ ← call (Cb_notifyPortStatusChange callback v status);
              mret v
          end
      end;
  call UnlockCallback ;;
  mret v.

Definition queryPortStatus : io unit := queryVersionHelper [] ;; mret ().
Definition enableContaminantPresenceDetection (portName : string) (enable : bool) : io unit :=
  queryVersionHelper [] ;; mret ().
Definition enableContaminantPresenceProtection (portName : string) (enable : bool) : io unit :=
  queryVersionHelper [] ;; mret ().
End port.
