(* ===== verification/UsbPortFacts.v ===== *)
(** What the port status of the USB HAL guarantees: the table of ports does not
    depend on the order of the directory, each port is reported once, and a
    port with a partner is never reported as idle. *)
From S2P Require Import Prelude Effects CppString UsbTypes UsbPort.
From stdpp Require Import options.
#[local] Set Default Proof Using "Type*".

(** * The table of ports *)

(** A link whose name has "-partner" says its first token has a partner; any
    other link is a port. *)
Definition partner_in (eps : list (bool * string)) (port : string) : Prop :=
  ∃ name rest, (true, name) ∈ eps ∧ find name "-partner" ≠ npos ∧
    strtok "-" name = Some (port, rest).
Definition port_in (eps : list (bool * string)) (port : string) : Prop :=
  (true, port) ∈ eps ∧ find port "-partner" = npos.

(** A name with "-partner" in it has a token. *)
Lemma partner_token name : find name "-partner" ≠ npos → is_Some (strtok "-" name).
Proof.
  unfold find, strtok. destruct (find_pos "-partner" name) as [n|] eqn:Hn; [intros _|done].
  assert (skip_char "-" name ≠ "") as Hne.
  { revert n Hn. induction name as [|c s IH]; intros n Hn; [done|]. cbn [find_pos] in Hn.
    cbn [skip_char]. case_bool_decide as Hc; [|done]. subst c.
    destruct (String.prefix "-partner" (String "-" s)) eqn:Hp.
    - destruct s as [|c s]; [done|]. simpl in Hp.
      match type of Hp with context [if ?d then _ else _] => destruct d as [<-|]; [|done] end.
      cbn [skip_char]. by rewrite bool_decide_false.
    - destruct (find_pos "-partner" s) as [m|]; [|done]. by apply (IH m). }
  destruct (skip_char "-" name); [done|]. by eexists.
Qed.

Lemma add_name_spec m ep : ∃ m', add_name m ep = Some m' ∧ ∀ k,
  (m' !! k = Some true ↔ m !! k = Some true ∨ partner_in [ep] k) ∧
  (is_Some (m' !! k) ↔ is_Some (m !! k) ∨ partner_in [ep] k ∨ port_in [ep] k).
Proof.
  unfold partner_in, port_in. setoid_rewrite list_elem_of_singleton.
  destruct ep as [[] name]; simpl.
  2: { exists m. split; [done|]. intros k. split; (split; [by left|]);
         [intros [?|(n & r & [=] & _)]|intros [?|[(n & r & [=] & _)|[[=] _]]]]; done. }
  case_bool_decide as Hp.
  - exists (match m !! name with None => <[name := false]> m | Some _ => m end).
    split; [done|]. intros k. destruct (m !! name) as [b|] eqn:Hm.
    + split; (split; [by left|]).
      * intros [?|(n & r & [= ->] & ? & _)]; done.
      * intros [?|[(n & r & [= ->] & ? & _)|[[= ->] _]]]; [done..|by rewrite Hm].
    + destruct (decide (name = k)) as [<-|Hne].
      * rewrite lookup_insert_eq, Hm. split; split; try done.
        -- intros [?|(n & r & [= ->] & ? & _)]; done.
        -- intros _. right. by right.
      * rewrite lookup_insert_ne by done. split; (split; [by left|]).
        -- intros [?|(n & r & [= ->] & ? & _)]; done.
        -- intros [?|[(n & r & [= ->] & ? & _)|[[= ->] _]]]; done.
  - destruct (partner_token name Hp) as [[token rest] Htok]. rewrite Htok.
    exists (<[token := true]> m). split; [done|]. intros k.
    destruct (decide (token = k)) as [<-|Hne].
    + rewrite lookup_insert_eq. split; (split; [|done]); intros _; right;
        [by exists name, rest|left; by exists name, rest].
    + rewrite lookup_insert_ne by done. split; (split; [by left|]).
      * intros [?|(n & r & [= ->] & _ & Ht)]; [done|congruence].
      * intros [?|[(n & r & [= ->] & _ & Ht)|[[= ->] ?]]]; [done|congruence|done].
Qed.

Lemma partner_in_cons ep eps k : partner_in (ep :: eps) k ↔ partner_in [ep] k ∨ partner_in eps k.
Proof.
  unfold partner_in. setoid_rewrite list_elem_of_singleton. setoid_rewrite elem_of_cons.
  split; [intros (n & r & [?|?] & ?)|intros [(n & r & ? & ?)|(n & r & ? & ?)]]; eauto 8.
Qed.

Lemma port_in_cons ep eps k : port_in (ep :: eps) k ↔ port_in [ep] k ∨ port_in eps k.
Proof.
  unfold port_in. rewrite list_elem_of_singleton, elem_of_cons. tauto.
Qed.

Lemma add_names_from m eps : ∃ m', add_names m eps = Some m' ∧ ∀ k,
  (m' !! k = Some true ↔ m !! k = Some true ∨ partner_in eps k) ∧
  (is_Some (m' !! k) ↔ is_Some (m !! k) ∨ partner_in eps k ∨ port_in eps k).
Proof.
  revert m. induction eps as [|ep eps IH]; intros m.
  - exists m. split; [done|]. intros k. unfold partner_in, port_in.
    split; (split; [by left|]).
    + intros [?|(n & r & ?%elem_of_nil & _)]; done.
    + intros [?|[(n & r & ?%elem_of_nil & _)|[?%elem_of_nil _]]]; done.
  - destruct (add_name_spec m ep) as (m1 & Hm1 & Hk1).
    destruct (IH m1) as (m2 & Hm2 & Hk2). exists m2. cbn [add_names]. rewrite Hm1.
    split; [done|]. intros k. destruct (Hk1 k) as [A1 B1], (Hk2 k) as [A2 B2].
    rewrite partner_in_cons, port_in_cons. split; [rewrite A2, A1|rewrite B2, B1]; tauto.
Qed.

Lemma option_bool_ext (a b : option bool) :
  (a = Some true ↔ b = Some true) → (is_Some a ↔ is_Some b) → a = b.
Proof.
  unfold is_Some. destruct a as [[]|], b as [[]|]; naive_solver.
Qed.

(** The table of ports: reading the directory never meets a null token; a
    port is in the table exactly when a link names it or a partner of it, and
    is connected exactly when it has a partner; so the table does not depend
    on the order in which the directory lists its entries. *)
Theorem port_names_spec eps :
  ∃ names, add_names ∅ eps = Some names ∧
    (∀ k, (names !! k = Some true ↔ partner_in eps k) ∧
          (is_Some (names !! k) ↔ partner_in eps k ∨ port_in eps k)) ∧
    ∀ eps', eps' ≡ₚ eps → add_names ∅ eps' = Some names.
Proof.
  destruct (add_names_from ∅ eps) as (names & Hn & Hk). exists names. split; [done|].
  assert (∀ k, (names !! k = Some true ↔ partner_in eps k) ∧
    (is_Some (names !! k) ↔ partner_in eps k ∨ port_in eps k)) as Hnames.
  { intros k. destruct (Hk k) as [A B]. rewrite lookup_empty in A, B.
    split; [rewrite A|rewrite B]; (split; [|by right]); intros [Hx|Hx]; done || by destruct Hx. }
  split; [done|]. intros eps' Hperm.
  destruct (add_names_from ∅ eps') as (names' & Hn' & Hk'). rewrite Hn'. f_equal.
  assert (∀ k, partner_in eps' k ↔ partner_in eps k) as HA.
  { intros k. unfold partner_in. by setoid_rewrite Hperm. }
  assert (∀ k, port_in eps' k ↔ port_in eps k) as HB.
  { intros k. unfold port_in. by rewrite Hperm. }
  apply map_eq. intros k. destruct (Hk' k) as [A B], (Hnames k) as [A' B'].
  rewrite lookup_empty, HA in A. rewrite lookup_empty, HA, HB in B.
  apply option_bool_ext.
  - rewrite A, A'. split; [by intros [?|?]|by right].
  - rewrite B, B'. split; [intros [Hx|?]; [by destruct Hx|done]|by right].
Qed.

(** * Status of the ports *)
Section status.
Context {UC : UsbConsts} {UL : UsbLaws} {W : Type} {H : Handler usbE W}.
Context {MO : MapOrder string bool}.
Implicit Types (s : Usb) (w : W).

(** The directories listed in a log. *)
Definition listed (l : list (entry usbE)) : list (list (bool * string)) :=
  omap (λ e, match e with
             | Entry c r =>
                 match c in usbE X return X → option (list (bool * string)) with
                 | ReadDir _ => id
                 | _ => λ _, None
                 end r
             end) l.

Lemma listed_app l1 l2 : listed (l1 ++ l2) = listed l1 ++ listed l2.
Proof using Type. apply omap_app. Qed.

(** Files are read, and nothing else. *)
Definition is_read (e : entry usbE) : bool :=
  match entry_call e with ReadLine _ => true | _ => false end.

(** Reads only: the fields stay. *)
Definition reads s s' (l : list (entry usbE)) : Prop := s' = s ∧ forallb is_read l = true.

Lemma reads_app s l1 l2 : reads s s l1 → reads s s l2 → reads s s (l1 ++ l2).
Proof using Type. intros [_ H1] [_ H2]. split; [done|]. by rewrite forallb_app, H1, H2. Qed.

Lemma reads_listed s s' l : reads s s' l → listed l = [].
Proof using Type.
  intros [_ Hl]. induction l as [|[X c r] l IH]; [done|]. simpl in Hl.
  apply andb_true_iff in Hl as [Hc Hl]. destruct c; try discriminate Hc. simpl. by apply IH.
Qed.

Lemma readFile_reads f c s w : wp (readFile f c) s w (λ _ s' _ l, reads s s' l).
Proof.
  apply wp_bind, wp_call. intros [[line|]|] w1 _; by apply wp_ret.
Qed.

Lemma getCurrentRole_spec name connected type s w :
  wp (getCurrentRoleHelper name connected type) s w (λ '(status, role) s' _ l,
    reads s s' l ∧
    (connected = false → status = SUCCESS → snd <$> role_file name type = Some role)).
Proof.
  unfold getCurrentRoleHelper. destruct (role_file name type) as [[file none]|]; [|by apply wp_ret].
  destruct connected; cbn [negb]; [|by apply wp_ret].
  assert (∀ w, wp ('(r, roleName) ← readFile file "";
    if bool_decide (r ≠ 0) then mret (ERROR, none)
    else match role_of_name type none (extractRole roleName) with
         | Some role => mret (SUCCESS, role)
         | None => mret (UNRECOGNIZED_ROLE, none)
         end) s w (λ '(status, role) s' _ l, reads s s' l ∧
    (true = false → status = SUCCESS → snd <$> Some (file, none) = Some role))) as Hname.
  { intros w1. apply wp_bind. eapply wp_mono; [apply readFile_reads|].
    intros [r n] s' w' l [-> Hl]. case_bool_decide; [|destruct (role_of_name _ _ _)];
      apply wp_ret; rewrite app_nil_r; done. }
  case_bool_decide; [|by apply Hname]. apply wp_bind. unfold getAccessoryConnected.
  apply wp_bind. eapply wp_mono; [apply readFile_reads|]. intros [r acc] s1 w1 l1 [-> Hl1].
  case_bool_decide; apply wp_ret.
  - rewrite bool_decide_true by done. apply wp_ret. by rewrite !app_nil_r.
  - rewrite bool_decide_false by (intros Hx; by apply Hx).
    repeat case_bool_decide; try (apply wp_ret; by rewrite !app_nil_r).
    eapply wp_mono; [apply Hname|]. intros [st role] s2 w2 l2 [[-> Hl2] ?].
    rewrite app_nil_r. split; [|done]. by apply reads_app.
Qed.

Lemma canSwitch_reads name type s w :
  wp (canSwitchRoleHelper name type) s w (λ _ s' _ l, reads s s' l).
Proof.
  apply wp_bind. eapply wp_mono; [apply readFile_reads|]. intros [r n] s' w' l Hl.
  apply wp_ret. by rewrite app_nil_r.
Qed.

(** What is reported of a port. *)
Record port_ok (version : HALVersion) (port : string * bool) (p : PortStatus) : Prop := {
  ok_name : portName p = port.1;
  ok_connected : port.2 = true →
    currentDataRole p ≠ Data_NONE ∧ currentMode_1_1 p ≠ Mode_NONE;
  ok_idle : port.2 = false →
    currentPowerRole p = Power_NONE ∧ currentDataRole p = Data_NONE ∧
    currentMode_1_1 p = Mode_NONE ∧ canChangeDataRole p = false ∧ canChangePowerRole p = false;
  ok_version : canChangeMode p = true ∧
    if bool_decide (version = V1_0) then
      supportedModes p = Mode_DRP ∧ currentMode p = currentMode_1_1 p
    else supportedModes_1_1 p = Mode_DRP ∧ supportedModes p = Mode_NONE ∧
      currentMode p = Mode_NONE;
}.

Lemma spoof_not_none connected none spoofed role :
  spoofed ≠ none → connected = true → spoof_role connected none spoofed role ≠ none.
Proof using Type. intros Hne ->. unfold spoof_role. simpl. by case_bool_decide. Qed.

Lemma constants_differ : Data_DEVICE ≠ Data_NONE ∧ Mode_UFP ≠ Mode_NONE.
Proof.
  pose proof data_roles as Hd. pose proof modes as Hm.
  apply NoDup_cons in Hd as [Hd _]. apply NoDup_cons in Hm as [Hm _].
  split; [intros Hx; apply Hd|intros Hx; apply Hm]; rewrite <- Hx;
    [apply list_elem_of_further|]; apply list_elem_of_here.
Qed.

Lemma port_status_spec version name connected p s w :
  wp (port_status version name connected p) s w (λ '(ok, p') s' _ l,
    reads s s' l ∧ (ok = true → port_ok version (name, connected) p')).
Proof.
  destruct constants_differ as [HD HM]. unfold port_status. apply wp_bind.
  eapply wp_mono; [apply getCurrentRole_spec|]. intros [st power] s1 w1 l1 [[-> L1] P1].
  case_bool_decide as Hst1; [apply wp_ret; by rewrite app_nil_r|].
  apply wp_bind. eapply wp_mono; [apply getCurrentRole_spec|].
  intros [st2 data] s2 w2 l2 [[-> L2] P2].
  case_bool_decide as Hst2.
  { apply wp_ret. rewrite app_nil_r. split; [by apply reads_app|done]. }
  apply wp_bind. eapply wp_mono; [apply getCurrentRole_spec|].
  intros [st3 mode] s3 w3 l3 [[-> L3] P3].
  case_bool_decide as Hst3.
  { apply wp_ret. rewrite app_nil_r. split; [by repeat apply reads_app|done]. }
  assert (∀ type w, wp (if connected then canSwitchRoleHelper name type else mret false) s w
    (λ b s' _ l, reads s s' l ∧ (connected = false → b = false))) as Hswitch.
  { intros type w0. destruct connected; [|by apply wp_ret].
    eapply wp_mono; [apply canSwitch_reads|]. by intros. }
  apply wp_bind. eapply wp_mono; [apply Hswitch|]. intros b1 s4 w4 l4 [[-> L4] B1].
  apply wp_bind. eapply wp_mono; [apply Hswitch|]. intros b2 s5 w5 l5 [[-> L5] B2].
  apply wp_ret. rewrite app_nil_r. split; [by repeat apply reads_app|]. intros _.
  set (V := bool_decide (version = V1_0)).
  split; [by destruct V|..].
  - intros Hc. simpl in Hc.
    assert (spoof_role connected Data_NONE Data_DEVICE data ≠ Data_NONE) by by apply spoof_not_none.
    assert (spoof_role connected Mode_NONE Mode_UFP mode ≠ Mode_NONE) by by apply spoof_not_none.
    by destruct V.
  - intros Hc. simpl in Hc. specialize (P1 Hc Hst1). specialize (P2 Hc Hst2).
    specialize (P3 Hc Hst3). specialize (B1 Hc). specialize (B2 Hc). subst connected b1 b2.
    injection P1 as <-. injection P2 as <-. injection P3 as <-. by destruct V.
  - split; [by destruct V|]. subst V. rewrite Z.lor_0_l.
    destruct (bool_decide (version = V1_0)); split_and!; done.
Qed.

Lemma port_statuses_spec version ports i v s w :
  length v = (i + length ports)%nat →
  wp (port_statuses version i ports v) s w (λ '(status, v') s' _ l,
    reads s s' l ∧ length v' = length v ∧ take i v' = take i v ∧
    (status = SUCCESS ∨ status = ERROR) ∧
    (status = SUCCESS → Forall2 (port_ok version) ports (drop i v'))).
Proof.
  revert i v s w. induction ports as [|[name connected] ports IH]; intros i v s w Hlen;
    cbn [port_statuses].
  - apply wp_ret. split_and!; [done..|by left|]. intros _.
    rewrite drop_ge by (simpl in Hlen; lia). constructor.
  - destruct (v !! i) as [p|] eqn:Hp; [|apply lookup_ge_None in Hp; simpl in Hlen; lia].
    apply wp_bind. eapply wp_mono; [apply port_status_spec|].
    intros [ok p'] s1 w1 l1 [[-> L1] Hok]. simpl in Hlen. destruct ok.
    + eapply wp_mono; [apply (IH (S i)); rewrite length_insert; lia|].
      intros [st v'] s2 w2 l2 ([-> L2] & Hl & Ht & Hst & Hall). rewrite length_insert in Hl.
      assert (v' !! i = Some p') as Hi.
      { rewrite <- (lookup_take_lt v' (S i)), Ht, lookup_take_lt by lia.
        apply list_lookup_insert_eq. lia. }
      split_and!; [by apply reads_app|done| |done|].
      * rewrite <- (take_insert_ge v i i p') by lia.
        transitivity (take i (take (S i) v')); [by rewrite take_take, Nat.min_l by lia|].
        by rewrite Ht, take_take, Nat.min_l by lia.
      * intros Hs. rewrite (drop_S _ _ _ Hi). constructor; [by apply Hok|by apply Hall].
    + apply wp_ret. rewrite app_nil_r, length_insert, take_insert_ge by lia.
      split_and!; [done..|by right|done].
Qed.

(** What [getPortStatusHelper] does: it lists the directory, then reads. *)
Lemma getPortStatus_spec version v s w :
  wp (getPortStatusHelper version v) s w (λ '(status, v') s' _ l,
    s' = s ∧ ∃ dp l', l = Entry (ReadDir "/sys/class/typec") dp :: l' ∧ forallb is_read l' = true ∧
    match dp with
    | None => status = ERROR ∧ v' = v
    | Some eps => ∃ names, add_names ∅ eps = Some names ∧
        length v' = length (iterate names) ∧
        (status = SUCCESS → Forall2 (port_ok version) (iterate names) v')
    end).
Proof.
  unfold getPortStatusHelper, getTypeCPortNamesHelper. apply wp_bind, wp_bind, wp_call.
  intros [eps|] w1 _.
  - destruct (add_names_from ∅ eps) as (names & Hn & _). rewrite Hn. apply wp_ret.
    cbn beta iota. rewrite bool_decide_true by done.
    assert (length (resize (length (iterate names)) v) = length (iterate names)) as Hlen.
    { unfold resize. rewrite length_app, length_take, length_replicate. lia. }
    eapply wp_mono; [apply (port_statuses_spec version (iterate names) 0)|].
    { by rewrite Hlen. }
    intros [st v'] s2 w2 l2 ([-> L2] & Hl & _ & _ & Hall). split; [done|].
    exists (Some eps), l2. split_and!; [done..|]. exists names. by rewrite Hl, Hlen.
  - apply wp_ret. cbn beta iota. rewrite bool_decide_false by done. apply wp_ret.
    split; [done|]. by exists None, [].
Qed.

(** C29: the status of the ports: [getPortStatusHelper] lists the directory once;
    when it succeeds, the vector has exactly one element for each port of the
    table, in the table's order, whatever was in the vector before; a port
    with a partner never has the data role or the mode NONE, a port without
    one has every role NONE and cannot switch them; and the modes are those
    of the callback's version. *)
Theorem getPortStatus_complete version v s w :
  wp (getPortStatusHelper version v) s w (λ '(status, v') s' _ l,
    s' = s ∧ (status = SUCCESS → ∃ eps names,
      listed l = [eps] ∧ add_names ∅ eps = Some names ∧
      Forall2 (port_ok version) (iterate names) v')).
Proof.
  eapply wp_mono; [apply getPortStatus_spec|].
  intros [st v'] s' w' l (-> & dp & l' & -> & Hl & Hdp). split; [done|]. intros ->.
  destruct dp as [eps|]; [|by destruct Hdp]. destruct Hdp as (names & Hn & _ & Hall).
  exists eps, names. split_and!; [|done|by apply Hall].
  change (eps :: listed l' = [eps]).
  by rewrite (reads_listed s s l').
Qed.

(** The calls [queryVersionHelper] makes. *)
Definition is_query (e : entry usbE) : bool :=
  match entry_call e with
  | ReadLine _ | ReadDir _ | CastFrom_1_1 _ | CastFrom_1_2 _ | LockCallback | UnlockCallback
  | Cb_notifyPortStatusChange_1_2 _ _ _ | Cb_notifyPortStatusChange_1_1 _ _ _
  | Cb_notifyPortStatusChange _ _ _ => true
  | _ => false
  end.

Lemma query_reads l : forallb is_read l = true → forallb is_query l = true.
Proof using Type.
  intros Hl. induction l as [|e l IH]; [done|]. simpl in *. apply andb_true_iff in Hl as [He Hl].
  rewrite IH by done. unfold is_read, is_query in *. by destruct (entry_call e).
Qed.

Lemma getPortStatus_query version v s w :
  wp (getPortStatusHelper version v) s w (λ _ s' _ l, s' = s ∧ forallb is_query l = true).
Proof.
  eapply wp_mono; [apply getPortStatus_spec|]. intros [st v'] s' w' l (-> & dp & l' & -> & Hl & _).
  split; [done|]. simpl. by apply query_reads.
Qed.

Lemma queryVersion_query v s w :
  wp (queryVersionHelper v) s w (λ _ s' _ l, s' = s ∧ forallb is_query l = true).
Proof.
  unfold queryVersionHelper. apply wp_bind, wp_get, wp_bind, wp_call. intros cb1 w1 _.
  apply wp_bind, wp_get, wp_bind, wp_call. intros cb2 w2 _. apply wp_bind, wp_call. intros [] w3 _.
  apply wp_bind, wp_get, wp_bind.
  apply (wp_mono _ _ _ (λ _ s' _ l, s' = s ∧ forallb is_query l = true)).
  { destruct (mCallback_1_0 s) as [cb|]; [|by apply wp_ret].
    destruct cb2 as [cb2|]; [|destruct cb1 as [cb1|]]; apply wp_bind;
      (eapply wp_mono; [apply getPortStatus_query|]); intros [st v'] s4 w4 l4 [-> L4];
      cbn beta iota; apply wp_bind, wp_call; intros r w5 _; apply wp_ret;
      by rewrite app_nil_r, forallb_app, L4. }
  intros v' s4 w4 l4 [-> L4]. apply wp_bind, wp_call. intros [] w5 _. apply wp_ret.
  split; [done|]. by rewrite !forallb_app, L4.
Qed.
End status.

(** * A device *)
#[local] Existing Instances usb_1_3 one_port map_to_list_order.

Lemma getPortStatus_complete_witness :
  UsbLaws ∧
  wp (getPortStatusHelper V1_2 []) (MkUsb None false None false) () (λ '(status, v') s' _ l,
    (status = SUCCESS ∧ portName <$> v' = ["port0"]) ∧
    s' = MkUsb None false None false ∧ (status = SUCCESS → ∃ eps names,
      listed l = [eps] ∧ add_names ∅ eps = Some names ∧
      Forall2 (port_ok V1_2) (iterate names) v')).
Proof.
  split; [exact usb_1_3_laws|].
  assert (wp (getPortStatusHelper V1_2 []) (MkUsb None false None false) () (λ '(status, v') _ _ _,
    status = SUCCESS ∧ portName <$> v' = ["port0"])) as HC by by vm_compute.
  pose proof usb_1_3_laws as HL.
  eapply wp_mono; [exact (wp_and _ _ _ _ _ HC
    (getPortStatus_complete V1_2 [] (MkUsb None false None false) ()))|].
  intros [status v'] s' w' l [HC' HT]. exact (conj HC' HT).
Defined.
