(* ===== verification/UsbRole.v ===== *)
(** Switching the role of a USB-C port ([src/usb/Usb.cpp]): data and power roles
    are written and read back; a mode switch waits for the partner to come
    back, and falls back to dual role.

    The wait has no bound of its own, since every wake-up without a partner
    starts a new time-out; the model counts the waits ([fuel]), and the answer
    [None] means that they were not enough. *)
From S2P Require Import Prelude Effects CppString UsbTypes UsbPort.
From stdpp Require Import options.
#[local] Set Default Proof Using "Type*".

Section role.
Context {UC : UsbConsts} {W : Type} {H : Handler usbE W}.

#[local] Abbreviation io A := (prog usbE Usb A).

Definition PORT_TYPE_TIMEOUT : Z := 8.

Definition switchToDrp (portName : string) : io unit :=
  let filename := appendRoleNodeHelper (c_str portName) MODE in
  if bool_decide (filename ≠ "") then
    fp ← call (OpenNode (c_str filename));
    if fp : bool then _ ← call (WriteNode (c_str filename) "dual"); mret () else mret ()
  else mret ().

(** From [wait_again]: whether the partner came back. *)
Fixpoint wait_partner (fuel : nat) : io (option bool) :=
  match fuel with
  | O => mret None
  | S fuel =>
      '(timed_out, partner_up) ← call (TimedWait PORT_TYPE_TIMEOUT);
      modify (set_mPartnerUp partner_up) ;;
      if timed_out : bool then mret (Some false)
      else
        s ← get;
        if negb (mPartnerUp s) then wait_partner fuel else mret (Some true)
  end.

Definition switchMode (fuel : nat) (portName : string) (newRole : PortRole) : io (option bool) :=
  let filename := appendRoleNodeHelper (c_str portName) (pr_type newRole) in
  if bool_decide (filename = "") then mret (Some false)
  else
    roleSwitch ←
      (fp ← call (OpenNode (c_str filename));
       if fp : bool then
         call LockPartner ;;
         modify (set_mPartnerUp false) ;;
         ret ← call (WriteNode (c_str filename) (convertRoletoString newRole));
         r ← (if ret : bool then wait_partner fuel else mret (Some false));
         call UnlockPartner ;;
         mret r
       else mret (Some false));
    match roleSwitch with
    | Some false => switchToDrp (c_str portName) ;; mret (Some false)
    | r => mret r
    end.

(** Write, read back, compare. *)
Definition switchByFile (filename : string) (newRole : PortRole) : io bool :=
  fp ← call (OpenNode (c_str filename));
  if fp : bool then
    ret ← call (WriteNode (c_str filename) (convertRoletoString newRole));
    if ret : bool then
      '(r, contents) ← readFile filename "";
      if bool_decide (r = 0) then
        mret (bool_decide (extractRole contents = convertRoletoString newRole))
      else mret false
    else mret false
  else mret false.

Definition switchRole (fuel : nat) (portName : string) (newRole : PortRole) : io (option unit) :=
  let filename := appendRoleNodeHelper (c_str portName) (pr_type newRole) in
  if bool_decide (filename = "") then mret (Some ())
  else
    call LockRoleSwitch ;;
    roleSwitch ←
      (if bool_decide (pr_type newRole = MODE) then switchMode fuel portName newRole
       else r ← switchByFile filename newRole; mret (Some r));
    match roleSwitch with
    | None => mret None
    | Some roleSwitch =>
        call LockCallback ;;
        s ← get;
        match mCallback_1_0 s with
        | Some cb =>
            _ ← call (Cb_notifyRoleSwitchStatus cb portName newRole
                        (if roleSwitch : bool then SUCCESS else ERROR));
            mret ()
        | None => mret ()
        end ;;
        call UnlockCallback ;;
        call UnlockRoleSwitch ;;
        mret (Some ())
    end.

(** * What a log says *)

Definition role_notes (l : list (entry usbE)) : list (Z * string * PortRole * Status) :=
  omap (λ e, match entry_call e with
             | Cb_notifyRoleSwitchStatus cb p r st => Some (cb, p, r, st)
             | _ => None
             end) l.

(** The files opened for writing, with "it is open". *)
Definition opens (l : list (entry usbE)) : list (string * bool) :=
  omap (λ e, match e with
             | Entry c r =>
                 match c in usbE X return X → option (string * bool) with
                 | OpenNode p => λ r, Some (p, r)
                 | _ => λ _, None
                 end r
             end) l.

Definition writes (l : list (entry usbE)) : list (string * string) :=
  omap (λ e, match entry_call e with WriteNode p t => Some (p, t) | _ => None end) l.

(** Texts sent to files, each with "the file could be opened": those and only
    those are written. *)
Definition node_writes (ws : list (string * string * bool)) (l : list (entry usbE)) : Prop :=
  opens l = (λ x, (x.1.1, x.2)) <$> ws ∧ writes l = fst <$> filter (λ x, x.2 = true) ws.

Lemma node_writes_app ws1 ws2 l1 l2 :
  node_writes ws1 l1 → node_writes ws2 l2 → node_writes (ws1 ++ ws2) (l1 ++ l2).
Proof using Type.
  intros [O1 W1] [O2 W2]. unfold node_writes, opens, writes in *.
  by rewrite !omap_app, filter_app, !fmap_app, O1, O2, W1, W2.
Qed.

Definition waits (l : list (entry usbE)) : list (bool * bool) :=
  omap (λ e, match e with
             | Entry c r =>
                 match c in usbE X return X → option (bool * bool) with
                 | TimedWait _ => Some
                 | _ => λ _, None
                 end r
             end) l.

(** The first lines read, as [readFile] gives them. *)
Definition lines_read (l : list (entry usbE)) : list string :=
  omap (λ e, match e with
             | Entry c r =>
                 match c in usbE X return X → option string with
                 | ReadLine _ => fmap (from_option (λ x, c_str (until_char "010" x)) "")
                 | _ => λ _, None
                 end r
             end) l.

(** Locks taken less locks given back, of the two mutexes. *)
Definition lock_balance (l : list (entry usbE)) : Z * Z :=
  foldr (λ e '(a, b), match entry_call e with
                      | LockRoleSwitch => (a + 1, b) | UnlockRoleSwitch => (a - 1, b)
                      | LockCallback => (a, b + 1) | UnlockCallback => (a, b - 1)
                      | _ => (a, b)
                      end) (0, 0) l.

(** The evidence that the port is in the role. *)
Definition confirmed (newRole : PortRole) (l : list (entry usbE)) : Prop :=
  if bool_decide (pr_type newRole = MODE) then last (waits l) = Some (false, true)
  else extractRole <$> last (lines_read l) = Some (convertRoletoString newRole).

(** The part of a log between the locks. *)
Definition silent (l : list (entry usbE)) : Prop := role_notes l = [] ∧ lock_balance l = (0, 0).

Lemma lock_balance_app l1 l2 :
  lock_balance (l1 ++ l2) =
    ((lock_balance l1).1 + (lock_balance l2).1, (lock_balance l1).2 + (lock_balance l2).2).
Proof using Type.
  induction l1 as [|e l1 IH]; [cbn [app]; by destruct (lock_balance l2)|]. cbn [app lock_balance foldr].
  unfold lock_balance in *. rewrite IH. destruct (foldr _ _ l1), (foldr _ _ l2). simpl.
  destruct (entry_call e); f_equal; simpl; lia.
Qed.

Lemma silent_app l1 l2 : silent l1 → silent l2 → silent (l1 ++ l2).
Proof using Type.
  intros [R1 B1] [R2 B2]. split.
  - unfold role_notes in *. by rewrite omap_app, R1, R2.
  - by rewrite lock_balance_app, B1, B2.
Qed.

Lemma wait_partner_spec fuel s w :
  wp (wait_partner fuel) s w (λ r s' _ l,
    mCallback_1_0 s' = mCallback_1_0 s ∧ silent l ∧ node_writes [] l ∧
    (r = Some true → last (waits l) = Some (false, true)) ∧
    (r = None → Forall (λ a, a = (false, false)) (waits l) ∧ length (waits l) = fuel)).
Proof using Type.
  revert s w. induction fuel as [|fuel IH]; intros s w; cbn [wait_partner]; [by apply wp_ret|].
  apply wp_bind, wp_call. intros [timed_out up] w1 _. apply wp_bind, wp_modify.
  destruct timed_out; [by apply wp_ret|]. apply wp_bind, wp_get.
  cbn [mPartnerUp set_mPartnerUp]. destruct up; cbn [negb]; [by apply wp_ret|].
  eapply wp_mono; [apply IH|]. intros r s' w' l (Hc & Hs & Hn & Ht & Hf).
  cbn [app]. set (e := Entry (TimedWait PORT_TYPE_TIMEOUT) (false, false)).
  change (waits (e :: l)) with ((false, false) :: waits l).
  split_and!; [done|by apply (silent_app [e])|done| |].
  - intros Hr. specialize (Ht Hr). by destruct (waits l).
  - intros Hr. destruct (Hf Hr) as [Hall Hlen]. split; [by constructor|]. simpl. by rewrite Hlen.
Qed.

Lemma c_str_idem name : c_str (c_str name) = c_str name.
Proof using Type. unfold c_str. apply until_char_no, until_char_has. Qed.

Lemma node_nonempty name type :
  appendRoleNodeHelper name type = "" ↔ ∃ v, type = OtherRoleType v.
Proof using Type.
  unfold appendRoleNodeHelper. destruct type; autorewrite with strings;
    (split; [|intros [v' Hv]]); try done; by eexists.
Qed.

(** The node of a role, as the C functions see its name. *)
Definition role_node (portName : string) (type : PortRoleType) : string :=
  c_str (appendRoleNodeHelper (c_str portName) type).

(** What is known of a wait by its answer. *)
Definition waited (fuel : nat) (r : option bool) (s s' : Usb) (l : list (entry usbE)) : Prop :=
  mCallback_1_0 s' = mCallback_1_0 s ∧ silent l ∧ node_writes [] l ∧
  (r = Some true → last (waits l) = Some (false, true)) ∧
  (r = None → Forall (λ a, a = (false, false)) (waits l) ∧ length (waits l) = fuel).

Lemma waits_app l1 l2 : waits (l1 ++ l2) = waits l1 ++ waits l2.
Proof using Type. apply omap_app. Qed.

Lemma waited_app fuel r s s' l0 l l1 :
  waited fuel r s s' l → silent l0 → silent l1 → waits l0 = [] → waits l1 = [] →
  mCallback_1_0 s' = mCallback_1_0 s ∧ silent (l0 ++ l ++ l1) ∧ waits (l0 ++ l ++ l1) = waits l.
Proof using Type.
  intros (Hc & Hl & _) S0 S1 W0 W1. rewrite !waits_app, W0, W1, app_nil_r.
  split_and!; [done| |done]. by repeat apply silent_app.
Qed.

Lemma switchToDrp_spec portName s w :
  wp (switchToDrp (c_str portName)) s w (λ _ s' _ l,
    s' = s ∧ silent l ∧ ∃ fp, node_writes [(role_node portName MODE, "dual", fp)] l).
Proof using Type.
  unfold switchToDrp. rewrite bool_decide_true.
  2: { intros Hn. apply node_nonempty in Hn as [v [=]]. }
  rewrite c_str_idem. apply wp_bind, wp_call. intros [] w1 _.
  - apply wp_bind, wp_call. intros r w2 _. apply wp_ret. split_and!; [done..|by exists true].
  - apply wp_ret. split_and!; [done..|by exists false].
Qed.

(** The part of [switchMode] between opening the file and falling back. *)
Lemma mode_write_spec fuel node text s w :
  wp (fp ← call (OpenNode node);
      if fp : bool then
        call LockPartner ;;
        modify (set_mPartnerUp false) ;;
        ret ← call (WriteNode node text);
        r ← (if ret : bool then wait_partner fuel else mret (Some false));
        call UnlockPartner ;;
        mret r
      else mret (Some false)) s w (λ r s' _ l,
    mCallback_1_0 s' = mCallback_1_0 s ∧ silent l ∧ (∃ fp, node_writes [(node, text, fp)] l) ∧
    (r = Some true → last (waits l) = Some (false, true)) ∧
    (r = None → Forall (λ a, a = (false, false)) (waits l) ∧ length (waits l) = fuel)).
Proof using Type.
  apply wp_bind, wp_call. intros fp w1 _. set (o := Entry (OpenNode node) fp).
  destruct fp; [|apply wp_ret; split_and!; [done..|by exists false|done|done]].
  apply wp_bind, wp_call. intros [] w2 _. apply wp_bind, wp_modify, wp_bind, wp_call.
  intros ret w3 _. set (e := Entry (WriteNode node text) ret). apply wp_bind.
  apply (wp_mono _ _ _ (λ r s' _ l, waited fuel r s s' l)).
  { destruct ret; [|by apply wp_ret]. eapply wp_mono; [apply wait_partner_spec|]. done. }
  intros r s3 w4 l HW. apply wp_bind, wp_call. intros [] w5 _. apply wp_ret.
  set (pre := [o; Entry LockPartner tt; e]). set (post := [Entry UnlockPartner tt]).
  change (waits _) with (waits (pre ++ l ++ post)).
  destruct (waited_app fuel r s s3 pre l post HW) as (Hc & Hl & ->); [done..|].
  destruct HW as (_ & _ & Hn & Ht & Hf). split_and!; [done|exact Hl| |done|done].
  exists true. apply (node_writes_app [_] [] pre (l ++ post)); [done|].
  by apply (node_writes_app [] []).
Qed.

Lemma switchMode_spec fuel portName role s w :
  pr_type role = MODE →
  wp (switchMode fuel portName role) s w (λ r s' _ l,
    mCallback_1_0 s' = mCallback_1_0 s ∧ silent l ∧
    (r = Some true → confirmed role l) ∧
    (r = None → Forall (λ a, a = (false, false)) (waits l) ∧ length (waits l) = fuel) ∧
    ∃ fp fp', node_writes ((role_node portName MODE, convertRoletoString role, fp) ::
      (if bool_decide (r = Some false) then [(role_node portName MODE, "dual", fp')] else [])) l).
Proof using Type.
  intros Hmode. unfold switchMode, confirmed. rewrite Hmode, (bool_decide_true (MODE = MODE)) by done.
  rewrite bool_decide_false by (intros Hn; apply node_nonempty in Hn as [v [=]]).
  fold (role_node portName MODE). apply wp_bind.
  eapply wp_mono; [apply mode_write_spec|]. intros r s2 w2 l2 (Hc & Hl & [fp Hn] & Ht & Hf).
  destruct r as [[]|].
  - apply wp_ret. rewrite app_nil_r. split_and!; [done..|by exists fp, true].
  - apply wp_bind. eapply wp_mono; [apply switchToDrp_spec|].
    intros [] s3 w3 l3 (-> & Hl3 & fp' & Hn3). apply wp_ret. rewrite app_nil_r.
    split_and!; [done|by apply silent_app|done|done|].
    exists fp, fp'. by apply (node_writes_app [_] [_]).
  - apply wp_ret. rewrite app_nil_r. split_and!; [done..|by exists fp, true].
Qed.

Lemma switchByFile_spec portName role s w :
  pr_type role ≠ MODE →
  wp (switchByFile (appendRoleNodeHelper (c_str portName) (pr_type role)) role) s w
    (λ r s' _ l, s' = s ∧ silent l ∧ (r = true → confirmed role l) ∧
      ∃ fp, node_writes [(role_node portName (pr_type role), convertRoletoString role, fp)] l).
Proof using Type.
  intros Hmode. unfold switchByFile, confirmed. rewrite bool_decide_false by done.
  apply wp_bind, wp_call. intros [] w1 _; [|apply wp_ret; split_and!; [done..|by exists false]].
  apply wp_bind, wp_call.
  intros [] w2 _; [|apply wp_ret; split_and!; [done..|by exists true]].
  apply wp_bind. unfold readFile. apply wp_bind, wp_call.
  intros [[line|]|] w3 _; apply wp_ret; cbn beta iota;
    [rewrite bool_decide_true by done..|rewrite bool_decide_false by done]; apply wp_ret;
    (split_and!; [done|done| |by exists true]); [..|done];
    intros Heq%bool_decide_eq_true; cbn; by rewrite Heq.
Qed.

(** What is known of the middle part of [switchRole] by its answer. *)
Definition switched (fuel : nat) (portName : string) (role : PortRole) (r : option bool)
    (s s' : Usb) (l : list (entry usbE)) : Prop :=
  mCallback_1_0 s' = mCallback_1_0 s ∧ silent l ∧ (r = Some true → confirmed role l) ∧
  (r = None → pr_type role = MODE ∧ length (waits l) = fuel ∧
    Forall (λ a, a = (false, false)) (waits l)) ∧
  ∃ fp fp', node_writes ((role_node portName (pr_type role), convertRoletoString role, fp) ::
    (if bool_decide (pr_type role = MODE) && bool_decide (r = Some false)
     then [(role_node portName MODE, "dual", fp')] else [])) l.

(** C27: a role switch is reported once and truthfully: for a role type without a
    node nothing happens; otherwise the role is written to the port's node
    first, and, when the waits were enough, the registered callback gets
    exactly one report, of SUCCESS only if the port confirmed the role: the
    bracketed word of the node reads back as the role, or, for a mode switch,
    the partner came back before the time-out; a mode switch that is not
    confirmed ends by writing "dual" to the port; and both locks are given
    back.  The waits were not enough only if every one of them ended without
    time-out and without a partner. *)
Theorem switchRole_truthful fuel portName role s w :
  wp (switchRole fuel portName role) s w (λ r s' _ l,
    mCallback_1_0 s' = mCallback_1_0 s ∧
    ((∃ v, pr_type role = OtherRoleType v) → r = Some () ∧ l = []) ∧
    ((∀ v, pr_type role ≠ OtherRoleType v) →
      (r = Some () → lock_balance l = (0, 0) ∧ ∃ ok : bool,
        role_notes l = option_list
          ((λ cb, (cb, portName, role, if ok then SUCCESS else ERROR)) <$> mCallback_1_0 s) ∧
        (ok = true → confirmed role l) ∧
        ∃ fp fp', node_writes
          ((role_node portName (pr_type role), convertRoletoString role, fp) ::
           (if bool_decide (pr_type role = MODE) && negb ok
            then [(role_node portName MODE, "dual", fp')] else [])) l) ∧
      (r = None → pr_type role = MODE ∧ length (waits l) = fuel ∧
        Forall (λ a, a = (false, false)) (waits l)))).
Proof using Type.
  unfold switchRole. case_bool_decide as Hname.
  { apply node_nonempty in Hname as [v Hv]. apply wp_ret. split_and!; [done..|].
    intros Hno. by destruct (Hno v). }
  assert (∀ v, pr_type role ≠ OtherRoleType v) as Hno.
  { intros v Hv. apply Hname, node_nonempty. by exists v. }
  apply wp_bind, wp_call. intros [] w1 _. apply wp_bind.
  apply (wp_mono _ _ _ (λ r s' _ l, switched fuel portName role r s s' l)).
  { case_bool_decide as Hmode.
    - eapply wp_mono; [by apply switchMode_spec|]. intros r s' w' l (Hc & Hl & Ht & Hf & Hn).
      unfold switched. rewrite Hmode in *. rewrite (bool_decide_true (MODE = MODE)) by done.
      split; [done|]. split; [done|]. split; [done|]. split; [|done].
      intros Hr. by destruct (Hf Hr).
    - apply wp_bind. eapply wp_mono; [by apply switchByFile_spec|].
      intros r s' w' l (-> & Hl & Ht & [fp Hn]). apply wp_ret. rewrite app_nil_r.
      unfold switched. rewrite (bool_decide_false (pr_type role = MODE)) by done.
      split_and!; [done|done|intros [= ->]; by apply Ht|done|by exists fp, fp]. }
  intros r s2 w2 l2 (Hc & Hl & Ht & Hf & Hn). destruct r as [ok|].
  2: { apply wp_ret. rewrite app_nil_r. split_and!; [done|by intros [v Hv]; destruct (Hno v)|].
       intros _. split; [done|]. intros _. rewrite waits_app. cbn [app waits omap list_omap entry_call].
       by apply Hf. }
  apply wp_bind, wp_call. intros [] w3 _. apply wp_bind, wp_get, wp_bind. rewrite Hc.
  apply (wp_mono _ _ _ (λ _ s' _ l, s' = s2 ∧ waits l = [] ∧ lines_read l = [] ∧ node_writes [] l ∧
    lock_balance l = (0, 0) ∧ role_notes l = option_list
      ((λ cb, (cb, portName, role, if ok then SUCCESS else ERROR)) <$> mCallback_1_0 s))).
  { destruct (mCallback_1_0 s) as [cb|]; [|by apply wp_ret]. by wp_run. }
  intros [] s4 w4 l4 (-> & W4 & R4 & N4 & B4 & C4).
  apply wp_bind, wp_call. intros [] w5 _. apply wp_bind, wp_call. intros [] w6 _. apply wp_ret.
  split_and!; [done|by intros [v Hv]; destruct (Hno v)|]. intros _. split; [|done]. intros _.
  destruct Hl as [RL BL]. destruct Hn as (fp & fp' & Hn).
  set (after := [Entry LockCallback tt] ++ l4 ++ [Entry UnlockCallback tt; Entry UnlockRoleSwitch tt]).
  assert (node_writes [] after) as HA.
  { apply (node_writes_app [] []); [done|]. by apply (node_writes_app [] []). }
  pose proof (node_writes_app [] _ [Entry LockRoleSwitch tt] _ ltac:(done)
    (node_writes_app _ _ _ _ Hn HA)) as HN.
  split; [by rewrite !lock_balance_app, BL, B4|]. exists ok.
  unfold role_notes, waits, lines_read, confirmed in *. rewrite !omap_app, RL, C4. split_and!.
  - cbn. by rewrite app_nil_r.
  - intros ->. specialize (Ht eq_refl). unfold waits, lines_read in *.
    rewrite !omap_app, W4, R4. cbn. by rewrite !app_nil_r.
  - exists fp, fp'. cbn [app] in HN. rewrite !app_nil_r in HN. by destruct ok.
Qed.
End role.
