(* ===== verification/UsbThread.v ===== *)
(** The USB HAL's worker thread and its life cycle ([src/usb/Usb.cpp]): uevents
    of the kernel, the poll loop, the signal that ends it, and [setCallback],
    which starts and stops the thread.

    The poll loop runs until it is told to stop; the model counts its rounds
    ([fuel]), and [None] means that the thread is still running. *)
From S2P Require Import Prelude Effects CppString UsbTypes UsbPort UsbPortFacts UsbRole.
From stdpp Require Import options.
#[local] Set Default Proof Using "Type*".

Definition UEVENT_MSG_LEN : Z := 2048.

(** [std::regex_match] with "(add)(.*)(-partner)": the whole string, where the dot
    stands for any character but a line terminator. *)
Definition partner_added (cp : string) : bool :=
  starts_with "add" cp && ends_with "-partner" (str_drop 3 cp) &&
  negb (has_char "010" cp) && negb (has_char "013" cp).

Definition typec_device (cp : string) : bool := starts_with "DEVTYPE=typec_" cp.

Section thread.
Context {UC : UsbConsts} {MO : MapOrder string bool}.

#[local] Abbreviation io A := (prog usbE Usb A).

(** A port without a partner goes back to dual role. *)
Definition drp_if_idle (p : PortStatus) : io unit :=
  dp ← call (ProbeDir (c_str ("/sys/class/typec/" +:+ c_str (portName p) +:+ "-partner")));
  if negb dp then switchToDrp (portName p) else mret ().

Definition typec_event : io unit :=
  currentPortStatus ← queryVersionHelper [];
  free ← call TryLockRoleSwitch;
  if free : bool then
    foreach drp_if_idle currentPortStatus ;;
    call UnlockRoleSwitch
  else mret ().

Definition partner_event : io unit :=
  call LockPartner ;;
  modify (set_mPartnerUp true) ;;
  call SignalPartner ;;
  call UnlockPartner.

(** The loop over the strings of the message.  [msg] is the part of the buffer
    from [cp] on that has been written: looking for a NUL beyond it is
    undefined. *)
Fixpoint uevent_loop (fuel : nat) (msg : string) : io unit :=
  match fuel with
  | O => undef
  | S fuel =>
      if negb (has_char Ascii.zero msg) then undef
      else
        let cp := c_str msg in
        if bool_decide (cp = "") then mret ()
        else if partner_added cp then
          partner_event ;; uevent_loop fuel (after_char Ascii.zero msg)
        else if typec_device cp then typec_event
        else uevent_loop fuel (after_char Ascii.zero msg)
  end.

(** The two NULs written behind the message. *)
Definition terminated (msg : string) : string :=
  msg +:+ String Ascii.zero (String Ascii.zero "").

Definition uevent_event (uevent_fd : Z) : io unit :=
  r ← call (UeventRecv uevent_fd UEVENT_MSG_LEN);
  match r with
  | None => mret ()
  | Some msg =>
      let n := size msg in
      if bool_decide (n <= 0) then mret ()
      else if bool_decide (UEVENT_MSG_LEN <= n) then mret ()
      else uevent_loop (S (String.length msg)) (terminated msg)
  end.

(** The handler of SIGUSR1. *)
Definition sighandler : io unit := modify (set_destroyThread true).

(** The poll loop; [Some ()] when it is left. *)
Fixpoint work_loop (fuel : nat) (epoll_fd uevent_fd : Z) : io (option unit) :=
  match fuel with
  | O => mret None
  | S fuel =>
      s ← get;
      if destroyThread s then mret (Some ())
      else
        '(nevents, eintr, signalled) ← call (EpollWait epoll_fd);
        (if signalled : bool then sighandler else mret ()) ;;
        if bool_decide (nevents = -1) then
          if eintr : bool then work_loop fuel epoll_fd uevent_fd else mret (Some ())
        else
          foreach (λ _, uevent_event uevent_fd) (seqZ 0 nevents) ;;
          work_loop fuel epoll_fd uevent_fd
  end.

Definition work (fuel : nat) : io (option unit) :=
  uevent_fd ← call UeventOpenSocket;
  if bool_decide (uevent_fd < 0) then mret (Some ())
  else
    call (SetNonblock uevent_fd) ;;
    epoll_fd ← call EpollCreate;
    r ←
      (if bool_decide (epoll_fd = -1) then mret (Some ())
       else
         added ← call (EpollAdd epoll_fd uevent_fd);
         if bool_decide (added = -1) then mret (Some ()) else work_loop fuel epoll_fd uevent_fd);
    match r with
    | None => mret None
    | Some tt =>
        call (CloseFd uevent_fd) ;;
        (if bool_decide (0 <= epoll_fd) then call (CloseFd epoll_fd) else mret ()) ;;
        mret (Some ())
    end.

Definition setCallback (callback : option Z) : io unit :=
  callback_V1_1 ← call (CastFrom_1_1 callback);
  callback_V1_2 ← call (CastFrom_1_2 callback);
  call LockCallback ;;
  s ← get;
  if (bool_decide (mCallback_1_0 s = None) && bool_decide (callback = None))
     || (bool_decide (mCallback_1_0 s ≠ None) && bool_decide (callback ≠ None)) then
    modify (set_mCallback_1_0 callback) ;;
    call UnlockCallback
  else
    modify (set_mCallback_1_0 callback) ;;
    if bool_decide (callback = None) then
      call UnlockCallback ;;
      s ← get;
      match mPoll s with
      | None => undef
      | Some poll =>
          sent ← call (Pthread_kill_USR1 poll);
          if sent : bool then call (Pthread_join poll) else mret ()
      end
    else
      modify (set_destroyThread false) ;;
      call Signal_USR1 ;;
      created ← call Pthread_create;
      modify (set_mPoll created) ;;
      match created with
      | None => modify (set_mCallback_1_0 None)
      | Some _ => mret ()
      end ;;
      call UnlockCallback.

(** The constructor; the calls that set up the condition variable abort the
    process when they fail. *)
Definition Usb_new : Usb := MkUsb None false None false.
End thread.
