(* ===== verification/UsbThreadFacts.v ===== *)
(** The USB HAL's worker thread is safe for every message of the kernel, and the
    thread exists exactly while a callback is registered. *)
From S2P Require Import Prelude Effects CppString UsbTypes UsbPort UsbPortFacts UsbRole UsbThread.
From stdpp Require Import options.
#[local] Set Default Proof Using "Type*".

(** * Messages as lists of strings *)

Definition is_field (f : string) : Prop := f ≠ "" ∧ has_char Ascii.zero f = false.

Fixpoint encode (fs : list string) : string :=
  match fs with [] => "" | f :: fs => f +:+ String Ascii.zero (encode fs) end.

Lemma until_after c s : has_char c s = true → s = until_char c s +:+ String c (after_char c s).
Proof.
  induction s as [|c' s IH]; simpl; [done|]. case_bool_decide as Hc; [by subst|].
  intros Hs. by rewrite app_string_cons, <- IH.
Qed.

Lemma after_char_app c a b : has_char c a = false → after_char c (a +:+ String c b) = b.
Proof.
  induction a as [|c' a IH]; intros Ha.
  - rewrite app_string_nil_l. simpl. by rewrite bool_decide_true.
  - rewrite app_string_cons. simpl in *. apply orb_false_iff in Ha as [-> Ha]. by apply IH.
Qed.

(** Every message is a list of strings, up to the first empty one. *)
Lemma message_fields n msg :
  (String.length msg <= n)%nat → ∃ fs tail,
    Forall is_field fs ∧ terminated msg = encode fs +:+ String Ascii.zero tail.
Proof.
  revert msg. induction n as [|n IH]; intros msg Hn.
  { destruct msg; [|simpl in Hn; lia]. exists [], (String Ascii.zero ""). by split. }
  destruct (bool_decide (until_char Ascii.zero msg = "")) eqn:Hempty.
  - apply bool_decide_eq_true in Hempty. destruct msg as [|c msg].
    + exists [], (String Ascii.zero ""). by split.
    + simpl in Hempty. case_bool_decide as Hc; [|done]. subst c.
      exists [], (terminated msg). by split.
  - apply bool_decide_eq_false in Hempty. destruct (has_char Ascii.zero msg) eqn:Hz.
    + pose proof (until_after _ _ Hz) as Hmsg. set (f := until_char Ascii.zero msg) in *.
      set (rest := after_char Ascii.zero msg) in *.
      destruct (IH rest) as (fs & tail & Hfs & Heq).
      { pose proof (length_after_char Ascii.zero msg). fold rest in H. lia. }
      exists (f :: fs), tail. split.
      * constructor; [|done]. split; [done|]. apply until_char_has.
      * unfold terminated in *. rewrite Hmsg, <- app_string_assoc, app_string_cons, Heq.
        cbn [encode]. by rewrite <- app_string_assoc, app_string_cons.
    + exists [msg], "". rewrite (until_char_no _ _ Hz) in Hempty. split; [by repeat constructor|].
      unfold terminated. cbn [encode]. by rewrite <- app_string_assoc, app_string_cons.
Qed.

Lemma fields_bound fs tail msg :
  Forall is_field fs → terminated msg = encode fs +:+ String Ascii.zero tail →
  (length fs <= String.length msg)%nat.
Proof.
  intros Hfs Heq. apply (f_equal String.length) in Heq. unfold terminated in Heq.
  rewrite !length_app_string in Heq. simpl in Heq.
  enough (2 * length fs <= String.length (encode fs))%nat by lia. clear Heq.
  induction Hfs as [|f fs [Hf _] _ IH]; [done|]. cbn [encode length].
  rewrite length_app_string. destruct f; [done|]. simpl. lia.
Qed.

(** What the expression accepts. *)
Lemma partner_added_spec cp :
  partner_added cp = true → starts_with "add" cp = true ∧ typec_device cp = false.
Proof.
  unfold partner_added, typec_device, starts_with. intros H.
  apply andb_true_iff in H as [H _]. apply andb_true_iff in H as [H _].
  apply andb_true_iff in H as [H _]. split; [done|].
  destruct cp as [|[[] [] [] [] [] [] [] []] cp]; done || (simpl in *; discriminate).
Qed.

Section thread.
Context {UC : UsbConsts} {UL : UsbLaws} {W : Type} {H : Handler usbE W} {MO : MapOrder string bool}.
Implicit Types (s : Usb) (w : W) (l : list (entry usbE)).

(** * What a log says *)
Definition signals l : nat :=
  length (omap (λ e, match entry_call e with SignalPartner => Some () | _ => None end) l).

(** The answers of the attempts to take the role-switch lock. *)
Definition tries l : list bool :=
  omap (λ e, match e with
             | Entry c r =>
                 match c in usbE X return X → option bool with
                 | TryLockRoleSwitch => Some
                 | _ => λ _, None
                 end r
             end) l.

Definition role_unlocks l : nat :=
  length (omap (λ e, match entry_call e with UnlockRoleSwitch => Some () | _ => None end) l).

(** The directories looked for, with "it is there". *)
Definition probes l : list (string * bool) :=
  omap (λ e, match e with
             | Entry c r =>
                 match c in usbE X return X → option (string * bool) with
                 | ProbeDir p => λ r, Some (p, r)
                 | _ => λ _, None
                 end r
             end) l.

Definition partner_dir (name : string) : string :=
  c_str ("/sys/class/typec/" +:+ c_str name +:+ "-partner").

(** [n] signals; the answers of the attempts to take the lock, and how often it
    was given back; and each port looked at, with "its node could be opened"
    when it has no partner: those ports, and only they, are set to dual role. *)
Definition thread_log (n : nat) (free : list bool) (u : nat)
    (ports : list (string * option bool)) l : Prop :=
  signals l = n ∧ tries l = free ∧ role_unlocks l = u ∧
  probes l = (λ p, (partner_dir p.1, bool_decide (p.2 = None))) <$> ports ∧
  node_writes (omap (λ p, fp ← p.2; Some (role_node p.1 MODE, "dual", fp)) ports) l.

Lemma thread_log_app n1 free1 u1 ports1 n2 free2 u2 ports2 l1 l2 :
  thread_log n1 free1 u1 ports1 l1 → thread_log n2 free2 u2 ports2 l2 →
  thread_log (n1 + n2) (free1 ++ free2) (u1 + u2) (ports1 ++ ports2) (l1 ++ l2).
Proof using Type.
  intros (S1 & T1 & U1 & P1 & N1) (S2 & T2 & U2 & P2 & N2).
  unfold thread_log, signals, tries, role_unlocks, probes in *.
  rewrite !omap_app, !length_app, S1, T1, U1, P1, S2, T2, U2, P2, !fmap_app.
  split_and!; [done..|]. by apply node_writes_app.
Qed.

Lemma query_log l : forallb is_query l = true → thread_log 0 [] 0 [] l.
Proof using Type.
  intros Hl. induction l as [|[X c r] l IH]; [done|]. simpl in Hl.
  apply andb_true_iff in Hl as [Hc Hl]. destruct (IH Hl) as (S1 & T1 & U1 & P1 & N1).
  destruct c; try discriminate Hc; by split_and!.
Qed.

Lemma drp_if_idle_spec p s w :
  wp (drp_if_idle p) s w (λ _ s' _ l, s' = s ∧ ∃ o, thread_log 0 [] 0 [(portName p, o)] l).
Proof using Type.
  apply wp_bind, wp_call. intros up w1 _. destruct up; cbn [negb].
  - apply wp_ret. split; [done|]. by exists None.
  - unfold switchToDrp. rewrite bool_decide_true.
    2: { intros Hn. apply node_nonempty in Hn as [v [=]]. }
    apply wp_bind, wp_call. intros fp w2 _. destruct fp; wp_run; (split; [done|]).
    + by exists (Some true).
    + by exists (Some false).
Qed.

(** The lock is tried once, and the ports are looked at under it. *)
Definition typec_log l : Prop :=
  ∃ free ports, thread_log 0 [free] (Nat.b2n free) ports l ∧ (free = false → ports = []).

Lemma typec_event_spec s w : wp typec_event s w (λ _ s' _ l, s' = s ∧ typec_log l).
Proof.
  unfold typec_event. apply wp_bind. eapply wp_mono; [apply queryVersion_query|].
  intros v s1 w1 l1 [-> L1%query_log]. apply wp_bind, wp_call. intros free w2 _.
  pose proof (thread_log_app _ _ _ _ 0 [free] 0 [] l1 [Entry TryLockRoleSwitch free] L1
    ltac:(done)) as L2.
  destruct free; [|apply wp_ret; split; [done|]; exists false, []; by split; [exact L2|]].
  apply wp_bind. eapply wp_mono.
  { apply (wp_foreach (λ _ s' l, s' = s ∧ ∃ ports, thread_log 0 [] 0 ports l)); [by split; [|exists []]|].
    intros pre p s3 w3 l3 _ [-> [ports L3]]. eapply wp_mono; [apply drp_if_idle_spec|].
    intros [] s4 w4 l4 [-> [o L4]]. split; [done|].
    exists (ports ++ [(portName p, o)]). exact (thread_log_app _ _ _ _ _ _ _ _ _ _ L3 L4). }
  intros [] s3 w3 l3 [-> [ports L3]]. apply wp_call. intros [] w4 _. split; [done|].
  exists true, ports. split; [|done].
  pose proof (thread_log_app _ _ _ _ _ _ _ _ _ _ L2 L3) as L5.
  pose proof (thread_log_app _ _ _ _ 0 [] 1 [] _ [Entry UnlockRoleSwitch tt] L5 ltac:(done)) as L6.
  rewrite !app_nil_r, <- !app_assoc in L6. exact L6.
Qed.

(** * Messages *)

(** The strings handled before the loop is left. *)
Fixpoint before_typec (fs : list string) : list string :=
  match fs with
  | [] => []
  | f :: fs => if typec_device f then [] else f :: before_typec fs
  end.

(** What a message does. *)
Definition handled (fs : list string) s s' l : Prop :=
  s' = (if existsb partner_added (before_typec fs) then set_mPartnerUp true s else s) ∧
  ∃ free ports, thread_log (length (filter (λ f, partner_added f = true) (before_typec fs)))
      (if existsb typec_device fs then [free] else [])
      (Nat.b2n (existsb typec_device fs && free)) ports l ∧
    (existsb typec_device fs && free = false → ports = []).

Lemma uevent_loop_spec fuel fs tail s w :
  Forall is_field fs → (length fs < fuel)%nat →
  wp (uevent_loop fuel (encode fs +:+ String Ascii.zero tail)) s w (λ _ s' _ l, handled fs s s' l).
Proof.
  intros Hfs. revert fuel s w. induction Hfs as [|f fs [Hf Hz] _ IH]; intros fuel s w Hlen;
    (destruct fuel as [|fuel]; [simpl in Hlen; lia|]); cbn [encode uevent_loop].
  { apply wp_ret. split; [done|]. by exists false, []. }
  rewrite <- app_string_assoc, app_string_cons. set (rest := encode fs +:+ _).
  rewrite has_char_app. cbn [has_char]. rewrite bool_decide_true, orb_true_r by done.
  assert (c_str (f +:+ String Ascii.zero rest) = f) as -> by by apply until_char_app.
  rewrite after_char_app, bool_decide_false by done. cbn [negb].
  destruct (partner_added f) eqn:Hp.
  - apply partner_added_spec in Hp as Ht. destruct Ht as [_ Ht].
    apply wp_bind. unfold partner_event. wp_run.
    eapply wp_mono; [apply IH; simpl in Hlen; lia|].
    intros [] s2 w2 l2 (-> & free & ports & L & Hports). unfold handled.
    cbn [before_typec existsb]. rewrite Ht, filter_cons_True by done. cbn [existsb orb length].
    rewrite Hp. cbn [orb]. split; [destruct (existsb partner_added _); reflexivity|]. exists free, ports. split; [|done].
    by apply (thread_log_app 1 [] 0 [] _ _ _ _
      [Entry LockPartner tt; Entry SignalPartner tt; Entry UnlockPartner tt] l2).
  - destruct (typec_device f) eqn:Ht.
    + eapply wp_mono; [apply typec_event_spec|]. intros [] s' w' l' (-> & free & ports & L & Hp').
      unfold handled. cbn [before_typec existsb]. rewrite Ht. split; [done|].
      exists free, ports. by destruct free.
    + eapply wp_mono; [apply IH; simpl in Hlen; lia|]. intros [] s' w' l' Hl.
      unfold handled in *. cbn [before_typec existsb]. rewrite Ht, filter_cons_False by congruence.
      cbn [existsb orb]. by rewrite Hp.
Qed.

(** C28: every message of the kernel is handled within its buffer: whatever
    [uevent_kernel_multicast_recv] answers, the loop over its strings stops at
    one of the two NULs written behind it; an error, an empty message or one
    that fills the buffer is dropped; otherwise the strings before the first
    [DEVTYPE=typec_] are looked at: the partner is up, with one signal for each
    string that adds a partner; and if there is a [DEVTYPE=typec_], the
    role-switch lock is tried once, given back if it was taken, and only while
    it is held are ports set to dual role: exactly those without a partner. *)
Theorem uevent_event_safe fd s w :
  wp (uevent_event fd) s w (λ _ s' _ l, ∃ r l',
    l = Entry (UeventRecv fd UEVENT_MSG_LEN) r :: l' ∧
    match r with
    | Some msg =>
        if bool_decide (0 < size msg < UEVENT_MSG_LEN) then
          ∃ fs tail, Forall is_field fs ∧
            terminated msg = encode fs +:+ String Ascii.zero tail ∧ handled fs s s' l'
        else s' = s ∧ l' = []
    | None => s' = s ∧ l' = []
    end).
Proof.
  unfold uevent_event. apply wp_bind, wp_call. intros [msg|] w1 _.
  2: { apply wp_ret. by exists None, []. }
  case_bool_decide as H1; [|case_bool_decide as H2].
  - apply wp_ret. exists (Some msg), []. by rewrite bool_decide_false by lia.
  - apply wp_ret. exists (Some msg), []. by rewrite bool_decide_false by lia.
  - destruct (message_fields _ msg (le_n _)) as (fs & tail & Hfs & Heq). rewrite Heq.
    eapply wp_mono; [apply uevent_loop_spec; [done|]|].
    { pose proof (fields_bound fs tail msg Hfs Heq). lia. }
    intros [] s2 w2 l2 Hl. exists (Some msg), l2. split; [done|].
    rewrite bool_decide_true by lia. by exists fs, tail.
Qed.

(** * Life of the thread *)

Definition created l : list Z :=
  omap (λ e, match e with
             | Entry c r =>
                 match c in usbE X return X → option Z with
                 | Pthread_create => id
                 | _ => λ _, None
                 end r
             end) l.

Definition killed l : list Z :=
  omap (λ e, match entry_call e with Pthread_kill_USR1 t => Some t | _ => None end) l.

Definition joined l : list Z :=
  omap (λ e, match entry_call e with Pthread_join t => Some t | _ => None end) l.

(** A thread for the callback: the last one created, the only one not killed. *)
Definition worker_inv s l : Prop :=
  lock_balance l = (0, 0) ∧ joined l `sublist_of` killed l ∧
  match mCallback_1_0 s with
  | None => created l = killed l
  | Some _ => ∃ t, mPoll s = Some t ∧ created l = killed l ++ [t]
  end.

Lemma worker_inv_app s s' l l' :
  worker_inv s l → lock_balance l' = (0, 0) → joined l' `sublist_of` killed l' →
  match mCallback_1_0 s' with
  | None => created l ++ created l' = killed l ++ killed l'
  | Some _ => ∃ t, mPoll s' = Some t ∧ created l ++ created l' = killed l ++ killed l' ++ [t]
  end → worker_inv s' (l ++ l').
Proof using Type.
  intros (HB & HJ & _) HB' HJ' HW. unfold worker_inv, joined, killed, created in *.
  rewrite lock_balance_app, HB, HB', !omap_app. split_and!; [done|by apply sublist_app|].
  destruct (mCallback_1_0 s'); [|done]. destruct HW as (t & ? & HW). exists t.
  by rewrite <- app_assoc.
Qed.

Lemma setCallback_step cb s w l :
  worker_inv s l →
  wp (setCallback cb) s w (λ _ s' _ l', worker_inv s' (l ++ l') ∧
    (mCallback_1_0 s' = cb ∨ mCallback_1_0 s' = None ∧ mCallback_1_0 s = None)).
Proof using Type.
  intros HI. pose proof HI as (_ & _ & HW). unfold setCallback.
  apply wp_bind, wp_call. intros c1 w1 _. apply wp_bind, wp_call. intros c2 w2 _.
  apply wp_bind, wp_call. intros [] w3 _. apply wp_bind, wp_get.
  destruct (mCallback_1_0 s) as [old|] eqn:Hold, cb as [cb|]; simpl.
  - wp_run. split; [|by left]. apply (worker_inv_app s); [done..|]. simpl.
    destruct HW as (t & ? & ->). exists t. by rewrite app_nil_r.
  - destruct HW as (t & Ht & HW). do 2 (wp_step; wp_step). wp_step. wp_step. cbn [mPoll set_mCallback_1_0].
    rewrite Ht. wp_run; (split; [|by left]); apply (worker_inv_app s); try done.
    + simpl. by rewrite HW, !app_nil_r.
    + simpl. apply sublist_nil_l.
    + simpl. by rewrite HW, !app_nil_r.
  - apply wp_bind, wp_modify, wp_bind, wp_modify, wp_bind, wp_call. intros [] w4 _.
    apply wp_bind, wp_call. intros [t|] w5 _; apply wp_bind, wp_modify; wp_run;
      (split; [|by first [by left|by right]]); (apply (worker_inv_app s); [done..|]); simpl.
    + exists t. by rewrite HW.
    + by rewrite HW.
  - wp_run. split; [|by left]. apply (worker_inv_app s); [done..|]. simpl. by rewrite HW.
Qed.

(** The worker thread exists exactly while a callback is registered: after any
    sequence of [setCallback] calls, made one after the other, the threads
    created are the threads killed, in the same order, and one more, which
    [mPoll] names, if a callback is registered; so a thread is killed at most
    once, and an indeterminate [mPoll] is never used; only killed threads are
    joined; the lock is given back; and the callback registered is the last
    one given, unless its thread could not be created. *)
Theorem setCallback_worker cbs w :
  wp (foreach setCallback cbs) Usb_new w (λ _ s' _ l,
    worker_inv s' l ∧
    ∀ cb, mCallback_1_0 s' = Some cb → last cbs = Some (Some cb)).
Proof using Type.
  apply (wp_foreach (λ cbs s' l, worker_inv s' l ∧
    ∀ cb, mCallback_1_0 s' = Some cb → last cbs = Some (Some cb))).
  { split; [|done]. by split_and!. }
  intros pre cb s w1 l _ [HI Hlast]. eapply wp_mono; [by apply setCallback_step|].
  intros [] s2 w2 l2 [HI2 Hcb]. split; [done|]. intros cb' Hcb'. rewrite last_snoc.
  destruct Hcb as [<-|[Hn _]]; congruence.
Qed.
End thread.

(** * A device *)
#[local] Existing Instances usb_1_3 one_port map_to_list_order.

Lemma uevent_event_safe_witness :
  UsbLaws ∧
  wp (uevent_event 3) (MkUsb (Some 1) false (Some 1) false) () (λ _ s' _ l,
    (mPartnerUp s' = true ∧ signals l = 1%nat ∧ tries l = [true]) ∧ ∃ r l',
    l = Entry (UeventRecv 3 UEVENT_MSG_LEN) r :: l' ∧
    match r with
    | Some msg =>
        if bool_decide (0 < size msg < UEVENT_MSG_LEN) then
          ∃ fs tail, Forall is_field fs ∧
            terminated msg = encode fs +:+ String Ascii.zero tail ∧
            handled fs (MkUsb (Some 1) false (Some 1) false) s' l'
        else s' = MkUsb (Some 1) false (Some 1) false ∧ l' = []
    | None => s' = MkUsb (Some 1) false (Some 1) false ∧ l' = []
    end).
Proof.
  split; [exact usb_1_3_laws|].
  assert (wp (uevent_event 3) (MkUsb (Some 1) false (Some 1) false) () (λ _ s' _ l,
    mPartnerUp s' = true ∧ signals l = 1%nat ∧ tries l = [true])) as HC by by vm_compute.
  pose proof usb_1_3_laws as HL.
  exact (wp_and _ _ _ _ _ HC (uevent_event_safe 3 (MkUsb (Some 1) false (Some 1) false) ())).
Defined.
