(* ===== verification/UsbThreads.v ===== *)
(** The USB HAL's threads ([src/usb/Usb.cpp]), interleaved: binder threads that
    switch roles and ask for the ports' status, one client that sets callbacks,
    and the workers that [setCallback] creates.

    [usb_sync] says what the calls of pthread.h mean; [usb_allowed] is the
    protocol of the three mutexes and of [mPartnerUp]; [UsbThreadsFacts] shows
    that the methods of UsbRole, UsbPort and UsbThread keep to it. *)
From S2P Require Import Prelude Effects Threads ThreadsLogic CppString UsbTypes UsbPort UsbRole UsbThread.
From stdpp Require Import options.
#[local] Set Default Proof Using "Type*".

Inductive usb_mutex := mLock | mRoleSwitchLock | mPartnerLock.
#[export] Instance usb_mutex_eq_dec : EqDecision usb_mutex.
Proof. solve_decision. Defined.

(** The mutexes, the condition variable and the threads of Usb.cpp.  A thread is
    created to run [work]; SIGUSR1 ends its wait for events, with EINTR. *)
Definition usb_sync {UC : UsbConsts} {MO : MapOrder string bool} (fuel : nat)
    : Sync usbE usb_mutex Usb (option unit) := λ X c,
  match c in usbE X return option (sync usbE usb_mutex Usb (option unit) X) with
  | LockRoleSwitch => Some (Acquire mRoleSwitchLock)
  | TryLockRoleSwitch => Some (TryAcquire mRoleSwitchLock)
  | UnlockRoleSwitch => Some (Release mRoleSwitchLock)
  | LockCallback => Some (Acquire mLock)
  | UnlockCallback => Some (Release mLock)
  | LockPartner => Some (Acquire mPartnerLock)
  | UnlockPartner => Some (Release mPartnerLock)
  | TimedWait _ => Some (Wait mPartnerLock (λ timed_out s, (timed_out, mPartnerUp s)))
  | Pthread_create => Some (Spawn (work fuel) Some (Some None))
  | Pthread_join t => Some (Join t tt)
  | Pthread_kill_USR1 t => Some (Kill t)
  | EpollWait _ => Some (Interruptible (-1, true, true) (λ '(nevents, eintr, _), (nevents, eintr, true)))
  | _ => None
  end.

Section threads.
Context {UC : UsbConsts}.

#[local] Abbreviation state := (shared usbE usb_mutex Usb).
#[local] Abbreviation history := (list (nat * event usbE Usb)).
Implicit Types (t u : nat) (σ : state) (tr : history).

(** Only [t] writes to the nodes of ports. *)
Definition exclusive t tr : Prop :=
  ∀ u node text ok, (u, Asked (Entry (WriteNode node text) ok)) ∈ tr → u = t.

(** Another thread sets [mPartnerUp]. *)
Definition raised t tr : Prop :=
  ∃ u s s', u ≠ t ∧ (u, Wrote s s') ∈ tr ∧ mPartnerUp s = false ∧ mPartnerUp s' = true.

(** The last message a thread got from the kernel, and whether one of its
    strings adds a partner. *)
Definition messages (l : list (entry usbE)) : list (option string) :=
  omap (λ e, match e with
             | Entry c r =>
                 match c in usbE X return X → option (option string) with
                 | UeventRecv _ _ => Some
                 | _ => λ _, None
                 end r
             end) l.

Definition announces (msg : string) : Prop :=
  ∃ pre suf, terminated msg = pre +:+ suf ∧ partner_added (c_str suf) = true.

(** What a report of a role switch stands for: since the thread took the role
    switch lock, nobody else has written to a node; it has written the role,
    and "dual" if a mode switch failed; and if the report is SUCCESS, the port
    has confirmed: another thread has set [mPartnerUp] after the write, or the
    last line read back is the role. *)
Definition truthful t (portName : string) (role : PortRole) (st : Status) tr : Prop :=
  ∃ pre post (ok : bool) fp fp',
    tr = pre ++ (t, Asked (Entry LockRoleSwitch tt)) :: post ∧
    (Entry UnlockRoleSwitch tt ∉ calls t post) ∧ exclusive t post ∧
    st = (if ok then SUCCESS else ERROR) ∧
    node_writes ((role_node portName (pr_type role), convertRoletoString role, fp) ::
      (if bool_decide (pr_type role = MODE) && negb ok
       then [(role_node portName MODE, "dual", fp')] else [])) (calls t post) ∧
    (ok = true → (
      if bool_decide (pr_type role = MODE) then ∃ before after, 
        post = before ++ (t, Asked (Entry (WriteNode (role_node portName MODE)
          (convertRoletoString role)) true)) :: after ∧ raised t after
      else extractRole <$> last (lines_read (calls t post)) = Some (convertRoletoString role))).

(** The protocol.  [client] is the thread that sets callbacks. *)
Definition usb_allowed (client : nat) σ t (e : event usbE Usb) : Prop :=
  match e with
  | Wrote s s' =>
      s = fields σ ∧
      (mPartnerUp s' = mPartnerUp s ∨
       held σ mPartnerLock = Some t ∧
       if mPartnerUp s'
       then ∃ msg, last (messages (calls t (trace σ))) = Some (Some msg) ∧ announces msg
       else held σ mRoleSwitchLock = Some t) ∧
      (mCallback_1_0 s' = mCallback_1_0 s ∧ mPoll s' = mPoll s ∨
       t = client ∧ held σ mLock = Some t)
  | Asked (Entry c _) =>
      match c with
      | WriteNode _ _ => held σ mRoleSwitchLock = Some t
      | Cb_notifyRoleSwitchStatus cb portName role st =>
          held σ mLock = Some t ∧ held σ mRoleSwitchLock = Some t ∧
          mCallback_1_0 (fields σ) = Some cb ∧ truthful t portName role st (trace σ)
      | Cb_notifyPortStatusChange_1_2 _ _ _ | Cb_notifyPortStatusChange_1_1 _ _ _ =>
          held σ mLock = Some t ∧ mCallback_1_0 (fields σ) ≠ None
      | Cb_notifyPortStatusChange cb _ _ =>
          held σ mLock = Some t ∧ mCallback_1_0 (fields σ) = Some cb
      | _ => True
      end
  | Slept _ => True
  end.
End threads.
