(* ===== verification/UsbThreadsFacts.v ===== *)
(** The methods of the USB HAL keep to the protocol of their threads
    ([UsbThreads]), in every interleaving. *)
From S2P Require Import Prelude Effects Threads ThreadsLogic CppString UsbTypes UsbPort UsbPortFacts UsbRole UsbThread UsbThreadFacts UsbThreads.
From stdpp Require Import options.
#[local] Set Default Proof Using "Type*".

Section threads.
Context {UC : UsbConsts} {MO : MapOrder string bool} (work_fuel client : nat).
Let sy : Sync usbE usb_mutex Usb (option unit) := usb_sync work_fuel.
#[local] Existing Instance sy.

#[local] Abbreviation state := (shared usbE usb_mutex Usb).
#[local] Abbreviation history := (list (nat * event usbE Usb)).
#[local] Abbreviation allowed := (usb_allowed client).
#[local] Abbreviation inv := (λ _ : state, True).
#[local] Abbreviation safe := (safe allowed inv any_answer).
#[local] Abbreviation stable := (stable allowed inv).
Implicit Types (t u : nat) (σ : state) (tr : history) (l : list (entry usbE)).

Lemma inv_trivial σ σ' t e : True → allowed σ t e → emit t e σ = Some σ' → True.
Proof. done. Qed.

(** * Histories *)
Lemma raised_app t tr tr' : raised t tr → raised t (tr ++ tr').
Proof using Type.
  intros (u & s & s' & Hu & Hin & H1 & H2). exists u, s, s'. split_and!; [done| |done..].
  apply elem_of_app. by left.
Qed.

(** * Events *)
(** What a mutex protects does not change while another thread holds it. *)
Lemma partner_stable t u e σ σ' :
  emit u e σ = Some σ' → allowed σ u e → u ≠ t → held σ mPartnerLock = Some t →
  mPartnerUp (fields σ') = mPartnerUp (fields σ).
Proof using Type.
  intros He Ha Hu Hh. rewrite (emit_fields _ _ _ _ He). destruct e as [| |s s']; [done..|].
  destruct Ha as (-> & [Hs|[Hp _]] & _); [done|congruence].
Qed.

Lemma callback_stable t u e σ σ' :
  emit u e σ = Some σ' → allowed σ u e → u ≠ t → held σ mLock = Some t ∨ t = client →
  mCallback_1_0 (fields σ') = mCallback_1_0 (fields σ) ∧ mPoll (fields σ') = mPoll (fields σ).
Proof using Type.
  intros He Ha Hu Hh. rewrite (emit_fields _ _ _ _ He). destruct e as [| |s s']; [done..|].
  destruct Ha as (-> & _ & [Hs|[-> Hl]]); [done|]. destruct Hh as [Hh| ->]; [congruence|done].
Qed.

(** * Sessions: a thread between taking and giving back the role switch lock

    [l]: its own calls since then; [R]: what is known of the history since then
    and of the state. *)
Definition in_session t l (R : history → state → Prop) σ : Prop :=
  held σ mRoleSwitchLock = Some t ∧ ∃ pre post,
    trace σ = pre ++ (t, Asked (Entry LockRoleSwitch tt)) :: post ∧
    (Entry UnlockRoleSwitch tt ∉ l) ∧ exclusive t post ∧ calls t post = l ∧ R post σ.

Definition persistent t (R : history → state → Prop) : Prop :=
  ∀ post σ σ' u e, u ≠ t → R post σ → allowed σ u e → emit u e σ = Some σ' →
    R (post ++ [(u, e)]) σ'.

Lemma exclusive_snoc t u e tr :
  exclusive t tr → (∀ node text ok, e = Asked (Entry (WriteNode node text) ok) → u = t) →
  exclusive t (tr ++ [(u, e)]).
Proof using Type.
  intros Hex He v node text ok [Hin|Hin]%elem_of_app; [by eapply Hex|].
  apply list_elem_of_singleton in Hin as [= -> <-]. by eapply He.
Qed.

Lemma session_stable t l R : persistent t R → stable t (in_session t l R).
Proof using Type.
  intros HR σ σ' u e Hu _ (Hh & pre & post & Ht & Hn & Hex & Hl & HRp) Ha He. split.
  { by eapply held_stable. }
  exists pre, (post ++ [(u, e)]). split_and!; [|done| | |by eapply HR].
  - by rewrite (emit_trace _ _ _ _ He), Ht, <- app_assoc.
  - apply exclusive_snoc; [done|]. intros node text ok ->. simpl in Ha. congruence.
  - by rewrite calls_other.
Qed.

(** A call that does not give the role switch lock back. *)
Definition keeps_role {X} (c : usbE X) : bool :=
  match c with UnlockRoleSwitch => false | _ => true end.

Lemma role_kept {X} t (c : usbE X) x σ σ' :
  keeps_role c = true → emit t (Asked (Entry c x)) σ = Some σ' →
  held σ mRoleSwitchLock = Some t → held σ' mRoleSwitchLock = Some t.
Proof using Type.
  intros Hk He%emit_held Hh. revert He. unfold locks_after.
  destruct c; try done; simpl; try (intros [= <-]; exact Hh);
    try (intros [_ ->]%take_lock_spec; exact Hh); try (intros [_ ->]%give_lock_spec; exact Hh).
  - intros [Hno _]%take_lock_spec. congruence.
  - destruct x; [intros [Hno _]%take_lock_spec; congruence|]. rewrite Hh. by intros [= <-].
Qed.

Lemma session_own {X} t (c : usbE X) x l R R' σ σ' :
  keeps_role c = true → in_session t l R σ → emit t (Asked (Entry c x)) σ = Some σ' →
  (∀ post, R post σ → R' (post ++ [(t, Asked (Entry c x))]) σ') →
  in_session t (l ++ [Entry c x]) R' σ'.
Proof using Type.
  intros Hk (Hh & pre & post & Ht & Hn & Hex & Hl & HRp) He HR. split; [by eapply role_kept|].
  exists pre, (post ++ [(t, Asked (Entry c x))]). split_and!.
  - by rewrite (emit_trace _ _ _ _ He), Ht, <- app_assoc.
  - intros [?|Hin]%elem_of_app; [done|]. apply list_elem_of_singleton in Hin. by destruct c.
  - by apply exclusive_snoc.
  - by rewrite calls_own, Hl.
  - by apply HR.
Qed.

(** One call of a session. *)
Lemma session_call {B X} t (c : usbE X) (k : X → prog usbE Usb B) l R (R' : X → history → state → Prop) Q σ :
  wait_of c = None → keeps_role c = true → persistent t R → in_session t l R σ →
  (∀ σ' x, in_session t l R σ' → allowed σ' t (Asked (Entry c x))) →
  (∀ post σ' x σ'', R post σ' → emit t (Asked (Entry c x)) σ' = Some σ'' →
    R' x (post ++ [(t, Asked (Entry c x))]) σ'') →
  (∀ x σ', in_session t (l ++ [Entry c x]) (R' x) σ' → safe t (k x) Q σ') →
  safe t (call c ≫= k) Q σ.
Proof.
  intros Hw Hk HR Hσ Ha Hown Hsafe.
  eapply (safe_call allowed inv any_answer inv_trivial); [done|by apply session_stable|exact Hσ|].
  intros σ' x σ'' Hσ' _ He. split; [by apply Ha|]. intros _. apply Hsafe.
  eapply session_own; [done..|]. intros post HRp. by eapply Hown.
Qed.

Lemma session_get {B} t (k : Usb → prog usbE Usb B) l R Q σ :
  persistent t R → in_session t l R σ →
  (∀ σ', in_session t l R σ' → safe t (k (fields σ')) Q σ') →
  safe t (get ≫= k) Q σ.
Proof.
  intros HR Hσ Hk. eapply safe_get; [by apply session_stable|exact Hσ|]. intros σ' Hσ' _. by apply Hk.
Qed.

Lemma session_modify {B} t (f : Usb → Usb) (k : unit → prog usbE Usb B) l R (R' : history → state → Prop) Q σ :
  persistent t R → in_session t l R σ →
  (∀ σ', in_session t l R σ' → allowed σ' t (Wrote (fields σ') (f (fields σ')))) →
  (∀ post σ' σ'', R post σ' → emit t (Wrote (fields σ') (f (fields σ'))) σ' = Some σ'' →
    R' (post ++ [(t, Wrote (fields σ') (f (fields σ')))]) σ'') →
  (∀ σ', in_session t l R' σ' → safe t (k ()) Q σ') →
  safe t (modify f ≫= k) Q σ.
Proof.
  intros HR Hσ Ha Hown Hk.
  eapply (safe_modify allowed inv any_answer inv_trivial); [by apply session_stable|exact Hσ|].
  intros σ' σ'' Hσ' _ He. split; [by apply Ha|]. intros _. apply Hk.
  destruct Hσ' as (Hh & pre & post & Ht & Hn & Hex & Hl & HRp). split.
  { apply emit_held in He. injection He as <-. exact Hh. }
  exists pre, (post ++ [(t, Wrote (fields σ') (f (fields σ')))]). split_and!; [|done| | |by eapply Hown].
  - by rewrite (emit_trace _ _ _ _ He), Ht, <- app_assoc.
  - by apply exclusive_snoc.
  - rewrite calls_app. cbn [calls omap list_omap]. case_decide; by rewrite app_nil_r.
Qed.

Lemma session_weaken t l (R R' : history → state → Prop) σ :
  (∀ post, R post σ → R' post σ) → in_session t l R σ → in_session t l R' σ.
Proof using Type.
  intros HR (Hh & pre & post & Ht & Hn & Hex & Hl & HRp). split; [done|].
  exists pre, post. split_and!; try done. by apply HR.
Qed.

Lemma session_ret {B} t (a : B) l R Q σ :
  persistent t R → in_session t l R σ → (∀ σ', in_session t l R σ' → Q a σ') →
  safe t (mret a) Q σ.
Proof using Type.
  intros HR Hσ HQ. eapply safe_ret; [by apply session_stable|exact Hσ|]. intros σ' Hσ' _. by apply HQ.
Qed.

(** ** Waiting for the partner *)
Lemma session_wait {B} t secs (k : bool * bool → prog usbE Usb B) l R R' (R'' : bool * bool → history → state → Prop) Q σ :
  persistent t R → persistent t R' → in_session t l R σ →
  (∀ post σ' σ'', R post σ' → emit t (Slept (TimedWait secs)) σ' = Some σ'' →
    R' (post ++ [(t, Slept (TimedWait secs))]) σ'') →
  (∀ post σ' b σ'', R' post σ' →
    let x := (b, mPartnerUp (fields σ')) in
    emit t (Asked (Entry (TimedWait secs) x)) σ' = Some σ'' →
    R'' x (post ++ [(t, Asked (Entry (TimedWait secs) x))]) σ'') →
  (∀ x σ', in_session t (l ++ [Entry (TimedWait secs) x]) (R'' x) σ' → safe t (k x) Q σ') →
  safe t (call (TimedWait secs) ≫= k) Q σ.
Proof.
  intros HR HR' Hσ Hsleep Hwake Hk.
  eapply (safe_wait allowed inv any_answer inv_trivial t _ _ _ (in_session t l R)
    (in_session t l R')); [done|by apply session_stable|by apply session_stable|exact Hσ|..].
  - intros σ' σ1 (Hh & pre & post & Ht & Hn & Hex & Hl & HRp) _ H1. split; [done|]. split.
    { apply emit_held in H1. apply give_lock_spec in H1 as [_ ->]. exact Hh. }
    exists pre, (post ++ [(t, Slept (TimedWait secs))]). split_and!; [|done| | |by eapply Hsleep].
    + by rewrite (emit_trace _ _ _ _ H1), Ht, <- app_assoc.
    + by apply exclusive_snoc.
    + rewrite calls_app. cbn [calls omap list_omap]. case_decide; by rewrite app_nil_r.
  - intros σ2 b σ3 H2 _ x H3. split; [done|]. intros _. apply Hk.
    eapply session_own; [done|exact H2|exact H3|]. intros post' HRp'. by apply Hwake.
Qed.

Definition known (post : history) σ : Prop := True.

Definition partner_locked t (post : history) σ : Prop := held σ mPartnerLock = Some t.

Definition partner_down t (post : history) σ : Prop :=
  held σ mPartnerLock = Some t ∧ mPartnerUp (fields σ) = false.

(** The role has been written, and if the partner is up it came up after that. *)
Definition written t (node text : string) (post : history) σ : Prop :=
  ∃ before after, post = before ++ (t, Asked (Entry (WriteNode node text) true)) :: after ∧
    (mPartnerUp (fields σ) = true → raised t after).

Definition woken t node text (up : bool) (post : history) σ : Prop :=
  written t node text post σ ∧ held σ mPartnerLock = Some t ∧ mPartnerUp (fields σ) = up.

Definition came_up t (node text : string) (post : history) σ : Prop :=
  ∃ before after, post = before ++ (t, Asked (Entry (WriteNode node text) true)) :: after ∧
    raised t after.

Lemma known_persistent t : persistent t known.
Proof using Type. done. Qed.

Lemma partner_locked_persistent t : persistent t (partner_locked t).
Proof using Type. intros post σ σ' u e Hu Hh _ He. by eapply held_stable. Qed.

Lemma partner_down_persistent t : persistent t (partner_down t).
Proof using Type.
  intros post σ σ' u e Hu [Hh Hd] Ha He. split; [by eapply held_stable|].
  by rewrite (partner_stable t u e σ σ').
Qed.

Lemma written_persistent t node text : persistent t (written t node text).
Proof using Type.
  intros post σ σ' u e Hu (before & after & -> & Hup) Ha He.
  exists before, (after ++ [(u, e)]). split; [by rewrite <- app_assoc|].
  rewrite (emit_fields _ _ _ _ He). destruct (mPartnerUp (fields σ)) eqn:Hold.
  { intros _. by apply raised_app, Hup. }
  destruct e as [| |s s']; simpl; [congruence..|]. intros Hnew. destruct Ha as (-> & _).
  exists u, (fields σ), s'. split_and!; try done. apply elem_of_app. right. left.
Qed.

Lemma woken_persistent t node text up : persistent t (woken t node text up).
Proof using Type.
  intros post σ σ' u e Hu (Hw & Hh & Hd) Ha He. split_and!.
  - by eapply written_persistent.
  - by eapply held_stable.
  - by rewrite (partner_stable t u e σ σ').
Qed.

Lemma came_up_snoc t node text post σ σ' x :
  came_up t node text post σ → came_up t node text (post ++ [x]) σ'.
Proof using Type.
  intros (before & after & -> & Hr). exists before, (after ++ [x]).
  split; [by rewrite <- app_assoc|by apply raised_app].
Qed.

Lemma came_up_persistent t node text : persistent t (came_up t node text).
Proof using Type. intros post σ σ' u e _ Hc _ _. by eapply came_up_snoc. Qed.
#[local] Hint Resolve known_persistent partner_locked_persistent partner_down_persistent
  written_persistent woken_persistent came_up_persistent : core.

(** The thread's own events keep what was written before. *)
Lemma written_snoc t node text post σ σ' x :
  mPartnerUp (fields σ') = mPartnerUp (fields σ) →
  written t node text post σ → written t node text (post ++ [x]) σ'.
Proof using Type.
  intros Hf (before & after & -> & Hup). exists before, (after ++ [x]).
  split; [by rewrite <- app_assoc|]. rewrite Hf. intros Hold. by apply raised_app, Hup.
Qed.

(** What is known after [wait_partner] and [switchMode], by their answer. *)
Definition after_wait t node text (r : option bool) : history → state → Prop :=
  if r is Some true then came_up t node text else known.

Lemma after_wait_persistent t node text r : persistent t (after_wait t node text r).
Proof using Type. destruct r as [[]|]; simpl; auto. Qed.
#[local] Hint Resolve after_wait_persistent : core.

Lemma wait_partner_safe t node text fuel l σ :
  in_session t l (written t node text) σ →
  safe t (wait_partner fuel) (λ r σ', ∃ l', node_writes [] l' ∧
    in_session t (l ++ l') (after_wait t node text r) σ') σ.
Proof.
  revert l σ. induction fuel as [|fuel IH]; intros l σ Hσ; cbn [wait_partner].
  { apply (session_ret t _ l (written t node text)); [auto|done|]. intros σ' Hσ'. exists [].
    rewrite app_nil_r. split; [done|]. by eapply session_weaken. }
  apply (session_wait t _ _ l (written t node text) (written t node text)
    (λ x, woken t node text x.2)); [auto..|exact Hσ| | |].
  { intros post σ' σ'' Hw He. eapply written_snoc; [|done]. by rewrite (emit_fields _ _ _ _ He). }
  { intros post σ' b σ'' Hw x He. pose proof (emit_fields _ _ _ _ He) as Hf. split_and!.
    - eapply written_snoc; [|done]. by rewrite Hf.
    - apply emit_held in He. apply take_lock_spec in He as [_ ->]. done.
    - by rewrite Hf. }
  intros [timed_out up] σ1 H1. cbn [snd] in H1. set (l1 := l ++ _) in H1.
  apply (session_modify t _ _ l1 (woken t node text up) (woken t node text up)); [auto|done|..].
  { intros σ' (_ & pre & post & _ & _ & _ & _ & (_ & _ & Hup)). simpl. split; [done|].
    split; [by left|]. by left. }
  { intros post σ' σ'' (Hw & Hh & Hup) He. pose proof (emit_fields _ _ _ _ He) as Hf. simpl in Hf.
    split_and!.
    - eapply written_snoc; [|done]. by rewrite Hf.
    - apply emit_held in He. injection He as <-. done.
    - by rewrite Hf. }
  intros σ2 H2. destruct timed_out.
  { apply (session_ret t _ l1 (woken t node text up)); [auto|done|]. intros σ' Hσ'.
    eexists. split; [|by eapply session_weaken]. done. }
  apply (session_get t _ l1 (woken t node text up)); [auto|done|].
  intros σ3 H3. assert (mPartnerUp (fields σ3) = up) as -> by by destruct H3 as (_&?&?&_&_&_&_&_&_&?).
  destruct up; cbn [negb].
  - apply (session_ret t _ l1 (woken t node text true)); [auto|done|]. intros σ' Hσ'.
    eexists. split; [|eapply session_weaken; [|exact Hσ']]; [done|].
    intros post ((before & after & -> & Hr) & _ & Hup'). exists before, after. split; [done|]. by apply Hr.
  - eapply safe_mono; [apply (IH l1)|].
    + eapply session_weaken; [|exact H3]. by intros post [? _].
    + intros r σ' (l' & Hl' & Hσ'). unfold l1 in Hσ'. rewrite <- app_assoc in Hσ'.
      eexists. split; [|exact Hσ']. by apply (node_writes_app [] [] [_]).
Qed.

(** ** Switching a role *)

(** A call about which nothing is remembered. *)
Lemma session_call_known {B X} t (c : usbE X) (k : X → prog usbE Usb B) l R Q σ :
  wait_of c = None → keeps_role c = true → persistent t R → in_session t l R σ →
  (∀ σ' x, in_session t l R σ' → allowed σ' t (Asked (Entry c x))) →
  (∀ x σ', in_session t (l ++ [Entry c x]) known σ' → safe t (k x) Q σ') →
  safe t (call c ≫= k) Q σ.
Proof. intros. by apply (session_call t c k l R (λ _, known)). Qed.

Lemma session_held t l R σ : in_session t l R σ → held σ mRoleSwitchLock = Some t.
Proof using Type. by intros [? _]. Qed.
#[local] Hint Resolve session_held : core.

(** One harmless call, and the end, of a session. *)
#[local] Ltac session_step Hσ :=
  eapply session_call_known; [done|done| |exact Hσ| |];
    [auto|first [done|intros; by eapply session_held]|].
#[local] Ltac session_done Hσ := eapply session_ret; [|exact Hσ|]; [auto|].

Lemma switchToDrp_safe t portName l σ :
  in_session t l known σ →
  safe t (switchToDrp (c_str portName)) (λ _ σ', ∃ fp l',
    node_writes [(role_node portName MODE, "dual", fp)] l' ∧ in_session t (l ++ l') known σ') σ.
Proof.
  intros Hσ. unfold switchToDrp. rewrite bool_decide_true.
  2: { intros Hn. apply node_nonempty in Hn as [v [=]]. }
  rewrite c_str_idem.
  session_step Hσ. intros [] σ1 H1.
  - session_step H1.
    intros r σ2 H2. session_done H2. intros σ3 H3.
    rewrite <- app_assoc in H3. exists true. eexists. split; [|exact H3]. done.
  - session_done H1. intros σ3 H3.
    exists false. eexists. split; [|exact H3]. done.
Qed.

(** Between opening the file and falling back. *)
Lemma mode_write_safe fuel t node text l σ :
  in_session t l known σ →
  safe t (fp ← call (OpenNode node);
      if fp : bool then
        call LockPartner ;;
        modify (set_mPartnerUp false) ;;
        ret ← call (WriteNode node text);
        r ← (if ret : bool then wait_partner fuel else mret (Some false));
        call UnlockPartner ;;
        mret r
      else mret (Some false)) (λ r σ', ∃ fp l', node_writes [(node, text, fp)] l' ∧
    in_session t (l ++ l') (after_wait t node text r) σ') σ.
Proof.
  intros Hσ. session_step Hσ. intros [] σ1 H1.
  2: { session_done H1. intros σ2 H2.
       exists false. eexists. split; [|exact H2]. done. }
  set (l1 := l ++ _) in H1.
  apply (session_call t _ _ l1 known (λ _, partner_locked t)); [done|done|auto|done|done|..].
  { intros post σ' [] σ'' _ He. apply emit_held in He. unfold partner_locked. by apply take_lock_spec in He as [_ ->]. }
  intros [] σ2 H2. set (l2 := l1 ++ _) in H2.
  apply (session_modify t _ _ l2 (partner_locked t) (partner_down t)); [auto|done|..].
  { intros σ' (Hrole & pre & post & _ & _ & _ & _ & Hp). simpl. split; [done|].
    split; [by right|by left]. }
  { intros post σ' σ'' Hp He. split; [|by rewrite (emit_fields _ _ _ _ He)].
    apply emit_held in He. injection He as <-. done. }
  intros σ3 H3. apply (session_call t _ _ l2 (partner_down t)
    (λ ret, if ret : bool then written t node text else known));
    [done|done|auto|done|intros; by eapply session_held|..].
  { intros post σ' [] σ'' [_ Hdown] He; [|done]. exists post, []. split; [done|].
    rewrite (emit_fields _ _ _ _ He). simpl. congruence. }
  intros ret σ4 H4. set (l3 := l2 ++ _) in H4. apply safe_bind.
  apply (safe_mono _ _ _ _ _ (λ r σ', ∃ l', node_writes [] l' ∧
    in_session t (l3 ++ l') (after_wait t node text r) σ')).
  { destruct ret; [by apply wait_partner_safe|]. session_done H4.
    intros σ' H5. exists []. by rewrite app_nil_r. }
  intros r σ5 (l4 & Hn4 & H5).
  eapply (session_call t _ _ _ (after_wait t node text r) (λ _, after_wait t node text r));
    [done|done|auto|exact H5|done|..].
  { intros post σ' x σ'' Hr _. destruct r as [[]|]; try done. by apply (came_up_snoc _ _ _ _ σ'). }
  intros [] σ6 H6. session_done H6.
  intros σ7 H7. unfold l3, l2, l1 in H7. rewrite <- !app_assoc in H7.
  exists true. eexists. split; [|exact H7].
  apply (node_writes_app [_] [] [Entry (OpenNode node) true; Entry LockPartner tt;
    Entry (WriteNode node text) ret]); [done|]. by apply (node_writes_app [] []).
Qed.

Lemma switchMode_safe fuel t portName role l σ :
  pr_type role = MODE → in_session t l known σ →
  safe t (switchMode fuel portName role) (λ r σ', ∃ fp fp' l',
    node_writes ((role_node portName MODE, convertRoletoString role, fp) ::
      (if bool_decide (r = Some false) then [(role_node portName MODE, "dual", fp')] else [])) l' ∧
    in_session t (l ++ l') (after_wait t (role_node portName MODE) (convertRoletoString role) r) σ') σ.
Proof.
  intros Hmode Hσ. unfold switchMode. rewrite Hmode.
  rewrite bool_decide_false by (intros Hn; apply node_nonempty in Hn as [v [=]]).
  fold (role_node portName MODE). apply safe_bind.
  eapply safe_mono; [by apply mode_write_safe|]. intros r σ1 (fp & l1 & Hn1 & H1).
  destruct r as [[]|].
  - session_done H1. intros σ2 H2. by exists fp, true, l1.
  - apply safe_bind. eapply safe_mono; [apply switchToDrp_safe; exact H1|].
    intros [] σ2 (fp' & l2 & Hn2 & H2). session_done H2. intros σ3 H3.
    exists fp, fp', (l1 ++ l2). rewrite app_assoc. split; [|done]. by apply (node_writes_app [_] [_]).
  - session_done H1. intros σ2 H2. by exists fp, true, l1.
Qed.

Lemma switchByFile_safe t portName role l σ :
  in_session t l known σ →
  safe t (switchByFile (appendRoleNodeHelper (c_str portName) (pr_type role)) role)
    (λ r σ', ∃ fp l', node_writes [(role_node portName (pr_type role), convertRoletoString role, fp)] l' ∧
      (r = true → extractRole <$> last (lines_read l') = Some (convertRoletoString role)) ∧
      in_session t (l ++ l') known σ') σ.
Proof.
  intros Hσ. unfold switchByFile. fold (role_node portName (pr_type role)).
  session_step Hσ. intros [] σ1 H1.
  2: { session_done H1. intros σ2 H2.
       exists false. eexists. split; [|split; [|exact H2]]; done. }
  session_step H1.
  intros [] σ2 H2.
  2: { session_done H2. intros σ3 H3. rewrite <- app_assoc in H3.
       exists true. eexists. split; [|split; [|exact H3]]; done. }
  apply safe_bind. unfold readFile.
  session_step H2.
  intros r σ3 H3. rewrite <- !app_assoc in H3.
  destruct r as [[line|]|]; (session_done H3); intros σ4 H4;
    [rewrite bool_decide_true by done..|rewrite bool_decide_false by done];
    (session_done H4); intros σ5 H5;
    exists true; eexists; (split; [|split; [|exact H5]]; [done|]); [..|done];
    intros Heq%bool_decide_eq_true; cbn; by rewrite Heq.
Qed.

(** What is known when the result is reported. *)
Definition switched_ok t portName role (ok : bool) : history → state → Prop :=
  if ok && bool_decide (pr_type role = MODE)
  then came_up t (role_node portName MODE) (convertRoletoString role) else known.

Definition reporting t portName role ok (cb : option Z) (post : history) σ : Prop :=
  switched_ok t portName role ok post σ ∧ held σ mLock = Some t ∧ mCallback_1_0 (fields σ) = cb.

Lemma switched_ok_snoc t portName role ok post σ σ' x :
  switched_ok t portName role ok post σ → switched_ok t portName role ok (post ++ [x]) σ'.
Proof using Type.
  unfold switched_ok. destruct (ok && _); [|done]. intros Hc.
  by apply (came_up_snoc _ _ _ _ σ).
Qed.

Lemma switched_ok_persistent t portName role ok : persistent t (switched_ok t portName role ok).
Proof using Type. intros post σ σ' u e _ Hs _ _. by apply (switched_ok_snoc _ _ _ _ _ σ). Qed.

Lemma reporting_persistent t portName role ok cb : persistent t (reporting t portName role ok cb).
Proof using Type.
  intros post σ σ' u e Hu (Hs & Hh & Hcb) Ha He. split_and!.
  - by apply (switched_ok_snoc _ _ _ _ _ σ).
  - by eapply held_stable.
  - by destruct (callback_stable t u e σ σ' He Ha Hu (or_introl Hh)) as [-> _].
Qed.
#[local] Hint Resolve switched_ok_persistent reporting_persistent : core.

(** The calls of a session that ends with [ok]. *)
Definition switch_log (portName : string) role (ok : bool) l : Prop :=
  (∃ fp fp', node_writes ((role_node portName (pr_type role), convertRoletoString role, fp) ::
    (if bool_decide (pr_type role = MODE) && negb ok
     then [(role_node portName MODE, "dual", fp')] else [])) l) ∧
  (ok = true → pr_type role ≠ MODE →
    extractRole <$> last (lines_read l) = Some (convertRoletoString role)).

Lemma switch_log_snoc portName role ok l e :
  node_writes [] [e] → lines_read [e] = [] → switch_log portName role ok l →
  switch_log portName role ok (l ++ [e]).
Proof using Type.
  intros Hn Hr [(fp & fp' & Hw) Hl]. split.
  - exists fp, fp'. rewrite <- (app_nil_r (_ :: _)). by apply node_writes_app.
  - intros Hok Hm. specialize (Hl Hok Hm). unfold lines_read in *.
    by rewrite omap_app, Hr, app_nil_r.
Qed.

Lemma report_truthful t portName role ok cb l σ :
  switch_log portName role ok l → in_session t l (reporting t portName role ok cb) σ →
  truthful t portName role (if ok then SUCCESS else ERROR) (trace σ).
Proof using Type.
  intros [(fp & fp' & Hw) Hl] (_ & pre & post & Ht & Hn & Hex & <- & Hs & _).
  exists pre, post, ok, fp, fp'. split_and!; [done..|].
  intros ->. unfold switched_ok in Hs. case_bool_decide as Hm; [|by apply Hl]. exact Hs.
Qed.

(** The end of [switchRole]: the report, and the locks. *)
Lemma report_safe t portName role ok l σ :
  switch_log portName role ok l → in_session t l (switched_ok t portName role ok) σ →
  safe t (call LockCallback ;;
    s ← get;
    match mCallback_1_0 s with
    | Some cb =>
        _ ← call (Cb_notifyRoleSwitchStatus cb portName role (if ok then SUCCESS else ERROR));
        mret ()
    | None => mret ()
    end ;;
    call UnlockCallback ;;
    call UnlockRoleSwitch ;;
    mret (Some ())) (λ _ _, True) σ.
Proof.
  intros Hlog Hσ.
  eapply (session_call t _ _ l (switched_ok t portName role ok)
    (λ _ post σ, switched_ok t portName role ok post σ ∧ held σ mLock = Some t));
    [done|done|auto|exact Hσ|done|..].
  { intros post σ' [] σ'' Hs He. split; [by apply (switched_ok_snoc _ _ _ _ _ σ')|].
    apply emit_held in He. by apply take_lock_spec in He as [_ ->]. }
  intros [] σ1 H1. set (l1 := l ++ _) in H1.
  assert (switch_log portName role ok l1) as Hlog1 by by apply switch_log_snoc.
  eapply (session_get t _ l1); [|exact H1|].
  { intros post σ' σ'' u e Hu [Hs Hh] Ha He. split; [by apply (switched_ok_snoc _ _ _ _ _ σ')|].
    by eapply held_stable. }
  intros σ2 H2. set (cb := mCallback_1_0 (fields σ2)).
  assert (in_session t l1 (reporting t portName role ok cb) σ2) as H2'
    by (eapply session_weaken; [|exact H2]; by intros post [? ?]).
  apply safe_bind.
  apply (safe_mono _ _ _ _ _ (λ _ σ', ∃ l2, in_session t l2 known σ')).
  { destruct cb as [cb|].
    - eapply (session_call t _ _ l1 _ (λ _, known)); [done|done| |exact H2'| |done|]; [auto|..].
      + intros σ' x Hσ'. pose proof Hσ' as (Hh & pre & post & _ & _ & _ & _ & _ & Hl & Hcb).
        split_and!; try done. eapply report_truthful; [exact Hlog1|exact Hσ'].
      + intros x σ3 H3. session_done H3. intros σ4 H4. by eexists.
    - session_done H2'. intros σ3 H3. exists l1. by eapply session_weaken; [|exact H3]. }
  intros [] σ3 [l2 H3]. session_step H3. intros [] σ4 H4.
  eapply (safe_call allowed inv any_answer inv_trivial); [done|by apply (session_stable t (l2 ++ [Entry UnlockCallback tt]) known)|exact H4|].
  intros σ5 [] σ6 _ _ _. split; [done|]. intros _. by intros σ7.
Qed.

Lemma switchRole_safe fuel t portName role σ :
  safe t (switchRole fuel portName role) (λ _ _, True) σ.
Proof.
  unfold switchRole. case_bool_decide as Hname; [by intros σ'|].
  eapply (safe_call allowed inv any_answer inv_trivial _ _ _ inv); [done|by intros ?|done|].
  intros σ0 [] σ1 _ _ He. split; [done|]. intros _.
  assert (in_session t [] known σ1) as H1.
  { split; [apply emit_held in He; by apply take_lock_spec in He as [_ ->]|].
    exists (trace σ0), []. split_and!; [by apply emit_trace in He|by apply not_elem_of_nil| |done|done].
    by intros u node text ok ?%not_elem_of_nil. }
  apply safe_bind.
  apply (safe_mono _ _ _ _ _ (λ r σ', ∃ l, match r with
    | Some ok => switch_log portName role ok l ∧ in_session t l (switched_ok t portName role ok) σ'
    | None => True end)).
  { unfold switch_log, switched_ok. case_bool_decide as Hmode.
    - eapply safe_mono; [by apply switchMode_safe|]. intros r σ' (fp & fp' & l & Hn & Hσ').
      exists l. destruct r as [ok|]; [|done]. rewrite Hmode in *. split; [split|].
      + exists fp, fp'. by destruct ok.
      + done.
      + by destruct ok.
    - apply safe_bind. eapply safe_mono; [by apply switchByFile_safe|].
      intros r σ' (fp & l & Hn & Hr & Hσ'). session_done Hσ'. intros σ'' Hσ''. exists l.
      split; [split; [by exists fp, fp|intros Hok _; by apply Hr]|]. by rewrite andb_false_r. }
  intros r σ2 [l Hr]. destruct r as [ok|]; [|by intros σ']. destruct Hr. by eapply report_safe.
Qed.

(** * Reading the status of the ports: no lock, no field *)
#[local] Abbreviation calm := (calm allowed).

#[local] Ltac calm_run := repeat first
  [ apply calm_bind
  | apply calm_call; [by split|intros ?]
  | progress cbn beta iota
  | match goal with
    | |- True => exact I
    | |- calm (mret ?a) ?Q => change (Q a)
    | |- calm (if ?b then _ else _) _ => destruct b
    | |- calm (match ?x with _ => _ end) _ => destruct x
    end ].

Lemma getCurrentRole_calm name connected type :
  calm (getCurrentRoleHelper name connected type) (λ _, True).
Proof using Type. unfold getCurrentRoleHelper, getAccessoryConnected, readFile. calm_run. Qed.

Lemma canSwitchRole_calm name type : calm (canSwitchRoleHelper name type) (λ _, True).
Proof using Type. unfold canSwitchRoleHelper, readFile. calm_run. Qed.

Lemma port_status_calm version name connected p :
  calm (port_status version name connected p) (λ _, True).
Proof using Type.
  unfold port_status. do 3 (apply calm_bind; eapply calm_mono; [apply getCurrentRole_calm|];
    intros [] _; case_bool_decide; [done|]).
  apply calm_bind. apply (calm_mono _ _ (λ _, True)); [destruct connected; [apply canSwitchRole_calm|done]|].
  intros ? _. apply calm_bind.
  apply (calm_mono _ _ (λ _, True)); [destruct connected; [apply canSwitchRole_calm|done]|]. done.
Qed.

Lemma port_statuses_calm version ports i v :
  length v = (i + length ports)%nat → calm (port_statuses version i ports v) (λ _, True).
Proof using Type.
  revert i v. induction ports as [|[name connected] ports IH]; intros i v Hlen; cbn [port_statuses].
  { done. }
  destruct (v !! i) as [p|] eqn:Hp; [|apply lookup_ge_None in Hp; simpl in Hlen; lia].
  apply calm_bind. eapply calm_mono; [apply port_status_calm|]. intros [[] p'] _; [|done].
  apply IH. rewrite length_insert. simpl in Hlen. lia.
Qed.

Lemma getPortStatus_calm version v : calm (getPortStatusHelper version v) (λ _, True).
Proof using Type.
  unfold getPortStatusHelper, getTypeCPortNamesHelper. apply calm_bind, calm_bind.
  apply calm_call; [by split|]. intros [eps|]; [|done].
  destruct (add_names_from ∅ eps) as (names & -> & _). simpl.
  apply port_statuses_calm. unfold resize. rewrite length_app, length_take, length_replicate. lia.
Qed.

(** * The other methods *)
#[local] Abbreviation anything := (λ _ _, True).

(** A call that is always allowed, when nothing is known. *)
Lemma safe_free {B X} t (c : usbE X) (k : X → prog usbE Usb B) Q σ :
  wait_of c = None → (∀ σ x, allowed σ t (Asked (Entry c x))) →
  (∀ x σ', safe t (k x) Q σ') → safe t (call c ≫= k) Q σ.
Proof.
  intros Hw Ha Hk. eapply (safe_call allowed inv any_answer inv_trivial _ _ _ inv); [done|by intros ?|done|].
  intros σ' x σ'' _ _ _. by split.
Qed.

Lemma safe_free_last {X} t (c : usbE X) σ :
  wait_of c = None → (∀ σ x, allowed σ t (Asked (Entry c x))) → safe t (call c) anything σ.
Proof using Type. intros Hw Ha. by apply (safe_call_last allowed inv any_answer t c inv). Qed.

(** The framework is called while the callback's mutex is held. *)
Definition notifying t cb σ : Prop :=
  held σ mLock = Some t ∧ mCallback_1_0 (fields σ) = Some cb.

Lemma notifying_stable t cb : stable t (notifying t cb).
Proof using Type.
  intros σ σ' u e Hu _ [Hh Hcb] Ha He. split; [by eapply held_stable|].
  by destruct (callback_stable t u e σ σ' He Ha Hu (or_introl Hh)) as [-> _].
Qed.

Lemma held_stable' t m : stable t (λ σ, held σ m = Some t).
Proof using Type. intros σ σ' u e Hu _ Hh _ He. by eapply held_stable. Qed.

Lemma notify_safe {X} t cb (v : list PortStatus) (c : list PortStatus → Status → usbE X) version
    (f : Status → list PortStatus → list PortStatus) σ :
  (∀ v st, wait_of (c v st) = None) →
  (∀ v st σ' x, notifying t cb σ' → allowed σ' t (Asked (Entry (c v st) x))) →
  notifying t cb σ →
  safe t ('(status, v) ← getPortStatusHelper version v;
    _ ← call (c (f status v) status);
    mret (f status v)) anything σ.
Proof.
  intros Hw Ha Hσ. apply safe_bind. eapply safe_mono.
  { apply (safe_calm allowed inv any_answer _ _ (notifying t cb) (λ _, True));
      [apply notifying_stable|by intros ?|done|apply getPortStatus_calm]. }
  intros [st v'] σ' [_ Hσ']. cbn beta iota.
  eapply (safe_call allowed inv any_answer inv_trivial); [apply Hw|apply (notifying_stable t cb)|done|].
  intros σ1 x σ2 H1 _ _. split; [by apply Ha|]. intros _. by intros ?.
Qed.

Lemma queryVersion_safe t v σ : safe t (queryVersionHelper v) anything σ.
Proof.
  unfold queryVersionHelper. eapply (safe_get _ _ _ _ _ inv); [by intros ?|done|]. intros σ1 _ _.
  apply safe_free; [done..|]. intros cb1 σ2.
  eapply (safe_get _ _ _ _ _ inv); [by intros ?|done|]. intros σ2' _ _.
  apply safe_free; [done..|]. intros cb2 σ3.
  eapply (safe_call allowed inv any_answer inv_trivial _ _ _ inv); [done|by intros ?|done|].
  intros σ4 [] σ5 _ _ He. split; [done|]. intros _.
  assert (held σ5 mLock = Some t) as H5 by (apply emit_held in He; by apply take_lock_spec in He as [_ ->]).
  eapply (safe_get _ _ _ _ _ (λ σ, held σ mLock = Some t)); [apply held_stable'|done|].
  intros σ6 H6 _. apply safe_bind. apply (safe_mono _ _ _ _ _ anything).
  { destruct (mCallback_1_0 (fields σ6)) as [cb|] eqn:Hcb; [|by intros ?].
    assert (notifying t cb σ6) as Hn by done.
    destruct cb2 as [cb2|]; [|destruct cb1 as [cb1|]].
    - apply (notify_safe t cb _ (Cb_notifyPortStatusChange_1_2 cb2) V1_2 (λ st v,
        if bool_decide (st = SUCCESS) then (queryMoistureDetectionStatus v).2 else v)); try done.
      intros ???? [? Hc]. simpl. by rewrite Hc.
    - apply (notify_safe t cb _ (Cb_notifyPortStatusChange_1_1 cb1) V1_1 (λ st v, v)); try done.
      intros ???? [? Hc]. simpl. by rewrite Hc.
    - by apply (notify_safe t cb _ (Cb_notifyPortStatusChange cb) V1_0 (λ st v, v)). }
  intros v' σ7 _. apply safe_free; [done..|]. by intros [] σ8 ?.
Qed.

Lemma enableUsbDataSignal_safe t enable σ : safe t (enableUsbDataSignal enable) anything σ.
Proof.
  eapply safe_mono; [apply (safe_calm allowed inv any_answer _ _ inv (λ _, True)); try done|by intros ? ? ?].
  unfold enableUsbDataSignal. calm_run.
Qed.

(** * The worker *)
Definition switching t σ : Prop := held σ mRoleSwitchLock = Some t.

Lemma switching_stable t : stable t (switching t).
Proof using Type. apply held_stable'. Qed.

Lemma emit_own_held {X} t (c : usbE X) x σ σ' m :
  emit t (Asked (Entry c x)) σ = Some σ' → sync_of c = None → held σ' m = held σ m.
Proof using Type. intros He%emit_held Hs. simpl in He. rewrite Hs in He. by injection He as <-. Qed.

Lemma drp_if_idle_safe t p σ :
  switching t σ → safe t (drp_if_idle p) (λ _, switching t) σ.
Proof.
  intros Hσ. unfold drp_if_idle. pose proof (switching_stable t) as Hst.
  eapply (safe_call allowed inv any_answer inv_trivial); [done|exact Hst|exact Hσ|].
  intros σ1 up σ2 H1 _ He. split; [done|]. intros _.
  assert (switching t σ2) as H2 by (unfold switching; by rewrite (emit_own_held _ _ _ _ _ _ He)).
  destruct up; cbn [negb]; [by eapply safe_ret|]. unfold switchToDrp.
  case_bool_decide; [|by eapply safe_ret].
  eapply (safe_call allowed inv any_answer inv_trivial); [done|exact Hst|exact H2|].
  intros σ3 fp σ4 H3 _ He3. split; [done|]. intros _.
  assert (switching t σ4) as H4 by (unfold switching; by rewrite (emit_own_held _ _ _ _ _ _ He3)).
  destruct fp; [|by eapply safe_ret].
  eapply (safe_call allowed inv any_answer inv_trivial); [done|exact Hst|exact H4|].
  intros σ5 ok σ6 H5 _ He5. split; [exact H5|]. intros _. eapply safe_ret; [exact Hst| |done].
  unfold switching. by rewrite (emit_own_held _ _ _ _ _ _ He5).
Qed.

Lemma typec_event_safe t σ : safe t typec_event anything σ.
Proof.
  unfold typec_event. apply safe_bind. eapply safe_mono; [apply queryVersion_safe|]. intros v σ1 _.
  eapply (safe_call allowed inv any_answer inv_trivial _ _ _ inv); [done|by intros ?|done|].
  intros σ2 free σ3 _ _ He. split; [done|]. intros _. destruct free; [|by intros ?].
  assert (switching t σ3) as H3 by (unfold switching; apply emit_held in He; by apply take_lock_spec in He as [_ ->]).
  apply safe_bind. eapply safe_mono.
  { apply (safe_foreach allowed inv any_answer _ _ _ (switching t)); [apply switching_stable|done|].
    intros p σ' _. apply drp_if_idle_safe. }
  intros [] σ4 _. by apply safe_free_last.
Qed.

(** The last message of a thread. *)
Definition got t msg σ : Prop := last (messages (calls t (trace σ))) = Some (Some msg).

Lemma got_stable t msg : stable t (got t msg).
Proof using Type.
  intros σ σ' u e Hu _ Hg _ He. unfold got. by rewrite (emit_trace _ _ _ _ He), calls_other.
Qed.

Lemma got_own {X} t msg (c : usbE X) x σ σ' :
  messages [Entry c x] = [] → emit t (Asked (Entry c x)) σ = Some σ' → got t msg σ → got t msg σ'.
Proof using Type.
  intros Hc He Hg. unfold got, messages in *. rewrite (emit_trace _ _ _ _ He), calls_own.
  by rewrite omap_app, Hc, app_nil_r.
Qed.

Lemma partner_event_safe t msg σ :
  announces msg → got t msg σ → safe t partner_event (λ _, got t msg) σ.
Proof.
  intros Hmsg Hσ. unfold partner_event. pose proof (got_stable t msg) as Hst.
  assert (stable t (λ σ, got t msg σ ∧ held σ mPartnerLock = Some t)) as Hst2
    by (apply stable_and; [done|apply held_stable']).
  eapply (safe_call allowed inv any_answer inv_trivial); [done|exact Hst|exact Hσ|].
  intros σ1 [] σ2 H1 _ He. split; [done|]. intros _.
  eapply (safe_modify allowed inv any_answer inv_trivial); [exact Hst2| |].
  { split; [by apply (got_own t msg LockPartner tt σ1)|]. apply emit_held in He. by apply take_lock_spec in He as [_ ->]. }
  intros σ3 σ4 [H3 Hh3] _ He3. split.
  { split; [done|]. split; [|by left]. right. split; [done|]. by exists msg. }
  intros _. eapply (safe_call allowed inv any_answer inv_trivial); [done|exact Hst| |].
  { unfold got in *. rewrite (emit_trace _ _ _ _ He3), calls_app. cbn [calls omap list_omap].
    case_decide; by rewrite app_nil_r. }
  intros σ5 [] σ6 H5 _ He5. split; [done|]. intros _.
  apply (safe_call_last allowed inv any_answer t _ (got t msg)); [done..| |done|].
  - by apply (got_own t msg SignalPartner tt σ5).
  - intros σ7 [] σ8 H7 _ He8. split; [done|]. by apply (got_own t msg UnlockPartner tt σ7).
Qed.

Lemma uevent_loop_safe t msg pre fs tail fuel σ :
  terminated msg = pre +:+ (encode fs +:+ String Ascii.zero tail) → Forall is_field fs →
  (length fs < fuel)%nat → got t msg σ →
  safe t (uevent_loop fuel (encode fs +:+ String Ascii.zero tail)) anything σ.
Proof.
  intros Hmsg Hfs. revert pre fuel σ Hmsg. induction Hfs as [|f fs [Hf Hz] _ IH];
    intros pre fuel σ Hmsg Hlen Hσ; (destruct fuel as [|fuel]; [simpl in Hlen; lia|]);
    cbn [encode uevent_loop]; [by intros ?|].
  cbn [encode] in Hmsg. rewrite <- app_string_assoc, app_string_cons in Hmsg |- *.
  set (rest := encode fs +:+ _) in *.
  rewrite has_char_app. cbn [has_char]. rewrite bool_decide_true, orb_true_r by done.
  assert (c_str (f +:+ String Ascii.zero rest) = f) as Hcp by by apply until_char_app.
  rewrite Hcp, after_char_app, bool_decide_false by done. cbn [negb].
  assert (terminated msg = (pre +:+ f +:+ String Ascii.zero "") +:+ rest) as Hrest.
  { by rewrite Hmsg, <- !app_string_assoc, app_string_cons. }
  destruct (partner_added f) eqn:Hp; [|destruct (typec_device f); [apply typec_event_safe|]].
  - apply safe_bind. eapply safe_mono; [apply (partner_event_safe t msg); [|done]|].
    { eexists _, _. split; [exact Hmsg|]. by rewrite Hcp. }
    intros [] σ' Hσ'. eapply IH; [exact Hrest|simpl in Hlen; lia|done].
  - eapply IH; [exact Hrest|simpl in Hlen; lia|done].
Qed.

Lemma uevent_event_safe' t fd σ : safe t (uevent_event fd) anything σ.
Proof.
  unfold uevent_event. eapply (safe_call allowed inv any_answer inv_trivial _ _ _ inv); [done|by intros ?|done|].
  intros σ1 [msg|] σ2 _ _ He; (split; [done|]); intros _; [|by intros ?].
  do 2 (case_bool_decide; [by intros ?|]).
  destruct (message_fields _ msg (le_n _)) as (fs & tail & Hfs & Heq). rewrite Heq.
  apply (uevent_loop_safe t msg ""); [by rewrite app_string_nil_l|done| |].
  - pose proof (fields_bound fs tail msg Hfs Heq). lia.
  - unfold got, messages. rewrite (emit_trace _ _ _ _ He), calls_own, omap_app. cbn. by rewrite last_snoc.
Qed.

Lemma work_loop_safe t fuel epoll_fd uevent_fd σ :
  safe t (work_loop fuel epoll_fd uevent_fd) anything σ.
Proof.
  revert σ. induction fuel as [|fuel IH]; intros σ; cbn [work_loop]; [by intros ?|].
  eapply (safe_get _ _ _ _ _ inv); [by intros ?|done|]. intros σ1 _ _.
  destruct (destroyThread (fields σ1)); [by intros ?|]. apply safe_free; [done..|].
  intros [[nevents eintr] signalled] σ2. apply safe_bind. apply (safe_mono _ _ _ _ _ anything).
  { destruct signalled; [|by intros ?]. intros σ3 _ _ _ σ4 _. split; [|by intros ?].
    simpl. split; [done|]. split; by left. }
  intros [] σ3 _. case_bool_decide; [destruct eintr; [apply IH|by intros ?]|].
  apply safe_bind. eapply safe_mono; [|intros [] σ4 _; apply IH].
  apply (safe_foreach allowed inv any_answer _ _ _ inv); [by intros ?|done|].
  intros n σ4 _ _. apply uevent_event_safe'.
Qed.

Lemma work_safe t fuel σ : safe t (work fuel) anything σ.
Proof.
  unfold work. apply safe_free; [done..|]. intros fd σ1. case_bool_decide; [by intros ?|].
  apply safe_free; [done..|]. intros [] σ2. apply safe_free; [done..|]. intros epfd σ3.
  apply safe_bind. apply (safe_mono _ _ _ _ _ anything).
  { case_bool_decide; [by intros ?|]. apply safe_free; [done..|]. intros added σ4.
    case_bool_decide; [by intros ?|]. apply work_loop_safe. }
  intros [[]|] σ4 _; [|by intros ?]. apply safe_free; [done..|]. intros [] σ5.
  case_bool_decide; [apply safe_free; [done..|]; intros [] σ6|]; by intros ?.
Qed.

(** * The client *)
Definition client_knows (a b : option Z) σ : Prop :=
  mCallback_1_0 (fields σ) = a ∧ mPoll (fields σ) = b.

Lemma client_knows_stable a b : stable client (client_knows a b).
Proof using Type.
  intros σ σ' u e Hu _ [Ha Hb] He1 He2. unfold client_knows.
  by destruct (callback_stable client u e σ σ' He2 He1 Hu (or_intror eq_refl)) as [-> ->].
Qed.

Definition client_holds a b σ : Prop := client_knows a b σ ∧ held σ mLock = Some client.

Lemma client_holds_stable a b : stable client (client_holds a b).
Proof using Type. apply stable_and; [apply client_knows_stable|apply held_stable']. Qed.

(** A registered callback has a thread. *)
Definition registered σ : Prop :=
  mCallback_1_0 (fields σ) ≠ None → mPoll (fields σ) ≠ None.

Lemma registered_stable : stable client registered.
Proof using Type.
  intros σ σ' u e Hu _ Hreg He1 He2. unfold registered.
  by destruct (callback_stable client u e σ σ' He2 He1 Hu (or_intror eq_refl)) as [-> ->].
Qed.

(** The fields after one of the client's calls. *)
Lemma client_call {X} a b (c : usbE X) x σ σ' :
  emit client (Asked (Entry c x)) σ = Some σ' → client_knows a b σ → client_knows a b σ'.
Proof using Type. intros He. unfold client_knows. by rewrite (emit_fields _ _ _ _ He). Qed.

(** A change of the client's fields, under their mutex. *)
Lemma client_modify {B} (f : Usb → Usb) (k : unit → prog usbE Usb B) a b a' b' Q σ :
  (∀ s, mPartnerUp (f s) = mPartnerUp s) →
  (∀ s, mCallback_1_0 s = a → mPoll s = b → mCallback_1_0 (f s) = a' ∧ mPoll (f s) = b') →
  client_holds a b σ → (∀ σ', client_holds a' b' σ' → safe client (k ()) Q σ') →
  safe client (modify f ≫= k) Q σ.
Proof.
  intros Hup Hf Hσ Hk.
  eapply (safe_modify allowed inv any_answer inv_trivial); [apply client_holds_stable|exact Hσ|].
  intros σ1 σ2 [[Ha Hb] Hh] _ He. split.
  - split; [done|]. split; [left; apply Hup|by right].
  - intros _. apply Hk. pose proof (emit_fields _ _ _ _ He) as Hf2. simpl in Hf2. split.
    + unfold client_knows. rewrite Hf2. by apply Hf.
    + apply emit_held in He. injection He as <-. done.
Qed.

(** The end of a registration. *)
Lemma client_unlock a b σ :
  (a ≠ None → b ≠ None) → client_holds a b σ →
  safe client (call UnlockCallback) (λ _, registered) σ.
Proof.
  intros Hab Hσ. apply (safe_call_last allowed inv any_answer _ _ (client_holds a b) (λ _, registered));
    [done|apply client_holds_stable|done|intros ?; apply registered_stable|].
  intros σ1 x σ2 [H1 _] _ He. split; [done|].
  destruct (client_call a b _ _ _ _ He H1) as [Ha Hb]. unfold registered. by rewrite Ha, Hb.
Qed.

(** The callback is gone: the thread is told to end, without the mutex. *)
Lemma stop_worker_safe b σ :
  b ≠ None → client_holds None b σ →
  safe client (call UnlockCallback ;;
    s ← get;
    match mPoll s with
    | None => undef
    | Some poll =>
        sent ← call (Pthread_kill_USR1 poll);
        if sent : bool then call (Pthread_join poll) else mret ()
    end) (λ _, registered) σ.
Proof.
  intros Hb Hσ. pose proof registered_stable as Hst.
  eapply (safe_call allowed inv any_answer inv_trivial); [done|apply client_holds_stable|exact Hσ|].
  intros σ5 [] σ6 [H5 _] _ He. split; [done|]. intros _.
  eapply (safe_get _ _ _ _ _ (client_knows None b)); [apply client_knows_stable|by eapply client_call|].
  intros σ7 [H7 Hpoll] _. rewrite Hpoll. destruct b as [poll|]; [|done].
  assert (registered σ7) as Hr7 by (unfold registered; by rewrite H7).
  eapply (safe_call allowed inv any_answer inv_trivial); [done|exact Hst|exact Hr7|].
  intros σ8 sent σ9 H8 _ He9. split; [done|]. intros _.
  assert (registered σ9) as H9 by (unfold registered; by rewrite (emit_fields _ _ _ _ He9)).
  destruct sent; [|by eapply safe_ret].
  apply (safe_call_last allowed inv any_answer _ _ registered (λ _, registered)); [done..|].
  intros σ10 [] σ11 H10 _ He11. split; [done|].
  unfold registered. by rewrite (emit_fields _ _ _ _ He11).
Qed.

(** One of the client's calls, while it holds the mutex. *)
Lemma client_held_call {B X} (c : usbE X) (k : X → prog usbE Usb B) a b Q σ :
  wait_of c = None → (∀ σ x, allowed σ client (Asked (Entry c x))) →
  (∀ σ x σ', emit client (Asked (Entry c x)) σ = Some σ' → held σ' = held σ) →
  client_holds a b σ → (∀ x σ', client_holds a b σ' → safe client (k x) Q σ') →
  safe client (call c ≫= k) Q σ.
Proof.
  intros Hw Ha Hh Hσ Hk.
  eapply (safe_call allowed inv any_answer inv_trivial); [done|apply client_holds_stable|exact Hσ|].
  intros σ1 x σ2 [H1 Hl] _ He. split; [apply Ha|]. intros _. apply Hk.
  split; [by eapply client_call|]. by rewrite (Hh _ _ _ He).
Qed.

Lemma emit_same_held t e σ σ' :
  locks_after t e (held σ) = Some (held σ) → emit t e σ = Some σ' → held σ' = held σ.
Proof using Type. intros Hs He%emit_held. congruence. Qed.

(** A callback is new: a thread is created for it. *)
Lemma start_worker_safe cb b σ :
  client_holds (Some cb) b σ →
  safe client (modify (set_destroyThread false) ;;
    call Signal_USR1 ;;
    created ← call Pthread_create;
    modify (set_mPoll created) ;;
    match created with
    | None => modify (set_mCallback_1_0 None)
    | Some _ => mret ()
    end ;;
    call UnlockCallback) (λ _, registered) σ.
Proof.
  intros Hσ. apply (client_modify _ _ (Some cb) b (Some cb) b); [done..|]. intros σ1 H1.
  eapply client_held_call; [done|done|intros ???; by apply emit_same_held|exact H1|].
  intros [] σ2 H2.
  eapply client_held_call; [done|done|intros ???; by apply emit_same_held|exact H2|].
  intros created σ3 H3.
  apply (client_modify _ _ (Some cb) b (Some cb) created); [done|by intros s <- _|done|].
  intros σ4 H4. destruct created as [p|].
  - apply safe_bind. eapply (safe_ret _ _ _ _ _ (client_holds (Some cb) (Some p)));
      [apply client_holds_stable|done|]. intros σ5 H5 _. by apply (client_unlock (Some cb) (Some p)).
  - apply (client_modify _ _ (Some cb) None None None); [done|by intros s _ <-|done|].
    intros σ5 H5. by apply (client_unlock None None).
Qed.

Lemma setCallback_safe cb σ :
  registered σ → safe client (setCallback cb) (λ _, registered) σ.
Proof.
  intros Hσ. unfold setCallback. pose proof registered_stable as Hst.
  do 2 (eapply (safe_call allowed inv any_answer inv_trivial); [done|exact Hst|exact Hσ|];
    clear σ Hσ; intros σ0 ? σ Hσ0 _ He; (split; [done|]); intros _;
    assert (registered σ) as Hσ by (unfold registered; by rewrite (emit_fields _ _ _ _ He));
    clear σ0 Hσ0 He).
  eapply (safe_call allowed inv any_answer inv_trivial); [done|exact Hst|exact Hσ|].
  intros σ1 [] σ2 H1 _ He. split; [done|]. intros _.
  set (a := mCallback_1_0 (fields σ2)). set (b := mPoll (fields σ2)).
  assert (client_holds a b σ2) as H2.
  { split; [done|]. apply emit_held in He. by apply take_lock_spec in He as [_ ->]. }
  assert (a ≠ None → b ≠ None) as Hab.
  { unfold a, b. rewrite (emit_fields _ _ _ _ He). exact H1. }
  clear σ σ1 Hσ H1 He. clearbody a b.
  eapply (safe_get _ _ _ _ _ (client_holds a b)); [apply client_holds_stable|done|].
  intros σ3 H3 _. pose proof H3 as [[-> _] _].
  destruct a as [a|], cb as [cb|]; cbn;
    (eapply client_modify; [done| |exact H3|]; [intros s _ Hb; split; [cbn; reflexivity|exact Hb]|]); intros σ4 H4.
  - apply (client_unlock (Some cb) b); [|done]. intros _. by apply Hab.
  - apply (stop_worker_safe b); [by apply Hab|done].
  - by apply (start_worker_safe cb b).
  - by apply (client_unlock None b).
Qed.

(** * All together *)

(** What runs in a thread: binder threads run the HAL's methods, one of them the
    calls that set callbacks, in this order; other threads run [work]. *)
Inductive usb_thread (t : nat) : prog usbE Usb (option unit) → Prop :=
| th_switchRole fuel portName role : usb_thread t (switchRole fuel portName role)
| th_queryPortStatus : usb_thread t (queryPortStatus ;; mret (Some ()))
| th_detection portName enable :
    usb_thread t (enableContaminantPresenceDetection portName enable ;; mret (Some ()))
| th_protection portName enable :
    usb_thread t (enableContaminantPresenceProtection portName enable ;; mret (Some ()))
| th_dataSignal enable : usb_thread t (enableUsbDataSignal enable ;; mret (Some ()))
| th_setCallback callbacks :
    t = client → usb_thread t (foreach setCallback callbacks ;; mret (Some ()))
| th_work fuel : usb_thread t (work fuel).

Lemma usb_thread_safe t p σ : usb_thread t p → registered σ → safe t p anything σ.
Proof.
  assert (∀ B C (p : prog usbE Usb B) (x : C), safe t p anything σ →
    safe t (p ;; mret x) anything σ) as Hthen.
  { intros B C q x Hq. apply safe_bind. eapply safe_mono; [exact Hq|]. by intros y σ' _ ?. }
  destruct 1 as [fuel port role| | | |enable|cbs ->|fuel]; intros Hσ.
  - apply switchRole_safe.
  - apply Hthen, Hthen, queryVersion_safe.
  - apply Hthen, Hthen, queryVersion_safe.
  - apply Hthen, Hthen, queryVersion_safe.
  - apply Hthen, enableUsbDataSignal_safe.
  - apply Hthen. eapply safe_mono; [apply (safe_foreach allowed inv any_answer _ _ _ registered)|done].
    + apply registered_stable.
    + done.
    + intros cb σ' _. apply setCallback_safe.
  - apply work_safe.
Qed.

Context {W : Type} {H : Handler usbE W}.

End threads.
