(* ===== verification/UsbThreadsProgress.v ===== *)
(** The threads of the USB HAL are never stuck: mutexes are taken in order. *)
From S2P Require Import Prelude Effects Threads ThreadsLogic ThreadsProgress CppString UsbTypes UsbPort UsbPortFacts UsbRole UsbThread UsbThreads UsbThreadsFacts.
From stdpp Require Import options.
#[local] Set Default Proof Using "Type*".

Section threads.
Context {UC : UsbConsts} {MO : MapOrder string bool} (work_fuel client : nat).
Let sy : Sync usbE usb_mutex Usb (option unit) := usb_sync work_fuel.
#[local] Existing Instance sy.
Context {W : Type} {H : Handler usbE W}.
#[local] Abbreviation usb_thread := (usb_thread client).

(** The role switch lock is taken before the others. *)
Definition usb_rank (m : usb_mutex) : nat := if m is mRoleSwitchLock then 0 else 1.

(** Anybody joins while holding nothing; a worker joins nobody. *)
Section ordered.
Variable leaf : bool.
#[local] Abbreviation ordered_to := (ordered_to usb_rank 0 leaf).
#[local] Abbreviation ordered := (ordered usb_rank 0 (.= Some ()) leaf).

#[local] Ltac holding_run :=
  cbn [holding sync_of sy usb_sync];
  repeat match goal with
    | |- context [filter ?f ?l] =>
        let v := eval vm_compute in (filter f l) in change (filter f l) with v
    end.

#[local] Ltac ordered_step := ordered_step_with ltac:(no_rank) ltac:(holding_run).
#[local] Ltac ordered_run := repeat ordered_step.

Lemma wait_partner_ordered fuel :
  ordered_to (wait_partner fuel) [mPartnerLock; mRoleSwitchLock]
    (λ _ L, L = [mPartnerLock; mRoleSwitchLock]).
Proof using Type.
  induction fuel as [|fuel IH]; cbn [wait_partner]; ordered_run; try done.
  split; [left|]. intros m' Hm Hne. elem_of_cases Hm; [done|]. simpl. lia.
Qed.

Lemma switchToDrp_ordered portName L : ordered_to (switchToDrp portName) L (λ _ L', L' = L).
Proof using Type. unfold switchToDrp. by ordered_run. Qed.

(** Under the role switch lock, any other may be taken. *)
Lemma after_role m m' : m' ∈ [mRoleSwitchLock] → m ≠ mRoleSwitchLock → (usb_rank m' < usb_rank m)%nat.
Proof using Type. intros ->%list_elem_of_singleton Hm. destruct m; simpl; [lia|done|lia]. Qed.

Lemma switchMode_ordered fuel portName role :
  ordered_to (switchMode fuel portName role) [mRoleSwitchLock] (λ _ L, L = [mRoleSwitchLock]).
Proof using Type.
  unfold switchMode. case_bool_decide; [done|]. apply ordered_bind.
  apply (ordered_mono _ _ _ _ _ (λ _ L, L = [mRoleSwitchLock])).
  { ordered_run; try done; [intros m' Hm; by apply after_role| |].
    - eapply ordered_mono; [apply wait_partner_ordered|]. intros r L ->. cbn beta.
      ordered_run; [left|done].
    - left. }
  intros r L ->. ordered_run; try done. eapply ordered_mono; [apply switchToDrp_ordered|].
  by intros [] L ->.
Qed.

Lemma switchRole_ordered fuel portName role : ordered (switchRole fuel portName role) [].
Proof using Type.
  unfold ordered, switchRole. case_bool_decide; [done|].
  apply ordered_bind, ordered_call; [no_rank; by intros m ?%not_elem_of_nil|intros []].
  holding_run. apply ordered_bind.
  apply (ordered_mono _ _ _ _ _ (λ _ L, L = [mRoleSwitchLock])).
  { case_bool_decide; [apply switchMode_ordered|]. unfold switchByFile, readFile. by ordered_run. }
  intros [ok|] L ->; [|done]. ordered_run; try done.
  { intros m' Hm. by apply after_role. }
  all: left.
Qed.

Lemma queryVersion_ordered v : ordered_to (queryVersionHelper v) [] (λ _ L, L = []).
Proof using client.
  unfold queryVersionHelper. do 9 ordered_step. ordered_step; [by intros m ?%not_elem_of_nil|].
  do 3 ordered_step. apply (ordered_mono _ _ _ _ _ (λ _ L, L = [mLock])).
  - assert (∀ version B (k : Status * list PortStatus → prog usbE Usb B) Q,
      (∀ st v, ordered_to (k (st, v)) [mLock] Q) →
      ordered_to (getPortStatusHelper version v ≫= k) [mLock] Q) as Hget.
    { intros version B k Q Hk. apply ordered_bind. eapply ordered_mono.
      - apply (ordered_calm usb_rank 0 leaf (usb_allowed client) _ (λ _, True)).
        exact (getPortStatus_calm work_fuel client version v).
      - intros [st v'] L [_ ->]. apply Hk. }
    repeat case_match; try done; apply Hget; intros; by ordered_run.
  - intros v' L ->. ordered_run; [left|done].
Qed.

Lemma typec_event_ordered : ordered_to typec_event [] (λ _ L, L = []).
Proof using client.
  unfold typec_event. apply ordered_bind. eapply ordered_mono; [apply queryVersion_ordered|].
  intros v L ->. apply ordered_bind, ordered_call; [no_rank|]. intros [];
    cbn [holding sync_of sy usb_sync]; [|done].
  apply ordered_bind. eapply ordered_mono; [apply ordered_foreach|].
  - intros p. unfold drp_if_idle, switchToDrp. by ordered_run.
  - intros [] L ->. ordered_run; [left|done].
Qed.

Lemma uevent_loop_ordered fuel msg : ordered_to (uevent_loop fuel msg) [] (λ _ L, L = []).
Proof using client.
  revert msg. induction fuel as [|fuel IH]; intros msg; cbn [uevent_loop]; [done|].
  repeat case_match; try done; [|apply typec_event_ordered].
  unfold partner_event. ordered_run; [by intros m ?%not_elem_of_nil|left|apply IH].
Qed.

Lemma work_loop_ordered fuel epoll_fd uevent_fd :
  ordered_to (work_loop fuel epoll_fd uevent_fd) [] (λ _ L, L = []).
Proof using client.
  induction fuel as [|fuel IH]; cbn [work_loop]; [done|]. apply ordered_bind, ordered_get. intros s.
  destruct (destroyThread s); [done|]. apply ordered_bind, ordered_call; [done|].
  intros [[nevents eintr] signalled]. holding_run. apply ordered_bind.
  apply (ordered_mono _ _ _ _ _ (λ _ L, L = [])); [by destruct signalled|].
  intros [] L ->. case_bool_decide; [by destruct eintr|]. apply ordered_bind.
  eapply ordered_mono; [apply ordered_foreach|by intros [] L ->].
  intros n. unfold uevent_event. ordered_run; try done. apply uevent_loop_ordered.
Qed.

Lemma work_ordered fuel : ordered (work fuel) [].
Proof using client.
  unfold ordered, work. ordered_step. ordered_step. ordered_step; [done|].
  do 4 ordered_step. apply ordered_bind. apply (ordered_mono _ _ _ _ _ (λ _ L, L = [])).
  { ordered_run; try done. apply work_loop_ordered. }
  intros [[]|] L ->; [|done]. by ordered_run.
Qed.

Lemma setCallback_ordered cb : leaf = false → ordered_to (setCallback cb) [] (λ _ L, L = []).
Proof using Type.
  intros Hleaf. unfold setCallback. do 4 ordered_step. ordered_step. ordered_step; [by intros m ?%not_elem_of_nil|].
  ordered_run; try done; try (split; [done|by intros m ?%not_elem_of_nil]); left.
Qed.

Lemma usb_thread_ordered t p : leaf = false → usb_thread t p → ordered p [].
Proof using Type.
  intros Hleaf.
  assert (∀ B (p : prog usbE Usb B), ordered_to p [] (λ _ L, L = []) →
    ordered (p ;; mret (Some ())) []) as Hthen.
  { intros B q Hq. apply ordered_bind. eapply ordered_mono; [exact Hq|]. by intros y L ->. }
  destruct 1 as [fuel port role| | | |enable|cbs ->|fuel].
  - apply switchRole_ordered.
  - apply Hthen. unfold queryPortStatus. ordered_step.
    eapply ordered_mono; [apply queryVersion_ordered|by intros ? L ->].
  - apply Hthen. unfold enableContaminantPresenceDetection. ordered_step.
    eapply ordered_mono; [apply queryVersion_ordered|by intros ? L ->].
  - apply Hthen. unfold enableContaminantPresenceProtection. ordered_step.
    eapply ordered_mono; [apply queryVersion_ordered|by intros ? L ->].
  - apply Hthen. unfold enableUsbDataSignal. by ordered_run.
  - apply Hthen, ordered_foreach. intros cb. by apply setCallback_ordered.
  - apply work_ordered.
Qed.
End ordered.

End threads.
