(* ===== verification/UsbRaces.v ===== *)
(** Interleavings of the USB HAL's threads ([src/usb/Usb.cpp]) that the locks do
    not exclude: what the protocol of [UsbThreads] leaves open, and what goes
    wrong when [setCallback] is called by two threads at once (the service's
    thread pool has two).  Each is a run of the methods themselves, found by
    its schedule. *)
From S2P Require Import Prelude Effects Threads ThreadsLogic ThreadsProgress CppString UsbTypes UsbPort UsbRole UsbThread UsbThreads UsbThreadsFacts UsbThreadsProgress.
From stdpp Require Import options.

#[local] Existing Instances usb_1_3 map_to_list_order.
#[local] Instance races_sync : Sync usbE usb_mutex Usb (option unit) := usb_sync 3.

#[local] Abbreviation usb_config := (config usbE usb_mutex Usb unit (option unit)).

(** The device of [one_port], whose kernel is silent when [n] is 0. *)
Definition waiting_port (n : Z) : Handler usbE unit := λ X c w,
  match c in usbE X return X * unit with
  | EpollWait _ => ((n, false, false), tt)
  | c => one_port _ c w
  end.

Definition demo_role : PortRole := MkPortRole MODE Mode_DFP.

(** A mode switch can be confirmed by a partner that was there before: thread 1
    receives the message of a partner, thread 0 then writes the role and waits,
    and is woken by thread 1, which handles the old message; the switch is
    reported as SUCCESS although the kernel has said nothing since the write. *)
Theorem stale_partner_confirms : let H := waiting_port 1 in
  ∃ (c : usb_config) before between after msg,
    reaches (start [switchRole 2 "port0" demo_role; work 2] (MkUsb (Some 1) false (Some 1) false) ()) c ∧
    trace (now c) =
      before ++ (1%nat, Asked (Entry (UeventRecv 3 UEVENT_MSG_LEN) (Some msg))) ::
      between ++ (0%nat, Asked (Entry (WriteNode (role_node "port0" MODE) "source") true)) ::
      after ∧
    messages (calls 1 after) = [] ∧
    role_notes (calls 0 after) = [(1, "port0", demo_role, SUCCESS)].
Proof.
  intros H.
  exists (finish (turns 1 7 ++ turns 0 6 ++ turns 1 4 ++ [(0%nat, false)] ++ turns 0 6)
    (start [switchRole 2 "port0" demo_role; work 2] (MkUsb (Some 1) false (Some 1) false) ())).
  do 4 eexists. split; [apply reaches_finish; by vm_compute|].
  split; [apply (splits_at 5 4); by vm_compute|]. by vm_compute.
Qed.

(** Two calls of [setCallback] can leave a callback without a worker: thread 0
    sets a callback and takes it back; between giving back [mLock] and
    [pthread_kill] it is overtaken by thread 1, which sets another callback,
    whose new worker overwrites [mPoll]; thread 0 kills and joins that worker,
    and the flag that it sets ends the first worker, too.  At the end every
    thread has ended, and callback 2 is registered. *)
Theorem setCallback_race : let H := waiting_port 0 in
  ∃ c : usb_config,
    reaches (start [foreach setCallback [Some 1; None] ;; mret (Some ());
                    setCallback (Some 2) ;; mret (Some ())] Usb_new ()) c ∧
    mCallback_1_0 (fields (now c)) = Some 2 ∧
    pool c = replicate 4 (Running (Ret (Some ()))).
Proof.
  intros H. eexists. split.
  - exists (turns 0 10 ++ turns 2 6 ++ turns 0 6 ++ turns 1 10 ++ turns 3 6 ++ turns 0 2 ++
      turns 3 6 ++ turns 0 1 ++ turns 2 3). vm_compute. reflexivity.
  - by split.
Qed.

(** A callback can be told of the ports after it has been replaced:
    [queryVersionHelper] reads [mCallback_1_0] before it takes [mLock], so a
    [setCallback] that comes between, and returns, does not keep callback 1
    from being called. *)
Theorem stale_callback_notified : let H := waiting_port 0 in
  ∃ (c : usb_config) before after ports st,
    reaches (start [queryPortStatus ;; mret (Some ()); setCallback (Some 2) ;; mret (Some ())]
      (MkUsb (Some 1) false (Some 5) false) ()) c ∧
    pool c !! 1%nat = Some (Running (Ret (Some ()))) ∧
    trace (now c) = before ++
      (0%nat, Asked (Entry (Cb_notifyPortStatusChange_1_2 1 ports st) true)) :: after ∧
    mCallback_1_0 (fields (now c)) = Some 2 ∧
    Entry UnlockCallback tt ∈ calls 1 before.
Proof.
  intros H.
  exists (finish (turns 0 4 ++ turns 1 6 ++ turns 0 10)
    (start [queryPortStatus ;; mret (Some ()); setCallback (Some 2) ;; mret (Some ())]
      (MkUsb (Some 1) false (Some 5) false) ())).
  do 2 eexists. exists [MkPortStatus "port0" 2 1 0 2 true false false 0 3 1 0 2 false false], SUCCESS.
  split; [apply reaches_finish; by vm_compute|]. split; [by vm_compute|].
  split; [symmetry; apply (take_drop_middle _ 15); by vm_compute|].
  split; [by vm_compute|]. apply (list_elem_of_lookup_2 _ 3). by vm_compute.
Qed.

(** * A mode switch and a worker, whose theorems apply *)
Definition pair_start : usb_config :=
  start [switchRole 2 "port0" demo_role; work 2] (MkUsb (Some 1) false (Some 1) false) ().

Lemma pair_threads t p :
  [switchRole 2 "port0" demo_role; work 2] !! t = Some p → usb_thread 7 t p.
Proof. destruct t as [|[|t]]; intros [= <-]; constructor. Qed.

(** The partner comes after the write. *)
Definition switched : list (nat * bool) :=
  turns 0 6 ++ turns 1 11 ++ [(0%nat, false)] ++ turns 0 6.


