(* ===== verification/UsbGadget.v ===== *)
(** The USB gadget HAL ([src/usb/UsbGadget.cpp], [src/usb/UsbGadget.h]): the
    functions of the gadget are links of a configfs directory; a monitor
    thread pulls the gadget up when the endpoints of its FunctionFS functions
    are there.

    The file system, the properties, the descriptors and the other thread are
    the environment.  Bits of the HIDL enumeration GadgetFunction are
    parameters ([GadgetConsts]); [gadget_1_0] has the documented ones. *)
From stdpp Require Import pretty.
From S2P Require Import Prelude Effects CppString.
From stdpp Require Import options.
#[local] Set Default Proof Using "Type*".

Class GadgetConsts := {
  NONE : Z; ADB : Z; ACCESSORY : Z; MTP : Z; MIDI : Z; PTP : Z; RNDIS : Z; AUDIO_SOURCE : Z;
}.

Definition gadget_1_0 : GadgetConsts := {|
  NONE := 0; ADB := 1; ACCESSORY := 2; MTP := 4; MIDI := 8; PTP := 16; RNDIS := 32;
  AUDIO_SOURCE := 64;
|}.

Inductive Status :=
  SUCCESS | ERROR | FUNCTIONS_APPLIED | FUNCTIONS_NOT_APPLIED | CONFIGURATION_NOT_SUPPORTED.
#[export] Instance Status_eq_dec : EqDecision Status.
Proof. solve_decision. Defined.

Inductive gadE : Type → Type :=
| GetProperty (key default : string) : gadE string
| SetProperty (key value : string) : gadE unit
| WriteStringToFile (content path : string) : gadE bool
(* [true]: access answers 0 *)
| AccessReadable (path : string) : gadE bool
| Usleep (us : Z) : gadE unit
(* steady_clock::now, in nanoseconds *)
| SteadyNow : gadE Z
(* the names readdir gives, when the directory can be opened *)
| OpenDir (path : string) : gadE (option (list string))
| CloseDir : gadE unit
| Remove (path : string) : gadE Z
| Mkdir (path : string) (mode : Z) : gadE Z
| Symlink (target link : string) : gadE Z
| InotifyInit : gadE Z
| InotifyAddWatch (fd : Z) (path : string) : gadE Z
| Eventfd : gadE Z
| EpollCreate : gadE Z
| EpollCtlAdd (epfd fd : Z) : gadE Z
(* the descriptors of the events, or an error *)
| EpollWait (epfd : Z) : gadE (option (list Z))
(* the [len] of each event in the buffer, or an error *)
| ReadInotify (fd size : Z) : gadE (option (list Z))
(* the 8 bytes of an eventfd; [None] when nothing is read *)
| ReadFlag (fd : Z) : gadE (option Z)
| WriteFlag (fd flag : Z) : gadE Z
| CloseFd (fd : Z) : gadE unit
| Lock : gadE unit
| Unlock : gadE unit
| LockSetCurrentFunction : gadE unit
| UnlockSetCurrentFunction : gadE unit
| NotifyAll : gadE unit
(* wait_for on [mCv]: whether the monitor has pulled the gadget up by its end *)
| WaitFor (ms : Z) : gadE bool
(* a new thread that runs [monitorFfs], and its identifier *)
| SpawnMonitor : gadE Z
(* join: whether the monitor has pulled the gadget up since it was last looked at *)
| JoinMonitor (t : Z) : gadE bool
| Cb_setCurrentUsbFunctions (cb functions : Z) (status : Status) : gadE bool
| Cb_getCurrentUsbFunctions (cb functions : Z) (status : Status) : gadE bool.

(** The fields, and the global [gadgetPullup].  [mCurrentUsbFunctions] is
    indeterminate until it is first set; [mMonitor] is a null pointer or a
    thread, that one if it is joinable; a closed [unique_fd] is -1. *)
Record UsbGadget := MkUsbGadget {
  mInotifyFd : Z;
  mEventFd : Z;
  mEpollFd : Z;
  mMonitor : option (option Z);
  mMonitorCreated : bool;
  mEndpointList : list string;
  mCurrentUsbFunctions : option Z;
  mCurrentUsbFunctionsApplied : bool;
  gadgetPullup : bool;
}.
Definition set_fds (inotify event epoll : Z) (s : UsbGadget) : UsbGadget :=
  MkUsbGadget inotify event epoll (mMonitor s) (mMonitorCreated s) (mEndpointList s)
    (mCurrentUsbFunctions s) (mCurrentUsbFunctionsApplied s) (gadgetPullup s).
Definition set_monitor (thread : option (option Z)) (running : bool) (s : UsbGadget) : UsbGadget :=
  MkUsbGadget (mInotifyFd s) (mEventFd s) (mEpollFd s) thread running (mEndpointList s)
    (mCurrentUsbFunctions s) (mCurrentUsbFunctionsApplied s) (gadgetPullup s).
Definition set_mEndpointList (v : list string) (s : UsbGadget) : UsbGadget :=
  MkUsbGadget (mInotifyFd s) (mEventFd s) (mEpollFd s) (mMonitor s) (mMonitorCreated s) v
    (mCurrentUsbFunctions s) (mCurrentUsbFunctionsApplied s) (gadgetPullup s).
Definition set_mCurrentUsbFunctions (v : option Z) (s : UsbGadget) : UsbGadget :=
  MkUsbGadget (mInotifyFd s) (mEventFd s) (mEpollFd s) (mMonitor s) (mMonitorCreated s)
    (mEndpointList s) v (mCurrentUsbFunctionsApplied s) (gadgetPullup s).
Definition set_mCurrentUsbFunctionsApplied (v : bool) (s : UsbGadget) : UsbGadget :=
  MkUsbGadget (mInotifyFd s) (mEventFd s) (mEpollFd s) (mMonitor s) (mMonitorCreated s)
    (mEndpointList s) (mCurrentUsbFunctions s) v (gadgetPullup s).
Definition set_gadgetPullup (v : bool) (s : UsbGadget) : UsbGadget :=
  MkUsbGadget (mInotifyFd s) (mEventFd s) (mEpollFd s) (mMonitor s) (mMonitorCreated s)
    (mEndpointList s) (mCurrentUsbFunctions s) (mCurrentUsbFunctionsApplied s) v.

(** * Paths *)
Definition BUFFER_SIZE : Z := 512.
Definition MAX_FILE_PATH_LENGTH : Z := 256.
Definition DISCONNECT_WAIT_US : Z := 100000.
Definition PULL_UP_DELAY : Z := 500000.

Definition GADGET_PATH : string := "/config/usb_gadget/g1/".
Definition PULLUP_PATH : string := GADGET_PATH +:+ "UDC".
Definition VENDOR_ID_PATH : string := GADGET_PATH +:+ "idVendor".
Definition PRODUCT_ID_PATH : string := GADGET_PATH +:+ "idProduct".
Definition DEVICE_CLASS_PATH : string := GADGET_PATH +:+ "bDeviceClass".
Definition DEVICE_SUB_CLASS_PATH : string := GADGET_PATH +:+ "bDeviceSubClass".
Definition DEVICE_PROTOCOL_PATH : string := GADGET_PATH +:+ "bDeviceProtocol".
Definition DESC_USE_PATH : string := GADGET_PATH +:+ "os_desc/use".
Definition CONFIG_PATH : string := GADGET_PATH +:+ "configs/b.1/".
Definition FUNCTIONS_PATH : string := GADGET_PATH +:+ "functions/".
Definition FUNCTION_NAME : string := "function".
Definition FUNCTION_PATH : string := CONFIG_PATH +:+ FUNCTION_NAME.

Section gadget.
Context {GC : GadgetConsts}.

#[local] Abbreviation io A := (prog gadE UsbGadget A).

(** [if (!p) return Status::ERROR;] *)
Definition require (p : io bool) (k : io Status) : io Status :=
  ok ← p; if ok : bool then k else mret ERROR.

(** The same in [setupFunctions], whose parts also answer whether the descriptor
    of the watches has been moved to the object. *)
Definition setup : Type := io (Status * bool).
Definition require_setup (p : io bool) (k : setup) : setup :=
  ok ← p; if ok : bool then k else mret (ERROR, false).

Definition write (content path : string) : io bool := call (WriteStringToFile content path).

(** The destructor of a [unique_fd], and [reset]. *)
Definition close_fd (fd : Z) : io unit :=
  if bool_decide (fd = -1) then mret () else call (CloseFd fd).

(** A local [unique_fd]: [body] says whether the descriptor has been moved away. *)
Definition scoped {A} (fd : Z) (body : io (A * bool)) : io A :=
  '(a, moved) ← body;
  (if moved : bool then mret () else close_fd fd) ;;
  mret a.

(** * Tearing down *)

(** The loop of [unlinkFunctions]; the path is written to a buffer of
    [MAX_FILE_PATH_LENGTH] bytes. *)
Fixpoint unlink_loop (path : string) (names : list string) (ret : Z) : io Z :=
  match names with
  | [] => mret ret
  | d_name :: names =>
      if bool_decide (find d_name FUNCTION_NAME = npos) then unlink_loop path names ret
      else
        let filepath := path +:+ "/" +:+ d_name in
        if bool_decide (MAX_FILE_PATH_LENGTH <= size filepath) then undef
        else
          ret ← call (Remove filepath);
          if bool_decide (ret ≠ 0) then mret ret else unlink_loop path names ret
  end.

Definition unlinkFunctions (path : string) : io Z :=
  config ← call (OpenDir path);
  match config with
  | None => mret (-1)
  | Some names =>
      ret ← unlink_loop path names 0;
      call CloseDir ;;
      mret ret
  end.

(** Stops the monitor.  The result of the write is unsigned, so the test for an
    error never succeeds; it is only logged. *)
Definition stop_monitor : io unit :=
  s ← get;
  if mMonitorCreated s then
    _ ← call (WriteFlag (mEventFd s) 100);
    match mMonitor s with
    | Some (Some t) =>
        pulled_up ← call (JoinMonitor t);
        (if pulled_up : bool then
           modify (set_mCurrentUsbFunctionsApplied true) ;; modify (set_gadgetPullup true)
         else mret ()) ;;
        modify (set_monitor (Some None) false)
    | _ => undef
    end
  else mret ().

Definition tearDownGadget : io Status :=
  _ ← write "none" PULLUP_PATH;
  require (write "0" DEVICE_CLASS_PATH) (
  require (write "0" DEVICE_SUB_CLASS_PATH) (
  require (write "0" DEVICE_PROTOCOL_PATH) (
  require (write "0" DESC_USE_PATH) (
  require (r ← unlinkFunctions CONFIG_PATH; mret (bool_decide (r = 0))) (
    stop_monitor ;;
    s ← get;
    close_fd (mInotifyFd s) ;;
    close_fd (mEventFd s) ;;
    close_fd (mEpollFd s) ;;
    modify (set_fds (-1) (-1) (-1)) ;;
    modify (set_mEndpointList []) ;;
    mret SUCCESS))))).

Definition reset : io Status :=
  require (write "none" PULLUP_PATH) (mret SUCCESS).

(** * Vendor and product *)

Definition setVidPid (vid pid : string) : io Status :=
  require (write vid VENDOR_ID_PATH) (require (write pid PRODUCT_ID_PATH) (mret SUCCESS)).

Definition getVendorFunctions : io string :=
  build ← call (GetProperty "ro.build.type" "");
  if bool_decide (build = "user") then mret "user"
  else
    bootMode ← call (GetProperty "ro.bootmode" "");
    persistVendorFunctions ← call (GetProperty "persist.vendor.usb.usbradio.config" "");
    vendorFunctions ← call (GetProperty "vendor.usb.config" "");
    if bool_decide (vendorFunctions ≠ "") then mret vendorFunctions
    else if bool_decide (bootMode = "usbradio") then
      let ret := if bool_decide (persistVendorFunctions ≠ "") then persistVendorFunctions
                 else "diag" in
      call (SetProperty "vendor.usb.config" ret) ;;
      mret ret
    else mret "".

(** The vendor functions of a product of their own, and the product without any. *)
Fixpoint vendor_cases (vendorFunctions : string) (cases : list (string * string))
    (pid : string) : io Status :=
  match cases with
  | [] =>
      if negb (bool_decide (vendorFunctions = "user") || bool_decide (vendorFunctions = ""))
      then mret CONFIGURATION_NOT_SUPPORTED
      else setVidPid "0x18d1" pid
  | (v, vendor_pid) :: cases =>
      if bool_decide (vendorFunctions = v) then setVidPid "0x05C6" vendor_pid
      else vendor_cases vendorFunctions cases pid
  end.

Definition validateAndSetVidPid (functions : Z) : io Status :=
  vendorFunctions ← getVendorFunctions;
  let fn m := bool_decide (functions = m) in
  let vendor cases pid := vendor_cases vendorFunctions cases pid in
  if fn MTP then vendor [("diag", "0x901B")] "0x4ee1"
  else if fn (Z.lor ADB MTP) then vendor [("diag", "0x903A")] "0x4ee2"
  else if fn RNDIS then
    vendor [("diag", "0x902C"); ("serial_cdev,diag", "0x90B5")] "0x4ee3"
  else if fn (Z.lor ADB RNDIS) then
    vendor [("diag", "0x902D"); ("serial_cdev,diag", "0x90B6")] "0x4ee4"
  else if fn PTP then vendor [] "0x4ee5"
  else if fn (Z.lor ADB PTP) then vendor [] "0x4ee6"
  else if fn ADB then
    vendor [("diag", "0x901D"); ("diag,serial_cdev,rmnet_gsi", "0x9091");
            ("diag,serial_cdev", "0x901F")] "0x4ee7"
  else if fn MIDI then vendor [] "0x4ee8"
  else if fn (Z.lor ADB MIDI) then vendor [] "0x4ee9"
  (* the message about the vendor functions is the only effect of their test *)
  else if fn ACCESSORY then setVidPid "0x18d1" "0x2d00"
  else if fn (Z.lor ADB ACCESSORY) then setVidPid "0x18d1" "0x2d01"
  else if fn AUDIO_SOURCE then setVidPid "0x18d1" "0x2d02"
  else if fn (Z.lor ADB AUDIO_SOURCE) then setVidPid "0x18d1" "0x2d03"
  else if fn (Z.lor ACCESSORY AUDIO_SOURCE) then setVidPid "0x18d1" "0x2d04"
  else if fn (Z.lor (Z.lor ADB ACCESSORY) AUDIO_SOURCE) then setVidPid "0x18d1" "0x2d05"
  else mret CONFIGURATION_NOT_SUPPORTED.

(** * Linking the functions *)

(** [false]: the link cannot be made. *)
Definition linkFunction (function : string) (index : Z) : io bool :=
  let functionPath := FUNCTIONS_PATH +:+ function in
  let link := FUNCTION_PATH +:+ pretty index in
  (if bool_decide (function = "rndis.gs4") then _ ← call (Mkdir functionPath 493); mret ()
   else mret ()) ;;
  r ← call (Symlink functionPath link);
  mret (bool_decide (r = 0)).

Definition push_endpoints (eps : list string) (s : UsbGadget) : UsbGadget :=
  set_mEndpointList (mEndpointList s ++ eps) s.

(** The parts of [setupFunctions] up to the pull-up; each has the next index of a
    link and what follows ([k]). *)
Definition ffs_part (inotifyFd : Z) (name : string) (eps : list string) (i : Z)
    (k : Z → setup) : setup :=
  require_setup (write "1" DESC_USE_PATH) (
  require_setup (r ← call (InotifyAddWatch inotifyFd ("/dev/usb-ffs/" +:+ name +:+ "/"));
           mret (bool_decide (r ≠ -1))) (
  require_setup (linkFunction ("ffs." +:+ name) i) (
    modify (push_endpoints eps) ;;
    k (i + 1)))).

Definition link_part (wanted : bool) (function : string) (i : Z) (k : Z → setup) : setup :=
  if wanted then require_setup (linkFunction function i) (k (i + 1)) else k i.

(** The tokens of the vendor functions. *)
Fixpoint vendor_part (tokens : list string) (i : Z) (k : Z → setup) : setup :=
  match tokens with
  | [] => k i
  | function :: tokens =>
      link_part (bool_decide (function = "diag")) "diag.diag" i (λ i,
      link_part (bool_decide (function = "serial_cdev")) "cser.dun.0" i (λ i,
      link_part (bool_decide (function = "rmnet_gsi")) "gsi.rmnet" i (λ i,
      vendor_part tokens i k)))
  end.

Definition has (functions bit : Z) : bool := bool_decide (Z.land functions bit ≠ 0).

Definition link_functions (inotifyFd functions : Z) (k : bool → setup) : setup :=
  let mtp_ptp (k : bool → Z → setup) :=
    if has functions MTP then
      ffs_part inotifyFd "mtp"
        ["/dev/usb-ffs/mtp/ep1"; "/dev/usb-ffs/mtp/ep2"; "/dev/usb-ffs/mtp/ep3"] 0 (k true)
    else if has functions PTP then
      ffs_part inotifyFd "ptp"
        ["/dev/usb-ffs/ptp/ep1"; "/dev/usb-ffs/ptp/ep2"; "/dev/usb-ffs/ptp/ep3"] 0 (k true)
    else k false 0 in
  mtp_ptp (λ ffsEnabled i,
  link_part (has functions MIDI) "midi.gs5" i (λ i,
  link_part (has functions ACCESSORY) "accessory.gs2" i (λ i,
  link_part (has functions AUDIO_SOURCE) "audio_source.gs3" i (λ i,
  link_part (has functions RNDIS) "rndis.gs4" i (λ i,
    vendorFunctions ← getVendorFunctions;
    vendor_part (strtok_all "," (c_str vendorFunctions)) i (λ i,
    if has functions ADB then
      ffs_part inotifyFd "adb" ["/dev/usb-ffs/adb/ep1"; "/dev/usb-ffs/adb/ep2"] i (λ _, k true)
    else k ffsEnabled)))))).

(** * Setting the functions *)

Definition pull_up : io bool :=
  GADGET_NAME ← call (GetProperty "sys.usb.controller" "");
  write GADGET_NAME PULLUP_PATH.

Definition notify_set (callback : option Z) (functions : Z) (status : Status) : io unit :=
  match callback with
  | Some cb => _ ← call (Cb_setCurrentUsbFunctions cb functions status); mret ()
  | None => mret ()
  end.

(** Without FunctionFS functions the gadget is pulled up right away. *)
Definition pull_up_now (functions : Z) (callback : option Z) : setup :=
  require_setup pull_up (
    modify (set_mCurrentUsbFunctionsApplied true) ;;
    notify_set callback functions SUCCESS ;;
    mret (SUCCESS, false)).

(** Assigning a [unique_ptr] destroys the thread object that it held, which ends
    the process when the thread is joinable. *)
Definition start_monitor : io unit :=
  t ← call SpawnMonitor;
  s ← get;
  match mMonitor s with
  | Some (Some _) => undef
  | _ => modify (set_monitor (Some (Some t)) true)
  end.

(** The descriptors are the object's, and the monitor runs. *)
Definition monitored (functions : Z) (callback : option Z) (timeout : Z) : io Status :=
  modify (set_gadgetPullup false) ;;
  start_monitor ;;
  match callback with
  | Some cb =>
      pulled_up ← call (WaitFor timeout);
      (if pulled_up : bool then
         modify (set_gadgetPullup true) ;; modify (set_mCurrentUsbFunctionsApplied true)
       else mret ()) ;;
      s ← get;
      _ ← call (Cb_setCurrentUsbFunctions cb functions (if gadgetPullup s then SUCCESS else ERROR));
      mret SUCCESS
  | None => mret SUCCESS
  end.

(** Moving the descriptors to the object closes those it had. *)
Definition move_fds (inotifyFd eventFd epollFd : Z) : io unit :=
  s ← get;
  close_fd (mEpollFd s) ;; close_fd (mInotifyFd s) ;; close_fd (mEventFd s) ;;
  modify (set_fds inotifyFd eventFd epollFd).

(** From the creation of [eventFd] on. *)
Definition setup_monitor (inotifyFd functions : Z) (callback : option Z) (timeout : Z)
    : setup :=
  eventFd ← call Eventfd;
  scoped eventFd (
    if bool_decide (eventFd = -1) then mret ((ERROR, false), false)
    else
      epollFd ← call EpollCreate;
      scoped epollFd (
        if bool_decide (epollFd = -1) then mret (((ERROR, false), false), false)
        else
          a ← call (EpollCtlAdd epollFd inotifyFd);
          if bool_decide (a = -1) then mret (((ERROR, false), false), false)
          else
            b ← call (EpollCtlAdd epollFd eventFd);
            if bool_decide (b = -1) then mret (((ERROR, false), false), false)
            else
              move_fds inotifyFd eventFd epollFd ;;
              status ← monitored functions callback timeout;
              mret (((status, true), true), true))).

Definition setupFunctions (functions : Z) (callback : option Z) (timeout : Z) : io Status :=
  call Lock ;;
  inotifyFd ← call InotifyInit;
  status ← scoped inotifyFd (
    if bool_decide (inotifyFd < 0) then mret (ERROR, false)
    else
      bootMode ← call (GetProperty "ro.bootmode" "");
      link_functions inotifyFd functions (λ ffsEnabled,
        if negb ffsEnabled then pull_up_now functions callback
        else setup_monitor inotifyFd functions callback timeout));
  call Unlock ;;
  mret status.

(** [if (status != SUCCESS) goto error;] *)
Definition or_error (callback : option Z) (functions : Z) (p : io Status) (k : io unit) : io unit :=
  status ← p;
  if bool_decide (status ≠ SUCCESS) then notify_set callback functions status else k.

Definition setCurrentUsbFunctions (functions : Z) (callback : option Z) (timeout : Z) : io unit :=
  call LockSetCurrentFunction ;;
  modify (set_mCurrentUsbFunctions (Some functions)) ;;
  modify (set_mCurrentUsbFunctionsApplied false) ;;
  or_error callback functions tearDownGadget (
    call (Usleep DISCONNECT_WAIT_US) ;;
    if bool_decide (functions = NONE) then notify_set callback functions SUCCESS
    else
      or_error callback functions (validateAndSetVidPid functions) (
      or_error callback functions (setupFunctions functions callback timeout) (mret ()))) ;;
  call UnlockSetCurrentFunction.

(** The functions are indeterminate before they are first set; a null callback is
    dereferenced. *)
Definition getCurrentUsbFunctions (callback : option Z) : io unit :=
  s ← get;
  match callback, mCurrentUsbFunctions s with
  | Some cb, Some functions =>
      _ ← call (Cb_getCurrentUsbFunctions cb functions
                  (if mCurrentUsbFunctionsApplied s then FUNCTIONS_APPLIED
                   else FUNCTIONS_NOT_APPLIED));
      mret ()
  | _, _ => undef
  end.
End gadget.

(** The constructor. *)
Definition UsbGadget_new : UsbGadget := MkUsbGadget (-1) (-1) (-1) None false [] None false false.
