(* ===== verification/UsbGadgetFacts.v ===== *)
(** Setting the functions of the USB gadget: the links that are made, the
    descriptors, the monitor's life and what is reported. *)
From stdpp Require Import pretty.
From S2P Require Import Prelude Effects CppString UsbGadget.
From stdpp Require Import options.
#[local] Set Default Proof Using "Type*".

Section facts.
Context {GC : GadgetConsts} {W : Type} {H : Handler gadE W}.
Implicit Types (s : UsbGadget) (w : W) (l : list (entry gadE)).

(** * What a log says *)

(** The links asked for, with "it was made". *)
Definition symlinks l : list (string * string * bool) :=
  omap (λ e, match e with
             | Entry c r =>
                 match c in gadE X return X → option (string * string * bool) with
                 | Symlink target link => λ r, Some (target, link, bool_decide (r = 0))
                 | _ => λ _, None
                 end r
             end) l.

(** The answers for a property. *)
Definition asked (key : string) l : list string :=
  omap (λ e, match e with
             | Entry c r =>
                 match c in gadE X return X → option string with
                 | GetProperty k _ => λ r, if bool_decide (k = key) then Some r else None
                 | _ => λ _, None
                 end r
             end) l.

(** What the framework is told. *)
Definition notes l : list (Z * Z * Status) :=
  omap (λ e, match entry_call e with
             | Cb_setCurrentUsbFunctions cb f st => Some (cb, f, st)
             | _ => None
             end) l.

Definition one (fd fd' : Z) : Z := if bool_decide (fd = fd') then 1 else 0.

(** Descriptors opened less descriptors closed. *)
Definition balance1 (fd : Z) (e : entry gadE) : Z :=
  match e with
  | Entry c r =>
      match c in gadE X return X → Z with
      | InotifyInit | Eventfd | EpollCreate => one fd
      | CloseFd fd' => λ _, - one fd fd'
      | _ => λ _, 0
      end r
  end.
Definition balance (fd : Z) l : Z := foldr (λ e n, balance1 fd e + n) 0 l.

Lemma symlinks_app l1 l2 : symlinks (l1 ++ l2) = symlinks l1 ++ symlinks l2.
Proof using Type. apply omap_app. Qed.
Lemma asked_app key l1 l2 : asked key (l1 ++ l2) = asked key l1 ++ asked key l2.
Proof using Type. apply omap_app. Qed.
Lemma notes_app l1 l2 : notes (l1 ++ l2) = notes l1 ++ notes l2.
Proof using Type. apply omap_app. Qed.
Lemma fd_balance_app fd l1 l2 : balance fd (l1 ++ l2) = balance fd l1 + balance fd l2.
Proof using Type.
  induction l1 as [|e l1 IH]; [done|]. unfold balance in *. cbn [app foldr]. rewrite IH. lia.
Qed.

(** The gadget has been pulled up: by the caller, or by the monitor. *)
Definition pulled l : Prop :=
  (∃ name, Entry (WriteStringToFile name PULLUP_PATH) true ∈ l ∧ name ∈ asked "sys.usb.controller" l) ∨
  (∃ ms, Entry (WaitFor ms) true ∈ l).
Definition pulled_late l : Prop := pulled l ∨ (∃ t, Entry (JoinMonitor t) true ∈ l).

Lemma pulled_app_l l1 l2 : pulled l1 → pulled (l1 ++ l2).
Proof using Type.
  unfold pulled. setoid_rewrite elem_of_app. rewrite asked_app. setoid_rewrite elem_of_app.
  intros [(name & ? & ?)|(ms & ?)]; [left; exists name|right; exists ms]; auto.
Qed.
Lemma pulled_app_r l1 l2 : pulled l2 → pulled (l1 ++ l2).
Proof using Type.
  unfold pulled. setoid_rewrite elem_of_app. rewrite asked_app. setoid_rewrite elem_of_app.
  intros [(name & ? & ?)|(ms & ?)]; [left; exists name|right; exists ms]; auto.
Qed.
Lemma pulled_late_app_l l1 l2 : pulled_late l1 → pulled_late (l1 ++ l2).
Proof using Type.
  unfold pulled_late. setoid_rewrite elem_of_app.
  intros [?|[t ?]]; [left; by apply pulled_app_l|right; exists t; auto].
Qed.
Lemma pulled_late_app_r l1 l2 : pulled_late l2 → pulled_late (l1 ++ l2).
Proof using Type.
  unfold pulled_late. setoid_rewrite elem_of_app.
  intros [?|[t ?]]; [left; by apply pulled_app_r|right; exists t; auto].
Qed.

(** * Frames *)

(** The object's descriptors. *)
Definition held (fd : Z) s : Z :=
  one fd (mInotifyFd s) + one fd (mEventFd s) + one fd (mEpollFd s).

Definition joinable s : bool := match mMonitor s with Some (Some _) => true | _ => false end.

(** The thread object is joinable exactly while the monitor counts as created. *)
Definition monitor_ok s : Prop := mMonitorCreated s = joinable s.

(** What every part keeps: with [local] the descriptors that are in neither the
    object before nor the object after. *)
Record frame (local : Z → Z) s s' l : Prop := {
  fr_functions : mCurrentUsbFunctions s' = mCurrentUsbFunctions s;
  fr_applied : mCurrentUsbFunctionsApplied s' = true →
    mCurrentUsbFunctionsApplied s = true ∨ pulled_late l;
  fr_balance fd : fd ≠ -1 → balance fd l = held fd s' - held fd s + local fd;
}.

Lemma frame_app local1 local2 s s1 s2 l1 l2 :
  frame local1 s s1 l1 → frame local2 s1 s2 l2 →
  frame (λ fd, local1 fd + local2 fd) s s2 (l1 ++ l2).
Proof using Type.
  intros [F1 A1 B1] [F2 A2 B2]. split; [congruence| |].
  - intros Ha. destruct (A2 Ha) as [Ha1|?]; [destruct (A1 Ha1) as [?|?]; [by left|]|];
      right; [by apply pulled_late_app_l|by apply pulled_late_app_r].
  - intros fd Hfd. rewrite fd_balance_app, B1, B2 by done. lia.
Qed.

Lemma frame_ext local local' s s' l :
  frame local s s' l → (∀ fd, fd ≠ -1 → local fd = local' fd) → frame local' s s' l.
Proof using Type.
  intros [F A B] Hl. split; [done..|]. intros fd Hfd. by rewrite B, Hl.
Qed.

(** Calls that concern neither descriptors, nor the framework, nor the monitor's
    pull-ups. *)
Definition quiet (e : entry gadE) : bool :=
  match entry_call e with
  | InotifyInit | Eventfd | EpollCreate | CloseFd _ | Cb_setCurrentUsbFunctions _ _ _
  | Symlink _ _ => false
  | _ => true
  end.

Lemma quiet_log l : forallb quiet l = true →
  notes l = [] ∧ symlinks l = [] ∧ ∀ fd, balance fd l = 0.
Proof using Type.
  intros Hl. induction l as [|[X c r] l IH]; [done|]. simpl in Hl.
  apply andb_true_iff in Hl as [Hc Hl]. destruct (IH Hl) as (N1 & S1 & B1).
  destruct c; try discriminate Hc; split_and!; try done; intros fd; simpl; by rewrite B1.
Qed.

Lemma quiet_frame s l : forallb quiet l = true → frame (λ _, 0) s s l.
Proof using Type.
  intros (_ & _ & B)%quiet_log. split; [done|by left|]. intros fd _. rewrite B. lia.
Qed.

(** * Parts that keep the fields and make quiet calls only *)
Definition still {A} (p : prog gadE UsbGadget A) : Prop :=
  ∀ s w, wp p s w (λ _ s' _ l, s' = s ∧ forallb quiet l = true).

Lemma still_ret {A} (a : A) : still (mret a).
Proof using Type. intros s w. by apply wp_ret. Qed.
Lemma still_call {X} (c : gadE X) : (∀ x, quiet (Entry c x) = true) → still (call c).
Proof using Type. intros Hc s w. apply wp_call. intros x w' _. simpl. by rewrite Hc. Qed.
Lemma still_bind {A B} (p : prog gadE UsbGadget A) (k : A → prog gadE UsbGadget B) :
  still p → (∀ a, still (k a)) → still (p ≫= k).
Proof using Type.
  intros Hp Hk s w. apply wp_bind. eapply wp_mono; [apply Hp|]. intros a s1 w1 l1 [-> L1].
  eapply wp_mono; [apply Hk|]. intros b s2 w2 l2 [-> L2]. split; [done|].
  by rewrite forallb_app, L1, L2.
Qed.
Lemma still_if {A} (b : bool) (p q : prog gadE UsbGadget A) :
  still p → still q → still (if b then p else q).
Proof using Type. by destruct b. Qed.

Ltac still_step :=
  match goal with
  | |- still (mret _) => apply still_ret
  | |- still (call _) => by apply still_call
  | |- still (mbind _ _) => apply still_bind; [|intros ?]
  | |- still (if _ then _ else _) => apply still_if
  end.

Lemma still_require p k : still p → still k → still (require p k).
Proof using Type. intros Hp Hk. unfold require. repeat still_step; done. Qed.
Lemma still_write content path : still (write content path).
Proof using Type. by apply still_call. Qed.

Lemma still_getVendorFunctions : still getVendorFunctions.
Proof using Type. unfold getVendorFunctions. repeat still_step. Qed.

Lemma still_setVidPid vid pid : still (setVidPid vid pid).
Proof using Type. repeat (apply still_require; [apply still_write|]). apply still_ret. Qed.

Lemma still_vendor_cases v cases pid : still (vendor_cases v cases pid).
Proof using Type.
  induction cases as [|[v' p'] cases IH]; simpl; repeat still_step; apply still_setVidPid || done.
Qed.

Lemma still_validate functions : still (validateAndSetVidPid functions).
Proof using Type.
  unfold validateAndSetVidPid. apply still_bind; [apply still_getVendorFunctions|]. intros v.
  cbv zeta. repeat apply still_if;
    apply still_vendor_cases || apply still_setVidPid || apply still_ret.
Qed.

(** * Tearing down *)

(** A name of a directory entry that fits the path buffer of [unlinkFunctions]. *)
Definition fits (path name : string) : Prop := size path + 1 + size name < MAX_FILE_PATH_LENGTH.

Section teardown.
(** The entries of the configuration have short names: every link the HAL makes
    has. *)
Context (short_names : ∀ w names w',
  handle (OpenDir CONFIG_PATH) w = (Some names, w') → Forall (fits CONFIG_PATH) names).

Lemma still_unlink_loop path names ret :
  Forall (fits path) names → still (unlink_loop path names ret).
Proof using Type.
  intros Hn. revert ret. induction Hn as [|name names Hf _ IH]; intros ret; cbn [unlink_loop];
    [apply still_ret|].
  apply still_if; [apply IH|].
  rewrite bool_decide_false by (unfold fits in Hf; rewrite !size_app; change (size "/") with 1; lia).
  repeat still_step; apply IH.
Qed.

Lemma still_unlink : still (unlinkFunctions CONFIG_PATH).
Proof.
  intros s w. apply wp_bind, wp_call. intros [names|] w1 Hw1; [|by apply wp_ret].
  apply short_names in Hw1. apply wp_bind. eapply wp_mono; [by apply still_unlink_loop|].
  intros r s2 w2 l2 [-> L2]. wp_run. split; [done|]. simpl. by rewrite forallb_app, L2.
Qed.

Lemma stop_monitor_spec s w : monitor_ok s →
  wp stop_monitor s w (λ _ s' _ l, frame (λ _, 0) s s' l ∧ notes l = [] ∧
    monitor_ok s' ∧ joinable s' = false).
Proof using Type.
  unfold monitor_ok, stop_monitor. intros Hm. apply wp_bind, wp_get. rewrite Hm.
  unfold joinable in *. destruct (mMonitor s) as [[t|]|] eqn:HM.
  2,3: by apply wp_ret; rewrite HM; split_and!; [apply (quiet_frame s [])|..].
  apply wp_bind, wp_call. intros r w1 _. apply wp_bind, wp_call. intros up w2 _.
  destruct up; wp_run; (split_and!; [|done..]).
  - split; [done| |].
    + intros _. right. right. exists t. apply list_elem_of_further, list_elem_of_here.
    + intros fd _. unfold held. simpl. lia.
  - split; [done|by left|]. intros fd _. unfold held. simpl. lia.
Qed.

Lemma close_fd_spec fd s w :
  wp (close_fd fd) s w (λ _ s' _ l, s' = s ∧ notes l = [] ∧
    (l = [] ∨ l = [Entry (CloseFd fd) tt]) ∧ frame (λ fd', - one fd' fd) s s l).
Proof using Type.
  unfold close_fd. case_bool_decide as Hfd; wp_run.
  - split_and!; [done..|by left|]. split; [done|by left|]. intros fd' Hne. unfold one.
    rewrite bool_decide_false by congruence. simpl. lia.
  - destruct x. split_and!; [done..|by right|]. split; [done|by left|]. intros fd' _. simpl. lia.
Qed.

(** What is known of a part that tells the framework nothing. *)
Definition silent s s' l : Prop := frame (λ _, 0) s s' l ∧ notes l = [] ∧ monitor_ok s'.

Lemma silent_trans s s1 s2 l1 l2 : silent s s1 l1 → silent s1 s2 l2 → silent s s2 (l1 ++ l2).
Proof using Type.
  intros (F1 & N1 & _) (F2 & N2 & M2). split_and!; [|by rewrite notes_app, N1, N2|done].
  exact (frame_app _ _ _ _ _ _ _ F1 F2).
Qed.
Lemma quiet_silent s l : monitor_ok s → forallb quiet l = true → silent s s l.
Proof using Type.
  intros Hm Hl. split_and!; [by apply quiet_frame| |done]. by destruct (quiet_log l Hl).
Qed.

(** A part that tells the framework nothing, and gives [P] when it succeeds. *)
Definition tells_nothing (P : UsbGadget → Prop) (p : prog gadE UsbGadget Status) : Prop :=
  ∀ s w, monitor_ok s → wp p s w (λ st s' _ l, silent s s' l ∧ (st = SUCCESS → P s')).

Lemma require_tells_nothing P p k :
  still p → tells_nothing P k → tells_nothing P (require p k).
Proof using Type.
  intros Hp Hk s w Hm. apply wp_bind. eapply wp_mono; [apply Hp|]. intros ok s1 w1 l1 [-> L1].
  apply (quiet_silent s) in L1; [|done]. destruct ok.
  - eapply wp_mono; [by apply Hk|]. intros st s2 w2 l2 [HS HP]. split; [|done].
    by apply (silent_trans s s).
  - apply wp_ret. by rewrite app_nil_r.
Qed.

Definition torn_down s : Prop :=
  joinable s = false ∧ mEndpointList s = [] ∧
  mInotifyFd s = -1 ∧ mEventFd s = -1 ∧ mEpollFd s = -1.

Lemma tearDown_spec : tells_nothing torn_down tearDownGadget.
Proof.
  intros s w Hm. apply wp_bind. eapply wp_mono; [apply still_write|].
  intros _ s1 w1 l1 [-> L1]. apply (quiet_silent s) in L1; [|done].
  match goal with |- wp ?k _ _ _ => enough (tells_nothing torn_down k) as Hk end.
  { eapply wp_mono; [by apply Hk|]. intros st s2 w2 l2 [HS HP]. split; [|done].
    by apply (silent_trans s s). }
  clear s w w1 l1 Hm L1.
  do 4 (apply require_tells_nothing; [apply still_write|]).
  apply require_tells_nothing.
  { apply still_bind; [apply still_unlink|]. intros r. apply still_ret. }
  intros s w Hm. apply wp_bind. eapply wp_mono; [by apply stop_monitor_spec|].
  intros [] s1 w1 l1 (F1 & N1 & M1 & J1). apply wp_bind, wp_get.
  apply wp_bind. eapply wp_mono; [apply close_fd_spec|]. intros [] s2 w2 l2 (-> & N2 & _ & F2).
  apply wp_bind. eapply wp_mono; [apply close_fd_spec|]. intros [] s3 w3 l3 (-> & N3 & _ & F3).
  apply wp_bind. eapply wp_mono; [apply close_fd_spec|]. intros [] s4 w4 l4 (-> & N4 & _ & F4).
  apply wp_bind, wp_modify, wp_bind, wp_modify, wp_ret. cbn [app]. rewrite !app_nil_r.
  split; [|done].
  pose proof (frame_app _ _ _ _ _ _ _ F1 (frame_app _ _ _ _ _ _ _ F2
    (frame_app _ _ _ _ _ _ _ F3 F4))) as [FF FA FB].
  split_and!; [|by rewrite !notes_app, N1, N2, N3, N4|done].
  split; [done|done|]. intros fd Hfd. rewrite FB by done. unfold held. simpl. unfold one.
  rewrite (bool_decide_false (fd = -1)) by done. lia.
Qed.
End teardown.
End facts.
