(* ===== verification/UsbGadgetLinks.v ===== *)
(** The links that [setupFunctions] of the USB gadget HAL makes. *)
From stdpp Require Import pretty.
From S2P Require Import Prelude Effects CppString UsbGadget UsbGadgetFacts.
From stdpp Require Import options.
#[local] Set Default Proof Using "Type*".

Section links.
Context {GC : GadgetConsts} {W : Type} {H : Handler gadE W}.
Implicit Types (s : UsbGadget) (w : W) (l : list (entry gadE)).
Implicit Types (fs : list string) (Q : Status * bool → UsbGadget → W → list (entry gadE) → Prop).

(** * What is to be linked *)

(** Functions linked with consecutive indices from 0. *)
Definition links fs : list (string * string) :=
  imap (λ i f, (FUNCTIONS_PATH +:+ f, FUNCTION_PATH +:+ pretty (Z.of_nat i))) fs.

Definition opt (wanted : bool) (f : string) : list string := if wanted then [f] else [].

Definition vendor_function (token : string) : list string :=
  opt (bool_decide (token = "diag")) "diag.diag" ++
  opt (bool_decide (token = "serial_cdev")) "cser.dun.0" ++
  opt (bool_decide (token = "rmnet_gsi")) "gsi.rmnet".

Definition vendor_functions (vendor : string) : list string :=
  strtok_all "," (c_str vendor) ≫= vendor_function.

(** PTP only without MTP. *)
Definition base_functions (functions : Z) : list string :=
  (if has functions MTP then ["ffs.mtp"] else opt (has functions PTP) "ffs.ptp") ++
  opt (has functions MIDI) "midi.gs5" ++ opt (has functions ACCESSORY) "accessory.gs2" ++
  opt (has functions AUDIO_SOURCE) "audio_source.gs3" ++ opt (has functions RNDIS) "rndis.gs4".

Definition selected (functions : Z) (vendor : string) : list string :=
  base_functions functions ++ vendor_functions vendor ++ opt (has functions ADB) "ffs.adb".

Definition endpoints (functions : Z) : list string :=
  (if has functions MTP then
     ["/dev/usb-ffs/mtp/ep1"; "/dev/usb-ffs/mtp/ep2"; "/dev/usb-ffs/mtp/ep3"]
   else if has functions PTP then
     ["/dev/usb-ffs/ptp/ep1"; "/dev/usb-ffs/ptp/ep2"; "/dev/usb-ffs/ptp/ep3"]
   else []) ++
  (if has functions ADB then ["/dev/usb-ffs/adb/ep1"; "/dev/usb-ffs/adb/ep2"] else []).

Definition has_ffs (functions : Z) : bool :=
  has functions MTP || has functions PTP || has functions ADB.

(** The vendor functions, from the last answers for the four properties. *)
Definition vendor_of l : string :=
  let p key := default "" (last (asked key l)) in
  if bool_decide (p "ro.build.type" = "user") then "user"
  else if bool_decide (p "vendor.usb.config" ≠ "") then p "vendor.usb.config"
  else if bool_decide (p "ro.bootmode" = "usbradio") then
    (if bool_decide (p "persist.vendor.usb.usbradio.config" ≠ "")
     then p "persist.vendor.usb.usbradio.config" else "diag")
  else "".

Lemma links_app fs1 fs2 : links fs1 `prefix_of` links (fs1 ++ fs2).
Proof using Type. unfold links. rewrite imap_app. by apply prefix_app_r. Qed.

Lemma links_snoc fs f :
  links (fs ++ [f]) = links fs ++ [(FUNCTIONS_PATH +:+ f, FUNCTION_PATH +:+ pretty (zlen fs))].
Proof using Type.
  unfold links. rewrite imap_app. simpl. unfold zlen. by rewrite Nat.add_0_r.
Qed.

(** * The parts *)

(** The calls of the parts. *)
Definition linking (e : entry gadE) : bool :=
  match entry_call e with
  | WriteStringToFile _ _ | InotifyAddWatch _ _ | Mkdir _ _ | Symlink _ _ => true
  | _ => false
  end.
Definition asking (e : entry gadE) : bool :=
  match entry_call e with GetProperty _ _ | SetProperty _ _ => true | _ => linking e end.

Definition made fs l : Prop := symlinks l = (λ x, (x, true)) <$> links fs.
Definition tried fs l : Prop := fst <$> symlinks l `prefix_of` links fs.

Lemma made_tried fs fs' l : made fs l → tried (fs ++ fs') l.
Proof using Type.
  unfold made, tried. intros ->. rewrite <- list_fmap_compose. unfold compose. simpl.
  rewrite list_fmap_id. apply links_app.
Qed.
Lemma tried_app fs fs' l : tried fs l → tried (fs ++ fs') l.
Proof using Type. unfold tried. intros Ht. etrans; [exact Ht|]. apply links_app. Qed.

Lemma linkFunction_spec f fs s w l0 : made fs l0 →
  wp (linkFunction f (zlen fs)) s w (λ ok s' _ l, s' = s ∧ forallb linking l = true ∧
    if ok then made (fs ++ [f]) (l0 ++ l) else tried (fs ++ [f]) (l0 ++ l)).
Proof using Type.
  intros Hm. unfold linkFunction. cbv zeta. apply wp_bind.
  apply (wp_mono _ _ _ (λ _ s' _ l, s' = s ∧ forallb linking l = true ∧ symlinks l = [])).
  { case_bool_decide; by wp_run. }
  intros [] s1 w1 l1 (-> & L1 & S1). apply wp_bind, wp_call. intros r w2 _. apply wp_ret.
  split; [done|]. split; [by rewrite !forallb_app, L1|].
  unfold made, tried in *. rewrite links_snoc.
  case_bool_decide as Hr; rewrite !symlinks_app, Hm, S1; cbn.
  - rewrite bool_decide_true by done. by rewrite fmap_app.
  - rewrite fmap_app, <- list_fmap_compose. unfold compose. simpl. by rewrite list_fmap_id.
Qed.

(** One step that must succeed. *)
Lemma require_setup_wp (P : bool → UsbGadget → list (entry gadE) → Prop) p k s w l0 Q :
  wp p s w (λ ok s' _ l, P ok s' l) →
  (∀ s' w' l, P true s' l → wp k s' w' (λ r s'' w'' l', Q r s'' w'' ((l0 ++ l) ++ l'))) →
  (∀ s' w' l, P false s' l → Q (ERROR, false) s' w' (l0 ++ l)) →
  wp (require_setup p k) s w (λ r s' w' l, Q r s' w' (l0 ++ l)).
Proof using Type.
  intros Hp Hk He. apply wp_bind. eapply wp_mono; [exact Hp|]. intros [] s1 w1 l1 HP.
  - eapply wp_mono; [by apply Hk|]. intros r s2 w2 l2. by rewrite app_assoc.
  - apply wp_ret. rewrite app_nil_r. by apply He.
Qed.

Lemma push_nil s : push_endpoints [] s = s.
Proof using Type. destruct s. unfold push_endpoints, set_mEndpointList. simpl. by rewrite app_nil_r. Qed.
Lemma push_push eps1 eps2 s :
  push_endpoints eps2 (push_endpoints eps1 s) = push_endpoints (eps1 ++ eps2) s.
Proof using Type. unfold push_endpoints, set_mEndpointList. simpl. by rewrite app_assoc. Qed.

(** A part that, run behind the functions [fs], links [gs] and adds the endpoints
    [eps], or answers an error with part of that done. *)
Definition runs (F : Z → (Z → prog gadE UsbGadget (Status * bool)) → prog gadE UsbGadget (Status * bool))
    (gs eps : list string) : Prop :=
  ∀ fs k s w l0 Q, made fs l0 →
    (∀ w' l, forallb linking l = true → made (fs ++ gs) (l0 ++ l) →
      wp (k (zlen (fs ++ gs))) (push_endpoints eps s) w'
        (λ r s' w'' l', Q r s' w'' ((l0 ++ l) ++ l'))) →
    (∀ eps' w' l, forallb linking l = true → tried (fs ++ gs) (l0 ++ l) →
      Q (ERROR, false) (push_endpoints eps' s) w' (l0 ++ l)) →
    wp (F (zlen fs) k) s w (λ r s' w' l, Q r s' w' (l0 ++ l)).

Lemma runs_nil : runs (λ i k, k i) [] [].
Proof using Type.
  intros fs k s w l0 Q Hm Hk _. specialize (Hk w [] eq_refl).
  rewrite !app_nil_r, push_nil in Hk. by apply Hk.
Qed.

Lemma runs_app F1 gs1 eps1 F2 gs2 eps2 :
  runs F1 gs1 eps1 → runs F2 gs2 eps2 →
  runs (λ i k, F1 i (λ i, F2 i k)) (gs1 ++ gs2) (eps1 ++ eps2).
Proof using Type.
  intros H1 H2 fs k s w l0 Q Hm Hk He. rewrite app_assoc in Hk, He. apply (H1 fs); [done|..].
  - intros w1 l1 L1 M1. apply (H2 (fs ++ gs1)); [done|..].
    + intros w2 l2 L2 M2. rewrite push_push. rewrite <- (app_assoc l0 l1 l2) in *.
      apply Hk; [by rewrite forallb_app, L1, L2|done].
    + intros eps' w2 l2 L2 T2. rewrite push_push. rewrite <- (app_assoc l0 l1 l2) in *.
      apply He; [by rewrite forallb_app, L1, L2|done].
  - intros eps' w1 l1 L1 T1. apply He; [done|]. by apply tried_app.
Qed.

Lemma link_part_runs wanted f : runs (link_part wanted f) (opt wanted f) [].
Proof using Type.
  intros fs k s w l0 Q Hm Hk He. unfold link_part. destruct wanted; simpl in *.
  2: { by apply runs_nil. }
  rewrite push_nil in Hk. eapply require_setup_wp with (l0 := l0) (Q := Q); [by apply linkFunction_spec|..].
  - intros s1 w1 l1 (-> & L1 & M1). pose proof (Hk w1 l1 L1 M1) as Hk1. by rewrite zlen_app in Hk1.
  - intros s1 w1 l1 (-> & L1 & M1). rewrite <- (push_nil s). by apply He.
Qed.

Lemma ffs_part_runs inotifyFd name eps : runs (ffs_part inotifyFd name eps) ["ffs." +:+ name] eps.
Proof using Type.
  intros fs k s w l0 Q Hm Hk He. unfold ffs_part. specialize (He []). rewrite push_nil in He.
  assert (∀ l, symlinks l = [] → made fs (l0 ++ l)) as Hm'.
  { intros l Hl. unfold made. by rewrite symlinks_app, Hl, app_nil_r. }
  eapply (require_setup_wp (λ _ s' l, s' = s ∧ forallb linking l = true ∧ symlinks l = []))
    with (l0 := l0) (Q := Q); [by apply wp_call|..].
  2: { intros s1 w1 l1 (-> & L1 & S1). apply He; [done|]. by apply made_tried, Hm'. }
  intros s1 w1 l1 (-> & L1 & S1).
  eapply (require_setup_wp (λ _ s' l, s' = s ∧ forallb linking l = true ∧ symlinks l = []))
    with (l0 := l0 ++ l1) (Q := Q); [by wp_run|..].
  2: { intros s2 w2 l2 (-> & L2 & S2). rewrite <- app_assoc. apply He.
       - by rewrite forallb_app, L1, L2.
       - apply made_tried, Hm'. by rewrite symlinks_app, S1, S2. }
  intros s2 w2 l2 (-> & L2 & S2).
  eapply require_setup_wp with (l0 := (l0 ++ l1) ++ l2) (Q := Q);
    [apply (linkFunction_spec _ _ _ _ ((l0 ++ l1) ++ l2))|..].
  { rewrite <- app_assoc. apply Hm'. by rewrite symlinks_app, S1, S2. }
  2: { intros s3 w3 l3 (-> & L3 & T3). rewrite <- !app_assoc in *. apply He; [|done].
       by rewrite !forallb_app, L1, L2, L3. }
  intros s3 w3 l3 (-> & L3 & M3). apply wp_bind, wp_modify. cbn [app].
  rewrite <- !app_assoc in M3. specialize (Hk w3 (l1 ++ l2 ++ l3)).
  rewrite zlen_app in Hk. eapply wp_mono; [apply Hk; [|done]|].
  - by rewrite !forallb_app, L1, L2, L3.
  - intros r s4 w4 l4. by rewrite <- !app_assoc.
Qed.

Lemma vendor_part_runs tokens : runs (vendor_part tokens) (tokens ≫= vendor_function) [].
Proof using Type.
  induction tokens as [|token tokens IH]; [apply runs_nil|].
  exact (runs_app _ _ [] _ _ [] (runs_app _ _ [] _ _ [] (link_part_runs _ _)
    (runs_app _ _ [] _ _ [] (link_part_runs _ _) (link_part_runs _ _))) IH).
Qed.

(** * The vendor functions *)

Lemma getVendorFunctions_spec l0 s w :
  wp getVendorFunctions s w (λ v s' _ l, s' = s ∧ forallb asking l = true ∧ symlinks l = [] ∧
    v = vendor_of (l0 ++ l)).
Proof using Type.
  unfold getVendorFunctions, vendor_of. cbv zeta. apply wp_bind, wp_call. intros build w1 _.
  case_bool_decide as Hb.
  { apply wp_ret. split_and!; [done..|]. rewrite !asked_app. simpl. rewrite last_snoc.
    simpl. by rewrite bool_decide_true. }
  apply wp_bind, wp_call. intros boot w2 _. apply wp_bind, wp_call. intros persist w3 _.
  apply wp_bind, wp_call. intros config w4 _.
  case_bool_decide as Hc; [|case_bool_decide as Hu]; wp_run; (split_and!; [done..|]);
    rewrite !asked_app; simpl; rewrite !last_snoc; simpl; repeat case_bool_decide; congruence.
Qed.

Lemma linking_asking l : forallb linking l = true → forallb asking l = true.
Proof using Type.
  intros Hl. induction l as [|e l IH]; [done|]. simpl in *. apply andb_true_iff in Hl as [He Hl].
  rewrite IH by done. unfold asking. rewrite He. by destruct (entry_call e).
Qed.

(** No call of the list asks for a property that [getVendorFunctions] uses. *)
Definition no_asking (e : entry gadE) : bool :=
  match entry_call e with
  | GetProperty key _ => bool_decide (key = "sys.usb.controller")
  | _ => true
  end.

Lemma no_asking_asked key l : forallb no_asking l = true → key ≠ "sys.usb.controller" →
  asked key l = [].
Proof using Type.
  intros Hl Hk. induction l as [|[X c r] l IH]; [done|]. simpl in Hl.
  apply andb_true_iff in Hl as [Hc Hl]. destruct c; try exact (IH Hl).
  simpl in Hc. apply bool_decide_eq_true in Hc. simpl.
  rewrite bool_decide_false by congruence. exact (IH Hl).
Qed.

Lemma vendor_of_app l l' : forallb no_asking l' = true → vendor_of (l ++ l') = vendor_of l.
Proof using Type.
  intros Hl. unfold vendor_of. cbv zeta. rewrite !asked_app.
  by rewrite !(no_asking_asked _ l'), !app_nil_r by done.
Qed.

Lemma linking_no_asking l : forallb linking l = true → forallb no_asking l = true.
Proof using Type.
  intros Hl. induction l as [|e l IH]; [done|]. simpl in *. apply andb_true_iff in Hl as [He Hl].
  rewrite IH by done. unfold linking, no_asking in *. by destruct (entry_call e).
Qed.

(** The functions behind the vendor's. *)
Definition adb_part (adb : bool) (inotifyFd i : Z)
    (k : Z → prog gadE UsbGadget (Status * bool)) : prog gadE UsbGadget (Status * bool) :=
  if adb then
    ffs_part inotifyFd "adb" ["/dev/usb-ffs/adb/ep1"; "/dev/usb-ffs/adb/ep2"] i k
  else k i.

Definition adb_endpoints (adb : bool) : list string :=
  if adb then ["/dev/usb-ffs/adb/ep1"; "/dev/usb-ffs/adb/ep2"] else [].

Lemma adb_part_runs adb inotifyFd :
  runs (adb_part adb inotifyFd) (opt adb "ffs.adb") (adb_endpoints adb).
Proof using Type.
  unfold adb_part. destruct adb; [exact (ffs_part_runs _ "adb" _)|apply runs_nil].
Qed.

Definition tail_part (adb : bool) (inotifyFd i : Z)
    (k : prog gadE UsbGadget (Status * bool)) : prog gadE UsbGadget (Status * bool) :=
  mbind (M := prog gadE UsbGadget) (λ vendorFunctions,
    vendor_part (strtok_all "," (c_str vendorFunctions)) i (λ i,
    adb_part adb inotifyFd i (λ _, k))) getVendorFunctions.

Lemma link_tail_wp F eps adb inotifyFd functions k s w l0 Q :
  has functions ADB = adb →
  symlinks l0 = [] →
  runs F (base_functions functions) eps →
  (∀ w' l, forallb asking l = true →
    made (selected functions (vendor_of (l0 ++ l))) (l0 ++ l) →
    wp k (push_endpoints (eps ++ adb_endpoints adb) s) w'
      (λ r s' w'' l', Q r s' w'' ((l0 ++ l) ++ l'))) →
  (∀ eps' w' l, forallb asking l = true →
    tried (selected functions (vendor_of (l0 ++ l))) (l0 ++ l) →
    Q (ERROR, false) (push_endpoints eps' s) w' (l0 ++ l)) →
  wp (F 0 (λ i, tail_part adb inotifyFd i k)) s w (λ r s' w' l, Q r s' w' (l0 ++ l)).
Proof using Type.
  intros Hadb Hl0 HF Hk He. unfold selected in *. rewrite Hadb in *. apply (HF []).
  { unfold made. by rewrite Hl0. }
  2: { intros eps' w1 l1 L1 T1. apply He; [by apply linking_asking|]. by apply tried_app. }
  intros w1 l1 L1 M1. cbn [app] in *. apply wp_bind.
  eapply wp_mono; [apply (getVendorFunctions_spec (l0 ++ l1))|].
  intros v s2 w2 l2 (-> & L2 & S2 & Hv).
  assert (made (base_functions functions) ((l0 ++ l1) ++ l2)) as M2.
  { unfold made. by rewrite symlinks_app, S2, app_nil_r. }
  pose proof (runs_app _ _ [] _ _ _ (vendor_part_runs (strtok_all "," (c_str v)))
    (adb_part_runs adb inotifyFd)) as HR. fold (vendor_functions v) in HR.
  eapply wp_mono; [apply (HR (base_functions functions) (λ _, k) (push_endpoints eps s) w2
    ((l0 ++ l1) ++ l2) Q M2)|].
  - intros w3 l3 L3 M3. rewrite push_push.
    eapply wp_mono; [apply (Hk w3 (l1 ++ l2 ++ l3))|intros r s4 w4 l4; by rewrite <- !app_assoc].
    + by rewrite !forallb_app, L2, (linking_asking l1), (linking_asking l3).
    + rewrite Hv, <- (vendor_of_app _ l3), <- !(app_assoc l0), <- !app_assoc in M3
        by by apply linking_no_asking.
      exact M3.
  - intros eps' w3 l3 L3 T3. rewrite push_push.
    rewrite <- !(app_assoc l0), <- !app_assoc. apply He.
    + by rewrite !forallb_app, L2, (linking_asking l1), (linking_asking l3).
    + rewrite Hv, <- (vendor_of_app _ l3), <- !(app_assoc l0), <- !app_assoc in T3
        by by apply linking_no_asking.
      exact T3.
  - intros r s4 w4 l4. by rewrite <- !app_assoc.
Qed.

(** MTP or PTP. *)
Definition head_part (mtp ptp : bool) (inotifyFd i : Z)
    (k : Z → prog gadE UsbGadget (Status * bool)) : prog gadE UsbGadget (Status * bool) :=
  if mtp then
    ffs_part inotifyFd "mtp"
      ["/dev/usb-ffs/mtp/ep1"; "/dev/usb-ffs/mtp/ep2"; "/dev/usb-ffs/mtp/ep3"] i k
  else if ptp then
    ffs_part inotifyFd "ptp"
      ["/dev/usb-ffs/ptp/ep1"; "/dev/usb-ffs/ptp/ep2"; "/dev/usb-ffs/ptp/ep3"] i k
  else k i.

Definition head_endpoints (mtp ptp : bool) : list string :=
  if mtp then ["/dev/usb-ffs/mtp/ep1"; "/dev/usb-ffs/mtp/ep2"; "/dev/usb-ffs/mtp/ep3"]
  else if ptp then ["/dev/usb-ffs/ptp/ep1"; "/dev/usb-ffs/ptp/ep2"; "/dev/usb-ffs/ptp/ep3"]
  else [].

Lemma head_part_runs mtp ptp inotifyFd :
  runs (head_part mtp ptp inotifyFd) (if mtp then ["ffs.mtp"] else opt ptp "ffs.ptp")
    (head_endpoints mtp ptp).
Proof using Type.
  unfold head_part. destruct mtp; [exact (ffs_part_runs _ "mtp" _)|].
  destruct ptp; [exact (ffs_part_runs _ "ptp" _)|apply runs_nil].
Qed.

Lemma link_functions_wp inotifyFd functions k s w l0 Q :
  symlinks l0 = [] →
  (∀ w' l, forallb asking l = true →
    made (selected functions (vendor_of (l0 ++ l))) (l0 ++ l) →
    wp (k (has_ffs functions)) (push_endpoints (endpoints functions) s) w'
      (λ r s' w'' l', Q r s' w'' ((l0 ++ l) ++ l'))) →
  (∀ eps w' l, forallb asking l = true →
    tried (selected functions (vendor_of (l0 ++ l))) (l0 ++ l) →
    Q (ERROR, false) (push_endpoints eps s) w' (l0 ++ l)) →
  wp (link_functions inotifyFd functions k) s w (λ r s' w' l, Q r s' w' (l0 ++ l)).
Proof using Type.
  intros Hl0 Hk He.
  pose proof (λ mtp ptp, runs_app _ _ _ _ _ [] (head_part_runs mtp ptp inotifyFd)
    (runs_app _ _ [] _ _ [] (link_part_runs (has functions MIDI) "midi.gs5")
    (runs_app _ _ [] _ _ [] (link_part_runs (has functions ACCESSORY) "accessory.gs2")
    (runs_app _ _ [] _ _ [] (link_part_runs (has functions AUDIO_SOURCE) "audio_source.gs3")
      (link_part_runs (has functions RNDIS) "rndis.gs4"))))) as HF.
  specialize (HF (has functions MTP) (has functions PTP)). fold (base_functions functions) in HF.
  pose proof (λ adb (Hadb : has functions ADB = adb), link_tail_wp _ _ adb inotifyFd functions
    (k (has_ffs functions)) s w l0 Q Hadb Hl0 HF) as Htail. clear HF.
  rewrite app_nil_r in Htail. unfold has_ffs, endpoints, link_functions in *.
  unfold head_part, tail_part, adb_part, head_endpoints, adb_endpoints in Htail.
  specialize (Htail _ eq_refl Hk He). clear Hk He. cbv zeta.
  destruct (has functions ADB), (has functions MTP), (has functions PTP); exact Htail.
Qed.
End links.
