(* ===== verification/UsbGadgetSetup.v ===== *)
(** [setupFunctions] and [setCurrentUsbFunctions] of the USB gadget HAL: what is
    linked, what is reported, and what becomes of the descriptors and of the
    monitor. *)
From stdpp Require Import pretty.
From S2P Require Import Prelude Effects CppString UsbGadget UsbGadgetFacts UsbGadgetLinks.
From stdpp Require Import options.
#[local] Set Default Proof Using "Type*".

Section setup.
Context {GC : GadgetConsts} {W : Type} {H : Handler gadE W}.
Implicit Types (s : UsbGadget) (w : W) (l : list (entry gadE)).

(** The framework is told once, if it asked to; of success only when the gadget
    has been pulled up. *)
Definition reported (callback : option Z) (functions : Z) l : Prop :=
  ∃ st, notes l = option_list ((λ cb, (cb, functions, st)) <$> callback) ∧
    (callback ≠ None → st = SUCCESS → pulled l).

Definition linkless l : Prop := symlinks l = [] ∧ forallb no_asking l = true.

Lemma linkless_app l1 l2 : linkless l1 → linkless l2 → linkless (l1 ++ l2).
Proof using Type.
  intros [S1 N1] [S2 N2]. split; [by rewrite symlinks_app, S1, S2|by rewrite forallb_app, N1, N2].
Qed.

(** The end of [setupFunctions]: [lent] is the descriptor that has been moved to
    the object. *)
Record finished (functions : Z) (callback : option Z) (lent : Z → Z) s st s' l : Prop := {
  fi_frame : frame (λ fd, - lent fd) s s' l;
  fi_links : linkless l;
  fi_error : st ≠ SUCCESS → st = ERROR ∧ notes l = [];
  fi_ok : st = SUCCESS → reported callback functions l;
  fi_monitor : monitor_ok s';
  fi_endpoints : mEndpointList s' = mEndpointList s;
}.

Definition nothing : Z → Z := λ _, 0.

Lemma reported_app_l callback functions l0 l :
  notes l0 = [] → reported callback functions l → reported callback functions (l0 ++ l).
Proof using Type.
  intros N0 (st & Hn & Hp). exists st. rewrite notes_app, N0. split; [done|].
  intros Hc Hs. by apply pulled_app_r, Hp.
Qed.
Lemma reported_app_r callback functions l l0 :
  notes l0 = [] → reported callback functions l → reported callback functions (l ++ l0).
Proof using Type.
  intros N0 (st & Hn & Hp). exists st. rewrite notes_app, N0, app_nil_r. split; [done|].
  intros Hc Hs. by apply pulled_app_l, Hp.
Qed.

(** Behind and before calls that concern nothing but descriptors. *)
Lemma finished_pre functions callback lent local s s1 st s' l0 l :
  frame local s s1 l0 → linkless l0 → notes l0 = [] → mEndpointList s1 = mEndpointList s →
  finished functions callback lent s1 st s' l →
  finished functions callback (λ fd, lent fd - local fd) s st s' (l0 ++ l).
Proof using Type.
  intros F0 L0 N0 E0 [F L E O M EP]. split.
  - eapply frame_ext; [exact (frame_app _ _ _ _ _ _ _ F0 F)|]. intros. simpl. lia.
  - by apply linkless_app.
  - intros Hs. destruct (E Hs) as [? N]. by rewrite notes_app, N0, N.
  - intros Hs. by apply reported_app_l, O.
  - done.
  - congruence.
Qed.

Lemma finished_post functions callback lent local s st s' l l0 :
  finished functions callback lent s st s' l →
  frame local s' s' l0 → linkless l0 → notes l0 = [] →
  finished functions callback (λ fd, lent fd - local fd) s st s' (l ++ l0).
Proof using Type.
  intros [F L E O M EP] F0 L0 N0. split; try done.
  - eapply frame_ext; [exact (frame_app _ _ _ _ _ _ _ F F0)|]. intros. simpl. lia.
  - by apply linkless_app.
  - intros Hs. destruct (E Hs) as [? N]. by rewrite notes_app, N0, N.
  - intros Hs. by apply reported_app_r, O.
Qed.

Lemma finished_ext functions callback lent lent' s st s' l :
  finished functions callback lent s st s' l → (∀ fd, fd ≠ -1 → lent fd = lent' fd) →
  finished functions callback lent' s st s' l.
Proof using Type.
  intros [F L E O M EP] Hl. split; try done. eapply frame_ext; [exact F|].
  intros fd Hfd. simpl. by rewrite Hl.
Qed.

Lemma finished_quiet functions callback lent s st s' l0 l :
  forallb quiet l0 = true → linkless l0 →
  finished functions callback lent s st s' l → finished functions callback lent s st s' (l0 ++ l).
Proof using Type.
  intros Hq Hl HF. eapply finished_ext.
  - eapply finished_pre; [by apply (quiet_frame s l0)|done| |done|exact HF].
    by destruct (quiet_log l0 Hq).
  - intros. simpl. lia.
Qed.

(** Behind the call that opened a descriptor. *)
Lemma finished_open functions callback lent fd s st s' e l :
  (∀ fd', balance1 fd' e = one fd' fd) → linkless [e] → notes [e] = [] →
  finished functions callback (λ fd', lent fd' + one fd' fd) s st s' l →
  finished functions callback lent s st s' (e :: l).
Proof using Type.
  intros He Hl Hn HF. eapply finished_ext.
  - apply (finished_pre functions callback (λ fd', lent fd' + one fd' fd) (λ fd', one fd' fd) s s st s' [e] l); [|done..|exact HF].
    split; [done|by left|]. intros fd' _. unfold balance. simpl. rewrite He. lia.
  - intros. simpl. lia.
Qed.

Lemma finished_error functions callback s l :
  monitor_ok s → frame (λ _, 0) s s l → linkless l → notes l = [] →
  finished functions callback nothing s ERROR s l.
Proof using Type. intros Hm F L N. by split. Qed.

Lemma pull_up_now_spec functions callback s w : monitor_ok s →
  wp (pull_up_now functions callback) s w (λ '(st, moved) s' _ l,
    moved = false ∧ finished functions callback nothing s st s' l).
Proof using Type.
  intros Hm. unfold pull_up_now, require_setup, pull_up, write.
  apply wp_bind, wp_bind, wp_call. intros name w1 _. apply wp_call. intros ok w2 _.
  set (l := [Entry (GetProperty "sys.usb.controller" "") name] ++ [_]).
  destruct ok.
  2: { apply wp_ret. split; [done|]. rewrite app_nil_r. by apply finished_error; [|apply quiet_frame|..]. }
  assert (pulled l) as Hp.
  { left. exists name. split; [apply list_elem_of_further, list_elem_of_here|].
    cbn. apply list_elem_of_here. }
  apply wp_bind, wp_modify, wp_bind. set (s1 := set_mCurrentUsbFunctionsApplied true s).
  apply (wp_mono _ _ _ (λ _ s' _ l', s' = s1 ∧ notes l' = option_list
    ((λ cb, (cb, functions, SUCCESS)) <$> callback) ∧ linkless l' ∧ ∀ fd, balance fd l' = 0)).
  { unfold notify_set. destruct callback as [cb|]; by wp_run. }
  intros [] s2 w3 l' (-> & N & L & B). apply wp_ret. rewrite app_nil_r. split; [done|]. split.
  - split; [done| |].
    + intros _. right. left. by apply pulled_app_l.
    + intros fd Hfd. cbn [app]. rewrite fd_balance_app, B. unfold held, nothing, l. simpl. lia.
  - by apply linkless_app.
  - done.
  - intros _. exists SUCCESS. cbn [app]. rewrite notes_app, N. split; [done|].
    intros _ _. by apply pulled_app_l.
  - done.
  - done.
Qed.

Lemma monitored_spec functions callback timeout s w : monitor_ok s → joinable s = false →
  wp (monitored functions callback timeout) s w (λ st s' _ l,
    finished functions callback nothing s st s' l).
Proof using Type.
  intros Hm Hj. unfold monitored, start_monitor. apply wp_bind, wp_modify, wp_bind, wp_bind, wp_call.
  intros t w1 _. apply wp_bind, wp_get. cbn [mMonitor set_gadgetPullup].
  assert (∀ p : prog gadE UsbGadget unit, match mMonitor s with Some (Some _) => undef | _ => p end = p)
    as ->.
  { intros p. unfold joinable in Hj. by destruct (mMonitor s) as [[]|]. }
  apply wp_modify. destruct callback as [cb|].
  2: { apply wp_ret. split; try done.
       - split; [done|by left|]. intros fd _. unfold held, nothing. simpl. lia.
       - intros _. by exists ERROR. }
  apply wp_bind, wp_call. intros up w2 _. destruct up; wp_run; (split; try done).
  1,3: split; [done| |intros fd _; unfold held, nothing; simpl; lia].
  - intros _. right. left. right. exists timeout. set_solver.
  - by left.
  - intros _. exists SUCCESS. split; [done|]. intros _ _. right. exists timeout. set_solver.
  - intros _. exists ERROR. done.
Qed.

(** A descriptor of the function's own is closed, unless the object got it. *)
Lemma scoped_finished {A} (st_of : A → Status) (lent : A → Z → Z) fd
    (body : prog gadE UsbGadget (A * bool)) functions callback s w :
  wp body s w (λ '(a, moved) s' _ l,
    finished functions callback (λ fd', lent a fd' + (if moved then one fd' fd else 0))
      s (st_of a) s' l) →
  wp (scoped fd body) s w (λ a s' _ l,
    finished functions callback (λ fd', lent a fd' + one fd' fd) s (st_of a) s' l).
Proof using Type.
  intros Hb. apply wp_bind. eapply wp_mono; [exact Hb|]. intros [a moved] s1 w1 l1 HF.
  destruct moved; apply wp_bind.
  - apply wp_ret, wp_ret. by rewrite app_nil_r.
  - eapply wp_mono; [apply close_fd_spec|]. intros [] s2 w2 l2 (-> & N2 & S2 & F2).
    apply wp_ret. rewrite app_nil_r. eapply finished_ext.
    + eapply finished_post; [exact HF|exact F2| |done].
      by destruct S2 as [->| ->].
    + intros fd' _. simpl. lia.
Qed.

Lemma move_fds_spec inotifyFd eventFd epollFd s w :
  wp (move_fds inotifyFd eventFd epollFd) s w (λ _ s' _ l,
    s' = set_fds inotifyFd eventFd epollFd s ∧ notes l = [] ∧ linkless l ∧
    frame (λ fd, - (one fd inotifyFd + one fd eventFd + one fd epollFd)) s s' l).
Proof using Type.
  apply wp_bind, wp_get.
  assert (∀ fd l, l = [] ∨ l = [Entry (CloseFd fd) tt] → linkless l) as Hl by by intros fd l [-> | ->].
  apply wp_bind. eapply wp_mono; [apply close_fd_spec|]. intros [] s1 w1 l1 (-> & N1 & L1%Hl & F1).
  apply wp_bind. eapply wp_mono; [apply close_fd_spec|]. intros [] s2 w2 l2 (-> & N2 & L2%Hl & F2).
  apply wp_bind. eapply wp_mono; [apply close_fd_spec|]. intros [] s3 w3 l3 (-> & N3 & L3%Hl & F3).
  apply wp_modify. cbn [app]. rewrite app_nil_r.
  split_and!; [done|by rewrite !notes_app, N1, N2, N3|by repeat apply linkless_app|].
  destruct (frame_app _ _ _ _ _ _ _ F1 (frame_app _ _ _ _ _ _ _ F2 F3)) as [FF FA FB].
  split; [done|done|]. intros fd Hfd. rewrite FB by done. unfold held. simpl. lia.
Qed.

Lemma setup_monitor_spec inotifyFd functions callback timeout s w :
  monitor_ok s → joinable s = false →
  wp (setup_monitor inotifyFd functions callback timeout) s w (λ '(st, moved) s' _ l,
    finished functions callback (λ fd, if moved then one fd inotifyFd else 0) s st s' l).
Proof using Type.
  intros Hm Hj. unfold setup_monitor.
  apply wp_bind, wp_call. intros eventFd w1 _.
  eapply wp_mono.
  { apply (scoped_finished fst (λ (a : Status * bool) fd, if a.2 then one fd inotifyFd else 0) _ _ functions callback).
    case_bool_decide as He.
    { apply wp_ret. apply (finished_ext _ _ nothing).
      - by apply finished_error; [|apply quiet_frame|..].
      - intros. unfold nothing. simpl. lia. }
    apply wp_bind, wp_call. intros epollFd w2 _. eapply wp_mono.
    { apply (scoped_finished (λ a : Status * bool * bool, a.1.1) (λ a fd, (if a.1.2 then one fd inotifyFd else 0) +
        (if a.2 then one fd eventFd else 0)) _ _ functions callback).
      assert (∀ l, forallb quiet l = true → linkless l → finished functions callback
        (λ fd, 0 + 0 + 0) s ERROR s l) as Herr.
      { intros l Hq Hl. apply (finished_ext _ _ nothing); [|done].
        apply finished_error; [done|by apply quiet_frame|done|by destruct (quiet_log l Hq)]. }
      case_bool_decide as Hp; [apply wp_ret; by apply Herr|].
      apply wp_bind, wp_call. intros a w3 _.
      case_bool_decide as Ha; [apply wp_ret; by apply Herr|].
      apply wp_bind, wp_call. intros b w4 _.
      case_bool_decide as Hb; [apply wp_ret; by apply Herr|].
      apply wp_bind. eapply wp_mono; [apply move_fds_spec|].
      intros [] s1 w5 l1 (-> & N1 & L1 & F1). apply wp_bind.
      eapply wp_mono; [by apply monitored_spec|]. intros st s2 w6 l2 HF.
      apply wp_ret. rewrite app_nil_r.
      pose proof (finished_pre _ _ _ _ _ _ _ _ _ _ F1 L1 N1 eq_refl HF) as HF1.
      eapply finished_ext.
      - apply (finished_quiet _ _ _ _ _ _ [_] _); [done..|].
        apply (finished_quiet _ _ _ _ _ _ [_] _); [done..|]. exact HF1.
      - intros fd _. unfold nothing. simpl. lia. }
    intros [[st moved1] moved2] s1 w3 l1 HF. simpl in *.
    by apply (finished_open _ _ _ epollFd). }
  intros [st moved] s1 w3 l1 HF. simpl in *. by apply (finished_open _ _ _ eventFd).
Qed.

(** * The whole of [setupFunctions] *)

Lemma scoped_wp {A} fd (body : prog gadE UsbGadget (A * bool)) s w
    (Q : A → UsbGadget → W → list (entry gadE) → Prop) :
  wp body s w (λ '(a, moved) s' w' l,
    if moved : bool then Q a s' w' l
    else ∀ w'' lc, notes lc = [] → linkless lc → frame (λ fd', - one fd' fd) s' s' lc →
      Q a s' w'' (l ++ lc)) →
  wp (scoped fd body) s w Q.
Proof using Type.
  intros Hb. apply wp_bind. eapply wp_mono; [exact Hb|]. intros [a moved] s1 w1 l1 HQ.
  destruct moved; apply wp_bind.
  - apply wp_ret, wp_ret. by rewrite app_nil_r.
  - eapply wp_mono; [apply close_fd_spec|]. intros [] s2 w2 l2 (-> & N2 & L2 & F2).
    apply wp_ret. rewrite app_nil_r. apply HQ; [done| |done]. by destruct L2 as [-> | ->].
Qed.

(** Two phases: the links, then the rest. *)
Definition two_phases (functions : Z) (callback : option Z) (lent : Z → Z) l0 s st s' l : Prop :=
  ∃ la lb eps, l = la ++ lb ∧ forallb asking la = true ∧
    finished functions callback lent (push_endpoints eps s) st s' lb ∧
    tried (selected functions (vendor_of (l0 ++ la))) (l0 ++ la) ∧
    (st = SUCCESS → made (selected functions (vendor_of (l0 ++ la))) (l0 ++ la) ∧
      eps = endpoints functions).

Lemma setup_body_spec inotifyFd functions callback timeout l0 s w :
  symlinks l0 = [] → monitor_ok s → joinable s = false →
  wp (link_functions inotifyFd functions (λ ffsEnabled,
        if negb ffsEnabled then pull_up_now functions callback
        else setup_monitor inotifyFd functions callback timeout)) s w (λ '(st, moved) s' _ l,
    two_phases functions callback (λ fd, if moved then one fd inotifyFd else 0) l0 s st s' l).
Proof using Type.
  intros Hl0 Hm Hj.
  set (Q := λ (r : Status * bool) (s' : UsbGadget) (_ : W) (lg : list (entry gadE)), ∃ l, lg = l0 ++ l ∧
    two_phases functions callback (λ fd, if r.2 then one fd inotifyFd else 0) l0 s r.1 s' l).
  eapply wp_mono; [apply (link_functions_wp _ _ _ _ _ l0 Q); [done|..]|].
  - intros w1 la La Ma. set (s1 := push_endpoints (endpoints functions) s).
    assert (wp (if negb (has_ffs functions) then pull_up_now functions callback
        else setup_monitor inotifyFd functions callback timeout) s1 w1
      (λ '(st, moved) s' _ l, finished functions callback
        (λ fd, if moved : bool then one fd inotifyFd else 0) s1 st s' l)) as Hrest.
    { destruct (has_ffs functions); cbn [negb]; [by apply setup_monitor_spec|].
      eapply wp_mono; [by apply pull_up_now_spec|]. by intros [st moved] s2 w2 l2 [-> HF]. }
    eapply wp_mono; [exact Hrest|]. intros [st moved] s2 w2 lb HF.
    exists (la ++ lb). rewrite app_assoc. split; [done|].
    exists la, lb, (endpoints functions). split_and!; [done..| |done].
    rewrite <- (app_nil_r (selected _ _)). by apply made_tried.
  - intros eps w1 la La Ta. exists la. split; [done|]. exists la, [], eps. rewrite app_nil_r.
    split_and!; [done..| |done|done]. apply (finished_ext _ _ nothing); [|done].
    by apply finished_error; [|apply quiet_frame|..].
  - intros [st moved] s1 w1 l (l' & Heq & Htp). by apply app_inv_head in Heq as <-.
Qed.

Lemma two_phases_post functions callback lent local l0 s st s' l lc :
  two_phases functions callback lent l0 s st s' l →
  frame local s' s' lc → linkless lc → notes lc = [] →
  two_phases functions callback (λ fd, lent fd - local fd) l0 s st s' (l ++ lc).
Proof using Type.
  intros (la & lb & eps & -> & La & HF & T & M) F L N. exists la, (lb ++ lc), eps.
  rewrite app_assoc. split_and!; [done..| |done|done]. by apply finished_post.
Qed.

Lemma two_phases_ext functions callback lent lent' l0 s st s' l :
  two_phases functions callback lent l0 s st s' l → (∀ fd, fd ≠ -1 → lent fd = lent' fd) →
  two_phases functions callback lent' l0 s st s' l.
Proof using Type.
  intros (la & lb & eps & -> & La & HF & T & M) He. exists la, lb, eps. split_and!; [done..| |done|done].
  by eapply finished_ext.
Qed.

Lemma asking_log l : forallb asking l = true → notes l = [] ∧ ∀ fd, balance fd l = 0.
Proof using Type.
  intros Hl. induction l as [|[X c r] l IH]; [done|]. simpl in Hl.
  apply andb_true_iff in Hl as [Hc Hl]. destruct (IH Hl) as (N1 & B1).
  destruct c; try discriminate Hc; (split; [done|]); intros fd0; simpl; by rewrite B1.
Qed.

(** What a call of [setupFunctions] comes to. *)
Record set_up (functions : Z) (callback : option Z) s st s' l : Prop := {
  su_frame : frame (λ _, 0) s s' l;
  su_error : st ≠ SUCCESS → st = ERROR ∧ notes l = [];
  su_ok : st = SUCCESS → reported callback functions l;
  su_monitor : monitor_ok s';
  su_tried : tried (selected functions (vendor_of l)) l;
  su_made : st = SUCCESS → made (selected functions (vendor_of l)) l ∧
    mEndpointList s' = mEndpointList s ++ endpoints functions;
}.

Lemma two_phases_set_up functions callback fd l0 s st s' l :
  symlinks l0 = [] → notes l0 = [] → frame (λ fd', one fd' fd) s s l0 →
  two_phases functions callback (λ fd', one fd' fd) l0 s st s' l →
  set_up functions callback s st s' (l0 ++ l).
Proof using Type.
  intros S0 N0 F0 (la & lb & eps & -> & La & [F [S N] E O M EP] & T & Md).
  destruct (asking_log la La) as [Na Ba].
  assert (vendor_of (l0 ++ la ++ lb) = vendor_of (l0 ++ la)) as Hv.
  { rewrite app_assoc. by apply vendor_of_app. }
  assert (symlinks (l0 ++ la ++ lb) = symlinks (l0 ++ la)) as Hs.
  { by rewrite app_assoc, symlinks_app, S, app_nil_r. }
  assert (frame (λ _, 0) s (push_endpoints eps s) la) as Fa.
  { split; [done|by left|]. intros fd' _. rewrite Ba. unfold held. simpl. lia. }
  split.
  - eapply frame_ext; [exact (frame_app _ _ _ _ _ _ _ F0 (frame_app _ _ _ _ _ _ _ Fa F))|].
    intros. simpl. lia.
  - intros Hst. destruct (E Hst) as [? Nb]. by rewrite !notes_app, N0, Na, Nb.
  - intros Hst. apply reported_app_l; [done|]. by apply reported_app_l, O.
  - done.
  - unfold tried in *. by rewrite Hv, Hs.
  - intros Hst. destruct (Md Hst) as [? ->]. unfold made in *. rewrite Hv, Hs. by rewrite EP.
Qed.

Lemma setupFunctions_spec functions callback timeout s w :
  monitor_ok s → joinable s = false →
  wp (setupFunctions functions callback timeout) s w (λ st s' _ l,
    set_up functions callback s st s' l).
Proof using Type.
  intros Hm Hj. apply wp_bind, wp_call. intros [] w1 _. apply wp_bind, wp_call.
  intros fd w2 _. apply wp_bind.
  set (l0 := [Entry Lock tt; Entry InotifyInit fd]).
  assert (∀ l, forallb quiet l = true → frame (λ fd', one fd' fd) s s (l0 ++ l)) as F0.
  { intros l Hl. destruct (quiet_log l Hl) as (_ & _ & B). split; [done|by left|].
    intros fd' _. rewrite fd_balance_app, B. simpl. lia. }
  assert (∀ st s' l pre, frame (λ fd', one fd' fd) s s pre → symlinks pre = [] → notes pre = [] →
    two_phases functions callback (λ fd', one fd' fd) pre s st s' l →
    set_up functions callback s st s' (pre ++ l ++ [Entry Unlock tt])) as Hend.
  { intros st s' l pre Fp Sp Np HT. apply (two_phases_set_up _ _ fd); [done..|].
    eapply two_phases_ext; [eapply two_phases_post; [exact HT|by apply quiet_frame|done..]|].
    intros. simpl. lia. }
  apply (wp_mono _ _ _ (λ st s' _ l, ∃ pre l', l = pre ++ l' ∧
    frame (λ fd', one fd' fd) s s (l0 ++ pre) ∧ symlinks (l0 ++ pre) = [] ∧ notes (l0 ++ pre) = [] ∧
    two_phases functions callback (λ fd', one fd' fd) (l0 ++ pre) s st s' l')).
  - apply scoped_wp. case_bool_decide as Hfd.
    + apply wp_ret. intros w3 lc Nc Lc Fc. exists [], lc. split_and!; [done|by apply F0|done..|].
      exists [], lc, []. split_and!; [done..| | |done].
      * rewrite push_nil. eapply finished_ext.
        -- eapply (finished_post _ _ _ _ _ _ _ []); [|exact Fc|done..].
           apply finished_error; [done|by apply quiet_frame|done..].
        -- intros. unfold nothing. simpl. lia.
      * apply prefix_nil.
    + apply wp_bind, wp_call. intros boot w3 _. set (pre := [Entry (GetProperty _ _) boot]).
      eapply wp_mono; [by apply (setup_body_spec fd _ _ _ (l0 ++ pre))|].
      intros [st moved] s4 w4 l4 HT. destruct moved.
      * exists pre, l4. split_and!; [done|by apply F0|done..].
      * intros w5 lc Nc Lc Fc. exists pre, (l4 ++ lc).
        split_and!; [by rewrite app_assoc|by apply F0|done..|].
        eapply two_phases_ext; [by eapply two_phases_post|]. intros. simpl. lia.
  - intros st s3 w3 l (pre & l' & -> & F & S & N & HT). wp_run.
    destruct x. pose proof (Hend st s3 l' _ F S N HT) as HE. rewrite <- app_assoc in HE.
    rewrite <- (app_assoc pre). exact HE.
Qed.

(** C32: [setupFunctions] links exactly what was asked for: the links it asks for
    are, in this order and with consecutive indices from 0, the function for
    MTP or else for PTP, MIDI, accessory, audio source, RNDIS, the vendor's
    functions and ADB, as the bits and the properties select them; when it
    succeeds, all of them have been made and the endpoints of the selected
    FunctionFS functions have been added to the list; when it fails, it has
    asked for a part of them from the beginning. *)
Theorem setupFunctions_links functions callback timeout s w :
  monitor_ok s → joinable s = false →
  wp (setupFunctions functions callback timeout) s w (λ st s' _ l,
    let wanted := links (selected functions (vendor_of l)) in
    fst <$> symlinks l `prefix_of` wanted ∧
    (st = SUCCESS → symlinks l = (λ x, (x, true)) <$> wanted ∧
      mEndpointList s' = mEndpointList s ++ endpoints functions)).
Proof using Type.
  intros Hm Hj. eapply wp_mono; [by apply setupFunctions_spec|].
  intros st s' w' l [_ _ _ _ HT HM]. by split.
Qed.

(** * Requests *)

(** What a request comes to, from the moment the fields are set. *)
Definition answered (callback : option Z) (functions : Z) s s' l : Prop :=
  monitor_ok s' ∧ frame (λ _, 0) s s' l ∧
  ∃ st, notes l = option_list ((λ cb, (cb, functions, st)) <$> callback) ∧
    (callback ≠ None → st = SUCCESS → functions = NONE ∨ pulled l).

Lemma notify_set_spec callback functions status s w :
  wp (notify_set callback functions status) s w (λ _ s' _ l,
    s' = s ∧ notes l = option_list ((λ cb, (cb, functions, status)) <$> callback) ∧
    frame (λ _, 0) s s l).
Proof using Type.
  unfold notify_set. destruct callback as [cb|]; [|by apply wp_ret; split_and!; [..|by apply quiet_frame]].
  wp_run. split_and!; [done..|]. split; [done|by left|]. intros fd _. simpl. lia.
Qed.

Lemma answered_pre callback functions s s1 s' l1 l :
  silent s s1 l1 → answered callback functions s1 s' l →
  answered callback functions s s' (l1 ++ l).
Proof using Type.
  intros (F1 & N1 & _) (M & F & st & N & P). split_and!; [done| |].
  - exact (frame_app _ _ _ _ _ _ _ F1 F).
  - exists st. rewrite notes_app, N1. split; [done|]. intros Hc Hs.
    destruct (P Hc Hs); [by left|right; by apply pulled_app_r].
Qed.

(** Told by the caller: of an error, or of what it knows to be true. *)
Lemma answered_notify callback functions status s s1 l1 w :
  silent s s1 l1 → (status = SUCCESS → functions = NONE) →
  wp (notify_set callback functions status) s1 w (λ _ s' _ l,
    answered callback functions s s' (l1 ++ l)).
Proof using Type.
  intros HS Hst. eapply wp_mono; [apply notify_set_spec|]. intros [] s2 w2 l2 (-> & N2 & F2).
  eapply answered_pre; [exact HS|]. split_and!; [by destruct HS as (_ & _ & ?)|done|].
  exists status. split; [done|]. intros _ ?. left. by apply Hst.
Qed.

Lemma or_error_silent (P0 P : UsbGadget → Prop) callback functions p k :
  (∀ s w, monitor_ok s → P0 s → wp p s w (λ st s' _ l, silent s s' l ∧ (st = SUCCESS → P s'))) →
  (∀ s w, monitor_ok s → P s → wp k s w (λ _ s' _ l, answered callback functions s s' l)) →
  ∀ s w, monitor_ok s → P0 s → wp (or_error callback functions p k) s w (λ _ s' _ l,
    answered callback functions s s' l).
Proof using Type.
  intros Hp Hk s w Hm H0. apply wp_bind. eapply wp_mono; [by apply Hp|].
  intros st s1 w1 l1 [HS HP]. case_bool_decide as Hst.
  - by apply answered_notify.
  - eapply wp_mono; [apply Hk|].
    + by destruct HS as (_ & _ & ?).
    + apply HP. by destruct (decide (st = SUCCESS)).
    + intros [] s2 w2 l2 HA. by eapply answered_pre.
Qed.

Section request.
Context (short_names : ∀ w names w',
  handle (OpenDir CONFIG_PATH) w = (Some names, w') → Forall (fits CONFIG_PATH) names).

Lemma request_body_spec functions callback timeout s w : monitor_ok s →
  wp (or_error callback functions tearDownGadget (
    call (Usleep DISCONNECT_WAIT_US) ;;
    if bool_decide (functions = NONE) then notify_set callback functions SUCCESS
    else
      or_error callback functions (validateAndSetVidPid functions) (
      or_error callback functions (setupFunctions functions callback timeout) (mret ()))))
    s w (λ _ s' _ l, answered callback functions s s' l).
Proof.
  intros Hm. generalize I. revert s w Hm. apply (or_error_silent (λ _, True) torn_down).
  { intros s w Hm _. by apply tearDown_spec. }
  intros s w Hm Htd. apply wp_bind, wp_call. intros [] w1 _.
  assert (silent s s [Entry (Usleep DISCONNECT_WAIT_US) tt]) as HS by by apply quiet_silent.
  case_bool_decide as Hf; [by apply answered_notify|].
  apply (wp_mono _ _ _ (λ _ s' _ l, answered callback functions s s' l)).
  2: { intros [] s2 w2 l2. by apply answered_pre. }
  clear HS. revert s w1 Hm Htd. clear w.
  apply (or_error_silent torn_down torn_down).
  { intros s w Hm Htd. eapply wp_mono; [apply still_validate|]. intros st s1 w1 l1 [-> L1].
    split; [by apply quiet_silent|done]. }
  intros s w Hm [Hj _]. apply wp_bind. eapply wp_mono; [by apply setupFunctions_spec|].
  intros st s1 w1 l1 [F E O M _ _]. case_bool_decide as Hst.
  - destruct (E Hst) as [-> N]. apply answered_notify; [|done]. by split_and!.
  - apply wp_ret. rewrite app_nil_r. split_and!; [done..|].
    destruct (O ltac:(by destruct (decide (st = SUCCESS)))) as (st' & N & P).
    exists st'. split; [done|]. intros Hc Hs. right. by apply P.
Qed.

End request.
End setup.

(** * A device *)

(** Everything works, and the monitor pulls the gadget up in time. *)
#[local] Instance working : Handler gadE unit := λ X c w,
  (match c in gadE X return X with
   | GetProperty key _ => if bool_decide (key = "ro.build.type") then "user" else "musb-hdrc"
   | WriteStringToFile _ _ => true
   | AccessReadable _ => true
   | SteadyNow => 0
   | OpenDir _ => Some ["function0"; "strings"]
   | Remove _ => 0
   | Mkdir _ _ => 0
   | Symlink _ _ => 0
   | InotifyInit => 5
   | InotifyAddWatch _ _ => 1
   | Eventfd => 6
   | EpollCreate => 7
   | EpollCtlAdd _ _ => 0
   | EpollWait _ => Some [6]
   | ReadInotify _ _ => None
   | ReadFlag _ => Some 100
   | WriteFlag _ _ => 8
   | WaitFor _ => true
   | SpawnMonitor => 9
   | JoinMonitor _ => false
   | Cb_setCurrentUsbFunctions _ _ _ => true
   | Cb_getCurrentUsbFunctions _ _ _ => true
   | SetProperty _ _ | Usleep _ | CloseDir | CloseFd _ | Lock | Unlock | LockSetCurrentFunction
   | UnlockSetCurrentFunction | NotifyAll => tt
   end, w).

#[local] Existing Instance gadget_1_0.

(** MTP and ADB on a user build: both are linked, and the call succeeds. *)
Example working_links :
  wp (setupFunctions 5 (Some 1) 1000) UsbGadget_new () (λ st s' _ l,
    st = SUCCESS ∧ notes l = [(1, 5, SUCCESS)] ∧ symlinks l =
      [("/config/usb_gadget/g1/functions/ffs.mtp",
        "/config/usb_gadget/g1/configs/b.1/function0", true);
       ("/config/usb_gadget/g1/functions/ffs.adb",
        "/config/usb_gadget/g1/configs/b.1/function1", true)]).
Proof. by vm_compute. Qed.

Lemma setupFunctions_links_witness :
  monitor_ok UsbGadget_new ∧ joinable UsbGadget_new = false ∧
  wp (setupFunctions 5 (Some 1) 1000) UsbGadget_new () (λ st s' _ l,
    let wanted := links (selected 5 (vendor_of l)) in
    fst <$> symlinks l `prefix_of` wanted ∧
    (st = SUCCESS → symlinks l = (λ x, (x, true)) <$> wanted ∧
      mEndpointList s' = mEndpointList UsbGadget_new ++ endpoints 5)).
Proof.
  split; [reflexivity|]. split; [reflexivity|]. by apply setupFunctions_links.
Defined.

Lemma working_short_names w names w' :
  handle (OpenDir CONFIG_PATH) w = (Some names, w') → Forall (fits CONFIG_PATH) names.
Proof. intros [= <- _]. repeat constructor. Qed.

