(* ===== verification/UsbMonitor.v ===== *)
(** The monitor thread of the USB gadget HAL ([monitorFfs] in
    [src/usb/UsbGadget.cpp]): it pulls the gadget up whenever the endpoints of
    the FunctionFS functions come to be readable.

    The thread runs until it is told to stop; the model counts its waits
    ([fuel]), and [None] means that it is still running. *)
From S2P Require Import Prelude Effects CppString UsbGadget.
From stdpp Require Import options.
#[local] Set Default Proof Using "Type*".

(** The locals that last: [disconnect] is a time in nanoseconds, 0 at first. *)
Record Monitor := MkMonitor { writeUdc : bool; stopMonitor : bool; disconnect : Z }.

Section monitor.
Context {W : Type} {H : Handler gadE W}.

#[local] Abbreviation io A := (prog gadE UsbGadget A).

(** Up to the first endpoint that cannot be read. *)
Fixpoint all_readable (eps : list string) : io bool :=
  match eps with
  | [] => mret true
  | ep :: eps =>
      ok ← call (AccessReadable (c_str ep));
      if ok : bool then all_readable eps else mret false
  end.

Definition descriptor_present : io bool := s ← get; all_readable (mEndpointList s).

(** The attempt to pull the gadget up; the result is the new [writeUdc]. *)
Definition monitor_pull_up : io bool :=
  ok ← pull_up;
  if ok : bool then
    call Lock ;;
    modify (set_mCurrentUsbFunctionsApplied true) ;;
    modify (set_gadgetPullup true) ;;
    call NotifyAll ;;
    call Unlock ;;
    mret false
  else mret true.

(** One event of the buffer. *)
Definition inotify_event (m : Monitor) : io Monitor :=
  descriptorPresent ← descriptor_present;
  if negb descriptorPresent && negb (writeUdc m) then
    now ← call SteadyNow;
    mret (MkMonitor true (stopMonitor m) now)
  else if descriptorPresent && writeUdc m then
    temp ← call SteadyNow;
    (if bool_decide (Z.quot (temp - disconnect m) 1000 < PULL_UP_DELAY)
     then call (Usleep PULL_UP_DELAY) else mret ()) ;;
    w ← monitor_pull_up;
    mret (MkMonitor w (stopMonitor m) (disconnect m))
  else mret m.

Fixpoint inotify_events (lens : list Z) (m : Monitor) : io Monitor :=
  match lens with
  | [] => mret m
  | _ :: lens => m ← inotify_event m; inotify_events lens m
  end.

(** An event of the wait; the flag is indeterminate when nothing is read. *)
Definition monitor_event (fd : Z) (m : Monitor) : io Monitor :=
  s ← get;
  if bool_decide (fd = mInotifyFd s) then
    lens ← call (ReadInotify (mInotifyFd s) BUFFER_SIZE);
    inotify_events (default [] lens) m
  else
    flag ← call (ReadFlag (mEventFd s));
    match flag with
    | None => undef
    | Some flag =>
        mret (if bool_decide (flag = 100) then MkMonitor (writeUdc m) true (disconnect m) else m)
    end.

Fixpoint monitor_events (fds : list Z) (m : Monitor) : io Monitor :=
  match fds with
  | [] => mret m
  | fd :: fds =>
      m ← monitor_event fd m;
      if stopMonitor m then mret m else monitor_events fds m
  end.

Fixpoint monitor_loop (fuel : nat) (m : Monitor) : io (option Monitor) :=
  if stopMonitor m then mret (Some m)
  else
    match fuel with
    | O => mret None
    | S fuel =>
        s ← get;
        events ← call (EpollWait (mEpollFd s));
        m ← monitor_events (default [] events) m;
        monitor_loop fuel m
    end.

Definition monitorFfs (fuel : nat) : io (option Monitor) :=
  descriptorWritten ← descriptor_present;
  writeUdc ←
    (if descriptorWritten : bool then
       call (Usleep PULL_UP_DELAY) ;;
       monitor_pull_up
     else mret true);
  monitor_loop fuel (MkMonitor writeUdc false 0).

(** * What the monitor is to do *)

(** A look at all the endpoints, with "all are readable", and an attempt to pull
    the gadget up, with "the write succeeded". *)
Inductive obs := Look (present : bool) | Pull (ok : bool).

(** The log of a look: up to the first endpoint that is not readable. *)
Definition look_log (eps : list string) (present : bool) (l : list (entry gadE)) : Prop :=
  if present then l = (λ ep, Entry (AccessReadable (c_str ep)) true) <$> eps
  else ∃ eps1 ep eps2, eps = eps1 ++ ep :: eps2 ∧
    l = ((λ ep, Entry (AccessReadable (c_str ep)) true) <$> eps1) ++
        [Entry (AccessReadable (c_str ep)) false].

(** Looks and attempts are all that the calls of these kinds in a log are. *)
Inductive observed (eps : list string) : list obs → list (entry gadE) → Prop :=
| observed_nil : observed eps [] []
| observed_look b l t l' :
    look_log eps b l → observed eps t l' → observed eps (Look b :: t) (l ++ l')
| observed_pull name ok t l :
    observed eps t l →
    observed eps (Pull ok :: t)
      (Entry (GetProperty "sys.usb.controller" "") name ::
       Entry (WriteStringToFile name PULLUP_PATH) ok :: l)
| observed_other e t l :
    match entry_call e with
    | AccessReadable _ | GetProperty _ _ | WriteStringToFile _ _ => False
    | _ => True
    end → observed eps t l → observed eps t (e :: l).

(** The specification: an attempt follows a look exactly when that look found all
    endpoints and since the last look that did not the gadget has not been
    pulled up.  [down]: the gadget is to be pulled up at the next chance. *)
Fixpoint follows (down : bool) (t : list obs) : option bool :=
  match t with
  | [] => Some down
  | Look false :: t => follows true t
  | Look true :: t =>
      if down then
        match t with Pull ok :: t => follows (negb ok) t | _ => None end
      else follows false t
  | Pull _ :: _ => None
  end.

Lemma follows_app d t1 d1 t2 : follows d t1 = Some d1 → follows d (t1 ++ t2) = follows d1 t2.
Proof using Type.
  revert d. induction t1 as [t1 IH] using (well_founded_induction (well_founded_ltof _ (@length obs))).
  intros d. destruct t1 as [|[[]|] t1]; simpl.
  - by intros [= ->].
  - destruct d; [|apply IH; unfold ltof; simpl; lia].
    destruct t1 as [|[|ok] t1]; try done. simpl. apply IH. unfold ltof. simpl. lia.
  - apply IH. unfold ltof. simpl. lia.
  - done.
Qed.

Lemma observed_app eps t1 t2 l1 l2 :
  observed eps t1 l1 → observed eps t2 l2 → observed eps (t1 ++ t2) (l1 ++ l2).
Proof using Type.
  intros O1 O2. induction O1 as [|b l t l' Hl _ IH|name ok t l _ IH|e t l He _ IH]; simpl.
  - done.
  - rewrite <- app_assoc. by constructor.
  - by constructor.
  - by constructor.
Qed.

(** The fields after some attempts. *)
Definition after (t : list obs) (s : UsbGadget) : UsbGadget :=
  if existsb (λ o, match o with Pull true => true | _ => false end) t
  then set_gadgetPullup true (set_mCurrentUsbFunctionsApplied true s) else s.

Lemma after_app t1 t2 s : after t2 (after t1 s) = after (t1 ++ t2) s.
Proof using Type. unfold after. rewrite existsb_app. by destruct (existsb _ t1), (existsb _ t2). Qed.

Lemma after_fields t s :
  mEndpointList (after t s) = mEndpointList s ∧ mInotifyFd (after t s) = mInotifyFd s.
Proof using Type. unfold after. by destruct (existsb _ t). Qed.

(** The flags read. *)
Definition flags (l : list (entry gadE)) : list (option Z) :=
  omap (λ e, match e with
             | Entry c r =>
                 match c in gadE X return X → option (option Z) with
                 | ReadFlag _ => Some
                 | _ => λ _, None
                 end r
             end) l.

Lemma flags_app l1 l2 : flags (l1 ++ l2) = flags l1 ++ flags l2.
Proof using Type. apply omap_app. Qed.

(** The end of the thread is the first flag 100, and nothing else. *)
Definition flagged (stopped : bool) (l : list (entry gadE)) : Prop :=
  if stopped then ∃ fl, flags l = fl ++ [Some 100] ∧ Some 100 ∉ fl else Some 100 ∉ flags l.

Lemma flagged_app stopped l1 l2 : flagged false l1 → flagged stopped l2 → flagged stopped (l1 ++ l2).
Proof using Type.
  unfold flagged. rewrite flags_app. intros H1. destruct stopped.
  - intros (fl & -> & Hfl). exists (flags l1 ++ fl). rewrite app_assoc. split; [done|set_solver].
  - set_solver.
Qed.

(** What a part of the thread that starts with [down] does. *)
Definition went (down down' stopped : bool) (s s' : UsbGadget) (l : list (entry gadE)) : Prop :=
  ∃ t, observed (mEndpointList s) t l ∧ follows down t = Some down' ∧ s' = after t s ∧
    flagged stopped l.

Lemma went_app d d1 d2 stopped s s1 s2 l1 l2 :
  went d d1 false s s1 l1 → went d1 d2 stopped s1 s2 l2 → went d d2 stopped s s2 (l1 ++ l2).
Proof using Type.
  intros (t1 & O1 & F1 & -> & G1) (t2 & O2 & F2 & -> & G2). destruct (after_fields t1 s) as [E _].
  rewrite E in O2. exists (t1 ++ t2). split_and!.
  - by apply observed_app.
  - by rewrite (follows_app d t1 d1).
  - by rewrite after_app.
  - by apply flagged_app.
Qed.

Lemma went_other d s e :
  match entry_call e with
  | AccessReadable _ | GetProperty _ _ | WriteStringToFile _ _ | ReadFlag _ => False
  | _ => True
  end → went d d false s s [e].
Proof using Type.
  intros He. exists []. split_and!; [|done|done|].
  - apply observed_other; [by destruct (entry_call e)|constructor].
  - unfold flagged. destruct e as [X c r]. destruct c; done || by apply not_elem_of_nil.
Qed.

Lemma all_readable_spec eps s w :
  wp (all_readable eps) s w (λ b s' _ l, s' = s ∧ look_log eps b l).
Proof using Type.
  revert w. induction eps as [|ep eps IH]; intros w; cbn [all_readable]; [by apply wp_ret|].
  apply wp_bind, wp_call. intros [] w1 _.
  - eapply wp_mono; [apply IH|]. intros b s2 w2 l2 [-> Hl]. split; [done|].
    destruct b; simpl in *; [by rewrite Hl|].
    destruct Hl as (eps1 & ep' & eps2 & -> & ->). by exists (ep :: eps1), ep', eps2.
  - apply wp_ret. split; [done|]. by exists [], ep, eps.
Qed.

Lemma look_pull_spec s w :
  wp monitor_pull_up s w (λ d s' _ l, ∃ ok, d = negb ok ∧ s' = after [Pull ok] s ∧
    observed (mEndpointList s) [Pull ok] l ∧ flags l = []).
Proof using Type.
  unfold monitor_pull_up, pull_up, write. apply wp_bind, wp_bind, wp_call. intros name w1 _.
  apply wp_call. intros ok w2 _. destruct ok; wp_run.
  - exists true. split_and!; [done..| |done]. simpl. apply observed_pull.
    repeat (apply observed_other; [done|]). constructor.
  - exists false. split_and!; [done..| |done]. simpl. apply observed_pull. constructor.
Qed.

Lemma look_flags eps b l : look_log eps b l → flags l = [].
Proof using Type.
  assert (∀ eps, flags ((λ ep, Entry (AccessReadable (c_str ep)) true) <$> eps) = []) as Hall.
  { intros eps'. induction eps' as [|ep eps' IH]; [done|]. exact IH. }
  destruct b; simpl; [by intros ->|]. intros (eps1 & ep & eps2 & _ & ->).
  by rewrite flags_app, Hall.
Qed.

Lemma descriptor_present_spec s w :
  wp descriptor_present s w (λ b s' _ l, s' = s ∧ observed (mEndpointList s) [Look b] l ∧
    flags l = []).
Proof using Type.
  apply wp_bind, wp_get. eapply wp_mono; [apply all_readable_spec|]. intros b s1 w1 l1 [-> Hl].
  split; [done|]. split; [|by eapply look_flags]. cbn [app].
  rewrite <- (app_nil_r l1). by constructor; [|constructor].
Qed.

(** A chance to pull the gadget up: a look, and an attempt when it is down; in
    between calls of other kinds. *)
Lemma went_look b d s l : (b = true → d = false) →
  observed (mEndpointList s) [Look b] l → flags l = [] → went d (negb b) false s s l.
Proof using Type.
  intros Hb O F. exists [Look b]. split_and!; [done| |done|].
  - destruct b; simpl; [by rewrite Hb|done].
  - unfold flagged. rewrite F. by apply not_elem_of_nil.
Qed.

Lemma went_pull s l0 l1 l2 ok :
  observed (mEndpointList s) [Look true] l0 → flags l0 = [] →
  observed (mEndpointList s) [] l1 → flags l1 = [] →
  observed (mEndpointList s) [Pull ok] l2 → flags l2 = [] →
  went true (negb ok) false s (after [Pull ok] s) (l0 ++ l1 ++ l2).
Proof using Type.
  intros O0 F0 O1 F1 O2 F2. exists [Look true; Pull ok]. split_and!; [|done..|].
  - by apply (observed_app _ [_]), (observed_app _ []).
  - unfold flagged. rewrite !flags_app, F0, F1, F2. by apply not_elem_of_nil.
Qed.

Lemma inotify_event_spec m s w : stopMonitor m = false →
  wp (inotify_event m) s w (λ m' s' _ l,
    stopMonitor m' = false ∧ went (writeUdc m) (writeUdc m') false s s' l).
Proof using Type.
  intros Hm. apply wp_bind. eapply wp_mono; [apply descriptor_present_spec|].
  intros b s1 w1 l1 (-> & O1 & F1). destruct m as [d stop disc]. simpl in *. subst stop.
  destruct b, d; cbn [negb andb].
  - apply wp_bind, wp_call. intros temp w2 _. set (e := Entry SteadyNow temp). apply wp_bind.
    apply (wp_mono _ _ _ (λ _ s' _ l, s' = s ∧ observed (mEndpointList s) [] (e :: l) ∧
      flags (e :: l) = [])).
    { case_bool_decide; wp_run; (split_and!; [done| |done]);
        repeat (apply observed_other; [done|]); constructor. }
    intros [] s2 w3 l2 (-> & O2 & F2). apply wp_bind. eapply wp_mono; [apply look_pull_spec|].
    intros d s3 w4 l3 (ok & -> & -> & O3 & F3). apply wp_ret. split; [done|].
    rewrite app_nil_r. exact (went_pull s l1 (e :: l2) l3 ok O1 F1 O2 F2 O3 F3).
  - apply wp_ret. rewrite app_nil_r. split; [done|]. by apply (went_look true).
  - apply wp_ret. rewrite app_nil_r. split; [done|]. by apply (went_look false).
  - apply wp_bind, wp_call. intros now w2 _. apply wp_ret. split; [done|]. rewrite app_nil_r.
    eapply went_app; [by apply (went_look false)|]. by apply (went_other _ _ (Entry SteadyNow now)).
Qed.

Lemma inotify_events_spec lens m s w : stopMonitor m = false →
  wp (inotify_events lens m) s w (λ m' s' _ l,
    stopMonitor m' = false ∧ went (writeUdc m) (writeUdc m') false s s' l).
Proof using Type.
  revert m s w. induction lens as [|len lens IH]; intros m s w Hm; cbn [inotify_events].
  - apply wp_ret. split; [done|]. exists []. split_and!; [constructor|done..|by apply not_elem_of_nil].
  - apply wp_bind. eapply wp_mono; [by apply inotify_event_spec|]. intros m1 s1 w1 l1 [Hm1 W1].
    eapply wp_mono; [by apply IH|]. intros m2 s2 w2 l2 [Hm2 W2]. split; [done|].
    by eapply went_app.
Qed.

Section flag.
(** Documented: eight bytes are read from an eventfd that is reported readable. *)
Context (flag_read : ∀ fd w, (handle (ReadFlag fd) w).1 ≠ None).

Lemma monitor_event_spec fd m s w : stopMonitor m = false →
  wp (monitor_event fd m) s w (λ m' s' _ l,
    went (writeUdc m) (writeUdc m') (stopMonitor m') s s' l).
Proof.
  intros Hm. apply wp_bind, wp_get. case_bool_decide as Hfd.
  - apply wp_bind, wp_call. intros lens w1 _. eapply wp_mono; [by apply inotify_events_spec|].
    intros m1 s1 w2 l1 [Hm1 W1]. rewrite Hm1.
    eapply (went_app _ _ _ _ s s s1 [Entry (ReadInotify _ _) lens]); [by apply went_other|done].
  - apply wp_bind, wp_call. intros flag w1 Hw1. destruct flag as [flag|].
    2: { exfalso. by apply (flag_read (mEventFd s) w); rewrite Hw1. }
    apply wp_ret. exists []. case_bool_decide as Hf; simpl; rewrite ?Hm.
    + split_and!; [by apply observed_other; [|constructor]|done..|]. exists []. rewrite Hf.
      split; [done|]. by apply not_elem_of_nil.
    + split_and!; [by apply observed_other; [|constructor]|done..|]. simpl.
      rewrite list_elem_of_singleton. congruence.
Qed.

Lemma monitor_events_spec fds m s w : stopMonitor m = false →
  wp (monitor_events fds m) s w (λ m' s' _ l,
    went (writeUdc m) (writeUdc m') (stopMonitor m') s s' l).
Proof.
  revert m s w. induction fds as [|fd fds IH]; intros m s w Hm; cbn [monitor_events].
  - apply wp_ret. rewrite Hm. exists [].
    split_and!; [constructor|done..|by apply not_elem_of_nil].
  - apply wp_bind. eapply wp_mono; [by apply monitor_event_spec|]. intros m1 s1 w1 l1 W1.
    cbv beta in W1. destruct (stopMonitor m1) eqn:Hm1.
    + apply wp_ret. by rewrite Hm1, app_nil_r.
    + eapply wp_mono; [by apply IH|]. intros m2 s2 w2 l2 W2. by eapply went_app.
Qed.

(** The number of waits for events. *)
Definition waits (l : list (entry gadE)) : nat :=
  length (omap (λ e, match entry_call e with EpollWait _ => Some () | _ => None end) l).

Lemma monitor_waits_app l1 l2 : waits (l1 ++ l2) = (waits l1 + waits l2)%nat.
Proof using Type. unfold waits. by rewrite omap_app, length_app. Qed.

Lemma monitor_loop_spec fuel m s w : stopMonitor m = false →
  wp (monitor_loop fuel m) s w (λ r s' _ l, ∃ down,
    went (writeUdc m) down (bool_decide (r ≠ None)) s s' l ∧ (r = None → (fuel <= waits l)%nat)).
Proof.
  revert m s w. induction fuel as [|fuel IH]; intros m s w Hm; cbn [monitor_loop]; rewrite Hm.
  - apply wp_ret. exists (writeUdc m). split; [|done]. exists [].
    split_and!; [constructor|done..|by apply not_elem_of_nil].
  - apply wp_bind, wp_get, wp_bind, wp_call. intros events w1 _. apply wp_bind.
    set (e := Entry (EpollWait _) events).
    eapply wp_mono; [by apply monitor_events_spec|]. intros m1 s1 w2 l1 W1. cbv beta in W1.
    pose proof (went_other (writeUdc m) s e I) as We. destruct (stopMonitor m1) eqn:Hm1.
    + assert (monitor_loop fuel m1 = mret (Some m1)) as ->.
      { destruct fuel; cbn [monitor_loop]; by rewrite Hm1. }
      apply wp_ret. exists (writeUdc m1). split; [|done]. rewrite bool_decide_true, app_nil_r by done.
      exact (went_app _ _ _ _ _ _ _ [e] _ We W1).
    + eapply wp_mono; [by apply IH|]. intros r s2 w3 l2 (down & W2 & Hr). exists down.
      split; [exact (went_app _ _ _ _ _ _ _ [e] _ We (went_app _ _ _ _ _ _ _ _ _ W1 W2))|].
      intros Hn. specialize (Hr Hn). change (S fuel <= waits ([e] ++ (l1 ++ l2)))%nat.
      rewrite !monitor_waits_app. change (waits [e]) with 1%nat. lia.
Qed.

(** C31: the monitor pulls the gadget up exactly when its endpoints come to be
    there: its looks at the endpoints and its attempts to write the
    controller's name to the pull-up file, in the order in which the log has
    them, follow the specification [follows] (an attempt after a look that
    found every endpoint readable, when the gadget has not been pulled up since
    the last look that did not; no other attempt and no other write), the
    fields are set by the successful attempts and by nothing else; and the
    thread ends with the first flag 100 that it reads, and only then: while it
    runs it has waited for events as often as the model's bound says. *)
Theorem monitorFfs_follows fuel s w :
  wp (monitorFfs fuel) s w (λ r s' _ l, ∃ t,
    observed (mEndpointList s) t l ∧ is_Some (follows true t) ∧ s' = after t s ∧
    (r ≠ None → ∃ fl, flags l = fl ++ [Some 100] ∧ Some 100 ∉ fl) ∧
    (r = None → Some 100 ∉ flags l ∧ (fuel <= waits l)%nat)).
Proof.
  unfold monitorFfs. apply wp_bind. eapply wp_mono; [apply descriptor_present_spec|].
  intros b s1 w1 l1 (-> & O1 & F1). apply wp_bind.
  apply (wp_mono _ _ _ (λ d s' _ l, went true d false s s' (l1 ++ l))).
  { destruct b; [|apply wp_ret; rewrite app_nil_r; by apply (went_look false)].
    apply wp_bind, wp_call. intros [] w2 _. eapply wp_mono; [apply look_pull_spec|].
    intros d s2 w3 l2 (ok & -> & -> & O2 & F2).
    apply (went_pull s l1 [Entry (Usleep PULL_UP_DELAY) tt] l2); try done.
    by apply observed_other; [|constructor]. }
  intros d s2 w2 l2 W2. eapply wp_mono; [by apply (monitor_loop_spec fuel (MkMonitor d false 0))|].
  intros r s3 w3 l3 (down & W3 & Hr).
  pose proof (went_app _ _ _ _ _ _ _ _ _ W2 W3) as (t & O & F & -> & G). rewrite <- app_assoc in *.
  exists t. split_and!; [done|by eexists|done|..].
  - intros Hn. by rewrite bool_decide_true in G.
  - intros ->. split; [exact G|]. rewrite !monitor_waits_app. specialize (Hr eq_refl). lia.
Qed.
End flag.
End monitor.

(** * A run: the endpoint is there, the gadget is pulled up, the flag is 100. *)
#[local] Instance ready : Handler gadE unit := λ X c w,
  (match c in gadE X return X with
   | GetProperty _ _ => "musb-hdrc"
   | WriteStringToFile _ _ => true
   | AccessReadable _ => true
   | SteadyNow => 0
   | OpenDir _ => None
   | Remove _ => 0
   | Mkdir _ _ => 0
   | Symlink _ _ => 0
   | InotifyInit => 5
   | InotifyAddWatch _ _ => 1
   | Eventfd => 6
   | EpollCreate => 7
   | EpollCtlAdd _ _ => 0
   | EpollWait _ => Some [6]
   | ReadInotify _ _ => None
   | ReadFlag _ => Some 100
   | WriteFlag _ _ => 8
   | WaitFor _ => true
   | SpawnMonitor => 9
   | JoinMonitor _ => false
   | Cb_setCurrentUsbFunctions _ _ _ => true
   | Cb_getCurrentUsbFunctions _ _ _ => true
   | SetProperty _ _ | Usleep _ | CloseDir | CloseFd _ | Lock | Unlock | LockSetCurrentFunction
   | UnlockSetCurrentFunction | NotifyAll => tt
   end, w).

Definition ready_gadget : UsbGadget :=
  MkUsbGadget 5 6 7 (Some (Some 9)) true ["/dev/usb-ffs/adb/ep1"] (Some 1) false false.

Lemma monitorFfs_follows_witness :
  (∀ fd w, (handle (ReadFlag fd) w).1 ≠ None) ∧
  wp (monitorFfs 2) ready_gadget () (λ r s' _ l,
    (r = Some (MkMonitor false true 0) ∧ gadgetPullup s' = true) ∧ ∃ t,
    observed (mEndpointList ready_gadget) t l ∧ is_Some (follows true t) ∧
    s' = after t ready_gadget ∧
    (r ≠ None → ∃ fl, flags l = fl ++ [Some 100] ∧ Some 100 ∉ fl) ∧
    (r = None → Some 100 ∉ flags l ∧ (2 <= waits l)%nat)).
Proof.
  assert (∀ fd w, (handle (ReadFlag fd) w).1 ≠ None) as Hflag by (intros fd w; discriminate).
  split; [exact Hflag|].
  assert (wp (monitorFfs 2) ready_gadget () (λ r s' _ _,
    r = Some (MkMonitor false true 0) ∧ gadgetPullup s' = true)) as HC by by vm_compute.
  exact (wp_and _ _ _ _ _ HC (monitorFfs_follows Hflag 2 ready_gadget ())).
Defined.
