(* ===== verification/UsbGadgetThreads.v ===== *)
(** The USB gadget HAL's threads ([src/usb/UsbGadget.cpp]), interleaved: binder
    threads that set and ask for the functions, and the monitors that
    [setupFunctions] creates.

    [gadget_sync] says what the calls of the thread library mean;
    [gadget_allowed] is the protocol of the two mutexes and of the monitor's
    life; [UsbGadgetThreadsFacts] shows that the code keeps to it. *)
From S2P Require Import Prelude Effects CppString UsbGadget UsbGadgetFacts UsbMonitor Threads ThreadsLogic.
From stdpp Require Import options.
#[local] Set Default Proof Using "Type*".

Inductive gadget_mutex := mLock | mLockSetCurrentFunction.
#[export] Instance gadget_mutex_eq_dec : EqDecision gadget_mutex.
Proof. solve_decision. Defined.

(** The monitor as a thread; [None]: it still runs. *)
Definition monitor_thread (fuel : nat) : prog gadE UsbGadget (option unit) :=
  r ← monitorFfs fuel;
  mret (match r with Some _ => Some () | None => None end).

(** How many waits a monitor is followed for. *)
Class MonitorFuel := monitor_fuel : nat.

(** The other thread writes its fields itself, so the answers of a wait and of a
    join, by which a request that runs alone learns of the monitor's writes,
    tell of none.  [wait_for] ends when [gadgetPullup] is set or at the time-out;
    here it may end at any time. *)
#[export] Instance gadget_sync `{MonitorFuel} : Sync gadE gadget_mutex UsbGadget (option unit) := λ X c,
  match c in gadE X return option (sync gadE gadget_mutex UsbGadget (option unit) X) with
  | Lock => Some (Acquire mLock)
  | Unlock => Some (Release mLock)
  | LockSetCurrentFunction => Some (Acquire mLockSetCurrentFunction)
  | UnlockSetCurrentFunction => Some (Release mLockSetCurrentFunction)
  | WaitFor _ => Some (Wait mLock (λ _ _, false))
  | SpawnMonitor => Some (Spawn (monitor_thread monitor_fuel) id None)
  | JoinMonitor t => Some (Join t false)
  | _ => None
  end.

Section threads.
Context {GC : GadgetConsts} {Sy : Sync gadE gadget_mutex UsbGadget (option unit)}.

#[local] Abbreviation state := (shared gadE gadget_mutex UsbGadget).
#[local] Abbreviation history := (list (nat * event gadE UsbGadget)).
Implicit Types (t u : nat) (σ : state) (tr : history).

(** [x] is followed by [y]. *)
Definition precedes (x y : nat * event gadE UsbGadget) tr : Prop :=
  ∃ tr1 tr2, tr = tr1 ++ x :: tr2 ∧ y ∈ tr2.

(** Thread [u] has been created as a monitor. *)
Definition spawned u tr : Prop := ∃ v, (v, Asked (Entry SpawnMonitor (Z.of_nat u))) ∈ tr.

(** Thread [u] has pulled the gadget up: it has written the name of the
    controller that it had read. *)
Definition pulled_by u tr : Prop :=
  ∃ name, precedes (u, Asked (Entry (GetProperty "sys.usb.controller" "") name))
    (u, Asked (Entry (WriteStringToFile name PULLUP_PATH) true)) tr.

Definition pulled_since_spawn u tr : Prop :=
  ∃ v pre post, tr = pre ++ (v, Asked (Entry SpawnMonitor (Z.of_nat u))) :: post ∧
    pulled_by u post.

(** A monitor that has not been joined. *)
Definition monitoring t σ : Prop := spawned t (trace σ) ∧ alive t σ.

Definition no_monitor σ : Prop := ∀ u, spawned u (trace σ) → joined u (trace σ).

(** What the monitor reads without a mutex. *)
Definition same_setup (s s' : UsbGadget) : Prop :=
  mInotifyFd s' = mInotifyFd s ∧ mEventFd s' = mEventFd s ∧ mEpollFd s' = mEpollFd s ∧
  mEndpointList s' = mEndpointList s.

(** What belongs to requests. *)
Definition same_request (s s' : UsbGadget) : Prop :=
  same_setup s s' ∧ mMonitor s' = mMonitor s ∧ mMonitorCreated s' = mMonitorCreated s ∧
  mCurrentUsbFunctions s' = mCurrentUsbFunctions s.

(** Between requests: the object knows whether there is a monitor, and which; all
    others have been joined. *)
Record settled σ : Prop := {
  st_monitor : monitor_ok (fields σ);
  st_named : ∀ z, mMonitor (fields σ) = Some (Some z) → ∃ u, z = Z.of_nat u ∧ spawned u (trace σ);
  st_joined : ∀ u, spawned u (trace σ) →
    joined u (trace σ) ∨ mMonitor (fields σ) = Some (Some (Z.of_nat u));
}.

(** What a report to the framework stands for: thread [t] holds the request's
    mutex since [post], the functions are those it has set, and SUCCESS means
    that none were asked for, or that since then the thread itself or a monitor
    that it has created has pulled the gadget up. *)
Definition truthful t (functions : Z) (st : Status) σ : Prop :=
  held σ mLockSetCurrentFunction = Some t ∧ mCurrentUsbFunctions (fields σ) = Some functions ∧
  ∃ pre post, trace σ = pre ++ (t, Asked (Entry LockSetCurrentFunction tt)) :: post ∧
    (Entry UnlockSetCurrentFunction tt ∉ calls t post) ∧
    (st = SUCCESS → functions = NONE ∨
      ∃ u, pulled_by u post ∧ (u = t ∨ spawned u post)).

(** The protocol. *)
Definition gadget_allowed σ t (e : event gadE UsbGadget) : Prop :=
  match e with
  | Wrote s s' =>
      s = fields σ ∧
      (held σ mLockSetCurrentFunction = Some t ∨ monitoring t σ ∧ same_request s s') ∧
      (mCurrentUsbFunctions s ≠ None → mCurrentUsbFunctions s' ≠ None) ∧
      (same_setup s s' ∨ no_monitor σ) ∧
      (gadgetPullup s' = gadgetPullup s ∨
       held σ mLock = Some t ∧
       (gadgetPullup s' = true → monitoring t σ ∧ pulled_since_spawn t (trace σ)))
  | Asked (Entry c _) =>
      match c with
      | OpenDir _ | Remove _ | Mkdir _ _ | Symlink _ _ | SetProperty _ _ | CloseFd _
      | WriteFlag _ _ => held σ mLockSetCurrentFunction = Some t
      | WriteStringToFile content path =>
          held σ mLockSetCurrentFunction = Some t ∨
          path = PULLUP_PATH ∧ (content = "none" ∨ monitoring t σ)
      | SpawnMonitor => held σ mLockSetCurrentFunction = Some t ∧ no_monitor σ
      | JoinMonitor z =>
          held σ mLockSetCurrentFunction = Some t ∧ ∃ u, z = Z.of_nat u ∧ spawned u (trace σ)
      | Cb_setCurrentUsbFunctions _ functions st => truthful t functions st σ
      | UnlockSetCurrentFunction => settled σ
      | _ => True
      end
  | Slept _ => True
  end.
End threads.
