(* ===== verification/UsbGadgetThreadsFacts.v ===== *)
(** The code of the USB gadget HAL keeps to the protocol of its threads
    ([UsbGadgetThreads]), in every interleaving. *)
From S2P Require Import Prelude Effects CppString UsbGadget UsbGadgetFacts UsbMonitor Threads ThreadsLogic UsbGadgetThreads.
From stdpp Require Import options.
#[local] Set Default Proof Using "Type*".

(** Whether the functions have been set before. *)
Class SetBefore := set_before : bool.

(** The event does not give back the mutex of requests. *)
Ltac not_unlock :=
  cbn; case_decide; [|by apply not_elem_of_nil];
  first [by apply not_elem_of_nil|let Hin := fresh in intros Hin%list_elem_of_singleton; discriminate Hin].

Section threads.
Context {GC : GadgetConsts} {MF : MonitorFuel} {SB : SetBefore}.

#[local] Abbreviation state := (shared gadE gadget_mutex UsbGadget).
#[local] Abbreviation history := (list (nat * event gadE UsbGadget)).
Implicit Types (t u : nat) (σ : state) (tr : history).

Definition inv σ : Prop :=
  (set_before = true → mCurrentUsbFunctions (fields σ) ≠ None) ∧
  (held σ mLockSetCurrentFunction = None → settled σ).

(** Documented: eight bytes are read from an eventfd that is readable; and the
    names in the configuration directory are short ([fits]). *)
Definition answered (X : Type) (c : gadE X) : X → Prop :=
  match c in gadE X return X → Prop with
  | OpenDir path => λ names, path = CONFIG_PATH → Forall (fits path) (default [] names)
  | ReadFlag _ => λ flag, flag ≠ None
  | _ => λ _, True
  end.

#[local] Abbreviation allowed := gadget_allowed.
#[local] Abbreviation safe := (safe allowed inv answered).
#[local] Abbreviation stable := (stable allowed inv).

(** * Histories *)
Lemma precedes_app x y tr1 tr tr2 : precedes x y tr → precedes x y (tr1 ++ tr ++ tr2).
Proof using Type.
  intros (l1 & l2 & -> & Hy). exists (tr1 ++ l1), (l2 ++ tr2). rewrite <- !app_assoc.
  split; [done|]. apply elem_of_app. by left.
Qed.

Lemma precedes_snoc x y tr : x ∈ tr → precedes x y (tr ++ [y]).
Proof using Type.
  intros (l1 & l2 & ->)%list_elem_of_split. exists l1, (l2 ++ [y]). rewrite <- app_assoc.
  split; [done|]. apply elem_of_app. right. by apply list_elem_of_singleton.
Qed.

Lemma pulled_by_app u tr1 tr tr2 : pulled_by u tr → pulled_by u (tr1 ++ tr ++ tr2).
Proof using Type. intros [name Hp]. exists name. by apply precedes_app. Qed.

Lemma pulled_by_snoc u tr x : pulled_by u tr → pulled_by u (tr ++ [x]).
Proof using Type. apply (pulled_by_app u []). Qed.

Lemma spawned_app u tr1 tr2 : spawned u (tr1 ++ tr2) ↔ spawned u tr1 ∨ spawned u tr2.
Proof using Type.
  unfold spawned. setoid_rewrite elem_of_app. split.
  - intros [v [Hv|Hv]]; [left|right]; by exists v.
  - intros [[v Hv]|[v Hv]]; exists v; auto.
Qed.

Lemma joined_snoc u tr x : joined u tr → joined u (tr ++ [x]).
Proof using Type. rewrite joined_app. by left. Qed.

Lemma pulled_since_app u tr tr' : pulled_since_spawn u tr → pulled_since_spawn u (tr ++ tr').
Proof using Type.
  intros (v & pre & post & -> & Hp). exists v, pre, (post ++ tr'). rewrite <- app_assoc.
  split; [done|]. by apply (pulled_by_app u []).
Qed.

(** * Events *)

(** A call that is no business of the scheduler. *)
Definition easy (e : event gadE UsbGadget) : Prop :=
  match e with Asked (Entry c _) => sync_of c = None | _ => False end.

(** The monitor that is created. *)
Definition created (x : nat * event gadE UsbGadget) : option Z :=
  match x.2 with
  | Asked (Entry c x) =>
      match c in gadE X return X → option Z with SpawnMonitor => Some | _ => λ _, None end x
  | _ => None
  end.

(** A monitor is created only by the holder of the requests' mutex. *)
Lemma spawned_step u t e σ σ' :
  allowed σ t e → emit t e σ = Some σ' →
  (held σ mLockSetCurrentFunction ≠ Some t ∨ easy e) →
  spawned u (trace σ') ↔ spawned u (trace σ).
Proof using Type.
  intros Ha He Hno. rewrite (emit_trace _ _ _ _ He), spawned_app. split; [|by left].
  intros [Hs|[v Hv%list_elem_of_singleton]]; [done|]. injection Hv as -> <-.
  destruct Ha as [Hh _], Hno as [Hno|Hno]; done.
Qed.

Lemma joined_step u t e σ σ' :
  emit t e σ = Some σ' → joined u (trace σ) → joined u (trace σ').
Proof using Type. intros He. rewrite (emit_trace _ _ _ _ He). apply joined_snoc. Qed.

(** Fields of requests are written only by the holder. *)
Lemma request_step t e σ σ' :
  allowed σ t e → emit t e σ = Some σ' →
  (held σ mLockSetCurrentFunction ≠ Some t ∨ easy e) → same_request (fields σ) (fields σ').
Proof using Type.
  intros Ha He Hno. rewrite (emit_fields _ _ _ _ He). destruct e as [e|X c|s s']; [done..|].
  destruct Ha as (-> & [Hh|[_ Hs]] & _); [|done]. by destruct Hno.
Qed.

(** The new state knows of the same monitors. *)
Lemma settled_same σ σ' :
  (∀ u, spawned u (trace σ') ↔ spawned u (trace σ)) →
  (∀ u, joined u (trace σ) → joined u (trace σ')) →
  same_request (fields σ) (fields σ') → settled σ → settled σ'.
Proof using Type.
  intros Hs Hj (_ & Hm & Hc & _) [M N J]. split.
  - unfold monitor_ok, joinable in *. by rewrite Hc, Hm.
  - intros z. rewrite Hm. intros (u & -> & Hu)%N. exists u. by rewrite Hs.
  - intros u. rewrite Hs, Hm. intros [?|?]%J; auto.
Qed.

Lemma settled_step t e σ σ' :
  allowed σ t e → emit t e σ = Some σ' →
  (held σ mLockSetCurrentFunction ≠ Some t ∨ easy e) → settled σ → settled σ'.
Proof using Type.
  intros Ha He Hno. apply settled_same.
  - intros u. by eapply spawned_step.
  - intros u. by eapply joined_step.
  - by eapply request_step.
Qed.

(** Events that create no monitor. *)
Lemma spawned_quiet v u e σ σ' :
  trace σ' = trace σ ++ [(u, e)] → (∀ z, e ≠ Asked (Entry SpawnMonitor z)) →
  spawned v (trace σ') ↔ spawned v (trace σ).
Proof using Type.
  intros Ht He. rewrite Ht, spawned_app. split; [|by left].
  intros [?|[w Hw%list_elem_of_singleton]]; [done|]. injection Hw as -> <-.
  by destruct (He (Z.of_nat v)).
Qed.

Lemma settled_quiet u e σ σ' :
  trace σ' = trace σ ++ [(u, e)] → fields σ' = fields σ →
  (∀ z, e ≠ Asked (Entry SpawnMonitor z)) → settled σ → settled σ'.
Proof using Type.
  intros Ht Hf He. apply settled_same.
  - intros v. by eapply spawned_quiet.
  - intros v. rewrite Ht. apply joined_snoc.
  - by rewrite Hf.
Qed.

Lemma no_monitor_quiet u e σ σ' :
  trace σ' = trace σ ++ [(u, e)] → (∀ z, e ≠ Asked (Entry SpawnMonitor z)) →
  no_monitor σ → no_monitor σ'.
Proof using Type.
  intros Ht He Hno v. rewrite (spawned_quiet v u e σ σ' Ht He), Ht. intros Hv.
  by apply joined_snoc, Hno.
Qed.

Lemma unheld t e σ σ' :
  emit t e σ = Some σ' → held σ' mLockSetCurrentFunction = None →
  held σ mLockSetCurrentFunction = None ∨ e = Asked (Entry UnlockSetCurrentFunction tt).
Proof using Type.
  intros He%emit_held Hh. destruct e as [[X c x]|X c|s s'].
  - destruct c; try (injection He as He; left; by rewrite He); simpl in He;
      try (apply take_lock_spec in He as [Hn He]; rewrite He in Hh; left;
        unfold own in Hh; by case_decide);
      try (apply give_lock_spec in He as [Hn He]; rewrite He in Hh; left;
        unfold own in Hh; by case_decide).
    right. by destruct x.
  - destruct c; try done. simpl in He. apply give_lock_spec in He as [_ He]. rewrite He in Hh.
    left. unfold own in Hh. by case_decide.
  - injection He as He. left. by rewrite He.
Qed.

Lemma inv_step σ σ' t e : inv σ → allowed σ t e → emit t e σ = Some σ' → inv σ'.
Proof using Type.
  intros [Hset Hinv] Ha He. split.
  - intros Hb. specialize (Hset Hb). rewrite (emit_fields _ _ _ _ He).
    destruct e as [e|X c|s s']; [done..|]. destruct Ha as (-> & _ & Hc & _). by apply Hc.
  - intros Hh. destruct (unheld _ _ _ _ He Hh) as [Hno| ->].
    + eapply settled_step; [done|done| |by apply Hinv]. left. by rewrite Hno.
    + eapply settled_quiet; [by eapply emit_trace|by rewrite (emit_fields _ _ _ _ He)|done|exact Ha].
Qed.

(** * Sessions: a thread between taking and giving back the requests' mutex

    [R] is about the history before and since it took the mutex, and the state. *)
#[local] Abbreviation session_prop := (history → history → state → Prop).

Definition taken t : nat * event gadE UsbGadget := (t, Asked (Entry LockSetCurrentFunction tt)).

Definition in_session t f (R : session_prop) σ : Prop :=
  held σ mLockSetCurrentFunction = Some t ∧ mCurrentUsbFunctions (fields σ) = f ∧
  ∃ pre post, trace σ = pre ++ taken t :: post ∧
    (Entry UnlockSetCurrentFunction tt ∉ calls t post) ∧ R pre post σ.

(** [R] survives the events of other threads and the easy calls of its own. *)
Definition robust t (R : session_prop) : Prop :=
  ∀ pre post σ σ' u e, held σ mLockSetCurrentFunction = Some t →
    trace σ = pre ++ taken t :: post → allowed σ u e → emit u e σ = Some σ' →
    (u = t → easy e) → R pre post σ → R pre (post ++ [(u, e)]) σ'.

Lemma not_mine t u e σ :
  held σ mLockSetCurrentFunction = Some t → (u = t → easy e) →
  held σ mLockSetCurrentFunction ≠ Some u ∨ easy e.
Proof using Type.
  intros Hh He. destruct (decide (u = t)) as [->|Hu]; [right; by apply He|left].
  rewrite Hh. congruence.
Qed.

Lemma easy_held t e σ σ' : easy e → emit t e σ = Some σ' → held σ' = held σ.
Proof using Type.
  intros Hs He%emit_held. destruct e as [[X c x]|X c|s s']; [|done..]. simpl in Hs, He.
  rewrite Hs in He. by injection He.
Qed.

Lemma easy_not_unlock t e : easy e → Entry UnlockSetCurrentFunction tt ∉ calls t [(t, e)].
Proof using Type.
  intros Hs. cbn. case_decide; [|by apply not_elem_of_nil].
  destruct e as [[X c x]|X c|s s']; try by apply not_elem_of_nil.
  intros Hin%list_elem_of_singleton. by destruct c.
Qed.

(** An event of the session's own thread, or of another. *)
Lemma session_event t f f' (R R' : session_prop) u e σ σ' :
  in_session t f R σ → emit u e σ = Some σ' →
  held σ' mLockSetCurrentFunction = Some t → mCurrentUsbFunctions (fields σ') = f' →
  (u = t → Entry UnlockSetCurrentFunction tt ∉ calls t [(t, e)]) →
  (∀ pre post, trace σ = pre ++ taken t :: post → R pre post σ → R' pre (post ++ [(u, e)]) σ') →
  in_session t f' R' σ'.
Proof using Type.
  intros (Hh & Hf & pre & post & Ht & Hn & HR) He Hh' Hf' Hu HR'. split; [done|]. split; [done|].
  exists pre, (post ++ [(u, e)]). split_and!.
  - by rewrite (emit_trace _ _ _ _ He), Ht, <- app_assoc.
  - destruct (decide (u = t)) as [->|Hne]; [|by rewrite calls_other].
    rewrite calls_app, elem_of_app. intros [?|?]; [done|]. by apply Hu.
  - by apply HR'.
Qed.

Lemma session_step t f R u e σ σ' :
  robust t R → in_session t f R σ → allowed σ u e → emit u e σ = Some σ' → (u = t → easy e) →
  in_session t f R σ'.
Proof using Type.
  intros HR Hσ Ha He Hu. pose proof Hσ as (Hh & Hf & _).
  eapply session_event; [exact Hσ|exact He|..].
  - destruct (decide (u = t)) as [->|Hne]; [|by eapply held_stable].
    by rewrite (easy_held _ _ _ _ (Hu eq_refl) He).
  - destruct (request_step u e σ σ' Ha He) as (_ & _ & _ & ->); [|done]. by eapply not_mine.
  - intros ->. by apply easy_not_unlock, Hu.
  - intros pre post Ht HRp. by eapply HR.
Qed.

Lemma request_stable t f R : robust t R → stable t (in_session t f R).
Proof using Type. intros HR σ σ' u e Hu _ Hσ Ha He. by eapply session_step. Qed.

Lemma session_mono t f (R R' : session_prop) σ :
  (∀ pre post, trace σ = pre ++ taken t :: post → R pre post σ → R' pre post σ) →
  in_session t f R σ → in_session t f R' σ.
Proof using Type.
  intros HR (Hh & Hf & pre & post & Ht & Hn & HRp). do 2 (split; [done|]). exists pre, post. auto.
Qed.

(** ** Programs of easy calls *)

(** The holder may make the call at any time. *)
Definition easy_call {X} (c : gadE X) : Prop :=
  sync_of c = None ∧
  ∀ σ t x, held σ mLockSetCurrentFunction = Some t → allowed σ t (Asked (Entry c x)).

Fixpoint owned {B} (p : prog gadE UsbGadget B) (Q : B → Prop) : Prop :=
  match p with
  | Ret a => Q a
  | Call c k => easy_call c ∧ ∀ x, answered _ c x → owned (k x) Q
  | Get _ | Modify _ _ | UB => False
  end.

Lemma owned_bind {B C} (p : prog gadE UsbGadget B) (k : B → prog gadE UsbGadget C) Q :
  owned p (λ a, owned (k a) Q) → owned (p ≫= k) Q.
Proof using Type.
  unfold mbind. induction p as [a|X c k' IH|k' IH|f p IH|]; simpl; intros Hp; try done.
  destruct Hp as [Hc Hk]. split; [done|]. intros x Hx. by apply IH, Hk.
Qed.

Lemma owned_mono {B} (p : prog gadE UsbGadget B) (Q Q' : B → Prop) :
  owned p Q → (∀ a, Q a → Q' a) → owned p Q'.
Proof using Type.
  intros Hp HQ. induction p as [a|X c k' IH|k' IH|f p IH|]; simpl in *; try done; [by apply HQ|].
  destruct Hp as [Hc Hk]. split; [done|]. intros x Hx. by apply IH, Hk.
Qed.

Lemma owned_call {X} (c : gadE X) (Q : X → Prop) :
  easy_call c → (∀ x, answered X c x → Q x) → owned (call c) Q.
Proof using Type. by split. Qed.

(** A call that is no business of the scheduler, and is allowed now. *)
Lemma session_ask {B X} t f (c : gadE X) (k : X → prog gadE UsbGadget B) R
    (R' : X → session_prop) Q σ :
  sync_of c = None → (∀ σ' x, in_session t f R σ' → allowed σ' t (Asked (Entry c x))) →
  robust t R → in_session t f R σ →
  (∀ pre post σ' x σ'', R pre post σ' → trace σ' = pre ++ taken t :: post →
    emit t (Asked (Entry c x)) σ' = Some σ'' → R pre (post ++ [(t, Asked (Entry c x))]) σ'' →
    R' x pre (post ++ [(t, Asked (Entry c x))]) σ'') →
  (∀ x σ', answered X c x → in_session t f (R' x) σ' → safe t (k x) Q σ') →
  safe t (call c ≫= k) Q σ.
Proof.
  intros Hs Ha HR Hσ HR' Hk.
  eapply (safe_ask allowed inv answered inv_step);
    [by unfold wait_of; rewrite Hs|by apply request_stable|exact Hσ|].
  intros σ1 x σ2 H1 _ _ Hx He. pose proof H1 as (Hh & _). split; [by apply Ha|]. intros _.
  unfold expected in Hx. rewrite Hs in Hx. apply Hk; [done|].
  eapply (session_event t f f _ _ t); [exact H1|exact He|..].
  - by rewrite (easy_held t (Asked (Entry c x)) σ1 σ2 Hs He).
  - rewrite (emit_fields _ _ _ _ He). apply H1.
  - intros _. by apply easy_not_unlock.
  - intros pre post Ht HRp. eapply HR'; try done. eapply HR; try done. by apply Ha.
Qed.

Lemma easy_safe {B X} t f (c : gadE X) (k : X → prog gadE UsbGadget B) R Q σ :
  easy_call c → robust t R → in_session t f R σ →
  (∀ x σ', answered X c x → in_session t f R σ' → safe t (k x) Q σ') →
  safe t (call c ≫= k) Q σ.
Proof.
  intros [Hs Ha] HR Hσ Hk. apply (session_ask t f c k R (λ _, R)); try done.
  intros σ' x (Hh & _). by apply Ha.
Qed.

Lemma safe_owned {B} t f (p : prog gadE UsbGadget B) R (Q : B → Prop) σ :
  robust t R → in_session t f R σ → owned p Q →
  safe t p (λ a σ', Q a ∧ in_session t f R σ') σ.
Proof.
  intros HR. revert σ. induction p as [a|X c k IH|k IH|g p IH|]; intros σ Hσ Hp; try done.
  - eapply (safe_ret allowed inv answered t a (in_session t f R)); [by apply request_stable|done|].
    intros. by split.
  - destruct Hp as [Hc Hk].
    apply (easy_safe t f c k R); [done..|]. intros x σ' Hx Hσ'. by apply IH, Hk.
Qed.

(** A part of a program, then the rest. *)
Lemma owned_then {B C} t f (p : prog gadE UsbGadget B) (k : B → prog gadE UsbGadget C) R
    (P : B → Prop) Q σ :
  robust t R → in_session t f R σ → owned p P →
  (∀ a σ', P a → in_session t f R σ' → safe t (k a) Q σ') → safe t (p ≫= k) Q σ.
Proof.
  intros HR Hσ Hp Hk. apply safe_bind. eapply safe_mono; [by apply safe_owned|].
  intros a σ' [HP Hσ']. by apply Hk.
Qed.

Lemma request_ret {B} t f R (a : B) (Q : B → state → Prop) σ :
  robust t R → in_session t f R σ → (∀ σ', in_session t f R σ' → Q a σ') → safe t (mret a) Q σ.
Proof.
  intros HR Hσ HQ. eapply (safe_ret allowed inv answered); [by apply request_stable|exact Hσ|].
  intros σ' Hσ' _. by apply HQ.
Qed.

Lemma request_get {B} t f R (k : UsbGadget → prog gadE UsbGadget B) Q σ :
  robust t R → in_session t f R σ →
  (∀ σ', in_session t f R σ' → safe t (k (fields σ')) Q σ') → safe t (get ≫= k) Q σ.
Proof.
  intros HR Hσ Hk. eapply (safe_get allowed inv answered); [by apply request_stable|exact Hσ|].
  intros σ' Hσ' _. by apply Hk.
Qed.

(** A change of the fields; [f'] are the functions then. *)
Lemma request_modify {B} t f f' (g : UsbGadget → UsbGadget) (k : unit → prog gadE UsbGadget B)
    R R' Q σ :
  robust t R → in_session t f R σ →
  (∀ s, mCurrentUsbFunctions s = f → mCurrentUsbFunctions (g s) = f') →
  (f ≠ None → f' ≠ None) →
  (∀ pre post σ', trace σ' = pre ++ taken t :: post → R pre post σ' →
    (same_setup (fields σ') (g (fields σ')) ∨ no_monitor σ') ∧
    (gadgetPullup (g (fields σ')) = gadgetPullup (fields σ') ∨
     held σ' mLock = Some t ∧ gadgetPullup (g (fields σ')) = false) ∧
    ∀ σ'' e, held σ'' = held σ' → trace σ'' = trace σ' ++ [(t, e)] →
      e = Wrote (fields σ') (g (fields σ')) → fields σ'' = g (fields σ') →
      R' pre (post ++ [(t, e)]) σ'') →
  (∀ σ', in_session t f' R' σ' → safe t (k ()) Q σ') → safe t (modify g ≫= k) Q σ.
Proof.
  intros HR Hσ Hg Hf0 Hw Hk.
  eapply (safe_modify allowed inv answered inv_step); [by apply request_stable|exact Hσ|].
  intros σ1 σ2 H1 _ He. pose proof H1 as (Hh & Hf & pre & post & Ht & Hn & HRp).
  destruct (Hw pre post σ1 Ht HRp) as (Hsetup & Hpull & _).
  pose proof (emit_held _ _ _ _ He) as Hheld. injection Hheld as Hheld.
  split.
  - split; [done|]. split; [by left|]. split; [by rewrite (Hg _ Hf), Hf|]. split; [done|].
    destruct Hpull as [?|[? Hp]]; [by left|right]. split; [done|]. by rewrite Hp.
  - intros _. apply Hk. eapply (session_event t f f' _ _ t); [exact H1|exact He|..].
    + by rewrite <- Hheld.
    + rewrite (emit_fields _ _ _ _ He). by apply Hg.
    + intros _. not_unlock.
    + intros pre' post' Ht' HRp'. destruct (Hw pre' post' σ1 Ht' HRp') as (_ & _ & HR').
      apply HR'; [done|by apply (emit_trace _ _ _ _ He)|done|].
      by rewrite (emit_fields _ _ _ _ He).
Qed.

(** ** What is known in a session *)
Definition alone : session_prop := λ _ _ σ,
  no_monitor σ ∧ joinable (fields σ) = false ∧ mMonitorCreated (fields σ) = false.

Definition orderly : session_prop := λ _ _ σ, settled σ.

Definition locked t (R : session_prop) : session_prop := λ pre post σ,
  held σ mLock = Some t ∧ R pre post σ.

Definition both (R R' : session_prop) : session_prop := λ pre post σ,
  R pre post σ ∧ R' pre post σ.

Definition mine_pulled t : session_prop := λ _ post _, pulled_by t post.

(** Monitors from before the session are gone, and [gadgetPullup] speaks of one
    from within. *)
Definition raised : session_prop := λ pre post σ,
  (∀ u, spawned u pre → joined u (trace σ)) ∧
  (gadgetPullup (fields σ) = true → ∃ u, spawned u post ∧ pulled_by u post).

(** A monitor has just been created, and nobody knows it yet. *)
Definition launched z : session_prop := λ _ post σ,
  ∃ v, z = Z.of_nat v ∧ spawned v post ∧
    (∀ u, spawned u (trace σ) → joined u (trace σ) ∨ u = v) ∧
    joinable (fields σ) = false ∧ mMonitorCreated (fields σ) = false.

Lemma alone_orderly pre post σ : alone pre post σ → orderly pre post σ.
Proof using Type.
  intros (Hno & Hj & Hc). split.
  - unfold monitor_ok. by rewrite Hc, Hj.
  - unfold joinable in Hj. intros z Hz. by rewrite Hz in Hj.
  - intros u Hu. left. by apply Hno.
Qed.

Section robust.
Variable t : nat.

Lemma robust_both R R' : robust t R → robust t R' → robust t (both R R').
Proof using Type.
  intros H1 H2 pre post σ σ' u e Hh Ht Ha He Hu [HR HR']. split; [by eapply H1|by eapply H2].
Qed.

Lemma robust_orderly : robust t orderly.
Proof using Type.
  intros pre post σ σ' u e Hh Ht Ha He Hu HR. eapply settled_step; [done|done| |done].
  by eapply not_mine.
Qed.

Lemma robust_alone : robust t alone.
Proof using Type.
  intros pre post σ σ' u e Hh Ht Ha He Hu (Hno & Hj & Hc).
  assert (held σ mLockSetCurrentFunction ≠ Some u ∨ easy e) as Hmine by by eapply not_mine.
  destruct (request_step u e σ σ' Ha He Hmine) as (_ & Hm & Hcr & _). split_and!.
  - intros v Hv. eapply joined_step; [done|]. apply Hno.
    by apply (spawned_step v u e σ σ' Ha He Hmine).
  - unfold joinable in *. by rewrite Hm.
  - by rewrite Hcr.
Qed.

Lemma robust_locked R : robust t R → robust t (locked t R).
Proof using Type.
  intros HR pre post σ σ' u e Hh Ht Ha He Hu [Hl HRp]. split; [|by eapply HR].
  destruct (decide (u = t)) as [->|Hne]; [|by eapply held_stable].
  by rewrite (easy_held _ _ _ _ (Hu eq_refl) He).
Qed.

Lemma robust_pulled : robust t (mine_pulled t).
Proof using Type. intros pre post σ σ' u e _ _ _ _ _ HR. by apply pulled_by_snoc. Qed.

Lemma robust_launched z : robust t (launched z).
Proof using Type.
  intros pre post σ σ' u e Hh Ht Ha He Hu (v & -> & Hv & Hall & Hj & Hc).
  assert (held σ mLockSetCurrentFunction ≠ Some u ∨ easy e) as Hmine by by eapply not_mine.
  destruct (request_step u e σ σ' Ha He Hmine) as (_ & Hm & Hcr & _).
  exists v. split_and!; [done|apply spawned_app; by left| | |by rewrite Hcr].
  - intros w Hw%(spawned_step w u e σ σ' Ha He Hmine).
    destruct (Hall w Hw); [left|by right]. by eapply joined_step.
  - unfold joinable in *. by rewrite Hm.
Qed.

Lemma pulled_within_snoc post x :
  (∃ v, spawned v post ∧ pulled_by v post) →
  ∃ v, spawned v (post ++ [x]) ∧ pulled_by v (post ++ [x]).
Proof using Type.
  intros (v & Hs & Hp). exists v. split; [apply spawned_app; by left|by apply pulled_by_snoc].
Qed.

Lemma raised_quiet pre post u e σ σ' :
  trace σ' = trace σ ++ [(u, e)] → gadgetPullup (fields σ') = gadgetPullup (fields σ) →
  raised pre post σ → raised pre (post ++ [(u, e)]) σ'.
Proof using Type.
  intros Ht Hg [Hold Hup]. split.
  - intros v Hv. rewrite Ht. by apply joined_snoc, Hold.
  - rewrite Hg. intros ?. by apply pulled_within_snoc, Hup.
Qed.

Lemma robust_raised : robust t raised.
Proof using Type.
  intros pre post σ σ' u e Hh Ht Ha He Hu [Hold Hup]. split.
  { intros v Hv. eapply joined_step; [done|]. by apply Hold. }
  pose proof (pulled_within_snoc post (u, e)) as Hmono.
  rewrite (emit_fields _ _ _ _ He). destruct e as [e|X c|s s']; [intros ?; by apply Hmono, Hup..|].
  destruct Ha as (-> & _ & _ & _ & [Hg|[_ Hg]]); cbn [fields_after].
  { rewrite Hg. intros ?. by apply Hmono, Hup. }
  intros Htrue. destruct (Hg Htrue) as [[_ Hal] (v & l1 & l2 & Hl & Hp)]. apply Hmono.
  exists u. rewrite Ht in Hl. symmetry in Hl. apply app_eq_inv in Hl as [(l & Hl1 & Hl2)|(l & Hl1 & Hl2)].
  - destruct l as [|x l]; [by apply (f_equal (λ l, created <$> head l)) in Hl2|].
    injection Hl2 as <- ->. split.
    + exists v. apply elem_of_app. right. by left.
    + replace (l ++ (v, Asked (Entry SpawnMonitor (Z.of_nat u))) :: l2) with
        ((l ++ [(v, Asked (Entry SpawnMonitor (Z.of_nat u)))]) ++ l2 ++ [])
        by by rewrite app_nil_r, <- app_assoc.
      by apply pulled_by_app.
  - destruct l as [|x l]; [by apply (f_equal (λ l, created <$> head l)) in Hl2|].
    injection Hl2 as <- ->. destruct Hal. apply Hold.
    exists v. rewrite Hl1. apply elem_of_app. right. by left.
Qed.
End robust.

End threads.
