(* ===== verification/UsbGadgetRequests.v ===== *)
(** Requests keep to the protocol of the USB gadget HAL's threads: a session per
    request, followed through [setCurrentUsbFunctions] and all that it calls. *)
From S2P Require Import Prelude Effects CppString UsbGadget UsbGadgetFacts UsbMonitor Threads ThreadsLogic UsbGadgetThreads UsbGadgetThreadsFacts.
From stdpp Require Import options.
#[local] Set Default Proof Using "Type*".

Section threads.
Context {GC : GadgetConsts} {MF : MonitorFuel} {SB : SetBefore}.
#[local] Abbreviation state := (shared gadE gadget_mutex UsbGadget).
#[local] Abbreviation history := (list (nat * event gadE UsbGadget)).
Implicit Types (t u : nat) (σ : state) (tr : history).
#[local] Abbreviation allowed := gadget_allowed.
#[local] Abbreviation safe := (safe allowed inv answered).
#[local] Abbreviation stable := (stable allowed inv).
#[local] Abbreviation session_prop := (history → history → state → Prop).

(** * Requests *)
Ltac easy_now := split; [done|]; intros ? ? ? ?; simpl; auto.

(** A chain of easy calls. *)
Ltac owned_run := repeat
  lazymatch goal with
  | |- owned (mbind _ _) _ => apply owned_bind
  | |- owned (call _) _ => apply owned_call; [easy_now|intros ? _]
  | |- owned (mret _) _ => simpl
  | |- owned (write _ _) _ => apply owned_call; [easy_now|intros ? _]
  | |- owned (if ?b then _ else _) _ => destruct b
  end.

Section request.
Variables (t : nat) (f : Z).
#[local] Abbreviation session := (in_session t (Some f)).

Lemma write_owned content path : owned (write content path) (λ _, True).
Proof using Type. by owned_run. Qed.

Lemma close_fd_owned fd : owned (close_fd fd) (λ _, True).
Proof using Type. unfold close_fd. by owned_run. Qed.

Lemma unlinkFunctions_owned : owned (unlinkFunctions CONFIG_PATH) (λ _, True).
Proof using Type.
  unfold unlinkFunctions. apply owned_bind, owned_call; [easy_now|]. intros [names|] Hn; [|done].
  apply owned_bind. apply (owned_mono _ (λ _, True)); [|intros r _; by owned_run].
  specialize (Hn eq_refl). simpl in Hn. generalize CONFIG_PATH, Hn. clear Hn. intros path Hn.
  generalize 0. induction Hn as [|name names Hf _ IH]; intros ret; cbn [unlink_loop];
    [done|].
  case_bool_decide; [apply IH|]. rewrite bool_decide_false.
  - apply owned_bind, owned_call; [easy_now|]. intros r _. case_bool_decide; [done|apply IH].
  - unfold fits in Hf. rewrite !size_app. change (size "/") with 1. lia.
Qed.

(** [require]: the part, or ERROR. *)
Lemma require_safe R (Q : Status → state → Prop) (p : prog gadE UsbGadget bool) k σ :
  robust t R → owned p (λ _, True) → session R σ →
  (∀ σ', session R σ' → safe t k Q σ') → (∀ σ', session R σ' → Q ERROR σ') →
  safe t (require p k) Q σ.
Proof.
  intros HR Hp Hσ Hk HQ. unfold require. eapply owned_then; [exact HR|exact Hσ|exact Hp|].
  intros [] σ' _ Hσ'; [by apply Hk|]. by eapply request_ret.
Qed.

(** After a stop, no monitor is left. *)
Lemma stop_monitor_safe σ : session orderly σ → safe t stop_monitor (λ _, session alone) σ.
Proof.
  intros Hσ. pose proof (robust_orderly t) as Hro. unfold stop_monitor.
  eapply (safe_get allowed inv answered _ _ (session orderly)); [by apply request_stable|done|].
  intros σ1 H1 _.
  assert (monitor_ok (fields σ1)) as Hm by (destruct H1 as (_ & _ & pre & post & _ & _ & [? _ _]); done).
  unfold monitor_ok in Hm. destruct (mMonitorCreated (fields σ1)) eqn:Hcr.
  2: { apply (request_ret t (Some f) alone); [apply robust_alone| |done].
    eapply session_mono; [|exact H1]. intros pre post _ [M N J]. split_and!; [|done|done].
    intros u [?|Hu]%J; [done|]. unfold joinable in Hm. by rewrite Hu in Hm. }
  set (z0 := mMonitor (fields σ1)).
  set (R := both orderly (λ _ _ σ, mMonitor (fields σ) = z0)).
  assert (robust t R) as HR.
  { apply robust_both; [done|]. intros pre post σ' σ'' u e Hh Ht Ha He Hu Hz.
    destruct (request_step u e σ' σ'' Ha He) as (_ & -> & _); [by eapply not_mine|done]. }
  assert (session R σ1) as H1' by (eapply session_mono; [|exact H1]; by split).
  apply (easy_safe t (Some f) _ _ R); [easy_now|done|done|]. intros n σ2 _ H2.
  unfold joinable in Hm. destruct (mMonitor (fields σ1)) as [[z|]|] eqn:Hz; try done.
  eapply (safe_ask allowed inv answered inv_step); [done|apply (request_stable t (Some f) R HR)|exact H2|].
  intros σ3 x σ4 H3 _ _ Hx He. simpl in Hx. unfold expected in Hx. simpl in Hx. subst x.
  pose proof H3 as (Hh & Hf & pre & post & Ht & Hn & [[M N J] Hz3]).
  destruct (N z Hz3) as (u & -> & Hu). split; [by split; [|exists u]|]. intros _. cbn.
  set (A := λ (_ _ : history) σ, no_monitor σ).
  assert (session A σ4) as H4.
  { eapply (session_event t (Some f) (Some f) _ _ t); [exact H3|exact He|..].
    - pose proof (emit_held _ _ _ _ He) as Hl. by injection Hl as <-.
    - by rewrite (emit_fields _ _ _ _ He).
    - intros _. not_unlock.
    - intros pre' post' Ht' [[M' N' J'] Hz'] v. rewrite (emit_trace _ _ _ _ He).
      rewrite spawned_app, joined_app. intros [Hv|[w Hw%list_elem_of_singleton]]; [|discriminate Hw].
      destruct (J' v Hv) as [?|Hv']; [by left|right]. rewrite Hz' in Hv'.
      injection Hv' as Hv'%Nat2Z.inj. subst v. exists t, (Asked (Entry (JoinMonitor (Z.of_nat u)) false)).
      split; [by apply list_elem_of_singleton|done]. }
  assert (robust t A) as HA.
  { intros pre' post' σ' σ'' v e Hh' Ht' Ha' He' Hv Hno w Hw. eapply joined_step; [done|].
    apply Hno. by apply (spawned_step w v e σ' σ'' Ha' He' (not_mine _ _ _ _ Hh' Hv)). }
  apply (request_modify t (Some f) (Some f) _ _ A alone); [done|done|done|done| |].
  - intros pre' post' σ' Ht' Hno. split; [by right|]. split; [by left|].
    intros σ'' e _ Htr -> Hfi. split_and!; [|by rewrite Hfi|by rewrite Hfi].
    by apply (no_monitor_quiet _ _ _ _ Htr).
  - intros σ5 H5. apply (request_ret t (Some f) alone); [apply robust_alone|done|done].
Qed.

Definition torn (st : Status) : session_prop := if decide (st = SUCCESS) then alone else orderly.

(** A change of the fields that a monitor would read, when there is none. *)
Lemma alone_modify {B} R (g : UsbGadget → UsbGadget) (k : unit → prog gadE UsbGadget B) Q σ :
  robust t R → (∀ pre post σ, R pre post σ → alone pre post σ) →
  (∀ s, mCurrentUsbFunctions (g s) = mCurrentUsbFunctions s ∧ gadgetPullup (g s) = gadgetPullup s ∧
    joinable (g s) = joinable s ∧ mMonitorCreated (g s) = mMonitorCreated s) →
  (∀ pre post σ' σ'' e, R pre post σ' → held σ'' = held σ' →
    trace σ'' = trace σ' ++ [(t, e)] → e = Wrote (fields σ') (g (fields σ')) →
    fields σ'' = g (fields σ') → alone pre (post ++ [(t, e)]) σ'' →
    R pre (post ++ [(t, e)]) σ'') →
  session R σ → (∀ σ', session R σ' → safe t (k ()) Q σ') → safe t (modify g ≫= k) Q σ.
Proof.
  intros HR Halone Hg HR' Hσ Hk.
  apply (request_modify t (Some f) (Some f) g k R R); [done|done| |done| |done].
  { intros s <-. apply Hg. }
  intros pre post σ' Ht HRp. pose proof (Halone _ _ _ HRp) as (Hno & Hj & Hc).
  destruct (Hg (fields σ')) as (_ & Hp & Hj' & Hc').
  split; [by right|]. split; [by left|]. intros σ'' e Hh Htr He Hfi. apply (HR' pre post σ'); try done.
  split_and!; [|by rewrite Hfi, Hj'|by rewrite Hfi, Hc'].
  subst e. by apply (no_monitor_quiet _ _ _ _ Htr).
Qed.

Lemma tearDownGadget_safe σ :
  session orderly σ → safe t tearDownGadget (λ st, session (torn st)) σ.
Proof.
  intros Hσ. pose proof (robust_orderly t) as Hro. pose proof (robust_alone t) as Hra.
  assert (∀ σ', session orderly σ' → session (torn ERROR) σ') as Herr by done.
  unfold tearDownGadget. eapply owned_then; [exact Hro|exact Hσ|apply write_owned|].
  clear σ Hσ. intros _ σ _ Hσ.
  do 4 (apply (require_safe orderly); [done|apply write_owned|exact Hσ| |done];
    clear σ Hσ; intros σ Hσ).
  apply (require_safe orderly); [done| |exact Hσ| |done].
  { apply owned_bind. eapply owned_mono; [apply unlinkFunctions_owned|done]. }
  clear σ Hσ. intros σ Hσ. apply safe_bind.
  eapply safe_mono; [by apply stop_monitor_safe|]. clear σ Hσ. intros [] σ Hσ.
  eapply request_get; [exact Hra|exact Hσ|]. clear σ Hσ. intros σ Hσ.
  do 3 (eapply owned_then; [exact Hra|exact Hσ|apply close_fd_owned|]; clear Hσ;
    intros _ ? _ Hσ).
  apply (alone_modify alone); [done|done|done|done|exact Hσ|]. intros σ1 H1.
  apply (alone_modify alone); [done|done|done|done|exact H1|]. intros σ2 H2.
  apply (request_ret t (Some f) alone); done.
Qed.

(** * Reports *)
Definition may_report (st : Status) : session_prop := λ _ post _,
  st = SUCCESS → f = NONE ∨ ∃ u, pulled_by u post ∧ (u = t ∨ spawned u post).

Lemma report_set_safe {B} R cb st (k : bool → prog gadE UsbGadget B) Q σ :
  robust t R → session R σ → (∀ pre post σ, R pre post σ → may_report st pre post σ) →
  (∀ x σ', session R σ' → safe t (k x) Q σ') →
  safe t (call (Cb_setCurrentUsbFunctions cb f st) ≫= k) Q σ.
Proof.
  intros HR Hσ Hst Hk. apply (session_ask t (Some f) _ _ R (λ _, R)); [done| |done|done|done|].
  - intros σ' x (Hh & Hf & pre & post & Ht & Hn & HRp). split_and!; [done|done|].
    exists pre, post. split_and!; [done|done|]. by eapply Hst.
  - intros x σ' _. apply Hk.
Qed.

Lemma notify_set_safe R callback st σ :
  robust t R → session R σ → (∀ pre post σ, R pre post σ → may_report st pre post σ) →
  safe t (notify_set callback f st) (λ _, session R) σ.
Proof.
  intros HR Hσ Hst. destruct callback as [cb|]; [|by apply (request_ret t (Some f) R)].
  apply (report_set_safe R); [done..|]. intros x σ' Hσ'. by apply (request_ret t (Some f) R).
Qed.

Lemma error_report st pre post σ : st ≠ SUCCESS → may_report st pre post σ.
Proof using Type. intros Hst ?. done. Qed.

(** [goto error], or on. *)
Lemma or_error_safe callback p k σ (R : Status → session_prop) :
  (∀ st, robust t (R st)) → (∀ st pre post σ, R st pre post σ → orderly pre post σ) →
  safe t p (λ st, session (R st)) σ →
  (∀ σ', session (R SUCCESS) σ' → safe t k (λ _, session orderly) σ') →
  safe t (or_error callback f p k) (λ _, session orderly) σ.
Proof.
  intros HR Hor Hp Hk. unfold or_error. apply safe_bind. eapply safe_mono; [exact Hp|].
  intros st σ' Hσ'. case_bool_decide as Hst.
  - eapply safe_mono; [apply (notify_set_safe (R st)); [done|done|]|].
    + intros pre post σ'' _. by apply error_report.
    + intros [] σ''. apply session_mono. intros pre post _. apply Hor.
  - apply Hk. by destruct (decide (st = SUCCESS)) as [<-|].
Qed.

(** * Vendor, product and links *)
Lemma getVendorFunctions_owned : owned getVendorFunctions (λ _, True).
Proof using Type. unfold getVendorFunctions. by owned_run. Qed.

Lemma require_owned p k :
  owned p (λ _, True) → owned k (λ _, True) → owned (require p k) (λ _, True).
Proof using Type.
  intros Hp Hk. unfold require. apply owned_bind. eapply owned_mono; [exact Hp|].
  by intros [] _.
Qed.

Lemma setVidPid_owned vid pid : owned (setVidPid vid pid) (λ _, True).
Proof using Type. by do 2 (apply require_owned; [apply write_owned|]). Qed.

Lemma vendor_cases_owned v cases pid : owned (vendor_cases v cases pid) (λ _, True).
Proof using Type.
  induction cases as [|[v' pid'] cases IH]; cbn [vendor_cases].
  - destruct (negb _); [done|]. apply setVidPid_owned.
  - case_bool_decide; [apply setVidPid_owned|exact IH].
Qed.

Lemma validate_owned : owned (validateAndSetVidPid f) (λ _, True).
Proof using Type.
  unfold validateAndSetVidPid. apply owned_bind.
  eapply owned_mono; [apply getVendorFunctions_owned|]. intros v _.
  repeat (case_bool_decide; [first [apply vendor_cases_owned|apply setVidPid_owned]|]). done.
Qed.

Lemma linkFunction_owned function i : owned (linkFunction function i) (λ _, True).
Proof using Type. unfold linkFunction. by owned_run. Qed.

#[local] Abbreviation LA := (locked t alone).
#[local] Abbreviation LO := (locked t orderly).
#[local] Abbreviation ends p σ := (safe t (p : setup) (λ _, session LO) σ).

Lemma robust_LA : robust t LA.
Proof using Type. apply robust_locked, robust_alone. Qed.
Lemma robust_LO : robust t LO.
Proof using Type. apply robust_locked, robust_orderly. Qed.

Lemma LA_LO σ : session LA σ → session LO σ.
Proof using Type.
  apply session_mono. intros pre post _ [Hl Ha]. split; [done|]. by apply alone_orderly.
Qed.

Lemma require_setup_safe p (k : setup) σ :
  owned p (λ _, True) → session LA σ → (∀ σ', session LA σ' → ends k σ') →
  ends (require_setup p k) σ.
Proof.
  intros Hp Hσ Hk. unfold require_setup.
  eapply owned_then; [apply robust_LA|exact Hσ|exact Hp|].
  intros [] σ' _ Hσ'; [by apply Hk|]. eapply request_ret; [apply robust_LA|exact Hσ'|].
  intros. by apply LA_LO.
Qed.

Lemma link_part_safe wanted function i (k : Z → setup) σ :
  session LA σ → (∀ i σ', session LA σ' → ends (k i) σ') → ends (link_part wanted function i k) σ.
Proof.
  intros Hσ Hk. unfold link_part. destruct wanted; [|by apply Hk].
  apply require_setup_safe; [apply linkFunction_owned|done|]. intros σ'. apply Hk.
Qed.

Lemma vendor_part_safe tokens i (k : Z → setup) σ :
  session LA σ → (∀ i σ', session LA σ' → ends (k i) σ') → ends (vendor_part tokens i k) σ.
Proof.
  intros Hσ Hk. revert i σ Hσ. induction tokens as [|function tokens IH]; intros i σ Hσ;
    cbn [vendor_part]; [by apply Hk|].
  do 3 (apply link_part_safe; [done|]; clear σ Hσ; intros ? σ Hσ). by apply IH.
Qed.

Lemma ffs_part_safe fd name eps i (k : Z → setup) σ :
  session LA σ → (∀ i σ', session LA σ' → ends (k i) σ') → ends (ffs_part fd name eps i k) σ.
Proof.
  intros Hσ Hk. unfold ffs_part.
  apply require_setup_safe; [apply write_owned|done|]. clear σ Hσ. intros σ Hσ.
  apply require_setup_safe; [by owned_run|done|]. clear σ Hσ. intros σ Hσ.
  apply require_setup_safe; [apply linkFunction_owned|done|]. clear σ Hσ. intros σ Hσ.
  apply (alone_modify LA); [apply robust_LA|by intros ??? [_ ?]|done| |done|intros σ' Hσ'; by apply Hk].
  intros pre post σ1 σ2 e [Hl _] Hh _ _ _ Ha. split; [by rewrite Hh|done].
Qed.

Lemma link_functions_safe fd (k : bool → setup) σ :
  session LA σ → (∀ b σ', session LA σ' → ends (k b) σ') → ends (link_functions fd f k) σ.
Proof.
  intros Hσ Hk. unfold link_functions.
  assert (∀ b i σ, session LA σ → ends (
    link_part (has f MIDI) "midi.gs5" i (λ i,
    link_part (has f ACCESSORY) "accessory.gs2" i (λ i,
    link_part (has f AUDIO_SOURCE) "audio_source.gs3" i (λ i,
    link_part (has f RNDIS) "rndis.gs4" i (λ i,
      vendorFunctions ← getVendorFunctions;
      vendor_part (strtok_all "," (c_str vendorFunctions)) i (λ i,
      if has f ADB then
        ffs_part fd "adb" ["/dev/usb-ffs/adb/ep1"; "/dev/usb-ffs/adb/ep2"] i (λ _, k true)
      else k b)))))) σ) as Hrest.
  { clear σ Hσ. intros b i σ Hσ.
    do 4 (apply link_part_safe; [done|]; clear σ Hσ; intros ? σ Hσ).
    eapply owned_then; [apply robust_LA|exact Hσ|apply getVendorFunctions_owned|].
    clear σ Hσ. intros v σ _ Hσ. apply vendor_part_safe; [done|]. clear σ Hσ. intros j σ Hσ.
    destruct (has f ADB); [|by apply Hk]. apply ffs_part_safe; [done|]. intros _ σ'. apply Hk. }
  destruct (has f MTP); [|destruct (has f PTP)].
  - apply ffs_part_safe; [done|]. intros i σ'. apply Hrest.
  - apply ffs_part_safe; [done|]. intros i σ'. apply Hrest.
  - by apply Hrest.
Qed.

(** * Pulling up *)
Lemma pull_up_safe R σ :
  robust t R → session R σ →
  safe t pull_up (λ ok : bool, session (if ok then both R (mine_pulled t) else R)) σ.
Proof.
  intros HR Hσ. unfold pull_up.
  set (got := λ name : string, both R (λ _ post _,
    (t, Asked (Entry (GetProperty "sys.usb.controller" "") name)) ∈ post)).
  assert (∀ name, robust t (got name)) as Hgot.
  { intros name. apply robust_both; [done|]. intros pre post σ' σ'' u e _ _ _ _ _ Hin.
    apply elem_of_app. by left. }
  apply (session_ask t (Some f) _ _ R got); [done|done|done|done| |].
  { intros pre post σ' name σ'' _ _ _ HRp. split; [done|]. apply elem_of_app. right.
    by apply list_elem_of_singleton. }
  clear σ Hσ. intros name σ _ Hσ.
  change (write name PULLUP_PATH) with
    (call (WriteStringToFile name PULLUP_PATH) ≫= (mret : bool → prog gadE UsbGadget bool)).
  apply (session_ask t (Some f) _ _ (got name)
    (λ ok : bool, if ok then both R (mine_pulled t) else R)); [done| |done|done| |].
  - intros σ' x (Hh & _). by left.
  - intros pre post σ' [] σ'' [_ Hin] _ _ [HRp _]; [|done]. split; [done|].
    exists name. by apply precedes_snoc.
  - intros ok σ' _ Hσ'. apply (request_ret t (Some f) (if ok then both R (mine_pulled t) else R));
      [|done..]. destruct ok; [|done]. apply robust_both; [done|apply robust_pulled].
Qed.

Lemma pull_up_now_safe callback σ : session LA σ → ends (pull_up_now f callback) σ.
Proof.
  intros Hσ. unfold pull_up_now, require_setup. apply safe_bind.
  eapply safe_mono; [apply (pull_up_safe LA); [apply robust_LA|done]|].
  clear σ Hσ. intros [] σ Hσ.
  2: { eapply request_ret; [apply robust_LA|exact Hσ|]. intros. by apply LA_LO. }
  assert (robust t (both LA (mine_pulled t))) as HR
    by (apply robust_both; [apply robust_LA|apply robust_pulled]).
  apply (alone_modify (both LA (mine_pulled t))); [done|by intros ??? [[_ ?] _]|done| |done|].
  { intros pre post σ1 σ2 e [[Hl _] Hp] Hh _ _ _ Ha. split; [split; [by rewrite Hh|done]|].
    by apply pulled_by_snoc. }
  clear σ Hσ. intros σ Hσ. apply safe_bind.
  eapply safe_mono; [apply (notify_set_safe (both LA (mine_pulled t))); [done|exact Hσ|]|].
  { intros pre post σ' [_ Hp] _. right. exists t. split; [exact Hp|by left]. }
  clear σ Hσ. intros [] σ Hσ. eapply request_ret; [exact HR|exact Hσ|].
  intros σ' Hσ'. apply LA_LO. by eapply session_mono; [|exact Hσ']; intros ??? [? _].
Qed.

(** * The monitor is created, and waited for *)
Definition watched : session_prop := locked t (both orderly raised).

Lemma robust_watched : robust t watched.
Proof using Type.
  apply robust_locked, robust_both; [apply robust_orderly|apply robust_raised].
Qed.

Lemma start_monitor_safe σ :
  session (locked t (both alone raised)) σ → safe t start_monitor (λ _, session watched) σ.
Proof.
  intros Hσ. unfold start_monitor.
  assert (robust t (locked t (both alone raised))) as HR
    by (apply robust_locked, robust_both; [apply robust_alone|apply robust_raised]).
  assert (∀ x, robust t (locked t (both (launched x) raised))) as HR'
    by (intros x; apply robust_locked, robust_both; [apply robust_launched|apply robust_raised]).
  eapply (safe_ask allowed inv answered inv_step); [done|by apply request_stable|exact Hσ|].
  clear σ Hσ. intros σ1 x σ2 H1 _ _ Hx He.
  pose proof H1 as (Hh & _ & _ & _ & _ & _ & _ & [(Hno & _ & _) _]). split; [done|]. intros _.
  destruct Hx as [[u ->]|Hx]; [|done]. unfold id in *.
  assert (session (locked t (both (launched (Z.of_nat u)) raised)) σ2) as H2.
  { pose proof (emit_held _ _ _ _ He) as Hl. injection Hl as Hl.
    pose proof (emit_trace _ _ _ _ He) as Ht2. pose proof (emit_fields _ _ _ _ He) as Hf2.
    eapply (session_event t (Some f) (Some f) _ _ t); [exact H1|exact He|..].
    - by rewrite <- Hl.
    - rewrite Hf2. apply H1.
    - intros _. not_unlock.
    - intros pre post Ht [Hlock [(Hno1 & Hj & Hc) Hr]].
      split; [by rewrite <- Hl|]. split; [|by eapply raised_quiet; [|rewrite Hf2|]].
      exists u. rewrite Hf2. split_and!; [done| | |done|done].
      + exists t. apply elem_of_app. right. by apply list_elem_of_singleton.
      + intros v. rewrite Ht2, spawned_app, joined_app.
        intros [Hv|[w Hw%list_elem_of_singleton]]; [left; left; by apply Hno1|right].
        apply (f_equal created) in Hw. injection Hw as Hw. by apply Nat2Z.inj in Hw. }
  clear σ1 H1 Hh Hno He.
  eapply request_get; [apply HR'|exact H2|]. clear σ2 H2. intros σ Hσ.
  pose proof Hσ as (_ & _ & _ & _ & _ & _ & _ & [(v & Hv & _ & _ & Hj & _) _]).
  unfold joinable in Hj.
  assert (safe t (modify (set_monitor (Some (Some (Z.of_nat u))) true)) (λ _, session watched) σ)
    as Hm; [|by destruct (mMonitor (fields σ)) as [[z|]|]].
  clear v Hv Hj.
  change (modify (set_monitor (Some (Some (Z.of_nat u))) true)) with
    (modify (set_monitor (Some (Some (Z.of_nat u))) true) ≫=
      (mret : unit → prog gadE UsbGadget unit)).
  apply (request_modify t (Some f) (Some f) _ _ (locked t (both (launched (Z.of_nat u)) raised)) watched);
    [apply HR'|done|done|done| |].
  - intros pre post σ1 Ht [Hlock [(v & Hv & Hs & Hall & _ & _) Hr]]. apply Nat2Z.inj in Hv as <-.
    split; [by left|]. split; [by left|]. intros σ2 e Hh2 Ht2 He2 Hf2.
    split; [by rewrite Hh2|]. split; [|by eapply raised_quiet; [|rewrite Hf2|]]. subst e.
    split; rewrite Hf2; cbn.
    + done.
    + intros z [= <-]. exists u. split; [done|]. rewrite Ht2, Ht. apply spawned_app. left.
      apply spawned_app. right. destruct Hs as [w Hw]. exists w. by right.
    + intros w. rewrite Ht2, spawned_app, joined_app.
      intros [Hw|[x Hw%list_elem_of_singleton]]; [|discriminate Hw].
      destruct (Hall w Hw) as [?| ->]; [by left; left|by right].
  - intros σ' Hσ'. eapply request_ret; [apply robust_watched|exact Hσ'|done].
Qed.

Lemma robust_may_report st : robust t (may_report st).
Proof using Type.
  intros pre post σ σ' u e _ _ _ _ _ HR Hst. destruct (HR Hst) as [?|(v & Hp & Hv)]; [by left|right].
  exists v. split; [by apply pulled_by_snoc|]. destruct Hv as [->|?]; [by left|right].
  apply spawned_app. by left.
Qed.

(** While the thread waits, it does not hold [mLock]. *)
Lemma wait_safe {B} ms (k : bool → prog gadE UsbGadget B) Q σ :
  session watched σ → (∀ σ', session watched σ' → safe t (k false) Q σ') →
  safe t (call (WaitFor ms) ≫= k) Q σ.
Proof.
  intros Hσ Hk.
  assert (robust t (both orderly raised)) as HR
    by (apply robust_both; [apply robust_orderly|apply robust_raised]).
  assert (∀ R R' e σ σ', session R σ → emit t e σ = Some σ' →
    (e = Slept (WaitFor ms) ∨ e = Asked (Entry (WaitFor ms) false)) →
    (∀ pre post, R pre post σ → orderly pre post σ ∧ raised pre post σ) →
    (∀ pre post, both orderly raised pre post σ' → R' pre post σ') → session R' σ') as Hevent.
  { clear σ Hσ. intros R R' e σ σ' Hσ He Hwait HRo HR'. pose proof Hσ as (Hh & Hf & _).
    pose proof (emit_fields _ _ _ _ He) as Hf'.
    assert (fields σ' = fields σ) as Hf2 by (rewrite Hf'; by destruct Hwait as [-> | ->]).
    eapply (session_event t (Some f) (Some f) _ _ t); [exact Hσ|exact He| |by rewrite Hf2| |].
    - apply emit_held in He.
      destruct Hwait as [-> | ->]; [apply give_lock_spec in He as [_ ->]|apply take_lock_spec in He as [_ ->]];
        exact Hh.
    - intros _. destruct Hwait as [-> | ->]; not_unlock.
    - intros pre post _ [Ho Hr]%HRo. apply emit_trace in He. apply HR'. split.
      + apply (settled_quiet t e σ); [done..| |done]. by destruct Hwait as [-> | ->].
      + apply (raised_quiet pre post t e σ); [done| |done]. by rewrite Hf2. }
  eapply (safe_wait allowed inv answered inv_step _ _ _ (λ _ _, false) (session watched)
    (session (both orderly raised))); [done| | |exact Hσ|..].
  - apply request_stable, robust_watched.
  - by apply request_stable.
  - intros σ1 σ2 H1 _ He. split; [done|].
    eapply (Hevent watched); [exact H1|exact He|by left|by intros ?? [_ ?]|done].
  - intros σ1 b σ2 H1 _ x He. subst x. split; [done|]. intros _. apply Hk.
    eapply (Hevent (both orderly raised)); [exact H1|exact He|by right|by intros ?? ?|].
    intros pre post Hor. split; [|done]. apply emit_held in He.
    apply take_lock_spec in He as [_ ->]. apply own_take. by left.
Qed.

Lemma monitored_safe callback timeout σ :
  session LA σ → safe t (monitored f callback timeout) (λ _, session LO) σ.
Proof.
  intros Hσ. unfold monitored. pose proof robust_LA as HLA.
  assert (∀ σ', session watched σ' → session LO σ') as Hend.
  { intros σ'. apply session_mono. by intros pre post _ [? [? _]]. }
  apply (request_modify t (Some f) (Some f) _ _ LA (locked t (both alone raised)));
    [done|exact Hσ|done|done| |].
  { intros pre post σ' Ht [Hl (Hno & Hj & Hc)]. split; [by left|]. split; [by right|].
    intros σ'' e Hh Htr He Hf. subst e. split; [by rewrite Hh|]. split.
    - split_and!; [|by rewrite Hf..]. by apply (no_monitor_quiet _ _ _ _ Htr).
    - split; [|by rewrite Hf]. intros v Hv. rewrite Htr. apply joined_snoc, Hno.
      rewrite Ht. apply spawned_app. by left. }
  clear σ Hσ. intros σ Hσ. apply safe_bind.
  eapply safe_mono; [by apply start_monitor_safe|]. clear σ Hσ. intros [] σ Hσ.
  destruct callback as [cb|]; [|eapply request_ret; [apply robust_watched|exact Hσ|auto]].
  apply wait_safe; [done|]. clear σ Hσ. intros σ Hσ.
  eapply request_get; [apply robust_watched|exact Hσ|]. clear σ Hσ. intros σ Hσ.
  set (st := if gadgetPullup (fields σ) then SUCCESS else ERROR).
  set (R := both LO (may_report st)).
  assert (robust t R) as HR by (apply robust_both; [apply robust_LO|apply robust_may_report]).
  apply (report_set_safe R).
  - exact HR.
  - eapply session_mono; [|exact Hσ]. intros pre post _ [Hl [Ho [_ Hup]]]. split; [by split|].
    unfold st. destruct (gadgetPullup (fields σ)); intros Hst; [right|done].
    destruct (Hup eq_refl) as (v & Hv & Hp). exists v. auto.
  - by intros ??? [_ ?].
  - intros _ σ' Hσ'. eapply request_ret; [exact HR|exact Hσ'|].
    intros σ''. apply session_mono. by intros ??? [? _].
Qed.

(** ** The descriptors *)
Lemma move_fds_safe a b c σ :
  session LA σ → safe t (move_fds a b c) (λ _, session LA) σ.
Proof.
  intros Hσ. unfold move_fds. pose proof robust_LA as HLA.
  eapply request_get; [exact HLA|exact Hσ|]. clear Hσ. intros ? Hσ.
  do 3 (eapply owned_then; [exact HLA|exact Hσ|apply close_fd_owned|]; clear Hσ; intros _ ? _ Hσ).
  change (modify (set_fds a b c)) with
    (modify (set_fds a b c) ≫= (mret : unit → prog gadE UsbGadget unit)).
  apply (alone_modify LA); [done|by intros ??? [_ ?]|done| |exact Hσ|].
  - intros pre post σ1 σ2 e [Hl _] Hh _ _ _ Ha. split; [by rewrite Hh|done].
  - intros σ2 H2. by eapply request_ret; [exact HLA|exact H2|].
Qed.

Lemma scoped_safe {B} fd (body : prog gadE UsbGadget (B * bool)) σ :
  safe t body (λ _, session LO) σ → safe t (scoped fd body) (λ _, session LO) σ.
Proof.
  intros Hb. unfold scoped. apply safe_bind. eapply safe_mono; [exact Hb|].
  clear σ Hb. intros [b moved] σ Hσ.
  eapply owned_then; [apply robust_LO|exact Hσ| |].
  - instantiate (1 := λ _, True). destruct moved; [done|apply close_fd_owned].
  - intros _ σ' _ Hσ'. by eapply request_ret; [apply robust_LO|exact Hσ'|].
Qed.

Lemma setup_monitor_safe inotifyFd callback timeout σ :
  session LA σ → ends (setup_monitor inotifyFd f callback timeout) σ.
Proof.
  intros Hσ. unfold setup_monitor. pose proof robust_LA as HLA.
  assert (∀ B (b : B) σ, session LA σ → safe t (mret b) (λ _, session LO) σ) as Hret.
  { intros B b σ' Hσ'. eapply request_ret; [exact HLA|exact Hσ'|]. intros. by apply LA_LO. }
  eapply easy_safe; [easy_now|exact HLA|exact Hσ|]. clear σ Hσ. intros eventFd σ _ Hσ.
  apply scoped_safe. case_bool_decide; [by apply Hret|].
  eapply easy_safe; [easy_now|exact HLA|exact Hσ|]. clear σ Hσ. intros epollFd σ _ Hσ.
  apply scoped_safe. case_bool_decide; [by apply Hret|].
  do 2 (eapply easy_safe; [easy_now|exact HLA|exact Hσ|]; clear σ Hσ; intros ? σ _ Hσ;
    case_bool_decide; [by apply Hret|]).
  apply safe_bind. eapply safe_mono; [by apply move_fds_safe|]. clear σ Hσ. intros [] σ Hσ.
  apply safe_bind. eapply safe_mono; [by apply monitored_safe|]. clear σ Hσ. intros st σ Hσ.
  by eapply request_ret; [apply robust_LO|exact Hσ|].
Qed.

(** [mLock] is taken and given back. *)
Lemma lock_safe {B} (k : unit → prog gadE UsbGadget B) Q σ :
  session alone σ → (∀ σ', session LA σ' → safe t (k tt) Q σ') → safe t (call Lock ≫= k) Q σ.
Proof.
  intros Hσ Hk.
  eapply (safe_call allowed inv answered inv_step);
    [done|apply request_stable, robust_alone|exact Hσ|].
  intros σ1 [] σ2 H1 _ He. split; [done|]. intros _. apply Hk. pose proof H1 as (Hh & Hf & _).
  pose proof (emit_held _ _ _ _ He) as Hl. apply take_lock_spec in Hl as [_ Hl].
  pose proof (emit_fields _ _ _ _ He) as Hf2.
  eapply (session_event t (Some f) (Some f) _ _ t); [exact H1|exact He|..].
  - by rewrite Hl.
  - by rewrite Hf2.
  - intros _. not_unlock.
  - intros pre post _ (Hno & Hj & Hc). split; [rewrite Hl; apply own_take; by left|].
    split_and!; [|by rewrite Hf2..]. by eapply no_monitor_quiet; [by eapply emit_trace|..].
Qed.

Lemma unlock_safe {B} (k : unit → prog gadE UsbGadget B) Q σ :
  session LO σ → (∀ σ', session orderly σ' → safe t (k tt) Q σ') →
  safe t (call Unlock ≫= k) Q σ.
Proof.
  intros Hσ Hk.
  eapply (safe_call allowed inv answered inv_step);
    [done|apply request_stable, robust_LO|exact Hσ|].
  intros σ1 [] σ2 H1 _ He. split; [done|]. intros _. apply Hk. pose proof H1 as (Hh & Hf & _).
  pose proof (emit_held _ _ _ _ He) as Hl. apply give_lock_spec in Hl as [_ Hl].
  pose proof (emit_fields _ _ _ _ He) as Hf2.
  eapply (session_event t (Some f) (Some f) _ _ t); [exact H1|exact He|..].
  - by rewrite Hl.
  - by rewrite Hf2.
  - intros _. not_unlock.
  - intros pre post _ [_ Ho]. by eapply settled_quiet; [by eapply emit_trace| | |exact Ho].
Qed.

Lemma setupFunctions_safe callback timeout σ :
  session alone σ → safe t (setupFunctions f callback timeout) (λ _, session orderly) σ.
Proof.
  intros Hσ. unfold setupFunctions. pose proof robust_LA as HLA.
  apply lock_safe; [done|]. clear σ Hσ. intros σ Hσ.
  eapply easy_safe; [easy_now|exact HLA|exact Hσ|]. clear σ Hσ. intros inotifyFd σ _ Hσ.
  apply safe_bind. eapply safe_mono; [apply scoped_safe|].
  - case_bool_decide.
    { eapply request_ret; [exact HLA|exact Hσ|]. intros. by apply LA_LO. }
    eapply easy_safe; [easy_now|exact HLA|exact Hσ|]. clear σ Hσ. intros bootMode σ _ Hσ.
    apply link_functions_safe; [done|]. clear σ Hσ. intros [] σ Hσ; cbn [negb].
    + by apply setup_monitor_safe.
    + by apply pull_up_now_safe.
  - clear σ Hσ. intros st σ Hσ. apply unlock_safe; [done|]. clear σ Hσ. intros σ Hσ.
    by eapply request_ret; [apply robust_orderly|exact Hσ|].
Qed.

(** A change of the fields that keeps the monitor. *)
Lemma orderly_modify {B} f0 f1 (g : UsbGadget → UsbGadget) (k : unit → prog gadE UsbGadget B) Q σ :
  in_session t f0 orderly σ → (f0 ≠ None → f1 ≠ None) →
  (∀ s, mCurrentUsbFunctions s = f0 → mCurrentUsbFunctions (g s) = f1) →
  (∀ s, same_setup s (g s) ∧ gadgetPullup (g s) = gadgetPullup s ∧
    mMonitor (g s) = mMonitor s ∧ mMonitorCreated (g s) = mMonitorCreated s) →
  (∀ σ', in_session t f1 orderly σ' → safe t (k ()) Q σ') → safe t (modify g ≫= k) Q σ.
Proof.
  intros Hσ H01 Hf Hg Hk. pose proof (robust_orderly t) as Hro.
  apply (request_modify t f0 f1 g k orderly orderly); [done|done|done|done| |done].
  intros pre post σ1 Ht [M N J]. destruct (Hg (fields σ1)) as (Hs & Hp & Hm & Hc).
  split; [by left|]. split; [by left|]. intros σ2 e _ Htr He Hf2.
  split; rewrite Hf2.
  - unfold monitor_ok, joinable in *. by rewrite Hc, Hm.
  - rewrite Hm. intros z (u & -> & Hu)%N. exists u. split; [done|]. rewrite Htr.
    apply spawned_app. by left.
  - intros u. rewrite Htr, spawned_app, joined_app, Hm.
    intros [[?|?]%J|[w Hw%list_elem_of_singleton]]; [by left; left|by right|by subst e].
Qed.

(** The mutex of requests is free: nobody is in the middle of one. *)
Lemma enter_safe {B} (k : unit → prog gadE UsbGadget B) Q σ :
  (∀ σ' f0, in_session t f0 orderly σ' → safe t (k tt) Q σ') →
  safe t (call LockSetCurrentFunction ≫= k) Q σ.
Proof.
  intros Hk.
  eapply (safe_call allowed inv answered inv_step _ _ _ (λ _, True)); [done|done|done|].
  intros σ1 [] σ2 _ [_ Hset] He. split; [done|]. intros _.
  pose proof (emit_held _ _ _ _ He) as Hl. apply take_lock_spec in Hl as [Hno Hl].
  apply (Hk σ2 (mCurrentUsbFunctions (fields σ2))). split; [rewrite Hl; apply own_take; by left|].
  split; [done|]. exists (trace σ1), []. split_and!; [by apply (emit_trace _ _ _ _ He)| |].
  - by apply not_elem_of_nil.
  - eapply settled_quiet; [by eapply emit_trace|by apply (emit_fields _ _ _ _ He)|done|].
    by apply Hset.
Qed.

Lemma setCurrentUsbFunctions_safe callback timeout σ :
  safe t (setCurrentUsbFunctions f callback timeout) (λ _ _, True) σ.
Proof.
  pose proof (robust_orderly t) as Hro. pose proof (robust_alone t) as Hra.
  unfold setCurrentUsbFunctions. apply enter_safe. clear σ. intros σ f0 Hσ.
  apply (orderly_modify f0 (Some f)); [done|done|done|done|]. clear σ f0 Hσ. intros σ Hσ.
  apply (orderly_modify (Some f) (Some f)); [done|done|done|done|]. clear σ Hσ. intros σ Hσ.
  apply safe_bind. eapply safe_mono.
  - apply (or_error_safe _ _ _ _ torn).
    + intros st. unfold torn. by case_decide.
    + intros st pre post σ'. unfold torn. case_decide; [apply alone_orderly|done].
    + by apply tearDownGadget_safe.
    + clear σ Hσ. intros σ Hσ.
      eapply easy_safe; [easy_now|exact Hra|exact Hσ|]. clear σ Hσ. intros _ σ _ Hσ.
      assert (∀ σ', session alone σ' → session orderly σ') as Hao
        by (intros σ'; apply session_mono; intros; by apply alone_orderly).
      case_bool_decide as Hnone.
      { eapply safe_mono; [apply (notify_set_safe alone); [done|exact Hσ|]|].
        - intros pre post σ' _ _. by left.
        - intros [] σ'. apply Hao. }
      apply (or_error_safe _ _ _ _ (λ _, alone)); [done|intros; by apply alone_orderly| |].
      { eapply safe_mono; [by apply (safe_owned t (Some f) _ alone (λ _, True)), validate_owned|].
        by intros st σ' [_ ?]. }
      clear σ Hσ. intros σ Hσ.
      apply (or_error_safe _ _ _ _ (λ _, orderly)); [done|done|by apply setupFunctions_safe|].
      clear σ Hσ. intros σ Hσ. by eapply request_ret; [exact Hro|exact Hσ|].
  - clear σ Hσ. intros [] σ Hσ.
    apply (safe_call_last allowed inv answered t _ (session orderly)); [done| |exact Hσ|done|].
    + by apply request_stable.
    + intros σ1 x σ2 (_ & _ & pre & post & _ & _ & Ho) _ _. by split.
Qed.
End request.
End threads.
