(* ===== verification/UsbGadgetSafe.v ===== *)
(** The monitor keeps to the protocol of the USB gadget HAL's threads; and so
    do all threads together. *)
From S2P Require Import Prelude Effects CppString UsbGadget UsbGadgetFacts UsbMonitor Threads ThreadsLogic UsbGadgetThreads UsbGadgetThreadsFacts UsbGadgetRequests.
From stdpp Require Import options.
#[local] Set Default Proof Using "Type*".

Section threads.
Context {GC : GadgetConsts} {MF : MonitorFuel} {SB : SetBefore}.
#[local] Abbreviation state := (shared gadE gadget_mutex UsbGadget).
#[local] Abbreviation history := (list (nat * event gadE UsbGadget)).
Implicit Types (t u : nat) (σ : state) (tr : history).
#[local] Abbreviation allowed := gadget_allowed.
#[local] Abbreviation safe := (safe allowed inv answered).
#[local] Abbreviation stable := (stable allowed inv).

(** * The monitor *)
Section monitor.
Variable t : nat.

(** A statement about the history that stays true. *)
Definition lasting (P : history → Prop) : Prop := ∀ tr x, P tr → P (tr ++ [x]).

Lemma lasting_stable P : lasting P → stable t (λ σ, P (trace σ)).
Proof using Type. intros HP σ σ' u e _ _ Hσ _ He. rewrite (emit_trace _ _ _ _ He). by apply HP. Qed.

Definition begun (tr : history) : Prop := spawned t tr.

(** It has read the name of the controller. *)
Definition knows (name : string) (tr : history) : Prop :=
  ∃ v pre post, tr = pre ++ (v, Asked (Entry SpawnMonitor (Z.of_nat t))) :: post ∧
    (t, Asked (Entry (GetProperty "sys.usb.controller" "") name)) ∈ post.

Lemma lasting_begun : lasting begun.
Proof using Type. intros tr x Hb. apply spawned_app. by left. Qed.

Lemma lasting_knows name : lasting (knows name).
Proof using Type.
  intros tr x (v & pre & post & -> & Hin). exists v, pre, (post ++ [x]).
  split; [by rewrite <- app_assoc|]. apply elem_of_app. by left.
Qed.

Lemma lasting_pulled : lasting (pulled_since_spawn t).
Proof using Type. intros tr x. apply pulled_since_app. Qed.

Lemma pulled_begun tr : pulled_since_spawn t tr → begun tr.
Proof using Type.
  intros (v & pre & post & -> & _). exists v. apply elem_of_app. right. by left.
Qed.

Lemma knows_begun name tr : knows name tr → begun tr.
Proof using Type.
  intros (v & pre & post & -> & _). exists v. apply elem_of_app. right. by left.
Qed.

Lemma monitor_ask {B X} (c : gadE X) (k : X → prog gadE UsbGadget B) P (P' : X → history → Prop) Q σ :
  wait_of c = None → lasting P →
  (∀ σ' x, P (trace σ') → alive t σ' → allowed σ' t (Asked (Entry c x))) →
  (∀ tr x, P tr → P' x (tr ++ [(t, Asked (Entry c x))])) → P (trace σ) →
  (∀ x σ', expected answered c x → P' x (trace σ') → safe t (k x) Q σ') →
  safe t (call c ≫= k) Q σ.
Proof.
  intros Hw HP Ha HP' Hσ Hk.
  eapply (safe_ask allowed inv answered inv_step); [done|by apply lasting_stable|exact Hσ|].
  intros σ1 x σ2 H1 _ Hl Hx He. split; [by apply Ha|]. intros _. apply Hk; [done|].
  rewrite (emit_trace _ _ _ _ He). by apply HP'.
Qed.

(** A call that needs nothing and tells nothing. *)
Lemma monitor_call {B X} (c : gadE X) (k : X → prog gadE UsbGadget B) P Q σ :
  wait_of c = None → lasting P → (∀ σ' x, allowed σ' t (Asked (Entry c x))) → P (trace σ) →
  (∀ x σ', expected answered c x → P (trace σ') → safe t (k x) Q σ') →
  safe t (call c ≫= k) Q σ.
Proof.
  intros Hw HP Ha Hσ Hk. apply (monitor_ask c k P (λ _, P)); [done|done|by intros|by intros; apply HP|done..].
Qed.

#[local] Abbreviation runs p σ := (safe t p (λ _ σ', begun (trace σ')) σ).

Lemma monitor_ret {B} (b : B) σ : begun (trace σ) → runs (mret b : prog gadE UsbGadget B) σ.
Proof.
  intros Hσ. eapply (safe_ret allowed inv answered t b (λ σ, begun (trace σ))); [|exact Hσ|done].
  apply lasting_stable, lasting_begun.
Qed.

Lemma all_readable_runs eps σ : begun (trace σ) → runs (all_readable eps) σ.
Proof.
  revert σ. induction eps as [|ep eps IH]; intros σ Hσ; cbn [all_readable]; [by apply monitor_ret|].
  eapply monitor_call; [done|apply lasting_begun|done|exact Hσ|].
  clear σ Hσ. intros [] σ _ Hσ; [by apply IH|by apply monitor_ret].
Qed.

Lemma descriptor_present_runs σ : begun (trace σ) → runs descriptor_present σ.
Proof.
  intros Hσ. unfold descriptor_present.
  eapply (safe_get allowed inv answered _ _ (λ σ, begun (trace σ)));
    [apply lasting_stable, lasting_begun|exact Hσ|].
  intros σ' Hσ' _. by apply all_readable_runs.
Qed.

(** A thread with [mLock], whose history shows [P]. *)
Lemma holding_stable P : lasting P → stable t (λ σ, held σ mLock = Some t ∧ P (trace σ)).
Proof using Type.
  intros HP. apply stable_and; [|by apply lasting_stable].
  intros σ σ' u e Hu _ Hh _ He. by eapply held_stable.
Qed.

(** The write under [mLock]; the monitor tells of a pull-up that it has made. *)
Lemma monitor_modify {B} (g : UsbGadget → UsbGadget) (k : unit → prog gadE UsbGadget B) Q σ :
  (∀ s, same_request s (g s)) →
  held σ mLock = Some t → pulled_since_spawn t (trace σ) →
  (∀ σ', held σ' mLock = Some t → pulled_since_spawn t (trace σ') → safe t (k ()) Q σ') →
  safe t (modify g ≫= k) Q σ.
Proof.
  intros Hg Hh Hp Hk.
  eapply (safe_write allowed inv answered inv_step);
    [apply holding_stable, lasting_pulled|by split|].
  clear σ Hh Hp. intros σ1 σ2 [Hh Hp] _ Hl He. pose proof (Hg (fields σ1)) as (Hs & _ & _ & Hf).
  assert (monitoring t σ1) as Hm by (split; [by apply pulled_begun|done]).
  pose proof (emit_held _ _ _ _ He) as Hl2. injection Hl2 as Hl2. split.
  - split; [done|]. split; [by right|]. split; [by rewrite Hf|]. split; [by left|]. by right.
  - intros _. apply Hk; [by rewrite <- Hl2|]. rewrite (emit_trace _ _ _ _ He).
    by apply lasting_pulled.
Qed.

Lemma monitor_pull_up_runs σ : begun (trace σ) → runs monitor_pull_up σ.
Proof.
  intros Hσ. unfold monitor_pull_up. apply safe_bind. unfold pull_up.
  apply (monitor_ask _ _ begun knows); [done|apply lasting_begun|done| |exact Hσ|].
  { intros tr name [v (pre & post & ->)%list_elem_of_split].
    exists v, pre, (post ++ [(t, Asked (Entry (GetProperty "sys.usb.controller" "") name))]).
    rewrite <- app_assoc. split; [done|]. apply elem_of_app. right. by apply list_elem_of_singleton. }
  clear σ Hσ. intros name σ _ Hσ.
  change (write name PULLUP_PATH) with
    (call (WriteStringToFile name PULLUP_PATH) ≫= (mret : bool → prog gadE UsbGadget bool)).
  set (P := λ ok : bool, if ok then pulled_since_spawn t else begun).
  assert (∀ ok, lasting (P ok)) as HP by (intros []; [apply lasting_pulled|apply lasting_begun]).
  apply (monitor_ask _ _ (knows name) P); [done|apply lasting_knows| | |exact Hσ|].
  { intros σ' x Hk Hl. right. split; [done|]. right. split; [by eapply knows_begun|done]. }
  { intros tr [] Hk; [|by eapply lasting_begun, knows_begun].
    destruct Hk as (v & pre & post & -> & Hin).
    exists v, pre, (post ++ [(t, Asked (Entry (WriteStringToFile name PULLUP_PATH) true))]).
    rewrite <- app_assoc. split; [done|]. exists name. by apply precedes_snoc. }
  clear σ Hσ. intros ok σ _ Hσ.
  eapply (safe_ret allowed inv answered t ok (λ σ, P ok (trace σ))); [by apply lasting_stable|done|].
  clear σ Hσ. intros σ Hσ _. destruct ok; [|by apply monitor_ret].
  eapply (safe_call allowed inv answered inv_step); [done|apply lasting_stable, lasting_pulled|exact Hσ|].
  clear σ Hσ. intros σ1 [] σ2 H1 _ He. split; [done|]. intros _.
  pose proof (emit_held _ _ _ _ He) as Hl. apply take_lock_spec in Hl as [_ Hl].
  apply monitor_modify; [done|by rewrite Hl; apply own_take; left| |].
  { rewrite (emit_trace _ _ _ _ He). by apply lasting_pulled. }
  clear σ1 σ2 H1 He Hl. intros σ Hh Hp.
  apply monitor_modify; [done..|]. clear σ Hh Hp. intros σ _ Hσ%pulled_begun.
  do 2 (eapply monitor_call; [done|apply lasting_begun|done|exact Hσ|];
    clear σ Hσ; intros [] σ _ Hσ).
  by apply monitor_ret.
Qed.

Lemma monitor_bind {B C} (p : prog gadE UsbGadget B) (k : B → prog gadE UsbGadget C) σ :
  runs p σ → (∀ b σ', begun (trace σ') → runs (k b) σ') → runs (p ≫= k) σ.
Proof. intros Hp Hk. apply safe_bind. eapply safe_mono; [exact Hp|]. intros b σ'. apply Hk. Qed.

Lemma monitor_simple {B X} (c : gadE X) (k : X → prog gadE UsbGadget B) σ :
  wait_of c = None → (∀ σ' x, allowed σ' t (Asked (Entry c x))) → begun (trace σ) →
  (∀ x σ', expected answered c x → begun (trace σ') → runs (k x) σ') → runs (call c ≫= k) σ.
Proof. intros Hw Ha Hσ Hk. eapply monitor_call; [done|apply lasting_begun|done|exact Hσ|exact Hk]. Qed.

Lemma monitor_get {B} (k : UsbGadget → prog gadE UsbGadget B) σ :
  begun (trace σ) → (∀ s σ', begun (trace σ') → runs (k s) σ') → runs (get ≫= k) σ.
Proof.
  intros Hσ Hk. eapply (safe_get allowed inv answered _ _ (λ σ, begun (trace σ)));
    [apply lasting_stable, lasting_begun|exact Hσ|]. intros σ' Hσ' _. by apply Hk.
Qed.

Lemma inotify_event_runs m σ : begun (trace σ) → runs (inotify_event m) σ.
Proof.
  intros Hσ. unfold inotify_event.
  apply monitor_bind; [by apply descriptor_present_runs|]. clear σ Hσ. intros present σ Hσ.
  destruct (negb present && negb (writeUdc m)); [|destruct (present && writeUdc m)].
  - apply monitor_simple; [done..|]. clear σ Hσ. intros now σ _ Hσ. by apply monitor_ret.
  - apply monitor_simple; [done..|]. clear σ Hσ. intros now σ _ Hσ. apply monitor_bind.
    { case_bool_decide; [|by apply monitor_ret].
      change (call (Usleep PULL_UP_DELAY)) with
        (call (Usleep PULL_UP_DELAY) ≫= (mret : unit → prog gadE UsbGadget unit)).
      apply monitor_simple; [done..|]. clear σ Hσ. intros x σ _ Hσ. by apply monitor_ret. }
    clear σ Hσ. intros _ σ Hσ. apply monitor_bind; [by apply monitor_pull_up_runs|].
    clear σ Hσ. intros w σ Hσ. by apply monitor_ret.
  - by apply monitor_ret.
Qed.

Lemma inotify_events_runs lens m σ : begun (trace σ) → runs (inotify_events lens m) σ.
Proof.
  revert m σ. induction lens as [|len lens IH]; intros m σ Hσ; cbn [inotify_events];
    [by apply monitor_ret|].
  apply monitor_bind; [by apply inotify_event_runs|]. intros m' σ'. apply IH.
Qed.

Lemma monitor_event_runs fd m σ : begun (trace σ) → runs (monitor_event fd m) σ.
Proof.
  intros Hσ. unfold monitor_event. apply monitor_get; [done|]. clear σ Hσ. intros s σ Hσ.
  case_bool_decide; (apply monitor_simple; [done..|]); clear σ Hσ; intros x σ Hx Hσ.
  - by apply inotify_events_runs.
  - destruct x as [flag|]; [by apply monitor_ret|done].
Qed.

Lemma monitor_loop_runs n m σ : begun (trace σ) → runs (monitor_loop n m) σ.
Proof.
  assert (∀ fds m σ, begun (trace σ) → runs (monitor_events fds m) σ) as Hevents.
  { induction fds as [|fd fds IH]; intros m' σ' Hσ'; cbn [monitor_events]; [by apply monitor_ret|].
    apply monitor_bind; [by apply monitor_event_runs|]. intros m2 σ2 H2.
    destruct (stopMonitor m2); [by apply monitor_ret|by apply IH]. }
  revert m σ. induction n as [|n IH]; intros m σ Hσ; cbn [monitor_loop];
    destruct (stopMonitor m); try by apply monitor_ret.
  apply monitor_get; [done|]. clear σ Hσ. intros s σ Hσ.
  apply monitor_simple; [done..|]. clear σ Hσ. intros events σ _ Hσ.
  apply monitor_bind; [by apply Hevents|]. intros m' σ'. apply IH.
Qed.

Lemma monitor_thread_runs n σ : begun (trace σ) → runs (monitor_thread n) σ.
Proof.
  intros Hσ. unfold monitor_thread. apply monitor_bind.
  - unfold monitorFfs. apply monitor_bind; [by apply descriptor_present_runs|].
    clear σ Hσ. intros present σ Hσ. apply monitor_bind.
    + destruct present; [|by apply monitor_ret]. apply monitor_simple; [done..|].
      clear σ Hσ. intros x σ _ Hσ. by apply monitor_pull_up_runs.
    + clear σ Hσ. intros w σ Hσ. by apply monitor_loop_runs.
  - clear σ Hσ. intros r σ Hσ. by apply monitor_ret.
Qed.
End monitor.

(** * All together *)

Lemma write_none_safe t σ : safe t reset (λ _ _, True) σ.
Proof.
  unfold reset, require, write.
  eapply (safe_call allowed inv answered inv_step _ _ _ (λ _, True)); [done|done|done|].
  intros σ1 ok σ2 _ _ _. split; [by right; split; [|left]|]. intros _.
  by destruct ok; eapply (safe_ret allowed inv answered _ _ (λ _, True)).
Qed.

Lemma getCurrentUsbFunctions_safe t cb σ :
  set_before = true → safe t (getCurrentUsbFunctions (Some cb)) (λ _ _, True) σ.
Proof.
  intros Hset. unfold getCurrentUsbFunctions.
  eapply (safe_get allowed inv answered _ _ (λ _, True)); [done|done|]. intros σ1 _ [Hf _].
  destruct (mCurrentUsbFunctions (fields σ1)) as [f|]; [|by specialize (Hf Hset)].
  eapply (safe_call allowed inv answered inv_step _ _ _ (λ _, True)); [done|done|done|].
  intros σ2 x σ3 _ _ _. split; [done|]. intros _.
  by eapply (safe_ret allowed inv answered _ _ (λ _, True)).
Qed.

(** Between requests, before any. *)
Lemma settled_start s : mMonitorCreated s = false → joinable s = false →
  settled (Shared s (λ _, None) []).
Proof using Type.
  intros Hc Hj. split; simpl.
  - unfold monitor_ok. by rewrite Hc, Hj.
  - unfold joinable in Hj. intros z Hz. by rewrite Hz in Hj.
  - intros u [v Hv]. by apply not_elem_of_nil in Hv.
Qed.
End threads.

Section pool.
Context {GC : GadgetConsts} {MF : MonitorFuel}.

(** What runs in a binder thread; the functions are asked for only when they have
    been set before. *)
Inductive gadget_thread (s : UsbGadget) : prog gadE UsbGadget (option unit) → Prop :=
| th_setCurrent functions callback timeout :
    gadget_thread s (setCurrentUsbFunctions functions callback timeout ;; mret (Some ()))
| th_getCurrent cb : mCurrentUsbFunctions s ≠ None →
    gadget_thread s (getCurrentUsbFunctions (Some cb) ;; mret (Some ()))
| th_reset : gadget_thread s (_ ← reset; mret (Some ())).

Context {W : Type} {H : Handler gadE W}.

Definition spawn_answer {X} (op : sync gadE gadget_mutex UsbGadget (option unit) X)
    : option (Z → X) :=
  match op in sync _ _ _ _ X return option (Z → X) with
  | Spawn _ answer _ => Some answer
  | _ => None
  end.

(** Documented: eight bytes are read from an eventfd that is readable; and the
    names in the configuration directory are short. *)
Definition gadget_env : Prop :=
  (∀ w, Forall (fits CONFIG_PATH) (default [] (handle (OpenDir CONFIG_PATH) w).1)) ∧
  (∀ fd w, (handle (ReadFlag fd) w).1 ≠ None).

Lemma gadget_answered {X} (c : gadE X) w :
  gadget_env → sync_of c = None → answered X c (handle c w).1.
Proof using Type. intros [Hdir Hflag] _. destruct c; try done; [intros ->; apply Hdir|apply Hflag]. Qed.

(** What is created are monitors. *)
Lemma gadget_spawn {SB : SetBefore} {X} (c : gadE X) body answer failed :
  sync_of c = Some (Spawn body answer failed) →
  ∀ t u σ, inv σ → (u, Asked (Entry c (answer (Z.of_nat t)))) ∈ trace σ →
    safe gadget_allowed inv answered t body (λ _ _, True) σ.
Proof using Type.
  intros Hsync. destruct c; try discriminate Hsync.
  pose proof (f_equal (mbind spawn_answer) Hsync) as Ha. injection Ha as <-.
  injection Hsync as <-. intros t u σ _ Hin.
  eapply safe_mono; [apply monitor_thread_runs|done]. by exists u.
Qed.

Definition begins (s : UsbGadget) : SetBefore := bool_decide (mCurrentUsbFunctions s ≠ None).

Lemma gadget_inv s :
  mMonitorCreated s = false → joinable s = false → inv (SB:=begins s) (Shared s (λ _, None) []).
Proof using Type.
  intros Hcr Hj. split; [by intros Hb%bool_decide_eq_true|]. intros _. by apply settled_start.
Qed.

Lemma gadget_thread_safe s t p σ :
  gadget_thread s p → safe gadget_allowed (inv (SB:=begins s)) answered t p (λ _ _, True) σ.
Proof using Type.
  destruct 1 as [f cb timeout|cb Hset|]; apply safe_bind.
  - eapply safe_mono; [apply setCurrentUsbFunctions_safe|]. by intros ?? _ ?.
  - eapply safe_mono; [apply getCurrentUsbFunctions_safe|]; [by apply bool_decide_eq_true|].
    by intros ?? _ ?.
  - eapply safe_mono; [apply write_none_safe|]. by intros ?? _ ?.
Qed.

End pool.
