(* ===== verification/UsbGadgetProgress.v ===== *)
(** The threads of the USB gadget HAL are never stuck: the mutex of requests is
    taken before [mLock], and only requests join, holding no more than theirs,
    and only monitors. *)
From S2P Require Import Prelude Effects CppString UsbGadget UsbGadgetFacts UsbMonitor Threads ThreadsLogic ThreadsProgress UsbGadgetThreads UsbGadgetThreadsFacts UsbGadgetRequests UsbGadgetSafe.
From stdpp Require Import options.
#[local] Set Default Proof Using "Type*".

Section threads.
Context {GC : GadgetConsts} {MF : MonitorFuel}.

Definition gadget_rank (m : gadget_mutex) : nat := if m is mLock then 1 else 0.

#[local] Abbreviation io B := (prog gadE UsbGadget B).

Section ordered.
Variable leaf : bool.
#[local] Abbreviation ordered_to := (ordered_to gadget_rank 1 leaf).
#[local] Abbreviation ordered := (ordered gadget_rank 1 (.= Some ()) leaf).

(** The program takes and gives back nothing, whatever it holds. *)
#[local] Abbreviation plain p := (∀ L, ordered_to p L (λ _ L', L' = L)).

#[local] Ltac holding_run :=
  cbn [holding sync_of gadget_sync];
  repeat match goal with
    | |- context [filter ?f ?l] =>
        let v := eval vm_compute in (filter f l) in change (filter f l) with v
    end.
#[local] Ltac ordered_step := ordered_step_with ltac:(no_rank) ltac:(holding_run).
#[local] Ltac ordered_run := repeat ordered_step.

Lemma plain_then {B C} (p : io B) (k : B → io C) L Q :
  plain p → (∀ b, ordered_to (k b) L Q) → ordered_to (p ≫= k) L Q.
Proof using Type.
  intros Hp Hk. apply ordered_bind. eapply ordered_mono; [apply Hp|]. by intros b L' ->.
Qed.

Lemma write_plain content path : plain (write content path).
Proof using Type. done. Qed.

Lemma close_fd_plain fd : plain (close_fd fd).
Proof using Type. intros L. unfold close_fd. by case_bool_decide. Qed.

Lemma unlinkFunctions_plain path : plain (unlinkFunctions path).
Proof using Type.
  intros L. unfold unlinkFunctions. ordered_step. ordered_step. destruct x as [names|]; [|done].
  apply plain_then; [|by intros r; ordered_run]. clear L. intros L. generalize 0.
  induction names as [|name names IH]; intros ret; cbn [unlink_loop]; [done|].
  case_bool_decide; [apply IH|]. case_bool_decide; [done|]. ordered_run; [done|apply IH].
Qed.

Lemma require_plain p k : plain p → plain k → plain (require p k).
Proof using Type. intros Hp Hk L. unfold require. apply plain_then; [done|]. by intros []. Qed.

Lemma getVendorFunctions_plain : plain getVendorFunctions.
Proof using Type. intros L. unfold getVendorFunctions. by ordered_run. Qed.

Lemma setVidPid_plain vid pid : plain (setVidPid vid pid).
Proof using Type. by do 2 (apply require_plain; [apply write_plain|]). Qed.

Lemma validate_plain functions : plain (validateAndSetVidPid functions).
Proof using Type.
  assert (∀ v cases pid, plain (vendor_cases v cases pid)) as Hcases.
  { intros v cases pid. induction cases as [|[v' pid'] cases IH]; intros L; cbn [vendor_cases].
    - destruct (negb _); [done|]. apply setVidPid_plain.
    - case_bool_decide; [apply setVidPid_plain|apply IH]. }
  intros L. unfold validateAndSetVidPid. apply plain_then; [apply getVendorFunctions_plain|].
  intros v. repeat (case_bool_decide; [first [apply Hcases|apply setVidPid_plain]|]). done.
Qed.

Lemma linkFunction_plain function i : plain (linkFunction function i).
Proof using Type. intros L. unfold linkFunction. by ordered_run. Qed.

Lemma notify_plain callback functions st : plain (notify_set callback functions st).
Proof using Type. intros L. by destruct callback. Qed.

(** ** The monitor *)
#[local] Abbreviation free p := (ordered_to p [] (λ _ L, L = [])).

Lemma free_then {B C} (p : io B) (k : B → io C) : free p → (∀ b, free (k b)) → free (p ≫= k).
Proof using Type.
  intros Hp Hk. apply ordered_bind. eapply ordered_mono; [exact Hp|]. by intros b L ->.
Qed.

Lemma descriptor_present_plain : plain descriptor_present.
Proof using Type.
  intros L. unfold descriptor_present. ordered_step. ordered_step.
  induction (mEndpointList s) as [|ep eps IH]; cbn [all_readable]; [done|]. by ordered_run.
Qed.

Lemma monitor_pull_up_free : free monitor_pull_up.
Proof using Type.
  unfold monitor_pull_up, pull_up, write. ordered_run; try done; [|left].
  split; [done|]. by intros m ?%not_elem_of_nil.
Qed.

Lemma monitor_loop_free n m : free (monitor_loop n m).
Proof using Type.
  assert (∀ lens m, free (inotify_events lens m)) as Hinotify.
  { intros lens. induction lens as [|len lens IH]; intros m'; cbn [inotify_events]; [done|].
    apply free_then; [|apply IH]. unfold inotify_event.
    apply plain_then; [apply descriptor_present_plain|]. intros b.
    destruct (negb b && negb (writeUdc m')); [by ordered_run|].
    destruct (b && writeUdc m'); [|done]. ordered_step. ordered_step.
    apply free_then; [by case_bool_decide|]. intros []. by apply free_then; [apply monitor_pull_up_free|]. }
  assert (∀ fds m, free (monitor_events fds m)) as Hevents.
  { intros fds. induction fds as [|fd fds IH]; intros m'; cbn [monitor_events]; [done|].
    apply free_then; [|intros m2; by destruct (stopMonitor m2)]. unfold monitor_event.
    ordered_step. ordered_step. case_bool_decide; ordered_step; ordered_step; [apply Hinotify|].
    by destruct x. }
  revert m. induction n as [|n IH]; intros m; cbn [monitor_loop]; destruct (stopMonitor m); try done.
  do 4 ordered_step. by apply free_then.
Qed.

Lemma monitor_thread_ordered n : ordered (monitor_thread n) [].
Proof using Type.
  unfold ThreadsProgress.ordered, monitor_thread, monitorFfs. apply ordered_bind.
  apply (ordered_mono _ _ _ _ _ (λ _ L, L = [])); [|by intros r L ->].
  apply plain_then; [apply descriptor_present_plain|]. intros b. apply free_then.
  - destruct b; [|done]. ordered_step. ordered_step. apply monitor_pull_up_free.
  - intros w. apply monitor_loop_free.
Qed.

(** ** Requests *)
Hypothesis not_leaf : leaf = false.
#[local] Abbreviation setting := [mLockSetCurrentFunction].
#[local] Abbreviation locked := [mLock; mLockSetCurrentFunction].

Lemma tearDownGadget_ordered : ordered_to tearDownGadget setting (λ _ L, L = setting).
Proof using not_leaf.
  assert (∀ p k, plain p → ordered_to k setting (λ _ L, L = setting) →
    ordered_to (require p k) setting (λ _ L, L = setting)) as Hreq.
  { intros p k Hp Hk. unfold require. apply plain_then; [done|]. by intros []. }
  unfold tearDownGadget. apply plain_then; [apply write_plain|]. intros _.
  do 4 (apply Hreq; [apply write_plain|]).
  apply Hreq; [intros L; by apply plain_then; [apply unlinkFunctions_plain|]|].
  apply ordered_bind. apply (ordered_mono _ _ _ _ _ (λ _ L, L = setting)).
  - unfold stop_monitor. ordered_run; try done.
    split; [done|]. intros m ->%list_elem_of_singleton. simpl. lia.
  - intros [] L ->. ordered_step. ordered_step.
    do 3 (apply plain_then; [apply close_fd_plain|]; intros _). by ordered_run.
Qed.

Lemma link_part_ordered wanted function i (k : Z → setup) L (Q : Status * bool → list gadget_mutex → Prop) :
  (∀ r, Q r L) → (∀ i, ordered_to (k i) L Q) → ordered_to (link_part wanted function i k) L Q.
Proof using Type.
  intros HQ Hk. unfold link_part, require_setup. destruct wanted; [|apply Hk].
  apply plain_then; [apply linkFunction_plain|]. intros []; [apply Hk|apply HQ].
Qed.

Lemma ffs_part_ordered fd name eps i (k : Z → setup) L (Q : Status * bool → list gadget_mutex → Prop) :
  (∀ r, Q r L) → (∀ i, ordered_to (k i) L Q) → ordered_to (ffs_part fd name eps i k) L Q.
Proof using Type.
  intros HQ Hk. unfold ffs_part, require_setup.
  apply plain_then; [apply write_plain|]. intros []; [|apply HQ].
  apply plain_then; [by intros L'; ordered_run|]. intros []; [|apply HQ].
  apply plain_then; [apply linkFunction_plain|]. intros []; [|apply HQ]. ordered_step. ordered_step. apply Hk.
Qed.

Lemma link_functions_ordered fd functions (k : bool → setup) L
    (Q : Status * bool → list gadget_mutex → Prop) :
  (∀ r, Q r L) → (∀ b, ordered_to (k b) L Q) → ordered_to (link_functions fd functions k) L Q.
Proof using Type.
  intros HQ Hk.
  assert (∀ tokens i (k : Z → setup), (∀ i, ordered_to (k i) L Q) →
    ordered_to (vendor_part tokens i k) L Q) as Hvendor.
  { intros tokens. induction tokens as [|function tokens IH]; intros i k' Hk'; cbn [vendor_part];
      [apply Hk'|]. do 3 (apply link_part_ordered; [done|intros ?]). by apply IH. }
  assert (∀ b i, ordered_to (
    link_part (has functions MIDI) "midi.gs5" i (λ i,
    link_part (has functions ACCESSORY) "accessory.gs2" i (λ i,
    link_part (has functions AUDIO_SOURCE) "audio_source.gs3" i (λ i,
    link_part (has functions RNDIS) "rndis.gs4" i (λ i,
      vendorFunctions ← getVendorFunctions;
      vendor_part (strtok_all "," (c_str vendorFunctions)) i (λ i,
      if has functions ADB then
        ffs_part fd "adb" ["/dev/usb-ffs/adb/ep1"; "/dev/usb-ffs/adb/ep2"] i (λ _, k true)
      else k b)))))) L Q) as Hrest.
  { intros b i. do 4 (apply link_part_ordered; [done|intros ?]).
    apply plain_then; [apply getVendorFunctions_plain|]. intros v. apply Hvendor. intros j.
    destruct (has functions ADB); [|apply Hk]. apply ffs_part_ordered; [done|]. intros _. apply Hk. }
  unfold link_functions. destruct (has functions MTP); [|destruct (has functions PTP)].
  - apply ffs_part_ordered; [done|apply Hrest].
  - apply ffs_part_ordered; [done|apply Hrest].
  - apply Hrest.
Qed.

Lemma scoped_ordered {B} fd (body : io (B * bool)) L :
  ordered_to body L (λ _ L', L' = L) → ordered_to (scoped fd body) L (λ _ L', L' = L).
Proof using Type.
  intros Hb. unfold scoped. apply ordered_bind. eapply ordered_mono; [exact Hb|].
  intros [b moved] L' ->. destruct moved; [done|]. by apply plain_then; [apply close_fd_plain|].
Qed.

Lemma monitored_ordered functions callback timeout :
  ordered_to (monitored functions callback timeout) locked (λ _ L, L = locked).
Proof using Type.
  unfold monitored, start_monitor. ordered_run; try done.
  all: split; [left|]; intros m Hm Hne; elem_of_cases Hm; [done|simpl; lia].
Qed.

Lemma setup_monitor_ordered fd functions callback timeout :
  ordered_to (setup_monitor fd functions callback timeout) locked (λ _ L, L = locked).
Proof using Type.
  unfold setup_monitor. ordered_step. ordered_step. apply scoped_ordered.
  case_bool_decide; [done|]. ordered_step. ordered_step. apply scoped_ordered.
  case_bool_decide; [done|]. do 2 (ordered_step; ordered_step; case_bool_decide; [done|]).
  apply ordered_bind. apply (ordered_mono _ _ _ _ _ (λ _ L, L = locked)).
  - unfold move_fds. ordered_step. ordered_step.
    by do 3 (apply plain_then; [apply close_fd_plain|]; intros _).
  - intros [] L ->. apply ordered_bind. eapply ordered_mono; [apply monitored_ordered|].
    by intros st L ->.
Qed.

Lemma setupFunctions_ordered functions callback timeout :
  ordered_to (setupFunctions functions callback timeout) setting (λ _ L, L = setting).
Proof using not_leaf.
  unfold setupFunctions. apply ordered_bind, ordered_call.
  { split; [simpl; lia|]. intros m ->%list_elem_of_singleton. simpl. lia. }
  intros []. holding_run. ordered_step. ordered_step. apply ordered_bind.
  apply (ordered_mono _ _ _ _ _ (λ _ L, L = locked)).
  - apply scoped_ordered. case_bool_decide; [done|]. ordered_step. ordered_step.
    apply link_functions_ordered; [done|]. intros []; cbn [negb]; [apply setup_monitor_ordered|].
    unfold pull_up_now, require_setup, pull_up, write. ordered_run; try done.
    eapply ordered_mono; [apply notify_plain|by intros [] L ->].
  - intros st L ->. ordered_run; [left|done].
Qed.

Lemma setCurrentUsbFunctions_ordered functions callback timeout :
  ordered_to (setCurrentUsbFunctions functions callback timeout) [] (λ _ L, L = []).
Proof using not_leaf.
  unfold setCurrentUsbFunctions. apply ordered_bind, ordered_call.
  { split; [by rewrite not_leaf|]. by intros m ?%not_elem_of_nil. }
  intros []. holding_run. do 4 ordered_step.
  assert (∀ p k, ordered_to p setting (λ _ L, L = setting) → ordered_to k setting (λ _ L, L = setting) →
    ordered_to (or_error callback functions p k) setting (λ _ L, L = setting)) as Hor.
  { intros p k Hp Hk. unfold or_error. apply ordered_bind. eapply ordered_mono; [exact Hp|].
    intros st L ->. case_bool_decide; [apply notify_plain|done]. }
  apply ordered_bind. apply (ordered_mono _ _ _ _ _ (λ _ L, L = setting)).
  - apply Hor; [apply tearDownGadget_ordered|]. ordered_step. ordered_step.
    case_bool_decide; [apply notify_plain|]. apply Hor; [apply validate_plain|].
    by apply Hor; [apply setupFunctions_ordered|].
  - intros [] L ->. ordered_run; [left|done].
Qed.
End ordered.

Lemma gadget_thread_ordered s p :
  gadget_thread s p → ordered gadget_rank 1 (.= Some ()) false p [].
Proof using Type.
  assert (∀ B (p : io B), ordered_to gadget_rank 1 false p [] (λ _ L, L = []) →
    ordered gadget_rank 1 (.= Some ()) false (p ;; mret (Some ())) []) as Hthen.
  { intros B q Hq. apply ordered_bind. eapply ordered_mono; [exact Hq|]. by intros y L ->. }
  destruct 1 as [functions callback timeout|cb _|].
  - by apply Hthen, setCurrentUsbFunctions_ordered.
  - apply Hthen. unfold getCurrentUsbFunctions.
    apply ordered_bind, ordered_get. intros s'. by destruct (mCurrentUsbFunctions s').
  - apply (Hthen _ reset). by apply require_plain.
Qed.

Lemma spawned_ordered X (e : gadE X) body answer failed :
  sync_of e = Some (Spawn body answer failed) → ordered gadget_rank 1 (.= Some ()) true body [].
Proof using Type.
  intros Hsync. destruct e; try discriminate Hsync. injection Hsync as <-.
  apply monitor_thread_ordered.
Qed.

Context {W : Type} {H : Handler gadE W}.

(** Only monitors are joined. *)
Lemma joins_monitors ps s (w : W) c :
  (∀ t p, ps !! t = Some p → gadget_thread s p) → gadget_env →
  mMonitorCreated s = false → joinable s = false → reaches (start ps s w) c →
  ∀ t th z, pool c !! t = Some th → joining th z →
    ∃ u, z = Z.of_nat u ∧ (length ps <= u < length (pool c))%nat.
Proof.
  intros Hps Henv Hcr Hj Hc t th z Ht (X & e & k & x & -> & Hs).
  destruct (reaches_ok gadget_allowed (inv (SB:=begins s)) answered inv_step) with
    (ps := ps) (s := s) (w := w) (c := c) as [Hok _]; [| | | |done|].
  { intros Y e' w'. by apply gadget_answered. }
  { intros Y. apply gadget_spawn. }
  { by apply gadget_inv. }
  { intros t' p Hp. by eapply gadget_thread_safe, Hps. }
  pose proof (join_allowed gadget_allowed inv answered c t e k z x Hok Ht Hs) as Ha.
  destruct e; try discriminate Hs. destruct Ha as (_ & u & -> & v & Hv). injection Hs as <-.
  exists u. split; [done|].
  destruct (reaches_locks gadget_rank 1 (.= Some ()) spawned_ordered (length ps) ps s w c)
    as [_ [_ Hcreated]]; [done| |done|].
  { intros t' p Hp. by eapply gadget_thread_ordered, Hps. }
  destruct (Hcreated _ _ Hv) as (u' & Hu & Hlt). unfold id in Hu. apply Nat2Z.inj in Hu. by subst u'.
Qed.

End threads.
