(* ===== verification/UsbGadgetRaces.v ===== *)
(** Interleavings of the USB gadget HAL's threads ([src/usb/UsbGadget.cpp]): one
    in which all goes well, and one that the mutexes do not exclude.  Each is a
    run of the methods themselves, found by its schedule. *)
From S2P Require Import Prelude Effects CppString UsbGadget UsbGadgetFacts UsbMonitor Threads ThreadsLogic UsbGadgetThreads UsbGadgetThreadsFacts UsbGadgetRequests UsbGadgetSafe ThreadsProgress UsbGadgetProgress.
From stdpp Require Import options.

#[local] Existing Instance gadget_1_0.
#[local] Instance races_fuel : MonitorFuel := 3%nat.

#[local] Abbreviation gadget_config := (config gadE gadget_mutex UsbGadget unit (option unit)).

(** Everything works; the event of a monitor's wait is the flag. *)
#[local] Instance device : Handler gadE unit := λ X c w,
  (match c in gadE X return X with
   | GetProperty key _ => if bool_decide (key = "ro.build.type") then "user" else "musb-hdrc"
   | WriteStringToFile _ _ | AccessReadable _ => true
   | OpenDir _ => Some ["function0"; "strings"]
   | InotifyInit => 5
   | InotifyAddWatch _ _ => 1
   | Eventfd => 6
   | EpollCreate => 7
   | EpollWait _ => Some [6]
   | ReadInotify _ _ => None
   | ReadFlag _ => Some 100
   | WriteFlag _ _ => 8
   | WaitFor _ | JoinMonitor _ => false
   | Cb_setCurrentUsbFunctions _ _ _ | Cb_getCurrentUsbFunctions _ _ _ => true
   | SteadyNow | Remove _ | Mkdir _ _ | Symlink _ _ | EpollCtlAdd _ _ | SpawnMonitor => 0
   | SetProperty _ _ | Usleep _ | CloseDir | CloseFd _ | Lock | Unlock | LockSetCurrentFunction
   | UnlockSetCurrentFunction | NotifyAll => tt
   end, w).

Lemma device_env : gadget_env.
Proof. split; [intros w; repeat constructor|done]. Qed.

Definition request (functions cb : Z) : prog gadE UsbGadget (option unit) :=
  setCurrentUsbFunctions functions (Some cb) 1000 ;; mret (Some ()).
Definition query (cb : Z) : prog gadE UsbGadget (option unit) :=
  getCurrentUsbFunctions (Some cb) ;; mret (Some ()).

(** Functions have been set before. *)
Definition gadget0 : UsbGadget := set_mCurrentUsbFunctions (Some 0) UsbGadget_new.

Definition start3 : gadget_config := start [request 1 7; request 12 8; query 9] gadget0 ().


(** The monitor pulls the gadget up while the request waits. *)
Definition set_in_time : list (nat * bool) := turns 0 38 ++ turns 3 11 ++ turns 0 5.

Lemma start3_threads t p :
  [request 1 7; request 12 8; query 9] !! t = Some p → gadget_thread gadget0 p.
Proof. destruct t as [|[|[|t]]]; intros [= <-]; by constructor. Qed.



(** What is written to pull the gadget up or down. *)
Definition udc_writes (tr : list (nat * event gadE UsbGadget)) : list string :=
  omap (λ '(_, e), match e with
    | Asked (Entry c _) =>
        match c with
        | WriteStringToFile content path =>
            if bool_decide (path = PULLUP_PATH) then Some content else None
        | _ => None
        end
    | _ => None
    end) tr.

(** C33: functions can be called applied that never were: the monitor of an
    earlier request has pulled the gadget up, and is overtaken by a new request,
    which clears [mCurrentUsbFunctionsApplied] before it stops the monitor; the
    monitor then sets the field, and nothing clears it again.  The new request is
    answered with CONFIGURATION_NOT_SUPPORTED; since it began the gadget has only
    been pulled down; and the query afterwards answers FUNCTIONS_APPLIED for its
    functions. *)
Theorem refused_but_applied :
  ∃ (c : gadget_config) before between after,
    reaches start3 c ∧
    trace (now c) = before ++ (1%nat, Asked (Entry LockSetCurrentFunction tt)) :: between ++
      (2%nat, Asked (Entry (Cb_getCurrentUsbFunctions 9 12 FUNCTIONS_APPLIED) true)) :: after ∧
    (1%nat, Asked (Entry (Cb_setCurrentUsbFunctions 8 12 CONFIGURATION_NOT_SUPPORTED) true))
      ∈ between ∧
    udc_writes between = ["none"].
Proof.
  exists (finish (turns 0 43 ++ turns 3 6 ++ turns 1 3 ++ turns 3 5 ++ turns 1 10 ++ turns 3 4 ++
    turns 1 12 ++ turns 2 2) start3).
  do 3 eexists. split; [apply reaches_finish; by vm_compute|].
  split; [apply (splits_at 43 29); by vm_compute|]. split; [|by vm_compute].
  apply (list_elem_of_lookup_2 _ 27). by vm_compute.
Qed.
