(* ===== verification/LibInit.v ===== *)
(** libinit: the device-identity and heap properties set at boot
    ([src/libinit/]).

    The property area of the C library (bionic) is not part of the repository:
    it is the interface [SysProp], with its documented behaviour [SysPropLaws];
    [gmap_sysprop] implements it with a finite map. *)
From S2P Require Import Prelude CppString.
From stdpp Require Import options.

(** * The system-property interface *)
Class SysProp (W : Type) := {
  prop_info : Type;
  system_property_find : string → W → option prop_info;
  system_property_update : prop_info → string → W → W;
  system_property_add : string → string → W → W;
  GetProperty : string → string → W → string;
}.

(** Documented behaviour.  [prop_at k w] is the value a reader of [k] sees; a
    value of [PROP_VALUE_MAX] bytes or more is refused by [update] and [add],
    and the laws say nothing of it. *)
Class SysPropLaws (W : Type) `{!SysProp W} := {
  prop_at : string → W → option string;
  PROP_VALUE_MAX : nat;
  value_max : PROP_VALUE_MAX = 92%nat;
  find_None k w : system_property_find k w = None ↔ prop_at k w = None;
  update_at k k' v pi w :
    system_property_find k w = Some pi → (String.length v < PROP_VALUE_MAX)%nat →
    prop_at k' (system_property_update pi v w) =
      if decide (k' = k) then Some v else prop_at k' w;
  add_at k k' v w :
    prop_at k w = None → (String.length v < PROP_VALUE_MAX)%nat →
    prop_at k' (system_property_add k v w) =
      if decide (k' = k) then Some v else prop_at k' w;
  get_property k d w :
    GetProperty k d w =
      match prop_at k w with
      | Some v => if decide (v = "") then d else v
      | None => d
      end;
}.

#[export] Instance gmap_sysprop : SysProp (gmap string string) := {|
  prop_info := string;
  system_property_find k w := if w !! k is Some _ then Some k else None;
  system_property_update pi v w := <[pi := v]> w;
  system_property_add k v w := <[k := v]> w;
  GetProperty k d w :=
    match w !! k with
    | Some v => if decide (v = "") then d else v
    | None => d
    end;
|}.

#[export] Program Instance gmap_sysprop_laws : SysPropLaws (gmap string string) := {|
  prop_at k w := w !! k;
  PROP_VALUE_MAX := 92%nat;
|}.
Next Obligation. done. Qed.
Next Obligation. intros k w. simpl. by destruct (w !! k). Qed.
Next Obligation.
  intros k k' v pi w Hf _. simpl in *. destruct (w !! k); simplify_eq.
  rewrite lookup_insert. repeat case_decide; congruence.
Qed.
Next Obligation.
  intros k k' v w Hf _. simpl in *. rewrite lookup_insert. repeat case_decide; congruence.
Qed.
Next Obligation. done. Qed.

(** * libinit_utils.cpp *)
Definition ro_props_default_source_order : list string :=
  [ "odm."; "odm_dlkm."; "product."; "system."; "system_ext."; "vendor.";
    "vendor_dlkm."; "" ].

Section utils.
Context {W : Type} `{!SysProp W}.

Definition property_override (prop value : string) (add : bool) (w : W) : W :=
  match system_property_find prop w with
  | Some pi => system_property_update pi value w
  | None => if add then system_property_add prop value w else w
  end.

Definition set_ro_build_prop (prop value : string) (product : bool) (w : W) : W :=
  foldl (λ w source,
    let prop_name :=
      if product then "ro.product." +:+ source +:+ prop
      else "ro." +:+ source +:+ "build." +:+ prop in
    property_override prop_name value true w) w ro_props_default_source_order.
End utils.

(** The macro [FIND_AND_REMOVE(s, delimiter, variable)]: the new variable and
    what is left of [s].  Without the delimiter [find] is [npos], and
    [npos + delimiter.length()] wraps around in [size_t]. *)
Definition FIND_AND_REMOVE (s delimiter : string) : option (string * string) :=
  variable ← substr s 0 (find s delimiter);
  s' ← erase s 0 (to_size (find s delimiter + size delimiter));
  Some (variable, s').

Definition APPEND_STRING (s to_append : string) : string := (s +:+ " ") +:+ to_append.

(** [None] stands for the exception [std::out_of_range]. *)
Definition fingerprint_to_description (fingerprint : string) : option string :=
  let delimiter := "/" in
  let delimiter2 := ":" in
  '(brand, s) ← FIND_AND_REMOVE fingerprint delimiter;
  '(product, s) ← FIND_AND_REMOVE s delimiter;
  '(device, s) ← FIND_AND_REMOVE s delimiter2;
  '(platform_version, s) ← FIND_AND_REMOVE s delimiter;
  '(build_id, s) ← FIND_AND_REMOVE s delimiter;
  '(build_number, s) ← FIND_AND_REMOVE s delimiter2;
  '(build_variant, s) ← FIND_AND_REMOVE s delimiter;
  let build_version_tags := s in
  let description := product +:+ "-" +:+ build_variant in
  let description := APPEND_STRING description platform_version in
  let description := APPEND_STRING description build_id in
  let description := APPEND_STRING description build_number in
  let description := APPEND_STRING description build_version_tags in
  Some description.

(** * libinit_variant.cpp *)
Record variant_info := VariantInfo {
  hwc_value : string;
  sku_value : string;
  brand : string;
  device : string;
  model : string;
  build_fingerprint : string;
  nfc : bool;
}.

Definition HWC_PROP : string := "ro.boot.rsc".
Definition SKU_PROP : string := "ro.boot.product.hardware.sku".

Section variant.
Context {W : Type} `{!SysProp W}.

Definition set_variant_props (variant : variant_info) (w : W) : option W :=
  let w := set_ro_build_prop "brand" (brand variant) true w in
  let w := set_ro_build_prop "device" (device variant) true w in
  let w := set_ro_build_prop "model" (model variant) true w in
  let w := set_ro_build_prop "fingerprint" (build_fingerprint variant) false w in
  let w := property_override "ro.bootimage.build.fingerprint"
             (build_fingerprint variant) true w in
  description ← fingerprint_to_description (build_fingerprint variant);
  let w := property_override "ro.build.description" description true w in
  Some (if nfc variant then property_override SKU_PROP "nfc" true w else w).

Definition variant_matches (hwc_v sku_v : string) (variant : variant_info) : bool :=
  (bool_decide (hwc_value variant = "") || bool_decide (hwc_value variant = hwc_v)) &&
  (bool_decide (sku_value variant = "") || bool_decide (sku_value variant = sku_v)).

Fixpoint search_loop (hwc_v sku_v : string) (variants : list variant_info) (w : W)
    : option W :=
  match variants with
  | [] => Some w
  | variant :: rest =>
      if variant_matches hwc_v sku_v variant then set_variant_props variant w
      else search_loop hwc_v sku_v rest w
  end.

Definition search_variant (variants : list variant_info) (w : W) : option W :=
  let hwc_v := GetProperty HWC_PROP "" w in
  let sku_v := GetProperty SKU_PROP "" w in
  search_loop hwc_v sku_v variants w.
End variant.

(** * libinit_dalvik_heap.cpp *)
Record dalvik_heap_info := DalvikHeapInfo {
  heapstartsize : string;
  heapgrowthlimit : string;
  heapsize : string;
  heapminfree : string;
  heapmaxfree : string;
  heaptargetutilization : string;
}.

Definition HEAPSTARTSIZE_PROP : string := "dalvik.vm.heapstartsize".
Definition HEAPGROWTHLIMIT_PROP : string := "dalvik.vm.heapgrowthlimit".
Definition HEAPSIZE_PROP : string := "dalvik.vm.heapsize".
Definition HEAPMINFREE_PROP : string := "dalvik.vm.heapminfree".
Definition HEAPMAXFREE_PROP : string := "dalvik.vm.heapmaxfree".
Definition HEAPTARGETUTILIZATION_PROP : string := "dalvik.vm.heaptargetutilization".

(** [GB(b)] is an [unsigned long long]. *)
Definition GB (b : Z) : Z := to_uint64 (b * 1024 * 1024 * 1024).

Definition dalvik_heap_info_8192 : dalvik_heap_info := {|
  heapstartsize := "24m";
  heapgrowthlimit := "256m";
  heapsize := "512m";
  heapminfree := "8m";
  heapmaxfree := "48m";
  heaptargetutilization := "0.4";
|}.

Definition dalvik_heap_info_6144 : dalvik_heap_info := {|
  heapstartsize := "16m";
  heapgrowthlimit := "256m";
  heapsize := "512m";
  heapminfree := "8m";
  heapmaxfree := "32m";
  heaptargetutilization := "0.5";
|}.

Definition dalvik_heap_info_4096 : dalvik_heap_info := {|
  heapstartsize := "8m";
  heapgrowthlimit := "256m";
  heapsize := "512m";
  heapminfree := "8m";
  heapmaxfree := "16m";
  heaptargetutilization := "0.6";
|}.

Section heap.
Context {W : Type} `{!SysProp W}.

(** [totalram] is what [sysinfo] reports. *)
Definition set_dalvik_heap (totalram : Z) (w : W) : W :=
  let dhi :=
    if bool_decide (GB 7 < totalram) then dalvik_heap_info_8192
    else if bool_decide (GB 5 < totalram) then dalvik_heap_info_6144
    else dalvik_heap_info_4096 in
  let w :=
    if bool_decide (totalram < GB 5)
    then property_override "ro.config.avoid_gfx_accel" "true" true w else w in
  let w := property_override HEAPSTARTSIZE_PROP (heapstartsize dhi) true w in
  let w := property_override HEAPGROWTHLIMIT_PROP (heapgrowthlimit dhi) true w in
  let w := property_override HEAPSIZE_PROP (heapsize dhi) true w in
  let w := property_override HEAPTARGETUTILIZATION_PROP
             (heaptargetutilization dhi) true w in
  let w := property_override HEAPMINFREE_PROP (heapminfree dhi) true w in
  property_override HEAPMAXFREE_PROP (heapmaxfree dhi) true w.
End heap.

(** * init_xiaomi_camellia.cpp *)
Definition camelliain_info : variant_info := {|
  hwc_value := "camelliain";
  sku_value := "camellia";
  brand := "Redmi";
  device := "camellia";
  model := "Redmi Note 10T 5G";
  build_fingerprint := "Redmi/camellia_in/camelliain:12/SP1A.210812.016/V14.0.6.0.TKSMIXM:user/release-keys";
  nfc := false;
|}.

Definition camelliacn_info : variant_info := {|
  hwc_value := "camelliacn";
  sku_value := "camelliar";
  brand := "Redmi";
  device := "camellia";
  model := "Redmi Note 11SE";
  build_fingerprint := "Redmi/camellia/camellia:12/SP1A.210812.016/V14.0.6.0.TKSMIXM:user/release-keys";
  nfc := false;
|}.

Definition camellia_info : variant_info := {|
  hwc_value := "camelliacn";
  sku_value := "camellia";
  brand := "Redmi";
  device := "camellia";
  model := "Redmi Note 10 5G";
  build_fingerprint := "Redmi/camellia/camellia:12/SP1A.210812.016/V14.0.6.0.TKSMIXM:user/release-keys";
  nfc := false;
|}.

Definition camelliagl_info : variant_info := {|
  hwc_value := "camelliagl";
  sku_value := "camellian";
  brand := "Redmi";
  device := "camellian";
  model := "Redmi Note 10 5G";
  build_fingerprint := "Redmi/camellian_global/camellian:12/SP1A.210812.016/V14.0.6.0.TKSMIXM:user/release-keys";
  nfc := true;
|}.

Definition camellianp_info : variant_info := {|
  hwc_value := "camelliagl";
  sku_value := "camellianp";
  brand := "POCO";
  device := "camellian";
  model := "POCO M3 Pro 5G";
  build_fingerprint := "POCO/camellian_p_global/camellian:12/SP1A.210812.016/V14.0.6.0.TKSMIXM:user/release-keys";
  nfc := true;
|}.

Definition variants : list variant_info :=
  [camelliain_info; camelliacn_info; camellia_info; camelliagl_info; camellianp_info].

Definition vendor_load_properties {W} `{!SysProp W} (totalram : Z) (w : W) : option W :=
  w ← search_variant variants w;
  Some (set_dalvik_heap totalram w).

(** * The fingerprint parser *)
(** With the delimiter: the field before it, and the rest after it. *)
Lemma FIND_AND_REMOVE_field a c b :
  has_char c a = false → size (a +:+ String c b) < npos →
  FIND_AND_REMOVE (a +:+ String c b) (String c "") = Some (a, b).
Proof.
  intros Ha Hs. unfold FIND_AND_REMOVE, find. rewrite find_pos_app by done.
  change (Z.of_nat (String.length a)) with (size a). simpl.
  rewrite substr_0_app. simpl. rewrite size_app, size_String in Hs.
  pose proof (size_nonneg a). pose proof (size_nonneg b).
  change (size (String c "")) with 1.
  rewrite wrapu_id by (unfold npos, in_uint in *; lia).
  by rewrite erase_0_app.
Qed.

(** Without it: the whole string, twice ([npos + 1] is [0]). *)
Lemma FIND_AND_REMOVE_missing c s :
  has_char c s = false → size s < npos →
  FIND_AND_REMOVE s (String c "") = Some (s, s).
Proof.
  intros Hc Hs. unfold FIND_AND_REMOVE, find. rewrite find_pos_None by done.
  rewrite substr_0_all by lia. simpl.
  change (to_size (npos + size (String c ""))) with 0.
  by rewrite erase_0_0.
Qed.

(** [prefix("/"), ...]: the text of a build fingerprint. *)
Definition fingerprint_text (br pr dev ver id num var tags : string) : string :=
  br +:+ "/" +:+ pr +:+ "/" +:+ dev +:+ ":" +:+ ver +:+ "/" +:+ id +:+ "/" +:+
  num +:+ ":" +:+ var +:+ "/" +:+ tags.

(** C39: the parser takes a build fingerprint
    [brand/product/device:version/id/number:variant/tags] apart and builds the
    description [product-variant version id number tags]; the only condition
    is that no field holds the delimiter that ends it. *)
Theorem fingerprint_description_correct br pr dev ver id num var tags :
  has_char "/" br = false → has_char "/" pr = false → has_char ":" dev = false →
  has_char "/" ver = false → has_char "/" id = false → has_char ":" num = false →
  has_char "/" var = false →
  size (fingerprint_text br pr dev ver id num var tags) < npos →
  fingerprint_to_description (fingerprint_text br pr dev ver id num var tags) =
    Some (pr +:+ "-" +:+ var +:+ " " +:+ ver +:+ " " +:+ id +:+ " " +:+ num +:+
          " " +:+ tags).
Proof.
  intros Hbr Hpr Hdev Hver Hid Hnum Hvar. unfold fingerprint_text.
  rewrite !app_string_cons, !app_string_nil_l. intros Hs.
  unfold fingerprint_to_description.
  repeat (rewrite FIND_AND_REMOVE_field; [simpl|done|size_lia]).
  unfold APPEND_STRING. rewrite !app_string_cons, !app_string_nil_l. by rewrite <- !app_string_assoc, !app_string_cons, !app_string_nil_l.
Qed.

(** * Overrides as a list of writes *)
Fixpoint last_write (k : string) (l : list (string * string)) : option string :=
  match l with
  | [] => None
  | (k', v) :: l =>
      match last_write k l with
      | Some v' => Some v'
      | None => if decide (k = k') then Some v else None
      end
  end.

Definition heap_writes (totalram : Z) : list (string * string) :=
  let dhi :=
    if bool_decide (GB 7 < totalram) then dalvik_heap_info_8192
    else if bool_decide (GB 5 < totalram) then dalvik_heap_info_6144
    else dalvik_heap_info_4096 in
  (if bool_decide (totalram < GB 5) then [("ro.config.avoid_gfx_accel", "true")] else []) ++
  [(HEAPSTARTSIZE_PROP, heapstartsize dhi); (HEAPGROWTHLIMIT_PROP, heapgrowthlimit dhi);
   (HEAPSIZE_PROP, heapsize dhi); (HEAPTARGETUTILIZATION_PROP, heaptargetutilization dhi);
   (HEAPMINFREE_PROP, heapminfree dhi); (HEAPMAXFREE_PROP, heapmaxfree dhi)].

Definition ro_build_writes (prop value : string) (product : bool) : list (string * string) :=
  map (λ source,
    (if product then "ro.product." +:+ source +:+ prop
     else "ro." +:+ source +:+ "build." +:+ prop, value)) ro_props_default_source_order.

Definition variant_writes (v : variant_info) (description : string) : list (string * string) :=
  ro_build_writes "brand" (brand v) true ++ ro_build_writes "device" (device v) true ++
  ro_build_writes "model" (model v) true ++
  ro_build_writes "fingerprint" (build_fingerprint v) false ++
  [("ro.bootimage.build.fingerprint", build_fingerprint v);
   ("ro.build.description", description)] ++
  (if nfc v then [(SKU_PROP, "nfc")] else []).

Section laws.
Context {W : Type} `{!SysProp W} `{!SysPropLaws W}.
Implicit Types (w : W) (k : string).

Definition overrides (l : list (string * string)) (w : W) : W :=
  foldl (λ w kv, property_override kv.1 kv.2 true w) w l.

Definition fits (v : string) : Prop := (String.length v < PROP_VALUE_MAX)%nat.

#[local] Instance fits_dec v : Decision (fits v).
Proof. unfold fits. apply _. Defined.

(** Two states are equivalent when every reader sees the same. *)
Definition same_props w w' : Prop := ∀ k, prop_at k w = prop_at k w'.

#[export] Instance same_props_equivalence : Equivalence same_props.
Proof.
  unfold same_props. split; [by intros ??|by intros ????|].
  intros x y z H1 H2 k. by rewrite H1, H2.
Qed.

Lemma prop_at_override k k' v w :
  fits v →
  prop_at k' (property_override k v true w) =
    if decide (k' = k) then Some v else prop_at k' w.
Proof.
  intros Hv. unfold property_override. destruct (system_property_find k w) eqn:Hf.
  - by apply update_at.
  - apply add_at; [by apply find_None|done].
Qed.

Lemma prop_at_overrides k l w :
  Forall (λ kv, fits kv.2) l →
  prop_at k (overrides l w) = from_option Some (prop_at k w) (last_write k l).
Proof.
  revert w. induction l as [|[k' v] l IH]; intros w Hl; [done|].
  apply Forall_cons in Hl as [Hv Hl]. cbn [overrides foldl fst snd].
  fold (overrides l (property_override k' v true w)). rewrite (IH _ Hl).
  rewrite prop_at_override by done. cbn [last_write].
  destruct (last_write k l); [done|]. by case_decide.
Qed.

#[export] Instance overrides_proper l (H : Forall (λ kv, fits kv.2) l) :
  Proper (same_props ==> same_props) (overrides l).
Proof.
  intros w w' Hw k. rewrite !prop_at_overrides by done. by rewrite (Hw k).
Qed.

Lemma overrides_app l1 l2 w : overrides (l1 ++ l2) w = overrides l2 (overrides l1 w).
Proof. apply foldl_app. Qed.

Lemma overrides_idempotent l w :
  Forall (λ kv, fits kv.2) l →
  same_props (overrides l (overrides l w)) (overrides l w).
Proof.
  intros Hl k. rewrite !prop_at_overrides by done. by destruct (last_write k l).
Qed.

Lemma set_ro_build_prop_writes prop value product w :
  set_ro_build_prop prop value product w = overrides (ro_build_writes prop value product) w.
Proof. done. Qed.

Lemma set_variant_props_writes v d w :
  fingerprint_to_description (build_fingerprint v) = Some d →
  set_variant_props v w = Some (overrides (variant_writes v d) w).
Proof.
  intros Hd. unfold set_variant_props. rewrite Hd. simpl.
  unfold variant_writes. by destruct (nfc v).
Qed.

Lemma set_dalvik_heap_writes ram w :
  set_dalvik_heap ram w = overrides (heap_writes ram) w.
Proof.
  unfold set_dalvik_heap, heap_writes. rewrite overrides_app.
  by repeat case_bool_decide.
Qed.

Lemma heap_writes_fit ram : Forall (λ kv, fits kv.2) (heap_writes ram).
Proof.
  unfold heap_writes, fits. rewrite value_max. repeat case_bool_decide;
    repeat constructor; simpl; lia.
Qed.

(** The identity that readers see once a variant is set. *)
Definition identity_of (v : variant_info) (d : string) w : Prop :=
  (∀ source, source ∈ ro_props_default_source_order →
    prop_at ("ro.product." +:+ source +:+ "brand") w = Some (brand v) ∧
    prop_at ("ro.product." +:+ source +:+ "device") w = Some (device v) ∧
    prop_at ("ro.product." +:+ source +:+ "model") w = Some (model v) ∧
    prop_at ("ro." +:+ source +:+ "build." +:+ "fingerprint") w =
      Some (build_fingerprint v)) ∧
  prop_at "ro.bootimage.build.fingerprint" w = Some (build_fingerprint v) ∧
  prop_at "ro.build.description" w = Some d.

Definition variant_fits (v : variant_info) (d : string) : Prop :=
  fits (brand v) ∧ fits (device v) ∧ fits (model v) ∧ fits (build_fingerprint v) ∧ fits d.

Lemma ro_build_writes_fit prop value product :
  fits value → Forall (λ kv, fits kv.2) (ro_build_writes prop value product).
Proof. intros H. unfold ro_build_writes. apply Forall_map. by apply Forall_true. Qed.

Lemma boot_writes_fit v d ram :
  variant_fits v d → Forall (λ kv, fits kv.2) (variant_writes v d ++ heap_writes ram).
Proof.
  intros (? & ? & ? & ? & ?). apply Forall_app_2; [|apply heap_writes_fit].
  unfold variant_writes. repeat apply Forall_app_2; auto using ro_build_writes_fit.
  destruct (nfc v); repeat constructor. unfold fits. rewrite value_max. simpl. lia.
Qed.

(** The keys written at boot are closed strings, so reading one back is
    a computation. *)
Ltac solve_read :=
  rewrite prop_at_overrides by (by apply boot_writes_fit);
  unfold variant_writes, heap_writes; repeat case_bool_decide; by destruct (nfc _).

Lemma identity_overrides v d ram w :
  variant_fits v d →
  identity_of v d (overrides (variant_writes v d ++ heap_writes ram) w).
Proof.
  intros Hf. split; [|split; solve_read].
  intros source Hin.
  elem_of_cases Hin; repeat split; solve_read.
Qed.

Lemma get_property_Some k v w : prop_at k w = Some v → v ≠ "" → GetProperty k "" w = v.
Proof. intros Hk Hv. rewrite get_property, Hk. by rewrite decide_False. Qed.

Lemma variants_fit v :
  v ∈ variants →
  ∃ d, fingerprint_to_description (build_fingerprint v) = Some d ∧ variant_fits v d.
Proof.
  intros Hv. unfold variant_fits, fits. rewrite value_max.
  elem_of_cases Hv; eexists; (split; [vm_compute; reflexivity|]); simpl; repeat split; lia.
Qed.

Lemma variants_nonempty v : v ∈ variants → hwc_value v ≠ "" ∧ sku_value v ≠ "".
Proof. intros Hv. by elem_of_cases Hv. Qed.

Lemma search_loop_first_match hwc_v sku_v vs w :
  search_loop hwc_v sku_v vs w =
    match List.find (variant_matches hwc_v sku_v) vs with
    | Some v => set_variant_props v w
    | None => Some w
    end.
Proof.
  induction vs as [|v vs IH]; simpl; [done|].
  by destruct (variant_matches hwc_v sku_v v).
Qed.

Lemma search_loop_table v w :
  v ∈ variants → search_loop (hwc_value v) (sku_value v) variants w = set_variant_props v w.
Proof.
  intros Hv. by elem_of_cases Hv.
Qed.

Lemma vendor_load_variant v d ram w :
  v ∈ variants → fingerprint_to_description (build_fingerprint v) = Some d →
  search_variant variants w = set_variant_props v w →
  vendor_load_properties ram w = Some (overrides (variant_writes v d ++ heap_writes ram) w).
Proof.
  intros Hv Hd Hs. unfold vendor_load_properties. rewrite Hs.
  rewrite (set_variant_props_writes v d) by done. simpl.
  by rewrite set_dalvik_heap_writes, overrides_app.
Qed.

Lemma vendor_load_no_variant ram w :
  search_variant variants w = Some w →
  vendor_load_properties ram w = Some (overrides (heap_writes ram) w).
Proof.
  intros Hs. unfold vendor_load_properties. rewrite Hs. simpl.
  by rewrite set_dalvik_heap_writes.
Qed.

Lemma search_variant_table v w :
  v ∈ variants → prop_at HWC_PROP w = Some (hwc_value v) →
  prop_at SKU_PROP w = Some (sku_value v) →
  search_variant variants w = set_variant_props v w.
Proof.
  intros Hv Hh Hk. unfold search_variant.
  destruct (variants_nonempty v Hv) as [Hne1 Hne2].
  rewrite (get_property_Some _ _ _ Hh), (get_property_Some _ _ _ Hk) by done.
  by apply search_loop_table.
Qed.

(** C38: a device of the table gets its own identity: when the boot
    properties name a variant, every partition's brand, device, model and
    fingerprint, the boot image's fingerprint and the description are that
    variant's, and the SKU turns to ["nfc"] exactly on the NFC variants. *)
Theorem vendor_load_identity v ram w :
  v ∈ variants → prop_at HWC_PROP w = Some (hwc_value v) →
  prop_at SKU_PROP w = Some (sku_value v) →
  ∃ d w', fingerprint_to_description (build_fingerprint v) = Some d ∧
    vendor_load_properties ram w = Some w' ∧ identity_of v d w' ∧
    prop_at SKU_PROP w' = Some (if nfc v then "nfc" else sku_value v).
Proof.
  intros Hv Hh Hk. destruct (variants_fit v Hv) as (d & Hd & Hf).
  exists d. eexists. split; [done|]. split.
  { apply vendor_load_variant; [done..|]. by apply search_variant_table. }
  split; [by apply identity_overrides|].
  rewrite prop_at_overrides by (by apply boot_writes_fit).
  unfold variant_writes, heap_writes.
  repeat case_bool_decide; destruct (nfc v); done.
Qed.

Lemma no_variant_nfc hwc_v : List.find (variant_matches hwc_v "nfc") variants = None.
Proof.
  unfold variants, variant_matches. simpl. by rewrite !andb_false_r.
Qed.

(** Writes that spare the two boot properties do not change the search. *)
Lemma search_variant_overrides l vs w :
  Forall (λ kv, fits kv.2) l →
  last_write HWC_PROP l = None → last_write SKU_PROP l = None →
  search_variant vs (overrides l w) =
    search_loop (GetProperty HWC_PROP "" w) (GetProperty SKU_PROP "" w) vs (overrides l w).
Proof.
  intros Hl H1 H2. unfold search_variant.
  by rewrite !get_property, !prop_at_overrides, H1, H2 by done.
Qed.

(** Boot is total and idempotent: whatever the properties hold, the
    hook ends without an exception, and running it a second time changes
    nothing that a reader sees (an NFC variant, whose SKU the first run
    replaced, is left alone by the second). *)
Theorem vendor_load_idempotent ram w :
  ∃ w1 w2, vendor_load_properties ram w = Some w1 ∧
    vendor_load_properties ram w1 = Some w2 ∧ same_props w1 w2.
Proof.
  pose proof (heap_writes_fit ram) as Hh.
  assert (last_write HWC_PROP (heap_writes ram) = None ∧
    last_write SKU_PROP (heap_writes ram) = None) as [HhH HhS]
    by (unfold heap_writes; repeat case_bool_decide; done).
  pose proof (search_loop_first_match (GetProperty HWC_PROP "" w)
    (GetProperty SKU_PROP "" w) variants) as Hfirst.
  destruct (List.find _ variants) as [v|] eqn:Hfind.
  - pose proof (proj1 (List.find_some _ _ Hfind)) as Hv.
    apply list_elem_of_In in Hv. destruct (variants_fit v Hv) as (d & Hd & Hf).
    pose proof (boot_writes_fit v d ram Hf) as Hl.
    set (w1 := overrides (variant_writes v d ++ heap_writes ram) w).
    assert (vendor_load_properties ram w = Some w1) as H1
      by (apply vendor_load_variant; [done..|exact (Hfirst w)]).
    destruct (nfc v) eqn:Hnfc.
    + assert (search_variant variants w1 = Some w1) as Hs.
      { unfold search_variant. rewrite search_loop_first_match.
        rewrite (get_property_Some SKU_PROP "nfc" w1);
          [by rewrite no_variant_nfc| |done].
        unfold w1. rewrite prop_at_overrides by done. unfold variant_writes.
        rewrite Hnfc. unfold heap_writes. by repeat case_bool_decide. }
      exists w1, (overrides (heap_writes ram) w1). split; [done|].
      split; [by apply vendor_load_no_variant|]. symmetry. unfold w1.
      rewrite overrides_app. by apply overrides_idempotent.
    + exists w1, (overrides (variant_writes v d ++ heap_writes ram) w1).
      split; [done|]. split; [|symmetry; by apply overrides_idempotent].
      apply vendor_load_variant; [done..|]. unfold w1 at 1.
      rewrite search_variant_overrides; [by apply Hfirst|done|..];
        unfold variant_writes; rewrite Hnfc; unfold heap_writes;
        by repeat case_bool_decide.
  - exists (overrides (heap_writes ram) w),
      (overrides (heap_writes ram) (overrides (heap_writes ram) w)).
    split; [apply vendor_load_no_variant; exact (Hfirst w)|].
    split; [|symmetry; by apply overrides_idempotent].
    apply vendor_load_no_variant.
    rewrite search_variant_overrides by done. apply Hfirst.
Qed.

Definition heap_keys : list string :=
  ["ro.config.avoid_gfx_accel"; HEAPSTARTSIZE_PROP; HEAPGROWTHLIMIT_PROP; HEAPSIZE_PROP;
   HEAPTARGETUTILIZATION_PROP; HEAPMINFREE_PROP; HEAPMAXFREE_PROP].

Lemma last_write_None k l : k ∉ l.*1 → last_write k l = None.
Proof.
  induction l as [|[k' v] l IH]; simpl; [done|].
  intros [Hk Hl]%not_elem_of_cons. rewrite (IH Hl). by rewrite decide_False.
Qed.

Lemma heap_writes_keys k ram : k ∉ heap_keys → last_write k (heap_writes ram) = None.
Proof.
  intros Hk. apply last_write_None. intros Hin. apply Hk. unfold heap_writes in Hin.
  unfold heap_keys. case_bool_decide; simpl in Hin; [done|]. by apply list_elem_of_further.
Qed.

(** An unknown device keeps its identity: when no variant carries both
    boot values, only the heap properties can change. *)
Theorem vendor_load_unknown ram w :
  Forall (λ v, hwc_value v ≠ GetProperty HWC_PROP "" w ∨
               sku_value v ≠ GetProperty SKU_PROP "" w) variants →
  ∃ w', vendor_load_properties ram w = Some w' ∧
    ∀ k, k ∉ heap_keys → prop_at k w' = prop_at k w.
Proof.
  intros Hno. exists (overrides (heap_writes ram) w). split.
  - apply vendor_load_no_variant. unfold search_variant.
    rewrite search_loop_first_match.
    destruct (List.find _ variants) as [v|] eqn:Hf; [|done]. exfalso.
    apply List.find_some in Hf as [Hin Hm]. apply list_elem_of_In in Hin.
    rewrite Forall_forall in Hno. specialize (Hno v Hin).
    destruct (variants_nonempty v Hin) as [Hne1 Hne2].
    unfold variant_matches in Hm. rewrite !(bool_decide_false (_ = "")) in Hm by done.
    apply andb_true_iff in Hm as [H1%bool_decide_eq_true H2%bool_decide_eq_true].
    destruct Hno as [Hno|Hno]; by apply Hno.
  - intros k Hk. rewrite prop_at_overrides by apply heap_writes_fit.
    by rewrite heap_writes_keys.
Qed.

(** C40: the heap tier follows the memory: above 7 GiB, above 5 GiB, and the
    rest; the hint against accelerated graphics is written strictly below
    5 GiB only (a device with exactly 5 GiB has the smallest tier without
    the hint). *)
Theorem dalvik_heap_tiers ram w :
  let tier {A} (a b c : A) :=
    if bool_decide (7 * 2 ^ 30 < ram) then a else if bool_decide (5 * 2 ^ 30 < ram) then b
    else c in
  let w' := set_dalvik_heap ram w in
  prop_at HEAPSTARTSIZE_PROP w' = Some (tier "24m" "16m" "8m") ∧
  prop_at HEAPMAXFREE_PROP w' = Some (tier "48m" "32m" "16m") ∧
  prop_at HEAPTARGETUTILIZATION_PROP w' = Some (tier "0.4" "0.5" "0.6") ∧
  prop_at HEAPGROWTHLIMIT_PROP w' = Some "256m" ∧
  prop_at HEAPSIZE_PROP w' = Some "512m" ∧
  prop_at HEAPMINFREE_PROP w' = Some "8m" ∧
  prop_at "ro.config.avoid_gfx_accel" w' =
    (if bool_decide (ram < 5 * 2 ^ 30) then Some "true"
     else prop_at "ro.config.avoid_gfx_accel" w).
Proof.
  intros tier w'. subst w'. rewrite set_dalvik_heap_writes.
  rewrite !prop_at_overrides by apply heap_writes_fit. unfold tier, heap_writes.
  change (GB 7) with (7 * 2 ^ 30). change (GB 5) with (5 * 2 ^ 30).
  repeat case_bool_decide; try lia; done.
Qed.
End laws.

(** * Witnesses: a device with a finite map for its property area *)
Definition boot_props (hwc sku : string) : gmap string string :=
  <[HWC_PROP := hwc]> (<[SKU_PROP := sku]> ∅).

Lemma fingerprint_description_witness :
  fingerprint_to_description
    (fingerprint_text "POCO" "camellian_p_global" "camellian" "12" "SP1A.210812.016"
       "V14.0.6.0.TKSMIXM" "user" "release-keys") =
    Some "camellian_p_global-user 12 SP1A.210812.016 V14.0.6.0.TKSMIXM release-keys".
Proof. apply fingerprint_description_correct; vm_compute; reflexivity. Defined.

Lemma vendor_load_identity_witness :
  ∃ d w', fingerprint_to_description (build_fingerprint camelliagl_info) = Some d ∧
    vendor_load_properties (4 * 2 ^ 30) (boot_props "camelliagl" "camellian") = Some w' ∧
    identity_of camelliagl_info d w' ∧ prop_at SKU_PROP w' = Some "nfc".
Proof.
  apply (vendor_load_identity camelliagl_info); [|vm_compute; reflexivity..].
  do 3 apply list_elem_of_further. apply list_elem_of_here.
Defined.

Lemma vendor_load_unknown_witness :
  ∃ w', vendor_load_properties (8 * 2 ^ 30) (boot_props "camelliaxx" "camellia") = Some w' ∧
    ∀ k, k ∉ heap_keys → prop_at k w' = prop_at k (boot_props "camelliaxx" "camellia").
Proof.
  apply (vendor_load_unknown (8 * 2 ^ 30) (boot_props "camelliaxx" "camellia")).
  repeat (apply Forall_cons_2; [left; vm_compute; discriminate|]).
  apply Forall_nil_2.
Defined.
