(* ===== verification/Services.v ===== *)
(** The [main] functions of the HAL services ([src/usb/service.cpp],
    [src/fingerprint/service.cpp], [src/sensors/service.cpp]): the objects are
    made, registered with the service manager, and served by the thread pool. *)
From S2P Require Import Prelude Effects.
From stdpp Require Import options.
#[local] Set Default Proof Using "Type*".

(** The services of the three processes. *)
Inductive service := UsbService | UsbGadgetService | FingerprintService | SensorsService.
#[export] Instance service_eq_dec : EqDecision service.
Proof. solve_decision. Defined.

Inductive serviceE : Type → Type :=
(* the object: constructed, or got from its class; a null pointer is possible *)
| Make (sv : service) : serviceE bool
| ConfigureRpcThreadpool (maxThreads : Z) (callerWillJoin : bool) : serviceE unit
(* [true]: OK *)
| RegisterAsService (sv : service) : serviceE bool
| JoinRpcThreadpool : serviceE unit.

Section services.
Context {W : Type} {H : Handler serviceE W}.

#[local] Abbreviation io A := (prog serviceE unit A).

(** [new] gives an object. *)
Definition usb_main : io Z :=
  _ ← call (Make UsbService);
  _ ← call (Make UsbGadgetService);
  call (ConfigureRpcThreadpool 2 true) ;;
  status ← call (RegisterAsService UsbService);
  if negb status then mret 1
  else
    status ← call (RegisterAsService UsbGadgetService);
    if negb status then mret 1
    else call JoinRpcThreadpool ;; mret 1.

(** Without an object the process serves nothing. *)
Definition fingerprint_main : io Z :=
  bio ← call (Make FingerprintService);
  call (ConfigureRpcThreadpool 1 true) ;;
  if bio : bool then
    status ← call (RegisterAsService FingerprintService);
    if negb status then mret 1 else call JoinRpcThreadpool ;; mret 0
  else call JoinRpcThreadpool ;; mret 0.

Definition sensors_main : io Z :=
  call (ConfigureRpcThreadpool 1 true) ;;
  _ ← call (Make SensorsService);
  status ← call (RegisterAsService SensorsService);
  if negb status then mret (-1) else call JoinRpcThreadpool ;; mret 1.

(** The answers of the service manager. *)
Definition registrations (l : list (entry serviceE)) : list (service * bool) :=
  omap (λ e, match e with
             | Entry c r =>
                 match c in serviceE X return X → option (service * bool) with
                 | RegisterAsService sv => λ r, Some (sv, r)
                 | _ => λ _, None
                 end r
             end) l.

Definition joins (l : list (entry serviceE)) : bool :=
  existsb (λ e, match entry_call e with JoinRpcThreadpool => true | _ => false end) l.

(** The USB process serves only when both of its services are registered, and the
    gadget's is not registered when the port's cannot be. *)
Lemma usb_main_serves s w :
  wp usb_main s w (λ r _ _ l, r = 1 ∧
    (joins l = true ↔ registrations l = [(UsbService, true); (UsbGadgetService, true)]) ∧
    fst <$> registrations l `prefix_of` [UsbService; UsbGadgetService]).
Proof.
  unfold usb_main. wp_run; repeat match goal with b : bool |- _ => destruct b end; try done;
    (split_and!; [done|by split|by apply (bool_decide_unpack _)]).
Qed.

Lemma sensors_main_serves s w :
  wp sensors_main s w (λ _ _ _ l, joins l = true ↔ registrations l = [(SensorsService, true)]).
Proof.
  unfold sensors_main. wp_run; repeat match goal with b : bool |- _ => destruct b end; try done;
    by split.
Qed.

(** The fingerprint process also joins the thread pool without an object. *)
Lemma fingerprint_main_serves s w :
  wp fingerprint_main s w (λ _ _ _ l,
    joins l = true ↔ registrations l = [(FingerprintService, true)] ∨ registrations l = []).
Proof.
  unfold fingerprint_main.
  wp_run; repeat match goal with b : bool |- _ => destruct b end; try done; simpl;
    split; naive_solver.
Qed.
End services.
